(* ===== verification/_CoqProject ===== *)
-Q . S2P
Prelude.v
Effects.v
GoSort.v
Crypto.v
GoText.v
Store.v
Keymat.v
StoreSpec.v
Heap.v
References.v
HeapSpec.v
Client.v
Conformance.v
ConformanceProps.v
ConformanceLists.v
Apikeyv1.v
Memory.v
MemoryProps.v
Mutex.v
MemoryStatements.v
HeapMemory.v
HeapMemoryProps.v
HeapPrivacy.v
HeapTheorems.v
StoreFacts.v
Server.v
ServerLogic.v
ServerSpec.v
Rpc.v
Inline.v
ServerCalls.v
Interleaving.v
Lifecycle.v
Demo.v
RpcSpec.v
Postgres.v
PostgresProps.v
History.v
Concurrency.v
MemoryMutex.v
Services.v
MemoryTheorems.v
PostgresTheorems.v
Replicas.v
ReplicasTheorems.v
HeapPostgres.v
HeapPostgresProps.v
SuiteTheorems.v
GoUrl.v
Config.v
ConfigTheorems.v
Main.v
MainTheorems.v
Embedded.v
EmbeddedTheorems.v
Process.v
ProcessProps.v
ProcessTheorems.v
