(* ===== verification/Prelude.v ===== *)
(** * Keychain: a verification development for the API-key service

    The program (Go, under src/) issues, verifies, rotates and revokes API keys over
    gRPC.  A request enters a handler of the service (keychainserver/server.go), which
    makes and hashes key material (pkg/keymat), reads and writes a store behind an
    interface (keychainserver/store) and may ask a rate limiter.  Two drivers implement
    the interface: maps in the process (store/memory) and PostgreSQL (store/postgres);
    a suite of tests (store/conformance) says what a driver must do.  The command
    (cmd/keychain) loads a configuration (internal/config), opens the store, serves and
    shuts down.

    ** How the parts correspond to the code

    A program that calls its environment is a finite tree of events (Effects): [run]
    interprets it alone, [cstep] and [run_schedule] interleave the events of many, and
    [wp] and [emits] reason about every run.  A method under a mutex is a function of
    its state.  Errors are values of [error] with [errors_is] for [errors.Is]; a panic
    is [None].  Times are nanoseconds in Z, integers are Z with [wrap64] where Go wraps.

    - Crypto, GoSort, GoText, GoUrl: executable models of what the code uses of the Go
      library: SHA-256, base32, sorting and searching strings, UTF-8 and JSON values,
      URLs.
    - Keymat: pkg/keymat/keymat.go, [New], [Hash], [HashEqual], [Validate].
    - Store, StoreSpec, StoreFacts: store.go.  The types; the interface as the signature
      [StoreE]; its contract, one relation per method on an abstract state of three maps;
      the class [StoreImpl] of drivers that keep the contract; its consequences.  Two
      parameters tell drivers apart: the clock a call reads, and [restamps], whether a
      repeated revocation rewrites the update time (PostgreSQL does, store.go says it is
      a no-op).  The theorems about the service use the contract at any clock.
    - Memory, MemoryProps, MemoryTheorems: memory.go on values, a driver in [StoreImpl].
    - Mutex, MemoryStatements, MemoryMutex: methods that hold a mutex, interleaved at
      their statements; memory.go statement by statement; the service over it.
    - Heap, References, HeapSpec, Client: slices, maps and pointers as references to a
      shared heap; the types and the interface with references; the class [HeapImpl] of
      drivers whose objects live in the heap of their caller; programs that share a heap
      with a store, with their weakest preconditions.
    - HeapMemory, HeapMemoryProps, HeapPrivacy: memory.go on the heap, with the copies it
      makes ([cloneKey] and its siblings), a driver in [HeapImpl]; the footprint of a
      store and what a caller can reach.
      HeapTheorems: the theorems about them.
    - HeapPostgres, HeapPostgresProps: postgres.go on the heap: the same statements, the
      rows decoded into new objects, the created record answered as it was given; a
      driver in [HeapImpl].
    - Conformance, ConformanceProps, ConformanceLists: conformance.go, the 35 tests of
      [Run] as programs of Client, proved against [HeapImpl] for any precision of times
      and order of identifiers in [Precise].  SuiteTheorems: both drivers pass.
    - Postgres, PostgresProps, PostgresTheorems: postgres.go and the migration.  The
      tables, every SQL statement as one atomic event that may fail before or after it
      took effect, the twelve methods, [New] and [RunMigrations]; a driver in
      [StoreImpl].
    - Inline, History, Replicas, ReplicasTheorems: programs of calls with the programs of
      the methods in their place; the sequences of SQL statements a database answers;
      processes of the service, each with its own clock, limiter and entropy, that share
      one database and nothing else; the service over them, statement by statement.
    - Apikeyv1, Server, Rpc: the messages and getters of gen/apikey/v1, the ten handlers
      with the converters of server.go and options.go, and the requests as one type.
      ServerLogic, ServerSpec, RpcSpec, ServerCalls, Interleaving, Lifecycle: reasoning
      about handlers over any driver.  Demo: small concrete instances.  Services,
      Concurrency: the theorems.
    - Config, ConfigTheorems: internal/config/config.go.  Main, MainTheorems:
      cmd/keychain/main.go, its commands, wiring, goroutines and shutdown.  Embedded,
      EmbeddedTheorems: examples/embedded/main.go over the same events.
    - Process, ProcessProps, ProcessTheorems: the goroutines, the channels, the signal
      context and the servers of a process as a step relation; the invariant of its
      reachable states.

    The operations keep the names of the code, in a Module named after the package.

    ** What the theorems show

    - Concurrency: however requests interleave over any driver, a key is never verified
      more often than it has uses and without failures exactly as often as it is
      charged; an acknowledged revocation is final; a key stays in the workspace of its
      API, and an answer names the key that had the hash of the plaintext, with its API
      and workspace; every request is answered in a bounded number of its own steps.
    - MemoryMutex: the statements of memory.go under its mutex show only interleavings
      of whole methods, so that the theorems of Concurrency hold of them, and never
      deadlock.
    - ReplicasTheorems: the SQL statements of requests served by any processes interleave
      freely and may fail, before or after they took effect, and no handler or method is
      a transaction.  Still a key is never oversold, an answered revocation is final for
      every process, a plaintext verifies only for the key whose hash it has, the tables
      keep tenants apart, and no process waits for another.  These need no assumption on
      identifiers or clocks.
    - Services: each method alone over any driver, on every branch: VerifyKey decides as
      the specification does and a refusal changes nothing; creation, rotation,
      revocation, reads and lists have their documented effect or error.  In two requests
      in a row an issued key verifies and a rotated key has one plaintext, unless the
      driver fails; the clock and the limiter must let the key pass ([lets_pass]).
    - Keymat: the form of a key and its entropy; the constant-time comparison is equality.
    - MemoryTheorems, PostgresTheorems: each driver refines the contract, the second with
      [restamps]; pages are complete; the counter of uses is exact over int64; uses are
      charged once however the SQL statements of the calls interleave; opening the store
      leaves the pool open exactly on success, and the connection of the migrate driver,
      which nothing closes.
    - HeapTheorems: nothing a caller keeps or is given aliases a stored object, over any
      history of calls and writes; the state stays well typed.
    - SuiteTheorems: every driver that implements the interface and does not fail, keeps
      whole seconds and lists identifiers in the order of their text passes every test
      of the conformance suite.
    - ConfigTheorems, MainTheorems: defaults, validation and redaction; the resources of a
      run are released, in order, but for the connection of the migrate driver and for a
      gRPC server whose [Serve] failed, which nothing stops; the secrets of a URL that
      parses do not reach the output, and those of one that does not parse do; the limiter
      of the command fails closed.  EmbeddedTheorems: the resources of the example.
    - ProcessTheorems: under every interleaving of the goroutines, a process of the
      command and of the example never deadlocks, sends on or closes a closed channel
      or leaks a goroutine, and after a signal it ends.

    ** Bounds and fuel

    The handlers and the tests have no unbounded loops, so a program is a finite tree and
    a run needs no fuel.  [search_loop] has the length of its interval, [blocks] and the
    loops of GoText the length of their input, and lemmas show that this is enough;
    following page tokens ([list_all_complete]) ends within one page per key.  The tests
    that loop are bounded in the code.  A request is at most six events, and over PostgreSQL
    eighteen statements ([replicas_answered]): no schedule is cut short.

    ** Assumptions

    What is not under src/ is a parameter with named laws, instantiated by concrete
    functions in the witnesses: the protobuf timestamps ([TimestampPb]), PostgreSQL and
    pgx ([PgParams]: the precision of timestamps, the order of the collation, the
    canonical form of jsonb; for the suite also [Precise]), the hosts of net/url and the Unicode tables ([GoLib]), the
    gRPC server ([GrpcServer]: when its blocking calls return).  Of gRPC and of
    golang-migrate the accounts of resources use what their documentation says: a stop
    ends the connections of a server and closes its listener, [Serve] closes the listener
    when it returns but does not end the connections that were accepted, and the driver
    of [migratepg.WithInstance] keeps a connection until it is closed.
    Inputs of the environment are arguments: the clock, the entropy source, the answers
    of the rate limiter, and the identifiers of [uuid.NewString], which are assumed to be
    UUIDs that are fresh ([input_ok], [h_input_ok]).

    ** Not modelled, and why

    - The protobuf runtime, wire encoding and the generated gRPC stubs beyond the
      messages, getters and the list of methods: third-party and generated.
    - Isolation levels of PostgreSQL: the driver opens no transaction, so each statement
      is one, and a statement that touches one row is atomic at the default level.
    - Contexts and their timeouts, except where a wait of the command ends: they only
      turn into failures, which every statement and call may have.
    - What the metrics server and the gRPC server do with a request of the network:
      serving, stopping and the handlers they are given are events of the process.
    - The text of errors that only pgx produces, and the text of JSON (values are).
    - Capacity and overlap of slices: a slice refers to an object of its own, as every
      slice of the modelled code does. *)

From Stdlib Require Export ZArith Lia.
From Stdlib Require Export Strings.String Strings.Ascii Init.Byte.
From stdpp Require Export base tactics list gmap strings sorting fin_maps.
#[global] Open Scope Z_scope.

(** ** Proof automation shared by the files *)

#[export] Set Warnings "-clear-no-such-hyp".

Create HintDb kc discriminated.
Create Rewrite HintDb kc.

(** Case analysis on every [match] and [if] of the goal or of the hypotheses,
    cleaning up constructor equations after each one. *)
Ltac split_match :=
  match goal with
  | |- context [match ?x with _ => _ end] => destruct x eqn:?
  | H : context [match ?x with _ => _ end] |- _ => destruct x eqn:?
  end.

Ltac crush_match := repeat (split_match; simplify_eq/=); simplify_eq/=.

(** A decidable closed goal, by evaluation. *)
Ltac by_eval := apply (bool_decide_eq_true_1 _); vm_compute; reflexivity.

(** ** Go slices

    A Go slice is nil or a sequence of elements; the code distinguishes the two
    only in a few places (JSON encoding, [nonNilStrings]), so nil is [None]. *)

Definition slice (A : Type) : Type := option (list A).

Definition elems {A} (s : slice A) : list A := default [] s.

(** [append([]T(nil), s...)]: nil when [s] has no element. *)
Definition append_nil {A} (s : slice A) : slice A :=
  match elems s with
  | [] => None
  | l => Some l
  end.

Lemma elems_append_nil {A} (s : slice A) : elems (append_nil s) = elems s.
Proof. by destruct s as [[|x l]|]. Qed.

Lemma append_nil_idemp {A} (s : slice A) : append_nil (append_nil s) = append_nil s.
Proof. by destruct s as [[|x l]|]. Qed.

(** [l[i:j]] on Go ints: out of range panics ([None]). *)
Definition slice_range {A} (l : list A) (i j : Z) : option (list A) :=
  if decide (0 <= i <= j /\ j <= Z.of_nat (length l))
  then Some (take (Z.to_nat (j - i)) (drop (Z.to_nat i) l))
  else None.

(** [l[i]]: out of range panics ([None]). *)
Definition index {A} (l : list A) (i : Z) : option A :=
  if decide (0 <= i) then l !! Z.to_nat i else None.

#[export] Hint Rewrite @elems_append_nil @append_nil_idemp : kc.

(** ** Strongly sorted lists *)

Lemma StronglySorted_lookup_lt {A} (R : relation A) (l : list A) i j x y :
  StronglySorted R l -> (i < j)%nat -> l !! i = Some x -> l !! j = Some y -> R x y.
Proof.
  intros Hs. revert i j. induction Hs as [|z l Hl IH Hall]; intros i j Hij Hi Hj; [done|].
  destruct j as [|j]; [lia|]. simpl in Hj. destruct i as [|i]; simpl in Hi.
  - simplify_eq. rewrite Forall_forall in Hall. apply Hall. by eapply list_elem_of_lookup_2.
  - apply (IH i j); auto with lia.
Qed.

Lemma StronglySorted_take {A} (R : relation A) n (l : list A) :
  StronglySorted R l -> StronglySorted R (take n l).
Proof. intros Hs. rewrite <- (take_drop n l) in Hs. by apply StronglySorted_app_1_l in Hs. Qed.

Lemma StronglySorted_drop {A} (R : relation A) n (l : list A) :
  StronglySorted R l -> StronglySorted R (drop n l).
Proof. intros Hs. rewrite <- (take_drop n l) in Hs. by apply StronglySorted_app_1_r in Hs. Qed.

(** A sorted list without duplicates is strictly sorted. *)
Lemma StronglySorted_strict {A} (R : relation A) (l : list A) :
  StronglySorted R l -> NoDup l -> StronglySorted (fun a b => R a b /\ a <> b) l.
Proof.
  induction 1 as [|x k Hk IH Hall]; [constructor|]. intros [Hx Hnd]%NoDup_cons.
  constructor; [auto|]. rewrite Forall_forall in *. intros y Hy. split; [auto|]. by intros ->.
Qed.

Lemma StronglySorted_fmap {A B} (R : relation B) (f : A -> B) (l : list A) :
  StronglySorted (fun a b => R (f a) (f b)) l -> StronglySorted R (f <$> l).
Proof.
  induction 1 as [|x k Hk IH Hall]; [constructor|]. cbn. constructor; [done|]. by rewrite Forall_fmap.
Qed.

Lemma NoDup_filter_fmap {A B} (p : A -> bool) (f : A -> B) (l : list A) :
  NoDup (f <$> l) -> NoDup (f <$> List.filter p l).
Proof.
  induction l as [|x l IH]; [done|]. cbn. intros [Hx Hnd]%NoDup_cons. destruct (p x); [|auto].
  cbn. apply NoDup_cons. split; [|auto]. rewrite list_elem_of_fmap in *.
  intros (y & Hy & Hin). apply Hx. exists y. split; [done|].
  by apply list_elem_of_In, filter_In, proj1, list_elem_of_In in Hin.
Qed.

(** ** Sums over indices *)

Lemma sum_list_with_seq_S (g : nat -> nat) n :
  sum_list_with g (seq 0 (S n)) = (sum_list_with g (seq 0 n) + g n)%nat.
Proof. rewrite seq_S, sum_list_with_app. simpl. lia. Qed.

Lemma sum_list_with_ext {A} (f g : A -> nat) l :
  (forall x, f x = g x) -> sum_list_with f l = sum_list_with g l.
Proof. intros Hfg. induction l as [|x l IH]; simpl; [done|]. by rewrite Hfg, IH. Qed.

Lemma sum_by_index_le {A} (f : A -> nat) (g : nat -> nat) (l : list A) :
  (forall i x, l !! i = Some x -> (f x <= g i)%nat) ->
  (sum_list_with f l <= sum_list_with g (seq 0 (length l)))%nat.
Proof.
  induction l as [|x l IH] using rev_ind; intros Hl; [done|].
  rewrite length_app, Nat.add_1_r, sum_list_with_seq_S, sum_list_with_app. simpl.
  specialize (Hl (length l) x) as Hx. rewrite lookup_app_r, Nat.sub_diag in Hx by lia.
  assert (sum_list_with f l <= sum_list_with g (seq 0 (length l)))%nat; [|specialize (Hx eq_refl); lia].
  apply IH. intros i y Hi. apply Hl. by apply lookup_app_l_Some.
Qed.

Lemma sum_by_index_ge {A} (f : A -> nat) (g : nat -> nat) (l : list A) :
  (forall i x, l !! i = Some x -> (g i <= f x)%nat) ->
  (sum_list_with g (seq 0 (length l)) <= sum_list_with f l)%nat.
Proof.
  induction l as [|x l IH] using rev_ind; intros Hl; [done|].
  rewrite length_app, Nat.add_1_r, sum_list_with_seq_S, sum_list_with_app. simpl.
  specialize (Hl (length l) x) as Hx. rewrite lookup_app_r, Nat.sub_diag in Hx by lia.
  assert (sum_list_with g (seq 0 (length l)) <= sum_list_with f l)%nat; [|specialize (Hx eq_refl); lia].
  apply IH. intros i y Hi. apply Hl. by apply lookup_app_l_Some.
Qed.

Lemma sum_by_index_eq {A} (f : A -> nat) (g : nat -> nat) (l : list A) :
  (forall i x, l !! i = Some x -> f x = g i) ->
  sum_list_with f l = sum_list_with g (seq 0 (length l)).
Proof.
  intros Hl. apply Nat.le_antisymm; [apply sum_by_index_le|apply sum_by_index_ge];
    intros i x Hi; by rewrite (Hl i x Hi).
Qed.

Lemma sum_at_index (a b : nat -> nat) c n t :
  (t < n)%nat -> (forall i, a i = (if decide (t = i) then c else 0) + b i)%nat ->
  sum_list_with a (seq 0 n) = (c + sum_list_with b (seq 0 n))%nat.
Proof.
  intros Ht Ha.
  assert (Hgen : forall m, sum_list_with a (seq 0 m) =
    ((if decide (t < m)%nat then c else 0) + sum_list_with b (seq 0 m))%nat).
  { induction m as [|m IH]; [done|]. rewrite !sum_list_with_seq_S, IH, Ha.
    repeat case_decide; lia. }
  rewrite Hgen. by rewrite decide_True by done.
Qed.

(** ** Machine integers *)

Definition minInt64 : Z := - 2 ^ 63.
Definition maxInt64 : Z := 2 ^ 63 - 1.

(** Two's complement wrap-around of Go's [int64] (and of [int] on 64-bit). *)
Definition wrap64 (z : Z) : Z := (z + 2 ^ 63) mod 2 ^ 64 - 2 ^ 63.

Definition int64_range (z : Z) : Prop := minInt64 <= z <= maxInt64.
Definition int32_range (z : Z) : Prop := - 2 ^ 31 <= z <= 2 ^ 31 - 1.

Lemma wrap64_id z : int64_range z -> wrap64 z = z.
Proof.
  unfold int64_range, wrap64, minInt64, maxInt64. intros H.
  rewrite Z.mod_small; lia.
Qed.

Lemma wrap64_range z : int64_range (wrap64 z).
Proof.
  unfold int64_range, wrap64, minInt64, maxInt64.
  pose proof (Z.mod_pos_bound (z + 2 ^ 63) (2 ^ 64) ltac:(lia)). lia.
Qed.

(** ** Go errors

    The sentinels of the packages of the program are constructors, [ErrText]
    stands for any other [errors.New] value (and for the errors of code outside
    the repository), [ErrorfText f args] is [fmt.Errorf(f, args...)] without [%w], and
    [Errorf f args c] is [fmt.Errorf(f, args..., c)] whose last verb is [%w]: formats
    are kept, not rendered. *)

Inductive error : Type :=
| ErrNotFound
| ErrConflict
| ErrDepleted
| ErrEmpty
| ErrPrefixMissing
| ErrNoRows
| ErrNoChange
| ErrServerClosed
| ErrServerStopped
| PgError (code : string)
| ErrText (msg : string)
| ErrorfText (format : string) (args : list string)
| Errorf (format : string) (args : list string) (cause : error).

#[export] Instance error_eq_dec : EqDecision error.
Proof. solve_decision. Defined.

(** [errors.Is]: the chain of [%w] causes is searched. *)
Fixpoint errors_is (e target : error) : bool :=
  bool_decide (e = target) ||
  match e with
  | Errorf _ _ c => errors_is c target
  | _ => false
  end.

Lemma errors_is_refl e : errors_is e e = true.
Proof.
  unfold errors_is. destruct e; (rewrite bool_decide_eq_true_2; [done|reflexivity]).
Qed.

(** The chain of causes has one end, so it matches one sentinel. *)
Lemma errors_is_conflict e : errors_is e ErrConflict = true -> errors_is e ErrNotFound = false.
Proof. induction e; simpl; try done. Qed.

(** ** Strings *)

Lemma append_String x a b : String x a +:+ b = String x (a +:+ b).
Proof. reflexivity. Qed.

Lemma append_length a b : String.length (a +:+ b) = (String.length a + String.length b)%nat.
Proof. induction a as [|x a IH]; [done|]. rewrite append_String. cbn. by rewrite IH. Qed.

(** ** Results *)

Inductive result (E A : Type) : Type :=
| Ok (a : A)
| Err (e : E).
Arguments Ok {E A} a.
Arguments Err {E A} e.

#[export] Instance result_eq_dec `{EqDecision E, EqDecision A} : EqDecision (result E A).
Proof. solve_decision. Defined.

Abbreviation res := (result error) (only parsing).

Definition is_Ok {E A} (r : result E A) : bool :=
  match r with Ok _ => true | Err _ => false end.

#[export] Hint Resolve errors_is_refl : kc.
