(* ===== verification/Effects.v ===== *)
(** * Effects: programs as trees of events

    The handlers of the service call an interface (the store, the clock, the
    entropy source, the rate-limiter) and continue with the answer.  A handler
    is a finite tree: [Ret a] has finished with [a], [Vis e k] performs the event
    [e] and continues with [k].  Interpreted alone ([run]) it is the sequential
    function; interpreted in a pool of other handlers ([cstep]) each event is one
    atomic step, which is how requests interleave in the server. *)

From S2P Require Import Prelude.

(** Signatures of events: an event of type [E X] is answered by an [X]. *)
Universe answer_univ.
Abbreviation Ans := (Type@{answer_univ}) (only parsing).
Abbreviation Sig := (Ans -> Ans) (only parsing).

Inductive prog (E : Sig) (A : Type) : Type :=
| Ret (a : A)
| Vis (X : Ans) (e : E X) (k : X -> prog E A).
Arguments Ret {E A} a.
Arguments Vis {E A X} e k.

Section Monad.
Context {E : Sig}.

Fixpoint bind {A B} (f : A -> prog E B) (p : prog E A) : prog E B :=
  match p with
  | Ret a => f a
  | Vis e k => Vis e (fun x => bind f (k x))
  end.

Definition trigger {X} (e : E X) : prog E X := Vis e Ret.

#[global] Instance prog_ret : MRet (prog E) := fun A a => Ret a.
#[global] Instance prog_bind : MBind (prog E) := fun A B f p => bind f p.
End Monad.

(** The program with its events renamed to those of a larger signature. *)
Fixpoint translate {E F : Sig} {A} (f : forall X : Ans, E X -> F X) (p : prog E A) : prog F A :=
  match p with
  | Ret a => Ret a
  | Vis e k => Vis (f _ e) (fun x => translate f (k x))
  end.

(** The events of two signatures. *)
Inductive sumE (E F : Sig) (X : Ans) : Ans :=
| inlE (e : E X)
| inrE (f : F X).
Arguments inlE {E F X} e.
Arguments inrE {E F X} f.

(** An event that happened, with its answer. *)
Inductive event (E : Sig) : Type :=
| Ev (X : Ans) (e : E X) (x : X).
Arguments Ev {E X} e x.

(** ** Sequential runs

    [h] answers events: [None] is a run-time panic.  The [n]-th event of a run
    is given the [n]-th input of the environment, so quantifying over the stream
    of inputs quantifies over clocks, identifiers, entropy and remote answers. *)
Section Run.
Context {E : Sig} {I S : Type}.
Variable h : forall X : Ans, E X -> I -> S -> option (S * X).

Fixpoint run {A} (p : prog E A) (ins : nat -> I) (n : nat) (s : S) : option (S * nat * A) :=
  match p with
  | Ret a => Some (s, n, a)
  | Vis e k =>
      match h _ e (ins n) s with
      | Some (s', x) => run (k x) ins (Datatypes.S n) s'
      | None => None
      end
  end.

Lemma run_step {A} (X : Ans) (e : E X) (k : X -> prog E A) ins n s o :
  h X e (ins n) s = Some o -> run (Vis e k) ins n s = run (k o.2) ins (Datatypes.S n) o.1.
Proof. simpl. intros ->. by destruct o. Qed.

Lemma run_bind {A B} (p : prog E A) (f : A -> prog E B) ins n s :
  run (bind f p) ins n s =
  match run p ins n s with
  | Some (s', n', a) => run (f a) ins n' s'
  | None => None
  end.
Proof.
  revert n s. induction p as [a|X e k IH]; intros n s; simpl; [done|].
  destruct (h X e (ins n) s) as [[s' x]|]; [apply IH|done].
Qed.

(** A handler that never panics terminates on every input stream. *)
Lemma run_total {A} (p : prog E A) ins n s :
  (forall X (e : E X) i s, is_Some (h X e i s)) -> is_Some (run p ins n s).
Proof.
  intros Hh. revert n s. induction p as [a|X e k IH]; intros n s; simpl; [eauto|].
  destruct (Hh X e (ins n) s) as [[s' x] ->]. apply IH.
Qed.

(** The events of a run, with their answers. *)
Fixpoint trace {A} (p : prog E A) (ins : nat -> I) (n : nat) (s : S) : list (event E) :=
  match p with
  | Ret a => []
  | Vis e k =>
      match h _ e (ins n) s with
      | Some (s', x) => Ev e x :: trace (k x) ins (Datatypes.S n) s'
      | None => []
      end
  end.

(** Every event of a run was answered by the handler. *)
Lemma trace_Forall {A} (P : event E -> Prop) (p : prog E A) ins n s :
  (forall m X (e : E X) s s' x, h X e (ins m) s = Some (s', x) -> P (Ev e x)) ->
  Forall P (trace p ins n s).
Proof.
  intros HP. revert n s. induction p as [a|X e k IH]; intros n s; cbn; [constructor|].
  destruct (h X e (ins n) s) as [[s' x]|] eqn:Hh; [|constructor].
  constructor; [by eapply HP|apply IH].
Qed.

(** An invariant of every event is an invariant of every run. *)
Lemma run_preserves {A} (P : S -> Prop) (ok : I -> S -> Prop) (p : prog E A) ins n s s' n' a :
  (forall X (e : E X) i s s' x, P s -> ok i s -> h X e i s = Some (s', x) -> P s') ->
  (forall m s, ok (ins m) s) ->
  P s -> run p ins n s = Some (s', n', a) -> P s'.
Proof.
  intros Hh Hok. revert n s. induction p as [b|X e k IH]; intros n s HP; simpl.
  - by intros [= -> _ _].
  - destruct (h X e (ins n) s) as [[s1 x]|] eqn:Heq; [|done].
    apply IH. eapply Hh; eauto.
Qed.

(** [returns good p Q]: when the answers of the events are [good], [p] ends in [Q]. *)
Fixpoint returns {A} (good : forall X : Ans, E X -> X -> Prop) (p : prog E A) (Q : A -> Prop) : Prop :=
  match p with
  | Ret a => Q a
  | Vis e k => forall x, good _ e x -> returns good (k x) Q
  end.

(** A handler whose invariant makes every answer good. *)
Lemma run_returns {A} (good : forall X : Ans, E X -> X -> Prop) (P : S -> Prop) (p : prog E A) Q ins n s s' n' a :
  (forall X (e : E X) m s s' x, P s -> h X e (ins m) s = Some (s', x) -> P s' /\ good X e x) ->
  P s -> returns good p Q -> run p ins n s = Some (s', n', a) -> P s' /\ Q a.
Proof.
  intros Hh. revert n s. induction p as [b|X e k IH]; intros n s HP; cbn.
  - by intros HQ [= <- _ <-].
  - intros Hk. destruct (h X e (ins n) s) as [[s1 x]|] eqn:Heq; [|done].
    destruct (Hh _ _ _ _ _ _ HP Heq) as [HP' Hg]. by apply IH, Hk.
Qed.
End Run.

(** ** Logs of a program *)

Section Logs.
Context {E : Sig}.

(** [follows p l p']: performing the events of [l], with their answers, takes
    [p] to [p']. *)
Fixpoint follows {A} (p : prog E A) (l : list (event E)) (p' : prog E A) : Prop :=
  (l = [] /\ p = p') \/
  match p with
  | Ret _ => False
  | Vis e k => exists x l', l = @Ev E _ e x :: l' /\ follows (k x) l' p'
  end.

Lemma follows_nil {A} (p : prog E A) : follows p [] p.
Proof. destruct p; simpl; auto. Qed.

Lemma follows_nil_inv {A} (p p' : prog E A) : follows p [] p' -> p = p'.
Proof. destruct p; simpl; [by intros [[_ ?]|[]]|]. intros [[_ ?]|(x & l & ? & _)]; done. Qed.

Lemma follows_snoc {A X} (p : prog E A) l (e : E X) k x :
  follows p l (@Vis E A X e k) -> follows p (l ++ [@Ev E _ e x]) (k x).
Proof.
  revert l. induction p as [a|Y e' k' IH]; intros l; simpl.
  - intros [[_ H]|[]]. discriminate.
  - intros [[-> H]|(y & l' & -> & H)].
    + assert (Hf : follows (@Vis E A X e k) [@Ev E _ e x] (k x)).
      { simpl. right. exists x, []. eauto using follows_nil. }
      rewrite <- H in Hf. simpl in Hf. exact Hf.
    + right. exists y, (l' ++ [@Ev E _ e x]). split; [done|]. by apply IH.
Qed.

(** [wp p Q]: whatever the answers, a completed run of [p] has a log and a result
    in [Q]. *)
Fixpoint wp {A} (p : prog E A) (Q : list (event E) -> A -> Prop) : Prop :=
  match p with
  | Ret a => Q [] a
  | Vis e k => forall x, wp (k x) (fun l => Q (@Ev E _ e x :: l))
  end.

Lemma wp_mono {A} (p : prog E A) (Q Q' : list (event E) -> A -> Prop) :
  (forall l a, Q l a -> Q' l a) -> wp p Q -> wp p Q'.
Proof.
  revert Q Q'. induction p as [a|X e k IH]; simpl; intros Q Q' HQ; [apply HQ|].
  intros H x. eapply IH; [|apply H]. simpl. intros; by apply HQ.
Qed.

Lemma wp_always {A} (p : prog E A) (Q : list (event E) -> A -> Prop) :
  (forall l a, Q l a) -> wp p Q.
Proof. revert Q. induction p as [a|X e k IH]; simpl; auto. Qed.

Lemma wp_and {A} (p : prog E A) (Q Q' : list (event E) -> A -> Prop) :
  wp p Q -> wp p Q' -> wp p (fun l a => Q l a /\ Q' l a).
Proof.
  revert Q Q'. induction p as [a|X e k IH]; intros Q Q'; [by split|]. cbn. intros H H' x.
  exact (IH x _ _ (H x) (H' x)).
Qed.

Lemma wp_bind {A B} (p : prog E A) (f : A -> prog E B) Q :
  wp p (fun l a => wp (f a) (fun l' => Q (l ++ l'))) -> wp (bind f p) Q.
Proof.
  revert Q. induction p as [a|X e k IH]; simpl; intros Q H; [done|].
  intros x. apply IH, H.
Qed.

Lemma wp_follows {A} (p : prog E A) Q l a :
  wp p Q -> follows p l (Ret a) -> Q l a.
Proof.
  revert Q l. induction p as [b|X e k IH]; simpl; intros Q l Hwp.
  - intros [[-> [= ->]]|[]]. done.
  - intros [[_ H]|(x & l' & -> & H)]; [discriminate|].
    apply (IH x (fun l => Q (@Ev E _ e x :: l))); auto.
Qed.

(** How often an event of a kind happened. *)
Definition occurrences (p : event E -> bool) (l : list (event E)) : nat := length (List.filter p l).

Lemma occurrences_app p l l' : occurrences p (l ++ l') = (occurrences p l + occurrences p l')%nat.
Proof. unfold occurrences. by rewrite List.filter_app, length_app. Qed.

Lemma occurrences_cons p ev l : occurrences p (ev :: l) = ((if p ev then 1 else 0) + occurrences p l)%nat.
Proof. unfold occurrences. cbn. by destruct (p ev). Qed.

Lemma occurrences_nil p : occurrences p [] = 0%nat.
Proof. done. Qed.

(** [bounded n p]: [p] performs at most [n] events. *)
Fixpoint bounded {A} (n : nat) (p : prog E A) {struct p} : Prop :=
  match p, n with
  | Ret _, _ => True
  | Vis _ _, O => False
  | Vis _ k, S n => forall x, bounded n (k x)
  end.

Lemma bounded_follows {A} n (p p' : prog E A) l :
  bounded n p -> follows p l p' -> (length l <= n)%nat.
Proof.
  revert n l. induction p as [a|X e k IH]; simpl; intros n l Hb.
  - intros [[-> _]|[]]. simpl. lia.
  - intros [[-> _]|(x & l' & -> & Hf)]; simpl; [lia|].
    destruct n as [|n]; [done|]. specialize (IH x n l' (Hb x) Hf). lia.
Qed.

Lemma bounded_mono {A} n m (p : prog E A) : bounded n p -> (n <= m)%nat -> bounded m p.
Proof.
  revert n m. induction p as [a|X e k IH]; intros n m Hb Hle; [done|].
  destruct n as [|n]; [done|]. destruct m as [|m]; [lia|]. cbn in *. intros x. eapply IH; [apply Hb|lia].
Qed.

Lemma bounded_bind {A B} n m (p : prog E A) (f : A -> prog E B) :
  bounded n p -> (forall a, bounded m (f a)) -> bounded (n + m) (bind f p).
Proof.
  revert n. induction p as [a|X e k IH]; intros n Hb Hf; cbn [bind]; [eapply bounded_mono; [apply Hf|lia]|].
  destruct n as [|n]; [done|]. cbn in *. auto.
Qed.

(** [emits J past p]: every event [p] performs after the log [past] satisfies
    [J] with the log so far, whatever the answers are. *)
Fixpoint emits {A} (J : list (event E) -> forall X, E X -> Prop) (past : list (event E))
    (p : prog E A) : Prop :=
  match p with
  | Ret _ => True
  | Vis e k => J past _ e /\ forall x, emits J (past ++ [@Ev E _ e x]) (k x)
  end.

Lemma emits_bind {A B} J past (p : prog E A) (f : A -> prog E B) :
  emits J past p -> wp p (fun l a => emits J (past ++ l) (f a)) -> emits J past (bind f p).
Proof.
  revert past. induction p as [a|X e k IH]; cbn; intros past Hp Hf; [by rewrite app_nil_r in Hf|].
  destruct Hp as [HJ Hp]. split; [done|]. intros x. apply IH; [done|].
  eapply wp_mono; [|apply (Hf x)]. intros l a Hl. by rewrite <- app_assoc.
Qed.

Lemma emits_follows {A} J past (p p' : prog E A) l :
  emits J past p -> follows p l p' -> emits J (past ++ l) p'.
Proof.
  revert past l. induction p as [a|X e k IH]; simpl; intros past l Hem.
  - intros [[-> <-]|[]]. done.
  - intros [[-> <-]|(x & l' & -> & H)].
    + rewrite app_nil_r. done.
    + destruct Hem as [_ Hem].
      replace (past ++ @Ev E _ e x :: l') with ((past ++ [@Ev E _ e x]) ++ l') by by rewrite <- app_assoc.
      eapply IH; eauto.
Qed.
End Logs.

(** The log of a renamed program is the renamed log. *)
Definition rename {E F : Sig} (f : forall X : Ans, E X -> F X) (ev : event E) : event F :=
  match ev with @Ev _ X e x => @Ev F X (f X e) x end.

Lemma wp_translate {E F : Sig} {A} (f : forall X : Ans, E X -> F X) (p : prog E A) Q :
  wp p (fun l => Q (map (rename f) l)) -> wp (translate f p) Q.
Proof.
  revert Q. induction p as [a|X e k IH]; cbn; intros Q H; [done|]. intros x. apply IH, H.
Qed.

Lemma occurrences_rename {E F : Sig} (f : forall X : Ans, E X -> F X) p l :
  occurrences p (map (rename f) l) = occurrences (p ∘ rename f) l.
Proof. induction l as [|ev l IH]; [done|]. cbn [map]. by rewrite !occurrences_cons, IH. Qed.

(** ** Pools of programs *)

Section Pool.
Context {E : Sig} {I S A : Type}.
Variable h : forall X : Ans, E X -> I -> S -> option (S * X).

Record config : Type := Config {
  pool : list (prog E A);
  world : S;
  log : list (nat * event E);
}.

(** Thread [t] performs its next event with input [i]. *)
Definition cstep (c : config) (ti : nat * I) : option config :=
  match (pool c !! ti.1 : option (prog E A)) with
  | Some (@Vis _ _ X e k) =>
      match h _ e ti.2 (world c) with
      | Some (s', x) =>
          Some (Config (<[ti.1 := (k x : prog E A)]> (pool c)) s' (log c ++ [(ti.1, @Ev E X e x)]))
      | None => None
      end
  | _ => None
  end.

Fixpoint run_schedule (sched : list (nat * I)) (c : config) : option config :=
  match sched with
  | [] => Some c
  | ti :: rest =>
      match cstep c ti with
      | Some c' => run_schedule rest c'
      | None => None
      end
  end.

Definition start (ps : list (prog E A)) (s : S) : config := Config ps s [].

(** The events of thread [t], in order. *)
Definition thread_log (t : nat) (l : list (nat * event E)) : list (event E) :=
  omap (fun te => if decide (te.1 = t) then Some te.2 else None) l.

Lemma thread_log_app t l l' : thread_log t (l ++ l') = thread_log t l ++ thread_log t l'.
Proof. apply omap_app. Qed.

Lemma thread_log_elem t l ev : ev ∈ thread_log t l <-> (t, ev) ∈ l.
Proof.
  unfold thread_log. rewrite list_elem_of_omap. split.
  - intros ([t' e'] & Hin & Hd). simpl in Hd. case_decide; by simplify_eq.
  - intros Hin. exists (t, ev). split; [done|]. simpl. by rewrite decide_True.
Qed.

(** A sum over a log is the sum over its threads. *)
Lemma thread_sum (w : event E -> nat) n (l : list (nat * event E)) :
  Forall (fun te => (te.1 < n)%nat) l ->
  sum_list_with w (snd <$> l) = sum_list_with (fun t => sum_list_with w (thread_log t l)) (seq 0 n).
Proof.
  induction 1 as [|[t ev] l Ht Hl IH].
  - clear. induction (seq 0 n) as [|t ts IH]; simpl in *; [done|]. exact IH.
  - cbn [fmap list_fmap sum_list_with snd]. rewrite IH. symmetry. eapply sum_at_index; [exact Ht|].
    intros i. unfold thread_log. cbn [omap list_omap fst snd]. by case_decide.
Qed.

(** Rule induction over schedules: an invariant kept by every step under a
    condition [ok] on the inputs of the step holds at the end. *)
Lemma run_schedule_ind (ok : config -> nat * I -> Prop) (P : config -> Prop) :
  (forall c ti c', P c -> ok c ti -> cstep c ti = Some c' -> P c') ->
  forall sched c c',
    (forall pre ti post cm, sched = pre ++ ti :: post -> run_schedule pre c = Some cm -> ok cm ti) ->
    P c -> run_schedule sched c = Some c' -> P c'.
Proof.
  intros Hstep sched. induction sched as [|ti rest IH]; intros c c' Hok HP; simpl.
  - by intros [= <-].
  - destruct (cstep c ti) as [c1|] eqn:Hc; [|done]. apply IH.
    + intros pre ti' post cm -> Hpre. apply (Hok (ti :: pre) ti' post); [done|].
      simpl. by rewrite Hc.
    + eapply Hstep; eauto. by apply (Hok [] ti rest).
Qed.

Lemma run_schedule_app pre post c :
  run_schedule (pre ++ post) c =
  match run_schedule pre c with Some c' => run_schedule post c' | None => None end.
Proof.
  revert c. induction pre as [|ti pre IH]; intros c; simpl; [done|].
  destruct (cstep c ti); auto.
Qed.

Lemma cstep_inv c ti c' :
  cstep c ti = Some c' ->
  exists X (e : E X) k s' x,
    pool c !! ti.1 = Some (@Vis E A X e k) /\ h X e ti.2 (world c) = Some (s', x) /\
    c' = Config (<[ti.1 := k x]> (pool c)) s' (log c ++ [(ti.1, @Ev E _ e x)]).
Proof.
  unfold cstep. intros H.
  destruct (pool c !! ti.1) as [[a|X e k]|] eqn:Hp; try discriminate.
  destruct (h X e ti.2 (world c)) as [[s' x]|] eqn:Hh; [|discriminate].
  injection H as <-. eauto 10.
Qed.

Lemma cstep_enabled c t i X (e : E X) k s' x :
  pool c !! t = Some (@Vis E A X e k) -> h X e i (world c) = Some (s', x) ->
  cstep c (t, i) = Some (Config (<[t := k x]> (pool c)) s' (log c ++ [(t, @Ev E _ e x)])).
Proof. intros Hp Hh. unfold cstep. cbn [fst snd]. by rewrite Hp, Hh. Qed.

(** Every event of the log is a step of the run, taken at some moment [cm]. *)
Lemma run_schedule_moment sched c0 c t ev :
  run_schedule sched c0 = Some c -> (t, ev) ∈ log c -> (t, ev) ∈ log c0 \/
  exists pre i post cm X (e : E X) x k s', sched = pre ++ (t, i) :: post /\ ev = Ev e x /\
    run_schedule pre c0 = Some cm /\ pool cm !! t = Some (@Vis E A X e k) /\
    h X e i (world cm) = Some (s', x) /\
    run_schedule post (Config (<[t := k x]> (pool cm)) s' (log cm ++ [(t, ev)])) = Some c.
Proof.
  revert c0. induction sched as [|[t1 i] rest IH]; intros c0 Hrun Hin; simpl in Hrun.
  { injection Hrun as <-. by left. }
  destruct (cstep c0 (t1, i)) as [c1|] eqn:Hc; [|done].
  destruct (IH c1 Hrun Hin) as [Hin1|(pre & i' & post & cm & X & e & x & k & s' & -> & -> & Hpre & Hrest)].
  2: { right. exists ((t1, i) :: pre), i', post, cm, X, e, x, k, s'. split_and!; [done|done| |apply Hrest..].
       simpl. by rewrite Hc. }
  apply cstep_inv in Hc as (X & e & k & s' & x & Hp & Hh & ->). cbn [log] in Hin1.
  apply elem_of_app in Hin1 as [?|Hev%list_elem_of_singleton]; [by left|right]. injection Hev as -> ->.
  by exists [], i, rest, c0, X, e, x, k, s'.
Qed.

(** Each thread of a pool behaves as its own program would on its own log. *)
Lemma run_schedule_follows sched ps s c t p :
  run_schedule sched (start ps s) = Some c -> ps !! t = Some p ->
  exists p', pool c !! t = Some p' /\ follows p (thread_log t (log c)) p'.
Proof.
  intros Hrun Hp. revert Hrun.
  apply (run_schedule_ind (fun _ _ => True)
    (fun c => exists p', pool c !! t = Some p' /\ follows p (thread_log t (log c)) p')); [|done|].
  - intros c1 [t' i] c2 (p' & Hp' & Hf) _ Hs.
    apply cstep_inv in Hs as (X & e & k & s' & x & Hpool & _ & ->). simpl in *.
    rewrite thread_log_app. unfold thread_log at 2. simpl.
    destruct (decide (t' = t)) as [->|Hne].
    + exists (k x). simplify_eq. split.
      * apply list_lookup_insert_eq. by eapply lookup_lt_Some.
      * by apply follows_snoc.
    + exists p'. rewrite list_lookup_insert_ne by done. by rewrite app_nil_r.
  - exists p. eauto using follows_nil.
Qed.

(** The past of a configuration does not influence its future. *)
Lemma run_schedule_past sched ps s l c :
  run_schedule sched (Config ps s l) = Some c ->
  exists c', run_schedule sched (start ps s) = Some c' /\
    pool c = pool c' /\ world c = world c' /\ log c = l ++ log c'.
Proof.
  unfold start. rewrite <- (app_nil_r l) at 1. generalize (@nil (nat * event E)) as m.
  revert ps s. induction sched as [|ti rest IH]; intros ps s m; simpl.
  - intros [= <-]. by eexists.
  - destruct (cstep (Config ps s (l ++ m)) ti) as [c1|] eqn:Hc; [|done].
    apply cstep_inv in Hc as (X & e & k & s' & x & Hp & Hh & ->). simpl in *.
    destruct ti as [t i]. rewrite (cstep_enabled (Config ps s m) t i X e k s' x Hp Hh). simpl.
    rewrite <- app_assoc. apply IH.
Qed.

Lemma run_schedule_length sched ps s c :
  run_schedule sched (start ps s) = Some c -> length (pool c) = length ps.
Proof.
  apply (run_schedule_ind (fun _ _ => True) (fun c => length (pool c) = length ps)); [|done|done].
  intros c1 ti c2 Hl _ Hs. apply cstep_inv in Hs as (X & e & k & s' & x & _ & _ & ->).
  simpl. by rewrite length_insert.
Qed.
Lemma run_schedule_log_length sched ps s c :
  run_schedule sched (start ps s) = Some c -> length (log c) = length sched.
Proof.
  assert (Hgen : forall sched c c', run_schedule sched c = Some c' ->
    length (log c') = (length (log c) + length sched)%nat); [|by intros ->%Hgen].
  clear. induction sched as [|ti rest IH]; intros c c'; simpl; [intros [= <-]; lia|].
  destruct (cstep c ti) as [c1|] eqn:Hc; [|done]. intros ->%IH.
  apply cstep_inv in Hc as (X & e & k & s' & x & _ & _ & ->). simpl. rewrite length_app. simpl. lia.
Qed.

Lemma run_schedule_threads sched ps s c :
  run_schedule sched (start ps s) = Some c ->
  Forall (fun te => (te.1 < length ps)%nat) (log c).
Proof.
  intros Hrun. cut (length (pool c) = length ps /\ Forall (fun te => (te.1 < length ps)%nat) (log c)).
  { by intros []. }
  revert Hrun. apply (run_schedule_ind (fun _ _ => True)
    (fun c => length (pool c) = length ps /\ Forall (fun te => (te.1 < length ps)%nat) (log c)));
    [|done|by split].
  intros c1 ti c2 [Hl Hf] _ Hs. apply cstep_inv in Hs as (X & e & k & s' & x & Hp & _ & ->). cbn in *.
  rewrite length_insert, Forall_app, Forall_singleton. split_and!; [done..|].
  cbn. rewrite <- Hl. by eapply lookup_lt_Some.
Qed.

(** A pool of bounded programs has bounded schedules. *)
Lemma run_schedule_bound n sched ps s c :
  Forall (bounded n) ps -> run_schedule sched (start ps s) = Some c -> (length sched <= n * length ps)%nat.
Proof.
  intros Hb Hrun. rewrite <- (run_schedule_log_length _ _ _ _ Hrun), <- (length_fmap snd (log c)).
  assert (Hlen : forall l : list (event E), length l = sum_list_with (fun _ => 1%nat) l).
  { induction l as [|ev l IH]; simpl; congruence. }
  assert (Hmul : forall l : list (prog E A), (n * length l)%nat = sum_list_with (fun _ => n) l).
  { induction l as [|p l IH]; simpl; [lia|]. rewrite <- IH. lia. }
  pose proof (run_schedule_length _ _ _ _ Hrun) as Hl. rewrite <- Hl, Hmul, Hlen.
  rewrite (thread_sum _ (length (pool c))).
  2: { rewrite Hl. by eapply run_schedule_threads. }
  apply sum_by_index_ge. intros t p Hp. rewrite <- Hlen.
  destruct (lookup_lt_is_Some_2 ps t) as [q Hq]; [rewrite <- Hl; by eapply lookup_lt_Some|].
  destruct (run_schedule_follows _ _ _ _ t q Hrun Hq) as (p' & _ & Hf).
  rewrite Forall_lookup in Hb. exact (bounded_follows _ _ _ _ (Hb _ _ Hq) Hf).
Qed.
End Pool.
Arguments config E S A : clear implicits.

(** ** Walking through programs *)

(** The rule of every event of a program, its leaves evaluated by [simp]. *)
Ltac emits_walk simp :=
  unfold trigger, mbind, prog_bind;
  repeat first [progress cbn [bind emits translate] | progress simp | match goal with
    | |- True => exact Logic.I
    | |- _ /\ _ => split
    | |- emits _ _ ?p => match p with context [match ?x with _ => _ end] => destruct x eqn:? end
    | |- forall _ : nat, _ => fail 1
    | |- forall _, _ => intros ?
    end].

(** The ends of a program. *)
Ltac wp_walk :=
  unfold trigger, mbind, prog_bind;
  repeat first [progress cbn [bind wp translate] | match goal with
    | |- wp ?p _ => match p with context [match ?x with _ => _ end] => destruct x eqn:? end
    | |- forall _, _ => intros ?
    end].
