(* ===== verification/GoSort.v ===== *)
(** * GoSort: the parts of Go's [sort] package the drivers use

    Strings compare bytewise ([String.leb]); [sort.Strings] is a sort by that
    order and [sort.SearchStrings] the binary search of the package, written with
    its loop. *)

From S2P Require Import Prelude.

(** ** The order of Go strings *)

Definition str_le (a b : string) : Prop := String.leb a b = true.
Definition str_lt (a b : string) : Prop := str_le a b /\ a <> b.

#[export] Instance str_le_dec : RelDecision str_le.
Proof. intros a b. unfold str_le. apply _. Defined.

#[export] Instance str_lt_dec : RelDecision str_lt.
Proof. intros a b. unfold str_lt. apply _. Defined.

Lemma ascii_compare_spec (a b : ascii) :
  Ascii.compare a b = (N_of_ascii a ?= N_of_ascii b)%N.
Proof. reflexivity. Qed.

#[export] Instance str_le_antisymm : AntiSymm (=) str_le.
Proof. intros a b Hab Hba. by apply String.leb_antisym. Qed.

#[export] Instance str_le_total : Total str_le.
Proof. intros a b. destruct (String.leb_total a b); [by left|by right]. Qed.

#[export] Instance str_le_refl : Reflexive str_le.
Proof. intros a. destruct (String.leb_total a a); done. Qed.

Lemma str_compare_trans_lt a b c :
  String.compare a b = Lt -> String.compare b c = Lt -> String.compare a c = Lt.
Proof.
  revert b c. induction a as [|x a IH]; intros [|y b] [|z c]; simpl; try done.
  rewrite !ascii_compare_spec.
  destruct (N.compare_spec (N_of_ascii x) (N_of_ascii y)) as [Hxy|Hxy|Hxy];
    destruct (N.compare_spec (N_of_ascii y) (N_of_ascii z)) as [Hyz|Hyz|Hyz]; try done; intros H1 H2.
  - rewrite Hxy, Hyz, N.compare_refl. eauto.
  - by rewrite Hxy, (proj2 (N.compare_lt_iff _ _) Hyz).
  - by rewrite <- Hyz, (proj2 (N.compare_lt_iff _ _) Hxy).
  - by rewrite (proj2 (N.compare_lt_iff _ _) (N.lt_trans _ _ _ Hxy Hyz)).
Qed.

Lemma str_le_compare a b : str_le a b <-> String.compare a b <> Gt.
Proof. unfold str_le, String.leb. destruct (String.compare a b); naive_solver. Qed.

#[export] Instance str_le_trans : Transitive str_le.
Proof.
  intros a b c. rewrite !str_le_compare.
  destruct (String.compare a b) eqn:Hab; [|intros _|done].
  - apply String.compare_eq_iff in Hab as ->. done.
  - destruct (String.compare b c) eqn:Hbc; [|intros _|done].
    + apply String.compare_eq_iff in Hbc as ->. by rewrite Hab.
    + by rewrite (str_compare_trans_lt _ _ _ Hab Hbc).
Qed.

#[export] Instance str_le_preorder : PreOrder str_le.
Proof. split; apply _. Qed.
#[export] Instance str_le_partial : PartialOrder str_le.
Proof. split; apply _. Qed.
#[export] Instance str_lt_strict : StrictOrder str_lt.
Proof.
  split.
  - intros a [_ []]. done.
  - intros a b c [H1 N1] [H2 N2]. split; [by trans b|]. intros ->.
    apply N1. by apply (anti_symm str_le).
Qed.

Lemma str_not_lt a b : ~ str_lt a b -> str_le b a.
Proof.
  intros Hn. destruct (total str_le a b) as [Hab|]; [|done].
  destruct (decide (a = b)) as [->|]; [reflexivity|]. destruct Hn. by split.
Qed.

Lemma str_le_not_lt a b : str_le b a -> ~ str_lt a b.
Proof. intros Hba [Hab Hne]. apply Hne. by apply (anti_symm str_le). Qed.

(** ** [sort.Strings] *)

Definition sort_Strings (l : list string) : list string := merge_sort str_le l.

Lemma sort_Strings_perm l : sort_Strings l ≡ₚ l.
Proof. apply merge_sort_Permutation. Qed.

(** Sorting a list without duplicates yields a strictly increasing list. *)
Lemma sort_Strings_sorted l : NoDup l -> StronglySorted str_lt (sort_Strings l).
Proof.
  intros Hnd. apply (StronglySorted_strict str_le); [|by rewrite sort_Strings_perm].
  apply (StronglySorted_merge_sort str_le).
Qed.

(** Two strictly increasing lists with the same elements are equal, so the
    iteration order of a Go map does not show after [sort.Strings]. *)
Lemma sort_Strings_perm_eq l l' : l ≡ₚ l' -> sort_Strings l = sort_Strings l'.
Proof.
  intros Hp. apply (StronglySorted_unique str_le).
  - apply StronglySorted_merge_sort; apply _.
  - apply StronglySorted_merge_sort; apply _.
  - unfold sort_Strings. by rewrite !merge_sort_Permutation.
Qed.

(** ** [sort.SearchStrings] *)

(** [for i < j { h := (i+j)/2; if a[h] < x { i = h+1 } else { j = h } }], with
    fuel bounding the number of iterations. *)
Fixpoint search_loop (fuel : nat) (a : list string) (x : string) (i j : nat) : nat :=
  match fuel with
  | O => i
  | S fuel =>
      if (i <? j)%nat then
        let h := ((i + j) / 2)%nat in
        match a !! h with
        | Some y => if decide (str_lt y x) then search_loop fuel a x (h + 1) j
                    else search_loop fuel a x i h
        | None => i
        end
      else i
  end.

Definition SearchStrings (a : list string) (x : string) : nat :=
  search_loop (length a) a x 0 (length a).

Lemma search_loop_spec fuel a x i j :
  StronglySorted str_lt a -> (j - i <= fuel)%nat -> (i <= j <= length a)%nat ->
  (forall m y, (m < i)%nat -> a !! m = Some y -> str_lt y x) ->
  (forall m y, (j <= m)%nat -> a !! m = Some y -> str_le x y) ->
  let r := search_loop fuel a x i j in
  (i <= r <= j)%nat /\
  (forall m y, (m < r)%nat -> a !! m = Some y -> str_lt y x) /\
  (forall m y, (r <= m)%nat -> a !! m = Some y -> str_le x y).
Proof.
  intros Hs. revert i j. induction fuel as [|fuel IH]; intros i j Hf Hij Hlo Hhi; simpl.
  - assert (i = j) as -> by lia. auto with lia.
  - destruct (Nat.ltb_spec i j) as [Hlt|Hge].
    2:{ assert (i = j) as -> by lia. auto with lia. }
    assert (Hh : (i <= (i + j) / 2 < j)%nat).
    { pose proof (Nat.div_mod_eq (i + j) 2).
      pose proof (Nat.mod_upper_bound (i + j) 2 ltac:(lia)). lia. }
    change (fst (Nat.divmod (i + j) 1 0 1)) with ((i + j) / 2)%nat.
    set (h := ((i + j) / 2)%nat) in *.
    destruct (a !! h) as [y|] eqn:Hy; [|apply lookup_ge_None in Hy; lia].
    destruct (decide (str_lt y x)) as [Hlt'|Hnlt].
    + destruct (IH (h + 1)%nat j) as (? & ? & ?); [lia|lia| |done|].
      * intros m z Hm Hz. destruct (decide (m = h)) as [->|]; [by simplify_eq|].
        trans y; [|done]. apply (StronglySorted_lookup_lt _ a m h); [done|lia|done|done].
      * split; [lia|]. auto.
    + destruct (IH i h) as (? & ? & ?); [lia|lia|done| |].
      * intros m z Hm Hz.
        apply str_not_lt in Hnlt as Hxy.
        destruct (decide (m = h)) as [->|]; [by simplify_eq|].
        assert (Hyz : str_lt y z).
        { apply (StronglySorted_lookup_lt _ a h m); [done|lia|done|done]. }
        destruct Hyz. by trans y.
      * split; [lia|]. auto.
Qed.

(** The insertion point: everything before it is below [x], the rest is not. *)
Lemma SearchStrings_spec a x :
  StronglySorted str_lt a ->
  (SearchStrings a x <= length a)%nat /\
  (forall m y, (m < SearchStrings a x)%nat -> a !! m = Some y -> str_lt y x) /\
  (forall m y, (SearchStrings a x <= m)%nat -> a !! m = Some y -> str_le x y).
Proof.
  intros Hs.
  destruct (search_loop_spec (length a) a x 0 (length a)) as (? & ? & ?);
    [done|lia|lia| | |].
  - intros m y Hm. lia.
  - intros m y Hm Hy. apply lookup_lt_Some in Hy. lia.
  - unfold SearchStrings. split; [lia|auto].
Qed.
