(* ===== verification/Crypto.v ===== *)
(** * Crypto: the standard-library codecs key material is made of

    [crypto/sha256.Sum256] (FIPS 180-4) and the unpadded RFC 4648 encoding of
    [encoding/base32], both executable, with the facts the key material needs: the
    digest has 32 bytes, encoding decodes back, and its length and alphabet. *)

From S2P Require Import Prelude.

Module sha256.

Definition Size : nat := 32.

(** ** 32-bit words *)

Definition w32 (x : Z) : Z := x mod 2 ^ 32.
Definition add32 (x y : Z) : Z := w32 (x + y).
Definition rotr (n x : Z) : Z := Z.lor (Z.shiftr x n) (w32 (Z.shiftl x (32 - n))).
Definition not32 (x : Z) : Z := Z.lxor x (2 ^ 32 - 1).

Definition ch (x y z : Z) : Z := Z.lxor (Z.land x y) (Z.land (not32 x) z).
Definition maj (x y z : Z) : Z := Z.lxor (Z.lxor (Z.land x y) (Z.land x z)) (Z.land y z).
Definition bsig0 (x : Z) : Z := Z.lxor (Z.lxor (rotr 2 x) (rotr 13 x)) (rotr 22 x).
Definition bsig1 (x : Z) : Z := Z.lxor (Z.lxor (rotr 6 x) (rotr 11 x)) (rotr 25 x).
Definition ssig0 (x : Z) : Z := Z.lxor (Z.lxor (rotr 7 x) (rotr 18 x)) (Z.shiftr x 3).
Definition ssig1 (x : Z) : Z := Z.lxor (Z.lxor (rotr 17 x) (rotr 19 x)) (Z.shiftr x 10).

Definition round_constants : list Z :=
 [1116352408; 1899447441; 3049323471; 3921009573; 961987163; 1508970993; 2453635748; 2870763221;
  3624381080; 310598401; 607225278; 1426881987; 1925078388; 2162078206; 2614888103; 3248222580;
  3835390401; 4022224774; 264347078; 604807628; 770255983; 1249150122; 1555081692; 1996064986;
  2554220882; 2821834349; 2952996808; 3210313671; 3336571891; 3584528711; 113926993; 338241895;
  666307205; 773529912; 1294757372; 1396182291; 1695183700; 1986661051; 2177026350; 2456956037;
  2730485921; 2820302411; 3259730800; 3345764771; 3516065817; 3600352804; 4094571909; 275423344;
  430227734; 506948616; 659060556; 883997877; 958139571; 1322822218; 1537002063; 1747873779;
  1955562222; 2024104815; 2227730452; 2361852424; 2428436474; 2756734187; 3204031479; 3329325298].

(** The eight working words. *)
Record state : Type := mkState { a : Z; b : Z; c : Z; d : Z; e : Z; f : Z; g : Z; h : Z }.

Definition initial : state :=
  mkState 1779033703 3144134277 1013904242 2773480762 1359893119 2600822924 528734635 1541459225.

Definition round (s : state) (kw : Z * Z) : state :=
  let t1 := w32 (h s + bsig1 (e s) + ch (e s) (f s) (g s) + kw.1 + kw.2) in
  let t2 := add32 (bsig0 (a s)) (maj (a s) (b s) (c s)) in
  mkState (add32 t1 t2) (a s) (b s) (c s) (add32 (d s) t1) (e s) (f s) (g s).

(** The message schedule, newest word first. *)
Fixpoint extend (n : nat) (rw : list Z) : list Z :=
  match n with
  | O => rw
  | S n =>
      let w i := default 0 (rw !! i) in
      extend n (w32 (ssig1 (w 1%nat) + w 6%nat + ssig0 (w 14%nat) + w 15%nat) :: rw)
  end.

Definition schedule (block : list Z) : list Z := reverse (extend 48 (reverse block)).

Definition compress (s : state) (block : list Z) : state :=
  let t := fold_left round (zip round_constants (schedule block)) s in
  mkState (add32 (a s) (a t)) (add32 (b s) (b t)) (add32 (c s) (c t)) (add32 (d s) (d t))
          (add32 (e s) (e t)) (add32 (f s) (f t)) (add32 (g s) (g t)) (add32 (h s) (h t)).

(** ** Bytes and words *)

Definition byte_Z (x : byte) : Z := Z.of_N (Byte.to_N x).
Definition Z_byte (z : Z) : byte := default x00 (Byte.of_N (Z.to_N (z mod 256))).

Definition word_bytes (w : Z) : list byte :=
  [Z_byte (Z.shiftr w 24); Z_byte (Z.shiftr w 16); Z_byte (Z.shiftr w 8); Z_byte w].

Fixpoint words (l : list byte) : list Z :=
  match l with
  | x :: y :: z :: t :: rest =>
      (byte_Z x * 2 ^ 24 + byte_Z y * 2 ^ 16 + byte_Z z * 2 ^ 8 + byte_Z t) :: words rest
  | _ => []
  end.

(** Blocks of 16 words; [fuel] is at least the number of words. *)
Fixpoint blocks (fuel : nat) (l : list Z) : list (list Z) :=
  match fuel, l with
  | S fuel, _ :: _ => take 16 l :: blocks fuel (drop 16 l)
  | _, _ => []
  end.

Definition pad (l : list byte) : list byte :=
  let n := Z.of_nat (length l) in
  l ++ [x80] ++ replicate (Z.to_nat ((55 - n) mod 64)) x00 ++
  word_bytes (Z.shiftr (8 * n) 32) ++ word_bytes (w32 (8 * n)).

Definition Sum256 (l : list byte) : list byte :=
  let ws := words (pad l) in
  let s := fold_left compress (blocks (length ws) ws) initial in
  flat_map word_bytes [a s; b s; c s; d s; e s; f s; g s; h s].

Lemma Sum256_length l : length (Sum256 l) = Size.
Proof. reflexivity. Qed.

(** The FIPS 180-4 test vectors for "abc" and the empty message. *)
Example Sum256_abc :
  words (Sum256 (list_byte_of_string "abc")) =
  [3128432319; 2399260650; 1094795486; 1571693091; 2953011619; 2518121116; 3021012833; 4060091821].
Proof. vm_compute. reflexivity. Qed.

Example Sum256_empty :
  words (Sum256 []) =
  [3820012610; 2566659092; 2600203464; 2574235940; 665731556; 1687917388; 2761267483; 2018687061].
Proof. vm_compute. reflexivity. Qed.
End sha256.

Module base32.

(** ** Bits *)

(** Most significant bit first. *)
Definition byte_bits (x : byte) : list bool :=
  let '(b0, (b1, (b2, (b3, (b4, (b5, (b6, b7))))))) := Byte.to_bits x in
  [b7; b6; b5; b4; b3; b2; b1; b0].

Definition bits_byte (l : list bool) : byte :=
  match l with
  | [b7; b6; b5; b4; b3; b2; b1; b0] =>
      Byte.of_bits (b0, (b1, (b2, (b3, (b4, (b5, (b6, b7)))))))
  | _ => x00
  end.

Lemma bits_byte_bits x : bits_byte (byte_bits x) = x.
Proof. by destruct x. Qed.

(** ** Alphabet *)

Definition alphabet : string := "ABCDEFGHIJKLMNOPQRSTUVWXYZ234567".

Definition quintet : Type := bool * bool * bool * bool * bool.

Definition quintet_nat (q : quintet) : nat :=
  let '(b4, b3, b2, b1, b0) := q in
  (Nat.b2n b4 * 16 + Nat.b2n b3 * 8 + Nat.b2n b2 * 4 + Nat.b2n b1 * 2 + Nat.b2n b0)%nat.

Definition quintet_bits (q : quintet) : list bool :=
  let '(b4, b3, b2, b1, b0) := q in [b4; b3; b2; b1; b0].

Definition encode_quintet (q : quintet) : ascii := default "A"%char (String.get (quintet_nat q) alphabet).

(** All quintets, in the order of the alphabet. *)
Definition quintets : list quintet :=
  b4 ← [false; true]; b3 ← [false; true]; b2 ← [false; true]; b1 ← [false; true];
  b0 ← [false; true]; [(b4, b3, b2, b1, b0)].

Definition decode_char (x : ascii) : option quintet :=
  snd <$> list_find (fun q => encode_quintet q = x) quintets.

Lemma decode_encode_quintet q : decode_char (encode_quintet q) = Some q.
Proof. by destruct q as [[[[[] []] []] []] []]. Qed.

(** ** Encoding *)

(** Groups of five bits, the last one completed with zero bits. *)
Fixpoint chunk5 (l : list bool) : list quintet :=
  match l with
  | [] => []
  | [x] => [(x, false, false, false, false)]
  | [x; y] => [(x, y, false, false, false)]
  | [x; y; z] => [(x, y, z, false, false)]
  | [x; y; z; t] => [(x, y, z, t, false)]
  | x :: y :: z :: t :: u :: rest => (x, y, z, t, u) :: chunk5 rest
  end.

Fixpoint group8 (l : list bool) : list byte :=
  match l with
  | b7 :: b6 :: b5 :: b4 :: b3 :: b2 :: b1 :: b0 :: rest =>
      bits_byte [b7; b6; b5; b4; b3; b2; b1; b0] :: group8 rest
  | _ => []
  end.

Fixpoint string_of_chars (l : list ascii) : string :=
  match l with
  | [] => EmptyString
  | x :: l => String x (string_of_chars l)
  end.

Fixpoint chars_of_string (s : string) : list ascii :=
  match s with
  | EmptyString => []
  | String x s => x :: chars_of_string s
  end.

Lemma chars_of_string_of_chars l : chars_of_string (string_of_chars l) = l.
Proof. induction l; simpl; congruence. Qed.

Definition EncodeToString (l : list byte) : string :=
  string_of_chars (encode_quintet <$> chunk5 (flat_map byte_bits l)).

Definition DecodeString (s : string) : option (list byte) :=
  qs ← mapM decode_char (chars_of_string s);
  Some (group8 (flat_map quintet_bits qs)).

(** Induction by groups of five. *)
Lemma list_ind5 {A} (P : list A -> Prop) :
  (forall l, (length l < 5)%nat -> P l) ->
  (forall x y z t u l, P l -> P (x :: y :: z :: t :: u :: l)) -> forall l, P l.
Proof.
  intros Hshort Hstep. fix IH 1. intros l.
  destruct l as [|x [|y [|z [|t [|u rest]]]]]; try (apply Hshort; simpl; lia).
  apply Hstep, IH.
Qed.

(** The groups of five are the bits and fewer than five padding zeros. *)
Lemma chunk5_bits l :
  exists padding, flat_map quintet_bits (chunk5 l) = l ++ padding /\ (length padding < 5)%nat.
Proof.
  induction l as [l Hl|x y z t u l IH] using list_ind5.
  - destruct l as [|x [|y [|z [|t [|u rest]]]]]; simpl in *; try lia.
    + by exists [].
    + exists [false; false; false; false]. split; [done|simpl; lia].
    + exists [false; false; false]. split; [done|simpl; lia].
    + exists [false; false]. split; [done|simpl; lia].
    + exists [false]. split; [done|simpl; lia].
  - destruct IH as (p & Hp & Hlen). exists p. simpl. by rewrite Hp.
Qed.

Lemma group8_bits bs padding :
  (length padding < 8)%nat -> group8 (flat_map byte_bits bs ++ padding) = bs.
Proof.
  intros Hp. induction bs as [|x bs IH]; simpl.
  - by do 8 (destruct padding as [|? padding]; simpl in *; [done|]); lia.
  - rewrite <- app_assoc. unfold byte_bits at 1.
    pose proof (bits_byte_bits x) as Hx. unfold byte_bits in Hx.
    destruct (Byte.to_bits x) as (b0 & b1 & b2 & b3 & b4 & b5 & b6 & b7).
    cbn [app group8]. by rewrite Hx, IH.
Qed.

Lemma mapM_decode qs : mapM decode_char (encode_quintet <$> qs) = Some qs.
Proof.
  induction qs as [|q qs IH]; [done|]. cbn [fmap list_fmap mapM].
  rewrite decode_encode_quintet. cbn. fold (encode_quintet <$> qs). by rewrite IH.
Qed.

Lemma decode_encode bs : DecodeString (EncodeToString bs) = Some bs.
Proof.
  unfold DecodeString, EncodeToString. rewrite chars_of_string_of_chars, mapM_decode. cbn.
  destruct (chunk5_bits (flat_map byte_bits bs)) as (p & -> & Hp).
  rewrite group8_bits by lia. done.
Qed.

Lemma chunk5_length l : length (chunk5 l) = ((length l + 4) / 5)%nat.
Proof.
  induction l as [l Hl|x y z t u l IH] using list_ind5.
  - by destruct l as [|x [|y [|z [|t [|u rest]]]]]; simpl in *; try lia.
  - cbn [chunk5 length]. rewrite IH.
    replace (S (S (S (S (S (length l))))) + 4)%nat with (length l + 4 + 1 * 5)%nat by lia.
    rewrite Nat.div_add by lia. lia.
Qed.

Lemma flat_map_bits_length bs : length (flat_map byte_bits bs) = (8 * length bs)%nat.
Proof.
  induction bs as [|x bs IH]; [done|]. cbn [flat_map]. rewrite length_app, IH.
  unfold byte_bits. destruct (Byte.to_bits x) as (b0 & b1 & b2 & b3 & b4 & b5 & b6 & b7).
  cbn [length]. lia.
Qed.

Lemma string_of_chars_length l : String.length (string_of_chars l) = length l.
Proof. induction l; simpl; congruence. Qed.

Lemma EncodeToString_length bs :
  String.length (EncodeToString bs) = ((8 * length bs + 4) / 5)%nat.
Proof.
  unfold EncodeToString.
  by rewrite string_of_chars_length, length_fmap, chunk5_length, flat_map_bits_length.
Qed.

(** Every character of an encoding is in the alphabet. *)
Lemma EncodeToString_alphabet bs x :
  x ∈ chars_of_string (EncodeToString bs) -> x ∈ chars_of_string alphabet.
Proof.
  unfold EncodeToString. rewrite chars_of_string_of_chars. intros (q & -> & _)%list_elem_of_fmap.
  apply (bool_decide_unpack _). by destruct q as [[[[[] []] []] []] []].
Qed.
End base32.
