(* ===== verification/GoText.v ===== *)
(** * GoText: UTF-8 and JSON values as the Go standard library treats them

    [utf8.Valid], the replacement of invalid bytes that [json.Marshal] performs on
    strings, and JSON values with the encodings the drivers use: a string map and
    a slice of structs.  JSON text is not modelled: the value is what the text of
    [Marshal] denotes and what [Unmarshal] reads. *)

From S2P Require Import Prelude.

(** ** UTF-8 *)

Definition in_range (lo hi : N) (b : byte) : bool := (lo <=? Byte.to_N b)%N && (Byte.to_N b <=? hi)%N.
Definition continuation : byte -> bool := in_range 0x80 0xBF.

(** The length of the well-formed encoding at the head of [l], 0 if there is none
    ([utf8.DecodeRune] answers [RuneError] of width 1). *)
Definition rune_len (l : list byte) : nat :=
  match l with
  | [] => 0
  | b0 :: l =>
      if in_range 0 0x7F b0 then 1
      else
        match l with
        | [] => 0
        | b1 :: l =>
            if in_range 0xC2 0xDF b0 then (if continuation b1 then 2 else 0)
            else
              match l with
              | [] => 0
              | b2 :: l =>
                  let second lo hi := in_range lo hi b1 && continuation b2 in
                  if in_range 0xE0 0xE0 b0 then (if second 0xA0%N 0xBF%N then 3 else 0)
                  else if in_range 0xED 0xED b0 then (if second 0x80%N 0x9F%N then 3 else 0)
                  else if in_range 0xE1 0xEF b0 then (if second 0x80%N 0xBF%N then 3 else 0)
                  else
                    match l with
                    | [] => 0
                    | b3 :: l =>
                        let third lo hi := second lo hi && continuation b3 in
                        if in_range 0xF0 0xF0 b0 then (if third 0x90%N 0xBF%N then 4 else 0)
                        else if in_range 0xF1 0xF3 b0 then (if third 0x80%N 0xBF%N then 4 else 0)
                        else if in_range 0xF4 0xF4 b0 then (if third 0x80%N 0x8F%N then 4 else 0)
                        else 0
                    end
              end
        end
  end.

(** [utf8.Valid]: every rune is well formed. *)
Fixpoint valid_runes (fuel : nat) (l : list byte) : bool :=
  match fuel, l with
  | _, [] => true
  | O, _ :: _ => false
  | S fuel, _ :: _ =>
      match rune_len l with
      | O => false
      | n => valid_runes fuel (drop n l)
      end
  end.

Definition utf8_valid (s : string) : bool :=
  let l := list_byte_of_string s in valid_runes (length l) l.

Definition utf8 (s : string) : Prop := utf8_valid s = true.

#[global] Instance utf8_dec s : Decision (utf8 s).
Proof. unfold utf8. apply _. Defined.

(** [json.Marshal] writes U+FFFD for each byte that is not part of a rune. *)
Fixpoint replace_invalid (fuel : nat) (l : list byte) : list byte :=
  match fuel, l with
  | S fuel, _ :: tl =>
      match rune_len l with
      | O => [Byte.xef; Byte.xbf; Byte.xbd] ++ replace_invalid fuel tl
      | n => take n l ++ replace_invalid fuel (drop n l)
      end
  | _, _ => []
  end.

Definition to_valid (s : string) : string :=
  let l := list_byte_of_string s in string_of_list_byte (replace_invalid (length l) l).

Lemma replace_invalid_id fuel l : valid_runes fuel l = true -> replace_invalid fuel l = l.
Proof.
  revert l. induction fuel as [|fuel IH]; intros [|b l]; try done.
  cbn [valid_runes replace_invalid]. destruct (rune_len (b :: l)) as [|n]; [done|].
  intros H. rewrite IH by done. apply take_drop.
Qed.

Lemma to_valid_id s : utf8 s -> to_valid s = s.
Proof.
  unfold utf8, utf8_valid, to_valid. intros Hv. rewrite replace_invalid_id by done.
  apply string_of_list_byte_of_string.
Qed.

Example to_valid_bad :
  to_valid (string_of_list_byte [Byte.x61; Byte.xff; Byte.x62])
  = string_of_list_byte [Byte.x61; Byte.xef; Byte.xbf; Byte.xbd; Byte.x62].
Proof. reflexivity. Qed.

(** ** JSON values *)

#[local] Set Warnings "-register-all".

Inductive json : Type :=
| JNull
| JString (s : string)
| JArray (l : list json)
| JObject (members : list (string * json)).

(** [json.Marshal] of a [map[string]string]: nil is [null]. *)
Definition marshal_map (m : option (gmap string string)) : json :=
  match m with
  | None => JNull
  | Some m => JObject ((fun kv => (to_valid kv.1, JString (to_valid kv.2))) <$> map_to_list m)
  end.

(** [json.Unmarshal] into an empty [map[string]string], its error ignored: members in
    order, a later one of the same name wins, a value that is no string leaves the
    zero value; anything that is no object leaves the map empty. *)
Definition string_value (j : json) : string :=
  match j with JString s => s | _ => EmptyString end.

Fixpoint unmarshal_members (l : list (string * json)) (m : gmap string string) : gmap string string :=
  match l with
  | [] => m
  | (k, v) :: l => unmarshal_members l (<[k := string_value v]> m)
  end.

Definition unmarshal_map (j : json) : gmap string string :=
  match j with
  | JObject l => unmarshal_members l ∅
  | _ => ∅
  end.

Definition utf8_map (m : option (gmap string string)) : Prop :=
  match m with
  | None => True
  | Some m => map_Forall (fun k v => utf8 k /\ utf8 v) m
  end.

Lemma unmarshal_members_spec (l : list (string * string)) m :
  NoDup l.*1 -> (forall k, k ∈ l.*1 -> m !! k = None) ->
  unmarshal_members ((fun kv => (kv.1, JString kv.2)) <$> l) m = list_to_map l ∪ m.
Proof.
  revert m. induction l as [|[k v] l IH]; intros m Hn Hm; cbn.
  - by rewrite (left_id_L ∅ (∪)).
  - apply NoDup_cons in Hn as [Hk Hn]. rewrite IH; [|done|].
    + cbn [list_to_map foldr curry fst snd]. rewrite <- insert_union_r; [by rewrite insert_union_l|].
      by apply not_elem_of_list_to_map.
    + intros k' Hin. rewrite lookup_insert_ne by (intros ->; done). apply Hm. by right.
Qed.

(** What is written is what is read. *)
Lemma unmarshal_marshal_map m :
  utf8_map (Some m) -> unmarshal_map (marshal_map (Some m)) = m.
Proof.
  intros Hu. cbn [marshal_map unmarshal_map].
  assert (Heq : ((fun kv => (to_valid kv.1, JString (to_valid kv.2))) <$> map_to_list m)
              = ((fun kv : string * string => (kv.1, JString kv.2)) <$> map_to_list m)).
  { apply list_fmap_ext. intros i [k v] Hi. apply list_elem_of_lookup_2, elem_of_map_to_list in Hi.
    destruct (Hu k v Hi). cbn [fst snd]. by rewrite !to_valid_id. }
  rewrite Heq, unmarshal_members_spec.
  - by rewrite (right_id_L ∅ (∪)), list_to_map_to_list.
  - apply NoDup_fst_map_to_list.
  - intros k _. apply lookup_empty.
Qed.
