(* ===== verification/Store.v ===== *)
(** * Store: the persistence boundary (keychainserver/store/store.go)

    The persisted types, the [Store] interface as a signature of events, the
    abstract state every driver represents and the contract of each operation as
    a relation on that state.  Drivers promise the contract through the class
    [StoreImpl]; the server is verified against the class. *)

From S2P Require Import Prelude.

(** [time.Time] in UTC: nanoseconds since the Unix epoch. *)
Abbreviation Time := Z (only parsing).

(** [map[string]string], nil or not. *)
Abbreviation metadata := (option (gmap string string)) (only parsing).

(** ** Persisted types *)

Record Workspace : Type := mkWorkspace {
  Workspace_WorkspaceID : string;
  Workspace_Name : string;
  Workspace_OwnerPrincipalID : string;
  Workspace_CreatedAt : Time;
  Workspace_UpdatedAt : Time;
  Workspace_Metadata : metadata;
}.

Record API : Type := mkAPI {
  API_APIID : string;
  API_WorkspaceID : string;
  API_Name : string;
  API_KeyPrefix : string;
  API_CreatedAt : Time;
  API_UpdatedAt : Time;
  API_Metadata : metadata;
}.

Record LimitRef : Type := mkLimitRef {
  LimitRef_LimitID : string;
  LimitRef_ScopeKey : string;
}.

Record Key : Type := mkKey {
  Key_KeyID : string;
  Key_APIID : string;
  Key_WorkspaceID : string;
  Key_OwnerPrincipalID : string;
  Key_Name : string;
  Key_KeyHash : slice byte;
  Key_Permissions : slice string;
  Key_LimitRefs : slice LimitRef;
  Key_ExpiresAt : option Time;
  Key_RemainingUses : Z;
  Key_Enabled : bool;
  Key_CreatedAt : Time;
  Key_UpdatedAt : Time;
  Key_LastVerifiedAt : option Time;
  Key_Metadata : metadata;
}.

Record ListKeysOpts : Type := mkListKeysOpts {
  ListKeysOpts_APIID : string;
  ListKeysOpts_OwnerPrincipalID : string;
  ListKeysOpts_PageSize : Z;
  ListKeysOpts_PageToken : string;
}.

Record ListKeysResult : Type := mkListKeysResult {
  ListKeysResult_Keys : list Key;
  ListKeysResult_NextPageToken : string;
}.

#[export] Instance Workspace_eq_dec : EqDecision Workspace.
Proof. solve_decision. Defined.
#[export] Instance API_eq_dec : EqDecision API.
Proof. solve_decision. Defined.
#[export] Instance LimitRef_eq_dec : EqDecision LimitRef.
Proof. solve_decision. Defined.
#[export] Instance byte_eq_dec : EqDecision byte := Byte.byte_eq_dec.
#[export] Instance Key_eq_dec : EqDecision Key.
Proof. solve_decision. Defined.

(** Zero values of the struct types. *)
Definition zeroTime : Time := -62135596800000000000.

Definition zeroWorkspace : Workspace :=
  mkWorkspace EmptyString EmptyString EmptyString zeroTime zeroTime None.
Definition zeroAPI : API :=
  mkAPI EmptyString EmptyString EmptyString EmptyString zeroTime zeroTime None.
Definition zeroKey : Key :=
  mkKey EmptyString EmptyString EmptyString EmptyString EmptyString
        None None None None 0 false zeroTime zeroTime None None.

(** ** Field updates (assignments [k.F = v] of the drivers) *)

Definition Workspace_created (w : Workspace) (id : string) (now : Time) : Workspace :=
  mkWorkspace id (Workspace_Name w) (Workspace_OwnerPrincipalID w) now now (Workspace_Metadata w).

Definition API_created (a : API) (id : string) (now : Time) : API :=
  mkAPI id (API_WorkspaceID a) (API_Name a) (API_KeyPrefix a) now now (API_Metadata a).

Definition Key_created (k : Key) (id : string) (now : Time) : Key :=
  mkKey id (Key_APIID k) (Key_WorkspaceID k) (Key_OwnerPrincipalID k) (Key_Name k)
        (Key_KeyHash k) (Key_Permissions k) (Key_LimitRefs k) (Key_ExpiresAt k)
        (Key_RemainingUses k) (Key_Enabled k) now now (Key_LastVerifiedAt k) (Key_Metadata k).

Definition Key_set_Enabled (b : bool) (now : Time) (k : Key) : Key :=
  mkKey (Key_KeyID k) (Key_APIID k) (Key_WorkspaceID k) (Key_OwnerPrincipalID k) (Key_Name k)
        (Key_KeyHash k) (Key_Permissions k) (Key_LimitRefs k) (Key_ExpiresAt k)
        (Key_RemainingUses k) b (Key_CreatedAt k) now (Key_LastVerifiedAt k) (Key_Metadata k).

Definition Key_set_KeyHash (h : slice byte) (now : Time) (k : Key) : Key :=
  mkKey (Key_KeyID k) (Key_APIID k) (Key_WorkspaceID k) (Key_OwnerPrincipalID k) (Key_Name k)
        h (Key_Permissions k) (Key_LimitRefs k) (Key_ExpiresAt k)
        (Key_RemainingUses k) (Key_Enabled k) (Key_CreatedAt k) now (Key_LastVerifiedAt k)
        (Key_Metadata k).

Definition Key_set_RemainingUses (n : Z) (now : Time) (k : Key) : Key :=
  mkKey (Key_KeyID k) (Key_APIID k) (Key_WorkspaceID k) (Key_OwnerPrincipalID k) (Key_Name k)
        (Key_KeyHash k) (Key_Permissions k) (Key_LimitRefs k) (Key_ExpiresAt k)
        n (Key_Enabled k) (Key_CreatedAt k) now (Key_LastVerifiedAt k) (Key_Metadata k).

Definition Key_set_LastVerifiedAt (at_ : Time) (k : Key) : Key :=
  mkKey (Key_KeyID k) (Key_APIID k) (Key_WorkspaceID k) (Key_OwnerPrincipalID k) (Key_Name k)
        (Key_KeyHash k) (Key_Permissions k) (Key_LimitRefs k) (Key_ExpiresAt k)
        (Key_RemainingUses k) (Key_Enabled k) (Key_CreatedAt k) (Key_UpdatedAt k) (Some at_)
        (Key_Metadata k).

(** ** The [Store] interface

    One constructor per method, indexed by the type of its results; the context
    argument carries no data the drivers use.  Methods returning only an error
    answer [result error unit]. *)

Inductive StoreE : Type -> Type :=
| CreateWorkspaceE (w : Workspace) : StoreE (res Workspace)
| GetWorkspaceE (id : string) : StoreE (res Workspace)
| CreateAPIE (a : API) : StoreE (res API)
| GetAPIE (id : string) : StoreE (res API)
| CreateKeyE (k : Key) : StoreE (res Key)
| GetKeyByIDE (id : string) : StoreE (res Key)
| GetKeyByHashE (hash : slice byte) : StoreE (res Key)
| RevokeKeyE (id : string) : StoreE (res unit)
| RotateKeyE (id : string) (newHash : slice byte) : StoreE (res Key)
| ListKeysE (opts : ListKeysOpts) : StoreE (res ListKeysResult)
| TouchLastVerifiedE (id : string) (at_ : Time) : StoreE (res unit)
| DecrementRemainingUsesE (id : string) : StoreE (Z * option error).
