(* ===== verification/Keymat.v ===== *)
(** * Keymat: key material (pkg/keymat/keymat.go)

    Random keys, their hashes and the structural check of a presented plaintext.
    The entropy source is what [randomReader] delivers to the call: the bytes it
    produced before it stopped and the error it stopped with. *)

From S2P Require Import Prelude Store Crypto.

Module keymat.

Definition RandomBytes : nat := 32.
Definition HashSize : nat := sha256.Size.

(** ** [io.ReadFull] *)

Record reader : Type := mkReader { delivered : list byte; stopped : error }.

Definition EOF : error := ErrText "EOF".
Definition ErrUnexpectedEOF : error := ErrText "unexpected EOF".

Definition ReadFull (n : nat) (r : reader) : res (list byte) :=
  if (n <=? length (delivered r))%nat then Ok (take n (delivered r))
  else Err (if bool_decide (delivered r <> [] /\ stopped r = EOF) then ErrUnexpectedEOF else stopped r).

(** ** The package *)

Definition Hash (plaintext : string) : list byte := sha256.Sum256 (list_byte_of_string plaintext).

#[global] Arguments Hash : simpl never.

Definition New (rd : reader) (prefix : string) : res (string * list byte) :=
  match ReadFull RandomBytes rd with
  | Err e => Err e
  | Ok b =>
      let plaintext := prefix +:+ base32.EncodeToString b in
      Ok (plaintext, sha256.Sum256 (list_byte_of_string plaintext))
  end.

(** [crypto/subtle]: no branch depends on the bytes compared. *)
Definition ConstantTimeByteEq (x y : Z) : Z :=
  Z.shiftr ((Z.lxor x y - 1) mod 2 ^ 32) 31.

Definition ConstantTimeCompare (x y : list byte) : Z :=
  if negb (length x =? length y)%nat then 0
  else
    let v := fold_left (fun v xy => Z.lor v (Z.lxor (sha256.byte_Z xy.1) (sha256.byte_Z xy.2)))
                       (zip x y) 0 in
    ConstantTimeByteEq v 0.

Definition HashEqual (a b : slice byte) : bool := ConstantTimeCompare (elems a) (elems b) =? 1.

Definition Validate (plaintext prefix : string) : option error :=
  if bool_decide (plaintext = EmptyString) then Some ErrEmpty
  else if negb (bool_decide (prefix = EmptyString)) && negb (String.prefix prefix plaintext)
  then Some ErrPrefixMissing
  else None.

(** ** Lemmas *)

Lemma append_inj_r (p a b : string) : p +:+ a = p +:+ b -> a = b.
Proof. induction p as [|x p IH]; simpl; [done|]. intros [= H]. auto. Qed.

Lemma prefix_append p a : String.prefix p (p +:+ a) = true.
Proof.
  induction p as [|x p IH]; [by destruct a|]. simpl. by destruct (ascii_dec x x).
Qed.

Lemma append_nonempty a b : b <> EmptyString -> a +:+ b <> EmptyString.
Proof. by destruct a. Qed.

Lemma New_Ok rd prefix pt h :
  New rd prefix = Ok (pt, h) ->
  (RandomBytes <= length (delivered rd))%nat /\ h = Hash pt /\
  pt = prefix +:+ base32.EncodeToString (take RandomBytes (delivered rd)).
Proof.
  unfold New, ReadFull. destruct (Nat.leb_spec RandomBytes (length (delivered rd))); [|done].
  intros [= <- <-]. done.
Qed.

Lemma encoded_length rd :
  (RandomBytes <= length (delivered rd))%nat ->
  String.length (base32.EncodeToString (take RandomBytes (delivered rd))) = 52%nat.
Proof.
  intros Hl. rewrite base32.EncodeToString_length, length_take, Nat.min_l by done. done.
Qed.

Lemma Hash_length pt : length (Hash pt) = HashSize.
Proof. apply sha256.Sum256_length. Qed.

Lemma byte_Z_range x : 0 <= sha256.byte_Z x < 256.
Proof. by destruct x. Qed.

Lemma byte_Z_inj x y : sha256.byte_Z x = sha256.byte_Z y -> x = y.
Proof.
  unfold sha256.byte_Z. intros H. apply N2Z.inj in H.
  apply (f_equal Byte.of_N) in H. rewrite !Byte.of_to_N in H. congruence.
Qed.

Lemma log2_byte a : 0 <= a < 256 -> Z.log2 a < 8.
Proof.
  intros Ha. destruct (decide (a = 0)) as [->|]; [done|]. apply Z.log2_lt_pow2; lia.
Qed.

Lemma byte_of_log2 a : 0 <= a -> Z.log2 a < 8 -> 0 <= a < 256.
Proof.
  intros Ha Hl. destruct (decide (a = 0)) as [->|]; [lia|].
  change 256 with (2 ^ 8). split; [lia|]. apply Z.log2_lt_pow2; lia.
Qed.

(** A disjunction of exclusive-ors of bytes is a byte, zero only if all are. *)
Lemma fold_or_spec (l : list (byte * byte)) v :
  0 <= v < 256 ->
  let r := fold_left (fun v xy => Z.lor v (Z.lxor (sha256.byte_Z xy.1) (sha256.byte_Z xy.2))) l v in
  0 <= r < 256 /\ (r = 0 <-> v = 0 /\ Forall (fun xy => xy.1 = xy.2) l).
Proof.
  revert v. induction l as [|[x y] l IH]; intros v Hv; cbn [fold_left fst snd].
  - split; [done|]. split; [auto|]. by intros [].
  - pose proof (byte_Z_range x) as Hx. pose proof (byte_Z_range y) as Hy.
    set (d := Z.lxor (sha256.byte_Z x) (sha256.byte_Z y)).
    assert (Hd0 : 0 <= d) by (apply Z.lxor_nonneg; lia).
    assert (Hd : Z.log2 d < 8).
    { pose proof (Z.log2_lxor (sha256.byte_Z x) (sha256.byte_Z y) ltac:(lia) ltac:(lia)).
      pose proof (log2_byte _ Hx). pose proof (log2_byte _ Hy). unfold d. lia. }
    destruct (IH (Z.lor v d)) as [Hr Hiff].
    { apply byte_of_log2; [apply Z.lor_nonneg; lia|]. rewrite Z.log2_lor by lia.
      pose proof (log2_byte v Hv). lia. }
    split; [done|]. rewrite Hiff, Z.lor_eq_0_iff, Forall_cons. cbn [fst snd].
    assert (d = 0 <-> x = y) as ->; [|tauto]. unfold d. split.
    + intros He. by apply byte_Z_inj, Z.lxor_eq.
    + intros ->. apply Z.lxor_nilpotent.
Qed.

Lemma ConstantTimeByteEq_zero v : 0 <= v < 256 -> (ConstantTimeByteEq v 0 = 1 <-> v = 0).
Proof.
  intros Hv. unfold ConstantTimeByteEq. rewrite Z.lxor_0_r. split; [|by intros ->].
  intros H. destruct (decide (v = 0)) as [|Hne]; [done|].
  rewrite Z.mod_small in H by lia. rewrite Z.shiftr_div_pow2 in H by lia.
  rewrite Z.div_small in H; lia.
Qed.

Lemma zip_all_equal (x y : list byte) :
  length x = length y -> Forall (fun xy : byte * byte => xy.1 = xy.2) (zip x y) -> x = y.
Proof.
  revert y. induction x as [|u x IH]; intros [|v y]; simpl; try done.
  intros [= Hl] [Huv Hf]%Forall_cons. simpl in Huv. subst. by rewrite (IH y Hl Hf).
Qed.

Lemma zip_self (x : list byte) : Forall (fun xy : byte * byte => xy.1 = xy.2) (zip x x).
Proof. induction x; simpl; constructor; auto. Qed.

Lemma ConstantTimeCompare_eq x y : ConstantTimeCompare x y = 1 <-> x = y.
Proof.
  unfold ConstantTimeCompare. destruct (Nat.eqb_spec (length x) (length y)) as [Hl|Hl]; simpl.
  - destruct (fold_or_spec (zip x y) 0) as [Hr Hiff]; [lia|].
    rewrite ConstantTimeByteEq_zero by done. rewrite Hiff. split.
    + intros [_ Hf]. by apply zip_all_equal.
    + intros ->. split; [done|]. apply zip_self.
  - split; [done|]. by intros ->.
Qed.

Lemma prefix_split pre s : String.prefix pre s = true <-> exists rest, s = pre +:+ rest.
Proof.
  split; [|intros [rest ->]; apply prefix_append].
  revert s. induction pre as [|x pre IH]; intros s; [by exists s|].
  destruct s as [|y s]; [done|].
  change (String.prefix (String x pre) (String y s)) with (if ascii_dec x y then String.prefix pre s else false).
  destruct (ascii_dec x y) as [->|Hne]; [|done]. intros (rest & ->)%IH. by exists rest.
Qed.

(** ** Theorems *)

(** C22. New key material is well formed: the prefix, then 52 characters of the
    base32 alphabet, a plaintext that validates against the prefix, and its
    SHA-256 hash of 32 bytes.  It fails only when the entropy source stops before
    32 bytes, with the error of the source. *)
Theorem New_correct rd prefix :
  match New rd prefix with
  | Ok (plaintext, hash) =>
      (RandomBytes <= length (delivered rd))%nat /\
      (exists secret, plaintext = prefix +:+ secret /\ String.length secret = 52%nat /\
        forall x, x ∈ base32.chars_of_string secret -> x ∈ base32.chars_of_string base32.alphabet) /\
      Validate plaintext prefix = None /\ hash = Hash plaintext /\ length hash = HashSize
  | Err e =>
      (length (delivered rd) < RandomBytes)%nat /\
      (e = stopped rd \/ e = ErrUnexpectedEOF /\ stopped rd = EOF)
  end.
Proof.
  destruct (New rd prefix) as [[pt h]|e] eqn:Hnew.
  - apply New_Ok in Hnew as (Hl & -> & ->). split; [done|]. split_and!; [| |done|apply Hash_length].
    + eexists. split; [done|]. split; [by apply encoded_length|]. apply base32.EncodeToString_alphabet.
    + unfold Validate. rewrite bool_decide_eq_false_2, prefix_append; [by rewrite andb_false_r|].
      apply append_nonempty. intros He. apply encoded_length in Hl. by rewrite He in Hl.
  - unfold New, ReadFull in Hnew. destruct (Nat.leb_spec RandomBytes (length (delivered rd))); [done|].
    split; [done|]. injection Hnew as <-. case_bool_decide as Hc; [|by left]. right. by destruct Hc.
Qed.

(** C23. No entropy is lost: the 32 random bytes can be decoded back from the
    plaintext, so two calls with one prefix and different bytes give different
    plaintexts. *)
Theorem New_keeps_entropy rd prefix plaintext hash :
  New rd prefix = Ok (plaintext, hash) ->
  forall secret, plaintext = prefix +:+ secret ->
  base32.DecodeString secret = Some (take RandomBytes (delivered rd)).
Proof.
  intros (_ & _ & ->)%New_Ok secret He%append_inj_r. rewrite <- He. apply base32.decode_encode.
Qed.

Definition demo_reader : reader := mkReader (replicate 32 Byte.x41) EOF.

Lemma New_keeps_entropy_witness :
  base32.DecodeString (base32.EncodeToString (replicate 32 Byte.x41)) = Some (take RandomBytes (delivered demo_reader)).
Proof.
  refine (New_keeps_entropy demo_reader "sk_"
    ("sk_" +:+ base32.EncodeToString (replicate 32 Byte.x41))
    (Hash ("sk_" +:+ base32.EncodeToString (replicate 32 Byte.x41))) _ _ _); reflexivity.
Defined.

(** C24. The constant-time comparison is equality: for any two byte slices, of any
    lengths, it answers whether they are the same bytes. *)
Theorem HashEqual_correct a b : HashEqual a b = true <-> elems a = elems b.
Proof. unfold HashEqual. rewrite Z.eqb_eq. apply ConstantTimeCompare_eq. Qed.

(** [Validate] accepts exactly the non-empty plaintexts that start with the
    prefix, and names what is wrong with the others. *)
Theorem Validate_correct plaintext prefix :
  (Validate plaintext prefix = Some ErrEmpty <-> plaintext = EmptyString) /\
  (Validate plaintext prefix = None <->
    plaintext <> EmptyString /\ exists rest, plaintext = prefix +:+ rest) /\
  (Validate plaintext prefix = Some ErrPrefixMissing <->
    plaintext <> EmptyString /\ ~ exists rest, plaintext = prefix +:+ rest).
Proof.
  unfold Validate. case_bool_decide as Hp; [subst; split_and!; split; naive_solver|].
  rewrite <- prefix_split. destruct (decide (prefix = EmptyString)) as [->|Hne].
  - rewrite bool_decide_eq_true_2 by done. simpl.
    assert (String.prefix EmptyString plaintext = true) as -> by by destruct plaintext.
    split_and!; split; try done. by intros [_ []].
  - rewrite bool_decide_eq_false_2 by done. simpl. destruct (String.prefix prefix plaintext); simpl.
    + split_and!; split; try done. by intros [_ []].
    + split_and!; split; try done. by intros [_ ?].
Qed.
End keymat.
