(* ===== verification/StoreSpec.v ===== *)
(** * StoreSpec: the contract of the [Store] interface

    [AStore] is the state every driver represents: three finite maps.  One
    relation per method says which answers and which next states the interface
    allows, as the comments of store.go describe them; where drivers legitimately
    differ (fresh identifiers, which of two errors is reported first) the relation
    leaves the choice open.  Every [CreatedAt] and [UpdatedAt] a call writes is an
    instant of the call's clock.  The one departure from store.go that a driver of
    the repository makes, rewriting [UpdatedAt] of a key that is already revoked, is
    a parameter of the contract, [restamps]: without it a repeated revoke changes
    nothing.  [StoreImpl] is the promise of a driver. *)

From S2P Require Import Prelude Effects GoText Store.

(** ** Values up to representation

    Drivers may return nil for an empty slice or map and may store instants at a
    coarser precision [nt]; contracts compare normal forms. *)

Definition norm_metadata (m : metadata) : metadata :=
  match m with
  | Some m => if decide (m = ∅) then None else Some m
  | None => None
  end.

Definition norm_workspace (nt : Time -> Time) (w : Workspace) : Workspace :=
  mkWorkspace (Workspace_WorkspaceID w) (Workspace_Name w) (Workspace_OwnerPrincipalID w)
    (nt (Workspace_CreatedAt w)) (nt (Workspace_UpdatedAt w)) (norm_metadata (Workspace_Metadata w)).

Definition norm_api (nt : Time -> Time) (a : API) : API :=
  mkAPI (API_APIID a) (API_WorkspaceID a) (API_Name a) (API_KeyPrefix a)
    (nt (API_CreatedAt a)) (nt (API_UpdatedAt a)) (norm_metadata (API_Metadata a)).

Definition norm_key (nt : Time -> Time) (k : Key) : Key :=
  mkKey (Key_KeyID k) (Key_APIID k) (Key_WorkspaceID k) (Key_OwnerPrincipalID k) (Key_Name k)
    (append_nil (Key_KeyHash k)) (append_nil (Key_Permissions k)) (append_nil (Key_LimitRefs k))
    (nt <$> Key_ExpiresAt k) (Key_RemainingUses k) (Key_Enabled k)
    (nt (Key_CreatedAt k)) (nt (Key_UpdatedAt k)) (nt <$> Key_LastVerifiedAt k)
    (norm_metadata (Key_Metadata k)).

Lemma norm_metadata_idemp m : norm_metadata (norm_metadata m) = norm_metadata m.
Proof. destruct m as [m|]; simpl; [|done]. case_decide; simpl; [done|]. by case_decide. Qed.

Lemma norm_key_idemp nt k :
  (forall t, nt (nt t) = nt t) -> norm_key nt (norm_key nt k) = norm_key nt k.
Proof.
  intros Hnt. unfold norm_key. simpl.
  rewrite !append_nil_idemp, !Hnt, norm_metadata_idemp.
  destruct (Key_ExpiresAt k), (Key_LastVerifiedAt k); simpl; by rewrite ?Hnt.
Qed.

(** Two keys a client of the store cannot tell apart. *)
Definition key_equiv (nt : Time -> Time) (k k' : Key) : Prop := norm_key nt k = norm_key nt k'.

#[export] Instance key_equiv_equivalence nt : Equivalence (key_equiv nt).
Proof. unfold key_equiv. split; [done|congruence..]. Qed.

(** ** The abstract state *)

Record AStore : Type := mkAStore {
  a_workspaces : gmap string Workspace;
  a_apis : gmap string API;
  a_keys : gmap string Key;
}.

Definition a_empty : AStore := mkAStore ∅ ∅ ∅.

Definition a_put_key (id : string) (k : Key) (A : AStore) : AStore :=
  mkAStore (a_workspaces A) (a_apis A) (<[id := k]> (a_keys A)).

Definition same_hash (h : slice byte) (k : Key) : Prop := elems (Key_KeyHash k) = elems h.

#[export] Instance same_hash_dec h k : Decision (same_hash h k).
Proof. unfold same_hash. apply _. Defined.

(** No key of the store has the hash [h]. *)
Definition hash_free (h : slice byte) (A : AStore) : Prop :=
  forall id k, a_keys A !! id = Some k -> ~ same_hash h k.

(** ** The contract of each method *)

Section Contract.
Context (nt : Time -> Time) (le : relation string).
(** [clock]: the instants the call may read.  [restamps]: the driver rewrites the
    [UpdatedAt] of a revoked key that is revoked again. *)
Context (clock : Time -> Prop) (restamps : Prop).

Definition lt (a b : string) : Prop := le a b /\ a <> b.

Definition not_found {X} (r : res X) : Prop := exists e, r = Err e /\ errors_is e ErrNotFound = true.
Definition conflict {X} (r : res X) : Prop := exists e, r = Err e /\ errors_is e ErrConflict = true.

Definition spec_CreateWorkspace (w : Workspace) (A : AStore) (r : res Workspace) (A' : AStore) : Prop :=
  exists id now w', r = Ok w' /\ clock now /\ a_workspaces A !! id = None /\
    w' = Workspace_created w id now /\
    A' = mkAStore (<[id := norm_workspace nt w']> (a_workspaces A)) (a_apis A) (a_keys A).

Definition spec_GetWorkspace (id : string) (A : AStore) (r : res Workspace) (A' : AStore) : Prop :=
  A' = A /\
  match a_workspaces A !! id with
  | None => not_found r
  | Some w => exists w', r = Ok w' /\ norm_workspace nt w' = w
  end.

Definition spec_CreateAPI (a : API) (A : AStore) (r : res API) (A' : AStore) : Prop :=
  match a_workspaces A !! API_WorkspaceID a with
  | None => A' = A /\ not_found r
  | Some _ => exists id now a', r = Ok a' /\ clock now /\ a_apis A !! id = None /\
      a' = API_created a id now /\
      A' = mkAStore (a_workspaces A) (<[id := norm_api nt a']> (a_apis A)) (a_keys A)
  end.

Definition spec_GetAPI (id : string) (A : AStore) (r : res API) (A' : AStore) : Prop :=
  A' = A /\
  match a_apis A !! id with
  | None => not_found r
  | Some a => exists a', r = Ok a' /\ norm_api nt a' = a
  end.

(** A missing parent (the API, or the workspace for drivers that check it) is
    [ErrNotFound], a used hash [ErrConflict]. *)
Definition spec_CreateKey (k : Key) (A : AStore) (r : res Key) (A' : AStore) : Prop :=
  (A' = A /\ not_found r /\
    (a_apis A !! Key_APIID k = None \/ a_workspaces A !! Key_WorkspaceID k = None)) \/
  (A' = A /\ conflict r /\ ~ hash_free (Key_KeyHash k) A) \/
  (exists id now k', r = Ok k' /\ clock now /\ is_Some (a_apis A !! Key_APIID k) /\
    hash_free (Key_KeyHash k) A /\ a_keys A !! id = None /\
    key_equiv nt k' (Key_created k id now) /\
    A' = a_put_key id (norm_key nt k') A).

Definition spec_GetKeyByID (id : string) (A : AStore) (r : res Key) (A' : AStore) : Prop :=
  A' = A /\
  match a_keys A !! id with
  | None => not_found r
  | Some k => exists k', r = Ok k' /\ norm_key nt k' = k
  end.

Definition spec_GetKeyByHash (h : slice byte) (A : AStore) (r : res Key) (A' : AStore) : Prop :=
  A' = A /\
  ((not_found r /\ hash_free h A) \/
   (exists id k k', r = Ok k' /\ a_keys A !! id = Some k /\ same_hash h k /\ norm_key nt k' = k)).

(** Idempotent: revoking a revoked key is a no-op, for drivers that do not restamp. *)
Definition spec_RevokeKey (id : string) (A : AStore) (r : res unit) (A' : AStore) : Prop :=
  match a_keys A !! id with
  | None => A' = A /\ not_found r
  | Some k => r = Ok tt /\
      ((Key_Enabled k = false /\ A' = A) \/
       ((Key_Enabled k = true \/ restamps) /\
        exists t, clock t /\ A' = a_put_key id (Key_set_Enabled false (nt t) k) A))
  end.

Definition spec_RotateKey (id : string) (h : slice byte) (A : AStore) (r : res Key) (A' : AStore) : Prop :=
  match a_keys A !! id with
  | None => A' = A /\ not_found r
  | Some k =>
      (A' = A /\ conflict r /\
        exists id' k', id' <> id /\ a_keys A !! id' = Some k' /\ same_hash h k') \/
      ((forall id' k', id' <> id -> a_keys A !! id' = Some k' -> ~ same_hash h k') /\
        exists t k', r = Ok k' /\ clock t /\ norm_key nt k' = Key_set_KeyHash (append_nil h) (nt t) k /\
          A' = a_put_key id (norm_key nt k') A)
  end.

(** In every case the key is left disabled and otherwise as it was. *)
Lemma spec_RevokeKey_put id A r A' k :
  spec_RevokeKey id A r A' -> a_keys A !! id = Some k ->
  r = Ok tt /\ exists t, A' = a_put_key id (Key_set_Enabled false t k) A.
Proof.
  intros Hs Hk. unfold spec_RevokeKey in Hs. rewrite Hk in Hs.
  destruct Hs as [-> [[He ->]|(_ & t & _ & ->)]]; (split; [done|]); [|by eexists].
  exists (Key_UpdatedAt k). unfold a_put_key. rewrite insert_id; [by destruct A|].
  rewrite Hk. f_equal. destruct k; cbn in *. by subst.
Qed.

Lemma spec_RevokeKey_missing id A r A' :
  spec_RevokeKey id A r A' -> a_keys A !! id = None -> A' = A /\ not_found r.
Proof. intros Hs Hk. unfold spec_RevokeKey in Hs. by rewrite Hk in Hs. Qed.

(** The default page size is 50. *)
Definition effective_page_size (z : Z) : nat := Z.to_nat (if z <=? 0 then 50 else z).

Definition key_matches (opts : ListKeysOpts) (k : Key) : Prop :=
  Key_APIID k = ListKeysOpts_APIID opts /\
  (ListKeysOpts_OwnerPrincipalID opts = EmptyString \/
   Key_OwnerPrincipalID k = ListKeysOpts_OwnerPrincipalID opts).

#[export] Instance key_matches_dec opts k : Decision (key_matches opts k).
Proof. unfold key_matches. apply _. Defined.

(** [ids]: the matching keys after the page token, in increasing order. *)
Definition after_token (opts : ListKeysOpts) (A : AStore) (ids : list string) : Prop :=
  StronglySorted lt ids /\
  forall id, id ∈ ids <->
    (exists k, a_keys A !! id = Some k /\ key_matches opts k) /\
    (ListKeysOpts_PageToken opts = EmptyString \/ lt (ListKeysOpts_PageToken opts) id).

Definition next_token (n : nat) (ids : list string) : string :=
  if decide (n < length ids)%nat then default EmptyString (last (take n ids)) else EmptyString.

Definition spec_ListKeys (opts : ListKeysOpts) (A : AStore) (r : res ListKeysResult) (A' : AStore) : Prop :=
  A' = A /\
  exists ids page, after_token opts A ids /\
    r = Ok (mkListKeysResult page
              (next_token (effective_page_size (ListKeysOpts_PageSize opts)) ids)) /\
    (Some ∘ norm_key nt) <$> page =
      (fun id => a_keys A !! id) <$> take (effective_page_size (ListKeysOpts_PageSize opts)) ids.

Definition spec_TouchLastVerified (id : string) (at_ : Time) (A : AStore) (r : res unit) (A' : AStore) : Prop :=
  match a_keys A !! id with
  | None => A' = A /\ not_found r
  | Some k => r = Ok tt /\ A' = a_put_key id (Key_set_LastVerifiedAt (nt at_) k) A
  end.

Definition spec_DecrementRemainingUses (id : string) (A : AStore) (r : Z * option error) (A' : AStore) : Prop :=
  match a_keys A !! id with
  | None => A' = A /\ exists e, r.2 = Some e /\ errors_is e ErrNotFound = true
  | Some k =>
      if decide (Key_RemainingUses k < 0) then A' = A /\ r = (-1, None)
      else if decide (Key_RemainingUses k = 0) then A' = A /\ r = (0, Some ErrDepleted)
      else r = (Key_RemainingUses k - 1, None) /\
           exists t, clock t /\
             A' = a_put_key id (Key_set_RemainingUses (Key_RemainingUses k - 1) (nt t) k) A
  end.

Definition store_spec {X} (e : StoreE X) : AStore -> X -> AStore -> Prop :=
  match e in StoreE X return AStore -> X -> AStore -> Prop with
  | CreateWorkspaceE w => spec_CreateWorkspace w
  | GetWorkspaceE id => spec_GetWorkspace id
  | CreateAPIE a => spec_CreateAPI a
  | GetAPIE id => spec_GetAPI id
  | CreateKeyE k => spec_CreateKey k
  | GetKeyByIDE id => spec_GetKeyByID id
  | GetKeyByHashE h => spec_GetKeyByHash h
  | RevokeKeyE id => spec_RevokeKey id
  | RotateKeyE id h => spec_RotateKey id h
  | ListKeysE opts => spec_ListKeys opts
  | TouchLastVerifiedE id at_ => spec_TouchLastVerified id at_
  | DecrementRemainingUsesE id => spec_DecrementRemainingUses id
  end.
End Contract.

(** ** Failures outside the contract (a lost connection, a full disk) *)

Definition foreign (e : error) : Prop :=
  errors_is e ErrNotFound = false /\ errors_is e ErrConflict = false /\ errors_is e ErrDepleted = false.

Definition foreign_answer {X} (e : StoreE X) : X -> Prop :=
  match e in StoreE X return X -> Prop with
  | DecrementRemainingUsesE _ => fun r => exists err, r.2 = Some err /\ foreign err
  | CreateWorkspaceE _ | GetWorkspaceE _ => fun r => exists err, r = Err err /\ foreign err
  | CreateAPIE _ | GetAPIE _ => fun r => exists err, r = Err err /\ foreign err
  | CreateKeyE _ | GetKeyByIDE _ | GetKeyByHashE _ | RotateKeyE _ _ =>
      fun r => exists err, r = Err err /\ foreign err
  | RevokeKeyE _ | TouchLastVerifiedE _ _ => fun r => exists err, r = Err err /\ foreign err
  | ListKeysE _ => fun r => exists err, r = Err err /\ foreign err
  end.

(** A driver that [faults] may also answer with a foreign error; the operation
    then either had its effect or had none. *)
Definition store_contract (nt : Time -> Time) (le : relation string) (clock : Time -> Prop)
    (restamps faults : Prop) {X} (e : StoreE X) (A : AStore) (r : X) (A' : AStore) : Prop :=
  store_spec nt le clock restamps e A r A' \/
  (faults /\ foreign_answer e r /\ (A' = A \/ exists r', store_spec nt le clock restamps e A r' A')).

(** Any instant: the contract of a client that does not follow the clock. *)
Definition any_time : Time -> Prop := fun _ => True.

Lemma store_spec_any {X} nt le clock (restamps restamps' : Prop) (e : StoreE X) A r A' :
  (restamps -> restamps') ->
  store_spec nt le clock restamps e A r A' -> store_spec nt le any_time restamps' e A r A'.
Proof.
  intros Hr. destruct e; cbn [store_spec]; try done.
  - intros (id & now & w' & ? & _ & ?). by exists id, now, w'.
  - unfold spec_CreateAPI. destruct (a_workspaces A !! API_WorkspaceID a); [|done].
    intros (id & now & a' & ? & _ & ?). by exists id, now, a'.
  - intros [?|[?|(id & now & k' & ? & _ & ?)]]; [by left|by right; left|].
    right; right. by exists id, now, k'.
  - unfold spec_RevokeKey. destruct (a_keys A !! id); [|done].
    intros [? [?|[He (t & _ & ?)]]]; (split; [done|]); [by left|right]. split; [tauto|by exists t].
  - unfold spec_RotateKey. destruct (a_keys A !! id); [|done].
    intros [?|(? & t & k' & ? & _ & ?)]; [by left|right]. split; [done|by exists t, k'].
  - unfold spec_DecrementRemainingUses. destruct (a_keys A !! id); [|done].
    repeat case_decide; [done..|]. intros (? & t & _ & ?). split; [done|by exists t].
Qed.

Lemma store_contract_any {X} nt le clock (restamps restamps' : Prop) faults (e : StoreE X) A r A' :
  (restamps -> restamps') ->
  store_contract nt le clock restamps faults e A r A' ->
  store_contract nt le any_time restamps' faults e A r A'.
Proof.
  intros Hr [Hs|(Hf & Ha & [->|[r' Hs]])]; [left|right; by split_and!; auto|right].
  - by eapply store_spec_any.
  - split_and!; [done..|right]. exists r'. by eapply store_spec_any.
Qed.

(** Arguments within their Go types; a hash that is looked up is not nil; the strings that drivers may keep as JSON are
    the text of wire messages, which is UTF-8. *)
Definition utf8_refs (refs : slice LimitRef) : Prop :=
  Forall (fun r => utf8 (LimitRef_LimitID r) /\ utf8 (LimitRef_ScopeKey r)) (elems refs).

Definition event_ok {X} (e : StoreE X) : Prop :=
  match e with
  | CreateWorkspaceE w => utf8_map (Workspace_Metadata w)
  | CreateAPIE a => utf8_map (API_Metadata a)
  | ListKeysE opts => int32_range (ListKeysOpts_PageSize opts)
  | CreateKeyE k => int64_range (Key_RemainingUses k) /\
      utf8_map (Key_Metadata k) /\ utf8_refs (Key_LimitRefs k)
  | GetKeyByHashE h => is_Some h
  | _ => True
  end.

(** ** What a driver promises *)

Class StoreImpl (S I : Type) := {
  st_handle : forall X, StoreE X -> I -> S -> option (S * X);
  st_abs : S -> AStore;
  st_inv : S -> Prop;
  (** The environment's input fits the state: identifiers are fresh. *)
  st_ok : I -> S -> Prop;
  st_nt : Time -> Time;
  st_le : relation string;
  (** The instants a call reads from the environment's input. *)
  st_clock : I -> Time -> Prop;
  st_restamps : Prop;
  st_faults : Prop;
  st_nt_idemp : forall t, st_nt (st_nt t) = st_nt t;
  st_le_partial : PartialOrder st_le;
  st_refines : forall X (e : StoreE X) i s,
    st_inv s -> st_ok i s -> event_ok e ->
    exists s' x, st_handle X e i s = Some (s', x) /\ st_inv s' /\
      store_contract st_nt st_le (st_clock i) st_restamps st_faults e (st_abs s) x (st_abs s');
}.
