(* ===== verification/Heap.v ===== *)
(** * Heap: objects shared by reference

    A Go slice, map or pointer is a reference to an object of the heap, so two
    values can share one.  [ptr A] is nil or a location; [H A] is a computation on
    the heap that may panic.  The computations of a driver read objects and allocate
    new ones; [allocs] states this as a triple whose postcondition sees only the part
    of the heap that was added. *)

From S2P Require Import Prelude Store.

Abbreviation loc := nat (only parsing).

Inductive obj : Type :=
| OBytes (l : list byte)
| OStrings (l : list string)
| OLimitRefs (l : list LimitRef)
| OTime (t : Time)
| OMap (m : gmap string string).

Definition kind (o : obj) : nat :=
  match o with
  | OBytes _ => 0 | OStrings _ => 1 | OLimitRefs _ => 2 | OTime _ => 3 | OMap _ => 4
  end.

Abbreviation heap := (gmap loc obj).

(** The types of objects. *)
Class Boxed (A : Type) := {
  box : A -> obj;
  unbox : obj -> option A;
  unbox_box : forall a, unbox (box a) = Some a;
  box_unbox : forall o a, unbox o = Some a -> o = box a;
  boxed_kind : nat;
  unbox_kind : forall o, is_Some (unbox o) <-> kind o = boxed_kind;
}.

Ltac boxed := first [by intros [] ? [= ->] | by intros []; split; first [done|by intros []|by eexists]].


#[export, refine] Instance bytes_boxed : Boxed (list byte) := {|
  box := OBytes; unbox o := match o with OBytes l => Some l | _ => None end; unbox_box _ := eq_refl; boxed_kind := 0 |}.
Proof. all: boxed. Defined.
#[export, refine] Instance strings_boxed : Boxed (list string) := {|
  box := OStrings; unbox o := match o with OStrings l => Some l | _ => None end; unbox_box _ := eq_refl; boxed_kind := 1 |}.
Proof. all: boxed. Defined.
#[export, refine] Instance refs_boxed : Boxed (list LimitRef) := {|
  box := OLimitRefs; unbox o := match o with OLimitRefs l => Some l | _ => None end; unbox_box _ := eq_refl; boxed_kind := 2 |}.
Proof. all: boxed. Defined.
#[export, refine] Instance time_boxed : Boxed Time := {|
  box := OTime; unbox o := match o with OTime t => Some t | _ => None end; unbox_box _ := eq_refl; boxed_kind := 3 |}.
Proof. all: boxed. Defined.
#[export, refine] Instance map_boxed : Boxed (gmap string string) := {|
  box := OMap; unbox o := match o with OMap m => Some m | _ => None end; unbox_box _ := eq_refl; boxed_kind := 4 |}.
Proof. all: boxed. Defined.

#[export] Hint Rewrite @unbox_box : kc.

(** [[]T], [map] and [*T]: nil or the location of an object. *)
Definition ptr (A : Type) : Type := option loc.

(** The object a reference points to: [Some None] for nil, [None] for a location
    without an object of the type. *)
Definition deref `{Boxed A} (h : heap) (p : ptr A) : option (option A) :=
  match p with
  | None => Some None
  | Some l => o ← h !! l; a ← unbox o; Some (Some a)
  end.

Lemma deref_weaken `{Boxed A} h h' (p : ptr A) v : deref h p = Some v -> h ⊆ h' -> deref h' p = Some v.
Proof.
  unfold deref. destruct p as [l|]; [|done]. destruct (h !! l) as [o|] eqn:Hl; [|done].
  intros Hd Hs. by rewrite (lookup_weaken _ _ _ _ Hl Hs).
Qed.

Lemma deref_inv `{Boxed A} h (p : ptr A) v :
  deref h p = Some v -> match p, v with
  | None, None => True
  | Some l, Some a => exists o, h !! l = Some o /\ unbox o = Some a
  | _, _ => False
  end.
Proof.
  unfold deref. destruct p as [l|]; [|by intros [= <-]].
  destruct (h !! l) as [o|] eqn:Hl; [|done]. cbn. destruct (unbox o) eqn:Ho; [|done].
  intros [= <-]. eauto.
Qed.

Lemma deref_Some `{Boxed A} h (p : ptr A) a :
  deref h p = Some (Some a) <-> exists l, p = Some l /\ h !! l = Some (box a).
Proof.
  split.
  - intros Hp%deref_inv. destruct p as [l|]; [|done]. destruct Hp as (o & Hl & Ho).
    exists l. split; [done|]. by rewrite <- (box_unbox _ _ Ho).
  - intros (l & -> & Hl). unfold deref. rewrite Hl. cbn. by rewrite unbox_box.
Qed.

Lemma deref_insert `{Boxed A} h l (a : A) : deref (<[l := box a]> h) (Some l : ptr A) = Some (Some a).
Proof. unfold deref. rewrite lookup_insert_eq. cbn. by rewrite unbox_box. Qed.

Lemma deref_singleton `{Boxed A} l (a : A) : deref {[l := box a]} (Some l : ptr A) = Some (Some a).
Proof. apply deref_insert. Qed.

(** ** Computations *)

Definition H (A : Type) : Type := heap -> option (heap * A).

#[export] Instance H_ret : MRet H := fun A a h => Some (h, a).
#[export] Instance H_bind : MBind H := fun A B f c h =>
  match c h with
  | Some (h', a) => f a h'
  | None => None
  end.

Definition panic {A} : H A := fun _ => None.

(** A new object. *)
Definition new `{Boxed A} (a : A) : H (ptr A) := fun h =>
  let l := fresh (dom h) in Some (<[l := box a]> h, Some l).

(** The value of a slice, map or pointer, nil or not. *)
Definition load `{Boxed A} (p : ptr A) : H (option A) := fun h => v ← deref h p; Some (h, v).

(** ** Allocation *)

(** From [h], [c] does not panic, changes no object and adds the heap [hn], with
    [Q hn a]. *)
Definition allocs {A} (c : H A) (h : heap) (Q : heap -> A -> Prop) : Prop :=
  exists hn a, c h = Some (hn ∪ h, a) /\ hn ##ₘ h /\ Q hn a.

Lemma allocs_ret {A} (a : A) h (Q : heap -> A -> Prop) : Q ∅ a -> allocs (mret a) h Q.
Proof.
  intros HQ. exists ∅, a. split_and!; [|apply map_disjoint_empty_l|done].
  by rewrite (left_id_L ∅ (∪)).
Qed.

Lemma allocs_mono {A} (c : H A) h (Q Q' : heap -> A -> Prop) :
  (forall hn a, hn ##ₘ h -> Q hn a -> Q' hn a) -> allocs c h Q -> allocs c h Q'.
Proof. intros HQ (hn & a & Hc & Hd & Ha). exists hn, a. eauto. Qed.

Lemma allocs_bind {A B} (c : H A) (f : A -> H B) h (Q : heap -> B -> Prop) :
  allocs c h (fun hn a => allocs (f a) (hn ∪ h) (fun hn' b => Q (hn' ∪ hn) b)) -> allocs (c ≫= f) h Q.
Proof.
  intros (hn & a & Hc & Hd & hn' & b & Hf & Hd' & HQ). exists (hn' ∪ hn), b.
  apply map_disjoint_union_r in Hd' as [Hd1 Hd2].
  split_and!; [|by apply map_disjoint_union_l|done].
  unfold mbind, H_bind. by rewrite Hc, Hf, (assoc_L (∪)).
Qed.

Lemma allocs_new `{Boxed A} (a : A) h (Q : heap -> ptr A -> Prop) :
  (forall l, h !! l = None -> Q {[l := box a]} (Some l)) -> allocs (new a) h Q.
Proof.
  intros HQ. assert (Hl : h !! fresh (dom h) = None) by apply not_elem_of_dom, is_fresh.
  exists {[fresh (dom h) := box a]}, (Some (fresh (dom h))). split_and!; [|by apply map_disjoint_singleton_l|auto].
  unfold new. by rewrite insert_union_singleton_l.
Qed.

Lemma allocs_load `{Boxed A} (p : ptr A) v h (Q : heap -> option A -> Prop) :
  deref h p = Some v -> Q ∅ v -> allocs (load p) h Q.
Proof.
  intros Hd HQ. exists ∅, v. split_and!; [|apply map_disjoint_empty_l|done].
  unfold load. rewrite Hd. by rewrite (left_id_L ∅ (∪)).
Qed.

(** ** Parts of a heap *)

Ltac split_disjoint :=
  repeat match goal with
  | Hd : _ ##ₘ _ ∪ _ |- _ => apply map_disjoint_union_r in Hd as [? ?]
  | Hd : _ ∪ _ ##ₘ _ |- _ => apply map_disjoint_union_l in Hd as [? ?]
  end.

Ltac disjoint :=
  split_disjoint;
  repeat first [apply map_disjoint_union_l_2 | apply map_disjoint_union_r_2];
  first [ assumption | symmetry; assumption | apply map_disjoint_empty_l | apply map_disjoint_empty_r
        | by apply map_disjoint_singleton_l_2 | by apply map_disjoint_singleton_r_2 ].

(** A part of a disjoint union is included in it. *)
Ltac sub_heap :=
  solve [ reflexivity | assumption
        | apply map_union_subseteq_l'; sub_heap
        | apply map_union_subseteq_r'; [disjoint|sub_heap] ].
