(* ===== verification/References.v ===== *)
(** * References: the persisted types and the [Store] interface with references

    The types of store.go as a program holds them: the strings, numbers and times
    inside, the slices, maps and pointers as references to the heap.  [load_key] and
    its siblings read the value a reference has; the methods of the interface take and
    return references.  The values are those of the file Store. *)

From S2P Require Import Prelude Store Heap.

Record HWorkspace : Type := mkHWorkspace {
  HWorkspace_WorkspaceID : string;
  HWorkspace_Name : string;
  HWorkspace_OwnerPrincipalID : string;
  HWorkspace_CreatedAt : Time;
  HWorkspace_UpdatedAt : Time;
  HWorkspace_Metadata : ptr (gmap string string);
}.

Record HAPI : Type := mkHAPI {
  HAPI_APIID : string;
  HAPI_WorkspaceID : string;
  HAPI_Name : string;
  HAPI_KeyPrefix : string;
  HAPI_CreatedAt : Time;
  HAPI_UpdatedAt : Time;
  HAPI_Metadata : ptr (gmap string string);
}.

Record HKey : Type := mkHKey {
  HKey_KeyID : string;
  HKey_APIID : string;
  HKey_WorkspaceID : string;
  HKey_OwnerPrincipalID : string;
  HKey_Name : string;
  HKey_KeyHash : ptr (list byte);
  HKey_Permissions : ptr (list string);
  HKey_LimitRefs : ptr (list LimitRef);
  HKey_ExpiresAt : ptr Time;
  HKey_RemainingUses : Z;
  HKey_Enabled : bool;
  HKey_CreatedAt : Time;
  HKey_UpdatedAt : Time;
  HKey_LastVerifiedAt : ptr Time;
  HKey_Metadata : ptr (gmap string string);
}.

Record HListKeysResult : Type := mkHListKeysResult {
  HListKeysResult_Keys : list HKey;
  HListKeysResult_NextPageToken : string;
}.

Definition zeroHWorkspace : HWorkspace :=
  mkHWorkspace EmptyString EmptyString EmptyString zeroTime zeroTime None.
Definition zeroHAPI : HAPI :=
  mkHAPI EmptyString EmptyString EmptyString EmptyString zeroTime zeroTime None.
Definition zeroHKey : HKey :=
  mkHKey EmptyString EmptyString EmptyString EmptyString EmptyString
         None None None None 0 false zeroTime zeroTime None None.

(** ** Values *)

Definition load_workspace (h : heap) (w : HWorkspace) : option Workspace :=
  m ← deref h (HWorkspace_Metadata w);
  Some (mkWorkspace (HWorkspace_WorkspaceID w) (HWorkspace_Name w) (HWorkspace_OwnerPrincipalID w)
    (HWorkspace_CreatedAt w) (HWorkspace_UpdatedAt w) m).

Definition load_api (h : heap) (a : HAPI) : option API :=
  m ← deref h (HAPI_Metadata a);
  Some (mkAPI (HAPI_APIID a) (HAPI_WorkspaceID a) (HAPI_Name a) (HAPI_KeyPrefix a)
    (HAPI_CreatedAt a) (HAPI_UpdatedAt a) m).

Definition load_key (h : heap) (k : HKey) : option Key :=
  hash ← deref h (HKey_KeyHash k);
  permissions ← deref h (HKey_Permissions k);
  refs ← deref h (HKey_LimitRefs k);
  expires ← deref h (HKey_ExpiresAt k);
  verified ← deref h (HKey_LastVerifiedAt k);
  m ← deref h (HKey_Metadata k);
  Some (mkKey (HKey_KeyID k) (HKey_APIID k) (HKey_WorkspaceID k) (HKey_OwnerPrincipalID k) (HKey_Name k)
    hash permissions refs expires (HKey_RemainingUses k) (HKey_Enabled k)
    (HKey_CreatedAt k) (HKey_UpdatedAt k) verified m).

Definition load_list (h : heap) (r : HListKeysResult) : option ListKeysResult :=
  ks ← mapM (load_key h) (HListKeysResult_Keys r);
  Some (mkListKeysResult ks (HListKeysResult_NextPageToken r)).

(** The fields of a key with the value [v]. *)
Record key_points_to (h : heap) (k : HKey) (v : Key) : Prop := {
  kp_hash : deref h (HKey_KeyHash k) = Some (Key_KeyHash v);
  kp_permissions : deref h (HKey_Permissions k) = Some (Key_Permissions v);
  kp_refs : deref h (HKey_LimitRefs k) = Some (Key_LimitRefs v);
  kp_expires : deref h (HKey_ExpiresAt k) = Some (Key_ExpiresAt v);
  kp_verified : deref h (HKey_LastVerifiedAt k) = Some (Key_LastVerifiedAt v);
  kp_metadata : deref h (HKey_Metadata k) = Some (Key_Metadata v);
  kp_id : HKey_KeyID k = Key_KeyID v;
  kp_api : HKey_APIID k = Key_APIID v;
  kp_workspace : HKey_WorkspaceID k = Key_WorkspaceID v;
  kp_owner : HKey_OwnerPrincipalID k = Key_OwnerPrincipalID v;
  kp_name : HKey_Name k = Key_Name v;
  kp_uses : HKey_RemainingUses k = Key_RemainingUses v;
  kp_enabled : HKey_Enabled k = Key_Enabled v;
  kp_created : HKey_CreatedAt k = Key_CreatedAt v;
  kp_updated : HKey_UpdatedAt k = Key_UpdatedAt v;
}.

Lemma load_key_spec h k v : load_key h k = Some v <-> key_points_to h k v.
Proof.
  unfold load_key. split.
  - intros Hk. repeat (apply bind_Some in Hk as (? & ? & Hk)). injection Hk as <-. by split.
  - intros Hp. destruct k, v; destruct Hp; cbn in *; subst.
    by repeat match goal with Hd : deref _ _ = Some _ |- _ => rewrite Hd; clear Hd; cbn end.
Qed.

Lemma load_workspace_spec h w v :
  load_workspace h w = Some v <-> deref h (HWorkspace_Metadata w) = Some (Workspace_Metadata v) /\
    v = mkWorkspace (HWorkspace_WorkspaceID w) (HWorkspace_Name w) (HWorkspace_OwnerPrincipalID w)
      (HWorkspace_CreatedAt w) (HWorkspace_UpdatedAt w) (Workspace_Metadata v).
Proof.
  unfold load_workspace. destruct (deref h _) as [m|]; cbn; [|by split; [|intros []]].
  split; [by intros [= <-]|by intros [[= ->] ->]].
Qed.

Lemma load_api_spec h a v :
  load_api h a = Some v <-> deref h (HAPI_Metadata a) = Some (API_Metadata v) /\
    v = mkAPI (HAPI_APIID a) (HAPI_WorkspaceID a) (HAPI_Name a) (HAPI_KeyPrefix a)
      (HAPI_CreatedAt a) (HAPI_UpdatedAt a) (API_Metadata v).
Proof.
  unfold load_api. destruct (deref h _) as [m|]; cbn; [|by split; [|intros []]].
  split; [by intros [= <-]|by intros [[= ->] ->]].
Qed.

Lemma load_key_weaken h h' k v : load_key h k = Some v -> h ⊆ h' -> load_key h' k = Some v.
Proof. rewrite !load_key_spec. intros [] Hs. split; eauto using deref_weaken. Qed.

Lemma load_workspace_weaken h h' w v : load_workspace h w = Some v -> h ⊆ h' -> load_workspace h' w = Some v.
Proof. rewrite !load_workspace_spec. intros [] Hs. eauto using deref_weaken. Qed.

Lemma load_api_weaken h h' a v : load_api h a = Some v -> h ⊆ h' -> load_api h' a = Some v.
Proof. rewrite !load_api_spec. intros [] Hs. eauto using deref_weaken. Qed.

(** An answer and its value. *)
Definition loads {X Y} (load : X -> option Y) (r : res X) (v : res Y) : Prop :=
  match r, v with
  | Ok x, Ok y => load x = Some y
  | Err e, Err e' => e = e'
  | _, _ => False
  end.

(** ** The interface *)

Inductive HStoreE : Type -> Type :=
| HCreateWorkspace (w : HWorkspace) : HStoreE (res HWorkspace)
| HGetWorkspace (id : string) : HStoreE (res HWorkspace)
| HCreateAPI (a : HAPI) : HStoreE (res HAPI)
| HGetAPI (id : string) : HStoreE (res HAPI)
| HCreateKey (k : HKey) : HStoreE (res HKey)
| HGetKeyByID (id : string) : HStoreE (res HKey)
| HGetKeyByHash (hash : ptr (list byte)) : HStoreE (res HKey)
| HRevokeKey (id : string) : HStoreE (res unit)
| HRotateKey (id : string) (newHash : ptr (list byte)) : HStoreE (res HKey)
| HListKeys (opts : ListKeysOpts) : HStoreE (res HListKeysResult)
| HTouchLastVerified (id : string) (at_ : Time) : HStoreE (res unit)
| HDecrementRemainingUses (id : string) : HStoreE (Z * option error).
