(* ===== verification/HeapSpec.v ===== *)
(** * HeapSpec: the contract of a store that shares objects with its caller

    [with_value] relates a call on references to the call on values and its answer to
    the answer on values.  [HeapImpl] is the promise of a driver whose objects live in
    the same heap as its caller's: a call reads the caller's objects, changes none,
    returns new ones (a created record may keep the objects it was given), and keeps its
    own apart. *)

From S2P Require Import Prelude Effects Store StoreSpec Heap References.

Definition res_of {X Y} (load : heap -> X -> option Y) (h : heap) : res X -> res Y -> Prop := loads (load h).

(** [P] holds of the call on values that [e] makes in the heap [hc], and of the
    relation between an answer, in the heap it is in, and its value. *)
Definition with_value {X} (hc : heap) (e : HStoreE X)
    (P : forall Y, StoreE Y -> (heap -> X -> Y -> Prop) -> Prop) : Prop :=
  match e in HStoreE X return (forall Y, StoreE Y -> (heap -> X -> Y -> Prop) -> Prop) -> Prop with
  | HCreateWorkspace w => fun P => exists v, load_workspace hc w = Some v /\ P _ (CreateWorkspaceE v) (res_of load_workspace)
  | HGetWorkspace id => fun P => P _ (GetWorkspaceE id) (res_of load_workspace)
  | HCreateAPI a => fun P => exists v, load_api hc a = Some v /\ P _ (CreateAPIE v) (res_of load_api)
  | HGetAPI id => fun P => P _ (GetAPIE id) (res_of load_api)
  | HCreateKey k => fun P => exists v, load_key hc k = Some v /\ P _ (CreateKeyE v) (res_of load_key)
  | HGetKeyByID id => fun P => P _ (GetKeyByIDE id) (res_of load_key)
  | HGetKeyByHash p => fun P => exists hash, deref hc p = Some hash /\ P _ (GetKeyByHashE hash) (res_of load_key)
  | HRevokeKey id => fun P => P _ (RevokeKeyE id) (fun _ => eq)
  | HRotateKey id p => fun P => exists hash, deref hc p = Some hash /\ P _ (RotateKeyE id hash) (res_of load_key)
  | HListKeys opts => fun P => P _ (ListKeysE opts) (res_of load_list)
  | HTouchLastVerified id at_ => fun P => P _ (TouchLastVerifiedE id at_) (fun _ => eq)
  | HDecrementRemainingUses id => fun P => P _ (DecrementRemainingUsesE id) (fun _ => eq)
  end P.

Lemma with_value_mono {X} hc (e : HStoreE X) (P Q : forall Y, StoreE Y -> (heap -> X -> Y -> Prop) -> Prop) :
  (forall Y e' rel, P Y e' rel -> Q Y e' rel) -> with_value hc e P -> with_value hc e Q.
Proof. intros HPQ. destruct e; cbn; try apply HPQ; intros (v & Hv & Hp); eauto. Qed.

Lemma with_value_and {X} hc (e : HStoreE X) (P Q : forall Y, StoreE Y -> (heap -> X -> Y -> Prop) -> Prop) :
  with_value hc e P -> with_value hc e Q -> with_value hc e (fun Y e' rel => P Y e' rel /\ Q Y e' rel).
Proof.
  destruct e; cbn; try done; intros (v & Hv & Hp) (v' & Hv' & Hq); simplify_eq; eauto.
Qed.

(** The call on values itself. *)
Lemma with_value_elim {X} hc (e : HStoreE X) (P : forall Y, StoreE Y -> (heap -> X -> Y -> Prop) -> Prop) (G : Prop) :
  with_value hc e P ->
  (forall Y e' rel, P Y e' rel ->
    (forall Q : (forall Y, StoreE Y -> (heap -> X -> Y -> Prop) -> Prop), Q Y e' rel -> with_value hc e Q) -> G) -> G.
Proof. destruct e; cbn; intros Hp HG; try (by eapply HG); destruct Hp as (v & Hv & Hp); by eapply HG; eauto. Qed.

(** The arguments of a call are objects of the caller within the types of the code. *)
Definition h_event_ok {X} (hc : heap) (e : HStoreE X) : Prop := with_value hc e (fun _ e' _ => event_ok e').

(** The relation of answers to values holds in a larger heap. *)
Lemma answer_weaken {X} hc (e : HStoreE X) :
  h_event_ok hc e -> with_value hc e (fun Y _ rel => forall h h' x (y : Y), rel h x y -> h ⊆ h' -> rel h' x y).
Proof.
  destruct e; unfold h_event_ok; cbn [with_value].
  1,3,5,7,9: intros (v & Hv & _); exists v; split; [done|].
  6-12: intros _.
  all: intros h h' x y Hx Hs; try exact Hx; destruct x as [x|], y as [y|]; cbn in *; try done.
  all: try (by eapply load_workspace_weaken); try (by eapply load_api_weaken); try (by eapply load_key_weaken).
  unfold load_list in *. apply bind_Some in Hx as (vs & Hvs & Hx). apply mapM_Some in Hvs.
  apply bind_Some. exists vs. split; [|done]. apply mapM_Some. eapply Forall2_impl; [exact Hvs|].
  cbn. intros k v Hk. by eapply load_key_weaken.
Qed.

(** The hash of a key that is written is not nil. *)
Definition hashed {X} (e : StoreE X) : Prop :=
  match e with
  | CreateKeyE k => is_Some (Key_KeyHash k)
  | RotateKeyE _ h => is_Some h
  | _ => True
  end.

Definition h_call_ok {X} (hc : heap) (e : HStoreE X) : Prop :=
  with_value hc e (fun _ e' _ => event_ok e' /\ hashed e').

Lemma h_call_event {X} hc (e : HStoreE X) : h_call_ok hc e -> h_event_ok hc e.
Proof. apply with_value_mono. by intros Y e' rel []. Qed.

(** ** What the store assigns *)

Definition is_hex (a : ascii) : bool :=
  let n := nat_of_ascii a in ((48 <=? n) && (n <=? 57) || (97 <=? n) && (n <=? 102))%nat.

(** The text of a UUID: 32 hexadecimal digits in five groups. *)
Definition uuid_text (u : string) : bool :=
  (String.length u =? 36)%nat &&
  forallb (fun ia => if decide (ia.1 ∈ [8; 13; 18; 23]%nat) then bool_decide (ia.2 = "-"%char) else is_hex ia.2)
    (imap pair (list_ascii_of_string u)).

Lemma uuid_length u : uuid_text u = true -> String.length u = 36%nat.
Proof. intros [Hl _]%andb_prop. by apply Nat.eqb_eq. Qed.

(** An identifier drawn for [kind]: [uuid.NewString()] after the prefix. *)
Definition assigned_id (kind id : string) : Prop :=
  exists u, uuid_text u = true /\ id = kind +:+ "_" +:+ u.

Record assigned (A A' : AStore) : Prop := {
  as_ws : forall id w, a_workspaces A !! id = None -> a_workspaces A' !! id = Some w ->
    assigned_id "ws" id /\ Workspace_CreatedAt w <> zeroTime /\ Workspace_UpdatedAt w <> zeroTime;
  as_api : forall id a, a_apis A !! id = None -> a_apis A' !! id = Some a ->
    assigned_id "api" id /\ API_CreatedAt a <> zeroTime;
  as_key : forall id k, a_keys A !! id = None -> a_keys A' !! id = Some k -> assigned_id "key" id;
}.

Lemma assigned_refl A : assigned A A.
Proof. split; congruence. Qed.

Lemma assigned_put_key A id k : is_Some (a_keys A !! id) -> assigned A (a_put_key id k A).
Proof.
  intros [k0 Hk]. split; cbn; [congruence..|]. intros id2 k2 Hn. rewrite lookup_insert. case_decide; congruence.
Qed.

(** ** What the caller gets *)

(** The times of a key that was read are the ones the driver keeps. *)
Definition key_times (nt : Time -> Time) (k : Key) : Prop :=
  nt (Key_CreatedAt k) = Key_CreatedAt k /\ nt (Key_UpdatedAt k) = Key_UpdatedAt k /\
  nt <$> Key_ExpiresAt k = Key_ExpiresAt k /\ nt <$> Key_LastVerifiedAt k = Key_LastVerifiedAt k.

Definition read_times (nt : Time -> Time) {X} (e : StoreE X) : X -> Prop :=
  match e in StoreE X return X -> Prop with
  | GetKeyByIDE _ | GetKeyByHashE _ | RotateKeyE _ _ => fun r =>
      match r with Ok k => key_times nt k | Err _ => True end
  | ListKeysE _ => fun r =>
      match r with Ok l => Forall (key_times nt) (ListKeysResult_Keys l) | Err _ => True end
  | _ => fun _ => True
  end.

Lemma read_times_id {X} (e : StoreE X) x : read_times id e x.
Proof.
  destruct e; cbn; try done; destruct x as [x|]; try done.
  1-3: split_and!; try done; apply option_fmap_id.
  apply Forall_forall. intros k _. split_and!; try done; apply option_fmap_id.
Qed.

Lemma key_times_norm nt k : key_times nt k -> norm_key nt k = norm_key id k.
Proof. intros (Hc & Hu & He & Hv). unfold norm_key. rewrite Hc, Hu, He, Hv. by rewrite !option_fmap_id. Qed.

(** The objects an answer may share: those of the arguments for a created record,
    else none. *)
Definition answer_heap {X} (e : HStoreE X) (hc hr : heap) : heap :=
  match e with
  | HCreateWorkspace _ | HCreateAPI _ | HCreateKey _ => hr ∪ hc
  | _ => hr
  end.

Lemma answer_heap_subset {X} (e : HStoreE X) hc hr : hr ⊆ answer_heap e hc hr.
Proof. destruct e; cbn; first [done|apply map_union_subseteq_l]. Qed.

(** ** The interface *)

Section Contract.
Context (nt : Time -> Time) (le : relation string) (faults : Prop).

(** The call [e] may lead from [A] to [A'] with the answer [x] in the heap [hr].  The
    clock is not followed and a repeated revocation may restamp: the weakest contract
    of the interface. *)
Definition heap_contract {X} (hc : heap) (e : HStoreE X) (A : AStore) (hr : heap) (x : X) (A' : AStore) : Prop :=
  assigned A A' /\
  with_value hc e (fun _ e' rel => exists y, store_contract nt le any_time True faults e' A y A' /\
    read_times nt e' y /\ rel (answer_heap e hc hr) x y).
End Contract.

Class HeapImpl (S I : Type) := {
  hi_handle : forall X, HStoreE X -> I -> S -> H (S * X);
  (** With the driver's objects in [hs], the store represents [A]. *)
  hi_inv : heap -> S -> AStore -> Prop;
  hi_ok : I -> S -> Prop;
  hi_nt : Time -> Time;
  hi_le : relation string;
  hi_faults : Prop;
  hi_refines : forall X (e : HStoreE X) i hc hs s A,
    hc ##ₘ hs -> hi_inv hs s A -> hi_ok i s -> h_call_ok hc e ->
    allocs (hi_handle X e i s) (hc ∪ hs) (fun hn sx => exists hr ho A',
      hn = hr ∪ ho /\ hr ##ₘ ho /\ hi_inv (ho ∪ hs) sx.1 A' /\
      heap_contract hi_nt hi_le hi_faults hc e A hr sx.2 A');
}.
