(* ===== verification/Client.v ===== *)
(** * Client: programs that share objects with a store

    A program that calls a store and reads, writes and allocates objects of its own.
    [cwp] is its weakest precondition against the contract of the interface: it sees
    the caller's part of the heap only, so a write of the caller cannot change what
    the store holds.  [cwp_run] is its soundness over any driver that implements
    [HeapImpl] and does not fail, at the precision and in the order of the driver. *)

From S2P Require Import Prelude Effects GoSort Store StoreSpec Heap References HeapSpec.

Inductive ClientE : Type -> Type :=
| Alloc (o : obj) : ClientE loc
| Peek (l : loc) : ClientE obj
| Poke (l : loc) (o : obj) : ClientE unit
| ClockNow : ClientE Time.

Abbreviation CliE := (sumE HStoreE ClientE).

(** ** Test functions: a failed check or a panic ends the function *)

Inductive failure : Type :=
| Fatalf (format : string)
| Panicked.

Definition T (A : Type) : Type := prog CliE (result failure A).

#[export] Instance T_ret : MRet T := fun A a => Ret (Ok a).
#[export] Instance T_bind : MBind T := fun A B f p =>
  bind (fun r => match r with Ok a => f a | Err e => Ret (Err e) end) (p : prog CliE (result failure A)).

Definition fatal {A} (format : string) : T A := Ret (Err (Fatalf format)).
Definition panicked {A} : T A := Ret (Err Panicked).

(** [if !b { t.Fatalf(...) }] *)
Definition require (b : bool) (format : string) : T unit := if b then mret tt else fatal format.

Definition perform {X} (e : CliE X) : T X := @Vis CliE (result failure X) X e (fun x => Ret (Ok x)).
Definition call {X} (e : HStoreE X) : T X := perform (inlE e).
Definition clock : T Time := perform (inrE ClockNow).

(** A literal, or [make]. *)
Definition alloc `{Boxed A} (a : A) : T (ptr A) :=
  l ← perform (inrE (Alloc (box a)));
  mret (Some l).

(** The value of a slice, map or pointer: [None] for nil. *)
Definition value `{Boxed A} (p : ptr A) : T (option A) :=
  match p with
  | None => mret None
  | Some l =>
      o ← perform (inrE (Peek l));
      match unbox o with
      | Some a => mret (Some a)
      | None => panicked
      end
  end.

(** [*p = f *p]; nil panics. *)
Definition modify `{Boxed A} (p : ptr A) (f : A -> option A) : T unit :=
  match p with
  | None => panicked
  | Some l =>
      o ← perform (inrE (Peek l));
      match (a ← unbox o; f a) with
      | Some a => perform (inrE (Poke l (box a)))
      | None => panicked
      end
  end.

(** [s[0] = f(s[0])]; out of range panics. *)
Definition modify_first `{Boxed (list A)} (p : ptr (list A)) (f : A -> A) : T unit :=
  modify p (fun l => match l with [] => None | x :: l => Some (f x :: l) end).

(** [m[k] = v] *)
Definition set_entry (p : ptr (gmap string string)) (k v : string) : T unit :=
  modify p (fun m => Some (<[k := v]> m)).

(** ** Weakest preconditions *)

(** The precision at which a store keeps times, and the order in which it lists. *)
Class Precision := { kept_time : Time -> Time; id_le : relation string }.

Section Wp.
Context {PR : Precision}.

Definition client_wp {X} (e : ClientE X) (hc : heap) : (X -> heap -> Prop) -> Prop :=
  match e in ClientE X return (X -> heap -> Prop) -> Prop with
  | Alloc o => fun K => forall l, hc !! l = None -> K l (<[l := o]> hc)
  | Peek l => fun K => exists o, hc !! l = Some o /\ K o hc
  | Poke l o => fun K => is_Some (hc !! l) /\ K tt (<[l := o]> hc)
  | ClockNow => fun K => forall now, K now hc
  end.

Fixpoint cwp {R} (p : prog CliE R) (A : AStore) (hc : heap) (Q : AStore -> heap -> R -> Prop) : Prop :=
  match p with
  | Ret r => Q A hc r
  | Vis (inlE e) k =>
      h_call_ok hc e /\
      forall hr x A', hr ##ₘ hc -> heap_contract kept_time id_le False hc e A hr x A' -> cwp (k x) A' (hr ∪ hc) Q
  | Vis (inrE e) k => client_wp e hc (fun x hc' => cwp (k x) A hc' Q)
  end.

Lemma client_wp_mono {X} (e : ClientE X) hc (K K' : X -> heap -> Prop) :
  (forall x h, K x h -> K' x h) -> client_wp e hc K -> client_wp e hc K'.
Proof. intros HK. destruct e; cbn; [auto..|naive_solver|auto]. naive_solver. Qed.

Lemma cwp_mono {R} (p : prog CliE R) A hc (Q Q' : AStore -> heap -> R -> Prop) :
  (forall A h r, Q A h r -> Q' A h r) -> cwp p A hc Q -> cwp p A hc Q'.
Proof.
  intros HQ. revert A hc. induction p as [r|X e k IH]; cbn; intros A hc; [apply HQ|].
  destruct e as [e|e].
  - intros [He Hk]. split; [done|]. intros hr x A' Hd Hc. by apply IH, Hk.
  - apply client_wp_mono. intros x h. apply IH.
Qed.

Lemma cwp_bind {R R'} (f : R -> prog CliE R') p A hc Q :
  cwp p A hc (fun A' h r => cwp (f r) A' h Q) -> cwp (bind f p) A hc Q.
Proof.
  revert A hc. induction p as [r|X e k IH]; cbn; intros A hc; [done|]. destruct e as [e|e].
  - intros [He Hk]. split; [done|]. intros hr x A' Hd Hc. by apply IH, Hk.
  - apply client_wp_mono. intros x h. apply IH.
Qed.
End Wp.

(** ** Runs *)

Section Run.
Context {S I : Type} {impl : HeapImpl S I}.

Record CliInp : Type := mkCliInp { ci_store : I; ci_now : Time }.

Definition client_handle (X : Type) (e : CliE X) (i : CliInp) (st : heap * S) : option (heap * S * X) :=
  match e with
  | inlE e =>
      match hi_handle X e (ci_store i) st.2 st.1 with
      | Some (h, (s, x)) => Some (h, s, x)
      | None => None
      end
  | inrE e =>
      match e in ClientE X return option (heap * S * X) with
      | Alloc o => let l := fresh (dom st.1) in Some (<[l := o]> st.1, st.2, l)
      | Peek l => match st.1 !! l with Some o => Some (st, o) | None => None end
      | Poke l o => match st.1 !! l with Some _ => Some (<[l := o]> st.1, st.2, tt) | None => None end
      | ClockNow => Some (st, ci_now i)
      end
  end.

(** The inputs of a run fit the states it goes through. *)
Fixpoint client_inputs_ok {R} (p : prog CliE R) (ins : nat -> CliInp) (n : nat) (st : heap * S) : Prop :=
  match p with
  | Ret _ => True
  | Vis e k =>
      hi_ok (ci_store (ins n)) st.2 /\
      match client_handle _ e (ins n) st with
      | Some (st', x) => client_inputs_ok (k x) ins (Datatypes.S n) st'
      | None => True
      end
  end.

(** The precision and the order of the driver. *)
Definition impl_precision : Precision := {| kept_time := hi_nt; id_le := hi_le |}.

Lemma faultless_contract {X} hc (e : HStoreE X) A hr x A' :
  ~ hi_faults -> heap_contract hi_nt hi_le hi_faults hc e A hr x A' -> heap_contract hi_nt hi_le False hc e A hr x A'.
Proof.
  intros Hf [Ha Hc]. split; [done|].
  eapply with_value_mono; [|exact Hc]. intros Y e' rel (y & [Hs|(? & _)] & Hx); [|done]. exists y. split; [by left|done].
Qed.

Lemma cwp_run {R} (p : prog CliE R) A hc hs s ins n Q :
  ~ hi_faults -> hc ##ₘ hs -> hi_inv hs s A -> client_inputs_ok p ins n (hc ∪ hs, s) ->
  cwp (PR := impl_precision) p A hc Q ->
  exists hc' hs' s' A' n' r, run client_handle p ins n (hc ∪ hs, s) = Some (hc' ∪ hs', s', n', r) /\
    hc' ##ₘ hs' /\ hi_inv hs' s' A' /\ Q A' hc' r.
Proof.
  intros Hex. revert A hc hs s n. induction p as [r|X e k IH]; intros A hc hs s n Hd Hi Hok Hp.
  { by exists hc, hs, s, A, n, r. }
  cbn [client_inputs_ok run cwp] in *. destruct Hok as [Ho Hok]. destruct e as [e|e].
  - destruct Hp as [He Hk].
    destruct (hi_refines X e _ hc hs s A Hd Hi Ho He) as (hn & [s' x] & Hh & Hdn & hr & ho & A' & -> & Hdr & Hi' & Hc).
    cbn [client_handle fst snd] in *. rewrite Hh in *. split_disjoint.
    assert (Heq : hr ∪ ho ∪ (hc ∪ hs) = (hr ∪ hc) ∪ (ho ∪ hs)).
    { rewrite <- !(assoc_L (∪)). f_equal. rewrite !(assoc_L (∪)). f_equal. by apply map_union_comm. }
    rewrite Heq in *. apply IH with (A := A'); [disjoint|done|done|].
    apply Hk; [done|]. by apply faultless_contract.
  - destruct e as [o|l|l o|]; cbn [client_handle client_wp fst snd] in *.
    + set (l := fresh (dom (hc ∪ hs))) in *.
      assert (Hl : (hc ∪ hs) !! l = None) by apply not_elem_of_dom, is_fresh.
      apply lookup_union_None in Hl as [Hl1 Hl2]. rewrite insert_union_l in *.
      eapply IH; [by apply map_disjoint_insert_l_2|done|done|by apply Hp].
    + destruct Hp as (o & Hl & Hp). assert (Hl' : (hc ∪ hs) !! l = Some o) by by apply lookup_union_Some_l.
      rewrite Hl' in *. by eapply IH.
    + destruct Hp as ([o' Hl] & Hp). assert (Hl' : (hc ∪ hs) !! l = Some o') by by apply lookup_union_Some_l.
      rewrite Hl', insert_union_l in *. eapply IH; [|done|done|done].
      apply map_disjoint_insert_l_2; [|done]. by eapply map_disjoint_Some_l.
    + by eapply IH.
Qed.
End Run.
