(* ===== verification/Conformance.v ===== *)
(** * Conformance: the suite every driver must pass (keychainserver/store/conformance)

    The tests as programs that call a store and share objects with it.  [t.Fatal] ends
    a test with a failure; contexts, their timeouts and [t.Helper] do nothing here. *)

From S2P Require Import Prelude Effects GoSort Crypto Store Heap References Client.

Module conformance.

(** ** Go *)

Definition Second : Z := 1000000000.
Definition Hour : Z := 3600 * Second.

(** [Time.Truncate]: since the zero time. *)
Definition Truncate (t : Time) (d : Z) : Time := t - (t - zeroTime) mod d.

Definition IsZero (t : Time) : bool := bool_decide (t = zeroTime).

(** [bytes.Repeat([]byte{b}, 32)] *)
Definition Repeat (b : byte) : T (ptr (list byte)) := alloc (replicate 32 b).

Definition bytes_Equal (a b : slice byte) : bool := bool_decide (elems a = elems b).
Definition slices_Equal `{EqDecision A} (a b : slice A) : bool := bool_decide (elems a = elems b).
Definition maps_Equal (a b : metadata) : bool := bool_decide (default ∅ a = default ∅ b).

(** [errors.Is(err, target)] of the error of an answer; nil is no error. *)
Definition err_is {X} (r : res X) (target : error) : bool :=
  match r with
  | Ok _ => false
  | Err err => errors_is err target
  end.

Definition err_is' (err : option error) (target : error) : bool :=
  match err with
  | None => false
  | Some err => errors_is err target
  end.

(** [x, err := ...; if err != nil { t.Fatalf(...) }] *)
Definition must {X} (r : res X) (format : string) : T X :=
  match r with
  | Ok x => mret x
  | Err _ => fatal format
  end.

(** [x, _ := ...]: the zero value with an error. *)
Definition ignore {X} (zero : X) (r : res X) : X :=
  match r with
  | Ok x => x
  | Err _ => zero
  end.

(** [for i := range n { body(i) }] *)
Fixpoint for_range (n : nat) (i : Z) (body : Z -> T unit) : T unit :=
  match n with
  | O => mret tt
  | S n => _ ← body i; for_range n (i + 1) body
  end.

Fixpoint for_each {A} (l : list A) (body : A -> T unit) : T unit :=
  match l with
  | [] => mret tt
  | x :: l => _ ← body x; for_each l body
  end.

(** ** Helpers *)

Definition newWorkspace (name : string) : HWorkspace :=
  mkHWorkspace EmptyString name "user_owner" zeroTime zeroTime None.

Definition newAPI (workspaceID name : string) : HAPI :=
  mkHAPI EmptyString workspaceID name "ck_test_" zeroTime zeroTime None.

Definition newKey (apiID workspaceID owner : string) (hash : ptr (list byte)) : T HKey :=
  permissions ← alloc ["chat:write"%string];
  mret (mkHKey EmptyString apiID workspaceID owner "test-key" hash permissions None None (-1) true
    zeroTime zeroTime None None).

(** The assignments of the tests to a new key. *)
Definition set_RemainingUses (k : HKey) (n : Z) : HKey :=
  mkHKey (HKey_KeyID k) (HKey_APIID k) (HKey_WorkspaceID k) (HKey_OwnerPrincipalID k) (HKey_Name k)
    (HKey_KeyHash k) (HKey_Permissions k) (HKey_LimitRefs k) (HKey_ExpiresAt k) n (HKey_Enabled k)
    (HKey_CreatedAt k) (HKey_UpdatedAt k) (HKey_LastVerifiedAt k) (HKey_Metadata k).

Definition set_fields (k : HKey) (name : string) (permissions : ptr (list string)) (refs : ptr (list LimitRef))
    (expires verified : ptr Time) (m : ptr (gmap string string)) : HKey :=
  mkHKey (HKey_KeyID k) (HKey_APIID k) (HKey_WorkspaceID k) (HKey_OwnerPrincipalID k) name
    (HKey_KeyHash k) permissions refs expires (HKey_RemainingUses k) (HKey_Enabled k)
    (HKey_CreatedAt k) (HKey_UpdatedAt k) verified m.

Definition seedWorkspace : T HWorkspace :=
  r ← call (HCreateWorkspace (newWorkspace "acme"));
  must r "seed workspace: %v".

Definition seedAPI (workspaceID : string) : T HAPI :=
  r ← call (HCreateAPI (newAPI workspaceID "prod"));
  must r "seed api: %v".

Record keySnapshot : Type := mkSnapshot {
  hash : ptr (list byte);
  permissions : ptr (list string);
  limitRefs : ptr (list LimitRef);
  expiresAt : ptr Time;
  lastVerifiedAt : ptr Time;
  metadata_ : ptr (gmap string string);
}.

Definition sameOptionalTime (got want : option Time) : bool :=
  match got, want with
  | Some g, Some w => bool_decide (g = w)
  | None, None => true
  | _, _ => false
  end.

Definition assertKeyFields (got : HKey) (want : keySnapshot) : T unit :=
  g ← value (HKey_KeyHash got); w ← value (hash want);
  _ ← require (bytes_Equal g w) "KeyHash = %x, want %x";
  g ← value (HKey_Permissions got); w ← value (permissions want);
  _ ← require (slices_Equal g w) "Permissions = %v, want %v";
  g ← value (HKey_LimitRefs got); w ← value (limitRefs want);
  _ ← require (slices_Equal g w) "LimitRefs = %v, want %v";
  g ← value (HKey_ExpiresAt got); w ← value (expiresAt want);
  _ ← require (sameOptionalTime g w) "ExpiresAt = %v, want %v";
  g ← value (HKey_LastVerifiedAt got); w ← value (lastVerifiedAt want);
  _ ← require (sameOptionalTime g w) "LastVerifiedAt = %v, want %v";
  g ← value (HKey_Metadata got); w ← value (metadata_ want);
  require (maps_Equal g w) "Metadata = %v, want %v".

(** [b ^ 0xff] *)
Definition flip_byte (b : byte) : byte := sha256.Z_byte (Z.lxor (sha256.byte_Z b) 255).

Definition set_LimitID (r : LimitRef) : LimitRef := mkLimitRef "mutated" (LimitRef_ScopeKey r).

(** [if len(s) > 0 { s[0] = ... }] *)
Definition mutate_slice `{Boxed (list A)} (p : ptr (list A)) (f : A -> A) : T unit :=
  s ← value p;
  match elems s with
  | [] => mret tt
  | _ :: _ => modify_first p f
  end.

Definition mutate_ptr `{Boxed A} (p : ptr A) (f : A -> A) : T unit :=
  match p with
  | None => mret tt
  | Some _ => modify p (fun a => Some (f a))
  end.

Definition mutateKeyValue (k : HKey) : T unit :=
  _ ← mutate_slice (HKey_KeyHash k) flip_byte;
  _ ← mutate_slice (HKey_Permissions k) (fun _ => "mutated"%string);
  _ ← mutate_slice (HKey_LimitRefs k) set_LimitID;
  _ ← mutate_ptr (HKey_ExpiresAt k) (fun t => t + Hour);
  _ ← mutate_ptr (HKey_LastVerifiedAt k) (fun t => t + Hour);
  mutate_ptr (HKey_Metadata k) (<[ "env"%string := "mutated"%string ]>).

(** ** Workspace tests *)

Definition testWorkspaceCreateAndGet : T unit :=
  r ← call (HCreateWorkspace (newWorkspace "acme"));
  created ← must r "create: %v";
  _ ← require (negb (bool_decide (HWorkspace_WorkspaceID created = EmptyString)))
        "WorkspaceID should be assigned by the store";
  _ ← require (negb (IsZero (HWorkspace_CreatedAt created) || IsZero (HWorkspace_UpdatedAt created)))
        "timestamps should be assigned by the store";
  r ← call (HGetWorkspace (HWorkspace_WorkspaceID created));
  got ← must r "get: %v";
  _ ← require (bool_decide (HWorkspace_WorkspaceID got = HWorkspace_WorkspaceID created))
        "WorkspaceID mismatch: %q vs %q";
  _ ← require (bool_decide (HWorkspace_Name got = "acme"%string)) "Name = %q, want %q";
  require (bool_decide (HWorkspace_OwnerPrincipalID got = "user_owner"%string)) "OwnerPrincipalID = %q".

Definition testWorkspaceGetNotFound : T unit :=
  r ← call (HGetWorkspace "ws_missing");
  require (err_is r ErrNotFound) "err = %v, want ErrNotFound".

Definition testWorkspaceMetadataIsIsolated : T unit :=
  meta ← alloc ({[ "tier" := "prod" ]}%string : gmap string string);
  r ← call (HCreateWorkspace (mkHWorkspace EmptyString "acme" "user_owner" zeroTime zeroTime meta));
  created ← must r "create: %v";
  _ ← set_entry meta "tier" "mutated";
  _ ← set_entry meta "new" "leak";
  r ← call (HGetWorkspace (HWorkspace_WorkspaceID created));
  got ← must r "get: %v";
  want ← alloc ({[ "tier" := "prod" ]}%string : gmap string string);
  g ← value (HWorkspace_Metadata got); w ← value want;
  _ ← require (maps_Equal g w) "Metadata = %v, want %v";
  _ ← set_entry (HWorkspace_Metadata got) "tier" "client-mutated";
  r ← call (HGetWorkspace (HWorkspace_WorkspaceID created));
  again ← must r "get again: %v";
  g ← value (HWorkspace_Metadata again); w ← value want;
  require (maps_Equal g w) "Metadata changed after mutating returned value: %v".

(** ** API tests *)

Definition testAPICreateRequiresWorkspace : T unit :=
  r ← call (HCreateAPI (newAPI "ws_missing" "prod"));
  require (err_is r ErrNotFound) "err = %v, want ErrNotFound".

Definition testAPICreateAndGet : T unit :=
  w ← seedWorkspace;
  r ← call (HCreateAPI (newAPI (HWorkspace_WorkspaceID w) "prod"));
  created ← must r "create: %v";
  _ ← require (negb (bool_decide (HAPI_APIID created = EmptyString))) "APIID should be assigned by the store";
  _ ← require (negb (IsZero (HAPI_CreatedAt created))) "CreatedAt should be assigned by the store";
  r ← call (HGetAPI (HAPI_APIID created));
  got ← must r "get: %v";
  _ ← require (bool_decide (HAPI_WorkspaceID got = HWorkspace_WorkspaceID w)) "WorkspaceID = %q, want %q";
  require (bool_decide (HAPI_KeyPrefix got = "ck_test_"%string)) "KeyPrefix = %q".

Definition testAPIGetNotFound : T unit :=
  r ← call (HGetAPI "api_missing");
  require (err_is r ErrNotFound) "err = %v, want ErrNotFound".

Definition testAPIMetadataIsIsolated : T unit :=
  w ← seedWorkspace;
  meta ← alloc ({[ "region" := "eu" ]}%string : gmap string string);
  r ← call (HCreateAPI (mkHAPI EmptyString (HWorkspace_WorkspaceID w) "prod" "ck_prod_" zeroTime zeroTime meta));
  created ← must r "create: %v";
  _ ← set_entry meta "region" "mutated";
  _ ← set_entry meta "new" "leak";
  r ← call (HGetAPI (HAPI_APIID created));
  got ← must r "get: %v";
  want ← alloc ({[ "region" := "eu" ]}%string : gmap string string);
  g ← value (HAPI_Metadata got); w ← value want;
  _ ← require (maps_Equal g w) "Metadata = %v, want %v";
  _ ← set_entry (HAPI_Metadata got) "region" "client-mutated";
  r ← call (HGetAPI (HAPI_APIID created));
  again ← must r "get again: %v";
  g ← value (HAPI_Metadata again); w ← value want;
  require (maps_Equal g w) "Metadata changed after mutating returned value: %v".

(** ** Key tests *)

Definition testKeyCreateRequiresAPI : T unit :=
  hash ← alloc (list_byte_of_string "hash-abc");
  k ← newKey "api_missing" "ws_x" "user_1" hash;
  r ← call (HCreateKey k);
  require (err_is r ErrNotFound) "err = %v, want ErrNotFound".

(** [w := seedWorkspace(t, s); a := seedAPI(t, s, w.WorkspaceID)] *)
Definition seed : T (HWorkspace * HAPI) :=
  w ← seedWorkspace;
  a ← seedAPI (HWorkspace_WorkspaceID w);
  mret (w, a).

(** [s.CreateKey(ctx(t), newKey(a.APIID, w.WorkspaceID, owner, hash))] *)
Definition createKey (w : HWorkspace) (a : HAPI) (owner : string) (hash : ptr (list byte)) : T (res HKey) :=
  k ← newKey (HAPI_APIID a) (HWorkspace_WorkspaceID w) owner hash;
  call (HCreateKey k).

Definition testKeyCreateAndLookup : T unit :=
  wa ← seed; let '(w, a) := wa : HWorkspace * HAPI in
  hash ← Repeat xab;
  r ← createKey w a "user_1" hash;
  created ← must r "create: %v";
  _ ← require (negb (bool_decide (HKey_KeyID created = EmptyString))) "KeyID should be assigned by the store";
  g ← value (HKey_KeyHash created); h ← value hash;
  _ ← require (bytes_Equal g h) "KeyHash should round-trip exactly";
  r ← call (HGetKeyByID (HKey_KeyID created));
  byID ← must r "GetKeyByID: %v";
  _ ← require (bool_decide (HKey_KeyID byID = HKey_KeyID created)) "GetKeyByID mismatch";
  r ← call (HGetKeyByHash hash);
  byHash ← must r "GetKeyByHash: %v";
  require (bool_decide (HKey_KeyID byHash = HKey_KeyID created)) "GetKeyByHash mismatch".

(** [time.Now().UTC().Add(d).Truncate(time.Second)], in a variable whose address is taken. *)
Definition time_var (d : Z) : T (ptr Time) :=
  now ← clock;
  alloc (Truncate (now + d) Second).

Abbreviation token_ref := (mkLimitRef "tokens" "user:user_1").

(** The fields of the keys that the tests of isolation create: the snapshot shares the
    hash and the times with the key, as the variables of the tests do. *)
Definition testKeyCreatePreservesAllFields : T unit :=
  wa ← seed; let '(w, a) := wa : HWorkspace * HAPI in
  expires ← time_var Hour;
  lastVerified ← time_var (- Hour);
  hash ← Repeat xcd;
  k ← newKey (HAPI_APIID a) (HWorkspace_WorkspaceID w) "user_1" hash;
  permissions ← alloc ["chat:read"; "chat:write"]%string;
  refs ← alloc [token_ref];
  m ← alloc ({[ "env" := "test" ]}%string : gmap string string);
  let k := set_fields k "full-key" permissions refs expires lastVerified m in
  r ← call (HCreateKey k);
  created ← must r "create: %v";
  r ← call (HGetKeyByID (HKey_KeyID created));
  got ← must r "get: %v";
  permissions ← alloc ["chat:read"; "chat:write"]%string;
  refs ← alloc [token_ref];
  m ← alloc ({[ "env" := "test" ]}%string : gmap string string);
  assertKeyFields got (mkSnapshot hash permissions refs expires lastVerified m).

Definition testKeyInputMutationDoesNotChangeStoredKey : T unit :=
  wa ← seed; let '(w, a) := wa : HWorkspace * HAPI in
  expires ← time_var Hour;
  lastVerified ← time_var (- Hour);
  hash ← Repeat xdd;
  k ← newKey (HAPI_APIID a) (HWorkspace_WorkspaceID w) "user_1" hash;
  permissions ← alloc ["chat:read"; "chat:write"]%string;
  refs ← alloc [token_ref];
  m ← alloc ({[ "env" := "test" ]}%string : gmap string string);
  let k := set_fields k (HKey_Name k) permissions refs expires lastVerified m in
  h ← value hash; wantHash ← alloc (elems h);
  e ← value expires; wantExpires ← alloc (default zeroTime e);
  v ← value lastVerified; wantLastVerified ← alloc (default zeroTime v);
  r ← call (HCreateKey k);
  created ← must r "create: %v";
  _ ← modify_first (HKey_KeyHash k) (fun _ => xee);
  _ ← modify_first (HKey_Permissions k) (fun _ => "mutated"%string);
  _ ← modify_first (HKey_LimitRefs k) set_LimitID;
  _ ← modify (HKey_ExpiresAt k) (fun t => Some (t + Hour));
  _ ← modify (HKey_LastVerifiedAt k) (fun t => Some (t + Hour));
  _ ← set_entry (HKey_Metadata k) "env" "mutated";
  r ← call (HGetKeyByID (HKey_KeyID created));
  got ← must r "get: %v";
  permissions ← alloc ["chat:read"; "chat:write"]%string;
  refs ← alloc [token_ref];
  m ← alloc ({[ "env" := "test" ]}%string : gmap string string);
  assertKeyFields got (mkSnapshot wantHash permissions refs wantExpires wantLastVerified m).

(** The key of the two tests that mutate what the store returned, and its snapshot. *)
Definition isolated_key (w : HWorkspace) (a : HAPI) (hash : ptr (list byte)) (expires : ptr Time) : T HKey :=
  k ← newKey (HAPI_APIID a) (HWorkspace_WorkspaceID w) "user_1" hash;
  permissions ← alloc ["chat:read"%string];
  refs ← alloc [token_ref];
  m ← alloc ({[ "env" := "test" ]}%string : gmap string string);
  mret (set_fields k (HKey_Name k) permissions refs expires (HKey_LastVerifiedAt k) m).

Definition isolated_snapshot (hash : ptr (list byte)) (expires : ptr Time) : T keySnapshot :=
  permissions ← alloc ["chat:read"%string];
  refs ← alloc [token_ref];
  m ← alloc ({[ "env" := "test" ]}%string : gmap string string);
  mret (mkSnapshot hash permissions refs expires None m).

Definition testKeyLookupMutationDoesNotChangeStoredKey : T unit :=
  wa ← seed; let '(w, a) := wa : HWorkspace * HAPI in
  expires ← time_var Hour;
  hash ← Repeat xde;
  k ← isolated_key w a hash expires;
  r ← call (HCreateKey k);
  created ← must r "create: %v";
  r ← call (HGetKeyByID (HKey_KeyID created));
  got ← must r "get: %v";
  _ ← mutateKeyValue got;
  r ← call (HGetKeyByID (HKey_KeyID created));
  again ← must r "get again: %v";
  want ← isolated_snapshot hash expires;
  assertKeyFields again want.

Definition testKeyListMutationDoesNotChangeStoredKey : T unit :=
  wa ← seed; let '(w, a) := wa : HWorkspace * HAPI in
  expires ← time_var Hour;
  hash ← Repeat xdf;
  k ← isolated_key w a hash expires;
  r ← call (HCreateKey k);
  created ← must r "create: %v";
  r ← call (HListKeys (mkListKeysOpts (HAPI_APIID a) EmptyString 1 EmptyString));
  res ← must r "list: %v";
  match HListKeysResult_Keys res with
  | [got] =>
      _ ← mutateKeyValue got;
      r ← call (HGetKeyByID (HKey_KeyID created));
      again ← must r "get again: %v";
      want ← isolated_snapshot hash expires;
      assertKeyFields again want
  | _ => fatal "list returned %d keys, want 1"
  end.

Definition testKeyListPreservesAllFields : T unit :=
  wa ← seed; let '(w, a) := wa : HWorkspace * HAPI in
  expires ← time_var Hour;
  lastVerified ← time_var (- Hour);
  hash ← Repeat xe0;
  k ← newKey (HAPI_APIID a) (HWorkspace_WorkspaceID w) "user_1" hash;
  permissions ← alloc ["chat:read"; "chat:write"]%string;
  refs ← alloc [token_ref];
  m ← alloc ({[ "env" := "test" ]}%string : gmap string string);
  let k := set_fields k (HKey_Name k) permissions refs expires lastVerified m in
  r ← call (HCreateKey k);
  _ ← must r "create: %v";
  r ← call (HListKeys (mkListKeysOpts (HAPI_APIID a) EmptyString 10 EmptyString));
  res ← must r "list: %v";
  match HListKeysResult_Keys res with
  | [got] =>
      permissions ← alloc ["chat:read"; "chat:write"]%string;
      refs ← alloc [token_ref];
      m ← alloc ({[ "env" := "test" ]}%string : gmap string string);
      assertKeyFields got (mkSnapshot hash permissions refs expires lastVerified m)
  | _ => fatal "list returned %d keys, want 1"
  end.

Definition testKeyGetByHashUnknown : T unit :=
  hash ← Repeat x00;
  r ← call (HGetKeyByHash hash);
  require (err_is r ErrNotFound) "err = %v, want ErrNotFound".

Definition testKeyGetByIDUnknown : T unit :=
  r ← call (HGetKeyByID "key_missing");
  require (err_is r ErrNotFound) "err = %v, want ErrNotFound".

Definition testKeyCreateRejectsDuplicateHash : T unit :=
  wa ← seed; let '(w, a) := wa : HWorkspace * HAPI in
  hash ← Repeat x11;
  r ← createKey w a "user_1" hash;
  _ ← must r "first create: %v";
  r ← createKey w a "user_2" hash;
  require (err_is r ErrConflict) "err = %v, want ErrConflict".

Definition testKeyRevoke : T unit :=
  wa ← seed; let '(w, a) := wa : HWorkspace * HAPI in
  hash ← Repeat x22;
  r ← createKey w a "user_1" hash;
  k ← must r "create: %v";
  r ← call (HRevokeKey (HKey_KeyID k));
  _ ← must r "revoke: %v";
  r ← call (HGetKeyByID (HKey_KeyID k));
  got ← must r "get after revoke: %v";
  require (negb (HKey_Enabled got)) "Enabled should be false after revoke".

Definition testKeyRevokeIsIdempotent : T unit :=
  wa ← seed; let '(w, a) := wa : HWorkspace * HAPI in
  hash ← Repeat x33;
  r ← createKey w a "user_1" hash;
  let k := ignore zeroHKey r in
  r ← call (HRevokeKey (HKey_KeyID k));
  _ ← must r "first revoke: %v";
  r ← call (HRevokeKey (HKey_KeyID k));
  _ ← must r "second revoke must be idempotent, got: %v";
  mret tt.

Definition testKeyRevokeUnknownReturnsNotFound : T unit :=
  r ← call (HRevokeKey "key_missing");
  require (err_is r ErrNotFound) "err = %v, want ErrNotFound".

Definition testKeyRotate : T unit :=
  wa ← seed; let '(w, a) := wa : HWorkspace * HAPI in
  oldHash ← Repeat x44;
  newHash ← Repeat x55;
  r ← createKey w a "user_1" oldHash;
  let k := ignore zeroHKey r in
  r ← call (HRotateKey (HKey_KeyID k) newHash);
  rotated ← must r "rotate: %v";
  _ ← require (bool_decide (HKey_KeyID rotated = HKey_KeyID k)) "KeyID changed across rotation: %q -> %q";
  g ← value (HKey_KeyHash rotated); h ← value newHash;
  _ ← require (bytes_Equal g h) "KeyHash should be the new hash after rotation";
  r ← call (HGetKeyByHash oldHash);
  _ ← require (err_is r ErrNotFound) "old hash should no longer resolve, got err = %v";
  r ← call (HGetKeyByHash newHash);
  _ ← must r "new hash should resolve: %v";
  mret tt.

Definition testKeyRotateUnknownReturnsNotFound : T unit :=
  hash ← Repeat x56;
  r ← call (HRotateKey "key_missing" hash);
  require (err_is r ErrNotFound) "err = %v, want ErrNotFound".

Definition testKeyRotateRejectsDuplicateHash : T unit :=
  wa ← seed; let '(w, a) := wa : HWorkspace * HAPI in
  hash1 ← Repeat x57;
  hash2 ← Repeat x58;
  r ← createKey w a "user_1" hash1;
  k ← must r "create first: %v";
  r ← createKey w a "user_2" hash2;
  _ ← must r "create second: %v";
  r ← call (HRotateKey (HKey_KeyID k) hash2);
  _ ← require (err_is r ErrConflict) "err = %v, want ErrConflict";
  r ← call (HGetKeyByID (HKey_KeyID k));
  got ← must r "get after rejected rotate: %v";
  g ← value (HKey_KeyHash got); h ← value hash1;
  require (bytes_Equal g h) "rejected rotate changed the original key hash".

(** [_, _ = s.CreateKey(...)] *)
Definition createKey_ (w : HWorkspace) (a : HAPI) (owner : string) (b : byte) : T unit :=
  hash ← Repeat b;
  _ ← createKey w a owner hash;
  mret tt.

Definition testKeyListByAPI : T unit :=
  w ← seedWorkspace;
  a1 ← seedAPI (HWorkspace_WorkspaceID w);
  r ← call (HCreateAPI (newAPI (HWorkspace_WorkspaceID w) "staging"));
  let a2 := ignore zeroHAPI r in
  _ ← createKey_ w a1 "user_1" x60;
  _ ← createKey_ w a1 "user_2" x61;
  _ ← createKey_ w a2 "user_1" x62;
  r ← call (HListKeys (mkListKeysOpts (HAPI_APIID a1) EmptyString 100 EmptyString));
  res ← must r "list: %v";
  _ ← require (bool_decide (length (HListKeysResult_Keys res) = 2%nat)) "got %d keys for api1, want 2";
  for_each (HListKeysResult_Keys res) (fun k =>
    require (bool_decide (HKey_APIID k = HAPI_APIID a1)) "list returned a key from api %q").

Definition testKeyListFilterByOwner : T unit :=
  wa ← seed; let '(w, a) := wa : HWorkspace * HAPI in
  _ ← createKey_ w a "user_1" x70;
  _ ← createKey_ w a "user_2" x71;
  _ ← createKey_ w a "user_1" x72;
  r ← call (HListKeys (mkListKeysOpts (HAPI_APIID a) "user_1" 100 EmptyString));
  res ← must r "list: %v";
  _ ← require (bool_decide (length (HListKeysResult_Keys res) = 2%nat)) "got %d keys for user_1, want 2";
  for_each (HListKeysResult_Keys res) (fun k =>
    require (bool_decide (HKey_OwnerPrincipalID k = "user_1"%string)) "filter leaked: %q").

(** [for i := range n]: a key of the hash [byte(base + i)] each. *)
Definition seed_keys (w : HWorkspace) (a : HAPI) (base : Z) (n : nat) : T unit :=
  for_range n 0 (fun i =>
    hash ← Repeat (sha256.Z_byte (base + i));
    r ← createKey w a "user_1" hash;
    _ ← must r "seed key %d: %v";
    mret tt).

(** [for _, k := range res.Keys] of the pagination test: the keys seen, without a
    duplicate. *)
Fixpoint see (ks : list HKey) (seen : list string) : T (list string) :=
  match ks with
  | [] => mret seen
  | k :: ks =>
      if bool_decide (HKey_KeyID k ∈ seen) then fatal "duplicate key across pages: %s"
      else see ks (HKey_KeyID k :: seen)
  end.

(** [for page := 0; page < n; page++] *)
Fixpoint pages (n : nat) (apiID token : string) (seen : list string) : T (list string) :=
  match n with
  | O => mret seen
  | S n =>
      r ← call (HListKeys (mkListKeysOpts apiID EmptyString 2 token));
      res ← must r "page %d: %v";
      seen ← see (HListKeysResult_Keys res) seen;
      if bool_decide (HListKeysResult_NextPageToken res = EmptyString) then mret seen
      else pages n apiID (HListKeysResult_NextPageToken res) seen
  end.

Definition testKeyListPaginates : T unit :=
  wa ← seed; let '(w, a) := wa : HWorkspace * HAPI in
  _ ← seed_keys w a 128 5;
  seen ← pages 10 (HAPI_APIID a) EmptyString [];
  require (bool_decide (length seen = 5%nat)) "paginated through %d keys, want 5".

Definition testKeyListDefaultsPageSize : T unit :=
  wa ← seed; let '(w, a) := wa : HWorkspace * HAPI in
  _ ← seed_keys w a 0 55;
  r ← call (HListKeys (mkListKeysOpts (HAPI_APIID a) EmptyString 0 EmptyString));
  first ← must r "first page: %v";
  _ ← require (bool_decide (length (HListKeysResult_Keys first) = 50%nat))
        "first page returned %d keys, want default page size 50";
  _ ← require (negb (bool_decide (HListKeysResult_NextPageToken first = EmptyString)))
        "first page should include a next token";
  r ← call (HListKeys (mkListKeysOpts (HAPI_APIID a) EmptyString 0 (HListKeysResult_NextPageToken first)));
  second ← must r "second page: %v";
  _ ← require (bool_decide (length (HListKeysResult_Keys second) = 5%nat))
        "second page returned %d keys, want remaining 5";
  require (bool_decide (HListKeysResult_NextPageToken second = EmptyString))
    "second page next token = %q, want empty".

Definition testKeyListUnknownAPIIsEmpty : T unit :=
  r ← call (HListKeys (mkListKeysOpts "api_missing" EmptyString 10 EmptyString));
  res ← must r "list: %v";
  require (bool_decide (HListKeysResult_Keys res = []) &&
           bool_decide (HListKeysResult_NextPageToken res = EmptyString))
    "ListKeys for unknown api = %+v, want empty result".

(** The identifiers of [n] keys, appended in the order they are created. *)
Fixpoint seed_ids (w : HWorkspace) (a : HAPI) (i : Z) (n : nat) (ids : list string) : T (list string) :=
  match n with
  | O => mret ids
  | S n =>
      hash ← Repeat (sha256.Z_byte (192 + i));
      r ← createKey w a "user_1" hash;
      k ← must r "seed key %d: %v";
      seed_ids w a (i + 1) n (ids ++ [HKey_KeyID k])
  end.

Definition testKeyListPageTokenCanSkipToInsertionPoint : T unit :=
  wa ← seed; let '(w, a) := wa : HWorkspace * HAPI in
  ids ← seed_ids w a 0 3 [];
  let ids := sort_Strings ids in
  match ids with
  | [id0; id1; id2] =>
      r ← call (HListKeys (mkListKeysOpts (HAPI_APIID a) EmptyString 10 (id0 +:+ "~")));
      res ← must r "list: %v";
      match HListKeysResult_Keys res with
      | [k0; k1] =>
          require (bool_decide (HKey_KeyID k0 = id1) && bool_decide (HKey_KeyID k1 = id2))
            "keys after token = [%s %s], want [%s %s]"
      | _ => fatal "got %d keys after synthetic token, want 2"
      end
  | _ => panicked
  end.

Definition testKeyTouchLastVerified : T unit :=
  wa ← seed; let '(w, a) := wa : HWorkspace * HAPI in
  hash ← Repeat x90;
  r ← createKey w a "user_1" hash;
  let k := ignore zeroHKey r in
  now ← clock;
  let at_ := Truncate now Second in
  r ← call (HTouchLastVerified (HKey_KeyID k) at_);
  _ ← must r "touch: %v";
  r ← call (HGetKeyByID (HKey_KeyID k));
  let got := ignore zeroHKey r in
  v ← value (HKey_LastVerifiedAt got);
  match v with
  | None => fatal "LastVerifiedAt should be populated after touch"
  | Some v => require (bool_decide (v = at_)) "LastVerifiedAt = %v, want %v"
  end.

Definition testKeyTouchLastVerifiedUnknownReturnsNotFound : T unit :=
  now ← clock;
  r ← call (HTouchLastVerified "key_missing" now);
  require (err_is r ErrNotFound) "err = %v, want ErrNotFound".

(** [k := newKey(...); k.RemainingUses = n; s.CreateKey(ctx(t), k)] *)
Definition createCounted (w : HWorkspace) (a : HAPI) (b : byte) (n : Z) : T (res HKey) :=
  hash ← Repeat b;
  k ← newKey (HAPI_APIID a) (HWorkspace_WorkspaceID w) "user_1" hash;
  call (HCreateKey (set_RemainingUses k n)).

Definition is_nil (err : option error) : bool :=
  match err with None => true | Some _ => false end.

Definition testKeyDecrementRemainingUses : T unit :=
  wa ← seed; let '(w, a) := wa : HWorkspace * HAPI in
  r ← createCounted w a xa0 3;
  created ← must r "create: %v";
  d ← call (HDecrementRemainingUses (HKey_KeyID created));
  _ ← require (is_nil (snd d)) "decrement: %v";
  _ ← require (bool_decide (fst d = 2)) "remaining = %d, want 2";
  d ← call (HDecrementRemainingUses (HKey_KeyID created));
  _ ← require (bool_decide (fst d = 1)) "remaining = %d, want 1";
  d ← call (HDecrementRemainingUses (HKey_KeyID created));
  require (bool_decide (fst d = 0)) "remaining = %d, want 0".

Definition testKeyDecrementUnlimitedIsNoop : T unit :=
  wa ← seed; let '(w, a) := wa : HWorkspace * HAPI in
  r ← createCounted w a xb0 (-1);
  let created := ignore zeroHKey r in
  d ← call (HDecrementRemainingUses (HKey_KeyID created));
  _ ← require (is_nil (snd d)) "decrement: %v";
  require (bool_decide (fst d = -1)) "unlimited key returned remaining = %d, want -1".

Definition testKeyDecrementDepletedReturnsErrDepleted : T unit :=
  wa ← seed; let '(w, a) := wa : HWorkspace * HAPI in
  r ← createCounted w a xb1 0;
  created ← must r "create: %v";
  d ← call (HDecrementRemainingUses (HKey_KeyID created));
  _ ← require (err_is' (snd d) ErrDepleted) "err = %v, want ErrDepleted";
  _ ← require (bool_decide (fst d = 0)) "remaining = %d, want 0";
  r ← call (HGetKeyByID (HKey_KeyID created));
  after ← must r "get after depleted decrement: %v";
  require (bool_decide (HKey_RemainingUses after = 0)) "RemainingUses = %d, want 0".

Definition testKeyDecrementUnknownReturnsNotFound : T unit :=
  d ← call (HDecrementRemainingUses "key_missing");
  require (err_is' (snd d) ErrNotFound) "err = %v, want ErrNotFound".

(** ** The suite *)

(** The tests of [Run], each with a fresh store. *)
Definition Run : list (string * T unit) :=
  [("WorkspaceCreateAndGet", testWorkspaceCreateAndGet);
   ("WorkspaceGetNotFound", testWorkspaceGetNotFound);
   ("WorkspaceMetadataIsIsolated", testWorkspaceMetadataIsIsolated);
   ("ApiCreateRequiresWorkspace", testAPICreateRequiresWorkspace);
   ("ApiCreateAndGet", testAPICreateAndGet);
   ("ApiGetNotFound", testAPIGetNotFound);
   ("ApiMetadataIsIsolated", testAPIMetadataIsIsolated);
   ("KeyCreateRequiresApi", testKeyCreateRequiresAPI);
   ("KeyCreateAndLookup", testKeyCreateAndLookup);
   ("KeyCreatePreservesAllFields", testKeyCreatePreservesAllFields);
   ("KeyInputMutationDoesNotChangeStoredKey", testKeyInputMutationDoesNotChangeStoredKey);
   ("KeyLookupMutationDoesNotChangeStoredKey", testKeyLookupMutationDoesNotChangeStoredKey);
   ("KeyListMutationDoesNotChangeStoredKey", testKeyListMutationDoesNotChangeStoredKey);
   ("KeyListPreservesAllFields", testKeyListPreservesAllFields);
   ("KeyGetByHashUnknown", testKeyGetByHashUnknown);
   ("KeyGetByIDUnknown", testKeyGetByIDUnknown);
   ("KeyCreateRejectsDuplicateHash", testKeyCreateRejectsDuplicateHash);
   ("KeyRevoke", testKeyRevoke);
   ("KeyRevokeIsIdempotent", testKeyRevokeIsIdempotent);
   ("KeyRevokeUnknownReturnsNotFound", testKeyRevokeUnknownReturnsNotFound);
   ("KeyRotate", testKeyRotate);
   ("KeyRotateUnknownReturnsNotFound", testKeyRotateUnknownReturnsNotFound);
   ("KeyRotateRejectsDuplicateHash", testKeyRotateRejectsDuplicateHash);
   ("KeyListByApi", testKeyListByAPI);
   ("KeyListFilterByOwner", testKeyListFilterByOwner);
   ("KeyListPaginates", testKeyListPaginates);
   ("KeyListDefaultsPageSize", testKeyListDefaultsPageSize);
   ("KeyListUnknownApiIsEmpty", testKeyListUnknownAPIIsEmpty);
   ("KeyListPageTokenCanSkipToInsertionPoint", testKeyListPageTokenCanSkipToInsertionPoint);
   ("KeyTouchLastVerified", testKeyTouchLastVerified);
   ("KeyTouchLastVerifiedUnknownReturnsNotFound", testKeyTouchLastVerifiedUnknownReturnsNotFound);
   ("KeyDecrementRemainingUses", testKeyDecrementRemainingUses);
   ("KeyDecrementUnlimitedIsNoop", testKeyDecrementUnlimitedIsNoop);
   ("KeyDecrementDepletedReturnsErrDepleted", testKeyDecrementDepletedReturnsErrDepleted);
   ("KeyDecrementUnknownReturnsNotFound", testKeyDecrementUnknownReturnsNotFound)]%string.
End conformance.
