(* ===== verification/ConformanceProps.v ===== *)
(** * ConformanceProps: every exact driver passes the suite

    Rules that run a test function against the contract of the interface, a rule per
    method and outcome, and a proof per test. *)

From S2P Require Import Prelude Effects GoSort GoText Crypto Store StoreSpec Heap References HeapSpec Client Conformance.
Import conformance.

(** From the state [A] and the objects [hc], the function fails no check, does not
    panic and ends in [Q]. *)
Definition passes `{PR : Precision} {X} (p : T X) (A : AStore) (hc : heap) (Q : AStore -> heap -> X -> Prop) : Prop :=
  cwp p A hc (fun A' h r => exists x, r = Ok x /\ Q A' h x).

(** ** Rules of the language *)

Lemma passes_mono `{PR : Precision} {X} (p : T X) A hc (Q Q' : AStore -> heap -> X -> Prop) :
  (forall A h x, Q A h x -> Q' A h x) -> passes p A hc Q -> passes p A hc Q'.
Proof. intros HQ. apply cwp_mono. intros A' h r (x & -> & Hx). eauto. Qed.

Lemma passes_ret `{PR : Precision} {X} (x : X) A hc (Q : AStore -> heap -> X -> Prop) : Q A hc x -> passes (mret x) A hc Q.
Proof. intros HQ. by exists x. Qed.

Lemma passes_bind `{PR : Precision} {X Y} (p : T X) (f : X -> T Y) A hc Q :
  passes p A hc (fun A' h x => passes (f x) A' h Q) -> passes (p ≫= f) A hc Q.
Proof. intros Hp. apply cwp_bind. eapply cwp_mono; [|exact Hp]. by intros A' h r (x & -> & Hf). Qed.

Lemma passes_require `{PR : Precision} b format A hc (Q : AStore -> heap -> unit -> Prop) :
  b = true -> Q A hc tt -> passes (require b format) A hc Q.
Proof. intros -> HQ. by apply passes_ret. Qed.

Lemma passes_clock `{PR : Precision} A hc (Q : AStore -> heap -> Time -> Prop) : (forall now, Q A hc now) -> passes clock A hc Q.
Proof. intros HQ now. by eexists. Qed.

(** [p] is the reference of an object that [h] does not have. *)
Definition unused {A} (h : heap) (p : ptr A) : Prop := exists l, p = Some l /\ h !! l = None.

Lemma passes_alloc `{PR : Precision} `{Boxed X} (a : X) A hc (Q : AStore -> heap -> ptr X -> Prop) :
  (forall p hc', hc ⊆ hc' -> unused hc p -> deref hc' p = Some (Some a) -> Q A hc' p) -> passes (alloc a) A hc Q.
Proof.
  intros HQ l Hl. eexists. split; [done|]. apply HQ; [by apply insert_subseteq|by exists l|apply deref_insert].
Qed.

Lemma passes_value `{PR : Precision} `{Boxed X} (p : ptr X) v A hc (Q : AStore -> heap -> option X -> Prop) :
  deref hc p = Some v -> Q A hc v -> passes (value p) A hc Q.
Proof.
  intros Hp HQ. apply deref_inv in Hp. destruct p as [l|]; [|destruct v; [done|by apply passes_ret]].
  destruct v as [a|]; [|done]. destruct Hp as (o & Hl & Ho). exists o. split; [done|].
  cbn. rewrite Ho. by apply passes_ret.
Qed.

(** A write leaves the other objects alone. *)
Definition frame {A} (hc hc' : heap) (p : ptr A) : Prop :=
  dom hc' = dom hc /\ forall l, Some l <> p -> hc' !! l = hc !! l.

Lemma passes_modify `{PR : Precision} `{Boxed X} (p : ptr X) f a a' A hc (Q : AStore -> heap -> unit -> Prop) :
  deref hc p = Some (Some a) -> f a = Some a' ->
  (forall hc', frame hc hc' p -> deref hc' p = Some (Some a') -> Q A hc' tt) -> passes (modify p f) A hc Q.
Proof.
  intros (l & -> & Hl)%deref_Some Hf HQ. exists (box a). split; [done|]. cbn. rewrite unbox_box. cbn. rewrite Hf.
  split; [by eexists|]. exists tt. split; [done|]. apply HQ; [|apply deref_insert]. split.
  - rewrite dom_insert_L. apply elem_of_dom_2 in Hl. set_solver.
  - intros l' Hne. apply lookup_insert_ne. congruence.
Qed.

Lemma frame_deref `{Boxed X} {Y} hc hc' (p : ptr Y) (q : ptr X) v :
  frame hc hc' p -> deref hc q = Some v -> q <> p -> deref hc' q = Some v.
Proof. intros [_ Hf] Hq Hne. destruct q as [l|]; [|done]. unfold deref in *. by rewrite Hf. Qed.

Lemma frame_subset {X} hc hc' h (p : ptr X) : frame hc hc' p -> h ⊆ hc -> unused h p -> h ⊆ hc'.
Proof.
  intros [_ Hf] Hs (l & -> & Hl). apply map_subseteq_spec. intros l' o Ho.
  rewrite Hf; [by eapply lookup_weaken|]. congruence.
Qed.

Lemma unused_ne `{Boxed X} {Y} h (p : ptr Y) (q : ptr X) v : unused h p -> deref h q = Some v -> q <> p.
Proof. intros (l & -> & Hl) Hq ->. unfold deref in Hq. by rewrite Hl in Hq. Qed.

Lemma unused_subset {X} h h' (p : ptr X) : unused h' p -> h ⊆ h' -> unused h p.
Proof. intros (l & -> & Hl) Hs. exists l. split; [done|]. by eapply lookup_weaken_None. Qed.

(** ** What the suite needs of a driver's precision and order

    Whole seconds are kept, and identifiers are listed in the order of [sort.Strings],
    also around the ["~"] that a test appends to one. *)
Class Precise {PR : Precision} : Prop := {
  pr_seconds : forall t, kept_time (Truncate t Second) = Truncate t Second;
  pr_order : PartialOrder id_le;
  pr_ids : forall a b, assigned_id "key" a -> assigned_id "key" b -> id_le a b <-> str_le a b;
  pr_after : forall a, assigned_id "key" a -> id_le a (a +:+ "~");
  pr_before : forall a b, assigned_id "key" a -> assigned_id "key" b -> str_lt a b -> lt id_le (a +:+ "~") b;
}.
#[export] Existing Instance pr_order.

Lemma kept_nonzero `{PP : Precise} t : kept_time t <> zeroTime -> t <> zeroTime.
Proof. intros Ht ->. by apply Ht, (pr_seconds zeroTime). Qed.

(** ** Rules of the methods *)

Lemma passes_call `{PR : Precision} {X} (e : HStoreE X) A hc (Q : AStore -> heap -> X -> Prop) :
  h_call_ok hc e ->
  (forall hr x A', hr ##ₘ hc -> assigned A A' ->
    with_value hc e (fun _ e' rel => exists y, store_spec kept_time id_le any_time True e' A y A' /\
      read_times kept_time e' y /\ rel (answer_heap e hc hr) x y) ->
    Q A' (hr ∪ hc) x) ->
  passes (call e) A hc Q.
Proof.
  intros He HQ. split; [done|]. intros hr x A' Hd [Ha Hc]. eexists. split; [done|]. apply HQ; [done..|].
  eapply with_value_mono; [|exact Hc]. intros Y e' rel (y & [Hs|([] & _)] & Ht & Hx). by exists y.
Qed.

(** The answer has a value of the form [Ok]. *)
Lemma loads_Ok {X Y} (load : heap -> X -> option Y) hr x v :
  res_of load hr x (Ok v) -> exists k, x = Ok k /\ load hr k = Some v.
Proof. destruct x; [by eexists|done]. Qed.

Lemma loads_Err {X Y} (load : heap -> X -> option Y) hr x (r : res Y) e :
  res_of load hr x r -> r = Err e -> x = Err e.
Proof. intros Hx ->. by destruct x; [|cbn in Hx; subst]. Qed.

Lemma err_is_loaded {X Y} (load : heap -> X -> option Y) hr x (r : res Y) e target :
  res_of load hr x r -> r = Err e -> errors_is e target = true -> err_is x target = true.
Proof. intros Hx Hr He. by rewrite (loads_Err _ _ _ _ _ Hx Hr). Qed.

(** Opens a call: its contract, in the shape of [store_spec] of the call on values. *)
Ltac open_call :=
  apply passes_call; [try done|
  let Ha := fresh "Ha" in let Hd := fresh "Hd" in let Hv := fresh "Hv" in
  intros hr x A' Hd Ha Hv; cbn [with_value answer_heap] in Hv;
  repeat match type of Hv with
  | exists v, _ = Some v /\ _ => let Hl := fresh "Hl" in destruct Hv as (? & Hl & Hv); simplify_eq
  end;
  let y := fresh "y" in let Hs := fresh "Hs" in let Ht := fresh "Ht" in let Hx := fresh "Hx" in
  destruct Hv as (y & Hs & Ht & Hx); cbn in Hs; cbn [read_times] in Ht].

Section Methods.
Context `{PP : Precise} (A : AStore) (hc : heap).

Lemma call_CreateWorkspace w v (Q : AStore -> heap -> res HWorkspace -> Prop) :
  load_workspace hc w = Some v -> utf8_map (Workspace_Metadata v) ->
  (forall hr w' id' now, hr ##ₘ hc -> assigned_id "ws" id' -> now <> zeroTime ->
    load_workspace (hr ∪ hc) w' = Some (Workspace_created v id' now) ->
    Q (mkAStore (<[id' := norm_workspace kept_time (Workspace_created v id' now)]> (a_workspaces A)) (a_apis A) (a_keys A))
      (hr ∪ hc) (Ok w')) ->
  passes (call (HCreateWorkspace w)) A hc Q.
Proof.
  intros Hw Hu HQ. open_call; [by exists v|].
  destruct Hs as (id' & now & w' & -> & _ & Hn & -> & ->). apply loads_Ok in Hx as (k & -> & Hk).
  destruct (as_ws _ _ Ha id' _ Hn (lookup_insert_eq _ _ _)) as (Hid & Hc & _). by apply HQ; [..|apply kept_nonzero|].
Qed.

Lemma call_GetWorkspace id' v (Q : AStore -> heap -> res HWorkspace -> Prop) :
  a_workspaces A !! id' = Some v ->
  (forall hr w v', hr ##ₘ hc -> load_workspace hr w = Some v' -> norm_workspace kept_time v' = v -> Q A (hr ∪ hc) (Ok w)) ->
  passes (call (HGetWorkspace id')) A hc Q.
Proof.
  intros Hid HQ. open_call. destruct Hs as [-> Hs]. rewrite Hid in Hs. destruct Hs as (v' & -> & Hv').
  apply loads_Ok in Hx as (k & -> & Hk). by eapply HQ.
Qed.

Lemma call_GetWorkspace_missing id' (Q : AStore -> heap -> res HWorkspace -> Prop) :
  a_workspaces A !! id' = None ->
  (forall hr x, hr ##ₘ hc -> err_is x ErrNotFound = true -> Q A (hr ∪ hc) x) ->
  passes (call (HGetWorkspace id')) A hc Q.
Proof.
  intros Hid HQ. open_call. destruct Hs as [-> Hs]. rewrite Hid in Hs. destruct Hs as (e & Hy & He).
  apply HQ; [done|]. by eapply err_is_loaded.
Qed.

Lemma call_CreateAPI a v (Q : AStore -> heap -> res HAPI -> Prop) :
  load_api hc a = Some v -> utf8_map (API_Metadata v) -> is_Some (a_workspaces A !! API_WorkspaceID v) ->
  (forall hr a' id' now, hr ##ₘ hc -> assigned_id "api" id' -> now <> zeroTime -> a_apis A !! id' = None ->
    load_api (hr ∪ hc) a' = Some (API_created v id' now) ->
    Q (mkAStore (a_workspaces A) (<[id' := norm_api kept_time (API_created v id' now)]> (a_apis A)) (a_keys A))
      (hr ∪ hc) (Ok a')) ->
  passes (call (HCreateAPI a)) A hc Q.
Proof.
  intros Hl Hu [w Hw] HQ. open_call; [by exists v|]. unfold spec_CreateAPI in Hs. rewrite Hw in Hs.
  destruct Hs as (id' & now & a' & -> & _ & Hn & -> & ->). apply loads_Ok in Hx as (k & -> & Hk).
  destruct (as_api _ _ Ha id' _ Hn (lookup_insert_eq _ _ _)) as (Hid & Hc). by apply HQ; [..|apply kept_nonzero| |].
Qed.

Lemma call_CreateAPI_missing a v (Q : AStore -> heap -> res HAPI -> Prop) :
  load_api hc a = Some v -> utf8_map (API_Metadata v) -> a_workspaces A !! API_WorkspaceID v = None ->
  (forall hr x, hr ##ₘ hc -> err_is x ErrNotFound = true -> Q A (hr ∪ hc) x) ->
  passes (call (HCreateAPI a)) A hc Q.
Proof.
  intros Hl Hu Hw HQ. open_call; [by exists v|]. unfold spec_CreateAPI in Hs. rewrite Hw in Hs.
  destruct Hs as (-> & e & Hy & He). apply HQ; [done|]. by eapply err_is_loaded.
Qed.

Lemma call_GetAPI id' v (Q : AStore -> heap -> res HAPI -> Prop) :
  a_apis A !! id' = Some v ->
  (forall hr a v', hr ##ₘ hc -> load_api hr a = Some v' -> norm_api kept_time v' = v -> Q A (hr ∪ hc) (Ok a)) ->
  passes (call (HGetAPI id')) A hc Q.
Proof.
  intros Hid HQ. open_call. destruct Hs as [-> Hs]. rewrite Hid in Hs. destruct Hs as (v' & -> & Hv').
  apply loads_Ok in Hx as (k & -> & Hk). by eapply HQ.
Qed.

Lemma call_GetAPI_missing id' (Q : AStore -> heap -> res HAPI -> Prop) :
  a_apis A !! id' = None ->
  (forall hr x, hr ##ₘ hc -> err_is x ErrNotFound = true -> Q A (hr ∪ hc) x) ->
  passes (call (HGetAPI id')) A hc Q.
Proof.
  intros Hid HQ. open_call. destruct Hs as [-> Hs]. rewrite Hid in Hs. destruct Hs as (e & Hy & He).
  apply HQ; [done|]. by eapply err_is_loaded.
Qed.

Lemma call_CreateKey k v (Q : AStore -> heap -> res HKey -> Prop) :
  load_key hc k = Some v -> event_ok (CreateKeyE v) -> is_Some (Key_KeyHash v) ->
  is_Some (a_apis A !! Key_APIID v) -> is_Some (a_workspaces A !! Key_WorkspaceID v) -> hash_free (Key_KeyHash v) A ->
  (forall hr k' v' id' now, hr ##ₘ hc -> assigned_id "key" id' -> a_keys A !! id' = None ->
    load_key (hr ∪ hc) k' = Some v' -> norm_key kept_time v' = norm_key kept_time (Key_created v id' now) ->
    Q (a_put_key id' (norm_key kept_time v') A) (hr ∪ hc) (Ok k')) ->
  passes (call (HCreateKey k)) A hc Q.
Proof.
  intros Hl He Hnil [a Hapi] [w Hw] Hf HQ. open_call; [by exists v|].
  destruct Hs as [(_ & _ & Hwhy)|[(_ & _ & Hc)|(id' & now & k' & -> & _ & _ & _ & Hn & Heq & ->)]].
  - destruct Hwhy; congruence.
  - done.
  - apply loads_Ok in Hx as (hk & -> & Hk).
    pose proof (as_key _ _ Ha id' _ Hn (lookup_insert_eq _ _ _)) as Hid. by eapply HQ.
Qed.

Lemma call_CreateKey_missing k v (Q : AStore -> heap -> res HKey -> Prop) :
  load_key hc k = Some v -> event_ok (CreateKeyE v) -> is_Some (Key_KeyHash v) -> a_apis A !! Key_APIID v = None ->
  hash_free (Key_KeyHash v) A ->
  (forall hr x, hr ##ₘ hc -> err_is x ErrNotFound = true -> Q A (hr ∪ hc) x) ->
  passes (call (HCreateKey k)) A hc Q.
Proof.
  intros Hl He Hnil Hapi Hf HQ. open_call; [by exists v|].
  destruct Hs as [(-> & (e & Hy & Herr) & _)|[(_ & _ & Hc)|(id' & now & k' & _ & _ & [? ?] & _)]]; [|done|congruence].
  apply HQ; [done|]. by eapply err_is_loaded.
Qed.

Lemma call_CreateKey_conflict k v (Q : AStore -> heap -> res HKey -> Prop) :
  load_key hc k = Some v -> event_ok (CreateKeyE v) -> is_Some (Key_KeyHash v) ->
  is_Some (a_apis A !! Key_APIID v) -> is_Some (a_workspaces A !! Key_WorkspaceID v) -> ~ hash_free (Key_KeyHash v) A ->
  (forall hr x, hr ##ₘ hc -> err_is x ErrConflict = true -> Q A (hr ∪ hc) x) ->
  passes (call (HCreateKey k)) A hc Q.
Proof.
  intros Hl He Hnil [a Hapi] [w Hw] Hf HQ. open_call; [by exists v|].
  destruct Hs as [(_ & _ & Hwhy)|[(-> & (e & Hy & Herr) & _)|(id' & now & k' & _ & _ & _ & ? & _)]]; [destruct Hwhy; congruence| |done].
  apply HQ; [done|]. by eapply err_is_loaded.
Qed.

Lemma call_GetKeyByID id' v (Q : AStore -> heap -> res HKey -> Prop) :
  a_keys A !! id' = Some v ->
  (forall hr k v', hr ##ₘ hc -> load_key hr k = Some v' -> norm_key id v' = v -> Q A (hr ∪ hc) (Ok k)) ->
  passes (call (HGetKeyByID id')) A hc Q.
Proof.
  intros Hid HQ. open_call. destruct Hs as [-> Hs]. rewrite Hid in Hs. destruct Hs as (v' & -> & Hv').
  rewrite (key_times_norm _ _ Ht) in Hv'. apply loads_Ok in Hx as (k & -> & Hk). by eapply HQ.
Qed.

Lemma call_GetKeyByID_missing id' (Q : AStore -> heap -> res HKey -> Prop) :
  a_keys A !! id' = None ->
  (forall hr x, hr ##ₘ hc -> err_is x ErrNotFound = true -> Q A (hr ∪ hc) x) ->
  passes (call (HGetKeyByID id')) A hc Q.
Proof.
  intros Hid HQ. open_call. destruct Hs as [-> Hs]. rewrite Hid in Hs. destruct Hs as (e & Hy & He).
  apply HQ; [done|]. by eapply err_is_loaded.
Qed.

(** A key with the hash is found: one of the store's. *)
Lemma call_GetKeyByHash p l (Q : AStore -> heap -> res HKey -> Prop) :
  deref hc p = Some (Some l) -> ~ hash_free (Some l) A ->
  (forall hr k v id', hr ##ₘ hc -> load_key hr k = Some v -> a_keys A !! id' = Some (norm_key id v) ->
    same_hash (Some l) (norm_key id v) -> Q A (hr ∪ hc) (Ok k)) ->
  passes (call (HGetKeyByHash p)) A hc Q.
Proof.
  intros Hp Hf HQ. open_call; [exists (Some l); split_and!; [done|by eexists|done]|]. destruct Hs as [-> [[_ ?]|(id' & k & v & -> & Hk & Hh & Hn)]]; [done|].
  rewrite (key_times_norm _ _ Ht) in Hn. apply loads_Ok in Hx as (hk & -> & Hhk). subst k. by eapply HQ.
Qed.

Lemma call_GetKeyByHash_missing p l (Q : AStore -> heap -> res HKey -> Prop) :
  deref hc p = Some (Some l) -> hash_free (Some l) A ->
  (forall hr x, hr ##ₘ hc -> err_is x ErrNotFound = true -> Q A (hr ∪ hc) x) ->
  passes (call (HGetKeyByHash p)) A hc Q.
Proof.
  intros Hp Hf HQ. open_call; [exists (Some l); split_and!; [done|by eexists|done]|]. destruct Hs as [-> [[(e & Hy & He) _]|(id' & k & v & _ & Hk & Hh & _)]].
  - apply HQ; [done|]. by eapply err_is_loaded.
  - by destruct (Hf id' k Hk).
Qed.

Lemma call_RevokeKey id' v (Q : AStore -> heap -> res unit -> Prop) :
  a_keys A !! id' = Some v ->
  (forall hr t, hr ##ₘ hc -> Q (a_put_key id' (Key_set_Enabled false t v) A) (hr ∪ hc) (Ok tt)) ->
  passes (call (HRevokeKey id')) A hc Q.
Proof.
  intros Hid HQ. open_call. destruct (spec_RevokeKey_put _ _ _ _ _ _ _ _ Hs Hid) as (-> & t & ->). subst x. by apply HQ.
Qed.

Lemma call_RevokeKey_missing id' (Q : AStore -> heap -> res unit -> Prop) :
  a_keys A !! id' = None ->
  (forall hr x, hr ##ₘ hc -> err_is x ErrNotFound = true -> Q A (hr ∪ hc) x) ->
  passes (call (HRevokeKey id')) A hc Q.
Proof.
  intros Hid HQ. open_call. unfold spec_RevokeKey in Hs. rewrite Hid in Hs. destruct Hs as (-> & e & -> & He).
  subst x. by apply HQ.
Qed.

(** No other key has the hash. *)
Definition hash_unclaimed (id' : string) (l : list byte) : Prop :=
  forall id2 k2, id2 <> id' -> a_keys A !! id2 = Some k2 -> ~ same_hash (Some l) k2.

Lemma call_RotateKey id' v p l (Q : AStore -> heap -> res HKey -> Prop) :
  a_keys A !! id' = Some v -> deref hc p = Some (Some l) -> hash_unclaimed id' l ->
  (forall hr k v' t, hr ##ₘ hc -> load_key hr k = Some v' ->
    norm_key id v' = Key_set_KeyHash (append_nil (Some l)) t v ->
    Q (a_put_key id' (norm_key id v') A) (hr ∪ hc) (Ok k)) ->
  passes (call (HRotateKey id' p)) A hc Q.
Proof.
  intros Hid Hp Hf HQ. open_call; [exists (Some l); split_and!; [done..|by eexists]|]. unfold spec_RotateKey in Hs. rewrite Hid in Hs.
  destruct Hs as [(_ & _ & id2 & k2 & Hne & Hk2 & Hh)|(_ & t & v' & -> & _ & Hn & ->)]; [by destruct (Hf id2 k2 Hne Hk2)|].
  rewrite (key_times_norm _ _ Ht) in *. apply loads_Ok in Hx as (hk & -> & Hhk). by eapply HQ.
Qed.

Lemma call_RotateKey_conflict id' v p l (Q : AStore -> heap -> res HKey -> Prop) :
  a_keys A !! id' = Some v -> deref hc p = Some (Some l) -> ~ hash_unclaimed id' l ->
  (forall hr x, hr ##ₘ hc -> err_is x ErrConflict = true -> Q A (hr ∪ hc) x) ->
  passes (call (HRotateKey id' p)) A hc Q.
Proof.
  intros Hid Hp Hf HQ. open_call; [exists (Some l); split_and!; [done..|by eexists]|]. unfold spec_RotateKey in Hs. rewrite Hid in Hs.
  destruct Hs as [(-> & (e & Hy & He) & _)|(Hun & _)]; [|by destruct Hf].
  apply HQ; [done|]. by eapply err_is_loaded.
Qed.

Lemma call_RotateKey_missing id' p l (Q : AStore -> heap -> res HKey -> Prop) :
  a_keys A !! id' = None -> deref hc p = Some (Some l) ->
  (forall hr x, hr ##ₘ hc -> err_is x ErrNotFound = true -> Q A (hr ∪ hc) x) ->
  passes (call (HRotateKey id' p)) A hc Q.
Proof.
  intros Hid Hp HQ. open_call; [exists (Some l); split_and!; [done..|by eexists]|]. unfold spec_RotateKey in Hs. rewrite Hid in Hs.
  destruct Hs as (-> & e & Hy & He). apply HQ; [done|]. by eapply err_is_loaded.
Qed.

(** The page of the matching keys after the token. *)
Lemma call_ListKeys opts (Q : AStore -> heap -> res HListKeysResult -> Prop) :
  int32_range (ListKeysOpts_PageSize opts) ->
  (forall hr r ids vs, hr ##ₘ hc -> after_token id_le opts A ids ->
    let n := effective_page_size (ListKeysOpts_PageSize opts) in
    mapM (load_key hr) (HListKeysResult_Keys r) = Some vs -> HListKeysResult_NextPageToken r = next_token n ids ->
    (Some ∘ norm_key id) <$> vs = (fun id' => a_keys A !! id') <$> take n ids -> Q A (hr ∪ hc) (Ok r)) ->
  passes (call (HListKeys opts)) A hc Q.
Proof.
  intros Hr HQ. open_call. destruct Hs as (-> & ids & page & Hids & -> & Hp).
  apply loads_Ok in Hx as ([ks next] & -> & Hl). unfold load_list in Hl. cbn in Hl.
  destruct (mapM (load_key hr) ks) as [vs|] eqn:Hm; [|done]. injection Hl as -> ->.
  eapply HQ; [done|exact Hids|exact Hm|done|]. rewrite <- Hp. apply list_fmap_ext. intros i v Hi. cbn.
  f_equal. symmetry. apply key_times_norm. by eapply Forall_lookup_1.
Qed.

Lemma call_TouchLastVerified id' v at_ (Q : AStore -> heap -> res unit -> Prop) :
  a_keys A !! id' = Some v ->
  (forall hr, hr ##ₘ hc -> Q (a_put_key id' (Key_set_LastVerifiedAt (kept_time at_) v) A) (hr ∪ hc) (Ok tt)) ->
  passes (call (HTouchLastVerified id' at_)) A hc Q.
Proof.
  intros Hid HQ. open_call. unfold spec_TouchLastVerified in Hs. rewrite Hid in Hs. destruct Hs as (-> & ->). subst x. by apply HQ.
Qed.

Lemma call_TouchLastVerified_missing id' at_ (Q : AStore -> heap -> res unit -> Prop) :
  a_keys A !! id' = None ->
  (forall hr x, hr ##ₘ hc -> err_is x ErrNotFound = true -> Q A (hr ∪ hc) x) ->
  passes (call (HTouchLastVerified id' at_)) A hc Q.
Proof.
  intros Hid HQ. open_call. unfold spec_TouchLastVerified in Hs. rewrite Hid in Hs. destruct Hs as (-> & e & -> & He).
  subst x. by apply HQ.
Qed.

Lemma call_Decrement id' v (Q : AStore -> heap -> Z * option error -> Prop) :
  a_keys A !! id' = Some v ->
  (forall hr t, hr ##ₘ hc ->
    if decide (Key_RemainingUses v < 0) then Q A (hr ∪ hc) (-1, None)
    else if decide (Key_RemainingUses v = 0) then Q A (hr ∪ hc) (0, Some ErrDepleted)
    else Q (a_put_key id' (Key_set_RemainingUses (Key_RemainingUses v - 1) t v) A) (hr ∪ hc)
           (Key_RemainingUses v - 1, None)) ->
  passes (call (HDecrementRemainingUses id')) A hc Q.
Proof.
  intros Hid HQ. open_call. unfold spec_DecrementRemainingUses in Hs. rewrite Hid in Hs. subst x.
  destruct (decide (Key_RemainingUses v < 0)); [destruct Hs as (-> & ->); by apply (HQ hr 0)|].
  destruct (decide (Key_RemainingUses v = 0)); [destruct Hs as (-> & ->); by apply (HQ hr 0)|].
  destruct Hs as (-> & t & _ & ->). by apply HQ.
Qed.

Lemma call_Decrement_missing id' (Q : AStore -> heap -> Z * option error -> Prop) :
  a_keys A !! id' = None ->
  (forall hr x, hr ##ₘ hc -> err_is' x.2 ErrNotFound = true -> Q A (hr ∪ hc) x) ->
  passes (call (HDecrementRemainingUses id')) A hc Q.
Proof.
  intros Hid HQ. open_call. unfold spec_DecrementRemainingUses in Hs. rewrite Hid in Hs.
  destruct Hs as (-> & e & Hy & He). subst x. apply HQ; [done|]. by rewrite Hy.
Qed.
End Methods.

(** ** Walking a test *)

(** Facts about the heap [h] hold in an extension of it. *)
Ltac grow Hs :=
  repeat match goal with
  | Hl : deref ?h _ = Some _ |- _ =>
      match type of Hs with h ⊆ _ => apply (fun Hl => deref_weaken _ _ _ _ Hl Hs) in Hl end
  | Hl : load_key ?h _ = Some _ |- _ =>
      match type of Hs with h ⊆ _ => apply (fun Hl => load_key_weaken _ _ _ _ Hl Hs) in Hl end
  | Hl : load_workspace ?h _ = Some _ |- _ =>
      match type of Hs with h ⊆ _ => apply (fun Hl => load_workspace_weaken _ _ _ _ Hl Hs) in Hl end
  | Hl : load_api ?h _ = Some _ |- _ =>
      match type of Hs with h ⊆ _ => apply (fun Hl => load_api_weaken _ _ _ _ Hl Hs) in Hl end
  end.

(** The answer's objects join the caller's. *)
Ltac absorb Hd :=
  lazymatch type of Hd with
  | ?hr ##ₘ ?hc =>
      let S1 := fresh in let S2 := fresh in let h := fresh "hc" in let E := fresh in
      assert (S1 : hc ⊆ hr ∪ hc) by (by apply map_union_subseteq_r);
      assert (S2 : hr ⊆ hr ∪ hc) by apply map_union_subseteq_l;
      grow S1; grow S2; clear S1 S2; remember (hr ∪ hc) as h eqn:E; clear E Hd; try clear hr
  end.

(** A field of a key whose value is known. *)
Ltac field_of :=
  first [ eassumption | reflexivity
        | match goal with Hl : load_key ?h ?k = Some ?v |- deref ?h _ = _ =>
            let Hp := fresh in pose proof (proj1 (load_key_spec h k v) Hl) as Hp;
            first [apply (kp_hash _ _ _ Hp) | apply (kp_permissions _ _ _ Hp) | apply (kp_refs _ _ _ Hp)
                  | apply (kp_expires _ _ _ Hp) | apply (kp_verified _ _ _ Hp) | apply (kp_metadata _ _ _ Hp)]
          end
        | match goal with Hl : load_workspace ?h ?w = Some ?v |- deref ?h _ = _ =>
            apply (proj1 (proj1 (load_workspace_spec h w v) Hl)) end
        | match goal with Hl : load_api ?h ?a = Some ?v |- deref ?h _ = _ =>
            apply (proj1 (proj1 (load_api_spec h a v) Hl)) end ].

(** The value of a key whose fields are known. *)
Ltac solve_load := apply load_key_spec; split; cbn; first [field_of | done].

Ltac t_step :=
  lazymatch goal with
  | |- passes (mbind _ _) _ _ _ => apply passes_bind; t_step
  | |- passes (mret _) _ _ _ => apply passes_ret; cbn beta
  | |- passes (alloc _) _ _ _ =>
      apply passes_alloc; let p := fresh "p" in let h := fresh "hc" in let Hs := fresh "Hs" in
      let Hu := fresh "Hu" in let Hp := fresh "Hp" in intros p h Hs Hu Hp; grow Hs; cbn beta
  | |- passes (Repeat _) _ _ _ => unfold Repeat; t_step
  | |- passes (value _) _ _ _ => eapply passes_value; [field_of|cbn beta]
  | |- passes (require _ _) _ _ _ => apply passes_require
  | |- passes clock _ _ _ => apply passes_clock; let now := fresh "now" in intros now; cbn beta
  | |- passes (must (Ok _) _) _ _ _ => cbn [must]; t_step
  | |- passes (let _ := _ in _) _ _ _ => cbv zeta; t_step
  end.

(** ** States of the tests *)

Record seeded (A : AStore) (w : HWorkspace) (a : HAPI) : Prop := {
  sd_ws : is_Some (a_workspaces A !! HWorkspace_WorkspaceID w);
  sd_api : is_Some (a_apis A !! HAPI_APIID a);
}.

Lemma seeded_put A w a id' k : seeded A w a -> seeded (a_put_key id' k A) w a.
Proof. by intros []. Qed.

(** The key the tests create, and what the store keeps of it. *)
Definition the_key (apiID workspaceID owner : string) (l : list byte) : Key :=
  mkKey EmptyString apiID workspaceID owner "test-key" (Some l) (Some ["chat:write"%string]) None None (-1) true
    zeroTime zeroTime None None.

Definition stored `{PR : Precision} (v : Key) (id' : string) (now : Time) : Key := norm_key kept_time (Key_created v id' now).

Lemma passes_seedWorkspace `{PP : Precise} A hc (Q : AStore -> heap -> HWorkspace -> Prop) :
  (forall w ws hc', hc ⊆ hc' -> assigned_id "ws" (HWorkspace_WorkspaceID w) ->
    Q (mkAStore (<[HWorkspace_WorkspaceID w := ws]> (a_workspaces A)) (a_apis A) (a_keys A)) hc' w) ->
  passes seedWorkspace A hc Q.
Proof.
  intros HQ. unfold seedWorkspace. apply passes_bind.
  eapply (call_CreateWorkspace _ _ _ (mkWorkspace EmptyString "acme" "user_owner" zeroTime zeroTime None)); [done..|].
  intros hr w id' now Hd Hid _ Hw. t_step. apply load_workspace_spec in Hw as [_ Hw].
  injection Hw as Hw _ _. subst id'. apply HQ; [by apply map_union_subseteq_r|done].
Qed.

Lemma passes_seedAPI `{PP : Precise} A hc wid (Q : AStore -> heap -> HAPI -> Prop) :
  is_Some (a_workspaces A !! wid) ->
  (forall a v hc', hc ⊆ hc' -> assigned_id "api" (HAPI_APIID a) -> a_apis A !! HAPI_APIID a = None ->
    Q (mkAStore (a_workspaces A) (<[HAPI_APIID a := v]> (a_apis A)) (a_keys A)) hc' a) ->
  passes (seedAPI wid) A hc Q.
Proof.
  intros Hw HQ. unfold seedAPI. apply passes_bind.
  eapply (call_CreateAPI _ _ _ (mkAPI EmptyString wid "prod" "ck_test_" zeroTime zeroTime None)); [done..|].
  intros hr a id' now Hd Hid _ Hn Hv. t_step. apply load_api_spec in Hv as [_ Hv].
  injection Hv as Hv _ _. subst id'. apply HQ; [by apply map_union_subseteq_r|done..].
Qed.

Lemma passes_seed `{PP : Precise} (Q : AStore -> heap -> HWorkspace * HAPI -> Prop) :
  (forall A w a hc, seeded A w a -> a_keys A = ∅ -> Q A hc (w, a)) -> passes seed a_empty ∅ Q.
Proof.
  intros HQ. unfold seed. apply passes_bind, passes_seedWorkspace. intros w ws hc _ _.
  apply passes_bind, passes_seedAPI; [eexists; apply lookup_insert_eq|]. intros a v hc' _ _ _.
  apply passes_ret, HQ; [|done]. split; eexists; apply lookup_insert_eq.
Qed.

(** The identifier and the fields of a key that was just created. *)
Lemma passes_create `{PR : Precision} k v A w a hc (Q : AStore -> heap -> res HKey -> Prop) :
  seeded A w a -> load_key hc k = Some v -> event_ok (CreateKeyE v) -> is_Some (Key_KeyHash v) ->
  Key_APIID v = HAPI_APIID a -> Key_WorkspaceID v = HWorkspace_WorkspaceID w -> hash_free (Key_KeyHash v) A ->
  (forall hr k' v' now, hr ##ₘ hc -> assigned_id "key" (HKey_KeyID k') -> a_keys A !! HKey_KeyID k' = None ->
    load_key (hr ∪ hc) k' = Some v' -> norm_key kept_time v' = stored v (HKey_KeyID k') now ->
    Q (a_put_key (HKey_KeyID k') (stored v (HKey_KeyID k') now) A) (hr ∪ hc) (Ok k')) ->
  passes (call (HCreateKey k)) A hc Q.
Proof.
  intros [Hw Ha] Hl He Hnil Hapi Hws Hf HQ. eapply call_CreateKey; [done..|by rewrite Hapi|by rewrite Hws|done|].
  intros hr k' v' id' now Hd Hid Hn Hk' Heq. assert (Hi : HKey_KeyID k' = id').
  { apply load_key_spec in Hk'. rewrite (kp_id _ _ _ Hk'). by apply (f_equal Key_KeyID) in Heq. }
  rewrite Heq. subst id'. by eapply HQ.
Qed.

(** The arguments of the tests are within the types of the code. *)
Ltac event_types :=
  split_and!; cbn;
  [ unfold int64_range, minInt64, maxInt64; lia
  | first [done | by_eval]
  | unfold utf8_refs; cbn; first [by constructor | by_eval] ].

Lemma passes_createKey `{PR : Precision} A w a owner p l hc (Q : AStore -> heap -> res HKey -> Prop) :
  seeded A w a -> deref hc p = Some (Some l) -> hash_free (Some l) A ->
  (forall hc' k v now, hc ⊆ hc' -> assigned_id "key" (HKey_KeyID k) -> a_keys A !! HKey_KeyID k = None ->
    let K := stored (the_key (HAPI_APIID a) (HWorkspace_WorkspaceID w) owner l) (HKey_KeyID k) now in
    load_key hc' k = Some v -> norm_key kept_time v = K -> Q (a_put_key (HKey_KeyID k) K A) hc' (Ok k)) ->
  passes (createKey w a owner p) A hc Q.
Proof.
  intros Hs Hp Hf HQ. unfold createKey, newKey. apply passes_bind. t_step. t_step.
  eapply (passes_create _ (the_key (HAPI_APIID a) (HWorkspace_WorkspaceID w) owner l)); [done|solve_load| |done..|].
  { event_types. }
  intros hr k v now Hd Hid Hn Hk Heq. eapply HQ; [|done..|exact Hk|exact Heq].
  etrans; [exact Hs0|]. by apply map_union_subseteq_r.
Qed.

(** ** Hashes in use *)

Lemma hash_free_empty h A : a_keys A = ∅ -> hash_free h A.
Proof. intros He id' k. by rewrite He, lookup_empty. Qed.

Lemma hash_free_put h A id' k : hash_free h A -> ~ same_hash h k -> hash_free h (a_put_key id' k A).
Proof.
  intros Hf Hk id2 k2. cbn. rewrite lookup_insert. case_decide; [by intros [= <-]|apply Hf].
Qed.

Lemma hash_taken h A id' k : a_keys A !! id' = Some k -> same_hash h k -> ~ hash_free h A.
Proof. intros Hk Hh Hf. by apply (Hf id' k). Qed.

Lemma same_hash_stored `{PR : Precision} l v id' now : same_hash (Some l) (stored v id' now) <-> elems (Key_KeyHash v) = l.
Proof.
  unfold same_hash. change (Key_KeyHash (stored v id' now)) with (append_nil (Key_KeyHash v)).
  by rewrite elems_append_nil.
Qed.

(** Two constants. *)
Ltac other_hash := rewrite ?same_hash_stored; cbn [Key_KeyHash the_key elems default]; discriminate.

(** ** The tests of workspaces and APIs *)

Abbreviation passed t := (passes t a_empty ∅ (fun _ _ _ => True)).

Lemma assigned_nonempty kind id' : assigned_id kind id' -> id' <> EmptyString.
Proof. intros (u & _ & ->). destruct kind; done. Qed.

Lemma bool_decide_ne {A} `{EqDecision A} (x y : A) : x <> y -> negb (bool_decide (x = y)) = true.
Proof. intros Hne. by rewrite bool_decide_eq_false_2. Qed.

Lemma WorkspaceCreateAndGet_passes `{PP : Precise} : passed testWorkspaceCreateAndGet.
Proof.
  unfold testWorkspaceCreateAndGet. apply passes_bind.
  eapply (call_CreateWorkspace _ _ _ (mkWorkspace EmptyString "acme" "user_owner" zeroTime zeroTime None)); [done..|].
  intros hr w id' now Hd Hid Hnow Hw. absorb Hd. t_step.
  apply load_workspace_spec in Hw as [_ Hw]. injection Hw as Hi Hn Ho Hc Hu.
  apply passes_bind, passes_require; [rewrite <- Hi; by eapply bool_decide_ne, assigned_nonempty|].
  apply passes_bind, passes_require.
  { unfold IsZero. rewrite <- Hc, <- Hu. by rewrite !bool_decide_eq_false_2. }
  apply passes_bind. eapply call_GetWorkspace; [cbn; rewrite Hi; apply lookup_insert_eq|].
  intros hr' w' v' Hd Hw' Hv. absorb Hd. t_step. apply load_workspace_spec in Hw' as [_ Hw'].
  destruct v'. injection Hw' as -> -> -> _ _. injection Hv as -> -> -> _ _ _.
  repeat (try apply passes_bind; apply passes_require; [rewrite ?Hi; by apply bool_decide_eq_true_2|]). done.
Qed.

Lemma WorkspaceGetNotFound_passes `{PP : Precise} : passed testWorkspaceGetNotFound.
Proof.
  apply passes_bind, call_GetWorkspace_missing; [done|]. intros hr x Hd Hx. by apply passes_require.
Qed.

Lemma APICreateRequiresWorkspace_passes `{PP : Precise} : passed testAPICreateRequiresWorkspace.
Proof.
  apply passes_bind. eapply (call_CreateAPI_missing _ _ _ (mkAPI EmptyString "ws_missing" "prod" "ck_test_" zeroTime zeroTime None)); [done..|].
  intros hr x Hd Hx. by apply passes_require.
Qed.

Lemma APICreateAndGet_passes `{PP : Precise} : passed testAPICreateAndGet.
Proof.
  unfold testAPICreateAndGet. apply passes_bind, passes_seedWorkspace. intros w ws hc _ _. apply passes_bind.
  eapply (call_CreateAPI _ _ _ (mkAPI EmptyString (HWorkspace_WorkspaceID w) "prod" "ck_test_" zeroTime zeroTime None));
    [done|done|eexists; apply lookup_insert_eq|].
  intros hr a id' now Hd Hid Hnow _ Ha. absorb Hd. t_step.
  apply load_api_spec in Ha as [_ Ha]. injection Ha as Hi Hw Hn Hp Hc Hu.
  apply passes_bind, passes_require; [rewrite <- Hi; by eapply bool_decide_ne, assigned_nonempty|].
  apply passes_bind, passes_require; [unfold IsZero; rewrite <- Hc; by apply bool_decide_ne|].
  apply passes_bind. eapply call_GetAPI; [cbn; rewrite Hi; apply lookup_insert_eq|].
  intros hr' a' v' Hd Ha' Hv. absorb Hd. t_step. apply load_api_spec in Ha' as [_ Ha'].
  destruct v'. injection Ha' as -> -> -> -> _ _. injection Hv as _ Hw' _ Hp' _ _ _.
  apply passes_bind, passes_require; [by apply bool_decide_eq_true_2|].
  apply passes_require; [by apply bool_decide_eq_true_2|done].
Qed.

Lemma APIGetNotFound_passes `{PP : Precise} : passed testAPIGetNotFound.
Proof. apply passes_bind, call_GetAPI_missing; [done|]. intros hr x Hd Hx. by apply passes_require. Qed.

(** ** The tests of keys: creation and lookup *)

Ltac start := intros; apply passes_bind, passes_seed; intros A w a hc Hsd Hke; cbv iota.

Lemma KeyCreateRequiresAPI_passes `{PP : Precise} : passed testKeyCreateRequiresAPI.
Proof.
  unfold testKeyCreateRequiresAPI, newKey. t_step. apply passes_bind. t_step. t_step.
  apply passes_bind. eapply (call_CreateKey_missing _ _ _ (the_key "api_missing" "ws_x" "user_1" (list_byte_of_string "hash-abc")));
    [solve_load|event_types|by eexists|done|by apply hash_free_empty|].
  intros hr x Hd Hx. by apply passes_require.
Qed.

Lemma norm_hash nt v K l : norm_key nt v = K -> elems (Key_KeyHash K) = l -> elems (Key_KeyHash v) = l.
Proof. intros <-. cbn. by destruct (Key_KeyHash v) as [[]|]. Qed.

Lemma bytes_Equal_refl g h : elems g = elems h -> bytes_Equal g h = true.
Proof. apply bool_decide_eq_true_2. Qed.

Lemma loaded_id nt h k v K : load_key h k = Some v -> norm_key nt v = K -> HKey_KeyID k = Key_KeyID K.
Proof. intros Hk%load_key_spec <-. apply (kp_id _ _ _ Hk). Qed.

Lemma KeyCreateAndLookup_passes `{PP : Precise} : passed testKeyCreateAndLookup.
Proof.
  unfold testKeyCreateAndLookup. start. t_step. apply passes_bind.
  eapply passes_createKey; [done..|by apply hash_free_empty|].
  intros hc1 k v now Hs1 Hid Hn K Hk Hv. grow Hs1. t_step.
  apply passes_bind, passes_require; [by eapply bool_decide_ne, assigned_nonempty|].
  t_step. t_step. apply passes_bind, passes_require; [by apply bytes_Equal_refl; eapply norm_hash|].
  apply passes_bind. eapply call_GetKeyByID; [apply lookup_insert_eq|]. intros hr k1 v1 Hd Hk1 Hv1. absorb Hd.
  t_step. apply passes_bind, passes_require; [apply bool_decide_eq_true_2; by apply (loaded_id _ _ _ _ _ Hk1 Hv1)|].
  apply passes_bind. eapply call_GetKeyByHash; [eassumption|eapply hash_taken; [apply lookup_insert_eq|by apply same_hash_stored]|].
  intros hr k2 v2 id' Hd Hk2 Hid2 _. absorb Hd. t_step. apply passes_require; [|done]. apply bool_decide_eq_true_2.
  rewrite (loaded_id id _ _ _ _ Hk2 eq_refl). cbn in Hid2. rewrite Hke, lookup_insert in Hid2.
  case_decide; [|done]. apply (inj Some) in Hid2. by rewrite <- Hid2.
Qed.

Lemma KeyGetByHashUnknown_passes `{PP : Precise} : passed testKeyGetByHashUnknown.
Proof.
  unfold testKeyGetByHashUnknown. t_step. apply passes_bind.
  eapply call_GetKeyByHash_missing; [eassumption|by apply hash_free_empty|].
  intros hr x Hd Hx. by apply passes_require.
Qed.

Lemma KeyGetByIDUnknown_passes `{PP : Precise} : passed testKeyGetByIDUnknown.
Proof. apply passes_bind, call_GetKeyByID_missing; [done|]. intros hr x Hd Hx. by apply passes_require. Qed.

Lemma KeyCreateRejectsDuplicateHash_passes `{PP : Precise} : passed testKeyCreateRejectsDuplicateHash.
Proof.
  unfold testKeyCreateRejectsDuplicateHash. start. t_step. apply passes_bind.
  eapply passes_createKey; [done..|by apply hash_free_empty|].
  intros hc1 k v now Hs1 Hid Hn K Hk Hv. grow Hs1. t_step.
  unfold createKey, newKey. apply passes_bind, passes_bind. t_step. t_step.
  eapply (call_CreateKey_conflict _ _ _ (the_key (HAPI_APIID a) (HWorkspace_WorkspaceID w) "user_2" (replicate 32 x11)));
    [solve_load|event_types|by eexists|apply Hsd|apply Hsd|eapply hash_taken; [apply lookup_insert_eq|by apply same_hash_stored]|].
  intros hr x Hd Hx. by apply passes_require.
Qed.

(** ** Revocation and rotation *)

Lemma loaded_enabled nt h k v K : load_key h k = Some v -> norm_key nt v = K -> HKey_Enabled k = Key_Enabled K.
Proof. intros Hk%load_key_spec <-. apply (kp_enabled _ _ _ Hk). Qed.

Lemma KeyRevoke_passes `{PP : Precise} : passed testKeyRevoke.
Proof.
  unfold testKeyRevoke. start. t_step. apply passes_bind.
  eapply passes_createKey; [done..|by apply hash_free_empty|].
  intros hc1 k v now Hs1 Hid Hn K Hk Hv. grow Hs1. t_step.
  apply passes_bind. eapply call_RevokeKey; [apply lookup_insert_eq|]. intros hr t Hd. absorb Hd. t_step.
  apply passes_bind. eapply call_GetKeyByID; [apply lookup_insert_eq|]. intros hr k1 v1 Hd Hk1 Hv1. absorb Hd. t_step.
  apply passes_require; [|done]. by rewrite (loaded_enabled _ _ _ _ _ Hk1 Hv1).
Qed.

Lemma KeyRevokeIsIdempotent_passes `{PP : Precise} : passed testKeyRevokeIsIdempotent.
Proof.
  unfold testKeyRevokeIsIdempotent. start. t_step. apply passes_bind.
  eapply passes_createKey; [done..|by apply hash_free_empty|].
  intros hc1 k v now Hs1 Hid Hn K Hk Hv. cbv zeta. cbn [ignore].
  apply passes_bind. eapply call_RevokeKey; [apply lookup_insert_eq|]. intros hr t Hd. absorb Hd. t_step.
  apply passes_bind. eapply call_RevokeKey; [apply lookup_insert_eq|]. intros hr t2 Hd. absorb Hd. t_step. by t_step.
Qed.

Lemma KeyRevokeUnknownReturnsNotFound_passes `{PP : Precise} : passed testKeyRevokeUnknownReturnsNotFound.
Proof. apply passes_bind, call_RevokeKey_missing; [done|]. intros hr x Hd Hx. by apply passes_require. Qed.

(** The state after a key of the test is replaced: only that key is there. *)
Lemma only_key_put A id' k1 k2 id2 k :
  a_keys A = ∅ -> a_keys (a_put_key id' k2 (a_put_key id' k1 A)) !! id2 = Some k -> id2 = id' /\ k = k2.
Proof. cbn. intros ->. rewrite insert_insert_eq, lookup_insert_Some, lookup_empty. naive_solver. Qed.

Lemma KeyRotate_passes `{PP : Precise} : passed testKeyRotate.
Proof.
  unfold testKeyRotate. start. t_step. t_step. apply passes_bind.
  eapply passes_createKey; [done|eassumption|by apply hash_free_empty|].
  intros hc2 k v now Hs2 Hid Hn K Hk Hv. grow Hs2. cbv zeta. cbn [ignore].
  apply passes_bind. eapply call_RotateKey; [apply lookup_insert_eq|exact Hp0| |].
  { intros id2 k2 Hne. cbn. rewrite Hke, lookup_insert_ne, lookup_empty by done. done. }
  intros hr k1 v1 t Hd Hk1 Hv1. absorb Hd. t_step.
  assert (Hh : elems (Key_KeyHash (norm_key id v1)) = replicate 32 x55) by by rewrite Hv1.
  apply passes_bind, passes_require; [apply bool_decide_eq_true_2; by rewrite (loaded_id _ _ _ _ _ Hk1 Hv1)|].
  t_step. t_step. apply passes_bind, passes_require; [by apply bytes_Equal_refl; eapply norm_hash|].
  apply passes_bind. eapply call_GetKeyByHash_missing; [eassumption| |].
  { intros id2 k2 Hk2 Hsame. apply only_key_put in Hk2 as [_ ->]; [|done].
    unfold same_hash in Hsame. rewrite Hh in Hsame. discriminate. }
  intros hr x Hd Hx. absorb Hd. apply passes_bind, passes_require; [done|].
  apply passes_bind. eapply call_GetKeyByHash; [exact Hp0|eapply hash_taken; [apply lookup_insert_eq|exact Hh]|].
  intros hr k2 v2 id' Hd _ _ _. by do 2 t_step.
Qed.

Lemma KeyRotateUnknownReturnsNotFound_passes `{PP : Precise} : passed testKeyRotateUnknownReturnsNotFound.
Proof.
  unfold testKeyRotateUnknownReturnsNotFound. t_step. apply passes_bind.
  eapply call_RotateKey_missing; [done|eassumption|]. intros hr x Hd Hx. by apply passes_require.
Qed.

(** A second key, with another hash. *)
Ltac second_hash Hke := apply hash_free_put; [by apply hash_free_empty|other_hash].

Lemma KeyRotateRejectsDuplicateHash_passes `{PP : Precise} : passed testKeyRotateRejectsDuplicateHash.
Proof.
  unfold testKeyRotateRejectsDuplicateHash. start. t_step. t_step. apply passes_bind.
  eapply passes_createKey; [done|eassumption|by apply hash_free_empty|].
  intros hc2 k v now Hs2 Hid Hn K Hk Hv. grow Hs2. t_step.
  apply passes_bind. eapply passes_createKey; [by apply seeded_put|exact Hp0|second_hash Hke|].
  intros hc3 k2 v2 now2 Hs3 Hid2 Hn2 K2 Hk2 Hv2. grow Hs3. t_step.
  assert (Hne : HKey_KeyID k2 <> HKey_KeyID k).
  { intros He. cbn in Hn2. by rewrite He, lookup_insert_eq in Hn2. }
  assert (Hfirst : a_keys (a_put_key (HKey_KeyID k2) K2 (a_put_key (HKey_KeyID k) K A)) !! HKey_KeyID k = Some K).
  { cbn. rewrite lookup_insert_ne by done. apply lookup_insert_eq. }
  apply passes_bind. eapply call_RotateKey_conflict; [exact Hfirst|exact Hp0| |].
  { intros Hun. eapply Hun; [exact Hne|apply lookup_insert_eq|by apply same_hash_stored]. }
  intros hr x Hd Hx. absorb Hd. apply passes_bind, passes_require; [done|].
  apply passes_bind. eapply call_GetKeyByID; [exact Hfirst|]. intros hr k1 v1 Hd Hk1 Hv1. absorb Hd. t_step.
  t_step. t_step. apply passes_require; [by apply bytes_Equal_refl; eapply norm_hash|done].
Qed.

(** ** Last verification and uses *)

Lemma KeyTouchLastVerified_passes `{PP : Precise} : passed testKeyTouchLastVerified.
Proof.
  unfold testKeyTouchLastVerified. start. t_step. apply passes_bind.
  eapply passes_createKey; [done..|by apply hash_free_empty|].
  intros hc1 k v now Hs1 Hid Hn K Hk Hv. cbv zeta. cbn [ignore]. t_step.
  apply passes_bind. eapply call_TouchLastVerified; [apply lookup_insert_eq|]. intros hr Hd. absorb Hd. t_step.
  apply passes_bind. eapply call_GetKeyByID; [apply lookup_insert_eq|]. intros hr k1 v1 Hd Hk1 Hv1. absorb Hd.
  cbn [ignore]. t_step. apply (f_equal Key_LastVerifiedAt) in Hv1. cbn in Hv1.
  destruct (Key_LastVerifiedAt v1) as [t|]; [|done]. injection Hv1 as ->.
  apply passes_require; [apply bool_decide_eq_true_2, pr_seconds|done].
Qed.

Lemma KeyTouchLastVerifiedUnknownReturnsNotFound_passes `{PP : Precise} : passed testKeyTouchLastVerifiedUnknownReturnsNotFound.
Proof.
  unfold testKeyTouchLastVerifiedUnknownReturnsNotFound. t_step. apply passes_bind, call_TouchLastVerified_missing; [done|].
  intros hr x Hd Hx. by apply passes_require.
Qed.

(** The key of the tests of uses. *)
Definition counted_key (apiID workspaceID : string) (b : byte) (n : Z) : Key :=
  mkKey EmptyString apiID workspaceID "user_1" "test-key" (Some (replicate 32 b)) (Some ["chat:write"%string]) None None
    n true zeroTime zeroTime None None.

Lemma passes_createCounted `{PR : Precision} A w a b n hc (Q : AStore -> heap -> res HKey -> Prop) :
  seeded A w a -> a_keys A = ∅ -> int64_range n ->
  (forall hc' k now,
    let K := stored (counted_key (HAPI_APIID a) (HWorkspace_WorkspaceID w) b n) (HKey_KeyID k) now in
    Q (a_put_key (HKey_KeyID k) K A) hc' (Ok k)) ->
  passes (createCounted w a b n) A hc Q.
Proof.
  intros Hs Hke Hn HQ. unfold createCounted. t_step. unfold newKey. apply passes_bind. t_step. t_step.
  eapply (passes_create _ (counted_key (HAPI_APIID a) (HWorkspace_WorkspaceID w) b n));
    [done|solve_load| |by eexists|done|done|by apply hash_free_empty|].
  - split_and!; [done|done|by constructor].
  - intros hr k v now Hd Hid Hni Hk Hv. apply HQ.
Qed.

Ltac decrement :=
  apply passes_bind; eapply call_Decrement; [apply lookup_insert_eq|];
  let hr := fresh "hr" in let t := fresh "t" in let Hd := fresh "Hd" in
  intros hr t Hd; cbn [Key_RemainingUses stored norm_key Key_created Key_set_RemainingUses counted_key];
  repeat first [rewrite decide_True by lia | rewrite decide_False by lia]; absorb Hd.

Ltac counted := unfold int64_range, minInt64, maxInt64; lia.

Lemma KeyDecrementRemainingUses_passes `{PP : Precise} : passed testKeyDecrementRemainingUses.
Proof.
  unfold testKeyDecrementRemainingUses. start. apply passes_bind, passes_createCounted; [done|done|counted|].
  intros hc1 k now K. t_step.
  decrement. apply passes_bind, passes_require; [done|]. apply passes_bind, passes_require; [done|].
  decrement. apply passes_bind, passes_require; [done|].
  decrement. by apply passes_require.
Qed.

Lemma KeyDecrementUnlimitedIsNoop_passes `{PP : Precise} : passed testKeyDecrementUnlimitedIsNoop.
Proof.
  unfold testKeyDecrementUnlimitedIsNoop. start. apply passes_bind, passes_createCounted; [done|done|counted|].
  intros hc1 k now K. cbv zeta. cbn [ignore].
  decrement. apply passes_bind, passes_require; [done|]. by apply passes_require.
Qed.

Lemma loaded_uses nt h k v K : load_key h k = Some v -> norm_key nt v = K -> HKey_RemainingUses k = Key_RemainingUses K.
Proof. intros Hk%load_key_spec <-. apply (kp_uses _ _ _ Hk). Qed.

Lemma KeyDecrementDepletedReturnsErrDepleted_passes `{PP : Precise} : passed testKeyDecrementDepletedReturnsErrDepleted.
Proof.
  unfold testKeyDecrementDepletedReturnsErrDepleted. start.
  apply passes_bind, passes_createCounted; [done|done|counted|]. intros hc1 k now K. t_step.
  decrement. apply passes_bind, passes_require; [done|]. apply passes_bind, passes_require; [done|].
  apply passes_bind. eapply call_GetKeyByID; [apply lookup_insert_eq|]. intros hr k1 v1 Hd Hk1 Hv1. absorb Hd. t_step.
  apply passes_require; [|done]. by rewrite (loaded_uses _ _ _ _ _ Hk1 Hv1).
Qed.

Lemma KeyDecrementUnknownReturnsNotFound_passes `{PP : Precise} : passed testKeyDecrementUnknownReturnsNotFound.
Proof. apply passes_bind, call_Decrement_missing; [done|]. intros hr x Hd Hx. by apply passes_require. Qed.

(** ** Fields and isolation *)

Lemma norm_metadata_default m : default ∅ (norm_metadata m) = default ∅ m.
Proof. destruct m as [m|]; [|done]. cbn. case_decide as He; [by rewrite He|done]. Qed.

(** What two values have in common when their normal forms are equal. *)
Record same_fields (v v' : Key) : Prop := {
  sf_hash : elems (Key_KeyHash v) = elems (Key_KeyHash v');
  sf_permissions : elems (Key_Permissions v) = elems (Key_Permissions v');
  sf_refs : elems (Key_LimitRefs v) = elems (Key_LimitRefs v');
  sf_expires : Key_ExpiresAt v = Key_ExpiresAt v';
  sf_verified : Key_LastVerifiedAt v = Key_LastVerifiedAt v';
  sf_metadata : default ∅ (Key_Metadata v) = default ∅ (Key_Metadata v');
}.

Lemma norm_same_fields nt nt' v v' :
  norm_key nt v = norm_key nt' v' -> nt <$> Key_ExpiresAt v = Key_ExpiresAt v -> nt' <$> Key_ExpiresAt v' = Key_ExpiresAt v' ->
  nt <$> Key_LastVerifiedAt v = Key_LastVerifiedAt v -> nt' <$> Key_LastVerifiedAt v' = Key_LastVerifiedAt v' ->
  same_fields v v'.
Proof.
  intros Heq He1 He2 Hv1 Hv2. unfold norm_key in Heq.
  pose proof (f_equal Key_KeyHash Heq) as Hh. pose proof (f_equal Key_Permissions Heq) as Hp.
  pose proof (f_equal Key_LimitRefs Heq) as Hr. pose proof (f_equal Key_ExpiresAt Heq) as He.
  pose proof (f_equal Key_LastVerifiedAt Heq) as Hv. pose proof (f_equal Key_Metadata Heq) as Hm.
  cbn [Key_KeyHash Key_Permissions Key_LimitRefs Key_ExpiresAt Key_LastVerifiedAt Key_Metadata] in *.
  split.
  - by rewrite <- (elems_append_nil (Key_KeyHash v)), Hh, elems_append_nil.
  - by rewrite <- (elems_append_nil (Key_Permissions v)), Hp, elems_append_nil.
  - by rewrite <- (elems_append_nil (Key_LimitRefs v)), Hr, elems_append_nil.
  - by rewrite <- He1, He, He2.
  - by rewrite <- Hv1, Hv, Hv2.
  - by rewrite <- (norm_metadata_default (Key_Metadata v)), Hm, norm_metadata_default.
Qed.

Lemma sameOptionalTime_refl t : sameOptionalTime t t = true.
Proof. destruct t; [by apply bool_decide_eq_true_2|done]. Qed.

(** The snapshot has the value of the key. *)
Record snapshot_of (h : heap) (want : keySnapshot) (v : Key) : Prop := {
  so_hash : deref h (hash want) = Some (Key_KeyHash v);
  so_permissions : deref h (permissions want) = Some (Key_Permissions v);
  so_refs : deref h (limitRefs want) = Some (Key_LimitRefs v);
  so_expires : deref h (expiresAt want) = Some (Key_ExpiresAt v);
  so_verified : deref h (lastVerifiedAt want) = Some (Key_LastVerifiedAt v);
  so_metadata : deref h (metadata_ want) = Some (Key_Metadata v);
}.

Lemma passes_assertKeyFields `{PR : Precision} got want v v' A hc (Q : AStore -> heap -> unit -> Prop) :
  load_key hc got = Some v -> snapshot_of hc want v' -> same_fields v v' -> Q A hc tt ->
  passes (assertKeyFields got want) A hc Q.
Proof.
  intros []%load_key_spec [] [] HQ. unfold assertKeyFields.
  do 5 (t_step; t_step; apply passes_bind, passes_require;
    [first [by apply bool_decide_eq_true_2 | rewrite sf_expires0; apply sameOptionalTime_refl
           | rewrite sf_verified0; apply sameOptionalTime_refl] |]).
  t_step. t_step. apply passes_require; [|done]. by apply bool_decide_eq_true_2.
Qed.

Definition full_key (apiID workspaceID name : string) (l : list byte) (perms : list string) (expires verified : option Time) : Key :=
  mkKey EmptyString apiID workspaceID "user_1" name (Some l) (Some perms) (Some [token_ref]) expires
    (-1) true zeroTime zeroTime verified (Some {[ "env" := "test" ]}%string).

(** The times of the keys of the tests are whole seconds. *)
Definition whole_seconds (t : option Time) : Prop := t = None \/ exists t', t = Some (Truncate t' Second).

Lemma whole_kept `{PP : Precise} t : whole_seconds t -> kept_time <$> t = t.
Proof. intros [->|[t' ->]]; [done|]. cbn. by rewrite pr_seconds. Qed.

Lemma stored_fields `{PP : Precise} v id' now v' :
  norm_key id v' = stored v id' now -> whole_seconds (Key_ExpiresAt v) -> whole_seconds (Key_LastVerifiedAt v) ->
  same_fields v' v.
Proof.
  intros Heq He Hv. apply (norm_same_fields _ _ v' (Key_created v id' now)) in Heq as [];
    [done|apply option_fmap_id|by apply whole_kept|apply option_fmap_id|by apply whole_kept].
Qed.

(** The key [v] of a test is read back with its fields. *)
Ltac read_back v :=
  eapply (stored_fields v); [first [eassumption | symmetry; eassumption]|first [by left | right; by eexists]|first [by left | right; by eexists]].

Lemma KeyCreatePreservesAllFields_passes `{PP : Precise} : passed testKeyCreatePreservesAllFields.
Proof.
  unfold testKeyCreatePreservesAllFields, time_var, newKey. start.
  do 2 (apply passes_bind; do 2 t_step). t_step. apply passes_bind. t_step. t_step. do 3 t_step. cbv zeta.
  set (v := full_key (HAPI_APIID a) (HWorkspace_WorkspaceID w) "full-key" (replicate 32 xcd) ["chat:read"; "chat:write"]%string
              (Some (Truncate (now + Hour) Second)) (Some (Truncate (now0 + - Hour) Second))).
  apply passes_bind. eapply (passes_create _ v); [done|solve_load|event_types|by eexists|done|done|by apply hash_free_empty|].
  intros hr k v' now' Hd Hid Hn Hk Hv. absorb Hd. t_step.
  apply passes_bind. eapply call_GetKeyByID; [apply lookup_insert_eq|]. intros hr k1 v1 Hd Hk1 Hv1. absorb Hd.
  do 4 t_step. eapply passes_assertKeyFields; [done| |read_back v|done]. by split.
Qed.

(** A new object is none of the known ones. *)
Ltac t_alloc_new :=
  lazymatch goal with
  | |- passes (mbind _ _) _ _ _ => apply passes_bind; t_alloc_new
  | |- passes (Repeat _) _ _ _ => unfold Repeat; t_alloc_new
  | |- passes (alloc _) _ _ _ =>
      apply passes_alloc; let p := fresh "p" in let h := fresh "hc" in let Hs := fresh "Hs" in
      let Hu := fresh "Hu" in let Hp := fresh "Hp" in intros p h Hs Hu Hp;
      repeat match goal with
      | Hq : deref ?h0 ?q = Some _ |- _ =>
          match type of Hu with unused h0 _ =>
            lazymatch goal with
            | _ : q <> p |- _ => fail
            | _ => pose proof (unused_ne _ p q _ Hu Hq)
            end
          end
      end; grow Hs; clear Hs Hu; cbn beta
  end.

(** A write to [p] keeps the facts about the other objects. *)
Ltac t_modify :=
  apply passes_bind; eapply passes_modify; [eassumption|reflexivity|];
  let h := fresh "hc" in let Hf := fresh "Hf" in let Hp := fresh "Hp" in
  intros h Hf Hp;
  repeat match goal with
  | Hq : deref ?h0 ?q = Some _ |- _ =>
      match type of Hf with frame h0 _ ?p =>
        first [ apply (fun Hne Hq => frame_deref _ _ p q _ Hf Hq Hne) in Hq; [|first [assumption | by apply not_eq_sym]]
              | clear Hq ]
      end
  end; clear Hf; cbn beta.

Lemma KeyInputMutationDoesNotChangeStoredKey_passes `{PP : Precise} : passed testKeyInputMutationDoesNotChangeStoredKey.
Proof.
  unfold testKeyInputMutationDoesNotChangeStoredKey, time_var, newKey. start.
  do 2 (apply passes_bind; t_step; t_alloc_new). t_alloc_new. apply passes_bind. t_alloc_new. t_step. do 3 t_alloc_new.
  cbv zeta. do 3 (t_step; t_alloc_new). cbn [HKey_Name elems default].
  set (v := full_key (HAPI_APIID a) (HWorkspace_WorkspaceID w) "test-key" (replicate 32 xdd) ["chat:read"; "chat:write"]%string
              (Some (Truncate (now + Hour) Second)) (Some (Truncate (now0 + - Hour) Second))).
  apply passes_bind. eapply (passes_create _ v); [done|solve_load|event_types|by eexists|done|done|by apply hash_free_empty|].
  intros hr k v' now' Hd Hid Hn Hk Hv. absorb Hd. t_step.
  do 6 t_modify.
  apply passes_bind. eapply call_GetKeyByID; [apply lookup_insert_eq|]. intros hr k1 v1 Hd Hk1 Hv1. absorb Hd.
  do 4 t_step. eapply passes_assertKeyFields; [done| |read_back v|done]. by split.
Qed.

(** [hr'] has an object of the same type for each object of [hr]. *)
Definition updated (hr hr' : heap) : Prop :=
  dom hr' = dom hr /\ forall l o, hr !! l = Some o -> exists o', hr' !! l = Some o' /\ kind o' = kind o.

Lemma updated_refl h : updated h h.
Proof. split; [done|]. eauto. Qed.

Lemma updated_deref `{Boxed X} hr hr' (p : ptr X) v :
  updated hr hr' -> deref hr p = Some v -> exists v', deref hr' p = Some v'.
Proof.
  intros [_ Hu]. unfold deref. destruct p as [l|]; [|by eauto]. destruct (hr !! l) as [o|] eqn:Ho; [|done].
  destruct (Hu _ _ Ho) as (o' & -> & Hk). cbn. intros Hv.
  destruct (unbox o) as [a|] eqn:Hun; [|done].
  destruct (proj2 (unbox_kind o')) as [a' ->]; [|by eexists].
  rewrite Hk. apply unbox_kind. by eexists.
Qed.

Lemma updated_disjoint hr hr' hc : updated hr hr' -> hr ##ₘ hc -> hr' ##ₘ hc.
Proof. intros [Hdom _] Hd. apply map_disjoint_dom. rewrite Hdom. by apply map_disjoint_dom. Qed.

Lemma passes_update `{PR : Precision} `{Boxed X} (p : ptr X) f a a' A hr hc (Q : AStore -> heap -> unit -> Prop) :
  hr ##ₘ hc -> deref hr p = Some (Some a) -> f a = Some a' ->
  (forall hr', updated hr hr' -> Q A (hr' ∪ hc) tt) -> passes (modify p f) A (hr ∪ hc) Q.
Proof.
  intros Hd (l & -> & Hl)%deref_Some Hf HQ.
  assert (Hl' : (hr ∪ hc) !! l = Some (box a)) by by apply lookup_union_Some_l.
  exists (box a). split; [done|]. cbn. rewrite unbox_box. cbn. rewrite Hf.
  split; [by eexists|]. exists tt. split; [done|]. rewrite insert_union_l. apply HQ. split.
  - rewrite dom_insert_L. apply elem_of_dom_2 in Hl. set_solver.
  - intros l' o Ho. rewrite lookup_insert. case_decide as He; [|eauto]. subst l'. exists (box a'). split; [done|].
    rewrite Hl in Ho. injection Ho as <-.
    assert (Hk : forall b, kind (box b) = boxed_kind) by (intros b; apply unbox_kind; rewrite unbox_box; by eexists).
    by rewrite !Hk.
Qed.

Section Mutate.
Context {PR : Precision} (A : AStore) (hr hc : heap) (Hd : hr ##ₘ hc).

Lemma passes_mutate_slice `{Boxed (list X)} (p : ptr (list X)) f (Q : AStore -> heap -> unit -> Prop) :
  (exists s, deref hr p = Some s) -> (forall hr', updated hr hr' -> Q A (hr' ∪ hc) tt) ->
  passes (mutate_slice p f) A (hr ∪ hc) Q.
Proof.
  intros [s Hs] HQ. unfold mutate_slice. apply passes_bind.
  eapply passes_value; [eapply deref_weaken; [exact Hs|apply map_union_subseteq_l]|].
  destruct s as [[|x l]|]; cbn; [by apply passes_ret, HQ, updated_refl| |by apply passes_ret, HQ, updated_refl].
  by eapply passes_update.
Qed.

Lemma passes_mutate_ptr `{Boxed X} (p : ptr X) f (Q : AStore -> heap -> unit -> Prop) :
  (exists v, deref hr p = Some v) -> (forall hr', updated hr hr' -> Q A (hr' ∪ hc) tt) ->
  passes (mutate_ptr p f) A (hr ∪ hc) Q.
Proof.
  intros [v Hv] HQ. destruct p as [l|]; [|by apply passes_ret, HQ, updated_refl]. unfold mutate_ptr.
  destruct v as [a|]; [by eapply passes_update|]. by apply deref_inv in Hv.
Qed.
End Mutate.

(** The objects of the answer after a write to one of them. *)
Ltac next hr' :=
  intros hr' Hu; match type of Hu with updated ?hr _ =>
    repeat match goal with
    | He : exists v, deref hr _ = Some v |- _ => destruct He as [? He]; apply (updated_deref _ _ _ _ Hu) in He
    end end;
  match goal with Hd : _ ##ₘ _ |- _ => apply (updated_disjoint _ _ _ Hu) in Hd end; clear Hu.

(** What the test does to a returned key stays in the objects of the answer. *)
Lemma passes_mutateKeyValue `{PR : Precision} k v A hr hc (Q : AStore -> heap -> unit -> Prop) :
  hr ##ₘ hc -> load_key hr k = Some v -> (forall hr', hr' ##ₘ hc -> Q A (hr' ∪ hc) tt) ->
  passes (mutateKeyValue k) A (hr ∪ hc) Q.
Proof.
  intros Hd [Hh Hp Hr He Hv Hm]%load_key_spec HQ. unfold mutateKeyValue.
  assert (Hall : (exists v, deref hr (HKey_KeyHash k) = Some v) /\ (exists v, deref hr (HKey_Permissions k) = Some v) /\
    (exists v, deref hr (HKey_LimitRefs k) = Some v) /\ (exists v, deref hr (HKey_ExpiresAt k) = Some v) /\
    (exists v, deref hr (HKey_LastVerifiedAt k) = Some v) /\ (exists v, deref hr (HKey_Metadata k) = Some v)) by (split_and!; eauto).
  clear Hh Hp Hr He Hv Hm. destruct_and!.
  apply passes_bind, passes_mutate_slice; [done..|next hr1].
  apply passes_bind, passes_mutate_slice; [done..|next hr2].
  apply passes_bind, passes_mutate_slice; [done..|next hr3].
  apply passes_bind, passes_mutate_ptr; [done..|next hr4].
  apply passes_bind, passes_mutate_ptr; [done..|next hr5].
  apply passes_mutate_ptr; [done..|next hr6]. by apply HQ.
Qed.

Abbreviation isolated_value w a l e :=
  (full_key (HAPI_APIID a) (HWorkspace_WorkspaceID w) "test-key" l ["chat:read"%string] (Some e) None).

Lemma passes_isolated_key `{PR : Precision} A w a hash l expires e hc (Q : AStore -> heap -> HKey -> Prop) :
  deref hc hash = Some (Some l) -> deref hc expires = Some (Some e) ->
  (forall hc' k, hc ⊆ hc' -> load_key hc' k = Some (isolated_value w a l e) -> Q A hc' k) ->
  passes (isolated_key w a hash expires) A hc Q.
Proof.
  intros Hh He HQ. unfold isolated_key, newKey. apply passes_bind. t_step. t_step. do 4 t_step.
  apply HQ; [|solve_load]. repeat (etrans; [eassumption|]). done.
Qed.

Lemma passes_isolated_snapshot `{PR : Precision} w a hash l expires e A hc (Q : AStore -> heap -> keySnapshot -> Prop) :
  deref hc hash = Some (Some l) -> deref hc expires = Some (Some e) ->
  (forall hc' want, hc ⊆ hc' -> snapshot_of hc' want (isolated_value w a l e) -> Q A hc' want) ->
  passes (isolated_snapshot hash expires) A hc Q.
Proof.
  intros Hh He HQ. unfold isolated_snapshot. do 4 t_step. apply HQ; [|by split].
  repeat (etrans; [eassumption|]). done.
Qed.

(** The key is looked up again after the caller changed its objects. *)
Lemma passes_again `{PP : Precise} A id' w a l e now hash expires hc (Q : AStore -> heap -> unit -> Prop) format :
  a_keys A !! id' = Some (stored (isolated_value w a l e) id' now) ->
  deref hc hash = Some (Some l) -> deref hc expires = Some (Some e) ->
  whole_seconds (Some e) -> (forall hc', Q A hc' tt) ->
  passes (r ← call (HGetKeyByID id'); again ← must r format; want ← isolated_snapshot hash expires; assertKeyFields again want)
    A hc Q.
Proof.
  intros Hid Hh He Hwhole HQ. apply passes_bind. eapply call_GetKeyByID; [exact Hid|]. intros hr k v Hd Hk Hv. absorb Hd. t_step.
  apply passes_bind. eapply (passes_isolated_snapshot w a); [done..|]. intros hc' want Hs Hso. grow Hs.
  eapply passes_assertKeyFields; [done|done| |apply HQ].
  eapply (stored_fields (isolated_value w a l e)); [exact Hv|exact Hwhole|by left].
Qed.

(** The store has the key of the isolation tests, and the caller its hash and time. *)
Lemma passes_isolated_create `{PR : Precision} b A w a hc k hash e (Q : AStore -> heap -> res HKey -> Prop) :
  seeded A w a -> a_keys A = ∅ -> load_key hc k = Some (isolated_value w a (replicate 32 b) e) ->
  deref hc hash = Some (Some (replicate 32 b)) ->
  (forall hc' k now, hc ⊆ hc' ->
    Q (a_put_key (HKey_KeyID k) (stored (isolated_value w a (replicate 32 b) e) (HKey_KeyID k) now) A) hc' (Ok k)) ->
  passes (call (HCreateKey k)) A hc Q.
Proof.
  intros Hs Hke Hk Hh HQ. eapply passes_create; [done|exact Hk|event_types|by eexists|done|done|by apply hash_free_empty|].
  intros hr k' v now Hd _ _ _ _. apply HQ. by apply map_union_subseteq_r.
Qed.

Lemma KeyLookupMutationDoesNotChangeStoredKey_passes `{PP : Precise} : passed testKeyLookupMutationDoesNotChangeStoredKey.
Proof.
  unfold testKeyLookupMutationDoesNotChangeStoredKey, time_var. start. apply passes_bind; do 2 t_step. t_step.
  apply passes_bind. eapply passes_isolated_key; [done..|]. intros hc2 k Hs2 Hk. grow Hs2.
  apply passes_bind. eapply passes_isolated_create; [done..|]. intros hc3 k0 now0 Hs3. grow Hs3. t_step.
  apply passes_bind. eapply call_GetKeyByID; [apply lookup_insert_eq|]. intros hr k1 v1 Hd Hk1 Hv1. t_step.
  apply passes_bind. eapply passes_mutateKeyValue; [done..|]. intros hr' Hd'. clear Hd. absorb Hd'.
  eapply passes_again; [apply lookup_insert_eq|done|done|right; by eexists|done].
Qed.

(** ** Lists *)

Lemma sorted_NoDup le ids : StronglySorted (lt le) ids -> NoDup ids.
Proof.
  induction 1 as [|x ids Hs IH Hall]; [constructor|]. apply NoDup_cons. split; [|done].
  intros Hx. rewrite Forall_forall in Hall. by destruct (Hall x Hx).
Qed.

(** The identifiers listed without a token: those of the matching keys [l]. *)
Lemma listed_keys le opts A ids l :
  after_token le opts A ids -> ListKeysOpts_PageToken opts = EmptyString -> NoDup l ->
  (forall id', id' ∈ l <-> exists k, a_keys A !! id' = Some k /\ key_matches opts k) -> l ≡ₚ ids.
Proof.
  intros [Hs Hin] Ht Hl Hm. apply NoDup_Permutation; [done|by eapply sorted_NoDup|].
  intros id'. rewrite Hin, Hm. split; [by split; [|left]|by intros []].
Qed.

(** The keys of an answer are the ones listed, in order. *)
Lemma page_values `{PR : Precision} hr ks vs A ids :
  mapM (load_key hr) ks = Some vs -> (Some ∘ norm_key id) <$> vs = (fun id' => a_keys A !! id') <$> ids ->
  Forall2 (fun k id' => exists v, load_key hr k = Some v /\ a_keys A !! id' = Some (norm_key id v)) ks ids.
Proof.
  intros Hm%mapM_Some. revert ids. induction Hm as [|k v ks vs Hk Hks IH]; intros ids Hids.
  - destruct ids; [constructor|discriminate].
  - destruct ids as [|id' ids]; [discriminate|]. injection Hids as Hv Hids. constructor; [|by apply IH].
    exists v. by rewrite <- Hv.
Qed.

Lemma KeyListMutationDoesNotChangeStoredKey_passes `{PP : Precise} : passed testKeyListMutationDoesNotChangeStoredKey.
Proof.
  unfold testKeyListMutationDoesNotChangeStoredKey, time_var. start. apply passes_bind; do 2 t_step. t_step.
  apply passes_bind. eapply passes_isolated_key; [done..|]. intros hc2 k Hs2 Hk. grow Hs2.
  apply passes_bind. eapply passes_isolated_create; [done..|]. intros hc3 k0 now0 Hs3. grow Hs3. t_step.
  set (K := stored _ _ _). apply passes_bind. apply call_ListKeys; [cbn; unfold int32_range; lia|].
  intros hr r ids vs Hd Hids n Hm _ Hpage. t_step.
  assert (Hall : [HKey_KeyID k0] ≡ₚ ids).
  { eapply listed_keys; [exact Hids|done|apply NoDup_singleton|]. intros id'.
    cbn. rewrite Hke, list_elem_of_singleton. setoid_rewrite lookup_insert_Some. setoid_rewrite lookup_empty. split.
    - intros ->. exists K. split; [by left|]. by split; [|left].
    - by intros (k' & [[-> _]|[_ Hk']] & _). }
  apply Permutation_singleton_l in Hall.
  subst ids. eapply page_values in Hpage; [|exact Hm]. destruct r as [ks next]. cbn [HListKeysResult_Keys] in *.
  inversion Hpage as [|got id' ks' ids' (v1 & Hk1 & _) Hrest]; subst. inversion Hrest; subst. cbn iota.
  apply passes_bind. eapply passes_mutateKeyValue; [done..|]. intros hr' Hd'. clear Hd. absorb Hd'.
  eapply passes_again; [apply lookup_insert_eq|done|done|right; by eexists|done].
Qed.

Lemma KeyListPreservesAllFields_passes `{PP : Precise} : passed testKeyListPreservesAllFields.
Proof.
  unfold testKeyListPreservesAllFields, time_var, newKey. start.
  do 2 (apply passes_bind; do 2 t_step). t_step. apply passes_bind. t_step. t_step. do 3 t_step. cbv zeta. cbn [HKey_Name].
  set (v := full_key (HAPI_APIID a) (HWorkspace_WorkspaceID w) "test-key" (replicate 32 xe0) ["chat:read"; "chat:write"]%string
              (Some (Truncate (now + Hour) Second)) (Some (Truncate (now0 + - Hour) Second))).
  apply passes_bind. eapply (passes_create _ v); [done|solve_load|event_types|by eexists|done|done|by apply hash_free_empty|].
  intros hr k v' now' Hd Hid Hn Hk Hv. absorb Hd. t_step.
  set (K := stored _ _ _). apply passes_bind. apply call_ListKeys; [cbn; unfold int32_range; lia|].
  intros hr r ids vs Hd Hids n Hm _ Hpage. t_step.
  assert (Hall : [HKey_KeyID k] ≡ₚ ids).
  { eapply listed_keys; [exact Hids|done|apply NoDup_singleton|]. intros id'.
    cbn. rewrite Hke, list_elem_of_singleton. setoid_rewrite lookup_insert_Some. setoid_rewrite lookup_empty. split.
    - intros ->. exists K. split; [by left|]. by split; [|left].
    - by intros (k' & [[-> _]|[_ Hk']] & _). }
  apply Permutation_singleton_l in Hall.
  subst ids. eapply page_values in Hpage; [|exact Hm]. destruct r as [ks next]. cbn [HListKeysResult_Keys] in *.
  inversion Hpage as [|got id' ks' ids' (v1 & Hk1 & Hv1) Hrest]; subst. inversion Hrest; subst. cbn iota.
  clear Hm. absorb Hd. do 3 t_step. apply (passes_assertKeyFields _ _ v1 v); [exact Hk1|by split| |done].
  cbn in Hv1. rewrite lookup_insert_eq in Hv1. apply (inj Some) in Hv1. read_back v.
Qed.

Lemma maps_Equal_default g m : default ∅ g = m -> maps_Equal g (Some m) = true.
Proof. apply bool_decide_eq_true_2. Qed.

Lemma workspace_metadata nt v id' now v' m :
  norm_workspace nt v' = norm_workspace nt (Workspace_created v id' now) -> Workspace_Metadata v = Some m ->
  default ∅ (Workspace_Metadata v') = m.
Proof.
  intros Heq%(f_equal Workspace_Metadata) Hm. cbn in Heq.
  by rewrite <- norm_metadata_default, Heq, norm_metadata_default, Hm.
Qed.

Lemma WorkspaceMetadataIsIsolated_passes `{PP : Precise} : passed testWorkspaceMetadataIsIsolated.
Proof.
  unfold testWorkspaceMetadataIsIsolated. t_step. apply passes_bind.
  set (v := mkWorkspace EmptyString "acme" "user_owner" zeroTime zeroTime (Some {[ "tier" := "prod" ]}%string)).
  eapply (call_CreateWorkspace _ _ _ v); [by apply load_workspace_spec|by_eval|].
  intros hr w id' now Hd Hid Hnow Hw. absorb Hd. t_step. apply load_workspace_spec in Hw as [_ Hw].
  apply (f_equal Workspace_WorkspaceID) in Hw. cbn in Hw. subst id'.
  do 2 t_modify. apply passes_bind. eapply call_GetWorkspace; [apply lookup_insert_eq|].
  intros hr w1 v1 Hd Hw1 Hv1. absorb Hd. t_step. apply load_workspace_spec in Hw1 as [Hw1 _].
  pose proof (workspace_metadata _ _ _ _ _ _ Hv1 eq_refl) as Hm1.
  t_alloc_new. t_step. t_step. apply passes_bind, passes_require; [by apply maps_Equal_default|].
  destruct (Workspace_Metadata v1) as [m1|] eqn:Hmd; [|by apply (f_equal (lookup "tier"%string)) in Hm1].
  t_modify. apply passes_bind. eapply call_GetWorkspace; [apply lookup_insert_eq|].
  intros hr w2 v2 Hd Hw2 Hv2. absorb Hd. t_step. t_step. t_step.
  apply passes_require; [|done]. by eapply maps_Equal_default, workspace_metadata.
Qed.

Lemma api_metadata nt v id' now v' m :
  norm_api nt v' = norm_api nt (API_created v id' now) -> API_Metadata v = Some m ->
  default ∅ (API_Metadata v') = m.
Proof.
  intros Heq%(f_equal API_Metadata) Hm. cbn in Heq.
  by rewrite <- norm_metadata_default, Heq, norm_metadata_default, Hm.
Qed.

Lemma APIMetadataIsIsolated_passes `{PP : Precise} : passed testAPIMetadataIsIsolated.
Proof.
  unfold testAPIMetadataIsIsolated. apply passes_bind, passes_seedWorkspace. intros w ws hc _ _. t_step. apply passes_bind.
  set (v := mkAPI EmptyString (HWorkspace_WorkspaceID w) "prod" "ck_prod_" zeroTime zeroTime (Some {[ "region" := "eu" ]}%string)).
  eapply (call_CreateAPI _ _ _ v); [by apply load_api_spec|by_eval|eexists; apply lookup_insert_eq|].
  intros hr a id' now Hd Hid Hnow _ Ha. absorb Hd. t_step. apply load_api_spec in Ha as [_ Ha].
  apply (f_equal API_APIID) in Ha. cbn in Ha. subst id'.
  do 2 t_modify. apply passes_bind. eapply call_GetAPI; [apply lookup_insert_eq|].
  intros hr a1 v1 Hd Ha1 Hv1. absorb Hd. t_step. apply load_api_spec in Ha1 as [Ha1 _].
  pose proof (api_metadata _ _ _ _ _ _ Hv1 eq_refl) as Hm1.
  t_alloc_new. t_step. t_step. apply passes_bind, passes_require; [by apply maps_Equal_default|].
  destruct (API_Metadata v1) as [m1|] eqn:Hmd; [|by apply (f_equal (lookup "region"%string)) in Hm1].
  t_modify. apply passes_bind. eapply call_GetAPI; [apply lookup_insert_eq|].
  intros hr a2 v2 Hd Ha2 Hv2. absorb Hd. t_step. t_step. t_step.
  apply passes_require; [|done]. by eapply maps_Equal_default, api_metadata.
Qed.

Ltac page_size := cbn; unfold int32_range; lia.

Lemma KeyListUnknownAPIIsEmpty_passes `{PP : Precise} : passed testKeyListUnknownAPIIsEmpty.
Proof.
  apply passes_bind, call_ListKeys; [page_size|]. intros hr r ids vs Hd Hids n Hm Hnext Hpage. t_step.
  assert (Hall : [] ≡ₚ ids).
  { eapply listed_keys; [exact Hids|done|constructor|]. intros id'. cbn. rewrite lookup_empty. split; [by intros ?%not_elem_of_nil|].
    by intros (k & ? & _). }
  apply Permutation_nil_l in Hall. subst ids. eapply page_values in Hpage; [|exact Hm].
  destruct r as [ks next]. cbn in *. inversion Hpage. subst. by apply passes_require.
Qed.

(** The identifiers and the fields of the keys of an answer. *)
Lemma page_fields `{PR : Precision} hr ks vs A ids :
  mapM (load_key hr) ks = Some vs -> (Some ∘ norm_key id) <$> vs = (fun id' => a_keys A !! id') <$> ids ->
  length ks = length ids /\
  forall i k, ks !! i = Some k -> exists id' K, ids !! i = Some id' /\ a_keys A !! id' = Some K /\
    HKey_KeyID k = Key_KeyID K /\ HKey_APIID k = Key_APIID K /\ HKey_OwnerPrincipalID k = Key_OwnerPrincipalID K.
Proof.
  intros Hm Hids. pose proof (page_values _ _ _ _ _ Hm Hids) as Hpage. split; [by eapply Forall2_length|].
  intros i k Hk. destruct (Forall2_lookup_l _ _ _ _ _ Hpage Hk) as (id' & Hid & v & Hv & HK).
  exists id', (norm_key id v). apply load_key_spec in Hv. split_and!; [done|done|..]; apply Hv.
Qed.

Lemma for_each_passes `{PR : Precision} {X} (l : list X) body A hc (Q : AStore -> heap -> unit -> Prop) :
  (forall i x hc (Q : AStore -> heap -> unit -> Prop), l !! i = Some x -> Q A hc tt -> passes (body x) A hc Q) ->
  Q A hc tt -> passes (for_each l body) A hc Q.
Proof.
  revert hc. induction l as [|x l IH]; intros hc Hb HQ; [by apply passes_ret|].
  apply passes_bind. apply (Hb 0%nat); [done|]. apply IH; [|done]. intros i y hc' Q' Hi. by apply (Hb (S i)).
Qed.
