(* ===== verification/ConformanceLists.v ===== *)
(** * ConformanceLists: the tests of lists and pages

    The keys a test creates, the identifiers a call lists after its token, and the
    tests that filter, page and skip to an insertion point. *)

From Stdlib Require Strings.Byte.
From S2P Require Import Prelude Effects GoSort GoText Crypto Store StoreSpec Heap References HeapSpec Client Conformance.
From S2P Require Import ConformanceProps.
Import conformance.

(** ** Keys of one hash each *)

(** A key of the tests of lists. *)
Lemma passes_createKey_ `{PP : Precise} A w a owner b hc (Q : AStore -> heap -> unit -> Prop) :
  seeded A w a -> hash_free (Some (replicate 32 b)) A ->
  (forall hc' id' now, assigned_id "key" id' -> a_keys A !! id' = None ->
    Q (a_put_key id' (stored (the_key (HAPI_APIID a) (HWorkspace_WorkspaceID w) owner (replicate 32 b)) id' now) A) hc' tt) ->
  passes (createKey_ w a owner b) A hc Q.
Proof.
  intros Hs Hf HQ. unfold createKey_. t_step. apply passes_bind. eapply passes_createKey; [done|done|done|].
  intros hc' k v now Hs' Hid Hn K Hk Hv. t_step. by apply HQ.
Qed.

Ltac free_hash Hke := repeat (apply hash_free_put; [|other_hash]); apply hash_free_empty; exact Hke.

(** [l] has the identifiers of the matching keys. *)
Definition matching (opts : ListKeysOpts) (keys : gmap string Key) (l : list string) : Prop :=
  NoDup l /\ forall id', id' ∈ l <-> exists k, keys !! id' = Some k /\ key_matches opts k.

Lemma matching_empty opts : matching opts ∅ [].
Proof.
  split; [constructor|]. intros id'. rewrite lookup_empty. split; [by intros ?%not_elem_of_nil|by intros (k & ? & _)].
Qed.

Lemma matching_put opts keys l id' k :
  matching opts keys l -> keys !! id' = None -> key_matches opts k -> matching opts (<[id' := k]> keys) (id' :: l).
Proof.
  intros [Hl Hin] Hn Hk. assert (Hid : id' ∉ l) by (rewrite Hin; intros (? & ? & _); congruence).
  split; [by apply NoDup_cons|]. intros id2. rewrite elem_of_cons, Hin. setoid_rewrite lookup_insert_Some. split.
  - intros [->|(k2 & Hk2 & Hm)]; [by eauto|]. exists k2. split; [|done]. right. split; [congruence|done].
  - intros (k2 & [[-> _]|[_ Hk2]] & Hm); [by left|by eauto].
Qed.

Lemma matching_skip opts keys l id' k :
  matching opts keys l -> keys !! id' = None -> ~ key_matches opts k -> matching opts (<[id' := k]> keys) l.
Proof.
  intros [Hl Hin] Hn Hk. split; [done|]. intros id2. rewrite Hin. setoid_rewrite lookup_insert_Some. split.
  - intros (k2 & Hk2 & Hm). exists k2. split; [|done]. right. split; [congruence|done].
  - intros (k2 & [[_ <-]|[_ Hk2]] & Hm); [done|by eauto].
Qed.

Lemma matching_listed le opts A l ids :
  matching opts (a_keys A) l -> ListKeysOpts_PageToken opts = EmptyString -> after_token le opts A ids -> l ≡ₚ ids.
Proof. intros [Hl Hin] Ht Hids. by eapply listed_keys. Qed.

(** All the matching keys [l] fit the page. *)
Lemma call_ListKeys_all `{PP : Precise} opts A hc l (Q : AStore -> heap -> res HListKeysResult -> Prop) :
  int32_range (ListKeysOpts_PageSize opts) -> ListKeysOpts_PageToken opts = EmptyString ->
  matching opts (a_keys A) l -> (length l <= effective_page_size (ListKeysOpts_PageSize opts))%nat ->
  (forall hc' r, length (HListKeysResult_Keys r) = length l ->
    (forall i k, HListKeysResult_Keys r !! i = Some k -> exists K, key_matches opts K /\
      HKey_APIID k = Key_APIID K /\ HKey_OwnerPrincipalID k = Key_OwnerPrincipalID K) ->
    Q A hc' (Ok r)) ->
  passes (call (HListKeys opts)) A hc Q.
Proof.
  intros Hr Ht Hl Hlen HQ. apply call_ListKeys; [done|]. intros hr r ids vs Hd Hids n Hm _ Hpage.
  pose proof (matching_listed _ _ _ _ _ Hl Ht Hids) as Hall.
  destruct (page_fields _ _ _ _ _ Hm Hpage) as [Hk Hf]. rewrite take_ge in Hk, Hf by (by rewrite <- Hall).
  apply HQ; [by rewrite Hk, <- Hall|]. intros i k Hi. destruct (Hf i k Hi) as (id' & K & Hid & HK & _ & Ha & Ho).
  exists K. split; [|done]. apply list_elem_of_lookup_2, (proj2 Hids) in Hid as [(K' & HK' & Hm') _]. congruence.
Qed.

Ltac match_key := first [ apply matching_put; [|done|by split; [|first [left; reflexivity | right; reflexivity]]]
                        | apply matching_skip; [|done|first [by intros [_ [?|?]] | by intros [? _]]] ].

Lemma KeyListFilterByOwner_passes `{PP : Precise} : passed testKeyListFilterByOwner.
Proof.
  unfold testKeyListFilterByOwner. start.
  apply passes_bind, passes_createKey_; [done|free_hash Hke|]. intros hc1 id1 now1 _ Hn1.
  apply passes_bind, passes_createKey_; [by apply seeded_put|free_hash Hke|]. intros hc2 id2 now2 _ Hn2.
  apply passes_bind, passes_createKey_; [by do 2 apply seeded_put|free_hash Hke|]. intros hc3 id3 now3 _ Hn3.
  apply passes_bind, (call_ListKeys_all _ _ _ [id3; id1]); [page_size|done| |by apply Nat.leb_le|].
  { cbn in *. do 3 match_key. rewrite Hke. apply matching_empty. }
  intros hc' r Hlen Hf. t_step. apply passes_bind, passes_require; [by apply bool_decide_eq_true_2|].
  apply for_each_passes; [|done]. intros i k hc4 Q' Hk HQ'. apply passes_require; [|done]. apply bool_decide_eq_true_2.
  by destruct (Hf i k Hk) as (K & [_ [?|?]] & _ & ->).
Qed.

Lemma KeyListByAPI_passes `{PP : Precise} : passed testKeyListByAPI.
Proof.
  unfold testKeyListByAPI. apply passes_bind, passes_seedWorkspace. intros w ws hc0 _ _.
  apply passes_bind, passes_seedAPI; [eexists; apply lookup_insert_eq|]. intros a1 v1 hc _ _ _. cbn [a_workspaces a_apis a_keys a_empty].
  apply passes_bind.
  eapply (call_CreateAPI _ _ _ (mkAPI EmptyString (HWorkspace_WorkspaceID w) "staging" "ck_test_" zeroTime zeroTime None));
    [done|done|eexists; apply lookup_insert_eq|].
  intros hr a2 id2' now' Hd _ _ Hfresh Ha2. absorb Hd. cbv zeta. cbn [ignore a_workspaces a_apis a_keys].
  apply load_api_spec in Ha2 as [_ Ha2]. apply (f_equal API_APIID) in Ha2. cbn in Ha2, Hfresh. subst id2'.
  apply lookup_insert_None in Hfresh as [_ Hapi].
  set (A := mkAStore _ _ _). assert (Hke : a_keys A = ∅) by done.
  assert (Hs1 : seeded A w a1).
  { split; cbn; [eexists; apply lookup_insert_eq|]. rewrite lookup_insert_ne by done. eexists. apply lookup_insert_eq. }
  assert (Hs2 : seeded A w a2) by (split; eexists; apply lookup_insert_eq).
  clearbody A.
  apply passes_bind, passes_createKey_; [done|free_hash Hke|]. intros hc11 id1 now1 _ Hn1.
  apply passes_bind, passes_createKey_; [by apply seeded_put|free_hash Hke|]. intros hc12 id2 now2 _ Hn2.
  apply passes_bind, passes_createKey_; [by do 2 apply seeded_put|free_hash Hke|]. intros hc13 id3 now3 _ Hn3.
  apply passes_bind, (call_ListKeys_all _ _ _ [id2; id1]); [page_size|done| |by apply Nat.leb_le|].
  { cbn in *. do 3 match_key. rewrite Hke. apply matching_empty. }
  intros hc' r Hlen Hf. t_step. apply passes_bind, passes_require; [by apply bool_decide_eq_true_2|].
  apply for_each_passes; [|done]. intros i k hc4 Q' Hk HQ'. apply passes_require; [|done]. apply bool_decide_eq_true_2.
  by destruct (Hf i k Hk) as (K & [? _] & -> & _).
Qed.

(** ** Many keys *)

Lemma byte_of_Z z : 0 <= z < 256 -> Byte.of_N (Z.to_N z) = Some (sha256.Z_byte z).
Proof.
  intros Hz. unfold sha256.Z_byte. rewrite Z.mod_small by lia.
  destruct (Byte.of_N (Z.to_N z)) eqn:Ho; [done|]. apply Byte.of_N_None_iff in Ho. lia.
Qed.

Lemma Z_byte_inj x y : 0 <= x < 256 -> 0 <= y < 256 -> sha256.Z_byte x = sha256.Z_byte y -> x = y.
Proof.
  intros Hx Hy He. pose proof (Byte.to_of_N _ (byte_of_Z x Hx)) as Hx'.
  pose proof (Byte.to_of_N _ (byte_of_Z y Hy)) as Hy'. rewrite He, Hy' in Hx'. lia.
Qed.

Abbreviation keys_of a := (mkListKeysOpts (HAPI_APIID a) EmptyString 0 EmptyString).

(** The store has the keys [l] of the API, of the hashes [base], [base + 1], ... *)
Record with_keys (w : HWorkspace) (a : HAPI) (base i : Z) (l : list string) (A : AStore) : Prop := {
  wk_seeded : seeded A w a;
  wk_matching : matching (keys_of a) (a_keys A) l;
  wk_length : Z.of_nat (length l) = i;
  wk_ids : Forall (assigned_id "key") l;
  wk_keyed : forall id' k, a_keys A !! id' = Some k -> Key_KeyID k = id';
  wk_hashes : forall id' k, a_keys A !! id' = Some k ->
    exists j, 0 <= j < i /\ elems (Key_KeyHash k) = replicate 32 (sha256.Z_byte (base + j));
}.

Lemma with_keys_start w a base A : seeded A w a -> a_keys A = ∅ -> with_keys w a base 0 [] A.
Proof.
  intros Hs Hke. split; [done|by rewrite Hke; apply matching_empty|done|constructor|..]; rewrite Hke; intros id' k;
    by rewrite lookup_empty.
Qed.

Lemma with_keys_free w a base i l A :
  with_keys w a base i l A -> 0 <= base -> base + i < 256 ->
  hash_free (Some (replicate 32 (sha256.Z_byte (base + i)))) A.
Proof.
  intros Hw Hb Hi id' k Hk. destruct (wk_hashes _ _ _ _ _ _ Hw _ _ Hk) as (j & Hj & Hh).
  unfold same_hash. rewrite Hh. cbn [elems default]. intros He. injection He as He _.
  apply Z_byte_inj in He; lia.
Qed.

Lemma with_keys_put `{PR : Precision} w a base i l A id' now :
  with_keys w a base i l A -> assigned_id "key" id' -> a_keys A !! id' = None ->
  let v := the_key (HAPI_APIID a) (HWorkspace_WorkspaceID w) "user_1" (replicate 32 (sha256.Z_byte (base + i))) in
  with_keys w a base (i + 1) (id' :: l) (a_put_key id' (stored v id' now) A).
Proof.
  intros [Hs Hm Hlen Hids Hkeyed Hh] Hid Hn v. split; cbn.
  - by apply seeded_put.
  - apply matching_put; [done|done|]. by split; [|left].
  - lia.
  - by constructor.
  - intros id2 k. rewrite lookup_insert_Some. intros [[-> <-]|[_ Hk]]; [done|by apply Hkeyed].
  - intros id2 k. rewrite lookup_insert_Some. intros [[_ <-]|[_ Hk]].
    + exists i. split; [lia|done].
    + destruct (Hh id2 k Hk) as (j & Hj & ->). exists j. split; [lia|done].
Qed.

Lemma passes_seed_key `{PP : Precise} {X} w a base i l A hc (f : HKey -> T X) format (Q : AStore -> heap -> X -> Prop) :
  with_keys w a base i l A -> 0 <= base -> base + i < 256 ->
  (forall A' hc' k, with_keys w a base (i + 1) (HKey_KeyID k :: l) A' -> passes (f k) A' hc' Q) ->
  passes (hash ← Repeat (sha256.Z_byte (base + i)); r ← createKey w a "user_1" hash; k ← must r format; f k) A hc Q.
Proof.
  intros Hw Hb Hi HQ. t_step. apply passes_bind.
  eapply passes_createKey; [apply Hw|eassumption|by eapply with_keys_free|].
  intros hc' k v now _ Hid Hn K _ _. t_step. by apply HQ, with_keys_put.
Qed.

Lemma passes_seed_range `{PP : Precise} w a base n i l A hc (Q : AStore -> heap -> unit -> Prop) :
  with_keys w a base i l A -> 0 <= base -> base + i + Z.of_nat n <= 256 ->
  (forall A' hc' l', with_keys w a base (i + Z.of_nat n) l' A' -> Q A' hc' tt) ->
  passes (for_range n i (fun i =>
    hash ← Repeat (sha256.Z_byte (base + i));
    r ← createKey w a "user_1" hash;
    _ ← must r "seed key %d: %v";
    mret tt)) A hc Q.
Proof.
  intros Hw Hb. revert i l A hc Hw. induction n as [|n IH]; intros i l A hc Hw Hn HQ.
  - apply passes_ret. eapply HQ. by rewrite Z.add_0_r.
  - cbn [for_range]. apply passes_bind. eapply (passes_seed_key _ _ _ _ _ _ _ (fun _ => mret tt)); [exact Hw|lia|lia|].
    intros A' hc' k Hw'. apply passes_ret. eapply IH; [exact Hw'|lia|]. intros A2 hc2 l2 Hw2. eapply HQ.
    by replace (i + Z.of_nat (S n)) with (i + 1 + Z.of_nat n) by lia.
Qed.

Lemma passes_seed_keys `{PP : Precise} w a base n A hc (Q : AStore -> heap -> unit -> Prop) :
  seeded A w a -> a_keys A = ∅ -> 0 <= base -> base + Z.of_nat n <= 256 ->
  (forall A' hc' l, with_keys w a base (Z.of_nat n) l A' -> Q A' hc' tt) ->
  passes (seed_keys w a base n) A hc Q.
Proof.
  intros Hs Hke Hb Hn HQ. eapply passes_seed_range; [by apply with_keys_start|lia|lia|exact HQ].
Qed.

Lemma passes_seed_ids `{PP : Precise} w a n i l ids A hc (Q : AStore -> heap -> list string -> Prop) :
  with_keys w a 192 i l A -> l ≡ₚ ids -> 192 + i + Z.of_nat n <= 256 ->
  (forall A' hc' l' ids', with_keys w a 192 (i + Z.of_nat n) l' A' -> l' ≡ₚ ids' -> Q A' hc' ids') ->
  passes (seed_ids w a i n ids) A hc Q.
Proof.
  revert i l ids A hc. induction n as [|n IH]; intros i l ids A hc Hw Hids Hn HQ; cbn [seed_ids].
  - apply passes_ret. eapply HQ; [|done]. by rewrite Z.add_0_r.
  - eapply passes_seed_key; [exact Hw|lia|lia|]. intros A' hc' k Hw'. eapply IH; [exact Hw'| |lia|].
    { rewrite Hids. apply Permutation_cons_append. }
    intros A2 hc2 l2 ids2 Hw2. eapply HQ. by replace (i + Z.of_nat (S n)) with (i + 1 + Z.of_nat n) by lia.
Qed.

(** ** Pages *)

Abbreviation id_lt := (lt id_le).

Lemma id_le_not_lt `{PP : Precise} a b : id_le a b -> ~ id_lt b a.
Proof. intros Hab [Hba Hne]. by apply Hne, (anti_symm id_le). Qed.

(** Identifiers are listed as they are sorted. *)
Lemma sorted_ids `{PP : Precise} ids :
  Forall (assigned_id "key") ids -> StronglySorted str_lt ids -> StronglySorted id_lt ids.
Proof.
  intros Hids. induction 1 as [|x ids Hs IH Hall]; [constructor|]. apply Forall_cons in Hids as [Hx Hids].
  constructor; [by apply IH|]. rewrite Forall_forall in *. intros y Hy. destruct (Hall y Hy) as [Hle Hne].
  split; [|done]. apply pr_ids; auto.
Qed.

(** [ids] is the whole listing, in order. *)
Definition listing `{PR : Precision} (opts : ListKeysOpts) (A : AStore) (ids : list string) : Prop :=
  StronglySorted id_lt ids /\ matching opts (a_keys A) ids.

Lemma with_keys_listing `{PP : Precise} w a base i l A :
  with_keys w a base i l A -> exists ids, l ≡ₚ ids /\ StronglySorted str_lt ids /\ listing (keys_of a) A ids.
Proof.
  intros Hw. destruct (wk_matching _ _ _ _ _ _ Hw) as [Hl Hin]. exists (sort_Strings l).
  assert (Hsort : StronglySorted str_lt (sort_Strings l)) by by apply sort_Strings_sorted.
  split_and!; [by rewrite sort_Strings_perm|done|]. split.
  { apply sorted_ids; [|done]. rewrite sort_Strings_perm. apply Hw. }
  split; [by rewrite sort_Strings_perm|]. intros id'. by rewrite sort_Strings_perm, Hin.
Qed.

(** The token [t] skips [j] identifiers. *)
Definition skips `{PR : Precision} (ids : list string) (j : nat) (t : string) : Prop :=
  forall id', id' ∈ ids -> (t = EmptyString \/ id_lt t id') <-> id' ∈ drop j ids.

Lemma skips_none `{PP : Precise} ids : skips ids 0 EmptyString.
Proof. intros id' Hid. split; [done|by left]. Qed.

Lemma skips_app `{PP : Precise} pre suf t :
  StronglySorted id_lt (pre ++ suf) -> t <> EmptyString ->
  (forall id', id' ∈ pre -> id_le id' t) -> (forall id', id' ∈ suf -> id_lt t id') -> skips (pre ++ suf) (length pre) t.
Proof.
  intros Hs Ht Hpre Hsuf id' Hid. rewrite drop_app_length. split; [|by right; apply Hsuf].
  intros [?|Hlt]; [done|]. apply elem_of_app in Hid as [Hid|Hid]; [|done].
  by destruct (id_le_not_lt _ _ (Hpre _ Hid)).
Qed.

(** The token of the last identifier skipped. *)
Lemma skips_last `{PP : Precise} pre suf t :
  StronglySorted id_lt (pre ++ suf) -> last pre = Some t -> t <> EmptyString -> skips (pre ++ suf) (length pre) t.
Proof.
  intros Hs Hl Ht. apply last_Some in Hl as [pre' ->]. apply skips_app; [done|done|..]; intros id' Hid.
  - apply StronglySorted_app in Hs as (_ & Hs & _). apply elem_of_app in Hid as [Hid|Hid%list_elem_of_singleton].
    + by apply (StronglySorted_app_1_elem_of _ _ _ _ t Hs Hid), list_elem_of_singleton.
    + by subst.
  - eapply StronglySorted_app_1_elem_of; [exact Hs| |exact Hid]. apply elem_of_app. right. by apply list_elem_of_singleton.
Qed.

Lemma listing_after `{PP : Precise} opts A ids j ids' :
  listing opts A ids -> skips ids j (ListKeysOpts_PageToken opts) -> after_token id_le opts A ids' -> ids' = drop j ids.
Proof.
  intros [Hs [Hnd Hin]] Ht [Hs' Hin'].
  assert (Hsd : StronglySorted id_lt (drop j ids)).
  { rewrite <- (take_drop j ids) in Hs. by apply StronglySorted_app in Hs as (_ & _ & ?). }
  apply (StronglySorted_unique_strong id_lt); [|exact Hs'|exact Hsd|].
  { intros x y _ _ [Hxy _] [Hyx _]. by apply (anti_symm id_le). }
  apply NoDup_Permutation; [by eapply sorted_NoDup|by eapply sorted_NoDup|]. intros id'. rewrite Hin', <- Hin. split.
  - intros [Hid Htok]. by apply (Ht id' Hid).
  - intros Hid. assert (Hall : id' ∈ ids) by (rewrite <- (take_drop j ids), elem_of_app; by right).
    split; [done|]. by apply (Ht id' Hall).
Qed.

(** A page of a listing. *)
Lemma call_ListKeys_page `{PP : Precise} opts A hc ids j (Q : AStore -> heap -> res HListKeysResult -> Prop) :
  int32_range (ListKeysOpts_PageSize opts) -> listing opts A ids -> skips ids j (ListKeysOpts_PageToken opts) ->
  (forall id' k, a_keys A !! id' = Some k -> Key_KeyID k = id') ->
  (forall hc' r, let n := effective_page_size (ListKeysOpts_PageSize opts) in
    HKey_KeyID <$> HListKeysResult_Keys r = take n (drop j ids) ->
    HListKeysResult_NextPageToken r = next_token n (drop j ids) -> Q A hc' (Ok r)) ->
  passes (call (HListKeys opts)) A hc Q.
Proof.
  intros Hr Hl Ht Hkeyed HQ. apply call_ListKeys; [done|]. intros hr r ids' vs Hd Hids n Hm Hnext Hpage.
  rewrite (listing_after _ _ _ _ _ Hl Ht Hids) in *. destruct (page_fields _ _ _ _ _ Hm Hpage) as [Hlen Hf].
  apply HQ; [|done]. apply list_eq_same_length with (n := length (HListKeysResult_Keys r)); [by rewrite Hlen|by rewrite length_fmap|].
  intros i x y _ Hx Hy. apply list_lookup_fmap_Some in Hx as (k & -> & Hk).
  destruct (Hf i k Hk) as (id' & K & Hid & HK & -> & _). rewrite (Hkeyed _ _ HK). subst n. congruence.
Qed.

(** The token of a page skips the pages so far. *)
Lemma skips_next `{PP : Precise} ids j n t :
  StronglySorted id_lt ids -> Forall (assigned_id "key") ids -> (0 < n)%nat -> t = next_token n (drop j ids) ->
  t <> EmptyString -> skips ids (j + n) t /\ (j + n < length ids)%nat.
Proof.
  intros Hs Hids Hn -> Hne. unfold next_token in *. case_decide as Hlen; [|done]. rewrite length_drop in Hlen.
  assert (Hj : (j + n <= length ids)%nat) by lia. split; [|lia].
  destruct (last (take n (drop j ids))) as [t|] eqn:Hl; [|by destruct Hne]. cbn in *.
  assert (Hcat : take j ids ++ take n (drop j ids) = take (j + n) ids).
  { apply list_eq. intros i. by rewrite take_take_drop. }
  assert (Hlast : last (take (j + n) ids) = Some t) by (by rewrite <- Hcat, last_app, Hl).
  rewrite <- (take_drop (j + n) ids) in Hs |- *. rewrite <- (length_take_le ids (j + n)) at 3 by done.
  by apply skips_last.
Qed.

(** No next token after the last page. *)
Lemma next_token_last ids j n :
  Forall (assigned_id "key") ids -> (0 < n)%nat -> next_token n (drop j ids) = EmptyString -> (length ids <= j + n)%nat.
Proof.
  intros Hids Hn. unfold next_token. case_decide as Hlen; [|rewrite length_drop in Hlen; lia].
  destruct (last (take n (drop j ids))) as [t|] eqn:Hl.
  - cbn. intros ->. apply last_Some in Hl as [l Hl]. rewrite Forall_forall in Hids.
    assert (Hin : EmptyString ∈ ids).
    { rewrite <- (take_drop j ids). apply elem_of_app. right. rewrite <- (take_drop n (drop j ids)), Hl.
      apply elem_of_app. left. apply elem_of_app. right. by apply list_elem_of_singleton. }
    by destruct (assigned_nonempty _ _ (Hids _ Hin)).
  - apply last_None in Hl. apply (f_equal length) in Hl. rewrite length_take in Hl. cbn in Hl. lia.
Qed.

Lemma passes_see `{PP : Precise} ks seen A hc (Q : AStore -> heap -> list string -> Prop) :
  NoDup (HKey_KeyID <$> ks) -> (forall k, k ∈ ks -> HKey_KeyID k ∉ seen) ->
  Q A hc (reverse (HKey_KeyID <$> ks) ++ seen) -> passes (see ks seen) A hc Q.
Proof.
  revert seen. induction ks as [|k ks IH]; intros seen; cbn [see fmap list_fmap].
  { intros _ _. apply passes_ret. }
  intros [Hk Hnd]%NoDup_cons Hseen HQ. rewrite bool_decide_eq_false_2 by (by apply Hseen, elem_of_cons; left).
  apply IH; [done| |by rewrite reverse_cons, <- (assoc_L (++)) in HQ].
  intros k2 Hk2 [He|Hin]%elem_of_cons; [|by apply (Hseen k2); [apply elem_of_cons; right|]].
  apply Hk. rewrite <- He. by apply list_elem_of_fmap_2.
Qed.

(** The pages of two, from the token that skips [j] identifiers, see the others. *)
Lemma passes_pages `{PP : Precise} m a A hc ids j token (Q : AStore -> heap -> list string -> Prop) :
  listing (keys_of a) A ids -> Forall (assigned_id "key") ids ->
  (forall id' k, a_keys A !! id' = Some k -> Key_KeyID k = id') ->
  skips ids j token -> (length ids <= j + 2 * m)%nat -> (0 < m)%nat ->
  (forall hc' seen, length seen = length ids -> Q A hc' seen) ->
  passes (pages m (HAPI_APIID a) token (reverse (take j ids))) A hc Q.
Proof.
  intros Hl Hids Hkeyed Ht Hlen Hm HQ. revert j token hc Ht Hlen Hm.
  induction m as [|m IH]; intros j token hc Ht Hlen Hm; [lia|]. cbn [pages].
  apply passes_bind, (call_ListKeys_page _ _ _ ids j); [page_size|exact Hl|exact Ht|exact Hkeyed|]. cbv zeta.
  cbn [ListKeysOpts_PageSize]. change (effective_page_size 2) with 2%nat. intros hc' r Hkeys Hnext. t_step.
  destruct Hl as [Hs Hmatch]. pose proof (proj1 Hmatch) as Hnd.
  assert (Hcat : take (j + 2) ids = take j ids ++ take 2 (drop j ids)).
  { symmetry. apply list_eq. intros i. by rewrite take_take_drop. }
  assert (Hnd2 : NoDup (take j ids ++ take 2 (drop j ids))).
  { rewrite <- Hcat. rewrite <- (take_drop (j + 2) ids) in Hnd. by apply NoDup_app in Hnd as (? & _). }
  apply NoDup_app in Hnd2 as (_ & Hdisj & Hnd2).
  apply passes_bind, passes_see; [by rewrite Hkeys| |].
  { intros k Hk. rewrite elem_of_reverse. intros Hin. apply (Hdisj _ Hin). rewrite <- Hkeys. by apply list_elem_of_fmap_2. }
  rewrite Hkeys, <- reverse_app, <- Hcat. case_bool_decide as He.
  - apply passes_ret, HQ. rewrite length_reverse, take_ge; [done|].
    apply next_token_last; [done|lia|]. by rewrite <- Hnext.
  - destruct (skips_next _ _ _ _ Hs Hids Nat.lt_0_2 Hnext He) as [Ht' Hlt]. apply IH; [done|lia|lia].
Qed.

Lemma KeyListPaginates_passes `{PP : Precise} : passed testKeyListPaginates.
Proof.
  unfold testKeyListPaginates. start. apply passes_bind.
  apply passes_seed_keys; [done|done|lia|lia|]. intros A' hc' l Hw.
  destruct (with_keys_listing _ _ _ _ _ _ Hw) as (ids & Hp & _ & Hl). apply passes_bind.
  pose proof (wk_length _ _ _ _ _ _ Hw) as Hlen. rewrite Hp in Hlen.
  apply (passes_pages 10 a A' hc' ids 0); [done|rewrite <- Hp; apply Hw|apply Hw|apply skips_none|lia|lia|].
  intros hc2 seen Hseen. apply passes_require; [|done]. apply bool_decide_eq_true_2. lia.
Qed.

Lemma KeyListDefaultsPageSize_passes `{PP : Precise} : passed testKeyListDefaultsPageSize.
Proof.
  unfold testKeyListDefaultsPageSize. start. apply passes_bind.
  apply passes_seed_keys; [done|done|lia|lia|]. intros A' hc' l Hw.
  destruct (with_keys_listing _ _ _ _ _ _ Hw) as (ids & Hp & _ & Hl).
  pose proof (wk_length _ _ _ _ _ _ Hw) as Hlen. rewrite Hp in Hlen.
  assert (Hids : Forall (assigned_id "key") ids) by (rewrite <- Hp; apply Hw).
  apply passes_bind, (call_ListKeys_page _ _ _ ids 0); [page_size|exact Hl|apply skips_none|apply Hw|]. cbv zeta.
  cbn [ListKeysOpts_PageSize]. change (effective_page_size 0) with 50%nat. intros hc1 r1 Hk1 Hn1. t_step.
  apply (f_equal length) in Hk1. rewrite length_fmap, length_take, length_drop in Hk1.
  apply passes_bind, passes_require; [apply bool_decide_eq_true_2; lia|].
  assert (Hne : HListKeysResult_NextPageToken r1 <> EmptyString).
  { rewrite Hn1. intros He. apply next_token_last in He; [lia|done|lia]. }
  apply passes_bind, passes_require; [by apply bool_decide_ne|].
  destruct (skips_next ids 0 50 _ (proj1 Hl) Hids ltac:(lia) Hn1 Hne) as [Ht _].
  apply passes_bind, (call_ListKeys_page _ _ _ ids 50); [page_size|exact Hl|exact Ht|apply Hw|]. cbv zeta.
  cbn [ListKeysOpts_PageSize]. change (effective_page_size 0) with 50%nat. intros hc2 r2 Hk2 Hn2. t_step.
  apply (f_equal length) in Hk2. rewrite length_fmap, length_take, length_drop in Hk2.
  apply passes_bind, passes_require; [apply bool_decide_eq_true_2; lia|].
  apply passes_require; [|done]. apply bool_decide_eq_true_2. rewrite Hn2. unfold next_token.
  rewrite length_drop, decide_False by lia. done.
Qed.

(** ** A token between two identifiers *)

Lemma str_compare_refl a : String.compare a a = Eq.
Proof. induction a as [|x a IH]; [done|]. cbn. by rewrite ascii_compare_spec, N.compare_refl. Qed.

Lemma str_le_app a b : str_le a (a +:+ b).
Proof.
  apply str_le_compare. induction a as [|x a IH]; [by destruct b|].
  rewrite append_String. cbn. by rewrite ascii_compare_spec, N.compare_refl.
Qed.

(** Between identifiers of the same length, what is appended does not count. *)
Lemma str_lt_app a a' b : str_lt a a' -> String.length a = String.length a' -> str_lt (a +:+ b) a'.
Proof.
  intros [Hle Hne] Hlen. apply str_le_compare in Hle. assert (Hlt : String.compare (a +:+ b) a' = Lt).
  { revert a' Hlen Hle Hne. induction a as [|x a IH]; intros [|y a'] Hlen Hle Hne; [done|done|done|].
    rewrite append_String. cbn in *. rewrite ascii_compare_spec in *.
    destruct (N.compare_spec (N_of_ascii x) (N_of_ascii y)) as [He|He|He]; [|done|done].
    apply (f_equal ascii_of_N) in He. rewrite !ascii_N_embedding in He. subst y. apply IH; [lia|done|congruence]. }
  split; [apply str_le_compare; by rewrite Hlt|]. intros He. rewrite He in Hlt.
  by rewrite str_compare_refl in Hlt.
Qed.

Lemma assigned_length kind id' : assigned_id kind id' -> String.length id' = (String.length kind + 37)%nat.
Proof. intros (u & Hu%uuid_length & ->). rewrite !append_length, Hu. cbn. lia. Qed.

(** A driver that keeps times as they are and orders identifiers as strings. *)
Lemma exact_precise : Precise (PR := {| kept_time := id; id_le := str_le |}).
Proof.
  split; cbn; [done|apply _|done|intros; apply str_le_app|].
  intros a b Ha Hb Hlt. apply str_lt_app; [done|]. by rewrite (assigned_length _ _ Ha), (assigned_length _ _ Hb).
Qed.

Lemma KeyListPageTokenCanSkipToInsertionPoint_passes `{PP : Precise} : passed testKeyListPageTokenCanSkipToInsertionPoint.
Proof.
  unfold testKeyListPageTokenCanSkipToInsertionPoint. start. apply passes_bind.
  eapply (passes_seed_ids _ _ 3 0); [by apply with_keys_start|done|lia|]. intros A' hc' l ids0 Hw Hp0. cbv zeta.
  destruct (with_keys_listing _ _ _ _ _ _ Hw) as (ids & Hp & Hss & Hl).
  assert (Hsort : sort_Strings ids0 = ids).
  { rewrite <- (sort_Strings_perm_eq _ _ Hp0), (sort_Strings_perm_eq _ _ Hp). destruct Hl as [_ [Hnd _]].
    apply (StronglySorted_unique_strong str_lt); [|by apply sort_Strings_sorted|done|by rewrite sort_Strings_perm].
    intros x y _ _ [Hxy _] [Hyx _]. by apply (anti_symm str_le). }
  rewrite Hsort. pose proof (wk_length _ _ _ _ _ _ Hw) as Hlen. rewrite Hp in Hlen.
  assert (Hids : Forall (assigned_id "key") ids) by (rewrite <- Hp; apply Hw).
  destruct ids as [|id0 [|id1 [|id2 [|]]]]; try (cbn in Hlen; lia).
  apply passes_bind, (call_ListKeys_page _ _ _ [id0; id1; id2] 1); [page_size|exact Hl| |apply Hw|].
  - apply (skips_app [id0] [id1; id2]); [apply Hl|by destruct id0|..].
    + intros id' ->%list_elem_of_singleton. apply pr_after, (proj1 (Forall_cons _ _ _) Hids).
    + apply StronglySorted_inv in Hss as [_ Hall]. rewrite Forall_forall in Hall, Hids.
      intros id' Hid. apply pr_before; [apply Hids; by left|apply Hids; by right|by apply Hall].
  - cbv zeta. cbn [ListKeysOpts_PageSize]. change (effective_page_size 10) with 10%nat. intros hc2 r Hk _. t_step.
    destruct (HListKeysResult_Keys r) as [|k0 [|k1 [|]]]; try discriminate. injection Hk as -> ->.
    apply passes_require; [|done]. by rewrite !bool_decide_eq_true_2.
Qed.
