(* ===== verification/Apikeyv1.v ===== *)
(** * Apikeyv1: the messages of the wire contract (gen/apikey/v1/apikey.pb.go)

    One record per message and one function per generated getter.  A message is
    passed by pointer, so a getter takes an [option]: on a nil receiver it answers
    the zero value of the field.  Repeated message fields are slices of pointers.
    [google.golang.org/protobuf] is not part of the repository: its [Timestamp]
    is a parameter, with the two conversions of the package and the round trip
    its documentation promises. *)

From S2P Require Import Prelude Store.

(** [timestamppb.New] and the method [AsTime] of [Timestamp]. *)
Class TimestampPb (Timestamp : Type) := {
  timestamppb_New : Time -> Timestamp;
  timestamppb_AsTime : Timestamp -> Time;
}.

(** Instants whose seconds fit the message survive the round trip. *)
Definition timestamp_range (t : Time) : Prop := int64_range (t / 10 ^ 9).

Class TimestampPbLaws (Timestamp : Type) `{TimestampPb Timestamp} := {
  timestamppb_roundtrip : forall t, timestamp_range t -> timestamppb_AsTime (timestamppb_New t) = t;
}.

Module apikeyv1.

Inductive VerifyResult : Type :=
| VERIFY_RESULT_UNSPECIFIED
| VERIFY_RESULT_VALID
| VERIFY_RESULT_NOT_FOUND
| VERIFY_RESULT_REVOKED
| VERIFY_RESULT_EXPIRED
| VERIFY_RESULT_DEPLETED
| VERIFY_RESULT_FORBIDDEN
| VERIFY_RESULT_RATE_LIMITED.

#[global] Instance VerifyResult_eq_dec : EqDecision VerifyResult.
Proof. solve_decision. Defined.

(** The wire numbers of the enum. *)
Definition VerifyResult_Number (r : VerifyResult) : Z :=
  match r with
  | VERIFY_RESULT_UNSPECIFIED => 0
  | VERIFY_RESULT_VALID => 1
  | VERIFY_RESULT_NOT_FOUND => 2
  | VERIFY_RESULT_REVOKED => 3
  | VERIFY_RESULT_EXPIRED => 4
  | VERIFY_RESULT_DEPLETED => 5
  | VERIFY_RESULT_FORBIDDEN => 6
  | VERIFY_RESULT_RATE_LIMITED => 7
  end.

Record Workspace (Timestamp : Type) : Type := mkWorkspace {
  Workspace_WorkspaceId : string;
  Workspace_Name : string;
  Workspace_OwnerPrincipalId : string;
  Workspace_CreatedAt : option Timestamp;
  Workspace_UpdatedAt : option Timestamp;
  Workspace_Metadata : metadata;
}.
Arguments mkWorkspace {Timestamp}.
Arguments Workspace_WorkspaceId {Timestamp}.
Arguments Workspace_Name {Timestamp}.
Arguments Workspace_OwnerPrincipalId {Timestamp}.
Arguments Workspace_CreatedAt {Timestamp}.
Arguments Workspace_UpdatedAt {Timestamp}.
Arguments Workspace_Metadata {Timestamp}.

Definition Workspace_GetWorkspaceId {Timestamp} (x : option (Workspace Timestamp)) : string :=
  match x with Some x => Workspace_WorkspaceId x | None => EmptyString end.
Definition Workspace_GetName {Timestamp} (x : option (Workspace Timestamp)) : string :=
  match x with Some x => Workspace_Name x | None => EmptyString end.
Definition Workspace_GetOwnerPrincipalId {Timestamp} (x : option (Workspace Timestamp)) : string :=
  match x with Some x => Workspace_OwnerPrincipalId x | None => EmptyString end.
Definition Workspace_GetCreatedAt {Timestamp} (x : option (Workspace Timestamp)) : option Timestamp :=
  match x with Some x => Workspace_CreatedAt x | None => None end.
Definition Workspace_GetUpdatedAt {Timestamp} (x : option (Workspace Timestamp)) : option Timestamp :=
  match x with Some x => Workspace_UpdatedAt x | None => None end.
Definition Workspace_GetMetadata {Timestamp} (x : option (Workspace Timestamp)) : metadata :=
  match x with Some x => Workspace_Metadata x | None => None end.

Record Api (Timestamp : Type) : Type := mkApi {
  Api_ApiId : string;
  Api_WorkspaceId : string;
  Api_Name : string;
  Api_KeyPrefix : string;
  Api_CreatedAt : option Timestamp;
  Api_UpdatedAt : option Timestamp;
  Api_Metadata : metadata;
}.
Arguments mkApi {Timestamp}.
Arguments Api_ApiId {Timestamp}.
Arguments Api_WorkspaceId {Timestamp}.
Arguments Api_Name {Timestamp}.
Arguments Api_KeyPrefix {Timestamp}.
Arguments Api_CreatedAt {Timestamp}.
Arguments Api_UpdatedAt {Timestamp}.
Arguments Api_Metadata {Timestamp}.

Definition Api_GetApiId {Timestamp} (x : option (Api Timestamp)) : string :=
  match x with Some x => Api_ApiId x | None => EmptyString end.
Definition Api_GetWorkspaceId {Timestamp} (x : option (Api Timestamp)) : string :=
  match x with Some x => Api_WorkspaceId x | None => EmptyString end.
Definition Api_GetName {Timestamp} (x : option (Api Timestamp)) : string :=
  match x with Some x => Api_Name x | None => EmptyString end.
Definition Api_GetKeyPrefix {Timestamp} (x : option (Api Timestamp)) : string :=
  match x with Some x => Api_KeyPrefix x | None => EmptyString end.
Definition Api_GetCreatedAt {Timestamp} (x : option (Api Timestamp)) : option Timestamp :=
  match x with Some x => Api_CreatedAt x | None => None end.
Definition Api_GetUpdatedAt {Timestamp} (x : option (Api Timestamp)) : option Timestamp :=
  match x with Some x => Api_UpdatedAt x | None => None end.
Definition Api_GetMetadata {Timestamp} (x : option (Api Timestamp)) : metadata :=
  match x with Some x => Api_Metadata x | None => None end.

Record LimitRef : Type := mkLimitRef {
  LimitRef_LimitId : string;
  LimitRef_ScopeKey : string;
}.

Definition LimitRef_GetLimitId (x : option LimitRef) : string :=
  match x with Some x => LimitRef_LimitId x | None => EmptyString end.
Definition LimitRef_GetScopeKey (x : option LimitRef) : string :=
  match x with Some x => LimitRef_ScopeKey x | None => EmptyString end.

Record ApiKey (Timestamp : Type) : Type := mkApiKey {
  ApiKey_KeyId : string;
  ApiKey_ApiId : string;
  ApiKey_WorkspaceId : string;
  ApiKey_OwnerPrincipalId : string;
  ApiKey_Name : string;
  ApiKey_Permissions : slice string;
  ApiKey_LimitRefs : slice (option LimitRef);
  ApiKey_ExpiresAt : option Timestamp;
  ApiKey_RemainingUses : Z;
  ApiKey_Enabled : bool;
  ApiKey_CreatedAt : option Timestamp;
  ApiKey_UpdatedAt : option Timestamp;
  ApiKey_LastVerifiedAt : option Timestamp;
  ApiKey_Metadata : metadata;
}.
Arguments mkApiKey {Timestamp}.
Arguments ApiKey_KeyId {Timestamp}.
Arguments ApiKey_ApiId {Timestamp}.
Arguments ApiKey_WorkspaceId {Timestamp}.
Arguments ApiKey_OwnerPrincipalId {Timestamp}.
Arguments ApiKey_Name {Timestamp}.
Arguments ApiKey_Permissions {Timestamp}.
Arguments ApiKey_LimitRefs {Timestamp}.
Arguments ApiKey_ExpiresAt {Timestamp}.
Arguments ApiKey_RemainingUses {Timestamp}.
Arguments ApiKey_Enabled {Timestamp}.
Arguments ApiKey_CreatedAt {Timestamp}.
Arguments ApiKey_UpdatedAt {Timestamp}.
Arguments ApiKey_LastVerifiedAt {Timestamp}.
Arguments ApiKey_Metadata {Timestamp}.

Definition ApiKey_GetKeyId {Timestamp} (x : option (ApiKey Timestamp)) : string :=
  match x with Some x => ApiKey_KeyId x | None => EmptyString end.
Definition ApiKey_GetApiId {Timestamp} (x : option (ApiKey Timestamp)) : string :=
  match x with Some x => ApiKey_ApiId x | None => EmptyString end.
Definition ApiKey_GetWorkspaceId {Timestamp} (x : option (ApiKey Timestamp)) : string :=
  match x with Some x => ApiKey_WorkspaceId x | None => EmptyString end.
Definition ApiKey_GetOwnerPrincipalId {Timestamp} (x : option (ApiKey Timestamp)) : string :=
  match x with Some x => ApiKey_OwnerPrincipalId x | None => EmptyString end.
Definition ApiKey_GetName {Timestamp} (x : option (ApiKey Timestamp)) : string :=
  match x with Some x => ApiKey_Name x | None => EmptyString end.
Definition ApiKey_GetPermissions {Timestamp} (x : option (ApiKey Timestamp)) : slice string :=
  match x with Some x => ApiKey_Permissions x | None => None end.
Definition ApiKey_GetLimitRefs {Timestamp} (x : option (ApiKey Timestamp)) : slice (option LimitRef) :=
  match x with Some x => ApiKey_LimitRefs x | None => None end.
Definition ApiKey_GetExpiresAt {Timestamp} (x : option (ApiKey Timestamp)) : option Timestamp :=
  match x with Some x => ApiKey_ExpiresAt x | None => None end.
Definition ApiKey_GetRemainingUses {Timestamp} (x : option (ApiKey Timestamp)) : Z :=
  match x with Some x => ApiKey_RemainingUses x | None => 0 end.
Definition ApiKey_GetEnabled {Timestamp} (x : option (ApiKey Timestamp)) : bool :=
  match x with Some x => ApiKey_Enabled x | None => false end.
Definition ApiKey_GetCreatedAt {Timestamp} (x : option (ApiKey Timestamp)) : option Timestamp :=
  match x with Some x => ApiKey_CreatedAt x | None => None end.
Definition ApiKey_GetUpdatedAt {Timestamp} (x : option (ApiKey Timestamp)) : option Timestamp :=
  match x with Some x => ApiKey_UpdatedAt x | None => None end.
Definition ApiKey_GetLastVerifiedAt {Timestamp} (x : option (ApiKey Timestamp)) : option Timestamp :=
  match x with Some x => ApiKey_LastVerifiedAt x | None => None end.
Definition ApiKey_GetMetadata {Timestamp} (x : option (ApiKey Timestamp)) : metadata :=
  match x with Some x => ApiKey_Metadata x | None => None end.

Record CreateWorkspaceRequest : Type := mkCreateWorkspaceRequest {
  CreateWorkspaceRequest_Name : string;
  CreateWorkspaceRequest_OwnerPrincipalId : string;
  CreateWorkspaceRequest_Metadata : metadata;
}.

Definition CreateWorkspaceRequest_GetName (x : option CreateWorkspaceRequest) : string :=
  match x with Some x => CreateWorkspaceRequest_Name x | None => EmptyString end.
Definition CreateWorkspaceRequest_GetOwnerPrincipalId (x : option CreateWorkspaceRequest) : string :=
  match x with Some x => CreateWorkspaceRequest_OwnerPrincipalId x | None => EmptyString end.
Definition CreateWorkspaceRequest_GetMetadata (x : option CreateWorkspaceRequest) : metadata :=
  match x with Some x => CreateWorkspaceRequest_Metadata x | None => None end.

Record CreateWorkspaceResponse (Timestamp : Type) : Type := mkCreateWorkspaceResponse {
  CreateWorkspaceResponse_Workspace : option (Workspace Timestamp);
}.
Arguments mkCreateWorkspaceResponse {Timestamp}.
Arguments CreateWorkspaceResponse_Workspace {Timestamp}.

Definition CreateWorkspaceResponse_GetWorkspace {Timestamp} (x : option (CreateWorkspaceResponse Timestamp)) : option (Workspace Timestamp) :=
  match x with Some x => CreateWorkspaceResponse_Workspace x | None => None end.

Record GetWorkspaceRequest : Type := mkGetWorkspaceRequest {
  GetWorkspaceRequest_WorkspaceId : string;
}.

Definition GetWorkspaceRequest_GetWorkspaceId (x : option GetWorkspaceRequest) : string :=
  match x with Some x => GetWorkspaceRequest_WorkspaceId x | None => EmptyString end.

Record GetWorkspaceResponse (Timestamp : Type) : Type := mkGetWorkspaceResponse {
  GetWorkspaceResponse_Workspace : option (Workspace Timestamp);
}.
Arguments mkGetWorkspaceResponse {Timestamp}.
Arguments GetWorkspaceResponse_Workspace {Timestamp}.

Definition GetWorkspaceResponse_GetWorkspace {Timestamp} (x : option (GetWorkspaceResponse Timestamp)) : option (Workspace Timestamp) :=
  match x with Some x => GetWorkspaceResponse_Workspace x | None => None end.

Record CreateApiRequest : Type := mkCreateApiRequest {
  CreateApiRequest_WorkspaceId : string;
  CreateApiRequest_Name : string;
  CreateApiRequest_KeyPrefix : string;
  CreateApiRequest_Metadata : metadata;
}.

Definition CreateApiRequest_GetWorkspaceId (x : option CreateApiRequest) : string :=
  match x with Some x => CreateApiRequest_WorkspaceId x | None => EmptyString end.
Definition CreateApiRequest_GetName (x : option CreateApiRequest) : string :=
  match x with Some x => CreateApiRequest_Name x | None => EmptyString end.
Definition CreateApiRequest_GetKeyPrefix (x : option CreateApiRequest) : string :=
  match x with Some x => CreateApiRequest_KeyPrefix x | None => EmptyString end.
Definition CreateApiRequest_GetMetadata (x : option CreateApiRequest) : metadata :=
  match x with Some x => CreateApiRequest_Metadata x | None => None end.

Record CreateApiResponse (Timestamp : Type) : Type := mkCreateApiResponse {
  CreateApiResponse_Api : option (Api Timestamp);
}.
Arguments mkCreateApiResponse {Timestamp}.
Arguments CreateApiResponse_Api {Timestamp}.

Definition CreateApiResponse_GetApi {Timestamp} (x : option (CreateApiResponse Timestamp)) : option (Api Timestamp) :=
  match x with Some x => CreateApiResponse_Api x | None => None end.

Record GetApiRequest : Type := mkGetApiRequest {
  GetApiRequest_ApiId : string;
}.

Definition GetApiRequest_GetApiId (x : option GetApiRequest) : string :=
  match x with Some x => GetApiRequest_ApiId x | None => EmptyString end.

Record GetApiResponse (Timestamp : Type) : Type := mkGetApiResponse {
  GetApiResponse_Api : option (Api Timestamp);
}.
Arguments mkGetApiResponse {Timestamp}.
Arguments GetApiResponse_Api {Timestamp}.

Definition GetApiResponse_GetApi {Timestamp} (x : option (GetApiResponse Timestamp)) : option (Api Timestamp) :=
  match x with Some x => GetApiResponse_Api x | None => None end.

Record CreateKeyRequest (Timestamp : Type) : Type := mkCreateKeyRequest {
  CreateKeyRequest_ApiId : string;
  CreateKeyRequest_OwnerPrincipalId : string;
  CreateKeyRequest_Name : string;
  CreateKeyRequest_Permissions : slice string;
  CreateKeyRequest_LimitRefs : slice (option LimitRef);
  CreateKeyRequest_ExpiresAt : option Timestamp;
  CreateKeyRequest_RemainingUses : Z;
  CreateKeyRequest_Metadata : metadata;
}.
Arguments mkCreateKeyRequest {Timestamp}.
Arguments CreateKeyRequest_ApiId {Timestamp}.
Arguments CreateKeyRequest_OwnerPrincipalId {Timestamp}.
Arguments CreateKeyRequest_Name {Timestamp}.
Arguments CreateKeyRequest_Permissions {Timestamp}.
Arguments CreateKeyRequest_LimitRefs {Timestamp}.
Arguments CreateKeyRequest_ExpiresAt {Timestamp}.
Arguments CreateKeyRequest_RemainingUses {Timestamp}.
Arguments CreateKeyRequest_Metadata {Timestamp}.

Definition CreateKeyRequest_GetApiId {Timestamp} (x : option (CreateKeyRequest Timestamp)) : string :=
  match x with Some x => CreateKeyRequest_ApiId x | None => EmptyString end.
Definition CreateKeyRequest_GetOwnerPrincipalId {Timestamp} (x : option (CreateKeyRequest Timestamp)) : string :=
  match x with Some x => CreateKeyRequest_OwnerPrincipalId x | None => EmptyString end.
Definition CreateKeyRequest_GetName {Timestamp} (x : option (CreateKeyRequest Timestamp)) : string :=
  match x with Some x => CreateKeyRequest_Name x | None => EmptyString end.
Definition CreateKeyRequest_GetPermissions {Timestamp} (x : option (CreateKeyRequest Timestamp)) : slice string :=
  match x with Some x => CreateKeyRequest_Permissions x | None => None end.
Definition CreateKeyRequest_GetLimitRefs {Timestamp} (x : option (CreateKeyRequest Timestamp)) : slice (option LimitRef) :=
  match x with Some x => CreateKeyRequest_LimitRefs x | None => None end.
Definition CreateKeyRequest_GetExpiresAt {Timestamp} (x : option (CreateKeyRequest Timestamp)) : option Timestamp :=
  match x with Some x => CreateKeyRequest_ExpiresAt x | None => None end.
Definition CreateKeyRequest_GetRemainingUses {Timestamp} (x : option (CreateKeyRequest Timestamp)) : Z :=
  match x with Some x => CreateKeyRequest_RemainingUses x | None => 0 end.
Definition CreateKeyRequest_GetMetadata {Timestamp} (x : option (CreateKeyRequest Timestamp)) : metadata :=
  match x with Some x => CreateKeyRequest_Metadata x | None => None end.

Record CreateKeyResponse (Timestamp : Type) : Type := mkCreateKeyResponse {
  CreateKeyResponse_Key : option (ApiKey Timestamp);
  CreateKeyResponse_Plaintext : string;
}.
Arguments mkCreateKeyResponse {Timestamp}.
Arguments CreateKeyResponse_Key {Timestamp}.
Arguments CreateKeyResponse_Plaintext {Timestamp}.

Definition CreateKeyResponse_GetKey {Timestamp} (x : option (CreateKeyResponse Timestamp)) : option (ApiKey Timestamp) :=
  match x with Some x => CreateKeyResponse_Key x | None => None end.
Definition CreateKeyResponse_GetPlaintext {Timestamp} (x : option (CreateKeyResponse Timestamp)) : string :=
  match x with Some x => CreateKeyResponse_Plaintext x | None => EmptyString end.

Record VerifyKeyRequest : Type := mkVerifyKeyRequest {
  VerifyKeyRequest_Plaintext : string;
  VerifyKeyRequest_RequiredPermissions : slice string;
  VerifyKeyRequest_Action : string;
  VerifyKeyRequest_Cost : Z;
  VerifyKeyRequest_RequestId : string;
  VerifyKeyRequest_SkipRatelimit : bool;
}.

Definition VerifyKeyRequest_GetPlaintext (x : option VerifyKeyRequest) : string :=
  match x with Some x => VerifyKeyRequest_Plaintext x | None => EmptyString end.
Definition VerifyKeyRequest_GetRequiredPermissions (x : option VerifyKeyRequest) : slice string :=
  match x with Some x => VerifyKeyRequest_RequiredPermissions x | None => None end.
Definition VerifyKeyRequest_GetAction (x : option VerifyKeyRequest) : string :=
  match x with Some x => VerifyKeyRequest_Action x | None => EmptyString end.
Definition VerifyKeyRequest_GetCost (x : option VerifyKeyRequest) : Z :=
  match x with Some x => VerifyKeyRequest_Cost x | None => 0 end.
Definition VerifyKeyRequest_GetRequestId (x : option VerifyKeyRequest) : string :=
  match x with Some x => VerifyKeyRequest_RequestId x | None => EmptyString end.
Definition VerifyKeyRequest_GetSkipRatelimit (x : option VerifyKeyRequest) : bool :=
  match x with Some x => VerifyKeyRequest_SkipRatelimit x | None => false end.

Record LimitDecision : Type := mkLimitDecision {
  LimitDecision_LimitId : string;
  LimitDecision_ScopeKey : string;
  LimitDecision_Allowed : bool;
  LimitDecision_Remaining : Z;
  LimitDecision_RetryAfterMs : Z;
}.

Definition LimitDecision_GetLimitId (x : option LimitDecision) : string :=
  match x with Some x => LimitDecision_LimitId x | None => EmptyString end.
Definition LimitDecision_GetScopeKey (x : option LimitDecision) : string :=
  match x with Some x => LimitDecision_ScopeKey x | None => EmptyString end.
Definition LimitDecision_GetAllowed (x : option LimitDecision) : bool :=
  match x with Some x => LimitDecision_Allowed x | None => false end.
Definition LimitDecision_GetRemaining (x : option LimitDecision) : Z :=
  match x with Some x => LimitDecision_Remaining x | None => 0 end.
Definition LimitDecision_GetRetryAfterMs (x : option LimitDecision) : Z :=
  match x with Some x => LimitDecision_RetryAfterMs x | None => 0 end.

Record VerifyKeyResponse : Type := mkVerifyKeyResponse {
  VerifyKeyResponse_Valid : bool;
  VerifyKeyResponse_Result : VerifyResult;
  VerifyKeyResponse_KeyId : string;
  VerifyKeyResponse_ApiId : string;
  VerifyKeyResponse_WorkspaceId : string;
  VerifyKeyResponse_OwnerPrincipalId : string;
  VerifyKeyResponse_Permissions : slice string;
  VerifyKeyResponse_LimitDecisions : slice (option LimitDecision);
}.

Definition VerifyKeyResponse_GetValid (x : option VerifyKeyResponse) : bool :=
  match x with Some x => VerifyKeyResponse_Valid x | None => false end.
Definition VerifyKeyResponse_GetResult (x : option VerifyKeyResponse) : VerifyResult :=
  match x with Some x => VerifyKeyResponse_Result x | None => VERIFY_RESULT_UNSPECIFIED end.
Definition VerifyKeyResponse_GetKeyId (x : option VerifyKeyResponse) : string :=
  match x with Some x => VerifyKeyResponse_KeyId x | None => EmptyString end.
Definition VerifyKeyResponse_GetApiId (x : option VerifyKeyResponse) : string :=
  match x with Some x => VerifyKeyResponse_ApiId x | None => EmptyString end.
Definition VerifyKeyResponse_GetWorkspaceId (x : option VerifyKeyResponse) : string :=
  match x with Some x => VerifyKeyResponse_WorkspaceId x | None => EmptyString end.
Definition VerifyKeyResponse_GetOwnerPrincipalId (x : option VerifyKeyResponse) : string :=
  match x with Some x => VerifyKeyResponse_OwnerPrincipalId x | None => EmptyString end.
Definition VerifyKeyResponse_GetPermissions (x : option VerifyKeyResponse) : slice string :=
  match x with Some x => VerifyKeyResponse_Permissions x | None => None end.
Definition VerifyKeyResponse_GetLimitDecisions (x : option VerifyKeyResponse) : slice (option LimitDecision) :=
  match x with Some x => VerifyKeyResponse_LimitDecisions x | None => None end.

Record RevokeKeyRequest : Type := mkRevokeKeyRequest {
  RevokeKeyRequest_KeyId : string;
}.

Definition RevokeKeyRequest_GetKeyId (x : option RevokeKeyRequest) : string :=
  match x with Some x => RevokeKeyRequest_KeyId x | None => EmptyString end.

Record RevokeKeyResponse : Type := mkRevokeKeyResponse {}.


Record RotateKeyRequest : Type := mkRotateKeyRequest {
  RotateKeyRequest_KeyId : string;
}.

Definition RotateKeyRequest_GetKeyId (x : option RotateKeyRequest) : string :=
  match x with Some x => RotateKeyRequest_KeyId x | None => EmptyString end.

Record RotateKeyResponse (Timestamp : Type) : Type := mkRotateKeyResponse {
  RotateKeyResponse_Key : option (ApiKey Timestamp);
  RotateKeyResponse_Plaintext : string;
}.
Arguments mkRotateKeyResponse {Timestamp}.
Arguments RotateKeyResponse_Key {Timestamp}.
Arguments RotateKeyResponse_Plaintext {Timestamp}.

Definition RotateKeyResponse_GetKey {Timestamp} (x : option (RotateKeyResponse Timestamp)) : option (ApiKey Timestamp) :=
  match x with Some x => RotateKeyResponse_Key x | None => None end.
Definition RotateKeyResponse_GetPlaintext {Timestamp} (x : option (RotateKeyResponse Timestamp)) : string :=
  match x with Some x => RotateKeyResponse_Plaintext x | None => EmptyString end.

Record ListKeysRequest : Type := mkListKeysRequest {
  ListKeysRequest_ApiId : string;
  ListKeysRequest_OwnerPrincipalId : string;
  ListKeysRequest_PageSize : Z;
  ListKeysRequest_PageToken : string;
}.

Definition ListKeysRequest_GetApiId (x : option ListKeysRequest) : string :=
  match x with Some x => ListKeysRequest_ApiId x | None => EmptyString end.
Definition ListKeysRequest_GetOwnerPrincipalId (x : option ListKeysRequest) : string :=
  match x with Some x => ListKeysRequest_OwnerPrincipalId x | None => EmptyString end.
Definition ListKeysRequest_GetPageSize (x : option ListKeysRequest) : Z :=
  match x with Some x => ListKeysRequest_PageSize x | None => 0 end.
Definition ListKeysRequest_GetPageToken (x : option ListKeysRequest) : string :=
  match x with Some x => ListKeysRequest_PageToken x | None => EmptyString end.

Record ListKeysResponse (Timestamp : Type) : Type := mkListKeysResponse {
  ListKeysResponse_Keys : slice (option (ApiKey Timestamp));
  ListKeysResponse_NextPageToken : string;
}.
Arguments mkListKeysResponse {Timestamp}.
Arguments ListKeysResponse_Keys {Timestamp}.
Arguments ListKeysResponse_NextPageToken {Timestamp}.

Definition ListKeysResponse_GetKeys {Timestamp} (x : option (ListKeysResponse Timestamp)) : slice (option (ApiKey Timestamp)) :=
  match x with Some x => ListKeysResponse_Keys x | None => None end.
Definition ListKeysResponse_GetNextPageToken {Timestamp} (x : option (ListKeysResponse Timestamp)) : string :=
  match x with Some x => ListKeysResponse_NextPageToken x | None => EmptyString end.

Record GetKeyRequest : Type := mkGetKeyRequest {
  GetKeyRequest_KeyId : string;
}.

Definition GetKeyRequest_GetKeyId (x : option GetKeyRequest) : string :=
  match x with Some x => GetKeyRequest_KeyId x | None => EmptyString end.

Record GetKeyResponse (Timestamp : Type) : Type := mkGetKeyResponse {
  GetKeyResponse_Key : option (ApiKey Timestamp);
}.
Arguments mkGetKeyResponse {Timestamp}.
Arguments GetKeyResponse_Key {Timestamp}.

Definition GetKeyResponse_GetKey {Timestamp} (x : option (GetKeyResponse Timestamp)) : option (ApiKey Timestamp) :=
  match x with Some x => GetKeyResponse_Key x | None => None end.

End apikeyv1.
