(* ===== verification/Memory.v ===== *)
(** * Memory: the in-process driver (keychainserver/store/memory/memory.go)

    Each method runs under the store's single mutex, so a method is one atomic
    function from the state to the next state and the results (the file MemoryMutex
    shows this of its statements).  [Inp] is what the
    environment supplies to a call: the reading of [s.now()] and the identifier
    drawn by [uuid.NewString()].  Values are copied on the way in and out
    ([cloneKey] and its siblings), so the model keeps values, not references. *)

From S2P Require Import Prelude Effects GoSort Store StoreSpec.

Module memory.

Record Inp : Type := mkInp {
  now : Time;
  uuid : string;
}.

Record Store : Type := mkStore {
  workspaces : gmap string Workspace;
  apis : gmap string API;
  keys : gmap string Key;
  hashIndex : gmap string string;
}.

Definition New : Store := mkStore ∅ ∅ ∅ ∅.

(** [string(hash)] *)
Definition string_of (h : slice byte) : string := string_of_list_byte (elems h).

(** ** Helpers *)

Definition newID (prefix u : string) : string := prefix +:+ "_" +:+ u.

(** [maps.Clone] keeps nil and copies the entries. *)
Definition maps_Clone (m : metadata) : metadata := m.

Definition cloneWorkspace (w : Workspace) : Workspace :=
  mkWorkspace (Workspace_WorkspaceID w) (Workspace_Name w) (Workspace_OwnerPrincipalID w)
    (Workspace_CreatedAt w) (Workspace_UpdatedAt w) (maps_Clone (Workspace_Metadata w)).

Definition cloneAPI (a : API) : API :=
  mkAPI (API_APIID a) (API_WorkspaceID a) (API_Name a) (API_KeyPrefix a)
    (API_CreatedAt a) (API_UpdatedAt a) (maps_Clone (API_Metadata a)).

Definition cloneTimePtr (t : option Time) : option Time :=
  match t with
  | None => None
  | Some v => Some v
  end.

Definition cloneKey (k : Key) : Key :=
  mkKey (Key_KeyID k) (Key_APIID k) (Key_WorkspaceID k) (Key_OwnerPrincipalID k) (Key_Name k)
    (append_nil (Key_KeyHash k)) (append_nil (Key_Permissions k)) (append_nil (Key_LimitRefs k))
    (cloneTimePtr (Key_ExpiresAt k)) (Key_RemainingUses k) (Key_Enabled k)
    (Key_CreatedAt k) (Key_UpdatedAt k) (cloneTimePtr (Key_LastVerifiedAt k))
    (maps_Clone (Key_Metadata k)).

(** [s.keys[id] = k] *)
Definition put_key (id : string) (k : Key) (s : Store) : Store :=
  mkStore (workspaces s) (apis s) (<[id := k]> (keys s)) (hashIndex s).

(** ** Workspace *)

Definition CreateWorkspace (w : Workspace) (i : Inp) (s : Store) : Store * res Workspace :=
  let w := Workspace_created w (newID "ws" (uuid i)) (now i) in
  (mkStore (<[Workspace_WorkspaceID w := cloneWorkspace w]> (workspaces s))
           (apis s) (keys s) (hashIndex s),
   Ok (cloneWorkspace w)).

Definition GetWorkspace (id : string) (s : Store) : Store * res Workspace :=
  match workspaces s !! id with
  | None => (s, Err ErrNotFound)
  | Some w => (s, Ok (cloneWorkspace w))
  end.

(** ** API *)

Definition CreateAPI (a : API) (i : Inp) (s : Store) : Store * res API :=
  match workspaces s !! API_WorkspaceID a with
  | None => (s, Err (Errorf "workspace %q: %w" [API_WorkspaceID a] ErrNotFound))
  | Some _ =>
      let a := API_created a (newID "api" (uuid i)) (now i) in
      (mkStore (workspaces s) (<[API_APIID a := cloneAPI a]> (apis s)) (keys s) (hashIndex s),
       Ok (cloneAPI a))
  end.

Definition GetAPI (id : string) (s : Store) : Store * res API :=
  match apis s !! id with
  | None => (s, Err ErrNotFound)
  | Some a => (s, Ok (cloneAPI a))
  end.

(** ** Key *)

Definition CreateKey (k : Key) (i : Inp) (s : Store) : Store * res Key :=
  match apis s !! Key_APIID k with
  | None => (s, Err (Errorf "api %q: %w" [Key_APIID k] ErrNotFound))
  | Some _ =>
      let hashKey := string_of (Key_KeyHash k) in
      match hashIndex s !! hashKey with
      | Some _ => (s, Err ErrConflict)
      | None =>
          let k := cloneKey (Key_created k (newID "key" (uuid i)) (now i)) in
          (mkStore (workspaces s) (apis s) (<[Key_KeyID k := k]> (keys s))
                   (<[hashKey := Key_KeyID k]> (hashIndex s)),
           Ok (cloneKey k))
      end
  end.

Definition GetKeyByID (id : string) (s : Store) : Store * res Key :=
  match keys s !! id with
  | None => (s, Err ErrNotFound)
  | Some k => (s, Ok (cloneKey k))
  end.

(** [s.keys[id]] of a missing id is the zero [Key]. *)
Definition GetKeyByHash (hash : slice byte) (s : Store) : Store * res Key :=
  match hashIndex s !! string_of hash with
  | None => (s, Err ErrNotFound)
  | Some id => (s, Ok (cloneKey (default zeroKey (keys s !! id))))
  end.

Definition RevokeKey (id : string) (i : Inp) (s : Store) : Store * res unit :=
  match keys s !! id with
  | None => (s, Err ErrNotFound)
  | Some k =>
      if negb (Key_Enabled k) then (s, Ok tt)
      else (put_key id (Key_set_Enabled false (now i) k) s, Ok tt)
  end.

Definition RotateKey (id : string) (newHash : slice byte) (i : Inp) (s : Store) : Store * res Key :=
  match keys s !! id with
  | None => (s, Err ErrNotFound)
  | Some k =>
      let newHashKey := string_of newHash in
      let taken := match hashIndex s !! newHashKey with
                   | Some existingID => negb (bool_decide (existingID = id))
                   | None => false
                   end in
      if taken then (s, Err ErrConflict)
      else
        let k' := Key_set_KeyHash (append_nil newHash) (now i) k in
        (mkStore (workspaces s) (apis s) (<[id := k']> (keys s))
                 (<[newHashKey := id]> (delete (string_of (Key_KeyHash k)) (hashIndex s))),
         Ok (cloneKey k'))
  end.

(** [for id, k := range s.keys { ...continue...; ids = append(ids, id) }] over
    the entries of the map in some order. *)
Fixpoint matching_ids (opts : ListKeysOpts) (entries : list (string * Key)) : list string :=
  match entries with
  | [] => []
  | (id, k) :: rest =>
      if negb (bool_decide (Key_APIID k = ListKeysOpts_APIID opts)) then matching_ids opts rest
      else if negb (bool_decide (ListKeysOpts_OwnerPrincipalID opts = EmptyString)) &&
              negb (bool_decide (Key_OwnerPrincipalID k = ListKeysOpts_OwnerPrincipalID opts))
      then matching_ids opts rest
      else id :: matching_ids opts rest
  end.

(** The index of the first listed id: the first one strictly after the token. *)
Definition page_start (ids : list string) (token : string) : Z :=
  if bool_decide (token = EmptyString) then 0
  else
    let i := SearchStrings ids token in
    if bool_decide (i < length ids)%nat && bool_decide (ids !! i = Some token)
    then Z.of_nat i + 1 else Z.of_nat i.

(** [None] is a run-time panic of a slice expression or of an index. *)
Definition list_from (entries : list (string * Key)) (opts : ListKeysOpts) (s : Store)
    : option (res ListKeysResult) :=
  let ids := sort_Strings (matching_ids opts entries) in
  let start := page_start ids (ListKeysOpts_PageToken opts) in
  let pageSize := if ListKeysOpts_PageSize opts <=? 0 then 50 else ListKeysOpts_PageSize opts in
  let end_ := wrap64 (start + pageSize) in
  let end_ := if Z.of_nat (length ids) <? end_ then Z.of_nat (length ids) else end_ in
  match slice_range ids start end_ with
  | None => None
  | Some page =>
      let out := (fun id => cloneKey (default zeroKey (keys s !! id))) <$> page in
      match (if end_ <? Z.of_nat (length ids) then index ids (end_ - 1) else Some EmptyString) with
      | None => None
      | Some next => Some (Ok (mkListKeysResult out next))
      end
  end.

Definition ListKeys (opts : ListKeysOpts) (s : Store) : option (Store * res ListKeysResult) :=
  match list_from (map_to_list (keys s)) opts s with
  | None => None
  | Some r => Some (s, r)
  end.

Definition TouchLastVerified (id : string) (at_ : Time) (s : Store) : Store * res unit :=
  match keys s !! id with
  | None => (s, Err ErrNotFound)
  | Some k => (put_key id (Key_set_LastVerifiedAt at_ k) s, Ok tt)
  end.

Definition DecrementRemainingUses (id : string) (i : Inp) (s : Store) : Store * (Z * option error) :=
  match keys s !! id with
  | None => (s, (0, Some ErrNotFound))
  | Some k =>
      if Key_RemainingUses k <? 0 then (s, (-1, None))
      else if Key_RemainingUses k =? 0 then (s, (0, Some ErrDepleted))
      else
        let n := wrap64 (Key_RemainingUses k - 1) in
        (put_key id (Key_set_RemainingUses n (now i) k) s, (n, None))
  end.

(** The methods behind the interface. *)
Definition handle (X : Type) (e : StoreE X) (i : Inp) (s : Store) : option (Store * X) :=
  match e in StoreE X return option (Store * X) with
  | CreateWorkspaceE w => Some (CreateWorkspace w i s)
  | GetWorkspaceE id => Some (GetWorkspace id s)
  | CreateAPIE a => Some (CreateAPI a i s)
  | GetAPIE id => Some (GetAPI id s)
  | CreateKeyE k => Some (CreateKey k i s)
  | GetKeyByIDE id => Some (GetKeyByID id s)
  | GetKeyByHashE h => Some (GetKeyByHash h s)
  | RevokeKeyE id => Some (RevokeKey id i s)
  | RotateKeyE id h => Some (RotateKey id h i s)
  | ListKeysE opts => ListKeys opts s
  | TouchLastVerifiedE id at_ => Some (TouchLastVerified id at_ s)
  | DecrementRemainingUsesE id => Some (DecrementRemainingUses id i s)
  end.

End memory.
