(* ===== verification/MemoryProps.v ===== *)
(** * MemoryProps: the in-process driver meets the contract of the interface

    The invariant of the driver's maps, its preservation by every method, and the
    refinement of the abstract store, packaged as the instance of [StoreImpl]. *)

From S2P Require Import Prelude Effects GoSort Store StoreSpec Memory.

Import memory.

(** ** Invariant *)

(** Map keys agree with the identifiers inside the values, parents exist, and the
    hash index lists exactly the hashes of the stored keys. *)
Record inv (s : Store) : Prop := {
  inv_ws : forall id w, workspaces s !! id = Some w -> Workspace_WorkspaceID w = id;
  inv_api : forall id a, apis s !! id = Some a ->
    API_APIID a = id /\ is_Some (workspaces s !! API_WorkspaceID a);
  inv_key : forall id k, keys s !! id = Some k ->
    Key_KeyID k = id /\ is_Some (apis s !! Key_APIID k) /\ int64_range (Key_RemainingUses k);
  inv_idx : forall h id, hashIndex s !! h = Some id <->
    exists k, keys s !! id = Some k /\ string_of (Key_KeyHash k) = h;
}.

(** What a call needs of its environment: [uuid.NewString()] has drawn an
    identifier not in use (its documented behaviour) and the map has a size a Go
    map can have. *)
Definition input_ok (i : Inp) (s : Store) : Prop :=
  workspaces s !! newID "ws" (uuid i) = None /\
  apis s !! newID "api" (uuid i) = None /\
  keys s !! newID "key" (uuid i) = None /\
  Z.of_nat (size (keys s)) < 2 ^ 62.

Definition abs (s : Store) : AStore :=
  mkAStore (norm_workspace id <$> workspaces s) (norm_api id <$> apis s) (norm_key id <$> keys s).

Lemma string_of_inj h h' : string_of h = string_of h' <-> elems h = elems h'.
Proof.
  unfold string_of. split; [|by intros ->]. intros H.
  apply (f_equal list_byte_of_string) in H. by rewrite !list_byte_of_string_of_list_byte in H.
Qed.

Lemma string_of_append_nil h : string_of (append_nil h) = string_of h.
Proof. unfold string_of. by rewrite elems_append_nil. Qed.

Lemma cloneTimePtr_id t : cloneTimePtr t = t.
Proof. by destruct t. Qed.

Lemma norm_cloneKey k : norm_key id (cloneKey k) = norm_key id k.
Proof.
  unfold norm_key, cloneKey, maps_Clone. simpl.
  by rewrite !append_nil_idemp, !cloneTimePtr_id.
Qed.

Lemma cloneKey_idemp k : cloneKey (cloneKey k) = cloneKey k.
Proof. unfold cloneKey. simpl. by rewrite !append_nil_idemp, !cloneTimePtr_id. Qed.

Lemma option_fmap_id' {A} (o : option A) : id <$> o = o.
Proof. by destruct o. Qed.

#[export] Hint Rewrite string_of_append_nil norm_cloneKey cloneKey_idemp cloneTimePtr_id : kc.

(** Lookups of the abstract state. *)
Lemma abs_ws s id' : a_workspaces (abs s) !! id' = norm_workspace id <$> workspaces s !! id'.
Proof. apply lookup_fmap. Qed.
Lemma abs_apis s id' : a_apis (abs s) !! id' = norm_api id <$> apis s !! id'.
Proof. apply lookup_fmap. Qed.
Lemma abs_keys s id' : a_keys (abs s) !! id' = norm_key id <$> keys s !! id'.
Proof. apply lookup_fmap. Qed.

Lemma abs_put_key id' k s : abs (put_key id' k s) = a_put_key id' (norm_key id k) (abs s).
Proof. unfold abs, put_key, a_put_key. simpl. by rewrite fmap_insert. Qed.

Lemma same_hash_norm h k : same_hash h (norm_key id k) <-> string_of (Key_KeyHash k) = string_of h.
Proof. unfold same_hash. simpl. rewrite elems_append_nil. symmetry. apply string_of_inj. Qed.

(** The hash index decides whether a hash is free. *)
Lemma hash_free_index s h :
  inv s -> hash_free h (abs s) <-> hashIndex s !! string_of h = None.
Proof.
  intros Hi. split.
  - intros Hf. destruct (hashIndex s !! string_of h) as [id'|] eqn:Hx; [|done].
    apply (inv_idx s Hi) in Hx as (k & Hk & Hh).
    destruct (Hf id' (norm_key id k)); [by rewrite abs_keys, Hk|by apply same_hash_norm].
  - intros Hn id' k'. rewrite abs_keys. intros Hk Hs.
    apply fmap_Some in Hk as (k & Hk & ->). apply same_hash_norm in Hs.
    assert (hashIndex s !! string_of h = Some id') as Hx by (apply (inv_idx s Hi); eauto).
    congruence.
Qed.

(** A hash is the hash of at most one key. *)
Lemma hash_unique s id1 id2 k1 k2 :
  inv s -> keys s !! id1 = Some k1 -> keys s !! id2 = Some k2 ->
  string_of (Key_KeyHash k1) = string_of (Key_KeyHash k2) -> id1 = id2.
Proof.
  intros Hi H1 H2 Hh.
  assert (hashIndex s !! string_of (Key_KeyHash k1) = Some id1) by (apply (inv_idx s Hi); eauto).
  assert (hashIndex s !! string_of (Key_KeyHash k1) = Some id2).
  { rewrite Hh. apply (inv_idx s Hi); eauto. }
  congruence.
Qed.

Lemma inv_New : inv New.
Proof.
  split; unfold New; simpl; intros *; rewrite ?lookup_empty; try done.
  split; [done|]. intros (k & Hk & _). by simplify_map_eq.
Qed.

(** Replacing a key by one with the same identity, parent and hash. *)
Lemma inv_put_key s id' k k' :
  inv s -> keys s !! id' = Some k ->
  Key_KeyID k' = Key_KeyID k -> Key_APIID k' = Key_APIID k -> Key_KeyHash k' = Key_KeyHash k ->
  int64_range (Key_RemainingUses k') ->
  inv (put_key id' k' s).
Proof.
  intros Hi Hk Hid Hapi Hh Hr. destruct (inv_key s Hi id' k Hk) as (Hkid & Hka & _).
  split; simpl.
  - apply Hi.
  - apply Hi.
  - intros id2 k2. rewrite lookup_insert. case_decide; [|apply Hi].
    intros [= <-]. subst. split_and!; [done|by rewrite Hapi|done].
  - intros h id2. rewrite (inv_idx s Hi). rewrite lookup_insert. case_decide; [|done].
    subst id2. rewrite Hk.
    split; intros (k0 & [= <-] & <-); eexists; (split; [done|]); by rewrite Hh.
Qed.

#[export] Hint Resolve inv_New : kc.

(** ** Listing *)

Lemma matching_ids_filter opts entries :
  matching_ids opts entries = (filter (fun p => key_matches opts p.2) entries).*1.
Proof.
  induction entries as [|[id' k] rest IH]; simpl; [done|].
  rewrite filter_cons, IH. unfold key_matches. cbn [fst snd].
  destruct (decide (Key_APIID k = ListKeysOpts_APIID opts)) as [Ha|Ha].
  - rewrite (bool_decide_eq_true_2 _ Ha). cbn [negb].
    destruct (decide (ListKeysOpts_OwnerPrincipalID opts = EmptyString)) as [Ho|Ho];
      [rewrite (bool_decide_eq_true_2 _ Ho); cbn; rewrite decide_True by auto; done|].
    rewrite (bool_decide_eq_false_2 _ Ho). cbn [negb andb].
    destruct (decide (Key_OwnerPrincipalID k = ListKeysOpts_OwnerPrincipalID opts)) as [Hk|Hk].
    + rewrite (bool_decide_eq_true_2 _ Hk). cbn. rewrite decide_True by auto. done.
    + rewrite (bool_decide_eq_false_2 _ Hk). cbn. rewrite decide_False by tauto. done.
  - rewrite (bool_decide_eq_false_2 _ Ha). cbn [negb]. rewrite decide_False by tauto. done.
Qed.

Lemma matching_ids_elem opts (m : gmap string Key) id' :
  id' ∈ matching_ids opts (map_to_list m) <-> exists k, m !! id' = Some k /\ key_matches opts k.
Proof.
  rewrite matching_ids_filter, list_elem_of_fmap. split.
  - intros ([id2 k] & -> & Hin). apply list_elem_of_filter in Hin as [Hm Hin].
    apply elem_of_map_to_list in Hin. eauto.
  - intros (k & Hk & Hm). exists (id', k). split; [done|].
    apply list_elem_of_filter. split; [done|]. by apply elem_of_map_to_list.
Qed.

Lemma matching_ids_nodup opts (m : gmap string Key) : NoDup (matching_ids opts (map_to_list m)).
Proof.
  rewrite matching_ids_filter. pose proof (NoDup_fst_map_to_list m) as Hn.
  revert Hn. induction (map_to_list m) as [|[id' k] l IH]; simpl; [constructor|].
  intros [Hx Hn]%NoDup_cons. rewrite filter_cons. case_decide; [|auto]. simpl.
  apply NoDup_cons. split; [|auto]. intros Hin. apply Hx.
  apply list_elem_of_fmap in Hin as (y & -> & Hy). apply list_elem_of_filter in Hy as [_ Hy].
  by apply list_elem_of_fmap_2.
Qed.

Lemma matching_ids_length opts (m : gmap string Key) :
  (length (matching_ids opts (map_to_list m)) <= size m)%nat.
Proof.
  rewrite matching_ids_filter, length_fmap, <- length_map_to_list. apply length_filter.
Qed.

Lemma matching_ids_perm opts l l' :
  l ≡ₚ l' -> matching_ids opts l ≡ₚ matching_ids opts l'.
Proof. intros Hp. rewrite !matching_ids_filter. by rewrite Hp. Qed.

Lemma page_start_bounds ids token :
  StronglySorted str_lt ids -> 0 <= page_start ids token <= Z.of_nat (length ids).
Proof.
  intros Hs. unfold page_start. case_bool_decide; [lia|].
  destruct (SearchStrings_spec ids token Hs) as (? & _).
  destruct (bool_decide (SearchStrings ids token < length ids)%nat) eqn:Hd; simpl; [|lia].
  apply bool_decide_eq_true in Hd. case_bool_decide; lia.
Qed.

(** Dropping [q] ids keeps those after the token when the first [q] are at most
    the token and none of the rest is the token. *)
Lemma drop_at_token (ids : list string) token id' (p q : nat) :
  token <> EmptyString -> (p <= q)%nat ->
  (forall m y, (p <= m)%nat -> ids !! m = Some y -> str_le token y) ->
  (forall m y, (m < q)%nat -> ids !! m = Some y -> str_le y token) ->
  (forall m y, (q <= m)%nat -> ids !! m = Some y -> y <> token) ->
  id' ∈ drop q ids <-> id' ∈ ids /\ (token = EmptyString \/ str_lt token id').
Proof.
  intros Ht Hq Hhi Hbefore Hafter. rewrite !list_elem_of_lookup. split.
  - intros [m Hm]. rewrite lookup_drop in Hm. split; [eauto|]. right. split.
    + apply (Hhi (q + m)%nat); [lia|done].
    + intros ->. by apply (Hafter (q + m)%nat id'); [lia| |].
  - intros [[m Hm] [?|Hlt]]; [done|]. exists (m - q)%nat. rewrite lookup_drop.
    destruct (decide (m < q)%nat) as [Hmq|]; [|by replace (q + (m - q))%nat with m by lia].
    destruct (str_le_not_lt token id' (Hbefore m id' Hmq Hm) Hlt).
Qed.

(** The listed ids are those strictly after the token. *)
Lemma page_start_spec ids token id' :
  StronglySorted str_lt ids ->
  id' ∈ drop (Z.to_nat (page_start ids token)) ids <->
  id' ∈ ids /\ (token = EmptyString \/ str_lt token id').
Proof.
  intros Hs. unfold page_start. case_bool_decide as Ht; [rewrite drop_0; tauto|].
  destruct (SearchStrings_spec ids token Hs) as (Hlen & Hlo & Hhi).
  set (p := SearchStrings ids token) in *.
  assert (Hlo' : forall m y, (m < p)%nat -> ids !! m = Some y -> str_le y token)
    by (intros m y Hm Hy; by apply (Hlo m y)).
  destruct (bool_decide (p < length ids)%nat && bool_decide (ids !! p = Some token)) eqn:Hd.
  - apply andb_true_iff in Hd as [_ Hd]. apply bool_decide_eq_true in Hd.
    replace (Z.to_nat (Z.of_nat p + 1)) with (S p) by lia.
    apply drop_at_token with p; [done|lia|done| |].
    + intros m y Hm Hy. destruct (decide (m = p)) as [->|]; [by simplify_eq|].
      apply (Hlo' m); [lia|done].
    + intros m y Hm Hy ->.
      assert (Hlt : str_lt token token)
        by (apply (StronglySorted_lookup_lt _ ids p m); [done|lia|done|done]).
      by destruct Hlt.
  - rewrite Nat2Z.id. apply drop_at_token with p; [done|lia|done|done|].
    intros m y Hm Hy ->. apply andb_false_iff in Hd.
    assert (m = p) as ->.
    { destruct (decide (m = p)) as [|Hne]; [done|]. exfalso.
      destruct (ids !! p) as [z|] eqn:Hz; [|apply lookup_ge_None in Hz; apply lookup_lt_Some in Hy; lia].
      assert (Hzt : str_lt z token)
        by (apply (StronglySorted_lookup_lt _ ids p m); [done|lia|done|done]).
      apply (str_le_not_lt z token); [|done]. by apply (Hhi p). }
    apply lookup_lt_Some in Hy as Hl. destruct Hd as [Hd|Hd]; by apply bool_decide_eq_false in Hd.
Qed.

Lemma last_take_index {A} (l : list A) (n : nat) :
  (0 < n)%nat -> (n < length l)%nat -> last (take n l) = l !! (n - 1)%nat.
Proof.
  intros Hn Hl. rewrite last_lookup, length_take, Nat.min_l by lia.
  rewrite lookup_take. rewrite decide_True by lia. by replace (Nat.pred n) with (n - 1)%nat by lia.
Qed.

(** [ListKeys] computes a page of the sorted ids: no slice expression or index is
    out of range, and [start + pageSize] does not overflow. *)
Lemma list_from_page entries opts s :
  let ids := sort_Strings (matching_ids opts entries) in
  let n := effective_page_size (ListKeysOpts_PageSize opts) in
  let rest := drop (Z.to_nat (page_start ids (ListKeysOpts_PageToken opts))) ids in
  StronglySorted str_lt ids -> int32_range (ListKeysOpts_PageSize opts) ->
  Z.of_nat (length ids) < 2 ^ 62 ->
  list_from entries opts s =
  Some (Ok (mkListKeysResult
    ((fun id' => cloneKey (default zeroKey (keys s !! id'))) <$> take n rest) (next_token n rest))).
Proof.
  intros ids n rest Hs Hps Hlen. unfold list_from. fold ids.
  pose proof (page_start_bounds ids (ListKeysOpts_PageToken opts) Hs) as Hst.
  set (start := page_start ids (ListKeysOpts_PageToken opts)) in *.
  set (ps := if ListKeysOpts_PageSize opts <=? 0 then 50 else ListKeysOpts_PageSize opts).
  assert (Hn : 0 < ps < 2 ^ 31 /\ n = Z.to_nat ps).
  { unfold n, effective_page_size, ps. unfold int32_range in Hps.
    destruct (Z.leb_spec (ListKeysOpts_PageSize opts) 0); split; lia. }
  destruct Hn as [Hn Hn']. rewrite wrap64_id by (unfold int64_range, minInt64, maxInt64; lia).
  unfold next_token, rest. rewrite length_drop.
  destruct (Z.ltb_spec (Z.of_nat (length ids)) (start + ps)) as [Hlt|Hge].
  - unfold slice_range. rewrite decide_True by lia.
    rewrite (proj2 (Z.ltb_ge _ _)) by lia. rewrite decide_False by lia.
    do 3 f_equal. rewrite !take_ge; [done| |]; rewrite length_drop; lia.
  - unfold slice_range. rewrite decide_True by lia.
    replace (start + ps - start) with ps by lia. rewrite <- Hn'.
    destruct (Z.ltb_spec (start + ps) (Z.of_nat (length ids))) as [Hlt|Hge'].
    + rewrite decide_True by lia. unfold index. rewrite decide_True by lia.
      rewrite last_take_index by (rewrite ?length_drop; lia). rewrite lookup_drop.
      replace (Z.to_nat start + (n - 1))%nat with (Z.to_nat (start + ps - 1)) by lia.
      destruct (ids !! Z.to_nat (start + ps - 1)) eqn:He; [done|].
      apply lookup_ge_None in He. lia.
    + by rewrite decide_False by lia.
Qed.

(** Rotating a key moves its entry of the hash index. *)
Definition rotated (s : Store) (id' : string) (h : slice byte) (k k' : Key) : Store :=
  mkStore (workspaces s) (apis s) (<[id' := k']> (keys s))
    (<[string_of h := id']> (delete (string_of (Key_KeyHash k)) (hashIndex s))).

Lemma inv_rotate s id' h k t :
  inv s -> keys s !! id' = Some k ->
  (forall o, hashIndex s !! string_of h = Some o -> o = id') ->
  inv (rotated s id' h k (Key_set_KeyHash (append_nil h) t k)).
Proof.
  intros Hi Hk Hfree. destruct (inv_key s Hi id' k Hk) as (Hkid & Hka & Hkr).
  split; simpl; [apply Hi|apply Hi| |].
  - intros id2 k2. rewrite lookup_insert. case_decide; [|apply Hi]. intros [= <-]. by subst.
  - intros h2 id2. rewrite !lookup_insert.
    pose proof (string_of_append_nil h) as Hsa.
    destruct (decide (string_of h = h2)) as [<-|Hne]; destruct (decide (id' = id2)) as [<-|Hne'].
    + split; [eauto|done].
    + split; [congruence|]. intros Hex. apply (inv_idx s Hi) in Hex. by apply Hfree in Hex.
    + rewrite lookup_delete. split.
      * case_decide; [done|]. intros Hx. apply (inv_idx s Hi) in Hx as (k2 & ? & ?). congruence.
      * intros (k2 & [= <-] & Hh). simpl in Hh. congruence.
    + rewrite lookup_delete. case_decide as Hd; [|apply (inv_idx s Hi)].
      split; [done|]. intros (k2 & Hk2 & Hh). exfalso. apply Hne'.
      apply (hash_unique s id' id2 k k2); congruence.
Qed.

Lemma abs_rotate s id' h k k' :
  abs (rotated s id' h k k') = a_put_key id' (norm_key id (cloneKey k')) (abs s).
Proof. unfold abs, a_put_key. simpl. by rewrite fmap_insert, norm_cloneKey. Qed.

(** ** Each method: invariant and contract *)

Section Methods.
Variable (s : Store) (i : Inp).
Hypothesis (Hinv : inv s) (Hok : input_ok i s).

(** The shape of each method's theorem. *)
Definition meets {X} (e : StoreE X) (o : Store * X) : Prop :=
  inv o.1 /\ store_spec id str_le (eq (now i)) False e (abs s) o.2 (abs o.1).

Lemma CreateWorkspace_meets w : meets (CreateWorkspaceE w) (CreateWorkspace w i s).
Proof using Hinv Hok.
  destruct Hok as (Hfw & _ & _ & _). split; simpl.
  - split; simpl; [|intros id' a Ha|apply Hinv|apply Hinv].
    + intros id' w'. rewrite lookup_insert. case_decide as Hd; [by intros [= <-]|apply Hinv].
    + destruct (inv_api s Hinv id' a Ha) as [? ?]. split; [done|].
      rewrite lookup_insert. by case_decide.
  - exists (newID "ws" (uuid i)), (now i), (Workspace_created w (newID "ws" (uuid i)) (now i)).
    split_and!; [done|done| |done|].
    + by rewrite ?abs_ws, ?lookup_fmap, Hfw.
    + unfold abs. simpl. by rewrite fmap_insert.
Qed.

Lemma GetWorkspace_meets id' : meets (GetWorkspaceE id') (GetWorkspace id' s).
Proof using Hinv.
  unfold GetWorkspace. split; simpl; [by destruct (workspaces s !! id')|].
  unfold spec_GetWorkspace. rewrite abs_ws.
  destruct (workspaces s !! id') as [w|]; simpl; (split; [done|]).
  - by exists (cloneWorkspace w).
  - by exists ErrNotFound.
Qed.

Lemma CreateAPI_meets a : meets (CreateAPIE a) (CreateAPI a i s).
Proof using Hinv Hok.
  destruct Hok as (_ & Hfa & _ & _). unfold CreateAPI, meets, store_spec, spec_CreateAPI. rewrite abs_ws.
  destruct (workspaces s !! API_WorkspaceID a) as [w|] eqn:Hw; simpl.
  2: { split; [done|]. split; [done|]. eexists. split; [done|]. done. }
  split.
  - split; simpl; [apply Hinv| | |apply Hinv].
    + intros id' a'. rewrite lookup_insert. case_decide as Hd; [|apply Hinv].
      intros [= <-]. simpl. rewrite Hw. eauto.
    + intros id' k Hk. destruct (inv_key s Hinv id' k Hk) as (? & ? & ?).
      split_and!; [done| |done]. rewrite lookup_insert. by case_decide.
  - exists (newID "api" (uuid i)), (now i), (API_created a (newID "api" (uuid i)) (now i)).
    split_and!; [done|done| |done|].
    + by rewrite ?abs_apis, ?lookup_fmap, Hfa.
    + unfold abs. simpl. by rewrite fmap_insert.
Qed.

Lemma GetAPI_meets id' : meets (GetAPIE id') (GetAPI id' s).
Proof using Hinv.
  unfold GetAPI. split; simpl; [by destruct (apis s !! id')|].
  unfold spec_GetAPI. rewrite abs_apis.
  destruct (apis s !! id') as [a|]; simpl; (split; [done|]).
  - by exists (cloneAPI a).
  - by exists ErrNotFound.
Qed.

Lemma CreateKey_meets k :
  int64_range (Key_RemainingUses k) -> meets (CreateKeyE k) (CreateKey k i s).
Proof using Hinv Hok.
  intros Hr. destruct Hok as (_ & _ & Hfk & _). unfold CreateKey, meets, store_spec, spec_CreateKey.
  destruct (apis s !! Key_APIID k) as [a|] eqn:Ha; simpl.
  2: { split; [done|]. left. split_and!; [done|by eexists|left].
       by rewrite ?abs_apis, ?lookup_fmap, Ha. }
  destruct (hashIndex s !! string_of (Key_KeyHash k)) as [o|] eqn:Hx; simpl.
  { split; [done|]. right; left. split_and!; [done|by eexists|].
    rewrite hash_free_index by done. congruence. }
  set (k' := cloneKey (Key_created k (newID "key" (uuid i)) (now i))). split.
  - split; simpl; [apply Hinv|apply Hinv| |].
    + intros id' k2. rewrite lookup_insert. case_decide as Hd; [|apply Hinv].
      intros [= <-]. simpl. rewrite Ha. eauto.
    + intros h id'. rewrite !lookup_insert.
      pose proof (string_of_append_nil (Key_KeyHash k)) as Hsa.
      destruct (decide (string_of (Key_KeyHash k) = h)) as [<-|Hne];
        destruct (decide (newID "key" (uuid i) = id')) as [<-|Hne'].
      * split; [|done]. intros _. eauto.
      * split; [congruence|]. intros Hex. apply (inv_idx s Hinv) in Hex. congruence.
      * rewrite (inv_idx s Hinv). split.
        -- intros (k2 & Hk2 & _). congruence.
        -- intros (k2 & [= <-] & Hh). simpl in Hh. congruence.
      * apply (inv_idx s Hinv).
  - right; right. exists (newID "key" (uuid i)), (now i), (cloneKey k').
    split_and!; [done|done| | | | |].
    + rewrite ?abs_apis, ?lookup_fmap, Ha. eauto.
    + by apply hash_free_index.
    + by rewrite ?abs_keys, ?lookup_fmap, Hfk.
    + unfold key_equiv. unfold k'. by rewrite !norm_cloneKey.
    + unfold abs, a_put_key. simpl. rewrite fmap_insert. by rewrite norm_cloneKey.
Qed.

Lemma GetKeyByID_meets id' : meets (GetKeyByIDE id') (GetKeyByID id' s).
Proof using Hinv.
  unfold GetKeyByID. split; simpl; [by destruct (keys s !! id')|].
  unfold spec_GetKeyByID. rewrite abs_keys.
  destruct (keys s !! id') as [k|]; simpl; (split; [done|]).
  - exists (cloneKey k). split; [done|apply norm_cloneKey].
  - by exists ErrNotFound.
Qed.

Lemma GetKeyByHash_meets h : meets (GetKeyByHashE h) (GetKeyByHash h s).
Proof using Hinv.
  unfold GetKeyByHash, meets, store_spec, spec_GetKeyByHash.
  destruct (hashIndex s !! string_of h) as [id'|] eqn:Hx; simpl.
  - destruct (proj1 (inv_idx s Hinv _ _) Hx) as (k & Hk & Hh). rewrite Hk. simpl.
    split; [done|]. split; [done|]. right. exists id', (norm_key id k), (cloneKey k).
    split_and!; [done|by rewrite ?abs_keys, ?lookup_fmap, Hk|by apply same_hash_norm|apply norm_cloneKey].
  - split; [done|]. split; [done|]. left. split; [by eexists|]. by apply hash_free_index.
Qed.

Lemma RevokeKey_meets id' : meets (RevokeKeyE id') (RevokeKey id' i s).
Proof using Hinv.
  unfold RevokeKey, meets, store_spec, spec_RevokeKey. rewrite abs_keys.
  destruct (keys s !! id') as [k|] eqn:Hk; simpl; [|split; [done|]; split; [done|by eexists]].
  destruct (inv_key s Hinv id' k Hk) as (? & ? & ?).
  destruct (Key_Enabled k) eqn:He; simpl.
  - split; [by eapply inv_put_key|]. split; [done|]. right. split; [by left|].
    exists (now i). split; [done|]. by rewrite abs_put_key.
  - split; [done|]. split; [done|]. by left.
Qed.

Lemma rotate_answer id' h k :
  exists t k', Ok (cloneKey (Key_set_KeyHash (append_nil h) (now i) k)) = Ok (E := error) k' /\
    now i = t /\ norm_key id k' = Key_set_KeyHash (append_nil h) t (norm_key id k) /\
    abs (rotated s id' h k (Key_set_KeyHash (append_nil h) (now i) k)) =
      a_put_key id' (norm_key id k') (abs s).
Proof.
  eexists (now i), _. split_and!; [done|done| |apply abs_rotate].
  rewrite norm_cloneKey. unfold norm_key, Key_set_KeyHash. simpl. by rewrite append_nil_idemp.
Qed.

Lemma RotateKey_meets id' h : meets (RotateKeyE id' h) (RotateKey id' h i s).
Proof using Hinv.
  unfold RotateKey, meets, store_spec, spec_RotateKey. rewrite abs_keys.
  destruct (keys s !! id') as [k|] eqn:Hk; simpl; [|split; [done|]; split; [done|by eexists]].
  destruct (inv_key s Hinv id' k Hk) as (Hkid & Hka & Hkr).
  assert (Hother : forall id2, id2 <> id' -> hashIndex s !! string_of h = Some id2 <->
    exists k2, a_keys (abs s) !! id2 = Some k2 /\ same_hash h k2).
  { intros id2 Hne. rewrite (inv_idx s Hinv). rewrite abs_keys. split.
    - intros (k2 & Hk2 & Hh). exists (norm_key id k2). rewrite Hk2. by rewrite same_hash_norm.
    - intros (k2 & Hk2 & Hh). apply fmap_Some in Hk2 as (k3 & ? & ->).
      apply same_hash_norm in Hh. eauto. }
  destruct (hashIndex s !! string_of h) as [o|] eqn:Hx;
    [destruct (decide (o = id')) as [->|Hne]; [rewrite bool_decide_eq_true_2 by done|
       rewrite bool_decide_eq_false_2 by done]|]; simpl.
  - split; [apply (inv_rotate s id' h k (now i)); [done|done|congruence]|].
    right. split; [|by apply rotate_answer].
    intros id2 k2 Hne Hk2 Hh. assert (Some id' = Some id2) by (apply Hother; eauto). congruence.
  - split; [done|]. left. split_and!; [done|by eexists|].
    destruct (proj1 (Hother o Hne) eq_refl) as (k2 & ? & ?). eauto.
  - split; [apply (inv_rotate s id' h k (now i)); [done|done|congruence]|].
    right. split; [|by apply rotate_answer].
    intros id2 k2 Hne Hk2 Hh. assert (None = Some id2) by (apply Hother; eauto). congruence.
Qed.

Lemma TouchLastVerified_meets id' at_ : meets (TouchLastVerifiedE id' at_) (TouchLastVerified id' at_ s).
Proof using Hinv.
  unfold TouchLastVerified, meets, store_spec, spec_TouchLastVerified. rewrite abs_keys.
  destruct (keys s !! id') as [k|] eqn:Hk; simpl; [|split; [done|]; split; [done|by eexists]].
  destruct (inv_key s Hinv id' k Hk) as (? & ? & ?).
  split; [by eapply inv_put_key|]. split; [done|]. exact (abs_put_key _ _ _).
Qed.

Lemma DecrementRemainingUses_meets id' :
  meets (DecrementRemainingUsesE id') (DecrementRemainingUses id' i s).
Proof using Hinv.
  unfold DecrementRemainingUses, meets, store_spec, spec_DecrementRemainingUses. rewrite abs_keys.
  destruct (keys s !! id') as [k|] eqn:Hk; simpl; [|split; [done|]; split; [done|by eexists]].
  destruct (inv_key s Hinv id' k Hk) as (? & ? & Hr).
  destruct (Z.ltb_spec (Key_RemainingUses k) 0); [rewrite decide_True by lia; done|].
  rewrite decide_False by lia.
  destruct (Z.eqb_spec (Key_RemainingUses k) 0); [rewrite decide_True by lia; done|].
  rewrite decide_False by lia.
  assert (int64_range (Key_RemainingUses k - 1)) by (unfold int64_range, minInt64, maxInt64 in *; lia).
  rewrite wrap64_id by done.
  split; [by eapply inv_put_key|]. split; [done|]. exists (now i). split; [done|]. exact (abs_put_key _ _ _).
Qed.

Lemma ListKeys_meets opts :
  int32_range (ListKeysOpts_PageSize opts) ->
  exists r, ListKeys opts s = Some (s, r) /\ spec_ListKeys id str_le opts (abs s) r (abs s).
Proof using Hinv Hok.
  intros Hps. destruct Hok as (_ & _ & _ & Hsize). unfold ListKeys.
  set (ids := sort_Strings (matching_ids opts (map_to_list (keys s)))).
  assert (Hs : StronglySorted str_lt ids) by apply sort_Strings_sorted, matching_ids_nodup.
  assert (Hlen : Z.of_nat (length ids) < 2 ^ 62).
  { unfold ids. rewrite (sort_Strings_perm _). pose proof (matching_ids_length opts (keys s)). lia. }
  rewrite list_from_page by done. eexists. split; [done|]. split; [done|].
  exists (drop (Z.to_nat (page_start ids (ListKeysOpts_PageToken opts))) ids).
  eexists. split_and!; [|done|].
  - split; [by apply StronglySorted_drop|]. intros id'. rewrite page_start_spec by done.
    unfold ids. rewrite (sort_Strings_perm _), matching_ids_elem. setoid_rewrite abs_keys.
    apply and_iff_compat_r. split.
    + intros (k & Hk & Hm). exists (norm_key id k). by rewrite Hk.
    + intros (k & Hk & Hm). apply fmap_Some in Hk as (k' & ? & ->). eauto.
  - rewrite <- list_fmap_compose. apply list_fmap_ext. intros j id' Hj.
    change (Some (norm_key id (cloneKey (default zeroKey (keys s !! id')))) = a_keys (abs s) !! id').
    assert (Hin : id' ∈ ids).
    { rewrite lookup_take in Hj. case_decide; [|done].
      rewrite lookup_drop in Hj. by eapply list_elem_of_lookup_2. }
    unfold ids in Hin. rewrite (sort_Strings_perm _), matching_ids_elem in Hin.
    destruct Hin as (k & Hk & _). rewrite abs_keys, Hk. simpl. by rewrite norm_cloneKey.
Qed.
End Methods.

(** ** The instance *)

Lemma meets_refines X (e : StoreE X) i s o :
  handle X e i s = Some o -> meets s i e o ->
  exists s' x, handle X e i s = Some (s', x) /\ inv s' /\
    store_contract id str_le (eq (now i)) False False e (abs s) x (abs s').
Proof. destruct o as [s' x]. intros Hh [Hi Hs]. exists s', x. split_and!; [done..|by left]. Qed.

#[local] Hint Resolve CreateWorkspace_meets GetWorkspace_meets CreateAPI_meets GetAPI_meets
  CreateKey_meets GetKeyByID_meets GetKeyByHash_meets RevokeKey_meets RotateKey_meets
  TouchLastVerified_meets DecrementRemainingUses_meets : kc.

Lemma handle_refines X (e : StoreE X) i s :
  inv s -> input_ok i s -> event_ok e ->
  exists s' x, handle X e i s = Some (s', x) /\ inv s' /\
    store_contract id str_le (eq (now i)) False False e (abs s) x (abs s').
Proof.
  intros Hi Ho He. destruct e; cbn [event_ok] in He; destruct_and?.
  all: try (eapply meets_refines; [reflexivity|eauto with kc]; fail).
  destruct (ListKeys_meets s i Hi Ho opts He) as (r & Hr & Hs).
  exists s, r. split_and!; [done|done|by left].
Qed.

#[export] Instance memory_impl : StoreImpl Store Inp := {|
  st_handle := handle;
  st_abs := abs;
  st_inv := inv;
  st_ok := input_ok;
  st_nt := id;
  st_le := str_le;
  st_clock := fun i => eq (now i);
  st_restamps := False;
  st_faults := False;
  st_nt_idemp := fun t => eq_refl;
  st_le_partial := str_le_partial;
  st_refines := handle_refines;
|}.
