(* ===== verification/Mutex.v ===== *)
(** * Mutex: methods that hold a lock are atomic

    The goroutines of a process call the methods of an object that has one mutex: a
    method locks it, performs the statements of its body on the object and unlocks it
    when it returns.  [simulation]: however the statements of the calls interleave, the
    goroutines and the object are those of an interleaving of whole calls, each at the
    moment of its unlock.  [progress]: some goroutine can go on. *)

From S2P Require Import Prelude Effects.

Inductive MutexE : Type -> Type :=
| Lock : MutexE unit
| Unlock : MutexE unit.

(** The events of a goroutine inside the methods: its own, the mutex, the statements. *)
Abbreviation StmtE E D := (sumE E (sumE MutexE D)).

Section Mutex.
(** [C]: what a goroutine does, a call of a method or something else [E]; [D]: the statements
    of the bodies; [S]: the state of the object; [I]: the inputs of the environment. *)
Context {C E D : Sig} {I S : Type}.
(** The event is the goroutine's own, or a call with this body. *)
Variable split : forall X : Ans, C X -> E X + prog D X.
Variable e_handle : forall X : Ans, E X -> I -> option X.
Variable d_handle : forall X : Ans, D X -> I -> S -> option (S * X).

Abbreviation F := (StmtE E D).

(** [mu.Lock(); defer mu.Unlock()] around a body: [during q k] is what follows the lock. *)
Fixpoint during {X A} (q : prog D X) (k : X -> prog F A) : prog F A :=
  match q with
  | Ret x => Vis (inrE (inlE Unlock)) (fun _ => k x)
  | Vis d kd => Vis (inrE (inrE d)) (fun y => during (kd y) k)
  end.

(** The goroutine with the methods as their statements. *)
Fixpoint expand {A} (p : prog C A) : prog F A :=
  match p with
  | Ret a => Ret a
  | @Vis _ _ X e k =>
      match split X e with
      | inl e => Vis (inlE e) (fun x => expand (k x))
      | inr m => Vis (inrE (inlE Lock)) (fun _ => during m (fun x => expand (k x)))
      end
  end.

(** The object and whether the mutex is locked.  A lock waits until it is not. *)
Definition stmt_handle (X : Ans) (e : F X) (i : I) (w : S * bool) : option ((S * bool) * X) :=
  match e with
  | inlE e => match e_handle X e i with Some x => Some (w, x) | None => None end
  | inrE (inlE l) =>
      match l in MutexE X return option ((S * bool) * X) with
      | Lock => if w.2 then None else Some ((w.1, true), tt)
      | Unlock => if w.2 then Some ((w.1, false), tt) else None
      end
  | inrE (inrE d) => match d_handle X d i w.1 with Some (s', x) => Some ((s', w.2), x) | None => None end
  end.

(** A whole call; its statements have the inputs [ins]. *)
Definition call_handle (X : Ans) (e : C X) (ins : nat -> I) (s : S) : option (S * X) :=
  match split X e with
  | inl e => match e_handle X e (ins 0%nat) with Some x => Some (s, x) | None => None end
  | inr m => match run d_handle m ins 0 s with Some (s', _, x) => Some (s', x) | None => None end
  end.

(** ** What the environment keeps *)

(** The object before a step, and the input of a statement. *)
Variable w_ok : S -> Prop.
Variable d_ok : forall X : Ans, D X -> I -> S -> Prop.

Fixpoint body_ok {X} (q : prog D X) (ins : nat -> I) (n : nat) (s : S) : Prop :=
  match q with
  | Ret _ => True
  | Vis d k =>
      d_ok _ d (ins n) s /\
      match d_handle _ d (ins n) s with
      | Some (s', x) => body_ok (k x) ins (Datatypes.S n) s'
      | None => True
      end
  end.

Definition stmt_ok {A} (c : config F (S * bool) A) (ti : nat * I) : Prop :=
  w_ok (world c).1 /\
  match (pool c !! ti.1 : option (prog F A)) with
  | Some (@Vis _ _ X (inrE (inrE d)) _) => d_ok X d ti.2 (world c).1
  | _ => True
  end.

Definition call_ok {A} (c : config C S A) (ti : nat * (nat -> I)) : Prop :=
  w_ok (world c) /\
  match (pool c !! ti.1 : option (prog C A)) with
  | Some (@Vis _ _ X e _) => match split X e with inl _ => True | inr m => body_ok m ti.2 0 (world c) end
  | _ => True
  end.

(** Every step of a schedule satisfies [ok]. *)
Fixpoint all_ok {G : Sig} {J T A} (h : forall X : Ans, G X -> J -> T -> option (T * X))
    (ok : config G T A -> nat * J -> Prop) (sched : list (nat * J)) (c : config G T A) : Prop :=
  match sched with
  | [] => True
  | ti :: rest =>
      ok c ti /\
      match cstep h c ti with
      | Some c' => all_ok h ok rest c'
      | None => True
      end
  end.

(** ** The simulation *)

(** No call is under way. *)
Definition idle {A} (c : config F (S * bool) A) (c' : config C S A) : Prop :=
  pool c = expand <$> pool c' /\ world c = (world c', false).

(** The goroutine [t] is in the body of its call, with [q] left: the statements so far
    are the first [n] of the call from the object before it. *)
Definition busy {A} (past : list (nat * I)) (c : config F (S * bool) A) (c' : config C S A) : Prop :=
  exists t X (e : C X) k m q s ins n,
    pool c' !! t = Some (Vis e k) /\ split X e = inr m /\
    pool c = <[t := during q (fun x => expand (k x))]> (expand <$> pool c') /\
    world c = (s, true) /\ w_ok (world c') /\ (forall j, (t, ins j) ∈ past) /\
    (forall ins', (forall j, (j < n)%nat -> ins' j = ins j) ->
      run d_handle m ins' 0 (world c') = run d_handle q ins' n s /\
      (body_ok q ins' n s -> body_ok m ins' 0 (world c'))).

Definition simulates {A} (past : list (nat * I)) (c : config F (S * bool) A) (c' : config C S A) : Prop :=
  idle c c' \/ busy past c c'.

(** A call of the goroutine [t] answered at once. *)
Lemma cstep_call {A} (c' : config C S A) t ins X (e : C X) k s x :
  pool c' !! t = Some (Vis e k) -> call_handle X e ins (world c') = Some (s, x) ->
  cstep call_handle c' (t, ins) = Some (Config (<[t := k x]> (pool c')) s (log c' ++ [(t, Ev e x)])).
Proof. intros Hp Hh. by apply cstep_enabled. Qed.

(** A goroutine outside the methods takes a step. *)
Lemma step_outside {A} (c c1 : config F (S * bool) A) t i (p : prog C A) :
  pool c !! t = Some (expand p) -> cstep stmt_handle c (t, i) = Some c1 ->
  (exists X (e : C X) k e' x, p = Vis e k /\ split X e = inl e' /\ e_handle X e' i = Some x /\
     pool c1 = <[t := expand (k x)]> (pool c) /\ world c1 = world c) \/
  (exists X (e : C X) k m, p = Vis e k /\ split X e = inr m /\ (world c).2 = false /\
     pool c1 = <[t := during m (fun x => expand (k x))]> (pool c) /\ world c1 = ((world c).1, true)).
Proof.
  intros Hp Hs. unfold cstep in Hs. cbn [fst snd] in Hs. rewrite Hp in Hs.
  destruct p as [a|X e k]; [discriminate|]. cbn [expand] in Hs.
  destruct (split X e) as [e'|m] eqn:Hsp; cbn in Hs.
  - destruct (e_handle X e' i) as [x|] eqn:Hh; [|discriminate]. injection Hs as <-. left. by exists X, e, k, e', x.
  - destruct (world c).2 eqn:Hw; [discriminate|]. injection Hs as <-. right. by exists X, e, k, m.
Qed.

(** The goroutine in a method takes a step. *)
Lemma step_inside {A X} (c c1 : config F (S * bool) A) t i (q : prog D X) k s :
  pool c !! t = Some (during q k) -> world c = (s, true) -> cstep stmt_handle c (t, i) = Some c1 ->
  match q with
  | Ret x => pool c1 = <[t := k x]> (pool c) /\ world c1 = (s, false)
  | Vis d kd => exists s' y, d_handle _ d i s = Some (s', y) /\
      pool c1 = <[t := during (kd y) k]> (pool c) /\ world c1 = (s', true)
  end.
Proof.
  intros Hp Hw Hs. unfold cstep in Hs. cbn [fst snd] in Hs. rewrite Hp, Hw in Hs.
  destruct q as [x|Y d kd]; cbn in Hs; [by injection Hs as <-|].
  destruct (d_handle Y d i s) as [[s' y]|] eqn:Hh; [|discriminate]. injection Hs as <-. eauto.
Qed.

Lemma fmap_expand_insert {A} (t : nat) (p : prog C A) (ps : list (prog C A)) :
  <[t := expand p]> (expand <$> ps) = expand <$> <[t := p]> ps.
Proof. symmetry. apply list_fmap_insert. Qed.

Lemma busy_past {A} past past' (c : config F (S * bool) A) c' :
  busy past c c' -> (forall ti, ti ∈ past -> ti ∈ past') -> busy past' c c'.
Proof.
  intros (t & X & e & k & m & q & s & ins & n & H1 & H2 & H3 & H4 & H5 & H6 & H7) Hp.
  exists t, X, e, k, m, q, s, ins, n. split_and!; auto.
Qed.

(** A step of the statements is a step of the calls, or none. *)
Lemma step_simulates {A} past (c c1 : config F (S * bool) A) (c' : config C S A) t i :
  simulates past c c' -> cstep stmt_handle c (t, i) = Some c1 -> stmt_ok c (t, i) ->
  let past1 := past ++ [(t, i)] in
  simulates past1 c1 c' \/
  exists ins c1', cstep call_handle c' (t, ins) = Some c1' /\ call_ok c' (t, ins) /\
    (forall j, (t, ins j) ∈ past1) /\ simulates past1 c1 c1'.
Proof.
  intros [[Hp Hw]|Hb] Hs [Hok Hd] past1.
  - destruct (pool c !! t) as [f|] eqn:Hf; [|unfold cstep in Hs; cbn [fst] in Hs; by rewrite Hf in Hs].
    rewrite Hp, list_lookup_fmap in Hf. destruct (pool c' !! t) as [p|] eqn:Hp'; [|done]. cbn in Hf. injection Hf as <-.
    assert (Hf : pool c !! t = Some (expand p)) by (rewrite Hp, list_lookup_fmap, Hp'; done).
    destruct (step_outside c c1 t i p Hf Hs) as [(X & e & k & e' & x & -> & Hsp & Hh & Hp1 & Hw1)|(X & e & k & m & -> & Hsp & Hu & Hp1 & Hw1)].
    + right. exists (fun _ => i). eexists. split; [eapply cstep_call; [done|]; unfold call_handle; by rewrite Hsp, Hh|].
      split; [|split; [intros j; set_solver|]].
      * split; [by rewrite Hw in Hok|]. cbn [fst snd]. by rewrite Hp', Hsp.
      * left. split; cbn; [by rewrite Hp1, Hp, fmap_expand_insert|by rewrite Hw1].
    + left. right. exists t, X, e, k, m, m, (world c'), (fun _ => i), 0%nat. rewrite Hw in Hok, Hw1.
      split_and!; [done|done|by rewrite Hp1, Hp|done|done|set_solver|done].
  - destruct Hb as (t0 & X & e & k & m & q & s & ins & n & H1 & H2 & H3 & H4 & H5 & H6 & H7).
    destruct (decide (t0 = t)) as [->|Hne].
    + assert (Hf : pool c !! t = Some (during q (fun x => expand (k x)))).
      { rewrite H3. apply list_lookup_insert_eq. rewrite length_fmap. by eapply lookup_lt_Some. }
      pose proof (step_inside c c1 t i q _ s Hf H4 Hs) as Hin. destruct q as [x|Y d kd].
      * right. destruct Hin as [Hp1 Hw1], (H7 ins) as [Hrun Hbok]; [done|].
        exists ins. eexists. split; [eapply cstep_call; [done|]; unfold call_handle; by rewrite H2, Hrun|].
        split_and!.
        -- split; [done|]. cbn [fst snd]. rewrite H1, H2. by apply Hbok.
        -- set_solver.
        -- left. split; cbn; [|done]. by rewrite Hp1, H3, list_insert_insert_eq, fmap_expand_insert.
      * left. right. destruct Hin as (s' & y & Hh & Hp1 & Hw1).
        exists t, X, e, k, m, (kd y), s', (fun j => if decide (j = n) then i else ins j), (Datatypes.S n).
        split_and!; [done|done|by rewrite Hp1, H3, list_insert_insert_eq|done|done|intros j; case_decide; set_solver|].
        intros ins' Hins. destruct (H7 ins') as [Hrun Hbok].
        { intros j Hj. rewrite Hins by lia. by rewrite decide_False by lia. }
        assert (Hn : ins' n = i) by (rewrite Hins by lia; by rewrite decide_True).
        rewrite Hrun. cbn [run body_ok] in *. rewrite Hn, Hh in *. split; [done|]. intros Hq. apply Hbok. split; [|done].
        cbn [fst snd] in Hd. rewrite Hf in Hd. by rewrite H4 in Hd.
    + destruct (pool c !! t) as [f|] eqn:Hf; [|unfold cstep in Hs; cbn [fst] in Hs; by rewrite Hf in Hs].
      pose proof Hf as Hf'. rewrite H3, list_lookup_insert_ne, list_lookup_fmap in Hf' by done.
      destruct (pool c' !! t) as [p|] eqn:Hp'; [|done]. cbn in Hf'. injection Hf' as <-.
      destruct (step_outside c c1 t i p Hf Hs) as [(X' & e' & k' & e2 & x & -> & Hsp & Hh & Hp1 & Hw1)|(?&?&?&?&?&?& Hu &_)];
        [|by rewrite H4 in Hu].
      right. exists (fun _ => i). eexists. split; [eapply cstep_call; [done|]; unfold call_handle; by rewrite Hsp, Hh|].
      split; [|split; [intros j; set_solver|]].
      * split; [done|]. cbn [fst snd]. by rewrite Hp', Hsp.
      * right. exists t0, X, e, k, m, q, s, ins, n. cbn.
        split_and!; [by rewrite list_lookup_insert_ne|done| |by rewrite Hw1|done|set_solver|done].
        by rewrite Hp1, H3, list_insert_insert_ne, fmap_expand_insert.
Qed.

(** Every interleaving of the statements is one of the calls. *)
Theorem simulation {A} past (c c1 : config F (S * bool) A) (c' : config C S A) sched :
  simulates past c c' -> run_schedule stmt_handle sched c = Some c1 -> all_ok stmt_handle stmt_ok sched c ->
  exists sched' c1', run_schedule call_handle sched' c' = Some c1' /\ all_ok call_handle call_ok sched' c' /\
    Forall (fun ti => forall j, (ti.1, ti.2 j) ∈ past ++ sched) sched' /\ simulates (past ++ sched) c1 c1'.
Proof.
  revert past c c'. induction sched as [|[t i] rest IH]; intros past c c' Hsim Hrun Hok; cbn in *.
  - injection Hrun as <-. exists [], c'. rewrite app_nil_r. split_and!; auto.
  - destruct (cstep stmt_handle c (t, i)) as [c2|] eqn:Hs; [|done]. destruct Hok as [Ho Hok].
    replace (past ++ (t, i) :: rest) with ((past ++ [(t, i)]) ++ rest) by (by rewrite <- app_assoc).
    destruct (step_simulates past c c2 c' t i Hsim Hs Ho) as [Hsim2|(ins & c2' & Hs' & Hcall & Hins & Hsim2)].
    + by apply (IH (past ++ [(t, i)]) c2 c').
    + destruct (IH (past ++ [(t, i)]) c2 c2' Hsim2 Hrun Hok) as (sched' & c1' & Hrun' & Hok' & Hin & Hsim').
      exists ((t, ins) :: sched'), c1'. cbn. rewrite Hs'. split_and!; [done..| |done].
      constructor; [|done]. intros j. apply elem_of_app. by left.
Qed.

Lemma simulates_start {A} (ps : list (prog C A)) s :
  simulates [] (start (expand <$> ps) (s, false)) (start ps s).
Proof. by left. Qed.

(** ** Progress *)

Definition returned {G : Sig} {A} (p : prog G A) : Prop :=
  match p with
  | Ret _ => True
  | _ => False
  end.

#[export] Instance returned_dec {G : Sig} {A} (p : prog G A) : Decision (returned p).
Proof. destruct p; [by left|by right; intros []]. Defined.

(** Every goroutine has returned, or one can take a step. *)
Theorem progress {A} past (c : config F (S * bool) A) (c' : config C S A) i :
  simulates past c c' -> (forall X (e : C X) e', split X e = inl e' -> is_Some (e_handle X e' i)) ->
  (forall t X (e : C X) k ins, pool c' !! t = Some (Vis e k) -> is_Some (call_handle X e ins (world c'))) ->
  Forall returned (pool c) \/ exists t c1, cstep stmt_handle c (t, i) = Some c1.
Proof.
  intros [[Hp Hw]|(t & X & e & k & m & q & s & ins & n & H1 & H2 & H3 & H4 & H5 & H6 & H7)] He Hm.
  - destruct (decide (Forall returned (pool c'))) as [Hr|Hr].
    { left. rewrite Hp. apply Forall_fmap. eapply Forall_impl; [exact Hr|]. by intros [a|]. }
    right. apply not_Forall_Exists, Exists_exists in Hr as (p & [t Ht]%list_elem_of_lookup_1 & Hnr); [|apply _].
    destruct p as [a|X e k]; [by destruct Hnr|].
    assert (Hf : pool c !! t = Some (expand (Vis e k))) by (by rewrite Hp, list_lookup_fmap, Ht).
    exists t. unfold cstep. cbn [fst snd]. rewrite Hf, Hw. cbn [expand].
    destruct (split X e) as [e'|m] eqn:Hsp; cbn; [|by eexists].
    destruct (He X e e' Hsp) as [x ->]. by eexists.
  - right. exists t. assert (Hf : pool c !! t = Some (during q (fun x => expand (k x)))).
    { rewrite H3. apply list_lookup_insert_eq. rewrite length_fmap. by eapply lookup_lt_Some. }
    unfold cstep. cbn [fst snd]. rewrite Hf, H4. destruct q as [x|Y d kd]; cbn; [by eexists|].
    destruct (H7 (fun j => if decide (j = n) then i else ins j)) as [Hrun _].
    { intros j Hj. by rewrite decide_False by lia. }
    destruct (Hm t X e k (fun j => if decide (j = n) then i else ins j) H1) as [o Ho].
    unfold call_handle in Ho. rewrite H2, Hrun in Ho. cbn in Ho. rewrite decide_True in Ho by done.
    destruct (d_handle Y d i s) as [[s' y]|]; [by eexists|discriminate].
Qed.
End Mutex.
