(* ===== verification/MemoryStatements.v ===== *)
(** * MemoryStatements: the in-process driver, statement by statement

    The bodies of the methods of memory.go under their mutex: every access to a map of
    the store, every reading of the clock and every identifier is an event of its own, so
    that the calls of different goroutines interleave at them (Mutex).  The bodies run
    without interruption are the methods of the file Memory. *)

From S2P Require Import Prelude Effects GoSort Store StoreSpec Memory MemoryProps Mutex.

Module statements.
Import memory.

(** ** The statements *)

Inductive MemE : Type -> Type :=
| Now : MemE Time
| NewString : MemE string
| WorkspaceAt (id : string) : MemE (option Workspace)
| SetWorkspace (id : string) (w : Workspace) : MemE unit
| APIAt (id : string) : MemE (option API)
| SetAPI (id : string) (a : API) : MemE unit
| KeyAt (id : string) : MemE (option Key)
| SetKey (id : string) (k : Key) : MemE unit
| IDAt (hash : string) : MemE (option string)
| SetID (hash id : string) : MemE unit
| DeleteID (hash : string) : MemE unit
| RangeKeys : MemE (list string)
| Panic : MemE Empty_set.

Abbreviation body := (prog MemE).

Definition panic {A} : body A := Vis Panic (fun x : Empty_set => match x with end).

(** [x] of a slice or index expression in range. *)
Definition in_range {A} (x : option A) : body A :=
  match x with
  | Some a => Ret a
  | None => panic
  end.

(** The order in which a [range] visits the keys is not specified. *)
Section Statements.
Variable order : gmap string Key -> list string.

Definition stmt (X : Type) (e : MemE X) (i : Inp) (s : Store) : option (Store * X) :=
  match e in MemE X return option (Store * X) with
  | Now => Some (s, now i)
  | NewString => Some (s, uuid i)
  | WorkspaceAt id => Some (s, workspaces s !! id)
  | SetWorkspace id w => Some (mkStore (<[id := w]> (workspaces s)) (apis s) (keys s) (hashIndex s), tt)
  | APIAt id => Some (s, apis s !! id)
  | SetAPI id a => Some (mkStore (workspaces s) (<[id := a]> (apis s)) (keys s) (hashIndex s), tt)
  | KeyAt id => Some (s, keys s !! id)
  | SetKey id k => Some (put_key id k s, tt)
  | IDAt h => Some (s, hashIndex s !! h)
  | SetID h id => Some (mkStore (workspaces s) (apis s) (keys s) (<[h := id]> (hashIndex s)), tt)
  | DeleteID h => Some (mkStore (workspaces s) (apis s) (keys s) (delete h (hashIndex s)), tt)
  | RangeKeys => Some (s, order (keys s))
  | Panic => None
  end.

(** ** The bodies *)

Definition newID (prefix : string) : body string := u ← trigger NewString; Ret (memory.newID prefix u).

Definition CreateWorkspace (w : Workspace) : body (res Workspace) :=
  now ← trigger Now;
  id ← newID "ws";
  let w := Workspace_created w id now in
  _ ← trigger (SetWorkspace id (cloneWorkspace w));
  Ret (Ok (cloneWorkspace w)).

Definition GetWorkspace (id : string) : body (res Workspace) :=
  w ← trigger (WorkspaceAt id);
  match w with
  | None => Ret (Err ErrNotFound)
  | Some w => Ret (Ok (cloneWorkspace w))
  end.

Definition CreateAPI (a : API) : body (res API) :=
  w ← trigger (WorkspaceAt (API_WorkspaceID a));
  match w with
  | None => Ret (Err (Errorf "workspace %q: %w" [API_WorkspaceID a] ErrNotFound))
  | Some _ =>
      now ← trigger Now;
      id ← newID "api";
      let a := API_created a id now in
      _ ← trigger (SetAPI id (cloneAPI a));
      Ret (Ok (cloneAPI a))
  end.

Definition GetAPI (id : string) : body (res API) :=
  a ← trigger (APIAt id);
  match a with
  | None => Ret (Err ErrNotFound)
  | Some a => Ret (Ok (cloneAPI a))
  end.

Definition CreateKey (k : Key) : body (res Key) :=
  a ← trigger (APIAt (Key_APIID k));
  match a with
  | None => Ret (Err (Errorf "api %q: %w" [Key_APIID k] ErrNotFound))
  | Some _ =>
      let hashKey := string_of (Key_KeyHash k) in
      exists_ ← trigger (IDAt hashKey);
      match exists_ with
      | Some _ => Ret (Err ErrConflict)
      | None =>
          now ← trigger Now;
          id ← newID "key";
          let k := cloneKey (Key_created k id now) in
          _ ← trigger (SetKey (Key_KeyID k) k);
          _ ← trigger (SetID hashKey (Key_KeyID k));
          Ret (Ok (cloneKey k))
      end
  end.

Definition GetKeyByID (id : string) : body (res Key) :=
  k ← trigger (KeyAt id);
  match k with
  | None => Ret (Err ErrNotFound)
  | Some k => Ret (Ok (cloneKey k))
  end.

Definition GetKeyByHash (hash : slice byte) : body (res Key) :=
  id ← trigger (IDAt (string_of hash));
  match id with
  | None => Ret (Err ErrNotFound)
  | Some id => k ← trigger (KeyAt id); Ret (Ok (cloneKey (default zeroKey k)))
  end.

Definition RevokeKey (id : string) : body (res unit) :=
  k ← trigger (KeyAt id);
  match k with
  | None => Ret (Err ErrNotFound)
  | Some k =>
      if negb (Key_Enabled k) then Ret (Ok tt)
      else
        now ← trigger Now;
        _ ← trigger (SetKey id (Key_set_Enabled false now k));
        Ret (Ok tt)
  end.

Definition RotateKey (id : string) (newHash : slice byte) : body (res Key) :=
  k ← trigger (KeyAt id);
  match k with
  | None => Ret (Err ErrNotFound)
  | Some k =>
      let newHashKey := string_of newHash in
      existing ← trigger (IDAt newHashKey);
      let taken := match existing with
                   | Some existingID => negb (bool_decide (existingID = id))
                   | None => false
                   end in
      if taken then Ret (Err ErrConflict)
      else
        _ ← trigger (DeleteID (string_of (Key_KeyHash k)));
        now ← trigger Now;
        let k := Key_set_KeyHash (append_nil newHash) now k in
        _ ← trigger (SetKey id k);
        _ ← trigger (SetID newHashKey id);
        Ret (Ok (cloneKey k))
  end.

(** The loop over the keys, with the identifiers appended so far. *)
Fixpoint matching (opts : ListKeysOpts) (visit ids : list string) : body (list string) :=
  match visit with
  | [] => Ret ids
  | id :: rest =>
      k ← trigger (KeyAt id);
      match k with
      | None => matching opts rest ids
      | Some k =>
          if negb (bool_decide (Key_APIID k = ListKeysOpts_APIID opts)) then matching opts rest ids
          else if negb (bool_decide (ListKeysOpts_OwnerPrincipalID opts = EmptyString)) &&
                  negb (bool_decide (Key_OwnerPrincipalID k = ListKeysOpts_OwnerPrincipalID opts))
          then matching opts rest ids
          else matching opts rest (ids ++ [id])
      end
  end.

(** The loop that copies the page. *)
Fixpoint copies (page : list string) (out : list Key) : body (list Key) :=
  match page with
  | [] => Ret out
  | id :: rest => k ← trigger (KeyAt id); copies rest (out ++ [cloneKey (default zeroKey k)])
  end.

Definition ListKeys (opts : ListKeysOpts) : body (res ListKeysResult) :=
  visit ← trigger RangeKeys;
  ids ← matching opts visit [];
  let ids := sort_Strings ids in
  let start := page_start ids (ListKeysOpts_PageToken opts) in
  let pageSize := if ListKeysOpts_PageSize opts <=? 0 then 50 else ListKeysOpts_PageSize opts in
  let end_ := wrap64 (start + pageSize) in
  let end_ := if Z.of_nat (length ids) <? end_ then Z.of_nat (length ids) else end_ in
  page ← in_range (slice_range ids start end_);
  out ← copies page [];
  next ← (if end_ <? Z.of_nat (length ids) then in_range (index ids (end_ - 1)) else Ret EmptyString);
  Ret (Ok (mkListKeysResult out next)).

Definition TouchLastVerified (id : string) (at_ : Time) : body (res unit) :=
  k ← trigger (KeyAt id);
  match k with
  | None => Ret (Err ErrNotFound)
  | Some k => _ ← trigger (SetKey id (Key_set_LastVerifiedAt at_ k)); Ret (Ok tt)
  end.

Definition DecrementRemainingUses (id : string) : body (Z * option error) :=
  k ← trigger (KeyAt id);
  match k with
  | None => Ret (0, Some ErrNotFound)
  | Some k =>
      if Key_RemainingUses k <? 0 then Ret (-1, None)
      else if Key_RemainingUses k =? 0 then Ret (0, Some ErrDepleted)
      else
        let n := wrap64 (Key_RemainingUses k - 1) in
        now ← trigger Now;
        _ ← trigger (SetKey id (Key_set_RemainingUses n now k));
        Ret (n, None)
  end.

Definition method (X : Type) (e : StoreE X) : body X :=
  match e in StoreE X return body X with
  | CreateWorkspaceE w => CreateWorkspace w
  | GetWorkspaceE id => GetWorkspace id
  | CreateAPIE a => CreateAPI a
  | GetAPIE id => GetAPI id
  | CreateKeyE k => CreateKey k
  | GetKeyByIDE id => GetKeyByID id
  | GetKeyByHashE h => GetKeyByHash h
  | RevokeKeyE id => RevokeKey id
  | RotateKeyE id h => RotateKey id h
  | ListKeysE opts => ListKeys opts
  | TouchLastVerifiedE id at_ => TouchLastVerified id at_
  | DecrementRemainingUsesE id => DecrementRemainingUses id
  end.
End Statements.
End statements.

(** ** The bodies are the methods *)

Section Bodies.
Variable order : gmap string Key -> list string.
Hypothesis order_perm : forall m, order m ≡ₚ (map_to_list m).*1.
Import memory statements.

Abbreviation run_body q ins s :=
  (match run (stmt order) q ins 0 s with Some (s', _, x) => Some (s', x) | None => None end).

(** The maps stay in the range of [int], and an identifier is fresh when it is drawn. *)
Definition sized (s : Store) : Prop := Z.of_nat (size (keys s)) < 2 ^ 62.

Definition drawn_fresh (X : Type) (e : MemE X) (i : Inp) (s : Store) : Prop :=
  match e with
  | NewString => workspaces s !! memory.newID "ws" (uuid i) = None /\
      apis s !! memory.newID "api" (uuid i) = None /\ keys s !! memory.newID "key" (uuid i) = None
  | _ => True
  end.

Fixpoint strip (p s : string) : string :=
  match p, s with
  | String _ p, String _ s => strip p s
  | _, _ => s
  end.

Lemma strip_append p u : strip p (p +:+ u) = u.
Proof. by induction p. Qed.

Lemma newID_free {A} (m : gmap string A) p (u : string) :
  u ∉ (set_map (D := gset string) (fun k => strip "_" (strip p k)) (dom m)) -> m !! memory.newID p u = None.
Proof.
  intros Hu. apply not_elem_of_dom. intros Hin. apply Hu. apply elem_of_map. eexists. split; [|exact Hin].
  unfold memory.newID. by rewrite !strip_append.
Qed.

(** An identifier that no map has can always be found. *)
Lemma fresh_input now s : sized s -> exists u, input_ok (mkInp now u) s.
Proof.
  intros Hs.
  set (X := set_map (D := gset string) (fun k => strip "_" (strip "ws" k)) (dom (workspaces s)) ∪
    set_map (D := gset string) (fun k => strip "_" (strip "api" k)) (dom (apis s)) ∪
    set_map (D := gset string) (fun k => strip "_" (strip "key" k)) (dom (keys s))).
  exists (fresh X). pose proof (is_fresh X) as Hf. unfold X in Hf at 2.
  rewrite !not_elem_of_union in Hf. destruct Hf as [[Hw Ha] Hk].
  split_and!; [..|done]; by apply newID_free.
Qed.

(** The input of a call comes from its statements; an identifier that it does not use
    is any. *)
Definition drawn {X} (e : StoreE X) (ins : nat -> Inp) (i : Inp) (s : Store) : Prop :=
  (exists j, now i = now (ins j)) /\
  ((exists j, uuid i = uuid (ins j)) \/ forall u, memory.handle X e (mkInp (now i) u) s = memory.handle X e i s).

Definition atomic {X} (e : StoreE X) (q : body X) : Prop :=
  forall ins s, sized s -> body_ok (stmt order) drawn_fresh q ins 0 s ->
  exists i, input_ok i s /\ drawn e ins i s /\ run_body q ins s = memory.handle X e i s.

(** A run that draws no identifier. *)
Lemma atomic_quiet {X} (e : StoreE X) q ins s :
  sized s -> (exists j, forall u, run_body q ins s = memory.handle X e (mkInp (now (ins j)) u) s) ->
  exists i, input_ok i s /\ drawn e ins i s /\ run_body q ins s = memory.handle X e i s.
Proof.
  intros Hs [j Hj]. destruct (fresh_input (now (ins j)) s Hs) as [u Hu].
  exists (mkInp (now (ins j)) u). split_and!; [done| |done]. split; [by exists j|].
  right. intros u'. by rewrite <- !Hj.
Qed.

(** A run that draws an identifier at [b] and reads the clock at [a]. *)
Lemma atomic_draws {X} (e : StoreE X) q ins s a b :
  sized s -> drawn_fresh string NewString (ins b) s ->
  run_body q ins s = memory.handle X e (mkInp (now (ins a)) (uuid (ins b))) s ->
  exists i, input_ok i s /\ drawn e ins i s /\ run_body q ins s = memory.handle X e i s.
Proof.
  intros Hs (Hw & Ha & Hk) Hrun. exists (mkInp (now (ins a)) (uuid (ins b))).
  split_and!; [by split_and!| |done]. split; [by eexists|left; by eexists].
Qed.

Lemma CreateWorkspace_atomic w : atomic (CreateWorkspaceE w) (CreateWorkspace w).
Proof.
  intros ins s Hs (_ & Hf & _). by apply (atomic_draws _ _ _ _ 0%nat 1%nat).
Qed.

Lemma CreateAPI_atomic a : atomic (CreateAPIE a) (CreateAPI a).
Proof.
  intros ins s Hs Hb. destruct (workspaces s !! API_WorkspaceID a) as [w|] eqn:Hw.
  - cbn in Hb. rewrite Hw in Hb. destruct Hb as (_ & _ & Hf & _). apply (atomic_draws _ _ _ _ 1%nat 2%nat); [done..|].
    cbn. unfold memory.CreateAPI. by rewrite Hw.
  - apply atomic_quiet; [done|]. exists 0%nat. intros u. cbn. unfold memory.CreateAPI. by rewrite Hw.
Qed.

Lemma CreateKey_atomic k : atomic (CreateKeyE k) (CreateKey k).
Proof.
  intros ins s Hs Hb. cbn in Hb. destruct (apis s !! Key_APIID k) as [a|] eqn:Ha.
  - cbn in Hb. destruct (hashIndex s !! string_of (Key_KeyHash k)) as [id|] eqn:Hh.
    + apply atomic_quiet; [done|]. exists 0%nat. intros u. cbn. unfold memory.CreateKey. by rewrite Ha, Hh; cbn; rewrite Hh.
    + destruct Hb as (_ & _ & _ & Hf & _). apply (atomic_draws _ _ _ _ 2%nat 3%nat); [done..|].
      cbn. unfold memory.CreateKey. by rewrite Ha; cbn; rewrite Hh.
  - apply atomic_quiet; [done|]. exists 0%nat. intros u. cbn. unfold memory.CreateKey. by rewrite Ha.
Qed.

Lemma GetKeyByHash_atomic h : atomic (GetKeyByHashE h) (GetKeyByHash h).
Proof.
  intros ins s Hs _. apply atomic_quiet; [done|]. exists 0%nat. intros u. cbn. unfold memory.GetKeyByHash.
  by destruct (hashIndex s !! string_of h).
Qed.

Lemma RevokeKey_atomic id : atomic (RevokeKeyE id) (RevokeKey id).
Proof.
  intros ins s Hs _. apply atomic_quiet; [done|]. exists 1%nat. intros u. cbn. unfold memory.RevokeKey.
  destruct (keys s !! id) as [k|]; [|done]. by destruct (Key_Enabled k).
Qed.

Lemma RotateKey_atomic id h : atomic (RotateKeyE id h) (RotateKey id h).
Proof.
  intros ins s Hs _. apply atomic_quiet; [done|]. exists 3%nat. intros u. cbn. unfold memory.RotateKey.
  destruct (keys s !! id) as [k|]; [|done]. cbn. by destruct (match hashIndex s !! string_of h with Some _ => _ | None => _ end).
Qed.

Lemma TouchLastVerified_atomic id t : atomic (TouchLastVerifiedE id t) (TouchLastVerified id t).
Proof.
  intros ins s Hs _. apply atomic_quiet; [done|]. exists 0%nat. intros u. cbn. unfold memory.TouchLastVerified.
  by destruct (keys s !! id) as [k|].
Qed.

Lemma DecrementRemainingUses_atomic id : atomic (DecrementRemainingUsesE id) (DecrementRemainingUses id).
Proof.
  intros ins s Hs _. apply atomic_quiet; [done|]. exists 1%nat. intros u. cbn. unfold memory.DecrementRemainingUses.
  destruct (keys s !! id) as [k|]; [|done]. destruct (Key_RemainingUses k <? 0); [done|]. by destruct (Key_RemainingUses k =? 0).
Qed.

Lemma run_copies page out ins n s :
  exists n', run (stmt order) (copies page out) ins n s =
    Some (s, n', out ++ ((fun id => cloneKey (default zeroKey (keys s !! id))) <$> page)).
Proof.
  revert out n. induction page as [|id rest IH]; intros out n; cbn; [exists n; by rewrite app_nil_r|].
  destruct (IH (out ++ [cloneKey (default zeroKey (keys s !! id))]) (Datatypes.S n)) as [n' Hn].
  exists n'. by rewrite Hn, <- app_assoc.
Qed.

Lemma run_matching opts entries ids ins n s :
  (forall id k, (id, k) ∈ entries -> keys s !! id = Some k) ->
  exists n', run (stmt order) (matching opts entries.*1 ids) ins n s = Some (s, n', ids ++ matching_ids opts entries).
Proof.
  revert ids n. induction entries as [|[id k] rest IH]; intros ids n Hin; cbn; [exists n; by rewrite app_nil_r|].
  rewrite (Hin id k) by left.
  repeat case_match; try (apply IH; set_solver).
  destruct (IH (ids ++ [id]) (Datatypes.S n)) as [n' Hn]; [set_solver|]. exists n'. by rewrite Hn, <- app_assoc.
Qed.

(** The keys visited, with their values. *)
Lemma visited s : exists entries, entries.*1 = order (keys s) /\ entries ≡ₚ map_to_list (keys s) /\
  forall id k, (id, k) ∈ entries -> keys s !! id = Some k.
Proof.
  set (f id := (id, default zeroKey (keys s !! id))). exists (f <$> order (keys s)).
  assert (Hp : f <$> order (keys s) ≡ₚ map_to_list (keys s)).
  { rewrite order_perm, <- list_fmap_compose. rewrite <- (list_fmap_id (map_to_list (keys s))) at 2.
    apply Permutation_refl'. apply list_fmap_ext. intros i [id k] Hi%list_elem_of_lookup_2%elem_of_map_to_list.
    unfold f. cbn. by rewrite Hi. }
  split_and!; [|done|].
  - rewrite <- list_fmap_compose. apply list_fmap_id.
  - intros id k. rewrite Hp. apply elem_of_map_to_list.
Qed.

Lemma in_range_run {A B} (x : option A) (f : A -> body B) ins n s :
  run (stmt order) (bind f (in_range x)) ins n s = match x with Some a => run (stmt order) (f a) ins n s | None => None end.
Proof. by destruct x. Qed.

Lemma ListKeys_run opts ins s : run_body (ListKeys opts) ins s = memory.ListKeys opts s.
Proof.
  destruct (visited s) as (entries & He & Hp & Hin). unfold ListKeys.
  unfold memory.ListKeys, list_from. cbn. rewrite <- He.
  destruct (run_matching opts entries [] ins 1 s Hin) as [n Hn].
  unfold mbind, prog_bind. rewrite run_bind, Hn. cbn [app]. rewrite <- (sort_Strings_perm_eq (matching_ids opts entries) (matching_ids opts (map_to_list (keys s))))
    by (rewrite !matching_ids_filter; by rewrite Hp).
  set (ids := sort_Strings _). set (end_ := if Z.of_nat (length ids) <? _ then _ else _).
  rewrite in_range_run. destruct (slice_range ids _ end_) as [page|]; [|done].
  rewrite run_bind. destruct (run_copies page [] ins n s) as [n' ->]. cbn [app].
  destruct (end_ <? _); [|done]. rewrite in_range_run. by destruct (index ids (end_ - 1)).
Qed.

Lemma ListKeys_atomic opts : atomic (ListKeysE opts) (ListKeys opts).
Proof.
  intros ins s Hs _. apply atomic_quiet; [done|]. exists 0%nat. intros u. by rewrite ListKeys_run.
Qed.

(** Every body, run without interruption, is its method. *)
Theorem method_atomic X (e : StoreE X) : atomic e (method X e).
Proof.
  destruct e; auto using CreateWorkspace_atomic, CreateAPI_atomic, CreateKey_atomic, GetKeyByHash_atomic,
    RevokeKey_atomic, RotateKey_atomic, ListKeys_atomic, TouchLastVerified_atomic, DecrementRemainingUses_atomic.
  - intros ins s Hs _. apply atomic_quiet; [done|]. exists 0%nat. intros u. cbn. unfold memory.GetWorkspace.
    by destruct (workspaces s !! id).
  - intros ins s Hs _. apply atomic_quiet; [done|]. exists 0%nat. intros u. cbn. unfold memory.GetAPI.
    by destruct (apis s !! id).
  - intros ins s Hs _. apply atomic_quiet; [done|]. exists 0%nat. intros u. cbn. unfold memory.GetKeyByID.
    by destruct (keys s !! id).
Qed.

(** No body panics. *)
Lemma method_total X (e : StoreE X) ins s : inv s -> sized s -> event_ok e -> is_Some (run_body (method X e) ins s).
Proof.
  intros Hi Hs He. destruct e; cbn [method].
  10: { rewrite ListKeys_run. destruct (fresh_input 0 s Hs) as [u Hu].
        destruct (ListKeys_meets s _ Hi Hu opts He) as (r & -> & _). by eexists. }
  all: cbn; repeat (match goal with |- context [match ?x with _ => _ end] => lazymatch x with run _ _ _ _ _ => fail | _ => destruct x end end; cbn); by eexists.
Qed.
End Bodies.
