(* ===== verification/HeapMemory.v ===== *)
(** * HeapMemory: the in-process driver on the heap

    The methods of memory.go as they share and copy objects: what is stored and what
    is returned are copies of their own.  [refines] states that a method, given a
    heap with the caller's part and the driver's part apart, acts as the method on
    values of the file Memory, returns objects that neither part has, and leaves the
    caller's part alone. *)

From S2P Require Import Prelude Effects GoSort Store StoreSpec Heap References Memory MemoryProps.

Module heap_memory.

Abbreviation Inp := memory.Inp.

Record Store : Type := mkStore {
  workspaces : gmap string HWorkspace;
  apis : gmap string HAPI;
  keys : gmap string HKey;
  hashIndex : gmap string string;
}.

Definition New : Store := mkStore ∅ ∅ ∅ ∅.

(** ** Copies *)

(** [append([]T(nil), s...)] *)
Definition clone_slice `{Boxed (list A)} (p : ptr (list A)) : H (ptr (list A)) :=
  s ← load p;
  match append_nil s with
  | None => mret None
  | Some l => new l
  end.

Definition maps_Clone (p : ptr (gmap string string)) : H (ptr (gmap string string)) :=
  m ← load p;
  match m with
  | None => mret None
  | Some m => new m
  end.

Definition cloneTimePtr (t : ptr Time) : H (ptr Time) :=
  v ← load t;
  match v with
  | None => mret None
  | Some v => new v
  end.

Definition cloneWorkspace (w : HWorkspace) : H HWorkspace :=
  m ← maps_Clone (HWorkspace_Metadata w);
  mret (mkHWorkspace (HWorkspace_WorkspaceID w) (HWorkspace_Name w) (HWorkspace_OwnerPrincipalID w)
    (HWorkspace_CreatedAt w) (HWorkspace_UpdatedAt w) m).

Definition cloneAPI (a : HAPI) : H HAPI :=
  m ← maps_Clone (HAPI_Metadata a);
  mret (mkHAPI (HAPI_APIID a) (HAPI_WorkspaceID a) (HAPI_Name a) (HAPI_KeyPrefix a)
    (HAPI_CreatedAt a) (HAPI_UpdatedAt a) m).

Definition cloneKey (k : HKey) : H HKey :=
  hash ← clone_slice (HKey_KeyHash k);
  permissions ← clone_slice (HKey_Permissions k);
  refs ← clone_slice (HKey_LimitRefs k);
  expires ← cloneTimePtr (HKey_ExpiresAt k);
  verified ← cloneTimePtr (HKey_LastVerifiedAt k);
  m ← maps_Clone (HKey_Metadata k);
  mret (mkHKey (HKey_KeyID k) (HKey_APIID k) (HKey_WorkspaceID k) (HKey_OwnerPrincipalID k) (HKey_Name k)
    hash permissions refs expires (HKey_RemainingUses k) (HKey_Enabled k)
    (HKey_CreatedAt k) (HKey_UpdatedAt k) verified m).

Fixpoint clone_all (ks : list HKey) : H (list HKey) :=
  match ks with
  | [] => mret []
  | k :: ks => k' ← cloneKey k; ks' ← clone_all ks; mret (k' :: ks')
  end.

(** ** Field assignments *)

Definition put_key (id : string) (k : HKey) (s : Store) : Store :=
  mkStore (workspaces s) (apis s) (<[id := k]> (keys s)) (hashIndex s).

Definition HKey_created (k : HKey) (id : string) (now : Time) : HKey :=
  mkHKey id (HKey_APIID k) (HKey_WorkspaceID k) (HKey_OwnerPrincipalID k) (HKey_Name k)
    (HKey_KeyHash k) (HKey_Permissions k) (HKey_LimitRefs k) (HKey_ExpiresAt k)
    (HKey_RemainingUses k) (HKey_Enabled k) now now (HKey_LastVerifiedAt k) (HKey_Metadata k).

(** The assignments of the methods to the copy [k] of a stored key. *)
Definition HKey_updated (k : HKey) (hash : ptr (list byte)) (uses : Z) (enabled : bool) (updated : Time)
    (verified : ptr Time) : HKey :=
  mkHKey (HKey_KeyID k) (HKey_APIID k) (HKey_WorkspaceID k) (HKey_OwnerPrincipalID k) (HKey_Name k)
    hash (HKey_Permissions k) (HKey_LimitRefs k) (HKey_ExpiresAt k) uses enabled
    (HKey_CreatedAt k) updated verified (HKey_Metadata k).

(** ** The methods *)

Definition CreateWorkspace (w : HWorkspace) (i : Inp) (s : Store) : H (Store * res HWorkspace) :=
  let w := mkHWorkspace (memory.newID "ws" (memory.uuid i)) (HWorkspace_Name w)
    (HWorkspace_OwnerPrincipalID w) (memory.now i) (memory.now i) (HWorkspace_Metadata w) in
  stored ← cloneWorkspace w;
  out ← cloneWorkspace w;
  mret (mkStore (<[HWorkspace_WorkspaceID w := stored]> (workspaces s)) (apis s) (keys s) (hashIndex s), Ok out).

Definition GetWorkspace (id : string) (s : Store) : H (Store * res HWorkspace) :=
  match workspaces s !! id with
  | None => mret (s, Err ErrNotFound)
  | Some w => out ← cloneWorkspace w; mret (s, Ok out)
  end.

Definition CreateAPI (a : HAPI) (i : Inp) (s : Store) : H (Store * res HAPI) :=
  match workspaces s !! HAPI_WorkspaceID a with
  | None => mret (s, Err (Errorf "workspace %q: %w" [HAPI_WorkspaceID a] ErrNotFound))
  | Some _ =>
      let a := mkHAPI (memory.newID "api" (memory.uuid i)) (HAPI_WorkspaceID a) (HAPI_Name a)
        (HAPI_KeyPrefix a) (memory.now i) (memory.now i) (HAPI_Metadata a) in
      stored ← cloneAPI a;
      out ← cloneAPI a;
      mret (mkStore (workspaces s) (<[HAPI_APIID a := stored]> (apis s)) (keys s) (hashIndex s), Ok out)
  end.

Definition GetAPI (id : string) (s : Store) : H (Store * res HAPI) :=
  match apis s !! id with
  | None => mret (s, Err ErrNotFound)
  | Some a => out ← cloneAPI a; mret (s, Ok out)
  end.

Definition CreateKey (k : HKey) (i : Inp) (s : Store) : H (Store * res HKey) :=
  match apis s !! HKey_APIID k with
  | None => mret (s, Err (Errorf "api %q: %w" [HKey_APIID k] ErrNotFound))
  | Some _ =>
      hash ← load (HKey_KeyHash k);
      let hashKey := memory.string_of hash in
      match hashIndex s !! hashKey with
      | Some _ => mret (s, Err ErrConflict)
      | None =>
          k ← cloneKey (HKey_created k (memory.newID "key" (memory.uuid i)) (memory.now i));
          out ← cloneKey k;
          mret (mkStore (workspaces s) (apis s) (<[HKey_KeyID k := k]> (keys s))
                  (<[hashKey := HKey_KeyID k]> (hashIndex s)), Ok out)
      end
  end.

Definition GetKeyByID (id : string) (s : Store) : H (Store * res HKey) :=
  match keys s !! id with
  | None => mret (s, Err ErrNotFound)
  | Some k => out ← cloneKey k; mret (s, Ok out)
  end.

Definition GetKeyByHash (hash : ptr (list byte)) (s : Store) : H (Store * res HKey) :=
  hash ← load hash;
  match hashIndex s !! memory.string_of hash with
  | None => mret (s, Err ErrNotFound)
  | Some id => out ← cloneKey (default zeroHKey (keys s !! id)); mret (s, Ok out)
  end.

Definition RevokeKey (id : string) (i : Inp) (s : Store) : H (Store * res unit) :=
  match keys s !! id with
  | None => mret (s, Err ErrNotFound)
  | Some k =>
      if negb (HKey_Enabled k) then mret (s, Ok tt)
      else mret (put_key id (HKey_updated k (HKey_KeyHash k) (HKey_RemainingUses k) false (memory.now i)
             (HKey_LastVerifiedAt k)) s, Ok tt)
  end.

Definition RotateKey (id : string) (newHash : ptr (list byte)) (i : Inp) (s : Store) : H (Store * res HKey) :=
  match keys s !! id with
  | None => mret (s, Err ErrNotFound)
  | Some k =>
      new_hash ← load newHash;
      let newHashKey := memory.string_of new_hash in
      let taken := match hashIndex s !! newHashKey with
                   | Some existingID => negb (bool_decide (existingID = id))
                   | None => false
                   end in
      if taken then mret (s, Err ErrConflict)
      else
        old_hash ← load (HKey_KeyHash k);
        copy ← clone_slice newHash;
        let k' := HKey_updated k copy (HKey_RemainingUses k) (HKey_Enabled k) (memory.now i) (HKey_LastVerifiedAt k) in
        out ← cloneKey k';
        mret (mkStore (workspaces s) (apis s) (<[id := k']> (keys s))
                (<[newHashKey := id]> (delete (memory.string_of old_hash) (hashIndex s))), Ok out)
  end.

Fixpoint matching_ids (opts : ListKeysOpts) (entries : list (string * HKey)) : list string :=
  match entries with
  | [] => []
  | (id, k) :: rest =>
      if negb (bool_decide (HKey_APIID k = ListKeysOpts_APIID opts)) then matching_ids opts rest
      else if negb (bool_decide (ListKeysOpts_OwnerPrincipalID opts = EmptyString)) &&
              negb (bool_decide (HKey_OwnerPrincipalID k = ListKeysOpts_OwnerPrincipalID opts))
      then matching_ids opts rest
      else id :: matching_ids opts rest
  end.

Definition ListKeys (opts : ListKeysOpts) (s : Store) : H (Store * res HListKeysResult) :=
  let ids := sort_Strings (matching_ids opts (map_to_list (keys s))) in
  let start := memory.page_start ids (ListKeysOpts_PageToken opts) in
  let pageSize := if ListKeysOpts_PageSize opts <=? 0 then 50 else ListKeysOpts_PageSize opts in
  let end_ := wrap64 (start + pageSize) in
  let end_ := if Z.of_nat (length ids) <? end_ then Z.of_nat (length ids) else end_ in
  match slice_range ids start end_ with
  | None => panic
  | Some page =>
      out ← clone_all ((fun id => default zeroHKey (keys s !! id)) <$> page);
      match (if end_ <? Z.of_nat (length ids) then index ids (end_ - 1) else Some EmptyString) with
      | None => panic
      | Some next => mret (s, Ok (mkHListKeysResult out next))
      end
  end.

(** [at] is a variable of the call, and its address is stored. *)
Definition TouchLastVerified (id : string) (at_ : Time) (s : Store) : H (Store * res unit) :=
  match keys s !! id with
  | None => mret (s, Err ErrNotFound)
  | Some k =>
      p ← new at_;
      mret (put_key id (HKey_updated k (HKey_KeyHash k) (HKey_RemainingUses k) (HKey_Enabled k)
              (HKey_UpdatedAt k) p) s, Ok tt)
  end.

Definition DecrementRemainingUses (id : string) (i : Inp) (s : Store) : H (Store * (Z * option error)) :=
  match keys s !! id with
  | None => mret (s, (0, Some ErrNotFound))
  | Some k =>
      if HKey_RemainingUses k <? 0 then mret (s, (-1, None))
      else if HKey_RemainingUses k =? 0 then mret (s, (0, Some ErrDepleted))
      else
        let n := wrap64 (HKey_RemainingUses k - 1) in
        mret (put_key id (HKey_updated k (HKey_KeyHash k) n (HKey_Enabled k) (memory.now i)
                (HKey_LastVerifiedAt k)) s, (n, None))
  end.

Definition handle (X : Type) (e : HStoreE X) (i : Inp) (s : Store) : H (Store * X) :=
  match e in HStoreE X return H (Store * X) with
  | HCreateWorkspace w => CreateWorkspace w i s
  | HGetWorkspace id => GetWorkspace id s
  | HCreateAPI a => CreateAPI a i s
  | HGetAPI id => GetAPI id s
  | HCreateKey k => CreateKey k i s
  | HGetKeyByID id => GetKeyByID id s
  | HGetKeyByHash hash => GetKeyByHash hash s
  | HRevokeKey id => RevokeKey id i s
  | HRotateKey id newHash => RotateKey id newHash i s
  | HListKeys opts => ListKeys opts s
  | HTouchLastVerified id at_ => TouchLastVerified id at_ s
  | HDecrementRemainingUses id => DecrementRemainingUses id i s
  end.
End heap_memory.
