(* ===== verification/HeapMemoryProps.v ===== *)
(** * HeapMemoryProps: the driver on the heap acts as the driver on values *)

From S2P Require Import Prelude Effects GoSort Store StoreSpec Heap References HeapSpec Memory MemoryProps HeapMemory.
Import heap_memory.

(** ** Copies *)

Lemma clone_slice_allocs `{Boxed (list A)} (p : ptr (list A)) s h :
  deref h p = Some s ->
  allocs (clone_slice p) h (fun hn p' => deref hn p' = Some (append_nil s)).
Proof.
  intros Hp. apply allocs_bind, (allocs_load _ _ _ _ Hp). rewrite (left_id_L ∅ (∪)).
  destruct (append_nil s) as [l|]; [|by apply allocs_ret].
  apply allocs_new. intros l' _. rewrite (right_id_L ∅ (∪)). apply deref_singleton.
Qed.

Lemma clone_box_allocs `{Boxed A} (p : ptr A) v h :
  deref h p = Some v ->
  allocs (o ← load p; match o with None => mret None | Some a => new a end) h (fun hn p' => deref hn p' = Some v).
Proof.
  intros Hp. apply allocs_bind, (allocs_load _ _ _ _ Hp). rewrite (left_id_L ∅ (∪)).
  destruct v as [a|]; [|by apply allocs_ret].
  apply allocs_new. intros l' _. rewrite (right_id_L ∅ (∪)). apply deref_singleton.
Qed.

(** The next computation runs in the heap so far and adds a part of its own. *)
Ltac allocs_step lem :=
  apply allocs_bind; eapply allocs_mono; [|apply lem; eapply deref_weaken; [eassumption|sub_heap]];
  let hn := fresh "hn" in let p := fresh "p" in let Hd := fresh "Hd" in let Hp := fresh "Hp" in
  intros hn p Hd Hp; cbn beta in Hp.

Lemma cloneWorkspace_allocs h w v :
  load_workspace h w = Some v ->
  allocs (cloneWorkspace w) h (fun hn w' => load_workspace hn w' = Some (memory.cloneWorkspace v)).
Proof.
  intros [Hm ->]%load_workspace_spec. unfold cloneWorkspace, maps_Clone. allocs_step @clone_box_allocs.
  apply allocs_ret. rewrite (left_id_L ∅ (∪)). by apply load_workspace_spec.
Qed.

Lemma cloneAPI_allocs h a v :
  load_api h a = Some v ->
  allocs (cloneAPI a) h (fun hn a' => load_api hn a' = Some (memory.cloneAPI v)).
Proof.
  intros [Hm ->]%load_api_spec. unfold cloneAPI, maps_Clone. allocs_step @clone_box_allocs.
  apply allocs_ret. rewrite (left_id_L ∅ (∪)). by apply load_api_spec.
Qed.

Lemma cloneKey_allocs h k v :
  load_key h k = Some v ->
  allocs (cloneKey k) h (fun hn k' => load_key hn k' = Some (memory.cloneKey v)).
Proof.
  intros []%load_key_spec. unfold cloneKey, cloneTimePtr, maps_Clone.
  do 3 allocs_step @clone_slice_allocs. do 3 allocs_step @clone_box_allocs.
  apply allocs_ret. apply load_key_spec. split; cbn; rewrite ?cloneTimePtr_id; try done.
  all: eapply deref_weaken; [eassumption|sub_heap].
Qed.

Lemma clone_all_allocs h ks vs :
  Forall2 (fun k v => load_key h k = Some v) ks vs ->
  allocs (clone_all ks) h (fun hn ks' => mapM (load_key hn) ks' = Some (memory.cloneKey <$> vs)).
Proof.
  revert h vs. induction ks as [|k ks IH]; intros h vs Hks.
  - apply Forall2_nil_inv_l in Hks as ->. by apply allocs_ret.
  - apply Forall2_cons_inv_l in Hks as (v & vs' & Hk & Hks & ->).
    apply allocs_bind. eapply allocs_mono; [|by apply cloneKey_allocs]. intros hn k' Hd Hk'.
    apply allocs_bind. eapply allocs_mono.
    2: { apply IH. eapply Forall2_impl; [exact Hks|]. intros k2 v2 Hk2. eapply load_key_weaken; [exact Hk2|sub_heap]. }
    intros hn2 ks' Hd2 Hks'. apply allocs_ret. rewrite (left_id_L ∅ (∪)). cbn beta in *.
    apply mapM_Some. constructor.
    + eapply load_key_weaken; [exact Hk'|sub_heap].
    + apply mapM_Some in Hks'. eapply Forall2_impl; [exact Hks'|].
      intros k2 v2 Hk2. eapply load_key_weaken; [exact Hk2|sub_heap].
Qed.

(** ** The store *)

(** In the heap [hs] of the driver, [s] has the values of [m]. *)
Record rep (hs : heap) (s : Store) (m : memory.Store) : Prop := {
  rep_ws : map_Forall2 (fun _ w v => load_workspace hs w = Some v) (workspaces s) (memory.workspaces m);
  rep_apis : map_Forall2 (fun _ a v => load_api hs a = Some v) (apis s) (memory.apis m);
  rep_keys : map_Forall2 (fun _ k v => load_key hs k = Some v) (keys s) (memory.keys m);
  rep_index : hashIndex s = memory.hashIndex m;
}.

Lemma rep_New : rep ∅ New memory.New.
Proof. split; [apply map_Forall2_empty..|done]. Qed.

Lemma rep_weaken hs hs' s m : rep hs s m -> hs ⊆ hs' -> rep hs' s m.
Proof.
  intros [Hw Ha Hk Hi] Hs. split; [..|done].
  - eapply map_Forall2_impl; [exact Hw|]. cbn. intros. by eapply load_workspace_weaken.
  - eapply map_Forall2_impl; [exact Ha|]. cbn. intros. by eapply load_api_weaken.
  - eapply map_Forall2_impl; [exact Hk|]. cbn. intros. by eapply load_key_weaken.
Qed.

Lemma rep_put_key hs s m id k v :
  rep hs s m -> load_key hs k = Some v -> rep hs (put_key id k s) (memory.put_key id v m).
Proof. intros [] Hk. split; [done|done| |done]. by apply map_Forall2_insert_2. Qed.

(** The entries under a name are both missing or both there. *)
Lemma Forall2_lookup {A B} (R : string -> A -> B -> Prop) (m1 : gmap string A) (m2 : gmap string B) id :
  map_Forall2 R m1 m2 ->
  (m1 !! id = None /\ m2 !! id = None) \/ (exists x y, m1 !! id = Some x /\ m2 !! id = Some y /\ R id x y).
Proof. intros Hm. specialize (Hm id). destruct Hm; [right|left]; eauto 10. Qed.

Lemma rep_key hs s m id :
  rep hs s m ->
  (keys s !! id = None /\ memory.keys m !! id = None) \/
  (exists k v, keys s !! id = Some k /\ memory.keys m !! id = Some v /\ load_key hs k = Some v).
Proof. intros Hr. apply (Forall2_lookup _ _ _ id (rep_keys _ _ _ Hr)). Qed.

(** ** The methods *)

(** [c], run where the caller has the heap [hc] and the driver [hs], panics nowhere,
    changes no object and adds objects of the caller's, with the value [out.2] of the
    answer, and objects of the driver's, with the value [out.1] of the store. *)
Definition refines {X Y} (rel : heap -> X -> Y -> Prop) (c : H (Store * X)) (hc hs : heap)
    (out : memory.Store * Y) : Prop :=
  allocs c (hc ∪ hs) (fun hn sx =>
    exists hr ho, hn = hr ∪ ho /\ hr ##ₘ ho /\ rep (ho ∪ hs) sx.1 out.1 /\ rel hr sx.2 out.2).

(** Nothing is allocated and the store is one of the same heap. *)
Lemma refines_ret {X Y} (rel : heap -> X -> Y -> Prop) hc hs s' x (out : memory.Store * Y) :
  rep hs s' out.1 -> rel ∅ x out.2 -> refines rel (mret (s', x)) hc hs out.
Proof.
  intros Hs Hx. apply allocs_ret. exists ∅, ∅. rewrite !(left_id_L ∅ (∪)).
  split_and!; [done|apply map_disjoint_empty_l|done..].
Qed.

(** An object of either part is read. *)
Lemma refines_load `{Boxed A} {X Y} (rel : heap -> X -> Y -> Prop) hc hs (p : ptr A) v f (out : memory.Store * Y) :
  deref (hc ∪ hs) p = Some v -> refines rel (f v) hc hs out -> refines rel (load p ≫= f) hc hs out.
Proof.
  intros Hp Hf. apply allocs_bind, (allocs_load _ _ _ _ Hp). rewrite (left_id_L ∅ (∪)).
  eapply allocs_mono; [|exact Hf]. intros hn sx _ Hsx. by rewrite (right_id_L ∅ (∪)).
Qed.

(** What is allocated becomes the driver's. *)
Lemma refines_own {Z X Y} (rel : heap -> X -> Y -> Prop) hc hs (c : H Z) k P (out : memory.Store * Y) :
  hc ##ₘ hs -> allocs c (hc ∪ hs) P ->
  (forall ho z, ho ##ₘ hc -> ho ##ₘ hs -> P ho z -> refines rel (k z) hc (ho ∪ hs) out) ->
  refines rel (c ≫= k) hc hs out.
Proof.
  intros Hd Hc Hk. apply allocs_bind. eapply allocs_mono; [|exact Hc]. intros ho z Hdo HP. split_disjoint.
  rewrite (assoc_L (∪)), (map_union_comm ho hc), <- (assoc_L (∪)) by done.
  eapply allocs_mono; [|by apply Hk]. intros hn sx Hdn (hr & ho' & -> & Hr & Hrep & Hx).
  exists hr, (ho' ∪ ho). split_and!; [by rewrite (assoc_L (∪))|disjoint| |done].
  by rewrite <- (assoc_L (∪)).
Qed.

(** What is allocated last is the answer, and the caller's. *)
Lemma refines_copy {X Y} (load : heap -> X -> option Y) hc hs (c : H X) s' m' v :
  rep hs s' m' -> allocs c (hc ∪ hs) (fun hr x => load hr x = Some v) ->
  refines (res_of load) (out ← c; mret (s', Ok out)) hc hs (m', Ok v).
Proof.
  intros Hs Hc. apply allocs_bind. eapply allocs_mono; [|exact Hc]. intros hr x Hd Hx.
  apply allocs_ret. rewrite (left_id_L ∅ (∪)). exists hr, ∅.
  rewrite (right_id_L ∅ (∪)), (left_id_L ∅ (∪)). split_and!; [done|apply map_disjoint_empty_r|done..].
Qed.

Section Methods.
Context (hc hs : heap) (s : Store) (m : memory.Store) (i : Inp).
Hypothesis (Hd : hc ##ₘ hs) (Hrep : rep hs s m).

Lemma GetWorkspace_refines id' :
  refines (res_of load_workspace) (GetWorkspace id' s) hc hs (memory.GetWorkspace id' m).
Proof.
  unfold GetWorkspace, memory.GetWorkspace.
  destruct (Forall2_lookup _ _ _ id' (rep_ws _ _ _ Hrep)) as [[-> ->]|(w & v & -> & -> & Hw)]; [by apply refines_ret|].
  apply refines_copy; [done|]. apply cloneWorkspace_allocs. eapply load_workspace_weaken; [exact Hw|sub_heap].
Qed.

Lemma GetAPI_refines id' : refines (res_of load_api) (GetAPI id' s) hc hs (memory.GetAPI id' m).
Proof.
  unfold GetAPI, memory.GetAPI.
  destruct (Forall2_lookup _ _ _ id' (rep_apis _ _ _ Hrep)) as [[-> ->]|(a & v & -> & -> & Ha)]; [by apply refines_ret|].
  apply refines_copy; [done|]. apply cloneAPI_allocs. eapply load_api_weaken; [exact Ha|sub_heap].
Qed.

Lemma GetKeyByID_refines id' : refines (res_of load_key) (GetKeyByID id' s) hc hs (memory.GetKeyByID id' m).
Proof.
  unfold GetKeyByID, memory.GetKeyByID.
  destruct (rep_key _ _ _ id' Hrep) as [[-> ->]|(k & v & -> & -> & Hk)]; [by apply refines_ret|].
  apply refines_copy; [done|]. apply cloneKey_allocs. eapply load_key_weaken; [exact Hk|sub_heap].
Qed.

Lemma load_zero h : load_key h zeroHKey = Some zeroKey.
Proof. done. Qed.

(** The stored key of an identifier, or the zero key. *)
Lemma rep_default id' : load_key hs (default zeroHKey (keys s !! id')) = Some (default zeroKey (memory.keys m !! id')).
Proof. by destruct (rep_key _ _ _ id' Hrep) as [[-> ->]|(k & v & -> & -> & Hk)]. Qed.

Lemma GetKeyByHash_refines p hash :
  deref hc p = Some hash ->
  refines (res_of load_key) (GetKeyByHash p s) hc hs (memory.GetKeyByHash hash m).
Proof.
  intros Hp. unfold GetKeyByHash, memory.GetKeyByHash.
  apply (refines_load _ _ _ _ hash); [eapply deref_weaken; [exact Hp|sub_heap]|].
  rewrite (rep_index _ _ _ Hrep). destruct (memory.hashIndex m !! _) as [id'|]; [|by apply refines_ret].
  apply refines_copy; [done|]. apply cloneKey_allocs. eapply load_key_weaken; [apply rep_default|sub_heap].
Qed.

Lemma CreateWorkspace_refines w v :
  load_workspace hc w = Some v ->
  refines (res_of load_workspace) (CreateWorkspace w i s) hc hs (memory.CreateWorkspace v i m).
Proof.
  intros [Hm ->]%load_workspace_spec. unfold CreateWorkspace, memory.CreateWorkspace. cbn zeta.
  set (w' := mkHWorkspace _ _ _ _ _ _). set (v' := Workspace_created _ _ _).
  assert (Hw : load_workspace hc w' = Some v') by by apply load_workspace_spec.
  eapply refines_own; [done|apply cloneWorkspace_allocs; eapply load_workspace_weaken; [exact Hw|sub_heap]|].
  intros ho stored Hd1 Hd2 Hst. cbn beta in Hst.
  apply refines_copy; [|apply cloneWorkspace_allocs; eapply load_workspace_weaken; [exact Hw|sub_heap]].
  pose proof (rep_weaken _ (ho ∪ hs) _ _ Hrep ltac:(sub_heap)) as []. split; [|done..].
  apply map_Forall2_insert_2; [|done]. eapply load_workspace_weaken; [exact Hst|sub_heap].
Qed.

Lemma CreateAPI_refines a v :
  load_api hc a = Some v ->
  refines (res_of load_api) (CreateAPI a i s) hc hs (memory.CreateAPI v i m).
Proof.
  intros [Hm ->]%load_api_spec. unfold CreateAPI, memory.CreateAPI. cbn [API_WorkspaceID].
  destruct (Forall2_lookup _ _ _ (HAPI_WorkspaceID a) (rep_ws _ _ _ Hrep)) as [[-> ->]|(w & v' & -> & -> & _)];
    [by apply refines_ret|].
  cbn zeta. set (a' := mkHAPI _ _ _ _ _ _ _). set (v2 := API_created _ _ _).
  assert (Ha : load_api hc a' = Some v2) by by apply load_api_spec.
  eapply refines_own; [done|apply cloneAPI_allocs; eapply load_api_weaken; [exact Ha|sub_heap]|].
  intros ho stored Hd1 Hd2 Hst. cbn beta in Hst.
  apply refines_copy; [|apply cloneAPI_allocs; eapply load_api_weaken; [exact Ha|sub_heap]].
  pose proof (rep_weaken _ (ho ∪ hs) _ _ Hrep ltac:(sub_heap)) as []. split; [done| |done..].
  apply map_Forall2_insert_2; [|done]. eapply load_api_weaken; [exact Hst|sub_heap].
Qed.

Lemma CreateKey_refines k v :
  load_key hc k = Some v ->
  refines (res_of load_key) (CreateKey k i s) hc hs (memory.CreateKey v i m).
Proof.
  intros Hk. pose proof (proj1 (load_key_spec _ _ _) Hk) as Hp. unfold CreateKey, memory.CreateKey.
  rewrite (kp_api _ _ _ Hp).
  destruct (Forall2_lookup _ _ _ (Key_APIID v) (rep_apis _ _ _ Hrep)) as [[-> ->]|(a & v' & -> & -> & _)];
    [by apply refines_ret|].
  apply (refines_load _ _ _ _ (Key_KeyHash v)); [eapply deref_weaken; [apply Hp|sub_heap]|]. cbn zeta.
  rewrite (rep_index _ _ _ Hrep). destruct (memory.hashIndex m !! _); [by apply refines_ret|].
  set (k' := HKey_created _ _ _). set (v2 := Key_created _ _ _).
  assert (Hk' : load_key hc k' = Some v2) by (apply load_key_spec; destruct Hp; by split).
  eapply refines_own; [done|apply cloneKey_allocs; eapply load_key_weaken; [exact Hk'|sub_heap]|].
  intros ho stored Hd1 Hd2 Hst. cbn beta in Hst.
  assert (Hst' : load_key (ho ∪ hs) stored = Some (memory.cloneKey v2)) by (eapply load_key_weaken; [exact Hst|sub_heap]).
  apply refines_copy; [|apply cloneKey_allocs; eapply load_key_weaken; [exact Hst'|sub_heap]].
  apply load_key_spec in Hst as Hid. rewrite (kp_id _ _ _ Hid).
  pose proof (rep_weaken _ (ho ∪ hs) _ _ Hrep ltac:(sub_heap)) as []. split; [done|done| |done].
  by apply map_Forall2_insert_2.
Qed.

(** The assignments of the methods, on references and on values. *)
Lemma load_updated h k v p hash uses enabled updated q verified :
  load_key h k = Some v -> deref h p = Some hash -> deref h q = Some verified ->
  load_key h (HKey_updated k p uses enabled updated q) =
    Some (mkKey (Key_KeyID v) (Key_APIID v) (Key_WorkspaceID v) (Key_OwnerPrincipalID v) (Key_Name v)
      hash (Key_Permissions v) (Key_LimitRefs v) (Key_ExpiresAt v) uses enabled
      (Key_CreatedAt v) updated verified (Key_Metadata v)).
Proof. intros []%load_key_spec Hp Hq. apply load_key_spec. by split. Qed.

Lemma RevokeKey_refines id' :
  refines (fun _ => eq) (RevokeKey id' i s) hc hs (memory.RevokeKey id' i m).
Proof.
  unfold RevokeKey, memory.RevokeKey.
  destruct (rep_key _ _ _ id' Hrep) as [[-> ->]|(k & v & -> & -> & Hk)]; [by apply refines_ret|].
  pose proof (proj1 (load_key_spec _ _ _) Hk) as Hp. rewrite (kp_enabled _ _ _ Hp), (kp_uses _ _ _ Hp).
  destruct (negb (Key_Enabled v)); apply refines_ret; try done.
  apply rep_put_key; [done|]. by apply load_updated; [|apply Hp..].
Qed.

Lemma DecrementRemainingUses_refines id' :
  refines (fun _ => eq) (DecrementRemainingUses id' i s) hc hs (memory.DecrementRemainingUses id' i m).
Proof.
  unfold DecrementRemainingUses, memory.DecrementRemainingUses.
  destruct (rep_key _ _ _ id' Hrep) as [[-> ->]|(k & v & -> & -> & Hk)]; [by apply refines_ret|].
  pose proof (proj1 (load_key_spec _ _ _) Hk) as Hp. rewrite (kp_enabled _ _ _ Hp), (kp_uses _ _ _ Hp).
  destruct (Key_RemainingUses v <? 0); [by apply refines_ret|].
  destruct (Key_RemainingUses v =? 0); [by apply refines_ret|]. cbn zeta. apply refines_ret; [|done].
  apply rep_put_key; [done|]. by apply load_updated; [|apply Hp..].
Qed.

Lemma TouchLastVerified_refines id' at_ :
  refines (fun _ => eq) (TouchLastVerified id' at_ s) hc hs (memory.TouchLastVerified id' at_ m).
Proof.
  unfold TouchLastVerified, memory.TouchLastVerified.
  destruct (rep_key _ _ _ id' Hrep) as [[-> ->]|(k & v & -> & -> & Hk)]; [by apply refines_ret|].
  pose proof (proj1 (load_key_spec _ _ _) Hk) as Hp.
  rewrite (kp_enabled _ _ _ Hp), (kp_uses _ _ _ Hp), (kp_updated _ _ _ Hp).
  eapply (refines_own _ _ _ _ _ (fun hn p => deref hn p = Some (Some at_))); [done| |].
  { apply allocs_new. intros l _. apply deref_singleton. }
  intros ho p Hd1 Hd2 Hat. apply refines_ret; [|done].
  apply rep_put_key; [eapply rep_weaken; [exact Hrep|sub_heap]|].
  apply load_updated; [eapply load_key_weaken; [exact Hk|sub_heap]|
    eapply deref_weaken; [apply Hp|sub_heap]|eapply deref_weaken; [exact Hat|sub_heap]].
Qed.

Lemma RotateKey_refines id' p hash :
  deref hc p = Some hash ->
  refines (res_of load_key) (RotateKey id' p i s) hc hs (memory.RotateKey id' hash i m).
Proof.
  intros Hnew. unfold RotateKey, memory.RotateKey.
  destruct (rep_key _ _ _ id' Hrep) as [[-> ->]|(k & v & -> & -> & Hk)]; [by apply refines_ret|].
  pose proof (proj1 (load_key_spec _ _ _) Hk) as Hp.
  rewrite (kp_enabled _ _ _ Hp), (kp_uses _ _ _ Hp), (rep_index _ _ _ Hrep).
  apply (refines_load _ _ _ _ hash); [eapply deref_weaken; [exact Hnew|sub_heap]|]. cbn zeta.
  destruct (match memory.hashIndex m !! _ with Some _ => _ | None => _ end); [by apply refines_ret|].
  apply (refines_load _ _ _ _ (Key_KeyHash v)); [eapply deref_weaken; [apply Hp|sub_heap]|].
  eapply refines_own; [done|apply clone_slice_allocs; eapply deref_weaken; [exact Hnew|sub_heap]|].
  intros ho q Hd1 Hd2 Hq. cbn beta in Hq.
  set (k' := HKey_updated _ _ _ _ _ _). set (v' := Key_set_KeyHash _ _ _).
  assert (Hk' : load_key (ho ∪ hs) k' = Some v').
  { apply load_updated; [eapply load_key_weaken; [exact Hk|sub_heap]|
      eapply deref_weaken; [exact Hq|sub_heap]|eapply deref_weaken; [apply Hp|sub_heap]]. }
  apply refines_copy; [|apply cloneKey_allocs; eapply load_key_weaken; [exact Hk'|sub_heap]].
  pose proof (rep_weaken _ (ho ∪ hs) _ _ Hrep ltac:(sub_heap)) as []. split; [done|done| |done].
  by apply map_Forall2_insert_2.
Qed.

(** The fields the listing looks at. *)
Definition listed_key (k : HKey) : Key :=
  mkKey (HKey_KeyID k) (HKey_APIID k) (HKey_WorkspaceID k) (HKey_OwnerPrincipalID k) (HKey_Name k)
    None None None None (HKey_RemainingUses k) (HKey_Enabled k) (HKey_CreatedAt k) (HKey_UpdatedAt k) None None.

Lemma matching_ids_listed opts entries :
  matching_ids opts entries = memory.matching_ids opts (prod_map id listed_key <$> entries).
Proof. induction entries as [|[id' k] rest IH]; [done|]. cbn. by rewrite IH. Qed.

Lemma key_matches_listed opts h k v : load_key h k = Some v -> key_matches opts (listed_key k) <-> key_matches opts v.
Proof. intros []%load_key_spec. unfold key_matches. cbn. by rewrite kp_api, kp_owner. Qed.

Lemma matching_ids_rep opts :
  matching_ids opts (map_to_list (keys s)) ≡ₚ memory.matching_ids opts (map_to_list (memory.keys m)).
Proof.
  rewrite matching_ids_listed, <- (map_to_list_fmap listed_key).
  apply NoDup_Permutation; [apply matching_ids_nodup..|]. intros id'. rewrite !matching_ids_elem.
  rewrite lookup_fmap. destruct (rep_key _ _ _ id' Hrep) as [[-> ->]|(k & v & -> & -> & Hk)].
  - split; intros (? & ? & _); discriminate.
  - cbn. split; intros (k' & [= <-] & Hm); eexists; (split; [done|]); by eapply (key_matches_listed opts).
Qed.

Lemma ListKeys_refines opts out :
  memory.ListKeys opts m = Some out ->
  refines (res_of load_list) (ListKeys opts s) hc hs out.
Proof.
  unfold memory.ListKeys, memory.list_from, ListKeys. cbn zeta.
  rewrite (sort_Strings_perm_eq _ _ (matching_ids_rep opts)).
  set (ids := sort_Strings (memory.matching_ids opts _)). set (e := if _ <? _ then _ else _).
  destruct (slice_range ids _ e) as [page|]; [|done].
  destruct (if e <? _ then _ else _) as [next|]; [|done]. intros [= <-].
  apply allocs_bind. eapply allocs_mono.
  2: { apply clone_all_allocs. apply Forall2_fmap_2, Forall_Forall2_diag, Forall_forall. intros id' _.
       eapply load_key_weaken; [apply rep_default|sub_heap]. }
  intros hr ks Hdr Hks. cbn beta in Hks. apply allocs_ret. rewrite (left_id_L ∅ (∪)). exists hr, ∅.
  rewrite (right_id_L ∅ (∪)), (left_id_L ∅ (∪)). split_and!; [done|apply map_disjoint_empty_r|done|].
  cbn. unfold load_list. cbn. rewrite Hks. cbn. by rewrite <- list_fmap_compose.
Qed.
End Methods.

(** ** The instance *)

Lemma handle_values X (e : HStoreE X) hc hs s m i :
  hc ##ₘ hs -> rep hs s m -> h_event_ok hc e ->
  with_value hc e (fun _ e' rel => forall out, memory.handle _ e' i m = Some out ->
    refines rel (handle X e i s) hc hs out).
Proof.
  intros Hd Hr He. destruct e; cbn [with_value handle memory.handle]; unfold h_event_ok in He; cbn [with_value] in He.
  1,3,5,7,9: destruct He as (v & Hv & _); exists v; split; [done|].
  all: intros out Hout; try (injection Hout as <-).
  all: first [eapply CreateWorkspace_refines | eapply CreateAPI_refines | eapply CreateKey_refines | eapply GetKeyByHash_refines
    | eapply RotateKey_refines | eapply GetWorkspace_refines | eapply GetAPI_refines | eapply GetKeyByID_refines
    | eapply RevokeKey_refines | eapply ListKeys_refines | eapply TouchLastVerified_refines
    | eapply DecrementRemainingUses_refines]; eassumption.
Qed.

(** What a call needs of its environment: fresh UUIDs, a clock
    that has left the zero time, and a map of a size a Go map can have. *)
Definition h_input_ok (i : Inp) (s : Store) : Prop :=
  (workspaces s !! memory.newID "ws" (memory.uuid i) = None /\
   apis s !! memory.newID "api" (memory.uuid i) = None /\
   keys s !! memory.newID "key" (memory.uuid i) = None /\
   Z.of_nat (size (keys s)) < 2 ^ 62) /\
  uuid_text (memory.uuid i) = true /\ memory.now i <> zeroTime.

#[export] Instance h_input_ok_dec i s : Decision (h_input_ok i s).
Proof. unfold h_input_ok. apply _. Defined.

Lemma rep_size hs s m : rep hs s m -> size (keys s) = size (memory.keys m).
Proof. intros Hr. rewrite <- !size_dom. by rewrite (map_Forall2_dom_L _ _ _ (rep_keys _ _ _ Hr)). Qed.

Lemma h_input_ok_value hs s m i : rep hs s m -> h_input_ok i s -> input_ok i m.
Proof.
  intros Hr [(Hw & Ha & Hk & Hs) _]. split_and!.
  - by destruct (Forall2_lookup _ _ _ (memory.newID "ws" (memory.uuid i)) (rep_ws _ _ _ Hr)) as [[_ ?]|(? & ? & ? & _)]; [|congruence].
  - by destruct (Forall2_lookup _ _ _ (memory.newID "api" (memory.uuid i)) (rep_apis _ _ _ Hr)) as [[_ ?]|(? & ? & ? & _)]; [|congruence].
  - by destruct (rep_key _ _ _ (memory.newID "key" (memory.uuid i)) Hr) as [[_ ?]|(? & ? & ? & _)]; [|congruence].
  - by rewrite <- (rep_size _ _ _ Hr).
Qed.

Lemma assigned_put id' k m : is_Some (memory.keys m !! id') -> assigned (abs m) (abs (memory.put_key id' k m)).
Proof.
  intros [k0 Hk]. rewrite abs_put_key. apply assigned_put_key. cbn. rewrite lookup_fmap, Hk. by eexists.
Qed.

(** The methods only insert under the identifier of the call, with its time. *)
Lemma handle_assigned X (e : StoreE X) i m m' x :
  memory.handle X e i m = Some (m', x) -> uuid_text (memory.uuid i) = true -> memory.now i <> zeroTime ->
  assigned (abs m) (abs m').
Proof.
  intros Hh Hu Hn. assert (Hid : forall kind, assigned_id kind (memory.newID kind (memory.uuid i))) by (by eexists).
  destruct e; cbn in Hh;
    unfold memory.CreateWorkspace, memory.GetWorkspace, memory.CreateAPI, memory.GetAPI, memory.CreateKey,
      memory.GetKeyByID, memory.GetKeyByHash, memory.RevokeKey, memory.RotateKey, memory.ListKeys,
      memory.TouchLastVerified, memory.DecrementRemainingUses in Hh.
  all: repeat case_match; simplify_eq; try apply assigned_refl.
  all: try (apply assigned_put; by eexists).
  - split; cbn; try congruence. intros id' v. rewrite !lookup_fmap, lookup_insert.
    case_decide as He; [intros _ [= <-]; by rewrite <- He|congruence].
  - split; cbn; try congruence. intros id' v. rewrite !lookup_fmap, lookup_insert.
    case_decide as He; [intros _ [= <-]; by rewrite <- He|congruence].
  - split; cbn; try congruence. intros id' v. rewrite !lookup_fmap, lookup_insert.
    case_decide as He; [intros _ [= <-]; by rewrite <- He|congruence].
Qed.

Definition heap_inv (hs : heap) (s : Store) (A : AStore) : Prop := exists m, rep hs s m /\ inv m /\ abs m = A.

Lemma heap_handle_refines X (e : HStoreE X) i hc hs s A :
  hc ##ₘ hs -> heap_inv hs s A -> h_input_ok i s -> h_call_ok hc e ->
  allocs (handle X e i s) (hc ∪ hs) (fun hn sx => exists hr ho A',
    hn = hr ∪ ho /\ hr ##ₘ ho /\ heap_inv (ho ∪ hs) sx.1 A' /\
    heap_contract id str_le False hc e A hr sx.2 A').
Proof.
  intros Hd (m & Hr & Hi & <-) Ho He. pose proof (h_input_ok_value _ _ _ _ Hr Ho) as Hin. destruct Ho as (_ & Hu & Hn).
  pose proof (h_call_event _ _ He) as Hev.
  apply (with_value_elim _ _ _ _ (with_value_and _ _ _ _ Hev (with_value_and _ _ _ _
    (handle_values _ _ _ _ _ _ i Hd Hr Hev) (answer_weaken _ _ Hev)))).
  intros Y e' rel (Hok & Hrun & Hweak) Hval.
  destruct (MemoryProps.handle_refines Y e' i m Hi Hin Hok) as (m' & y & Hh & Hi' & Hc).
  eapply allocs_mono; [|by apply (Hrun (m', y))]. intros hn sx _ (hr & ho & -> & Hdr & Hrep & Hx).
  exists hr, ho, (abs m'). split_and!; [done|done|by exists m'|].
  split; [by eapply handle_assigned|]. apply Hval. exists y.
  split_and!; [by eapply store_contract_any; [|exact Hc]|apply read_times_id|].
  eapply Hweak; [exact Hx|apply answer_heap_subset].
Qed.

#[export] Instance heap_memory_impl : HeapImpl Store Inp := {|
  hi_handle := handle;
  hi_inv := heap_inv;
  hi_ok := h_input_ok;
  hi_nt := id;
  hi_le := str_le;
  hi_faults := False;
  hi_refines := heap_handle_refines;
|}.

Lemma heap_inv_New : heap_inv ∅ New a_empty.
Proof. exists memory.New. split_and!; [apply rep_New|apply inv_New|done]. Qed.
