(* ===== verification/HeapPrivacy.v ===== *)
(** * HeapPrivacy: the objects of the store are its own

    The footprint of a store is the set of the objects its references reach.
    [reachable] relates the states of the driver on the heap to those of the driver on
    values when, between the calls, the caller writes any object outside the
    footprint. *)

From S2P Require Import Prelude Effects GoSort Store StoreSpec Heap References HeapSpec Memory MemoryProps.
From S2P Require Import HeapMemory HeapMemoryProps.
Import heap_memory.

(** ** Locations *)

Definition ptr_locs {A} (p : ptr A) : gset loc :=
  match p with
  | None => ∅
  | Some l => {[ l ]}
  end.

Definition workspace_locs (w : HWorkspace) : gset loc := ptr_locs (HWorkspace_Metadata w).
Definition api_locs (a : HAPI) : gset loc := ptr_locs (HAPI_Metadata a).
Definition key_locs (k : HKey) : gset loc :=
  ptr_locs (HKey_KeyHash k) ∪ ptr_locs (HKey_Permissions k) ∪ ptr_locs (HKey_LimitRefs k) ∪
  ptr_locs (HKey_ExpiresAt k) ∪ ptr_locs (HKey_LastVerifiedAt k) ∪ ptr_locs (HKey_Metadata k).

Definition map_locs {X} (locs : X -> gset loc) (m : gmap string X) : gset loc :=
  ⋃ (locs <$> (map_to_list m).*2).

Definition footprint (s : Store) : gset loc :=
  map_locs workspace_locs (workspaces s) ∪ map_locs api_locs (apis s) ∪ map_locs key_locs (keys s).

Lemma elem_of_map_locs {X} (locs : X -> gset loc) m l :
  l ∈ map_locs locs m <-> exists id' x, m !! id' = Some x /\ l ∈ locs x.
Proof.
  unfold map_locs. rewrite elem_of_union_list. setoid_rewrite list_elem_of_fmap. setoid_rewrite list_elem_of_fmap.
  split.
  - intros (ls & (x & -> & [id' x'] & -> & Hx) & Hl). exists id', x'. by apply elem_of_map_to_list in Hx.
  - intros (id' & x & Hx & Hl). exists (locs x). split; [|done]. exists x. split; [done|].
    exists (id', x). by rewrite elem_of_map_to_list.
Qed.

(** ** Values depend on the locations reached only *)

(** [h] and [h'] have the same objects at the locations [ls]. *)
Definition agree (ls : gset loc) (h h' : heap) : Prop := forall l, l ∈ ls -> h' !! l = h !! l.

Lemma agree_mono ls ls' h h' : agree ls h h' -> ls' ⊆ ls -> agree ls' h h'.
Proof. intros Ha Hs l Hl. by apply Ha, Hs. Qed.

Lemma deref_agree `{Boxed A} h h' (p : ptr A) : agree (ptr_locs p) h h' -> deref h' p = deref h p.
Proof. intros Ha. destruct p as [l|]; [|done]. unfold deref. rewrite Ha; [done|]. cbn. set_solver. Qed.

Lemma deref_locs `{Boxed A} h (p : ptr A) v : deref h p = Some v -> ptr_locs p ⊆ dom h.
Proof.
  intros Hp%deref_inv. destruct p as [l|]; cbn; [|set_solver]. destruct v; [|done]. destruct Hp as (o & Hl & _).
  apply elem_of_dom_2 in Hl. set_solver.
Qed.

Lemma load_key_agree h h' k : agree (key_locs k) h h' -> load_key h' k = load_key h k.
Proof.
  intros Ha. unfold load_key. unfold key_locs in Ha.
  by rewrite !(deref_agree h h') by (eapply agree_mono; [exact Ha|set_solver]).
Qed.

Lemma load_key_locs h k v : load_key h k = Some v -> key_locs k ⊆ dom h.
Proof.
  intros [H1 H2 H3 H4 H5 H6 _ _ _ _ _ _ _ _ _]%load_key_spec. unfold key_locs.
  apply deref_locs in H1, H2, H3, H4, H5, H6. set_solver.
Qed.

Lemma load_workspace_agree h h' w : agree (workspace_locs w) h h' -> load_workspace h' w = load_workspace h w.
Proof. intros Ha. unfold load_workspace. by rewrite (deref_agree h h'). Qed.

Lemma load_workspace_locs h w v : load_workspace h w = Some v -> workspace_locs w ⊆ dom h.
Proof. intros [Hm _]%load_workspace_spec. by eapply deref_locs. Qed.

Lemma load_api_agree h h' a : agree (api_locs a) h h' -> load_api h' a = load_api h a.
Proof. intros Ha. unfold load_api. by rewrite (deref_agree h h'). Qed.

Lemma load_api_locs h a v : load_api h a = Some v -> api_locs a ⊆ dom h.
Proof. intros [Hm _]%load_api_spec. by eapply deref_locs. Qed.

(** ** Stores *)

Lemma map_Forall2_is_Some {A B} (R : string -> A -> B -> Prop) (m1 : gmap string A) (m2 : gmap string B) id' :
  map_Forall2 R m1 m2 -> is_Some (m1 !! id') <-> is_Some (m2 !! id').
Proof. intros Hm. destruct (Forall2_lookup _ _ _ id' Hm) as [[-> ->]|(x & y & -> & -> & _)]; [done|]. by split; eexists. Qed.

Lemma Forall2_agree {X V} (load : heap -> X -> option V) locs h h' (m1 : gmap string X) (m2 : gmap string V) :
  (forall x, agree (locs x) h h' -> load h' x = load h x) -> agree (map_locs locs m1) h h' ->
  map_Forall2 (fun _ x v => load h x = Some v) m1 m2 -> map_Forall2 (fun _ x v => load h' x = Some v) m1 m2.
Proof.
  intros Hload Ha Hm id'. pose proof (Hm id') as Hid. destruct (m1 !! id') as [x|] eqn:Hx; inversion Hid; subst; constructor.
  rewrite Hload; [done|]. eapply agree_mono; [exact Ha|]. intros l Hl. apply elem_of_map_locs. eauto.
Qed.

Lemma Forall2_locs {X V} (load : heap -> X -> option V) locs h (m1 : gmap string X) (m2 : gmap string V) :
  (forall x v, load h x = Some v -> locs x ⊆ dom h) ->
  map_Forall2 (fun _ x v => load h x = Some v) m1 m2 -> map_locs locs m1 ⊆ dom h.
Proof.
  intros Hload Hm l (id' & x & Hx & Hl)%elem_of_map_locs. pose proof (Hm id') as Hid. rewrite Hx in Hid.
  inversion Hid; subst. by eapply Hload.
Qed.

Lemma rep_agree h h' s m : rep h s m -> agree (footprint s) h h' -> rep h' s m.
Proof.
  intros [Hw Ha Hk Hi] Hag. unfold footprint in Hag. split; [..|done].
  - eapply Forall2_agree; [apply load_workspace_agree|eapply agree_mono; [exact Hag|set_solver]|exact Hw].
  - eapply Forall2_agree; [apply load_api_agree|eapply agree_mono; [exact Hag|set_solver]|exact Ha].
  - eapply Forall2_agree; [apply load_key_agree|eapply agree_mono; [exact Hag|set_solver]|exact Hk].
Qed.

Lemma rep_locs h s m : rep h s m -> footprint s ⊆ dom h.
Proof.
  intros [Hw Ha Hk _]. unfold footprint.
  pose proof (Forall2_locs _ _ _ _ _ (load_workspace_locs h) Hw).
  pose proof (Forall2_locs _ _ _ _ _ (load_api_locs h) Ha).
  pose proof (Forall2_locs _ _ _ _ _ (load_key_locs h) Hk). set_solver.
Qed.

(** The objects of the store, and the others. *)
Definition inside (s : Store) (h : heap) : heap := base.filter (fun lo => lo.1 ∈ footprint s) h.
Definition outside (s : Store) (h : heap) : heap := base.filter (fun lo => lo.1 ∉ footprint s) h.

Lemma outside_inside s h : outside s h ∪ inside s h = h.
Proof. unfold outside, inside. rewrite map_union_comm; [apply map_filter_union_complement|]. symmetry. apply map_disjoint_filter_complement. Qed.

Lemma outside_disjoint s h : outside s h ##ₘ inside s h.
Proof. symmetry. apply map_disjoint_filter_complement. Qed.

Lemma rep_inside h s m : rep h s m -> rep (inside s h) s m.
Proof.
  intros Hr. eapply rep_agree; [exact Hr|]. intros l Hl. apply option_eq. intros o.
  unfold inside. rewrite map_lookup_filter_Some. naive_solver.
Qed.

(** ** Histories *)

Inductive reachable : heap -> Store -> memory.Store -> Prop :=
| reachable_New h : reachable h New memory.New
| reachable_write h s m l o : reachable h s m -> l ∉ footprint s -> reachable (<[l := o]> h) s m
| reachable_call X (e : HStoreE X) i h s m h' s' x m' :
    reachable h s m -> h_input_ok i s -> h_event_ok (outside s h) e ->
    handle X e i s h = Some (h', (s', x)) ->
    with_value (outside s h) e (fun Y e' _ => exists y, memory.handle Y e' i m = Some (m', y)) ->
    reachable h' s' m'.

(** One call from a state with the objects apart. *)
Lemma call_private X (e : HStoreE X) i h s m :
  rep h s m -> inv m -> h_input_ok i s -> h_event_ok (outside s h) e ->
  exists h' s' x, handle X e i s h = Some (h', (s', x)) /\ h ⊆ h' /\
    with_value (outside s h) e (fun Y e' rel => exists m' y,
      memory.handle Y e' i m = Some (m', y) /\ rep h' s' m' /\ inv m' /\ rel (outside s' h') x y).
Proof.
  intros Hr Hi Ho He. pose proof (h_input_ok_value _ _ _ _ Hr Ho) as Hin.
  pose proof (handle_values _ _ _ _ _ _ i (outside_disjoint s h) (rep_inside _ _ _ Hr) He) as Hh.
  apply (with_value_elim _ _ _ _ (with_value_and _ _ _ _ He (with_value_and _ _ _ _ Hh (answer_weaken _ _ He)))).
  intros Y e' rel (Hok & Hrun & Hweak) Hval.
  destruct (MemoryProps.handle_refines Y e' i m Hi Hin Hok) as (m' & y & Hm & Hi' & _).
  destruct (Hrun _ Hm) as (hn & [s' x] & Hc & Hd & hr & ho & -> & Hdr & Hrep & Hx). cbn in *.
  rewrite outside_inside in *. exists (hr ∪ ho ∪ h), s', x. split_and!; [done|by apply map_union_subseteq_r|].
  apply Hval. exists m', y. split_and!; [done| |done|].
  - eapply rep_agree; [exact Hrep|]. intros l Hl%(rep_locs _ _ _ Hrep).
    apply elem_of_dom in Hl as [o Hl]. rewrite Hl. eapply lookup_weaken; [exact Hl|].
    assert (Hins : inside s h ⊆ h) by apply map_filter_subseteq. split_disjoint.
    apply map_union_least.
    + etrans; [apply map_union_subseteq_r|apply map_union_subseteq_l]. done.
    + etrans; [exact Hins|]. by apply map_union_subseteq_r, map_disjoint_union_l.
  - eapply Hweak; [exact Hx|]. apply map_subseteq_spec. intros l o Hl. unfold outside.
    apply map_lookup_filter_Some. split; cbn.
    + by do 2 apply lookup_union_Some_l.
    + intros Hf%(rep_locs _ _ _ Hrep). rewrite dom_union in Hf. apply elem_of_union in Hf as [Hf|Hf].
      * apply elem_of_dom in Hf as [o' Hf]. by apply (map_disjoint_spec hr ho) with (i := l) (x := o) (y := o').
      * apply elem_of_dom in Hf as [o' Hf]. apply map_lookup_filter_Some in Hf as [Hf _]. split_disjoint.
        by apply (map_disjoint_spec hr h) with (i := l) (x := o) (y := o').
Qed.

Lemma reachable_rep h s m : reachable h s m -> rep h s m /\ inv m.
Proof.
  induction 1 as [h|h s m l o Hre [Hr Hi] Hl|X e i h s m h' s' x m' Hre [Hr Hi] Ho He Hh Hm].
  - split; [|apply inv_New]. apply (rep_agree ∅); [apply rep_New|].
    intros l. unfold footprint, map_locs. cbn. rewrite !map_to_list_empty. cbn. set_solver.
  - split; [|done]. eapply rep_agree; [exact Hr|]. intros l' Hl'. apply lookup_insert_ne. congruence.
  - destruct (call_private _ _ _ _ _ _ Hr Hi Ho He) as (h2 & s2 & x2 & Hh2 & _ & Hv). rewrite Hh in Hh2. simplify_eq.
    apply (with_value_elim _ _ _ _ (with_value_and _ _ _ _ Hm Hv)).
    intros Y e' rel [[y Hy] (m2 & y2 & Hy2 & Hr2 & Hi2 & _)] _. rewrite Hy in Hy2. by simplify_eq.
Qed.
