(* ===== verification/HeapTheorems.v ===== *)
(** * HeapTheorems: what callers and the store share

    The objects of the in-process driver stay its own over any history of calls and
    writes of the caller. *)

From stdpp Require Import pretty.
From S2P Require Import Prelude Effects GoSort Store StoreSpec Heap References HeapSpec.
From S2P Require Import Memory MemoryProps HeapMemory HeapMemoryProps HeapPrivacy.

(** ** The objects of the store *)

(** C38. Over every history of calls and of writes of the caller to any object outside the
    store's, a call on the driver panics nowhere, changes no object of the heap, answers
    what the driver on values answers, in objects that are not the store's, and leaves
    the store with the values of the driver on values: nothing the caller keeps or is
    given aliases a stored object. *)
Theorem stored_objects_private X (e : HStoreE X) i h s m :
  reachable h s m -> h_input_ok i s -> h_event_ok (outside s h) e ->
  exists h' s' x, heap_memory.handle X e i s h = Some (h', (s', x)) /\ h ⊆ h' /\
    with_value (outside s h) e (fun Y e' rel => exists m' y,
      memory.handle Y e' i m = Some (m', y) /\ rep h' s' m' /\ rel (outside s' h') x y) /\
    exists m', reachable h' s' m'.
Proof.
  intros Hre Ho He. destruct (reachable_rep _ _ _ Hre) as [Hr Hi].
  destruct (call_private _ _ _ _ _ _ Hr Hi Ho He) as (h' & s' & x & Hh & Hs & Hv).
  exists h', s', x. split_and!; [done|done|by eapply with_value_mono; [|exact Hv]; naive_solver|].
  apply (with_value_elim _ _ _ _ Hv). intros Y e' rel (m' & y & Hm & _) Hval. exists m'.
  eapply reachable_call; [exact Hre|done|done|exact Hh|]. apply Hval. eauto.
Qed.

Definition demo_uuid (n : nat) : string :=
  let d := pretty (N.of_nat n) in
  String.substring 0 (36 - String.length d) "00000000-0000-4000-8000-000000000000" +:+ d.

Definition demo_inp (n : nat) : memory.Inp := memory.mkInp (1700000000 + Z.of_nat n) (demo_uuid n).

(** A workspace is created from the caller's map, which the caller then changes. *)
Definition demo_heap : heap := {[ 0%nat := OMap {[ "tier" := "prod" ]}%string ]}.
Definition demo_workspace : HWorkspace :=
  mkHWorkspace EmptyString "acme" "user_owner" zeroTime zeroTime (Some 0%nat).

Definition demo_created : option (heap * (heap_memory.Store * res HWorkspace)) :=
  heap_memory.handle _ (HCreateWorkspace demo_workspace) (demo_inp 1) heap_memory.New demo_heap.
Definition demo_h : heap := from_option fst ∅ demo_created.
Definition demo_s : heap_memory.Store := from_option (fun r => r.2.1) heap_memory.New demo_created.
Definition demo_m : memory.Store :=
  from_option fst memory.New
    (memory.handle _ (CreateWorkspaceE (mkWorkspace EmptyString "acme" "user_owner" zeroTime zeroTime
      (Some {[ "tier" := "prod" ]}%string))) (demo_inp 1) memory.New).

Lemma demo_reachable : reachable (<[0%nat := OMap {[ "tier" := "mutated" ]}%string]> demo_h) demo_s demo_m.
Proof.
  apply reachable_write; [|by vm_compute].
  eapply (reachable_call _ (HCreateWorkspace demo_workspace) (demo_inp 1) demo_heap heap_memory.New memory.New).
  - apply reachable_New.
  - by apply (bool_decide_unpack _).
  - eexists. split; [by vm_compute|by_eval].
  - vm_compute. reflexivity.
  - eexists. split; [by vm_compute|]. eexists. by vm_compute.
Qed.

Lemma stored_objects_private_witness :
  exists h' s' x, heap_memory.handle _ (HGetWorkspace (HWorkspace_WorkspaceID (from_option (fun r =>
      match r.2.2 with Ok w => w | Err _ => zeroHWorkspace end) zeroHWorkspace demo_created))) (demo_inp 2) demo_s
    (<[0%nat := OMap {[ "tier" := "mutated" ]}%string]> demo_h) = Some (h', (s', Ok x)) /\
    exists v, load_workspace h' x = Some v /\ Workspace_Metadata v = Some {[ "tier" := "prod" ]}%string.
Proof.
  destruct (stored_objects_private _ (HGetWorkspace (HWorkspace_WorkspaceID (from_option (fun r =>
      match r.2.2 with Ok w => w | Err _ => zeroHWorkspace end) zeroHWorkspace demo_created))) (demo_inp 2)
    _ _ _ demo_reachable) as (h' & s' & x & Hh & _ & (m' & y & Hm & _ & Hx) & _).
  - by apply (bool_decide_unpack _).
  - done.
  - exists h', s'. vm_compute in Hm. injection Hm as _ <-. destruct x as [x|]; [|done]. exists x. split; [done|].
    cbn in Hx. eexists. split; [|].
    + eapply load_workspace_weaken; [exact Hx|]. apply map_filter_subseteq.
    + done.
Defined.

(** C39. Over every history of calls and of writes of the caller, the driver's state stays
    well typed: every reference of a stored workspace, API or key is nil or points to an
    object of the field's type, the maps are keyed by the identifiers of their values,
    every API has its workspace and every key its API, a number of uses is an int64, and
    the index has exactly the hashes of the stored keys. *)
Theorem stored_references_typed h s m :
  reachable h s m ->
  (forall id' w, heap_memory.workspaces s !! id' = Some w ->
    exists v, load_workspace h w = Some v /\ Workspace_WorkspaceID v = id') /\
  (forall id' a, heap_memory.apis s !! id' = Some a ->
    exists v, load_api h a = Some v /\ API_APIID v = id' /\
      is_Some (heap_memory.workspaces s !! API_WorkspaceID v)) /\
  (forall id' k, heap_memory.keys s !! id' = Some k ->
    exists v, load_key h k = Some v /\ Key_KeyID v = id' /\
      is_Some (heap_memory.apis s !! Key_APIID v) /\ int64_range (Key_RemainingUses v)) /\
  (forall hash id', heap_memory.hashIndex s !! hash = Some id' <->
    exists k v, heap_memory.keys s !! id' = Some k /\ load_key h k = Some v /\ memory.string_of (Key_KeyHash v) = hash).
Proof.
  intros [Hr [Hw Ha Hk Hx]]%reachable_rep. pose proof (rep_ws _ _ _ Hr) as Rw. pose proof (rep_apis _ _ _ Hr) as Ra.
  split_and!.
  - intros id' w Hid. destruct (Forall2_lookup _ _ _ id' Rw) as [[? _]|(x & v & Hx1 & Hv & Hl)]; [congruence|].
    simplify_eq. eauto.
  - intros id' a Hid. destruct (Forall2_lookup _ _ _ id' Ra) as [[? _]|(x & v & Hx1 & Hv & Hl)]; [congruence|].
    simplify_eq. destruct (Ha _ _ Hv) as [? Hws]. exists v. split_and!; [done..|]. by rewrite (map_Forall2_is_Some _ _ _ _ Rw).
  - intros id' k Hid. destruct (rep_key _ _ _ id' Hr) as [[? _]|(x & v & Hx1 & Hv & Hl)]; [congruence|].
    simplify_eq. destruct (Hk _ _ Hv) as (? & Hapi & ?). exists v. split_and!; [done..| |done].
    by rewrite (map_Forall2_is_Some _ _ _ _ Ra).
  - intros hash id'. rewrite (rep_index _ _ _ Hr), Hx. split.
    + intros (v & Hv & Hh). destruct (rep_key _ _ _ id' Hr) as [[_ ?]|(k & v' & Hk' & Hv' & Hl)]; [congruence|].
      simplify_eq. eauto.
    + intros (k & v & Hk' & Hl & Hh). destruct (rep_key _ _ _ id' Hr) as [[? _]|(k2 & v' & Hk2 & Hv' & Hl')]; [congruence|].
      simplify_eq. eauto.
Qed.

Lemma stored_references_typed_witness :
  exists w v, heap_memory.workspaces demo_s !! memory.newID "ws" (demo_uuid 1) = Some w /\
    load_workspace (<[0%nat := OMap {[ "tier" := "mutated" ]}%string]> demo_h) w = Some v /\
    Workspace_WorkspaceID v = memory.newID "ws" (demo_uuid 1).
Proof.
  destruct (heap_memory.workspaces demo_s !! memory.newID "ws" (demo_uuid 1)) as [w|] eqn:Hw.
  - destruct (proj1 (stored_references_typed _ _ _ demo_reachable) _ _ Hw) as (v & Hv & Hid). by exists w, v.
  - exfalso. revert Hw. by_eval.
Defined.
