(* ===== verification/StoreFacts.v ===== *)
(** * StoreFacts: consequences of the contract of the interface

    Well-formedness of the abstract store and its preservation by every contract,
    and the evolution of one key under any operation: identity never changes, a
    revoked key stays revoked, and only a successful decrement consumes a use. *)

From S2P Require Import Prelude Effects Store StoreSpec.

Section Facts.
Context (nt : Time -> Time) (le : relation string) (clock : Time -> Prop) (restamps faults : Prop).

Abbreviation contract := (store_contract nt le clock restamps faults).

(** ** Well-formedness *)

Definition hashes_unique (m : gmap string Key) : Prop :=
  forall id1 id2 k1 k2, m !! id1 = Some k1 -> m !! id2 = Some k2 ->
    same_hash (Key_KeyHash k1) k2 -> id1 = id2.

Record a_wf (A : AStore) : Prop := {
  a_wf_api : forall id a, a_apis A !! id = Some a -> API_APIID a = id;
  a_wf_key : forall id k, a_keys A !! id = Some k -> Key_KeyID k = id;
  a_wf_parent : forall id k, a_keys A !! id = Some k -> is_Some (a_apis A !! Key_APIID k);
  a_wf_hash : hashes_unique (a_keys A);
}.

Lemma a_wf_empty : a_wf a_empty.
Proof. split; unfold a_empty; simpl; intros *; by rewrite ?lookup_empty. Qed.

(** The operations, seen as the change they make to the abstract store. *)
Inductive change (A : AStore) : AStore -> Prop :=
| Ch_none : change A A
| Ch_workspace id w : a_workspaces A !! id = None ->
    change A (mkAStore (<[id := w]> (a_workspaces A)) (a_apis A) (a_keys A))
| Ch_api id a : a_apis A !! id = None -> API_APIID a = id ->
    is_Some (a_workspaces A !! API_WorkspaceID a) ->
    change A (mkAStore (a_workspaces A) (<[id := a]> (a_apis A)) (a_keys A))
| Ch_new_key id k : a_keys A !! id = None -> Key_KeyID k = id ->
    is_Some (a_apis A !! Key_APIID k) -> hash_free (Key_KeyHash k) A ->
    change A (a_put_key id k A)
| Ch_key id k k' : a_keys A !! id = Some k ->
    Key_KeyID k' = Key_KeyID k -> Key_APIID k' = Key_APIID k ->
    Key_WorkspaceID k' = Key_WorkspaceID k -> Key_OwnerPrincipalID k' = Key_OwnerPrincipalID k ->
    (Key_Enabled k' = true -> Key_Enabled k = true) ->
    (Key_KeyHash k' = Key_KeyHash k \/
     forall id2 k2, id2 <> id -> a_keys A !! id2 = Some k2 -> ~ same_hash (Key_KeyHash k') k2) ->
    (Key_RemainingUses k' = Key_RemainingUses k \/
     0 < Key_RemainingUses k /\ Key_RemainingUses k' = Key_RemainingUses k - 1) ->
    change A (a_put_key id k' A).

Lemma spec_change {X} (e : StoreE X) A r A' : store_spec nt le clock restamps e A r A' -> change A A'.
Proof.
  destruct e; simpl.
  - intros (id' & now & w' & _ & _ & Hn & _ & ->). by apply Ch_workspace.
  - intros [-> _]. constructor.
  - unfold spec_CreateAPI. destruct (a_workspaces A !! API_WorkspaceID a) eqn:Hw; [|intros [-> _]; constructor].
    intros (id' & now & a' & _ & _ & Hn & -> & ->). apply Ch_api; [done|done|]. simpl. by rewrite Hw.
  - intros [-> _]. constructor.
  - intros [(-> & _)|[(-> & _)|(id' & now & k' & _ & _ & Ha & Hf & Hn & He & ->)]]; [constructor..|].
    unfold key_equiv in He. rewrite He. apply Ch_new_key; [done|done|done|].
    intros id2 k2 Hk2. unfold same_hash. simpl. rewrite elems_append_nil. by apply (Hf id2 k2).
  - intros [-> _]. constructor.
  - intros [-> _]. constructor.
  - intros Hs. destruct (a_keys A !! id) as [k|] eqn:Hk;
      [|apply spec_RevokeKey_missing in Hs as [-> _]; [constructor|done]].
    destruct (spec_RevokeKey_put _ _ _ _ _ _ _ _ Hs Hk) as (_ & t & ->). eapply Ch_key; simpl; eauto. done.
  - unfold spec_RotateKey. destruct (a_keys A !! id) as [k|] eqn:Hk; [|intros [-> _]; constructor].
    intros [(-> & _)|(Hf & t & k' & _ & _ & Hn & ->)]; [constructor|]. rewrite Hn.
    eapply Ch_key; simpl; eauto. right. intros id2 k2 Hne Hk2. unfold same_hash.
    rewrite elems_append_nil. by apply (Hf id2 k2).
  - intros [-> _]. constructor.
  - unfold spec_TouchLastVerified. destruct (a_keys A !! id) as [k|] eqn:Hk; [|intros [-> _]; constructor].
    intros (_ & ->). eapply Ch_key; simpl; eauto.
  - unfold spec_DecrementRemainingUses. destruct (a_keys A !! id) as [k|] eqn:Hk; [|intros [-> _]; constructor].
    case_decide; [intros [-> _]; constructor|]. case_decide; [intros [-> _]; constructor|].
    intros (_ & t & _ & ->). eapply Ch_key; simpl; eauto. right. lia.
Qed.

Lemma contract_change {X} (e : StoreE X) A r A' : contract e A r A' -> change A A'.
Proof.
  intros [Hs|(_ & _ & [->|[r' Hs]])]; [by eapply spec_change|constructor|by eapply spec_change].
Qed.

Lemma same_hash_sym k1 k2 : same_hash (Key_KeyHash k1) k2 -> same_hash (Key_KeyHash k2) k1.
Proof. unfold same_hash. congruence. Qed.

Lemma hashes_unique_insert m id k :
  hashes_unique m ->
  (forall id2 k2, id2 <> id -> m !! id2 = Some k2 -> ~ same_hash (Key_KeyHash k) k2) ->
  hashes_unique (<[id := k]> m).
Proof.
  intros Hu Hn id1 id2 k1 k2. rewrite !lookup_insert.
  destruct (decide (id = id1)) as [<-|H1]; destruct (decide (id = id2)) as [<-|H2]; [done| | |apply Hu].
  - intros [= <-] Hk2 Hs. by destruct (Hn id2 k2).
  - intros Hk1 [= <-] Hs. destruct (Hn id1 k1); [done|done|]. by apply same_hash_sym.
Qed.

(** Every operation keeps the store well formed. *)
Lemma change_wf A A' : a_wf A -> change A A' -> a_wf A'.
Proof.
  intros Hwf Hc. pose proof Hwf as [Ha Hk Hp Hh].
  destruct Hc as [|id w Hn|id a Hn Ha' Hw|id k Hn Hid Hapi Hf|id k k' Hl Hid Hapi Hw Ho He Hhash Hr];
    [done|by split|split; simpl; auto..].
  - intros id2 a2. rewrite lookup_insert. case_decide; [|apply Ha]. intros [= <-]. by subst.
  - intros id2 k2 Hk2. rewrite lookup_insert. case_decide; [done|]. by eapply Hp.
  - intros id2 k2. rewrite lookup_insert. case_decide; [|apply Hk]. intros [= <-]. by subst.
  - intros id2 k2. rewrite lookup_insert. case_decide; [|apply Hp]. by intros [= <-].
  - apply hashes_unique_insert; [done|]. intros id2 k2 _ Hk2. by apply (Hf id2 k2).
  - intros id2 k2. rewrite lookup_insert. case_decide; [|apply Hk]. intros [= <-]. subst. rewrite Hid. eauto.
  - intros id2 k2. rewrite lookup_insert. case_decide; [|apply Hp]. intros [= <-]. rewrite Hapi. by eapply Hp.
  - apply hashes_unique_insert; [done|]. destruct Hhash as [Heq|Hf]; [|done].
    intros id2 k2 Hne Hk2 Hs. rewrite Heq in Hs. apply Hne. symmetry. by apply (Hh id id2 k k2).
Qed.

Lemma contract_wf {X} (e : StoreE X) A r A' : a_wf A -> contract e A r A' -> a_wf A'.
Proof. intros Hwf Hc. eapply change_wf; [done|]. by eapply contract_change. Qed.

(** ** The life of a key *)

(** [k] may become [k'] in one operation. *)
Definition evolves (k k' : Key) : Prop :=
  Key_KeyID k' = Key_KeyID k /\ Key_APIID k' = Key_APIID k /\ Key_WorkspaceID k' = Key_WorkspaceID k /\
  Key_OwnerPrincipalID k' = Key_OwnerPrincipalID k /\
  (Key_Enabled k' = true -> Key_Enabled k = true) /\
  (Key_RemainingUses k' = Key_RemainingUses k \/
   0 < Key_RemainingUses k /\ Key_RemainingUses k' = Key_RemainingUses k - 1).

Lemma evolves_refl k : evolves k k.
Proof. repeat split; auto. Qed.

(** A key is never lost and its API never changes. *)
Lemma change_key A A' id k :
  change A A' -> a_keys A !! id = Some k -> exists k', a_keys A' !! id = Some k' /\ evolves k k'.
Proof.
  intros Hc Hk.
  destruct Hc as [|id2 w Hn|id2 a Hn Ha' Hw|id2 k2 Hn Hid Hapi Hf|id2 k2 k' Hl Hid Hapi Hw Ho He Hhash Hr];
    simpl; eauto using evolves_refl; rewrite lookup_insert; case_decide; simplify_eq;
    eauto using evolves_refl.
  exists k'. split; [done|]. repeat split; auto.
Qed.

Lemma change_api A A' id a :
  change A A' -> a_apis A !! id = Some a -> a_apis A' !! id = Some a.
Proof.
  intros Hc Ha. destruct Hc as [|id2 w Hn|id2 a2 Hn Ha' Hw|id2 k2 Hn Hid Hapi Hf|]; simpl; try done.
  rewrite lookup_insert. case_decide; [congruence|done].
Qed.

(** New keys come with an API of the store. *)
Lemma change_key_inv A A' id k' :
  change A A' -> a_keys A' !! id = Some k' ->
  (exists k, a_keys A !! id = Some k /\ evolves k k') \/
  (a_keys A !! id = None /\ is_Some (a_apis A !! Key_APIID k')).
Proof.
  intros Hc. destruct Hc as [|id2 w Hn|id2 a Hn Ha' Hw|id2 k2 Hn Hid Hapi Hf|id2 k2 k3 Hl Hid Hapi Hw Ho He Hhash Hr];
    simpl; eauto using evolves_refl; rewrite lookup_insert; case_decide; eauto using evolves_refl;
    intros [= <-]; subst.
  - by right.
  - left. exists k2. split; [done|]. repeat split; auto.
Qed.

(** A key appears only by a [CreateKey] of a key with its API and workspace. *)
Lemma contract_new_key {X} (e : StoreE X) A r A' id k' :
  contract e A r A' -> a_keys A !! id = None -> a_keys A' !! id = Some k' ->
  match e with
  | CreateKeyE k => Key_APIID k' = Key_APIID k /\ Key_WorkspaceID k' = Key_WorkspaceID k
  | _ => False
  end.
Proof.
  intros Hc Hn Hk.
  assert (Hs : exists r, store_spec nt le clock restamps e A r A').
  { destruct Hc as [Hs|(_ & _ & [->|[r' Hs]])]; [eauto|congruence|eauto]. }
  clear Hc r. destruct Hs as [r Hs].
  destruct e; simpl in Hs.
  all: try (destruct Hs as [-> _]; congruence).
  - destruct Hs as (id' & now & w' & _ & _ & _ & _ & ->). simpl in Hk. congruence.
  - unfold spec_CreateAPI in Hs. destruct (a_workspaces A !! API_WorkspaceID a); [|destruct Hs as [-> _]; congruence].
    destruct Hs as (id' & now & a' & _ & _ & _ & _ & ->). simpl in Hk. congruence.
  - destruct Hs as [(-> & _)|[(-> & _)|(id' & now & k2 & _ & _ & _ & _ & _ & He & ->)]]; [congruence..|].
    simpl in Hk. rewrite lookup_insert in Hk. case_decide; [|congruence]. injection Hk as <-.
    unfold key_equiv in He. by rewrite He.
  - destruct (a_keys A !! id0) eqn:Hk0;
      [|apply spec_RevokeKey_missing in Hs as [-> _]; [congruence|done]].
    destruct (spec_RevokeKey_put _ _ _ _ _ _ _ _ Hs Hk0) as (_ & t & ->). simpl in Hk. rewrite lookup_insert in Hk. case_decide; congruence.
  - unfold spec_RotateKey in Hs. destruct (a_keys A !! id0) eqn:Hk0; [|destruct Hs as [-> _]; congruence].
    destruct Hs as [(-> & _)|(_ & t & k2 & _ & _ & _ & ->)]; [congruence|].
    simpl in Hk. rewrite lookup_insert in Hk. case_decide; congruence.
  - unfold spec_TouchLastVerified in Hs. destruct (a_keys A !! id0) eqn:Hk0; [|destruct Hs as [-> _]; congruence].
    destruct Hs as (_ & ->). simpl in Hk. rewrite lookup_insert in Hk. case_decide; congruence.
  - unfold spec_DecrementRemainingUses in Hs. destruct (a_keys A !! id0) eqn:Hk0; [|destruct Hs as [-> _]; congruence].
    repeat case_decide; [destruct Hs as [-> _]; congruence..|].
    destruct Hs as (_ & t & _ & ->). simpl in Hk. rewrite lookup_insert in Hk. case_decide; congruence.
Qed.

(** The answer reports that a use of [id] was charged. *)
Definition reports_charge {X} (id : string) (e : StoreE X) : X -> bool :=
  match e in StoreE X return X -> bool with
  | DecrementRemainingUsesE id' => fun r =>
      bool_decide (id' = id) && match r.2 with None => true | Some _ => false end
  | _ => fun _ => false
  end.

Lemma decrement_uses A id id0 r A' k :
  spec_DecrementRemainingUses nt clock id0 A r A' -> a_keys A !! id = Some k -> 0 <= Key_RemainingUses k ->
  exists k', a_keys A' !! id = Some k' /\ 0 <= Key_RemainingUses k' /\
    Key_RemainingUses k = Key_RemainingUses k' +
      (if bool_decide (id0 = id) && match r.2 with None => true | Some _ => false end then 1 else 0).
Proof.
  intros Hs Hk Hu. unfold spec_DecrementRemainingUses in Hs.
  destruct (a_keys A !! id0) as [k0|] eqn:Hk0.
  2: { destruct Hs as (-> & err & -> & _). rewrite andb_false_r. exists k. split_and!; [done|lia|lia]. }
  case_decide as Hneg.
  - destruct Hs as [-> ->]. rewrite bool_decide_eq_false_2 by (intros ->; simplify_eq; lia).
    exists k. split_and!; [done|lia|simpl; lia].
  - case_decide as Hz.
    + destruct Hs as [-> ->]. simpl. rewrite andb_false_r. exists k. split_and!; [done|lia|lia].
    + destruct Hs as (-> & t & _ & ->). simpl. rewrite lookup_insert, andb_true_r.
      case_decide as Hid; simplify_eq.
      * rewrite bool_decide_eq_true_2 by done. eexists. split; [done|]. simpl. lia.
      * rewrite bool_decide_eq_false_2 by done. exists k. split_and!; [done|lia|lia].
Qed.

(** One operation on a key with counted uses: exactly one use is gone when the
    answer reports a charge, none otherwise. *)
Lemma spec_uses {X} (e : StoreE X) A r A' id k :
  store_spec nt le clock restamps e A r A' -> a_keys A !! id = Some k -> 0 <= Key_RemainingUses k ->
  exists k', a_keys A' !! id = Some k' /\ 0 <= Key_RemainingUses k' /\
    Key_RemainingUses k = Key_RemainingUses k' + (if reports_charge id e r then 1 else 0).
Proof.
  intros Hs Hk Hu.
  assert (Hsame : a_keys A' !! id = Some k -> exists k', a_keys A' !! id = Some k' /\
    0 <= Key_RemainingUses k' /\ Key_RemainingUses k = Key_RemainingUses k' + 0).
  { intros Hk'. exists k. split_and!; [done|done|lia]. }
  assert (Hput : forall id2 k2 k3, a_keys A !! id2 = Some k2 -> A' = a_put_key id2 k3 A ->
    Key_RemainingUses k3 = Key_RemainingUses k2 -> exists k', a_keys A' !! id = Some k' /\
    0 <= Key_RemainingUses k' /\ Key_RemainingUses k = Key_RemainingUses k' + 0).
  { intros id2 k2 k3 Hk2 -> Heq. simpl. rewrite lookup_insert. case_decide; simplify_eq.
    - exists k3. split_and!; [done|lia|lia].
    - exists k. split_and!; [done|lia|lia]. }
  destruct e; cbn [store_spec reports_charge] in *;
    try (destruct Hs as [-> _]; by apply Hsame).
  - destruct Hs as (id' & now & w' & _ & _ & _ & _ & ->). by apply Hsame.
  - unfold spec_CreateAPI in Hs. destruct (a_workspaces A !! API_WorkspaceID a).
    + destruct Hs as (id' & now & a' & _ & _ & _ & _ & ->). by apply Hsame.
    + destruct Hs as [-> _]. by apply Hsame.
  - destruct Hs as [(-> & _)|[(-> & _)|(id' & now & k2 & _ & _ & _ & _ & Hn & _ & ->)]]; [by apply Hsame..|].
    apply Hsame. simpl. rewrite lookup_insert. case_decide; [congruence|done].
  - destruct (a_keys A !! id0) eqn:Hk0;
      [|apply spec_RevokeKey_missing in Hs as [-> _]; [by apply Hsame|done]].
    destruct (spec_RevokeKey_put _ _ _ _ _ _ _ _ Hs Hk0) as (_ & t & ->). by apply (Hput _ _ _ Hk0 eq_refl).
  - unfold spec_RotateKey in Hs. destruct (a_keys A !! id0) eqn:Hk0; [|destruct Hs as [-> _]; by apply Hsame].
    destruct Hs as [(-> & _)|(_ & t & k2 & _ & _ & Hn & ->)]; [by apply Hsame|].
    apply (Hput _ _ _ Hk0 eq_refl). by rewrite Hn.
  - unfold spec_TouchLastVerified in Hs. destruct (a_keys A !! id0) eqn:Hk0; [|destruct Hs as [-> _]; by apply Hsame].
    destruct Hs as (_ & ->). by apply (Hput _ _ _ Hk0 eq_refl).
  - by apply (decrement_uses A id id0 r A' k).
Qed.

(** Under faults a use may be lost, never gained, and a reported charge is real. *)
Lemma contract_uses {X} (e : StoreE X) A r A' id k :
  contract e A r A' -> a_keys A !! id = Some k -> 0 <= Key_RemainingUses k ->
  exists k', a_keys A' !! id = Some k' /\ 0 <= Key_RemainingUses k' /\
    let n := if reports_charge id e r then 1 else 0 in
    (Key_RemainingUses k = Key_RemainingUses k' + n \/
     faults /\ Key_RemainingUses k' + n <= Key_RemainingUses k).
Proof.
  intros Hc Hk Hu. destruct Hc as [Hs|(Hf & Ha & HA)].
  - destruct (spec_uses e A r A' id k Hs Hk Hu) as (k' & ? & ? & ?). exists k'. split_and!; auto.
  - assert (reports_charge id e r = false) as ->.
    { destruct e; try done. simpl in *. destruct Ha as (err & -> & _). by rewrite andb_false_r. }
    destruct HA as [->|[r' Hs]].
    + exists k. split_and!; [done..|]. left. lia.
    + destruct (spec_uses e A r' A' id k Hs Hk Hu) as (k' & ? & ? & He). exists k'.
      split_and!; [done..|]. right. split; [done|]. destruct (reports_charge id e r'); lia.
Qed.
End Facts.
