(* ===== verification/Server.v ===== *)
(** * Server: the RPC handlers (keychainserver/server.go, options.go)

    Each handler is a program over the events of its environment: calls of the
    store, the server's clock, the entropy source and the rate-limiter client.
    The handlers are written as the Go code is: guards in order, early returns,
    every store call that changes state. *)

From S2P Require Import Prelude Effects Store Keymat Apikeyv1.

(** ** gRPC status errors

    A status is its code and its message; the message [err.Error()] of an error
    value, alone or in a format, is kept unrendered. *)

Inductive code : Type :=
| InvalidArgument | NotFound | AlreadyExists | FailedPrecondition | Internal | Unavailable.

#[export] Instance code_eq_dec : EqDecision code.
Proof. solve_decision. Defined.

Inductive message : Type :=
| Text (s : string)
| ErrorOf (e : error)
| Format (format : string) (e : error).

#[export] Instance message_eq_dec : EqDecision message.
Proof. solve_decision. Defined.

Record status : Type := mkStatus { status_code : code; status_msg : message }.

#[export] Instance status_eq_dec : EqDecision status.
Proof. solve_decision. Defined.

(** ** options.go *)

Record LimitDecision : Type := mkLimitDecision {
  LimitDecision_LimitID : string;
  LimitDecision_ScopeKey : string;
  LimitDecision_Allowed : bool;
  LimitDecision_Remaining : Z;
  LimitDecision_RetryAfterMs : Z;
}.

(** [St], [RL] and [Lg] are the driver, the rate-limiter client and the logger the
    host supplies; an interface value is nil or such a value. *)
Record Options (St RL Lg : Type) : Type := mkOptions {
  Options_Store : option St;
  Options_RateLimiter : option RL;
  Options_Logger : option Lg;
}.
Arguments mkOptions {St RL Lg}.
Arguments Options_Store {St RL Lg}.
Arguments Options_RateLimiter {St RL Lg}.
Arguments Options_Logger {St RL Lg}.

Record Server (St RL Lg : Type) : Type := mkServer {
  store : St;
  rl : option RL;
  logger : Lg;
}.
Arguments mkServer {St RL Lg}.
Arguments store {St RL Lg}.
Arguments rl {St RL Lg}.
Arguments logger {St RL Lg}.

(** [discard] is the logger over [discardWriter]. *)
Definition New {St RL Lg} (discard : Lg) (opts : Options St RL Lg) : res (Server St RL Lg) :=
  match Options_Store opts with
  | None => Err (ErrText "keychainserver: Options.Store is required")
  | Some st => Ok (mkServer st (Options_RateLimiter opts) (default discard (Options_Logger opts)))
  end.

(** ** The environment of a handler *)

Inductive SrvE (St RL : Type) : Type -> Type :=
| StoreCall (st : St) {X : Type} (e : StoreE X) : SrvE St RL X
| Now : SrvE St RL Time
| ReadRandom : SrvE St RL keymat.reader
| Consume (r : RL) (refs : slice LimitRef) (cost : Z) (requestID : string) :
    SrvE St RL (res (slice LimitDecision)).
Arguments StoreCall {St RL} st {X} e.
Arguments Now {St RL}.
Arguments ReadRandom {St RL}.
Arguments Consume {St RL} r refs cost requestID.

Module keychainserver.

(** ** Helpers *)

Definition defaultLimitCost : Z := 1.

Definition limitCost (cost : Z) : Z := if cost <=? 0 then defaultLimitCost else cost.

(** [set[p] = struct{}{}] for every [p] of [have]. *)
Definition permission_set (have : list string) : gset string :=
  fold_left (fun set p => {[p]} ∪ set) have ∅.

Fixpoint all_in (set : gset string) (required : list string) : bool :=
  match required with
  | [] => true
  | p :: required => if bool_decide (p ∈ set) then all_in set required else false
  end.

Definition hasAllPermissions (have required : slice string) : bool :=
  if (length (elems required) =? 0)%nat then true
  else all_in (permission_set (elems have)) (elems required).

Definition mapStoreErr (err : error) : status :=
  if errors_is err ErrNotFound then mkStatus NotFound (ErrorOf err)
  else if errors_is err ErrConflict then mkStatus AlreadyExists (ErrorOf err)
  else mkStatus Internal (ErrorOf err).

Section Handlers.
Context {Timestamp : Type} `{TimestampPb Timestamp}.
Context {St RL Lg : Type}.

Abbreviation M := (prog (SrvE St RL)).
Abbreviation answer A := (result status A).

Definition invalid {A} (msg : string) : M (answer A) :=
  Ret (Err (mkStatus InvalidArgument (Text msg))).

Definition call (s : Server St RL Lg) {X} (e : StoreE X) : M X := trigger (StoreCall (store s) e).

Definition newKeyMaterial (prefix : string) : M (res (string * list byte)) :=
  rd ← trigger ReadRandom; Ret (keymat.New rd prefix).

(** ** Converters *)

Definition workspaceToProto (w : Workspace) : apikeyv1.Workspace Timestamp :=
  apikeyv1.mkWorkspace (Workspace_WorkspaceID w) (Workspace_Name w) (Workspace_OwnerPrincipalID w)
    (Some (timestamppb_New (Workspace_CreatedAt w))) (Some (timestamppb_New (Workspace_UpdatedAt w)))
    (Workspace_Metadata w).

Definition apiToProto (a : API) : apikeyv1.Api Timestamp :=
  apikeyv1.mkApi (API_APIID a) (API_WorkspaceID a) (API_Name a) (API_KeyPrefix a)
    (Some (timestamppb_New (API_CreatedAt a))) (Some (timestamppb_New (API_UpdatedAt a)))
    (API_Metadata a).

Definition limitRefsToProto (refs : slice LimitRef) : slice (option apikeyv1.LimitRef) :=
  Some ((fun r => Some (apikeyv1.mkLimitRef (LimitRef_LimitID r) (LimitRef_ScopeKey r))) <$> elems refs).

Definition limitRefsFromProto (refs : slice (option apikeyv1.LimitRef)) : slice LimitRef :=
  Some ((fun r => mkLimitRef (apikeyv1.LimitRef_GetLimitId r) (apikeyv1.LimitRef_GetScopeKey r))
          <$> elems refs).

Definition limitDecisionsToProto (ds : slice LimitDecision) : slice (option apikeyv1.LimitDecision) :=
  Some ((fun d => Some (apikeyv1.mkLimitDecision (LimitDecision_LimitID d) (LimitDecision_ScopeKey d)
           (LimitDecision_Allowed d) (LimitDecision_Remaining d) (LimitDecision_RetryAfterMs d)))
          <$> elems ds).

Definition keyToProto (k : Key) : apikeyv1.ApiKey Timestamp :=
  apikeyv1.mkApiKey (Key_KeyID k) (Key_APIID k) (Key_WorkspaceID k) (Key_OwnerPrincipalID k)
    (Key_Name k) (Key_Permissions k) (limitRefsToProto (Key_LimitRefs k))
    (match Key_ExpiresAt k with None => None | Some t => Some (timestamppb_New t) end)
    (Key_RemainingUses k) (Key_Enabled k)
    (Some (timestamppb_New (Key_CreatedAt k))) (Some (timestamppb_New (Key_UpdatedAt k)))
    (match Key_LastVerifiedAt k with None => None | Some t => Some (timestamppb_New t) end)
    (Key_Metadata k).

Definition timeFromProto (t : option Timestamp) : option Time :=
  match t with
  | None => None
  | Some t => Some (timestamppb_AsTime t)
  end.

(** ** Workspace RPCs *)

Definition CreateWorkspace (s : Server St RL Lg) (req : option apikeyv1.CreateWorkspaceRequest)
    : M (answer (apikeyv1.CreateWorkspaceResponse Timestamp)) :=
  if bool_decide (apikeyv1.CreateWorkspaceRequest_GetName req = EmptyString)
  then invalid "name is required"
  else if bool_decide (apikeyv1.CreateWorkspaceRequest_GetOwnerPrincipalId req = EmptyString)
  then invalid "owner_principal_id is required"
  else
    r ← call s (CreateWorkspaceE
      (mkWorkspace EmptyString (apikeyv1.CreateWorkspaceRequest_GetName req)
         (apikeyv1.CreateWorkspaceRequest_GetOwnerPrincipalId req) zeroTime zeroTime
         (apikeyv1.CreateWorkspaceRequest_GetMetadata req)));
    Ret match r with
        | Err err => Err (mapStoreErr err)
        | Ok w => Ok (apikeyv1.mkCreateWorkspaceResponse (Some (workspaceToProto w)))
        end.

Definition GetWorkspace (s : Server St RL Lg) (req : option apikeyv1.GetWorkspaceRequest)
    : M (answer (apikeyv1.GetWorkspaceResponse Timestamp)) :=
  if bool_decide (apikeyv1.GetWorkspaceRequest_GetWorkspaceId req = EmptyString)
  then invalid "workspace_id is required"
  else
    r ← call s (GetWorkspaceE (apikeyv1.GetWorkspaceRequest_GetWorkspaceId req));
    Ret match r with
        | Err err => Err (mapStoreErr err)
        | Ok w => Ok (apikeyv1.mkGetWorkspaceResponse (Some (workspaceToProto w)))
        end.

(** ** API RPCs *)

Definition CreateApi (s : Server St RL Lg) (req : option apikeyv1.CreateApiRequest)
    : M (answer (apikeyv1.CreateApiResponse Timestamp)) :=
  if bool_decide (apikeyv1.CreateApiRequest_GetWorkspaceId req = EmptyString)
  then invalid "workspace_id is required"
  else if bool_decide (apikeyv1.CreateApiRequest_GetName req = EmptyString)
  then invalid "name is required"
  else
    r ← call s (CreateAPIE
      (mkAPI EmptyString (apikeyv1.CreateApiRequest_GetWorkspaceId req)
         (apikeyv1.CreateApiRequest_GetName req) (apikeyv1.CreateApiRequest_GetKeyPrefix req)
         zeroTime zeroTime (apikeyv1.CreateApiRequest_GetMetadata req)));
    Ret match r with
        | Err err => Err (mapStoreErr err)
        | Ok a => Ok (apikeyv1.mkCreateApiResponse (Some (apiToProto a)))
        end.

Definition GetApi (s : Server St RL Lg) (req : option apikeyv1.GetApiRequest)
    : M (answer (apikeyv1.GetApiResponse Timestamp)) :=
  if bool_decide (apikeyv1.GetApiRequest_GetApiId req = EmptyString)
  then invalid "api_id is required"
  else
    r ← call s (GetAPIE (apikeyv1.GetApiRequest_GetApiId req));
    Ret match r with
        | Err err => Err (mapStoreErr err)
        | Ok a => Ok (apikeyv1.mkGetApiResponse (Some (apiToProto a)))
        end.

(** ** Key RPCs *)

(** proto3 scalars cannot tell an omitted field from 0: both are unlimited. *)
Definition remaining_of (uses : Z) : Z := if uses <=? 0 then -1 else uses.

(** The key handed to the store: the store assigns the identifier and the times. *)
Definition key_of_request (req : option (apikeyv1.CreateKeyRequest Timestamp)) (api : API)
    (hash : list byte) : Key :=
  mkKey EmptyString (API_APIID api) (API_WorkspaceID api)
    (apikeyv1.CreateKeyRequest_GetOwnerPrincipalId req) (apikeyv1.CreateKeyRequest_GetName req)
    (Some hash) (apikeyv1.CreateKeyRequest_GetPermissions req)
    (limitRefsFromProto (apikeyv1.CreateKeyRequest_GetLimitRefs req))
    (timeFromProto (apikeyv1.CreateKeyRequest_GetExpiresAt req))
    (remaining_of (apikeyv1.CreateKeyRequest_GetRemainingUses req)) true zeroTime zeroTime None
    (apikeyv1.CreateKeyRequest_GetMetadata req).

Definition CreateKey (s : Server St RL Lg) (req : option (apikeyv1.CreateKeyRequest Timestamp))
    : M (answer (apikeyv1.CreateKeyResponse Timestamp)) :=
  if bool_decide (apikeyv1.CreateKeyRequest_GetApiId req = EmptyString)
  then invalid "api_id is required"
  else if bool_decide (apikeyv1.CreateKeyRequest_GetOwnerPrincipalId req = EmptyString)
  then invalid "owner_principal_id is required"
  else
    r ← call s (GetAPIE (apikeyv1.CreateKeyRequest_GetApiId req));
    match r with
    | Err err => Ret (Err (mapStoreErr err))
    | Ok api =>
        m ← newKeyMaterial (API_KeyPrefix api);
        match m with
        | Err err => Ret (Err (mkStatus Internal (Format "generate key material: %v" err)))
        | Ok (plaintext, hash) =>
            c ← call s (CreateKeyE (key_of_request req api hash));
            Ret match c with
                | Err err => Err (mapStoreErr err)
                | Ok created =>
                    Ok (apikeyv1.mkCreateKeyResponse (Some (keyToProto created)) plaintext)
                end
        end
    end.

Definition GetKey (s : Server St RL Lg) (req : option apikeyv1.GetKeyRequest)
    : M (answer (apikeyv1.GetKeyResponse Timestamp)) :=
  if bool_decide (apikeyv1.GetKeyRequest_GetKeyId req = EmptyString)
  then invalid "key_id is required"
  else
    r ← call s (GetKeyByIDE (apikeyv1.GetKeyRequest_GetKeyId req));
    Ret match r with
        | Err err => Err (mapStoreErr err)
        | Ok k => Ok (apikeyv1.mkGetKeyResponse (Some (keyToProto k)))
        end.

Definition RevokeKey (s : Server St RL Lg) (req : option apikeyv1.RevokeKeyRequest)
    : M (answer apikeyv1.RevokeKeyResponse) :=
  if bool_decide (apikeyv1.RevokeKeyRequest_GetKeyId req = EmptyString)
  then invalid "key_id is required"
  else
    r ← call s (RevokeKeyE (apikeyv1.RevokeKeyRequest_GetKeyId req));
    Ret match r with
        | Err err => Err (mapStoreErr err)
        | Ok _ => Ok apikeyv1.mkRevokeKeyResponse
        end.

Definition RotateKey (s : Server St RL Lg) (req : option apikeyv1.RotateKeyRequest)
    : M (answer (apikeyv1.RotateKeyResponse Timestamp)) :=
  if bool_decide (apikeyv1.RotateKeyRequest_GetKeyId req = EmptyString)
  then invalid "key_id is required"
  else
    e ← call s (GetKeyByIDE (apikeyv1.RotateKeyRequest_GetKeyId req));
    match e with
    | Err err => Ret (Err (mapStoreErr err))
    | Ok existing =>
        r ← call s (GetAPIE (Key_APIID existing));
        match r with
        | Err err => Ret (Err (mapStoreErr err))
        | Ok api =>
            m ← newKeyMaterial (API_KeyPrefix api);
            match m with
            | Err err => Ret (Err (mkStatus Internal (Format "generate key material: %v" err)))
            | Ok (plaintext, hash) =>
                c ← call s (RotateKeyE (apikeyv1.RotateKeyRequest_GetKeyId req) (Some hash));
                Ret match c with
                    | Err err => Err (mapStoreErr err)
                    | Ok rotated =>
                        Ok (apikeyv1.mkRotateKeyResponse (Some (keyToProto rotated)) plaintext)
                    end
            end
        end
    end.

Definition ListKeys (s : Server St RL Lg) (req : option apikeyv1.ListKeysRequest)
    : M (answer (apikeyv1.ListKeysResponse Timestamp)) :=
  if bool_decide (apikeyv1.ListKeysRequest_GetApiId req = EmptyString)
  then invalid "api_id is required"
  else
    r ← call s (ListKeysE
      (mkListKeysOpts (apikeyv1.ListKeysRequest_GetApiId req)
         (apikeyv1.ListKeysRequest_GetOwnerPrincipalId req)
         (apikeyv1.ListKeysRequest_GetPageSize req) (apikeyv1.ListKeysRequest_GetPageToken req)));
    Ret match r with
        | Err err => Err (mapStoreErr err)
        | Ok lr =>
            Ok (apikeyv1.mkListKeysResponse
                  (Some ((fun k => Some (keyToProto k)) <$> ListKeysResult_Keys lr))
                  (ListKeysResult_NextPageToken lr))
        end.

(** ** VerifyKey *)

Definition notFound : apikeyv1.VerifyKeyResponse :=
  apikeyv1.mkVerifyKeyResponse false apikeyv1.VERIFY_RESULT_NOT_FOUND
    EmptyString EmptyString EmptyString EmptyString None None.

(** The response for a found key, with its decision. *)
Definition verdict (k : Key) (decisions : slice (option apikeyv1.LimitDecision)) (valid : bool)
    (result : apikeyv1.VerifyResult) : apikeyv1.VerifyKeyResponse :=
  apikeyv1.mkVerifyKeyResponse valid result (Key_KeyID k) (Key_APIID k) (Key_WorkspaceID k)
    (Key_OwnerPrincipalID k) (Key_Permissions k) decisions.

(** [k.ExpiresAt != nil] and the clock is not before [*k.ExpiresAt]: the clock is read only
    for a key that can expire. *)
Definition is_expired (k : Key) : M bool :=
  match Key_ExpiresAt k with
  | None => Ret false
  | Some exp => now ← trigger Now; Ret (negb (now <? exp))
  end.

(** The end of the handler: the verification time is recorded, best effort, and
    the decision is VALID. *)
Definition finish (s : Server St RL Lg) (k : Key) (decisions : slice (option apikeyv1.LimitDecision))
    : M (answer apikeyv1.VerifyKeyResponse) :=
  at_ ← trigger Now;
  _ ← call s (TouchLastVerifiedE (Key_KeyID k) at_);
  Ret (Ok (verdict k decisions true apikeyv1.VERIFY_RESULT_VALID)).

(** The side effects of a key that passed the checks: a use is charged first. *)
Definition accept (s : Server St RL Lg) (k : Key) (decisions : slice (option apikeyv1.LimitDecision))
    : M (answer apikeyv1.VerifyKeyResponse) :=
  if 0 <? Key_RemainingUses k then
    d ← call s (DecrementRemainingUsesE (Key_KeyID k));
    match d.2 with
    | Some err =>
        if errors_is err ErrDepleted
        then Ret (Ok (verdict k decisions false apikeyv1.VERIFY_RESULT_DEPLETED))
        else Ret (Err (mkStatus Internal (Format "decrement remaining uses: %v" err)))
    | None => finish s k decisions
    end
  else finish s k decisions.

(** The inline rate limit: every decision must allow. *)
Definition check_limits (s : Server St RL Lg) (k : Key) (req : option apikeyv1.VerifyKeyRequest)
    : M (answer apikeyv1.VerifyKeyResponse) :=
  match rl s with
  | None => Ret (Err (mkStatus FailedPrecondition
              (Text "rate-limiter client not configured but key has limit_refs")))
  | Some r =>
      d ← trigger (Consume r (Key_LimitRefs k)
            (limitCost (apikeyv1.VerifyKeyRequest_GetCost req))
            (apikeyv1.VerifyKeyRequest_GetRequestId req));
      match d with
      | Err err => Ret (Err (mkStatus Unavailable (Format "rate-limiter consume: %v" err)))
      | Ok decisions =>
          if existsb (fun d => negb (LimitDecision_Allowed d)) (elems decisions)
          then Ret (Ok (verdict k (limitDecisionsToProto decisions) false
                          apikeyv1.VERIFY_RESULT_RATE_LIMITED))
          else accept s k (limitDecisionsToProto decisions)
      end
  end.

(** The checks of a key that is enabled and has not expired. *)
Definition check_live (s : Server St RL Lg) (k : Key) (req : option apikeyv1.VerifyKeyRequest)
    : M (answer apikeyv1.VerifyKeyResponse) :=
  if Key_RemainingUses k =? 0
  then Ret (Ok (verdict k None false apikeyv1.VERIFY_RESULT_DEPLETED))
  else if negb (hasAllPermissions (Key_Permissions k)
                  (apikeyv1.VerifyKeyRequest_GetRequiredPermissions req))
  then Ret (Ok (verdict k None false apikeyv1.VERIFY_RESULT_FORBIDDEN))
  else if negb (apikeyv1.VerifyKeyRequest_GetSkipRatelimit req) &&
          (0 <? length (elems (Key_LimitRefs k)))%nat
  then check_limits s k req
  else accept s k None.

(** The checks of a key that was found. *)
Definition check_key (s : Server St RL Lg) (k : Key) (req : option apikeyv1.VerifyKeyRequest)
    : M (answer apikeyv1.VerifyKeyResponse) :=
  if negb (Key_Enabled k) then Ret (Ok (verdict k None false apikeyv1.VERIFY_RESULT_REVOKED))
  else
    expired ← is_expired k;
    if (expired : bool) then Ret (Ok (verdict k None false apikeyv1.VERIFY_RESULT_EXPIRED))
    else check_live s k req.

Definition VerifyKey (s : Server St RL Lg) (req : option apikeyv1.VerifyKeyRequest)
    : M (answer apikeyv1.VerifyKeyResponse) :=
  let plaintext := apikeyv1.VerifyKeyRequest_GetPlaintext req in
  match keymat.Validate plaintext EmptyString with
  | Some _ => Ret (Ok notFound)
  | None =>
      r ← call s (GetKeyByHashE (Some (keymat.Hash plaintext)));
      match r with
      | Err err =>
          if errors_is err ErrNotFound then Ret (Ok notFound)
          else Ret (Err (mkStatus Internal (Format "lookup key: %v" err)))
      | Ok k => check_key s k req
      end
  end.
End Handlers.
End keychainserver.
