(* ===== verification/ServerLogic.v ===== *)
(** * ServerLogic: running handlers over any driver

    The environment of the handlers over a driver that implements the [Store]
    interface, the contract of each of its events, and the two reasoning
    principles the theorems about the server use: a weakest precondition for
    sequential runs ([swp]) and an invariant rule for interleaved requests
    ([pool_invariant]).  Both only use the promise of the driver ([StoreImpl]). *)

From S2P Require Import Prelude Effects Store Keymat StoreSpec StoreFacts Apikeyv1 Server.

Section Logic.
Context {S I : Type} {impl : StoreImpl S I}.
Context {St RL : Type}.

(** What the environment supplies to one event. *)
Record SrvInp : Type := mkSrvInp {
  si_store : I;
  si_now : Time;
  si_reader : keymat.reader;
  si_consume : RL -> slice LimitRef -> Z -> string -> res (slice LimitDecision);
}.

Definition srv_handle (X : Type) (e : SrvE St RL X) (i : SrvInp) (s : S) : option (S * X) :=
  match e in SrvE _ _ X return option (S * X) with
  | StoreCall _ e => st_handle _ e (si_store i) s
  | Now => Some (s, si_now i)
  | ReadRandom => Some (s, si_reader i)
  | Consume r refs cost rid => Some (s, si_consume i r refs cost rid)
  end.

Definition srv_event_ok {X} (e : SrvE St RL X) : Prop :=
  match e with StoreCall _ e => event_ok e | _ => True end.

(** Only store calls change the store, within the contract. *)
Definition srv_contract {X} (e : SrvE St RL X) (A : AStore) : X -> AStore -> Prop :=
  match e in SrvE _ _ X return X -> AStore -> Prop with
  | StoreCall _ e => store_contract st_nt st_le any_time st_restamps st_faults e A
  | _ => fun _ A' => A' = A
  end.

Lemma srv_handle_refines X (e : SrvE St RL X) i s :
  st_inv s -> st_ok (si_store i) s -> srv_event_ok e ->
  exists s' x, srv_handle X e i s = Some (s', x) /\ st_inv s' /\
    srv_contract e (st_abs s) x (st_abs s').
Proof.
  intros Hi Ho He. destruct e; simpl; eauto.
  destruct (st_refines _ e (si_store i) s Hi Ho He) as (s' & x & ? & ? & ?).
  exists s', x. split_and!; [done..|]. by eapply (store_contract_any _ _ _ _ _ _ _ _ _ _ id).
Qed.

Lemma srv_contract_change X (e : SrvE St RL X) A x A' : srv_contract e A x A' -> change A A'.
Proof. destruct e; simpl; try (intros ->; constructor). apply contract_change. Qed.

(** ** Sequential runs *)

(** [swp p A Q]: from any state abstracting to [A], whatever the environment
    answers within its contracts, [p] performs well-typed calls and ends with a
    log, an abstract state and a result in [Q]. *)
Fixpoint swp {R} (p : prog (SrvE St RL) R) (A : AStore)
    (Q : list (event (SrvE St RL)) -> AStore -> R -> Prop) : Prop :=
  match p with
  | Ret r => Q [] A r
  | Vis e k =>
      srv_event_ok e /\
      forall x A', srv_contract e A x A' -> swp (k x) A' (fun l => Q (Ev e x :: l))
  end.

Lemma swp_mono {R} (p : prog (SrvE St RL) R) A Q Q' :
  (forall l A r, Q l A r -> Q' l A r) -> swp p A Q -> swp p A Q'.
Proof.
  revert A Q Q'. induction p as [r|X e k IH]; simpl; intros A Q Q' HQ; [apply HQ|].
  intros [He H]. split; [done|]. intros x A' Hc.
  apply (IH x A' (fun l => Q (Ev e x :: l))); [|by apply H]. intros *. apply HQ.
Qed.

Lemma swp_bind {R R'} (p : prog (SrvE St RL) R) (f : R -> prog (SrvE St RL) R') A Q :
  swp p A (fun l A' r => swp (f r) A' (fun l' => Q (l ++ l'))) -> swp (bind f p) A Q.
Proof.
  revert A Q. induction p as [r|X e k IH]; simpl; intros A Q H; [done|].
  destruct H as [He H]. split; [done|]. intros x A' Hc. by apply IH, H.
Qed.

(** Well-formedness is kept by every handler. *)
Lemma swp_wf {R} (p : prog (SrvE St RL) R) A Q :
  a_wf A -> swp p A Q -> swp p A (fun l A' r => a_wf A' /\ Q l A' r).
Proof.
  revert A Q. induction p as [r|X e k IH]; simpl; intros A Q Hwf H; [done|].
  destruct H as [He H]. split; [done|]. intros x A' Hc.
  apply (IH x A' (fun l => Q (Ev e x :: l))); [|by apply H].
  eapply change_wf; [done|]. by eapply srv_contract_change.
Qed.

(** One event at a time. *)
Lemma swp_trigger {X R} (e : SrvE St RL X) (f : X -> prog (SrvE St RL) R) A Q :
  srv_event_ok e ->
  (forall x A', srv_contract e A x A' -> swp (f x) A' (fun l => Q (@Ev (SrvE St RL) X e x :: l))) ->
  swp (x ← trigger e; f x) A Q.
Proof. intros He H. split; [done|]. intros x A' Hc. by apply H. Qed.

Lemma swp_call {X R Lg} (s : Server St RL Lg) (e : StoreE X) (f : X -> prog (SrvE St RL) R) A Q :
  event_ok e ->
  (forall x A', store_contract st_nt st_le any_time st_restamps st_faults e A x A' ->
    swp (f x) A' (fun l => Q (@Ev (SrvE St RL) X (StoreCall (store s) e) x :: l))) ->
  swp (x ← keychainserver.call s e; f x) A Q.
Proof. intros He H. by apply swp_trigger. Qed.

Lemma swp_now {R} (f : Time -> prog (SrvE St RL) R) A Q :
  (forall now, swp (f now) A (fun l => Q (@Ev (SrvE St RL) Time Now now :: l))) ->
  swp (now ← trigger Now; f now) A Q.
Proof. intros H. apply swp_trigger; [done|]. intros now A' ->. apply H. Qed.

(** The inputs of a run fit the states it goes through. *)
Fixpoint inputs_ok {R} (p : prog (SrvE St RL) R) (ins : nat -> SrvInp) (n : nat) (s : S) : Prop :=
  match p with
  | Ret _ => True
  | Vis e k =>
      st_ok (si_store (ins n)) s /\
      match srv_handle _ e (ins n) s with
      | Some (s', x) => inputs_ok (k x) ins (Datatypes.S n) s'
      | None => True
      end
  end.

(** Soundness: the run does not panic, it returns, and its result is in [Q]. *)
Lemma swp_run {R} (p : prog (SrvE St RL) R) ins n s Q :
  st_inv s -> inputs_ok p ins n s -> swp p (st_abs s) Q ->
  exists s' n' r, run srv_handle p ins n s = Some (s', n', r) /\
    st_inv s' /\ Q (trace srv_handle p ins n s) (st_abs s') r.
Proof.
  revert n s Q. induction p as [r|X e k IH]; simpl; intros n s Q Hi Hok Hwp.
  - by exists s, n, r.
  - destruct Hok as [Ho Hok], Hwp as [He Hwp].
    destruct (srv_handle_refines X e (ins n) s Hi Ho He) as (s' & x & Hh & Hi' & Hc).
    rewrite Hh in *. destruct (IH x _ s' _ Hi' Hok (Hwp x _ Hc)) as (s2 & n2 & r & ? & ? & ?).
    by exists s2, n2, r.
Qed.

(** ** Interleaved requests *)

Fixpoint sched_ok {R} (sched : list (nat * SrvInp)) (c : config (SrvE St RL) S R) : Prop :=
  match sched with
  | [] => True
  | ti :: rest =>
      st_ok (si_store ti.2) (world c) /\
      match cstep srv_handle c ti with
      | Some c' => sched_ok rest c'
      | None => True
      end
  end.

Lemma sched_ok_app {R} pre post (c c' : config (SrvE St RL) S R) :
  sched_ok (pre ++ post) c -> run_schedule srv_handle pre c = Some c' -> sched_ok post c'.
Proof.
  revert c. induction pre as [|ti pre IH]; simpl; intros c; [by intros ? [= ->]|].
  intros [_ Hok] Hr. destruct (cstep srv_handle c ti) as [c1|]; [by apply (IH c1)|done].
Qed.

Lemma sched_ok_prefix {R} pre post (c : config (SrvE St RL) S R) :
  sched_ok (pre ++ post) c -> sched_ok pre c.
Proof.
  revert c. induction pre as [|ti pre IH]; simpl; intros c; [done|].
  intros [Ho Hok]. split; [done|]. destruct (cstep srv_handle c ti) as [c1|]; [by apply IH|done].
Qed.

Lemma sched_ok_split {R} pre ti post (c c' : config (SrvE St RL) S R) :
  sched_ok (pre ++ ti :: post) c -> run_schedule srv_handle pre c = Some c' ->
  st_ok (si_store ti.2) (world c').
Proof. intros Hok Hr. by destruct (sched_ok_app _ _ _ _ Hok Hr) as [? _]. Qed.

(** A program all of whose calls are well typed, after a log. *)
Definition calls_ok {R} (past : list (event (SrvE St RL))) (p : prog (SrvE St RL) R) : Prop :=
  emits (fun _ X e => srv_event_ok e) past p.

(** What every reachable configuration of well-typed programs satisfies. *)
Definition pool_ok {R} (c : config (SrvE St RL) S R) : Prop :=
  st_inv (world c) /\ forall t p, pool c !! t = Some p -> calls_ok [] p.

Lemma calls_ok_past {R} past past' (p : prog (SrvE St RL) R) : calls_ok past p -> calls_ok past' p.
Proof.
  unfold calls_ok. revert past past'. induction p as [r|X e k IH]; simpl; [done|].
  intros past past' [He Hk]. split; [done|]. intros x. by eapply IH.
Qed.

(** The invariant rule: [P] holds initially and is kept by every atomic step that
    meets the contract of its event. *)
Lemma pool_invariant {R} (P : config (SrvE St RL) S R -> Prop) sched c0 c :
  pool_ok c0 -> P c0 -> sched_ok sched c0 ->
  (forall c t X (e : SrvE St RL X) k s' x,
    P c -> pool_ok c -> pool c !! t = Some (Vis e k) ->
    srv_contract e (st_abs (world c)) x (st_abs s') -> st_inv s' ->
    P (Config (<[t := k x]> (pool c)) s' (log c ++ [(t, Ev e x)]))) ->
  run_schedule srv_handle sched c0 = Some c -> pool_ok c /\ P c.
Proof.
  intros Hp0 HP0 Hok Hstep.
  apply (run_schedule_ind srv_handle (fun c ti => st_ok (si_store ti.2) (world c))
           (fun c => pool_ok c /\ P c)); [|intros pre ti post cm -> Hr; exact (sched_ok_split pre ti post c0 cm Hok Hr)|done].
  intros c1 [t i] c2 [Hp1 HP1] Ho Hs. destruct Hp1 as [Hi Hcalls].
  apply cstep_inv in Hs as (X & e & k & s' & x & Hpool & Hh & ->). simpl in *.
  pose proof (Hcalls t _ Hpool) as [He Hk].
  destruct (srv_handle_refines X e i (world c1) Hi Ho He) as (s2 & x2 & Hh2 & Hi2 & Hc).
  rewrite Hh2 in Hh. simplify_eq. split; [|by apply Hstep].
  split; [done|]. simpl. intros t' p' Hl.
  destruct (decide (t = t')) as [<-|Hne].
  - rewrite list_lookup_insert_eq in Hl by (by eapply lookup_lt_Some).
    injection Hl as <-. exact (calls_ok_past _ _ _ (Hk x)).
  - rewrite list_lookup_insert_ne in Hl by done. eauto.
Qed.

(** No schedule gets stuck: an unfinished request can always take its step. *)
Lemma pool_progress {R} (c : config (SrvE St RL) S R) t X (e : SrvE St RL X) k i :
  pool_ok c -> pool c !! t = Some (Vis e k) -> st_ok (si_store i) (world c) ->
  is_Some (cstep srv_handle c (t, i)).
Proof.
  intros [Hi Hcalls] Hpool Ho. pose proof (Hcalls t _ Hpool) as [He _].
  destruct (srv_handle_refines X e i (world c) Hi Ho He) as (s' & x & Hh & _).
  eexists. eapply cstep_enabled; eauto.
Qed.
End Logic.
Arguments SrvInp I RL : clear implicits.

(** ** Calls as statements

    The methods of a driver as programs of statements: the calls of a request are
    programs, the rest is between the request and its environment. *)
Section Statements.
Context {D : Sig} {I St RL : Type}.
Variable method : forall X : Type, StoreE X -> prog D X.

Definition store_split (X : Type) (e : SrvE St RL X) : (SrvE St RL X + prog D X)%type :=
  match e in SrvE _ _ X return (SrvE St RL X + prog D X)%type with
  | StoreCall _ e => inr (method _ e)
  | Now => inl Now
  | ReadRandom => inl ReadRandom
  | Consume r refs cost rid => inl (Consume r refs cost rid)
  end.

Definition outside (X : Type) (e : SrvE St RL X) (i : SrvInp I RL) : option X :=
  match e in SrvE _ _ X return option X with
  | StoreCall _ _ => None
  | Now => Some (si_now i)
  | ReadRandom => Some (si_reader i)
  | Consume r refs cost rid => Some (si_consume i r refs cost rid)
  end.
End Statements.
