(* ===== verification/ServerSpec.v ===== *)
(** * ServerSpec: what VerifyKey promises, over any driver

    [verify_outcome] lists the outcomes of a sequential [VerifyKey] against the
    abstract store: for each one the conditions, in the order of the checks, the
    answer and the effect.  The handler is proved to produce one of them. *)

From S2P Require Import Prelude Effects Store Crypto Keymat StoreSpec StoreFacts Apikeyv1 Server ServerLogic.
Import keychainserver.

(** ** Permissions *)

Lemma permission_set_elem have p : p ∈ permission_set have <-> p ∈ have.
Proof.
  unfold permission_set.
  assert (Hgen : forall (set : gset string),
    p ∈ fold_left (fun set p => {[p]} ∪ set) have set <-> p ∈ have \/ p ∈ set).
  { induction have as [|q have IH]; intros set; simpl; [set_solver|]. rewrite IH. set_solver. }
  rewrite Hgen. set_solver.
Qed.

Lemma all_in_spec set required : all_in set required = true <-> forall p, p ∈ required -> p ∈ set.
Proof.
  induction required as [|q required IH]; simpl; [set_solver|].
  case_bool_decide as Hq; [rewrite IH; set_solver|]. split; [done|]. intros H. destruct Hq. set_solver.
Qed.

Definition permitted (have required : slice string) : Prop :=
  forall p, p ∈ elems required -> p ∈ elems have.

Lemma hasAllPermissions_permitted have required :
  hasAllPermissions have required = true <-> permitted have required.
Proof.
  unfold hasAllPermissions, permitted. destruct (elems required) as [|q l] eqn:He; simpl.
  - split; [set_solver|done].
  - change ((if bool_decide (q ∈ permission_set (elems have))
             then all_in (permission_set (elems have)) l else false))
      with (all_in (permission_set (elems have)) (q :: l)).
    rewrite all_in_spec. by setoid_rewrite permission_set_elem.
Qed.

Lemma hasAllPermissions_not have required :
  hasAllPermissions have required = false <-> ~ permitted have required.
Proof. rewrite <- hasAllPermissions_permitted. by rewrite not_true_iff_false. Qed.

(** ** Outcomes *)

Section Spec.
Context {S I : Type} {impl : StoreImpl S I}.
Context {St RL Lg : Type} (s : Server St RL Lg) (req : option apikeyv1.VerifyKeyRequest).

Abbreviation E := (SrvE St RL).
Abbreviation required := (apikeyv1.VerifyKeyRequest_GetRequiredPermissions req).
Abbreviation presented := (apikeyv1.VerifyKeyRequest_GetPlaintext req).

(** The key had not expired at an instant that the handler read from its clock; a key
    without expiry needs no reading. *)
Definition unexpired (l : list (event E)) (k : Key) : Prop :=
  match Key_ExpiresAt k with
  | None => True
  | Some t => exists now, @Ev E Time Now now ∈ l /\ now < t
  end.

Definition consults_limiter (k : Key) : Prop :=
  apikeyv1.VerifyKeyRequest_GetSkipRatelimit req = false /\ elems (Key_LimitRefs k) <> [].

(** The call of the rate-limiter for [k], with its answer. *)
Definition consumed (r : RL) (k : Key) (d : res (slice LimitDecision)) : event E :=
  @Ev E _ (Consume r (Key_LimitRefs k) (limitCost (apikeyv1.VerifyKeyRequest_GetCost req))
       (apikeyv1.VerifyKeyRequest_GetRequestId req)) d.

(** The stored key whose hash is that of the presented plaintext, and the copy [k]
    the driver answered with. *)
Definition found (A : AStore) (id : string) (k : Key) : Prop :=
  a_keys A !! id = Some (norm_key st_nt k) /\ same_hash (Some (keymat.Hash presented)) (norm_key st_nt k).

(** The checks that precede the rate limit, all passed. *)
Definition usable (l : list (event E)) (k : Key) : Prop :=
  Key_Enabled k = true /\ unexpired l k /\ Key_RemainingUses k <> 0 /\
  permitted (Key_Permissions k) required.

(** The effect of a VALID decision on the stored key: one use charged when uses
    are counted, and the time of the verification (which is best effort). *)
Definition charged (k k' : Key) : Prop :=
  if decide (0 < Key_RemainingUses k)
  then exists t, k' = Key_set_RemainingUses (Key_RemainingUses k - 1) t k
  else k' = k.

Definition touched (l : list (event E)) (k k' : Key) : Prop :=
  (exists now, @Ev E Time Now now ∈ l /\ k' = Key_set_LastVerifiedAt (st_nt now) k) \/
  (st_faults /\ k' = k).

(** The rate-limit clause of a VALID outcome. *)
Definition limits_passed (l : list (event E)) (k : Key) (ds : slice (option apikeyv1.LimitDecision)) : Prop :=
  if decide (consults_limiter k)
  then exists r raw, rl s = Some r /\ consumed r k (Ok raw) ∈ l /\
         (forall d, d ∈ elems raw -> LimitDecision_Allowed d = true) /\ ds = limitDecisionsToProto raw
  else ds = None.

Inductive verify_outcome (A : AStore) (l : list (event E)) :
    AStore -> result status apikeyv1.VerifyKeyResponse -> Prop :=
| VO_malformed :
    presented = EmptyString -> verify_outcome A l A (Ok notFound)
| VO_unknown :
    presented <> EmptyString -> hash_free (Some (keymat.Hash presented)) A ->
    verify_outcome A l A (Ok notFound)
| VO_lookup_failed err :
    st_faults -> foreign err ->
    verify_outcome A l A (Err (mkStatus Internal (Format "lookup key: %v" err)))
| VO_revoked id k :
    found A id k -> Key_Enabled k = false ->
    verify_outcome A l A (Ok (verdict k None false apikeyv1.VERIFY_RESULT_REVOKED))
| VO_expired id k t now :
    found A id k -> Key_Enabled k = true -> Key_ExpiresAt k = Some t ->
    @Ev E Time Now now ∈ l -> t <= now ->
    verify_outcome A l A (Ok (verdict k None false apikeyv1.VERIFY_RESULT_EXPIRED))
| VO_depleted id k :
    found A id k -> Key_Enabled k = true -> unexpired l k -> Key_RemainingUses k = 0 ->
    verify_outcome A l A (Ok (verdict k None false apikeyv1.VERIFY_RESULT_DEPLETED))
| VO_forbidden id k :
    found A id k -> Key_Enabled k = true -> unexpired l k -> Key_RemainingUses k <> 0 ->
    ~ permitted (Key_Permissions k) required ->
    verify_outcome A l A (Ok (verdict k None false apikeyv1.VERIFY_RESULT_FORBIDDEN))
| VO_no_limiter id k :
    found A id k -> usable l k -> consults_limiter k -> rl s = None ->
    verify_outcome A l A (Err (mkStatus FailedPrecondition
      (Text "rate-limiter client not configured but key has limit_refs")))
| VO_limiter_failed id k r err :
    found A id k -> usable l k -> consults_limiter k -> rl s = Some r ->
    consumed r k (Err err) ∈ l ->
    verify_outcome A l A (Err (mkStatus Unavailable (Format "rate-limiter consume: %v" err)))
| VO_rate_limited id k r ds d :
    found A id k -> usable l k -> consults_limiter k -> rl s = Some r ->
    consumed r k (Ok ds) ∈ l -> d ∈ elems ds -> LimitDecision_Allowed d = false ->
    verify_outcome A l A (Ok (verdict k (limitDecisionsToProto ds) false
      apikeyv1.VERIFY_RESULT_RATE_LIMITED))
| VO_decrement_failed id k ds err k' :
    found A id k -> usable l k -> limits_passed l k ds ->
    0 < Key_RemainingUses k -> st_faults -> foreign err ->
    k' = norm_key st_nt k \/ charged (norm_key st_nt k) k' ->
    verify_outcome A l (a_put_key id k' A)
      (Err (mkStatus Internal (Format "decrement remaining uses: %v" err)))
| VO_valid id k ds k1 k2 :
    found A id k -> usable l k ->
    limits_passed l k ds ->
    charged (norm_key st_nt k) k1 -> touched l k1 k2 ->
    verify_outcome A l (a_put_key id k2 A)
      (Ok (verdict k ds true apikeyv1.VERIFY_RESULT_VALID)).

(** ** The handler produces one of the outcomes *)

Lemma norm_key_id k : Key_KeyID (norm_key st_nt k) = Key_KeyID k.
Proof. done. Qed.

Lemma unexpired_mono l l' k : unexpired l k -> unexpired (l ++ l') k.
Proof.
  unfold unexpired. destruct (Key_ExpiresAt k); [|done].
  intros (now & Hin & Hlt). exists now. split; [|done]. apply elem_of_app. by left.
Qed.

Lemma usable_mono l l' k : usable l k -> usable (l ++ l') k.
Proof. intros (? & Hu & ? & ?). split_and!; auto using unexpired_mono. Qed.

Lemma a_put_key_twice id k1 k2 A : a_put_key id k2 (a_put_key id k1 A) = a_put_key id k2 A.
Proof. unfold a_put_key. simpl. by rewrite insert_insert_eq. Qed.

Lemma a_put_key_same id k A : a_keys A !! id = Some k -> a_put_key id k A = A.
Proof. intros Hk. unfold a_put_key. rewrite insert_id by done. by destruct A. Qed.

Lemma verify_outcome_stay A l A' r : verify_outcome A l A' r -> A' = A -> verify_outcome A l A r.
Proof. by intros ? ->. Qed.

(** The event of a store call of the handler. *)
Abbreviation called e x := (@Ev E _ (StoreCall (store s) e) x).

(** The last step: the clock is read and the verification time recorded. *)
Lemma finish_outcome past A id k k1 ds :
  Key_KeyID k = id -> a_keys A !! id = Some k1 ->
  swp (finish s k ds) A
    (fun l A' r => r = Ok (verdict k ds true apikeyv1.VERIFY_RESULT_VALID) /\
       exists k2, touched (past ++ l) k1 k2 /\ A' = a_put_key id k2 A).
Proof.
  intros Hid Hk. apply swp_now. intros now. apply swp_call; [done|]. intros r A2 Hc.
  split; [done|]. rewrite Hid in Hc.
  set (l := past ++ _).
  assert (Hnow : @Ev E Time Now now ∈ l) by (apply elem_of_app; right; left).
  assert (Hspec : forall r', spec_TouchLastVerified st_nt id now A r' A2 ->
    exists k2, touched l k1 k2 /\ A2 = a_put_key id k2 A).
  { intros r' Hs. unfold spec_TouchLastVerified in Hs. rewrite Hk in Hs. destruct Hs as [_ ->].
    eexists. split; [|done]. left. eauto. }
  destruct Hc as [Hs|(Hf & _ & [->|[r' Hs]])]; [by eapply Hspec| |by eapply Hspec].
  exists k1. split; [right; done|]. by rewrite a_put_key_same.
Qed.

(** Charging a use of a stored key that has some left. *)
Lemma decrement_charges A id k r A' :
  a_keys A !! id = Some k -> 0 < Key_RemainingUses k ->
  spec_DecrementRemainingUses st_nt any_time id A r A' ->
  r = (Key_RemainingUses k - 1, None) /\ exists k1, charged k k1 /\ A' = a_put_key id k1 A.
Proof.
  intros Hk Hpos Hs. unfold spec_DecrementRemainingUses in Hs. rewrite Hk in Hs.
  rewrite !decide_False in Hs by lia. destruct Hs as (-> & t & _ & ->).
  split; [done|]. eexists. split; [|done]. unfold charged. rewrite decide_True by lia. by exists (st_nt t).
Qed.

Lemma limits_passed_mono l l' k ds : limits_passed l k ds -> limits_passed (l ++ l') k ds.
Proof.
  unfold limits_passed. case_decide; [|done]. intros (r & raw & ? & Hin & ? & ?).
  exists r, raw. split_and!; [done| |done|done]. apply elem_of_app. by left.
Qed.

Lemma accept_outcome past A id k ds :
  a_wf A -> found A id k -> usable past k -> limits_passed past k ds ->
  swp (accept s k ds) A (fun l => verify_outcome A (past ++ l)).
Proof.
  intros Hwf Hfound Hu Hds. pose proof Hfound as [Hk Hh].
  assert (Hid : Key_KeyID k = id) by (pose proof (a_wf_key _ Hwf id _ Hk); done).
  unfold accept. destruct (Z.ltb_spec 0 (Key_RemainingUses k)) as [Hpos|Hneg].
  - apply swp_call; [done|]. intros [n o] A1 Hc. rewrite Hid in Hc.
    destruct Hc as [Hs|(Hf & (err & Ho & Hfor) & Heff)].
    + apply (decrement_charges _ _ _ _ _ Hk Hpos) in Hs as ([= -> ->] & k1 & Hch & ->).
      eapply swp_mono; [|apply (finish_outcome (past ++ [called (DecrementRemainingUsesE (Key_KeyID k)) (Key_RemainingUses k - 1, None)]) _ id k k1 ds Hid)].
      * intros l A' r (-> & k2 & Ht & ->). rewrite <- app_assoc in Ht.
        rewrite a_put_key_twice. eapply VO_valid; eauto using usable_mono, limits_passed_mono.
      * simpl. by rewrite lookup_insert_eq.
    + simpl in Ho. subst o. cbn [snd]. pose proof Hfor as (_ & _ & ->).
      destruct Heff as [->|[r' Hs]].
      * eapply (verify_outcome_stay A); [|by apply (a_put_key_same id (norm_key st_nt k))].
        eapply VO_decrement_failed; eauto using usable_mono, limits_passed_mono.
      * apply (decrement_charges _ _ _ _ _ Hk Hpos) in Hs as (_ & k1 & Hch & ->).
        eapply VO_decrement_failed; eauto using usable_mono, limits_passed_mono.
  - eapply swp_mono; [|apply (finish_outcome past A id k (norm_key st_nt k) ds Hid Hk)].
    intros l A' r (-> & k2 & Ht & ->). eapply VO_valid; eauto using usable_mono, limits_passed_mono.
    unfold charged. simpl. by rewrite decide_False by lia.
Qed.

(** The rate limit, for a key that passed the local checks. *)
Lemma limits_outcome past A id k :
  a_wf A -> found A id k -> usable past k ->
  swp (if negb (apikeyv1.VerifyKeyRequest_GetSkipRatelimit req) &&
          (0 <? length (elems (Key_LimitRefs k)))%nat
       then check_limits s k req else accept s k None) A
    (fun l => verify_outcome A (past ++ l)).
Proof.
  intros Hwf Hf Hu.
  destruct (negb _ && _) eqn:Hc.
  - assert (Hlim : consults_limiter k).
    { apply andb_true_iff in Hc as [Hs Hl]. apply negb_true_iff in Hs. apply Nat.ltb_lt in Hl.
      split; [done|]. by destruct (elems (Key_LimitRefs k)); simpl in Hl; [lia|]. }
    unfold check_limits. destruct (rl s) as [r|] eqn:Hr.
    2: { eapply VO_no_limiter; eauto using usable_mono. }
    apply swp_trigger; [done|]. intros d A' Hd. simpl in Hd. subst A'.
    assert (Hin : forall l, consumed r k d ∈ past ++ consumed r k d :: l).
    { intros l. apply elem_of_app. right. left. }
    destruct d as [ds|err]; [|by eapply VO_limiter_failed; eauto using usable_mono].
    destruct (existsb _ (elems ds)) eqn:Hd.
    + apply existsb_exists in Hd as (d & Hd & Ha). apply list_elem_of_In in Hd.
      apply negb_true_iff in Ha. by eapply VO_rate_limited; eauto using usable_mono.
    + eapply swp_mono; [|apply (accept_outcome (past ++ [consumed r k (Ok ds)]) A id); eauto using usable_mono].
      * intros l A' r' Hl. cbn beta in Hl. by rewrite <- app_assoc in Hl.
      * unfold limits_passed. rewrite decide_True by done. exists r, ds. split_and!; [done| | |done].
        -- apply elem_of_app. right. left.
        -- intros d Hd'. destruct (LimitDecision_Allowed d) eqn:Ha; [done|].
           assert (existsb (fun d => negb (LimitDecision_Allowed d)) (elems ds) = true); [|congruence].
           apply existsb_exists. exists d. rewrite Ha. split; [by apply list_elem_of_In|done].
  - apply (accept_outcome past A id); [done..|]. unfold limits_passed. rewrite decide_False; [done|].
    intros [Hs Hne]. rewrite Hs in Hc. simpl in Hc. apply Nat.ltb_ge in Hc.
    apply Hne. by destruct (elems (Key_LimitRefs k)); [|simpl in Hc; lia].
Qed.

(** The checks after the lookup. *)
Lemma checks_outcome past A id k :
  a_wf A -> found A id k -> swp (check_key s k req) A (fun l => verify_outcome A (past ++ l)).
Proof.
  intros Hwf Hf. unfold check_key.
  destruct (Key_Enabled k) eqn:He; simpl negb; cbn iota; [|by eapply VO_revoked].
  assert (Hrest : forall past, unexpired past k ->
    swp (check_live s k req) A (fun l => verify_outcome A (past ++ l))).
  { clear past. intros past Hux. unfold check_live.
    destruct (Z.eqb_spec (Key_RemainingUses k) 0); [by eapply VO_depleted; eauto using unexpired_mono|].
    destruct (hasAllPermissions _ _) eqn:Hp; simpl negb; cbn iota.
    - apply hasAllPermissions_permitted in Hp. eapply limits_outcome; [done|done|by repeat split].
    - apply hasAllPermissions_not in Hp. by eapply VO_forbidden; eauto using unexpired_mono. }
  unfold is_expired. destruct (Key_ExpiresAt k) as [t|] eqn:Ht.
  - apply swp_bind, swp_now. intros now. cbn [swp bind app].
    assert (Hin : @Ev E Time Now now ∈ past ++ [@Ev E Time Now now]) by (apply elem_of_app; right; left).
    destruct (Z.ltb_spec now t) as [Hlt|Hge]; cbn [negb].
    + eapply swp_mono; [|apply (Hrest (past ++ [@Ev E Time Now now]))].
      * intros l A' r Hl. cbn beta in Hl. by rewrite <- app_assoc in Hl.
      * unfold unexpired. rewrite Ht. by exists now.
    + by eapply VO_expired; eauto.
  - apply (Hrest past). unfold unexpired. by rewrite Ht.
Qed.

(** The whole handler. *)
Lemma VerifyKey_outcome A : a_wf A -> swp (VerifyKey s req) A (verify_outcome A).
Proof.
  intros Hwf. unfold VerifyKey, keymat.Validate.
  case_bool_decide as Hempty; [by apply VO_malformed|].
  rewrite bool_decide_eq_true_2 by done. cbn [negb andb].
  apply swp_call; [by eexists|]. intros r A' Hc.
  destruct Hc as [[-> [[(err & -> & Hnf) Hfree]|(id & k0 & k & -> & Hk0 & Hh & Hn)]]|(Hf & (err & -> & Hfor) & HA)].
  - rewrite Hnf. by apply VO_unknown.
  - subst k0. apply (checks_outcome [_] A id); [done|by split].
  - pose proof Hfor as (-> & _ & _). assert (A' = A) as ->.
    { destruct HA as [|[r' [? _]]]; done. }
    by apply VO_lookup_failed.
Qed.

(** ** Consequences *)

(** A decision that is not VALID has no effect on the store. *)
Lemma outcome_no_effect A l A' r :
  verify_outcome A l A' (Ok r) -> apikeyv1.VerifyKeyResponse_Result r <> apikeyv1.VERIFY_RESULT_VALID ->
  A' = A.
Proof. intros Ho Hr. inversion Ho; subst; done. Qed.

Lemma outcome_flag A l A' r :
  verify_outcome A l A' (Ok r) ->
  apikeyv1.VerifyKeyResponse_Valid r = true <->
  apikeyv1.VerifyKeyResponse_Result r = apikeyv1.VERIFY_RESULT_VALID.
Proof. intros Ho. by inversion Ho; subst. Qed.

(** An answer that is an error is one of three, and two of them are the
    rate-limiter's. *)
Lemma outcome_codes A l A' m c :
  verify_outcome A l A' (Err (mkStatus c m)) ->
  (c = Internal /\ st_faults) \/ (c = FailedPrecondition /\ rl s = None) \/
  (c = Unavailable /\ exists r k err, consumed r k (Err err) ∈ l).
Proof.
  intros Ho. inversion Ho; subst; [left; auto|right; left; auto|right; right; eauto|left; auto].
Qed.

Lemma norm_key_fields k k' :
  norm_key st_nt k = norm_key st_nt k' ->
  Key_KeyID k = Key_KeyID k' /\ Key_OwnerPrincipalID k = Key_OwnerPrincipalID k' /\
  Key_Enabled k = Key_Enabled k' /\ Key_RemainingUses k = Key_RemainingUses k' /\
  elems (Key_Permissions k) = elems (Key_Permissions k') /\
  elems (Key_LimitRefs k) = elems (Key_LimitRefs k') /\
  st_nt <$> Key_ExpiresAt k = st_nt <$> Key_ExpiresAt k'.
Proof.
  intros Hn. pose proof (f_equal Key_KeyID Hn). pose proof (f_equal Key_OwnerPrincipalID Hn).
  pose proof (f_equal Key_Enabled Hn). pose proof (f_equal Key_RemainingUses Hn).
  pose proof (f_equal (fun k => elems (Key_Permissions k)) Hn) as Hp.
  pose proof (f_equal (fun k => elems (Key_LimitRefs k)) Hn) as Hl.
  pose proof (f_equal Key_ExpiresAt Hn) as He. unfold norm_key in Hp, Hl, He.
  cbn [Key_Permissions Key_LimitRefs Key_ExpiresAt] in Hp, Hl, He. rewrite !elems_append_nil in Hp. rewrite !elems_append_nil in Hl.
  by split_and!.
Qed.

(** Two stored keys with the presented hash are one. *)
Lemma found_unique A id k id' k0 :
  a_wf A -> found A id k -> a_keys A !! id' = Some (norm_key st_nt k0) ->
  same_hash (Some (keymat.Hash presented)) (norm_key st_nt k0) ->
  norm_key st_nt k = norm_key st_nt k0.
Proof.
  intros Hwf [Hk Hh] Hk0 Hh0.
  assert (id = id') as ->; [|congruence].
  apply (a_wf_hash _ Hwf id id' _ _ Hk Hk0). unfold same_hash in *. congruence.
Qed.

(** The driver failed, and the caller was told so. *)
Definition faulted {R} (r : result status R) : Prop :=
  st_faults /\ exists m, r = Err (mkStatus Internal m).

(** Every instant that was read is before the expiry [e], at the driver's precision. *)
Definition live (e : option Time) (ev : event E) : Prop :=
  match ev with
  | Ev e' x =>
      match e' in SrvE _ _ X return X -> Prop with
      | Now => fun now => forall t, st_nt <$> e = Some (st_nt t) -> now < t
      | _ => fun _ => True
      end x
  end.

(** The limiter answered that everything is allowed. *)
Definition allows (ev : event E) : Prop :=
  match ev with
  | Ev e x =>
      match e in SrvE _ _ X return X -> Prop with
      | Consume _ _ _ _ => fun d =>
          exists ds, d = Ok ds /\ forall x, x ∈ elems ds -> LimitDecision_Allowed x = true
      | _ => fun _ => True
      end x
  end.

(** A stored key that is enabled, has not expired, has uses, the required permissions
    and limits that allow the request is accepted, unless the driver fails. *)
Lemma outcome_accepts A l A' r id k0 :
  a_wf A -> verify_outcome A l A' r ->
  a_keys A !! id = Some (norm_key st_nt k0) ->
  same_hash (Some (keymat.Hash presented)) (norm_key st_nt k0) -> presented <> EmptyString ->
  Key_Enabled k0 = true -> Forall (live (Key_ExpiresAt k0)) l -> Key_RemainingUses k0 <> 0 ->
  permitted (Key_Permissions k0) required ->
  elems (Key_LimitRefs k0) = [] \/ (rl s <> None /\ Forall allows l) ->
  faulted r \/
  exists k ds, norm_key st_nt k = norm_key st_nt k0 /\
    (elems (Key_LimitRefs k0) = [] -> ds = None) /\
    r = Ok (verdict k ds true apikeyv1.VERIFY_RESULT_VALID).
Proof.
  intros Hwf Ho Hk Hh Hp He Hx Hu Hperm Hl. rewrite !Forall_forall in *.
  assert (Hall : forall id' k, found A id' k ->
    norm_key st_nt k = norm_key st_nt k0 /\ Key_Enabled k = true /\ Key_RemainingUses k <> 0 /\
    permitted (Key_Permissions k) required /\ elems (Key_LimitRefs k) = elems (Key_LimitRefs k0) /\
    st_nt <$> Key_ExpiresAt k = st_nt <$> Key_ExpiresAt k0).
  { intros id' k Hf. pose proof (found_unique _ _ _ _ _ Hwf Hf Hk Hh) as Hn.
    destruct (norm_key_fields _ _ Hn) as (_ & _ & -> & -> & Hpe & Hle & Hxe).
    split_and!; auto. intros p Hin. rewrite Hpe. auto. }
  assert (Hlim : forall id' k, found A id' k -> consults_limiter k -> rl s <> None /\ Forall allows l).
  { intros id' k Hf [_ Hne]. destruct (Hall _ _ Hf) as (_ & _ & _ & _ & Hle & _). rewrite Hle in Hne.
    destruct Hl as [?|[? ?]]; [done|]. by rewrite Forall_forall. }
  destruct Ho as [|? Hf|? Hf|id' k Hf He'|id' k t now Hf He' Ht Hnow Hle|id' k Hf He' Hx' Hu'|id' k Hf He' Hx' Hu' Hp'|
    id' k Hf Hus Hc Hrl|id' k r err Hf Hus Hc Hrl Hin|id' k r ds d Hf Hus Hc Hrl Hin Hd Hdf|
    id' k ? ? ? Hf Hus Hlp Hpos Hft|id' k ds k1 k2 Hf Hus Hds];
    try done; try (destruct (Hall _ _ Hf) as (? & ? & ? & ? & ? & ?); congruence || contradiction).
  - by destruct (Hf id _ Hk).
  - left. split; [done|by eexists].
  - destruct (Hall _ _ Hf) as (_ & _ & _ & _ & _ & Hxe). pose proof (Hx _ Hnow) as Hlt. cbn in Hlt.
    rewrite <- Hxe, Ht in Hlt. specialize (Hlt t eq_refl). lia.
  - by destruct (Hlim _ _ Hf Hc).
  - destruct (Hlim _ _ Hf Hc) as [_ Ha]. rewrite Forall_forall in Ha. by destruct (Ha _ Hin) as (ds & ? & _).
  - destruct (Hlim _ _ Hf Hc) as [_ Ha]. rewrite Forall_forall in Ha.
    destruct (Ha _ Hin) as (ds' & [= <-] & Had). specialize (Had _ Hd). congruence.
  - left. split; [done|by eexists].
  - right. destruct (Hall _ _ Hf) as (Hn & _ & _ & _ & Hle & _). exists k, ds. split_and!; [done| |done].
    intros Hnil. unfold limits_passed in Hds. rewrite decide_False in Hds; [by subst|].
    intros [_ Hne]. by rewrite Hle in Hne.
Qed.

(** A plaintext whose hash no stored key has is not found, unless the driver fails. *)
Lemma outcome_unknown A l A' r :
  verify_outcome A l A' r -> hash_free (Some (keymat.Hash presented)) A ->
  faulted r \/ r = Ok notFound.
Proof.
  intros Ho Hfree. destruct Ho; try (by right); try (left; split; [done|by eexists]);
    match goal with Hf : found _ _ _ |- _ => destruct Hf as [Hk Hh]; by destruct (Hfree _ _ Hk) end.
Qed.
End Spec.
