(* ===== verification/Rpc.v ===== *)
(** * Rpc: the requests of the service as one type

    A request to any of the ten methods, its answer, and the program that serves
    it.  The theorems about concurrent requests speak of lists of these. *)

From S2P Require Import Prelude Effects GoText Store Apikeyv1 Server.
Import keychainserver.

Section Rpc.
Context {Timestamp : Type} `{TimestampPb Timestamp}.

Inductive Request : Type :=
| RqCreateWorkspace (r : option apikeyv1.CreateWorkspaceRequest)
| RqGetWorkspace (r : option apikeyv1.GetWorkspaceRequest)
| RqCreateApi (r : option apikeyv1.CreateApiRequest)
| RqGetApi (r : option apikeyv1.GetApiRequest)
| RqCreateKey (r : option (apikeyv1.CreateKeyRequest Timestamp))
| RqRevokeKey (r : option apikeyv1.RevokeKeyRequest)
| RqRotateKey (r : option apikeyv1.RotateKeyRequest)
| RqListKeys (r : option apikeyv1.ListKeysRequest)
| RqGetKey (r : option apikeyv1.GetKeyRequest)
| RqVerifyKey (r : option apikeyv1.VerifyKeyRequest).

Abbreviation answer A := (result status A).

Inductive Response : Type :=
| RsCreateWorkspace (a : answer (apikeyv1.CreateWorkspaceResponse Timestamp))
| RsGetWorkspace (a : answer (apikeyv1.GetWorkspaceResponse Timestamp))
| RsCreateApi (a : answer (apikeyv1.CreateApiResponse Timestamp))
| RsGetApi (a : answer (apikeyv1.GetApiResponse Timestamp))
| RsCreateKey (a : answer (apikeyv1.CreateKeyResponse Timestamp))
| RsRevokeKey (a : answer apikeyv1.RevokeKeyResponse)
| RsRotateKey (a : answer (apikeyv1.RotateKeyResponse Timestamp))
| RsListKeys (a : answer (apikeyv1.ListKeysResponse Timestamp))
| RsGetKey (a : answer (apikeyv1.GetKeyResponse Timestamp))
| RsVerifyKey (a : answer apikeyv1.VerifyKeyResponse).

Definition serve {St RL Lg} (s : Server St RL Lg) (r : Request) : prog (SrvE St RL) Response :=
  match r with
  | RqCreateWorkspace r => a ← CreateWorkspace s r; Ret (RsCreateWorkspace a)
  | RqGetWorkspace r => a ← GetWorkspace s r; Ret (RsGetWorkspace a)
  | RqCreateApi r => a ← CreateApi s r; Ret (RsCreateApi a)
  | RqGetApi r => a ← GetApi s r; Ret (RsGetApi a)
  | RqCreateKey r => a ← CreateKey s r; Ret (RsCreateKey a)
  | RqRevokeKey r => a ← RevokeKey s r; Ret (RsRevokeKey a)
  | RqRotateKey r => a ← RotateKey s r; Ret (RsRotateKey a)
  | RqListKeys r => a ← ListKeys s r; Ret (RsListKeys a)
  | RqGetKey r => a ← GetKey s r; Ret (RsGetKey a)
  | RqVerifyKey r => a ← VerifyKey s r; Ret (RsVerifyKey a)
  end.

(** The fields of a request within their wire types: integers of 32 and 64 bits,
    and strings that are UTF-8 where a driver may keep them as JSON. *)
Definition request_ok (r : Request) : Prop :=
  match r with
  | RqCreateWorkspace r => utf8_map (apikeyv1.CreateWorkspaceRequest_GetMetadata r)
  | RqCreateApi r => utf8_map (apikeyv1.CreateApiRequest_GetMetadata r)
  | RqCreateKey r => int64_range (apikeyv1.CreateKeyRequest_GetRemainingUses r) /\
      utf8_map (apikeyv1.CreateKeyRequest_GetMetadata r) /\
      Forall (fun ref => utf8 (apikeyv1.LimitRef_GetLimitId ref) /\ utf8 (apikeyv1.LimitRef_GetScopeKey ref))
        (elems (apikeyv1.CreateKeyRequest_GetLimitRefs r))
  | RqListKeys r => int32_range (apikeyv1.ListKeysRequest_GetPageSize r)
  | _ => True
  end.
End Rpc.
Arguments Request Timestamp : clear implicits.
Arguments Response Timestamp : clear implicits.
