(* ===== verification/Inline.v ===== *)
(** * Inline: programs whose calls are programs

    A method of a driver without a lock is a program of statements; a client of the
    driver is a program of calls.  [inline] puts the statements in place of the calls,
    so that the statements of many clients interleave with nothing between them.  What
    is known of a client and of its calls carries over: the log of the statements
    splits into the logs of the calls ([decomposes], [wp_inline]), what justifies a
    call justifies its statements ([emits_inline]), and bounds multiply
    ([bounded_inline]). *)

From S2P Require Import Prelude Effects.

(** A program follows its own log. *)
Lemma wp_own {E : Sig} {A} (p : prog E A) : wp p (fun l a => follows p l (Ret a)).
Proof.
  induction p as [a|X e k IH]; cbn; [by left|].
  intros x. eapply wp_mono; [|apply IH]. cbn. intros l a Hf. right. by exists x, l.
Qed.

Section Inline.
(** [C]: what a client does, a call of a method or something else [E]; [D]: the
    statements. *)
Context {C E D : Sig}.
Variable split : forall X : Ans, C X -> E X + prog D X.

Abbreviation F := (sumE E D).
Abbreviation statements m := (translate (fun X : Ans => @inrE E D X) m).

Fixpoint inline {A} (p : prog C A) : prog F A :=
  match p with
  | Ret a => Ret a
  | @Vis _ _ X e k =>
      match split X e with
      | inl e => Vis (inlE e) (fun x => inline (k x))
      | inr m => bind (fun x => inline (k x)) (statements m)
      end
  end.

(** The log of the statements of the calls of a log. *)
Inductive decomposes : list (event C) -> list (event F) -> Prop :=
| decomposes_nil : decomposes [] []
| decomposes_own X (e : C X) e' x l l' :
    split X e = inl e' -> decomposes l l' -> decomposes (Ev e x :: l) (Ev (inlE e') x :: l')
| decomposes_call X (e : C X) m x lm l l' :
    split X e = inr m -> follows m lm (Ret x) -> decomposes l l' ->
    decomposes (Ev e x :: l) (map (rename (fun X : Ans => @inrE E D X)) lm ++ l').

Lemma decomposes_app l1 l1' l2 l2' :
  decomposes l1 l1' -> decomposes l2 l2' -> decomposes (l1 ++ l2) (l1' ++ l2').
Proof.
  intros H1 H2. induction H1 as [|X e e' x l l' Hs Hl IH|X e m x lm l l' Hs Hf Hl IH]; cbn; [done|by constructor|].
  rewrite <- app_assoc. by eapply decomposes_call.
Qed.

Lemma decomposes_one_own X (e : C X) e' x :
  split X e = inl e' -> decomposes [Ev e x] [Ev (inlE e') x].
Proof. intros Hs. apply decomposes_own; [done|constructor]. Qed.

Lemma decomposes_one_call X (e : C X) m x lm :
  split X e = inr m -> follows m lm (Ret x) ->
  decomposes [Ev e x] (map (rename (fun X : Ans => @inrE E D X)) lm).
Proof. intros Hs Hf. rewrite <- (app_nil_r (map _ lm)). eapply decomposes_call; [done..|constructor]. Qed.

(** The statements of a call of the log are in the log of the statements. *)
Lemma decomposes_elem l l' ev :
  decomposes l l' -> ev ∈ l ->
  match ev with
  | @Ev _ X e x =>
      match split X e with
      | inl _ => True
      | inr m => exists lm, follows m lm (Ret x) /\
          forall ev', ev' ∈ lm -> rename (fun X : Ans => @inrE E D X) ev' ∈ l'
      end
  end.
Proof.
  intros Hd. induction Hd as [|X e e' x l l' Hs Hl IH|X e m x lm l l' Hs Hf Hl IH].
  - by intros ?%elem_of_nil.
  - intros [->|Hin]%elem_of_cons; [by rewrite Hs|]. specialize (IH Hin). destruct ev as [Y d y].
    destruct (split Y d) as [|m]; [done|]. destruct IH as (lm & Hf & Hlm). exists lm. split; [done|].
    intros ev' Hev. right. by apply Hlm.
  - intros [->|Hin]%elem_of_cons.
    + rewrite Hs. exists lm. split; [done|]. intros ev' Hev. apply elem_of_app. left.
      by apply (list_elem_of_fmap_2 (rename (fun X : Ans => @inrE E D X))).
    + specialize (IH Hin). destruct ev as [Y d y]. destruct (split Y d) as [|m']; [done|].
      destruct IH as (lm' & Hf' & Hlm). exists lm'. split; [done|]. intros ev' Hev. apply elem_of_app. right. by apply Hlm.
Qed.

(** What holds of every run of the client, whatever its calls answer, holds of the
    runs whose calls are their statements. *)
Lemma wp_inline {A} (p : prog C A) Q :
  wp p (fun l a => forall l', decomposes l l' -> Q l' a) -> wp (inline p) Q.
Proof.
  revert Q. induction p as [a|X e k IH]; intros Q; cbn; [intros HQ; apply HQ; constructor|].
  intros Hk. destruct (split X e) as [e'|m] eqn:Hs.
  - cbn. intros x. apply IH. eapply wp_mono; [|apply (Hk x)].
    intros l a Hl l' Hd. by apply Hl, decomposes_own.
  - apply wp_bind, wp_translate. eapply wp_mono; [|apply wp_own]. intros lm x Hf.
    apply IH. eapply wp_mono; [|apply (Hk x)].
    intros l a Hl l' Hd. by eapply Hl, decomposes_call.
Qed.

(** A justification of the calls is one of the statements. *)
Lemma emits_inline {A} (J : list (event C) -> forall X : Ans, C X -> Prop)
    (J' : list (event F) -> forall X : Ans, F X -> Prop) (p : prog C A) past past' :
  (forall past past' X (e : C X) e', decomposes past past' -> J past X e -> split X e = inl e' ->
    J' past' X (inlE e')) ->
  (forall past past' X (e : C X) m, decomposes past past' -> J past X e -> split X e = inr m ->
    emits J' past' (statements m)) ->
  decomposes past past' -> emits J past p -> emits J' past' (inline p).
Proof.
  intros Hown Hcall. revert past past'. induction p as [a|X e k IH]; cbn; intros past past' Hd; [done|].
  intros [HJ Hk]. destruct (split X e) as [e'|m] eqn:Hs.
  - cbn. split; [by eapply Hown|]. intros x. eapply IH; [|apply (Hk x)].
    by apply decomposes_app, decomposes_one_own.
  - apply emits_bind; [by eapply Hcall|]. apply wp_translate. eapply wp_mono; [|apply wp_own].
    intros lm x Hf. eapply IH; [|apply (Hk x)]. by eapply decomposes_app, decomposes_one_call.
Qed.

Lemma bounded_translate {E' F' : Sig} {A} (f : forall X : Ans, E' X -> F' X) n (p : prog E' A) :
  bounded n p -> bounded n (translate f p).
Proof. revert n. induction p as [a|X e k IH]; intros [|n]; cbn; auto. Qed.

Lemma bounded_inline {A} n m (p : prog C A) :
  (forall X (e : C X), match split X e with inl _ => (1 <= m)%nat | inr q => bounded m q end) ->
  bounded n p -> bounded (n * m) (inline p).
Proof.
  intros Hm. revert n. induction p as [a|X e k IH]; intros n; cbn; [by destruct (n * m)%nat|].
  destruct n as [|n]; [done|]. intros Hk. specialize (Hm X e). destruct (split X e) as [e'|q].
  - destruct m as [|m]; [lia|]. change (Datatypes.S n * Datatypes.S m)%nat with (Datatypes.S (m + n * Datatypes.S m)).
    cbn. intros x. eapply bounded_mono; [by apply IH|lia].
  - cbn. apply bounded_bind; [by apply bounded_translate|auto].
Qed.
End Inline.
