(* ===== verification/ServerCalls.v ===== *)
(** * ServerCalls: the calls the handlers make

    Every request makes well-typed store calls, and the few calls that matter to
    isolation are made with the data the handler read before: a key is created
    under the API that was looked up, with that API's workspace. *)

From S2P Require Import Prelude Effects Store StoreSpec Keymat Apikeyv1 Server ServerLogic Rpc.
Import keychainserver.

(** Walks a handler, event by event, along every branch. *)
Ltac walk :=
  unfold serve, CreateWorkspace, GetWorkspace, CreateApi, GetApi, CreateKey, GetKey, RevokeKey,
    RotateKey, ListKeys, VerifyKey, check_key, is_expired, check_live, check_limits, accept, finish,
    newKeyMaterial, call, trigger, invalid, mbind, prog_bind;
  repeat (cbn [bind emits srv_event_ok];
    match goal with
    | |- True => exact Logic.I
    | |- _ /\ _ => split
    | |- forall _, _ => intros ?
    | |- emits _ _ ?p =>
        match p with
        | context [match ?x with _ => _ end] => destruct x eqn:?
        end
    end).

(** The same, for the answers of a handler ([wp]). *)
Ltac wp_walk :=
  unfold CreateWorkspace, GetWorkspace, CreateApi, GetApi, CreateKey, GetKey, RevokeKey,
    RotateKey, ListKeys, finish, newKeyMaterial, invalid, call, trigger, mbind, prog_bind;
  repeat (cbn [bind wp];
    match goal with
    | |- forall x, wp _ _ => intros ?
    | |- wp ?p _ => match p with context [match ?x with _ => _ end] => destruct x end
    end);
  cbn [bind wp].

Section Calls.
Context {Timestamp : Type} `{TimestampPb Timestamp}.
Context {S I : Type} {impl : StoreImpl S I} {St RL Lg : Type}.
Context (s : Server St RL Lg).

Lemma remaining_of_range n : int64_range n -> int64_range (remaining_of n).
Proof. unfold remaining_of, int64_range, minInt64, maxInt64. destruct (Z.leb_spec n 0); lia. Qed.

Lemma key_of_request_ok req api hash :
  request_ok (RqCreateKey req) -> event_ok (CreateKeyE (key_of_request req api hash)).
Proof.
  intros (Hn & Hm & Hr). split_and!; [by apply remaining_of_range|done|].
  unfold utf8_refs, key_of_request, limitRefsFromProto. cbn [Key_LimitRefs].
  apply Forall_fmap. exact Hr.
Qed.

(** What a handler may ask of its environment, given what it was answered. *)
Definition justified (past : list (event (SrvE St RL))) (X : Type) (e : SrvE St RL X) : Prop :=
  match e with
  | StoreCall _ (CreateKeyE k) =>
      exists id api, @Ev (SrvE St RL) _ (StoreCall (store s) (GetAPIE id)) (Ok api) ∈ past /\
        Key_APIID k = API_APIID api /\ Key_WorkspaceID k = API_WorkspaceID api
  | _ => True
  end.

Lemma elem_here (l : list (event (SrvE St RL))) e l' : e ∈ l ++ e :: l'.
Proof. apply elem_of_app. right. left. Qed.

Lemma calls_ok_serve (r : Request Timestamp) : request_ok r -> calls_ok [] (serve s r).
Proof.
  unfold calls_ok. destruct r; intros Hr; walk; try exact Hr; try exact Logic.I; try (by eexists).
  by apply key_of_request_ok.
Qed.

Lemma justified_serve (r : Request Timestamp) : emits justified [] (serve s r).
Proof.
  destruct r; walk; try exact Logic.I.
  eexists _, _. split; [left|done].
Qed.
End Calls.
