(* ===== verification/Interleaving.v ===== *)
(** * Interleaving: concurrent requests over any driver

    The server holds no lock: between two store calls of a request any other
    request may run.  What holds under every interleaving is stated here: a key
    is never verified more often than it has uses, a revocation is final, tenants
    stay apart, no request blocks another and every request ends. *)

From S2P Require Import Prelude Effects Store StoreSpec StoreFacts Keymat Apikeyv1 Server ServerLogic Rpc ServerCalls.
Import keychainserver.

Section Interleaving.
Context {Timestamp : Type} `{TimestampPb Timestamp}.
Context {S I : Type} {impl : StoreImpl S I} {St RL Lg : Type}.
Context (s : Server St RL Lg).

Abbreviation E := (SrvE St RL).
Abbreviation configuration := (config E S (Response Timestamp)).

(** Requests about to be served, over the driver's state [st]. *)
Definition serve_all (reqs : list (Request Timestamp)) (st : S) : configuration :=
  start (serve s <$> reqs) st.

Lemma serve_all_ok reqs st : st_inv st -> Forall request_ok reqs -> pool_ok (serve_all reqs st).
Proof.
  intros Hi Hr. split; [done|]. simpl. intros t p. rewrite list_lookup_fmap.
  destruct (reqs !! t) as [r|] eqn:Ht; intros [= <-]. apply calls_ok_serve.
  rewrite Forall_lookup in Hr. by eapply Hr.
Qed.

(** ** Events of interest *)

(** A use of the key [id] was charged. *)
Definition is_charge (id : string) (ev : event E) : bool :=
  match ev with
  | Ev e x =>
      match e in SrvE _ _ X return X -> bool with
      | StoreCall _ e' => reports_charge id e'
      | _ => fun _ => false
      end x
  end.

(** The key a lookup by hash answered with. *)
Definition looked_up (ev : event E) : option Key :=
  match ev with
  | Ev e x =>
      match e in SrvE _ _ X return X -> option Key with
      | StoreCall _ e' =>
          match e' in StoreE X return X -> option Key with
          | GetKeyByHashE _ => fun r => match r with Ok k => Some k | Err _ => None end
          | _ => fun _ => None
          end
      | _ => fun _ => None
      end x
  end.

(** The answer is a VALID decision about the key [id]. *)
Definition valid_for (id : string) (a : Response Timestamp) : bool :=
  match a with
  | RsVerifyKey (Ok r) =>
      bool_decide (apikeyv1.VerifyKeyResponse_Result r = apikeyv1.VERIFY_RESULT_VALID) &&
      bool_decide (apikeyv1.VerifyKeyResponse_KeyId r = id)
  | _ => false
  end.

Definition finished_valid (id : string) (p : prog E (Response Timestamp)) : bool :=
  match p with Ret a => valid_for id a | Vis _ _ => false end.

(** The number of uses of [id] charged by the events of [l]. *)
Fixpoint charges (id : string) (l : list (event E)) : nat :=
  match l with
  | [] => 0
  | ev :: l => (if is_charge id ev then 1 else 0) + charges id l
  end.

Definition valid_count (id : string) (a : Response Timestamp) : nat :=
  if valid_for id a then 1 else 0.

(** ** What the handlers do *)

Lemma valid_for_verdict id k ds v res :
  valid_for id (RsVerifyKey (Ok (verdict k ds v res))) = true ->
  res = apikeyv1.VERIFY_RESULT_VALID /\ Key_KeyID k = id.
Proof. simpl. by intros [?%bool_decide_eq_true ?%bool_decide_eq_true]%andb_true_iff. Qed.

Lemma valid_count_refused id k ds v res :
  res <> apikeyv1.VERIFY_RESULT_VALID -> valid_count id (RsVerifyKey (Ok (verdict k ds v res))) = 0%nat.
Proof. intros Hr. unfold valid_count. destruct (valid_for _ _) eqn:Hv; [|done]. by apply valid_for_verdict in Hv as [? _]. Qed.

Lemma charges_app id l l' : charges id (l ++ l') = (charges id l + charges id l')%nat.
Proof. induction l as [|ev l IH]; simpl; [done|]. rewrite IH. lia. Qed.

(** For a key with counted uses, VALID is one charge and any other answer none. *)
Definition exact (id : string) (l : list (event E)) (a : result status apikeyv1.VerifyKeyResponse) : Prop :=
  charges id l = valid_count id (RsVerifyKey a).

Lemma exact_refused id k ds v res :
  res <> apikeyv1.VERIFY_RESULT_VALID -> exact id [] (Ok (verdict k ds v res)).
Proof. intros Hr. unfold exact. by rewrite valid_count_refused. Qed.

Lemma accept_exact id k ds :
  (Key_KeyID k = id -> 0 < Key_RemainingUses k) -> wp (accept s k ds) (exact id).
Proof.
  intros Hid. unfold accept, exact, valid_count.
  destruct (Z.ltb_spec 0 (Key_RemainingUses k)) as [Hu|Hu]; cbn.
  - intros [n [err|]]; cbn.
    + by destruct (errors_is err ErrDepleted); cbn; rewrite andb_false_r.
    + intros now x. rewrite andb_true_r. by case_bool_decide.
  - intros now x. rewrite (bool_decide_eq_false_2 (Key_KeyID k = id)); [done|].
    intros He. specialize (Hid He). lia.
Qed.

Lemma check_live_exact id k r :
  (Key_KeyID k = id -> 0 <= Key_RemainingUses k) -> wp (check_live s k r) (exact id).
Proof.
  intros Hid. unfold check_live, check_limits.
  destruct (Z.eqb_spec (Key_RemainingUses k) 0) as [|Hu]; [by apply exact_refused|].
  assert (Hacc : forall ds, wp (accept s k ds) (exact id)).
  { intros ds. apply accept_exact. intros He. specialize (Hid He). lia. }
  repeat match goal with |- wp (if ?b then _ else _) _ => destruct b end;
    [by apply exact_refused| |apply Hacc].
  destruct (rl s) as [c|]; [|done]. cbn. intros [ds'|err]; [|done].
  destruct (existsb _ _); [|eapply wp_mono; [|apply Hacc]; by intros].
  cbn [wp]. unfold exact. by rewrite valid_count_refused.
Qed.

Lemma check_key_exact id k r :
  (Key_KeyID k = id -> 0 <= Key_RemainingUses k) -> wp (check_key s k r) (exact id).
Proof.
  intros Hid. unfold check_key. destruct (Key_Enabled k); [|by apply exact_refused].
  unfold is_expired. destruct (Key_ExpiresAt k) as [t|]; [|by apply check_live_exact].
  intros now. cbn. destruct (negb (now <? t)).
  - cbn [wp]. unfold exact. by rewrite valid_count_refused.
  - eapply wp_mono; [|by apply (check_live_exact id)]. by intros.
Qed.

(** Every lookup in [l] that answered with the key [id] satisfies [Q]. *)
Definition lookups (id : string) (Q : Key -> Prop) (l : list (event E)) : Prop :=
  forall ev k, ev ∈ l -> looked_up ev = Some k -> Key_KeyID k = id -> Q k.

Definition counted (k : Key) : Prop := 0 <= Key_RemainingUses k.

Lemma serve_exact r id :
  wp (serve s r) (fun l a => lookups id counted l -> charges id l = valid_count id a).
Proof.
  destruct r as [r|r|r|r|r|r|r|r|r|r]; [apply wp_bind; wp_walk; done..|].
  apply wp_bind. unfold VerifyKey. destruct (keymat.Validate _ _); [done|]. cbn.
  intros [k|err]; [|by destruct (errors_is err ErrNotFound)].
  destruct (decide (Key_KeyID k = id -> counted k)) as [Hc|Hn].
  - eapply wp_mono; [|by apply (check_key_exact id)]. intros l a Hx _. by rewrite app_nil_r.
  - apply wp_always. intros l a Hl. destruct Hn. intros Hid. eapply Hl; [left|done|done].
Qed.

(** A VALID answer rests on a lookup that found the key enabled. *)
Lemma check_key_enabled id k r :
  wp (check_key s k r) (fun l a => valid_for id (RsVerifyKey a) = true ->
    Key_KeyID k = id /\ Key_Enabled k = true).
Proof.
  unfold check_key. destruct (Key_Enabled k); [|by intros [? _]%valid_for_verdict].
  unfold is_expired, check_live, check_limits, accept. wp_walk.
  all: try done; repeat intros ?.
  all: by match goal with Hv : valid_for _ _ = true |- _ => apply valid_for_verdict in Hv as [? ?] end.
Qed.

Lemma serve_enabled r id :
  wp (serve s r) (fun l a => lookups id (fun k => Key_Enabled k = false) l -> valid_for id a = false).
Proof.
  destruct r as [| | | | | | | | |r]; try (apply wp_bind, wp_always; by intros).
  apply wp_bind. unfold VerifyKey. destruct (keymat.Validate _ _); [done|]. cbn.
  intros [k|err]; [|by destruct (errors_is err ErrNotFound)].
  eapply wp_mono; [|apply (check_key_enabled id)]. intros l a He Hl. cbn [wp].
  destruct (valid_for id (RsVerifyKey a)) eqn:Hv; [|done]. destruct (He Hv) as [Hid Hen].
  assert (Key_Enabled k = false) by (eapply Hl; [left|done|done]). congruence.
Qed.

(** ** What the store answers *)

(** A lookup answers with a stored key. *)
Lemma looked_up_stored X (e : E X) A x A' k :
  a_wf A -> srv_contract e A x A' -> looked_up (@Ev E X e x) = Some k ->
  a_keys A !! Key_KeyID k = Some (norm_key st_nt k).
Proof.
  intros Hwf Hc Hl. destruct e as [st X e| | |]; try done. destruct e; try done. simpl in Hl.
  destruct x as [k'|]; [|done]. injection Hl as ->.
  destruct Hc as [[_ [[(err & ? & _) _]|(id & k0 & k1 & [= <-] & Hk & _ & <-)]]|(_ & (err & ? & _) & _)];
    [done| |done].
  pose proof (a_wf_key _ Hwf _ _ Hk) as Hid. simpl in Hid. by rewrite Hid.
Qed.

Lemma srv_contract_uses X (e : E X) A x A' id k :
  srv_contract e A x A' -> a_keys A !! id = Some k -> counted k ->
  exists k', a_keys A' !! id = Some k' /\ counted k' /\
    let n := if is_charge id (@Ev E X e x) then 1 else 0 in
    (Key_RemainingUses k = Key_RemainingUses k' + n \/
     st_faults /\ Key_RemainingUses k' + n <= Key_RemainingUses k).
Proof.
  intros Hc Hk Hu. destruct e; simpl in *.
  - by eapply contract_uses.
  - subst. exists k. split_and!; [done|done|left; lia].
  - subst. exists k. split_and!; [done|done|left; lia].
  - subst. exists k. split_and!; [done|done|left; lia].
Qed.

(** ** The ledger of a key with counted uses *)

Abbreviation events c := (snd <$> log c) (only parsing).

Record ledger (id : string) (n : Z) (c : configuration) : Prop := {
  lg_wf : a_wf (st_abs (world c));
  lg_key : exists k, a_keys (st_abs (world c)) !! id = Some k /\ counted k /\
    Z.of_nat (charges id (events c)) + Key_RemainingUses k <= n /\
    (~ st_faults -> Z.of_nat (charges id (events c)) + Key_RemainingUses k = n);
  lg_lookups : lookups id counted (events c);
}.

Lemma lookups_app id Q l l' : lookups id Q l -> lookups id Q l' -> lookups id Q (l ++ l').
Proof. intros H1 H2 ev k [?|?]%elem_of_app; eauto. Qed.

Lemma lookups_one id Q ev :
  (forall k, looked_up ev = Some k -> Key_KeyID k = id -> Q k) -> lookups id Q [ev].
Proof. intros HQ ev' k ->%list_elem_of_singleton. apply HQ. Qed.

Lemma lookups_thread id Q t (l : list (nat * event E)) :
  lookups id Q (snd <$> l) -> lookups id Q (thread_log t l).
Proof.
  intros Hl ev k Hin. apply Hl. apply thread_log_elem in Hin.
  apply list_elem_of_fmap. by exists (t, ev).
Qed.

Lemma ledger_step id n (c : configuration) t X (e : E X) k s' x :
  ledger id n c -> pool c !! t = Some (Vis e k) ->
  srv_contract e (st_abs (world c)) x (st_abs s') ->
  ledger id n (Config (<[t := k x]> (pool c)) s' (log c ++ [(t, Ev e x)])).
Proof.
  intros [Hwf (k0 & Hk0 & Hu & Hle & Heq) Hl] _ Hc.
  destruct (srv_contract_uses X e _ x _ id k0 Hc Hk0 Hu) as (k1 & Hk1 & Hu1 & Hcase).
  split; cbn [world log pool]; rewrite ?fmap_app; cbn [fmap list_fmap snd].
  - eapply change_wf; [done|]. by eapply srv_contract_change.
  - exists k1. split_and!; [done|done|..]; rewrite charges_app; cbn [charges];
      destruct Hcase as [He|[Hf He]]; destruct (is_charge id (Ev e x)); try done; try lia.
    all: intros Hnf; specialize (Heq Hnf); lia.
  - apply lookups_app; [done|]. apply lookups_one. intros k2 Hk2 Hid.
    pose proof (looked_up_stored X e _ x _ k2 Hwf Hc Hk2) as Hst. rewrite Hid, Hk0 in Hst.
    injection Hst as ->. exact Hu.
Qed.

(** ** Answers and charges *)

(** The VALID answers given for the key [id]. *)
Definition answered {G : Sig} (id : string) (p : prog G (Response Timestamp)) : nat :=
  match p with Ret a => valid_count id a | Vis _ _ => 0 end.

Definition valid_answers {G : Sig} {T : Type} (id : string) (c : config G T (Response Timestamp)) : nat :=
  sum_list_with (answered id) (pool c).

Definition all_answered {G : Sig} {T : Type} (c : config G T (Response Timestamp)) : Prop :=
  forall t p, pool c !! t = Some p -> exists a, p = Ret a.

Lemma charges_sum id l : charges id l = sum_list_with (fun ev => if is_charge id ev then 1 else 0)%nat l.
Proof. induction l as [|ev l IH]; simpl; congruence. Qed.

Section Reached.
Context (reqs : list (Request Timestamp)) (st : S) (sched : list (nat * SrvInp I RL)) (c : configuration).
Hypothesis Hrun : run_schedule srv_handle sched (serve_all reqs st) = Some c.

Lemma reached_length : length (pool c) = length reqs.
Proof. pose proof (run_schedule_length _ _ _ _ _ Hrun) as Hl. by rewrite length_fmap in Hl. Qed.

(** Each thread is one of the requests, after the events of its log. *)
Lemma reached_thread t p : pool c !! t = Some p ->
  exists r, reqs !! t = Some r /\ follows (serve s r) (thread_log t (log c)) p.
Proof.
  intros Hp. destruct (lookup_lt_is_Some_2 reqs t) as [r Hr].
  { rewrite <- reached_length. by eapply lookup_lt_Some. }
  exists r. split; [done|].
  destruct (run_schedule_follows _ _ _ _ _ t (serve s r) Hrun) as (p' & Hp' & Hf).
  - by rewrite list_lookup_fmap, Hr.
  - by rewrite Hp in Hp'; injection Hp' as <-.
Qed.

Lemma reached_answer t a (Q : Request Timestamp -> list (event E) -> Response Timestamp -> Prop) :
  (forall r, wp (serve s r) (Q r)) -> pool c !! t = Some (Ret a) ->
  exists r, reqs !! t = Some r /\ Q r (thread_log t (log c)) a.
Proof.
  intros Hwp Hp. destruct (reached_thread t _ Hp) as (r & Hr & Hf). exists r. split; [done|].
  by eapply wp_follows.
Qed.

Lemma charges_threads id :
  charges id (snd <$> log c) =
  sum_list_with (fun t => charges id (thread_log t (log c))) (seq 0 (length (pool c))).
Proof.
  rewrite charges_sum, reached_length, <- (length_fmap (serve s)).
  erewrite thread_sum by (by eapply run_schedule_threads).
  apply sum_list_with_ext. intros t. by rewrite charges_sum.
Qed.

Lemma answered_le id t p :
  lookups id counted (snd <$> log c) -> pool c !! t = Some p ->
  (answered id p <= charges id (thread_log t (log c)))%nat.
Proof.
  intros Hl Hp. destruct p as [a|]; [|simpl; lia].
  destruct (reached_answer t a _ (fun r => serve_exact r id) Hp) as (r & _ & Hex).
  rewrite Hex; [done|by apply lookups_thread].
Qed.

Lemma valid_answers_le id :
  lookups id counted (snd <$> log c) -> (valid_answers id c <= charges id (snd <$> log c))%nat.
Proof. intros Hl. rewrite charges_threads. apply sum_by_index_le. intros t p. by apply answered_le. Qed.

Lemma valid_answers_eq id :
  lookups id counted (snd <$> log c) -> all_answered c ->
  valid_answers id c = charges id (snd <$> log c).
Proof.
  intros Hl Ha. rewrite charges_threads. apply sum_by_index_eq. intros t p Hp.
  destruct (Ha t p Hp) as [a ->].
  destruct (reached_answer t a _ (fun r => serve_exact r id) Hp) as (r & _ & Hex).
  simpl. rewrite Hex; [done|by apply lookups_thread].
Qed.

(** ** Bounds *)

(** The longest request, a [VerifyKey], performs six events. *)
Definition max_events : nat := 6.

Lemma serve_bounded (r : Request Timestamp) : bounded max_events (serve s r).
Proof.
  destruct r; unfold serve, VerifyKey, check_key, is_expired, check_live, check_limits, accept.
  all: wp_walk; unfold max_events; repeat (cbn [bind bounded];
    match goal with
    | |- True => exact Logic.I
    | |- forall _, _ => intros ?
    | |- bounded _ ?p => match p with context [match ?x with _ => _ end] => destruct x end
    end).
Qed.

(** Every request gives up after at most [max_events] steps, however it is
    interleaved, so schedules are finite. *)
Lemma reached_bound : (length sched <= max_events * length reqs)%nat.
Proof.
  rewrite <- (length_fmap (serve s) reqs). eapply run_schedule_bound; [|exact Hrun].
  apply Forall_fmap, Forall_forall. intros r _. apply serve_bounded.
Qed.
End Reached.
End Interleaving.
