(* ===== verification/Lifecycle.v ===== *)
(** * Lifecycle: revocation and tenancy under interleaving

    Invariants of every reachable configuration: a key whose revocation was
    acknowledged stays disabled, and every key belongs to the workspace of its
    API. *)

From S2P Require Import Prelude Effects Store StoreSpec StoreFacts Keymat Apikeyv1 Server ServerLogic Rpc ServerCalls Interleaving.
Import keychainserver.

Section Lifecycle.
Context {Timestamp : Type} `{TimestampPb Timestamp}.
Context {S I : Type} {impl : StoreImpl S I} {St RL Lg : Type}.
Context (s : Server St RL Lg).

Abbreviation E := (SrvE St RL).
Abbreviation configuration := (config E S (Response Timestamp)).
Abbreviation abs c := (st_abs (world c)).
Abbreviation events c := (snd <$> log c) (only parsing).

(** ** Revocation *)

(** The store acknowledged the revocation of [id]. *)
Definition acknowledges (id : string) (ev : event E) : bool :=
  match ev with
  | Ev e x =>
      match e in SrvE _ _ X return X -> bool with
      | StoreCall _ e' =>
          match e' in StoreE X return X -> bool with
          | RevokeKeyE id' => fun r => bool_decide (id' = id) && is_Ok r
          | _ => fun _ => false
          end
      | _ => fun _ => false
      end x
  end.

Definition disabled (k : Key) : Prop := Key_Enabled k = false.

Definition stored_disabled (id : string) (A : AStore) : Prop :=
  exists k, a_keys A !! id = Some k /\ disabled k.

Lemma disabled_change id A A' : stored_disabled id A -> change A A' -> stored_disabled id A'.
Proof.
  intros (k & Hk & Hd) Hc. destruct (change_key _ _ _ _ Hc Hk) as (k' & Hk' & Hev).
  exists k'. split; [done|]. unfold disabled in *. destruct Hev as (_ & _ & _ & _ & He & _).
  destruct (Key_Enabled k'); [|done]. by specialize (He eq_refl); congruence.
Qed.

Lemma acknowledged_disabled id X (e : E X) A x A' :
  srv_contract e A x A' -> acknowledges id (@Ev E X e x) = true -> stored_disabled id A'.
Proof.
  intros Hc Ha. destruct e as [st X e| | |]; try done. destruct e; try done. simpl in Ha.
  apply andb_true_iff in Ha as [->%bool_decide_eq_true Hr]. destruct x as [u|err]; [|done].
  destruct Hc as [Hs|(_ & (err & ? & _) & _)]; [|done]. simpl in Hs.
  destruct (a_keys A !! id) as [k|] eqn:Hk;
    [|by apply spec_RevokeKey_missing in Hs as [_ (err & ? & _)]].
  destruct (spec_RevokeKey_put _ _ _ _ _ _ _ _ Hs Hk) as (_ & t & ->). eexists. split; [apply lookup_insert_eq|done].
Qed.

(** Once acknowledged, a revocation is in the store. *)
Definition revocations_hold (id : string) (c : configuration) : Prop :=
  (exists ev, ev ∈ events c /\ acknowledges id ev = true) -> stored_disabled id (abs c).

Lemma revocations_step id (c : configuration) t X (e : E X) k s' x :
  revocations_hold id c -> srv_contract e (abs c) x (st_abs s') ->
  revocations_hold id (Config (<[t := k x]> (pool c)) s' (log c ++ [(t, Ev e x)])).
Proof.
  intros Hr Hc (ev & Hin & Ha). cbn [log world] in *. rewrite fmap_app in Hin.
  apply elem_of_app in Hin as [Hin|Hin%list_elem_of_singleton].
  - eapply disabled_change; [apply Hr; eauto|by eapply srv_contract_change].
  - subst ev. by eapply acknowledged_disabled.
Qed.

(** After the store holds the revocation, every lookup answers a disabled key. *)
Record revoked_since (id : string) (past : list (nat * event E)) (c : configuration) : Prop := {
  rs_wf : a_wf (abs c);
  rs_stored : stored_disabled id (abs c);
  rs_lookups : exists extra, log c = past ++ extra /\ lookups id disabled (snd <$> extra);
}.

Lemma revoked_step id past (c : configuration) t X (e : E X) k s' x :
  revoked_since id past c -> srv_contract e (abs c) x (st_abs s') ->
  revoked_since id past (Config (<[t := k x]> (pool c)) s' (log c ++ [(t, Ev e x)])).
Proof.
  intros [Hwf Hd (extra & Hlog & Hl)] Hc. split; cbn [log world].
  - eapply change_wf; [done|]. by eapply srv_contract_change.
  - eapply disabled_change; [done|]. by eapply srv_contract_change.
  - exists (extra ++ [(t, Ev e x)]). split; [by rewrite Hlog, app_assoc|].
    rewrite fmap_app. apply lookups_app; [done|]. apply lookups_one. intros k2 Hk2 Hid.
    pose proof (looked_up_stored X e _ x _ k2 Hwf Hc Hk2) as Hst. destruct Hd as (k0 & Hk0 & Hd).
    rewrite Hid, Hk0 in Hst. by injection Hst as ->.
Qed.

(** A successful answer of [RevokeKey] was acknowledged by the store. *)
Lemma revoke_acknowledged (r : Request Timestamp) :
  wp (serve s r) (fun l a =>
    match r, a with
    | RqRevokeKey q, RsRevokeKey (Ok _) =>
        exists ev, ev ∈ l /\ acknowledges (apikeyv1.RevokeKeyRequest_GetKeyId q) ev = true
    | _, _ => True
    end).
Proof.
  destruct r as [| | | | |q| | | |]; try (apply wp_always; by intros).
  unfold serve. wp_walk; [done|]. destruct x as [u|err]; [|done]. eexists. split; [left|].
  cbn. by rewrite bool_decide_eq_true_2.
Qed.

(** ** Tenancy *)

(** Every API belongs to a stored workspace and every key to its API's workspace. *)
Record isolated (A : AStore) : Prop := {
  iso_api : forall id a, a_apis A !! id = Some a -> is_Some (a_workspaces A !! API_WorkspaceID a);
  iso_key : forall id k, a_keys A !! id = Some k ->
    exists a, a_apis A !! Key_APIID k = Some a /\ API_WorkspaceID a = Key_WorkspaceID k;
}.

(** The API an event answered with. *)
Definition api_read (ev : event E) : option API :=
  match ev with
  | Ev e x =>
      match e in SrvE _ _ X return X -> option API with
      | StoreCall _ e' =>
          match e' in StoreE X return X -> option API with
          | GetAPIE _ => fun r => match r with Ok a => Some a | Err _ => None end
          | _ => fun _ => None
          end
      | _ => fun _ => None
      end x
  end.

Lemma api_read_stored X (e : E X) A x A' a :
  a_wf A -> srv_contract e A x A' -> api_read (@Ev E X e x) = Some a ->
  a_apis A !! API_APIID a = Some (norm_api st_nt a).
Proof.
  intros Hwf Hc Hl. destruct e as [st X e| | |]; try done. destruct e; try done. simpl in Hl.
  destruct x as [a'|]; [|done]. injection Hl as ->.
  destruct Hc as [[_ Hs]|(_ & (err & ? & _) & _)]; [|done]. simpl in Hs.
  destruct (a_apis A !! id) as [a0|] eqn:Ha; [|by destruct Hs as (err & ? & _)].
  destruct Hs as (a' & [= <-] & <-). pose proof (a_wf_api _ Hwf _ _ Ha) as Hid.
  simpl in Hid. by rewrite Hid.
Qed.

Lemma change_workspace A A' id :
  change A A' -> is_Some (a_workspaces A !! id) -> is_Some (a_workspaces A' !! id).
Proof. intros Hc Hw. destruct Hc; simpl; try done. rewrite lookup_insert. by case_decide. Qed.

Lemma change_api_inv A A' id a :
  change A A' -> a_apis A' !! id = Some a ->
  a_apis A !! id = Some a \/ is_Some (a_workspaces A !! API_WorkspaceID a).
Proof.
  intros Hc. destruct Hc; simpl; auto. rewrite lookup_insert. case_decide; [|auto].
  intros [= <-]. by right.
Qed.

(** The store, the APIs read and the requests in progress respect the tenants. *)
Record tenants_apart (c : configuration) : Prop := {
  ta_wf : a_wf (abs c);
  ta_store : isolated (abs c);
  ta_read : forall ev a, ev ∈ events c -> api_read ev = Some a ->
    a_apis (abs c) !! API_APIID a = Some (norm_api st_nt a);
  ta_pool : forall t p, pool c !! t = Some p -> emits (justified s) (thread_log t (log c)) p;
}.

Lemma isolated_step X (e : E X) A x A' past :
  a_wf A -> isolated A -> justified s past X e ->
  (forall ev a, ev ∈ past -> api_read ev = Some a -> a_apis A !! API_APIID a = Some (norm_api st_nt a)) ->
  srv_contract e A x A' -> isolated A'.
Proof.
  intros Hwf [Ha Hk] Hj Hread Hc. pose proof (srv_contract_change X e A x A' Hc) as Hch. split.
  - intros id a Hl. eapply change_workspace; [done|].
    destruct (change_api_inv _ _ _ _ Hch Hl) as [?|?]; eauto.
  - intros id k' Hl.
    assert (Hold : exists a, a_apis A !! Key_APIID k' = Some a /\ API_WorkspaceID a = Key_WorkspaceID k').
    { destruct (change_key_inv _ _ _ _ Hch Hl) as [(k & Hk0 & Hev)|[Hn _]].
      - destruct Hev as (_ & -> & -> & _). eauto.
      - destruct e as [st X e| | |]; simpl in Hc; [|simplify_eq/=; congruence..].
        pose proof (contract_new_key _ _ _ _ _ e A x A' id k' Hc Hn Hl) as Hnew.
        destruct e; try done. destruct Hnew as [-> ->].
        destruct Hj as (id' & api & Hin & -> & ->).
        exists (norm_api st_nt api). split; [by eapply Hread|done]. }
    destruct Hold as (a & Ha' & Hw). exists a. split; [by eapply change_api|done].
Qed.

Lemma tenants_step (c : configuration) t X (e : E X) k s' x :
  tenants_apart c -> pool c !! t = Some (Vis e k) -> srv_contract e (abs c) x (st_abs s') ->
  tenants_apart (Config (<[t := k x]> (pool c)) s' (log c ++ [(t, Ev e x)])).
Proof.
  intros [Hwf Hiso Hread Hpool] Hp Hc.
  pose proof (srv_contract_change X e _ x _ Hc) as Hch.
  pose proof (Hpool t _ Hp) as [Hj Hemits].
  split; cbn [log world pool].
  - by eapply change_wf.
  - eapply isolated_step; try done. intros ev a Hin. apply Hread.
    apply thread_log_elem in Hin. apply list_elem_of_fmap. by exists (t, ev).
  - intros ev a. rewrite fmap_app. intros [Hin| ->%list_elem_of_singleton]%elem_of_app Ha.
    + eapply change_api; eauto.
    + eapply change_api; [done|]. by eapply api_read_stored.
  - intros t' p'. rewrite thread_log_app. unfold thread_log at 2. cbn.
    destruct (decide (t = t')) as [<-|Hne].
    + rewrite list_lookup_insert_eq by (by eapply lookup_lt_Some). intros [= <-]. apply Hemits.
    + rewrite list_lookup_insert_ne by done. rewrite app_nil_r. apply Hpool.
Qed.

(** ** The key an answer names *)

(** The answer names the key [k], its API and its workspace. *)
Definition names_tenant (r : apikeyv1.VerifyKeyResponse) (k : Key) : Prop :=
  apikeyv1.VerifyKeyResponse_KeyId r = Key_KeyID k /\
  apikeyv1.VerifyKeyResponse_ApiId r = Key_APIID k /\
  apikeyv1.VerifyKeyResponse_WorkspaceId r = Key_WorkspaceID k.

(** The lookup of the presented plaintext, answered with [k]. *)
Definition lookup_of (q : option apikeyv1.VerifyKeyRequest) (k : Key) : event E :=
  @Ev E _ (StoreCall (store s) (GetKeyByHashE (Some (keymat.Hash (apikeyv1.VerifyKeyRequest_GetPlaintext q)))))
    (Ok k).

(** An answer that names a key names the key that the plaintext was found under. *)
Lemma serve_names (r : Request Timestamp) :
  wp (serve s r) (fun l a =>
    match a with
    | RsVerifyKey (Ok v) => exists q, r = RqVerifyKey q /\
        (v = notFound \/ exists k, lookup_of q k ∈ l /\ names_tenant v k)
    | _ => True
    end).
Proof.
  destruct r as [| | | | | | | | |q]; try (apply wp_bind, wp_always; by intros).
  assert (Hkey : forall k, wp (check_key s k q) (fun _ a => forall r, a = Ok r -> names_tenant r k)).
  { intros k. unfold check_key, is_expired, check_live, check_limits, accept. wp_walk.
    all: repeat intros ?; simplify_eq; done. }
  apply wp_bind. unfold VerifyKey. destruct (keymat.Validate _ _); [exists q; auto|].
  cbn. intros [k|err]; [|by destruct (errors_is err ErrNotFound); [exists q; auto|]].
  eapply wp_mono; [|apply Hkey]. intros l [v|err] Ha; [|done]. exists q. split; [done|].
  right. exists k. split; [left|by apply Ha].
Qed.

(** The key is stored under its identifier, in its API and workspace. *)
Definition stored_as (k : Key) (A : AStore) : Prop :=
  exists k', a_keys A !! Key_KeyID k = Some k' /\ Key_APIID k' = Key_APIID k /\
    Key_WorkspaceID k' = Key_WorkspaceID k.

Lemma change_stored k A A' : stored_as k A -> change A A' -> stored_as k A'.
Proof.
  intros (k0 & Hk0 & Ha & Hw) Hc. destruct (change_key _ _ _ _ Hc Hk0) as (k1 & Hk1 & Hev).
  exists k1. destruct Hev as (_ & -> & -> & _). auto.
Qed.

(** The hash a lookup was asked for, and the key it answered. *)
Definition looked_up_by (ev : event E) : option (slice byte * Key) :=
  match ev with
  | Ev e x =>
      match e in SrvE _ _ X return X -> option (slice byte * Key) with
      | StoreCall _ e' =>
          match e' in StoreE X return X -> option (slice byte * Key) with
          | GetKeyByHashE h => fun r => match r with Ok k => Some (h, k) | Err _ => None end
          | _ => fun _ => None
          end
      | _ => fun _ => None
      end x
  end.

(** What a lookup by hash answers is stored, with the hash. *)
Lemma looked_up_hash X (e : E X) A x A' h k :
  a_wf A -> srv_contract e A x A' -> looked_up_by (@Ev E X e x) = Some (h, k) ->
  a_keys A !! Key_KeyID k = Some (norm_key st_nt k) /\ same_hash h (norm_key st_nt k).
Proof.
  intros Hwf Hc Hl. destruct e as [st X e| | |]; try done. destruct e; try done. simpl in Hl.
  destruct x as [k'|]; [|done]. injection Hl as -> ->.
  destruct Hc as [[_ [[(err & ? & _) _]|(id & k0 & k1 & [= <-] & Hk & Hs & <-)]]|(_ & (err & ? & _) & _)];
    [done| |done].
  pose proof (a_wf_key _ Hwf _ _ Hk) as Hid. simpl in Hid. by rewrite Hid.
Qed.
End Lifecycle.
