(* ===== verification/Demo.v ===== *)
(** * Demo: concrete instances

    A small store of the in-process driver with one workspace, one API and one
    key, an environment, and decision procedures for the side conditions of runs
    and schedules.  The witnesses of the theorems evaluate on these. *)

From S2P Require Import Prelude Effects GoSort Store StoreSpec StoreFacts Crypto Keymat Apikeyv1 Memory MemoryProps Server ServerLogic Rpc Interleaving.

(** The invariant of the in-process driver implies the abstract one. *)
Lemma memory_wf m : inv m -> a_wf (abs m).
Proof.
  intros Hi. split.
  - intros id a. rewrite abs_apis. destruct (memory.apis m !! id) as [a0|] eqn:Ha; [|done].
    intros [= <-]. by destruct (inv_api _ Hi _ _ Ha).
  - intros id k. rewrite abs_keys. destruct (memory.keys m !! id) as [k0|] eqn:Hk; [|done].
    intros [= <-]. by destruct (inv_key _ Hi _ _ Hk).
  - intros id k. rewrite abs_keys. destruct (memory.keys m !! id) as [k0|] eqn:Hk; [|done].
    intros [= <-]. destruct (inv_key _ Hi _ _ Hk) as (_ & [a Ha] & _).
    rewrite abs_apis. simpl. rewrite Ha. by eexists.
  - intros id1 id2 k1 k2. rewrite !abs_keys.
    destruct (memory.keys m !! id1) as [k1'|] eqn:H1; [|done].
    destruct (memory.keys m !! id2) as [k2'|] eqn:H2; [|done].
    intros [= <-] [= <-]. rewrite same_hash_norm. simpl. rewrite string_of_append_nil.
    intros Hs. by apply (hash_unique m id1 id2 k1' k2').
Qed.

(** ** Deciding the side conditions *)

#[export] Instance input_ok_dec i m : Decision (input_ok i m).
Proof. unfold input_ok. apply _. Defined.

Section Checkers.
Context {St RL R : Type}.
Abbreviation E := (SrvE St RL).
Abbreviation handler := (@srv_handle memory.Store memory.Inp memory_impl St RL).

Fixpoint inputs_check (p : prog E R) (ins : nat -> SrvInp memory.Inp RL) (n : nat) (m : memory.Store) : bool :=
  match p with
  | Ret _ => true
  | Vis e k =>
      bool_decide (input_ok (si_store (ins n)) m) &&
      match handler _ e (ins n) m with
      | Some (m', x) => inputs_check (k x) ins (S n) m'
      | None => true
      end
  end.

Lemma inputs_check_ok p ins n m : inputs_check p ins n m = true -> inputs_ok p ins n m.
Proof.
  revert n m. induction p as [r|X e k IH]; simpl; intros n m; [done|].
  intros [Ho%bool_decide_eq_true Hk]%andb_true_iff. split; [done|].
  destruct (handler X e (ins n) m) as [[m' x]|]; auto.
Qed.

Fixpoint sched_check (sched : list (nat * SrvInp memory.Inp RL)) (c : config E memory.Store R) : bool :=
  match sched with
  | [] => true
  | ti :: rest =>
      bool_decide (input_ok (si_store ti.2) (world c)) &&
      match cstep handler c ti with
      | Some c' => sched_check rest c'
      | None => true
      end
  end.

Lemma sched_check_ok sched c : sched_check sched c = true -> sched_ok sched c.
Proof.
  revert c. induction sched as [|ti rest IH]; simpl; intros c; [done|].
  intros [Ho%bool_decide_eq_true Hk]%andb_true_iff. split; [done|].
  destruct (cstep handler c ti); auto.
Qed.
End Checkers.

(** ** A protobuf timestamp *)

#[export] Instance Z_timestamp : TimestampPb Z := {| timestamppb_New := id; timestamppb_AsTime := id |}.
#[export] Instance Z_timestamp_laws : TimestampPbLaws Z.
Proof. by split. Qed.

(** ** A store *)

Definition demo_inp (n : Time) (u : string) : memory.Inp := memory.mkInp n u.

Definition demo_workspace : Workspace := mkWorkspace EmptyString "acme" "alice" zeroTime zeroTime None.
Definition demo_api : API := mkAPI EmptyString "ws_1" "prod" "sk_" zeroTime zeroTime None.

Definition demo_key (plaintext : string) (expires : option Time) (uses : Z) (refs : slice LimitRef) : Key :=
  mkKey EmptyString "api_2" "ws_1" "alice" "ci" (Some (keymat.Hash plaintext)) (Some ["read"; "write"])
    refs expires uses true zeroTime zeroTime None None.

(** What the store keeps of it. *)
Definition demo_stored (expires : option Time) (uses : Z) (refs : slice LimitRef) : Key :=
  norm_key id (Key_created (demo_key "sk_one" expires uses refs) "key_3" 30).

Definition demo_base : memory.Store :=
  (memory.CreateAPI demo_api (demo_inp 20 "2")
     (memory.CreateWorkspace demo_workspace (demo_inp 10 "1") memory.New).1).1.

(** The store with the key ["key_3"] for ["sk_one"]. *)
Definition demo_store (expires : option Time) (uses : Z) (refs : slice LimitRef) : memory.Store :=
  (memory.CreateKey (demo_key "sk_one" expires uses refs) (demo_inp 30 "3") demo_base).1.

Lemma demo_base_inv : inv demo_base.
Proof.
  unfold demo_base. apply CreateAPI_meets; [|by_eval].
  apply CreateWorkspace_meets; [apply inv_New|by_eval].
Qed.

Lemma demo_store_inv expires uses refs : int64_range uses -> inv (demo_store expires uses refs).
Proof.
  intros Hu. unfold demo_store. apply CreateKey_meets; [apply demo_base_inv|by_eval|done].
Qed.

(** ** Servers and environments *)

Definition demo_server (limiter : option unit) : Server unit unit unit := mkServer tt limiter tt.

(** The environment at the instant [now]: identifiers end in [u], 32 bytes of
    entropy [b], and a limiter whose answer is [d]. *)
Definition demo_env (now : Time) (u : string) (b : byte) (d : res (slice LimitDecision)) :
    SrvInp memory.Inp unit :=
  mkSrvInp (demo_inp now u) now (keymat.mkReader (replicate 32 b) keymat.EOF) (fun _ _ _ _ => d).

Definition allow : res (slice LimitDecision) := Ok (Some [mkLimitDecision "rps" "user" true 9 0]).
Definition deny : res (slice LimitDecision) := Ok (Some [mkLimitDecision "rps" "user" false 0 500]).

Definition demo_verify (plaintext : string) : option apikeyv1.VerifyKeyRequest :=
  Some (apikeyv1.mkVerifyKeyRequest plaintext (Some ["read"]) EmptyString 1 "req" false).

(** ** Concurrent runs over the in-process driver *)

Abbreviation demo_config := (config (SrvE unit unit) memory.Store (Response Z)) (only parsing).

(** Thread identifiers to a schedule: the clock is the position, and so are the
    fresh identifiers. *)
Definition schedule (d : res (slice LimitDecision)) (ts : list nat) : list (nat * SrvInp memory.Inp unit) :=
  imap (fun n t => (t, demo_env (1000 + Z.of_nat n)
                        (string_of_list_byte (replicate (S n) Byte.x78)) Byte.x41 d)) ts.

Definition demo_run (limiter : option unit) (reqs : list (Request Z)) (m : memory.Store)
    (sched : list (nat * SrvInp memory.Inp unit)) : demo_config :=
  let c := serve_all (demo_server limiter) reqs m in
  default c (run_schedule (@srv_handle memory.Store memory.Inp memory_impl unit unit) sched c).

(** The schedule never panics and never runs a finished request. *)
Definition demo_check (limiter : option unit) (reqs : list (Request Z)) (m : memory.Store)
    (sched : list (nat * SrvInp memory.Inp unit)) : bool :=
  let c := serve_all (demo_server limiter) reqs m in
  sched_check sched c &&
  match run_schedule (@srv_handle memory.Store memory.Inp memory_impl unit unit) sched c with
  | Some _ => true
  | None => false
  end.

(** Two gateways present the same key at once. *)
Definition race : list (Request Z) :=
  [RqVerifyKey (demo_verify "sk_one"); RqVerifyKey (demo_verify "sk_one")].

(** Both look the key up before either charges it. *)
Definition race_schedule := schedule allow [0; 1; 0; 1; 0; 0]%nat.

(** A revocation, then a verification. *)
Definition revoke_then_verify : list (Request Z) :=
  [RqRevokeKey (Some (apikeyv1.mkRevokeKeyRequest "key_3")); RqVerifyKey (demo_verify "sk_one")].

(** ** Sequential runs over the in-process driver *)

Definition demo_inputs (d : res (slice LimitDecision)) (n : nat) : SrvInp memory.Inp unit :=
  demo_env (1000 + Z.of_nat n) (string_of_list_byte (replicate (S n) Byte.x78)) Byte.x41 d.

(** The answer of a run. *)
Definition demo_answer {R} (p : prog (SrvE unit unit) R) (d : res (slice LimitDecision)) (m : memory.Store) :
    option R :=
  snd <$> run (@srv_handle memory.Store memory.Inp memory_impl unit unit) p (demo_inputs d) 0 m.

Definition demo_limits : slice LimitRef := Some [mkLimitRef "rps" "user"].

(** The decisions, one store per branch. *)
Example demo_decisions :
  let decide_at limiter d expires uses refs plaintext :=
    match demo_answer (keychainserver.VerifyKey (demo_server limiter) (demo_verify plaintext)) d
            (demo_store expires uses refs) with
    | Some (Ok v) => Some (apikeyv1.VerifyKeyResponse_Result v)
    | _ => None
    end in
  decide_at None allow None 1 None "sk_one" = Some apikeyv1.VERIFY_RESULT_VALID /\
  decide_at None allow None 1 None "sk_two" = Some apikeyv1.VERIFY_RESULT_NOT_FOUND /\
  decide_at None allow (Some 1001) 1 None "sk_one" = Some apikeyv1.VERIFY_RESULT_EXPIRED /\
  decide_at None allow (Some 1002) 1 None "sk_one" = Some apikeyv1.VERIFY_RESULT_VALID /\
  decide_at None allow None 0 None "sk_one" = Some apikeyv1.VERIFY_RESULT_DEPLETED /\
  decide_at (Some tt) deny None 1 demo_limits "sk_one" = Some apikeyv1.VERIFY_RESULT_RATE_LIMITED /\
  decide_at (Some tt) allow None 1 demo_limits "sk_one" = Some apikeyv1.VERIFY_RESULT_VALID /\
  decide_at None allow None 1 demo_limits "sk_one" = None.
Proof. vm_compute. repeat split. Qed.

Definition demo_create : option (apikeyv1.CreateKeyRequest Z) :=
  Some (apikeyv1.mkCreateKeyRequest "api_2" "bob" "deploy" (Some ["read"]) None None 3 None).
Definition demo_rotate : option apikeyv1.RotateKeyRequest := Some (apikeyv1.mkRotateKeyRequest "key_3").
Definition demo_revoke : option apikeyv1.RevokeKeyRequest := Some (apikeyv1.mkRevokeKeyRequest "key_3").
Definition demo_list : option apikeyv1.ListKeysRequest :=
  Some (apikeyv1.mkListKeysRequest "api_2" EmptyString 10 EmptyString).
Definition demo_get : option apikeyv1.GetKeyRequest := Some (apikeyv1.mkGetKeyRequest "key_3").
