(* ===== verification/RpcSpec.v ===== *)
(** * RpcSpec: what the other methods promise, over any driver

    One relation per method between the abstract store before the call, the
    events of the call, the store after it and the answer; each handler is proved
    to stay within its relation. *)

From S2P Require Import Prelude Effects Store Crypto Keymat StoreSpec StoreFacts Apikeyv1 Server ServerLogic Rpc ServerCalls.
Import keychainserver.

(** A required field: the handler and its relation test the same emptiness. *)
Ltac required_field :=
  match goal with
  | |- context [decide (?x = EmptyString)] =>
      destruct (decide (x = EmptyString)) as [?|?];
      [rewrite bool_decide_eq_true_2 by done; by split|rewrite bool_decide_eq_false_2 by done]
  end.

Section Spec.
Context {Timestamp : Type} `{TimestampPb Timestamp}.
Context {S I : Type} {impl : StoreImpl S I}.
Context {St RL Lg : Type} (s : Server St RL Lg).

Abbreviation E := (SrvE St RL).
Abbreviation answer A := (result status A) (only parsing).

(** ** Failures *)

Definition fails {R} (c : code) (r : answer R) : Prop := exists m, r = Err (mkStatus c m).

Definition refuses {R} (text : string) (r : answer R) : Prop :=
  r = Err (mkStatus InvalidArgument (Text text)).

Lemma mapStoreErr_not_found {X R} (r : res X) (f : X -> R) :
  not_found r ->
  fails NotFound (match r with Err err => Err (mapStoreErr err) | Ok x => Ok (f x) end).
Proof. intros (err & -> & He). unfold mapStoreErr. rewrite He. by eexists. Qed.

Lemma mapStoreErr_conflict err :
  errors_is err ErrConflict = true -> errors_is err ErrNotFound = false ->
  mapStoreErr err = mkStatus AlreadyExists (ErrorOf err).
Proof. intros Hc Hn. unfold mapStoreErr. by rewrite Hn, Hc. Qed.

Lemma mapStoreErr_foreign err : foreign err -> mapStoreErr err = mkStatus Internal (ErrorOf err).
Proof. intros (Hn & Hc & _). unfold mapStoreErr. by rewrite Hn, Hc. Qed.

(** [P], or the driver failed: the caller is told [Internal], and the operation
    had its effect or none. *)
Definition or_fault {R} (A : AStore) (P : AStore -> answer R -> Prop) (A' : AStore) (r : answer R) : Prop :=
  P A' r \/ (st_faults /\ fails Internal r /\ (A' = A \/ exists r', P A' r')).

(** ** Workspaces and APIs *)

Definition CreateWorkspace_spec (req : option apikeyv1.CreateWorkspaceRequest) (A A' : AStore)
    (r : answer (apikeyv1.CreateWorkspaceResponse Timestamp)) : Prop :=
  if decide (apikeyv1.CreateWorkspaceRequest_GetName req = EmptyString)
  then A' = A /\ refuses "name is required" r
  else if decide (apikeyv1.CreateWorkspaceRequest_GetOwnerPrincipalId req = EmptyString)
  then A' = A /\ refuses "owner_principal_id is required" r
  else or_fault A (fun A' r =>
    exists id now, a_workspaces A !! id = None /\
      let w := mkWorkspace id (apikeyv1.CreateWorkspaceRequest_GetName req)
                 (apikeyv1.CreateWorkspaceRequest_GetOwnerPrincipalId req) now now
                 (apikeyv1.CreateWorkspaceRequest_GetMetadata req) in
      A' = mkAStore (<[id := norm_workspace st_nt w]> (a_workspaces A)) (a_apis A) (a_keys A) /\
      r = Ok (apikeyv1.mkCreateWorkspaceResponse (Some (workspaceToProto w)))) A' r.

Definition GetWorkspace_spec (req : option apikeyv1.GetWorkspaceRequest) (A A' : AStore)
    (r : answer (apikeyv1.GetWorkspaceResponse Timestamp)) : Prop :=
  let id := apikeyv1.GetWorkspaceRequest_GetWorkspaceId req in
  A' = A /\
  if decide (id = EmptyString) then refuses "workspace_id is required" r
  else or_fault A (fun _ r =>
    match a_workspaces A !! id with
    | None => fails NotFound r
    | Some w => exists w', norm_workspace st_nt w' = w /\
        r = Ok (apikeyv1.mkGetWorkspaceResponse (Some (workspaceToProto w')))
    end) A' r.

Definition CreateApi_spec (req : option apikeyv1.CreateApiRequest) (A A' : AStore)
    (r : answer (apikeyv1.CreateApiResponse Timestamp)) : Prop :=
  let ws := apikeyv1.CreateApiRequest_GetWorkspaceId req in
  if decide (ws = EmptyString) then A' = A /\ refuses "workspace_id is required" r
  else if decide (apikeyv1.CreateApiRequest_GetName req = EmptyString)
  then A' = A /\ refuses "name is required" r
  else or_fault A (fun A' r =>
    match a_workspaces A !! ws with
    | None => A' = A /\ fails NotFound r
    | Some _ =>
        exists id now, a_apis A !! id = None /\
        let a := mkAPI id ws (apikeyv1.CreateApiRequest_GetName req)
                   (apikeyv1.CreateApiRequest_GetKeyPrefix req) now now
                   (apikeyv1.CreateApiRequest_GetMetadata req) in
        A' = mkAStore (a_workspaces A) (<[id := norm_api st_nt a]> (a_apis A)) (a_keys A) /\
        r = Ok (apikeyv1.mkCreateApiResponse (Some (apiToProto a)))
    end) A' r.

Definition GetApi_spec (req : option apikeyv1.GetApiRequest) (A A' : AStore)
    (r : answer (apikeyv1.GetApiResponse Timestamp)) : Prop :=
  let id := apikeyv1.GetApiRequest_GetApiId req in
  A' = A /\
  if decide (id = EmptyString) then refuses "api_id is required" r
  else or_fault A (fun _ r =>
    match a_apis A !! id with
    | None => fails NotFound r
    | Some a => exists a', norm_api st_nt a' = a /\
        r = Ok (apikeyv1.mkGetApiResponse (Some (apiToProto a')))
    end) A' r.

(** ** Keys *)

Definition GetKey_spec (req : option apikeyv1.GetKeyRequest) (A A' : AStore)
    (r : answer (apikeyv1.GetKeyResponse Timestamp)) : Prop :=
  let id := apikeyv1.GetKeyRequest_GetKeyId req in
  A' = A /\
  if decide (id = EmptyString) then refuses "key_id is required" r
  else or_fault A (fun _ r =>
    match a_keys A !! id with
    | None => fails NotFound r
    | Some k => exists k', norm_key st_nt k' = k /\
        r = Ok (apikeyv1.mkGetKeyResponse (Some (keyToProto k')))
    end) A' r.

Definition RevokeKey_spec (req : option apikeyv1.RevokeKeyRequest) (A A' : AStore)
    (r : answer apikeyv1.RevokeKeyResponse) : Prop :=
  let id := apikeyv1.RevokeKeyRequest_GetKeyId req in
  if decide (id = EmptyString) then A' = A /\ refuses "key_id is required" r
  else or_fault A (fun A' r =>
    match a_keys A !! id with
    | None => A' = A /\ fails NotFound r
    | Some k => r = Ok apikeyv1.mkRevokeKeyResponse /\
        ((Key_Enabled k = false /\ A' = A) \/
         ((Key_Enabled k = true \/ st_restamps) /\
          exists t, A' = a_put_key id (Key_set_Enabled false (st_nt t) k) A))
    end) A' r.

Definition ListKeys_spec (req : option apikeyv1.ListKeysRequest) (A A' : AStore)
    (r : answer (apikeyv1.ListKeysResponse Timestamp)) : Prop :=
  let opts := mkListKeysOpts (apikeyv1.ListKeysRequest_GetApiId req)
    (apikeyv1.ListKeysRequest_GetOwnerPrincipalId req)
    (apikeyv1.ListKeysRequest_GetPageSize req) (apikeyv1.ListKeysRequest_GetPageToken req) in
  let n := effective_page_size (ListKeysOpts_PageSize opts) in
  A' = A /\
  if decide (apikeyv1.ListKeysRequest_GetApiId req = EmptyString) then refuses "api_id is required" r
  else or_fault A (fun _ r =>
    exists ids page, after_token st_le opts A ids /\
      (Some ∘ norm_key st_nt) <$> page = (fun id => a_keys A !! id) <$> take n ids /\
      r = Ok (apikeyv1.mkListKeysResponse (Some ((fun k => Some (keyToProto k)) <$> page))
                (next_token n ids))) A' r.

(** The entropy read by a call. *)
Definition entropy (l : list (event E)) (rd : keymat.reader) : Prop :=
  @Ev E _ ReadRandom rd ∈ l.

(** The key [k] has what was requested of it, under the identifier [id]: the API and
    its workspace, and unlimited uses ([-1]) unless a positive number was requested. *)
Record requested (req : option (apikeyv1.CreateKeyRequest Timestamp)) (api : API) (hash : list byte)
    (id : string) (now : Time) (k : Key) : Prop := {
  rq_id : Key_KeyID k = id;
  rq_api : Key_APIID k = API_APIID api;
  rq_workspace : Key_WorkspaceID k = API_WorkspaceID api;
  rq_owner : Key_OwnerPrincipalID k = apikeyv1.CreateKeyRequest_GetOwnerPrincipalId req;
  rq_name : Key_Name k = apikeyv1.CreateKeyRequest_GetName req;
  rq_hash : elems (Key_KeyHash k) = hash;
  rq_permissions : elems (Key_Permissions k) = elems (apikeyv1.CreateKeyRequest_GetPermissions req);
  rq_limits : elems (Key_LimitRefs k) =
    (fun r => mkLimitRef (apikeyv1.LimitRef_GetLimitId r) (apikeyv1.LimitRef_GetScopeKey r))
      <$> elems (apikeyv1.CreateKeyRequest_GetLimitRefs req);
  rq_expiry : st_nt <$> Key_ExpiresAt k =
    (fun t => st_nt (timestamppb_AsTime t)) <$> apikeyv1.CreateKeyRequest_GetExpiresAt req;
  rq_uses : Key_RemainingUses k =
    let n := apikeyv1.CreateKeyRequest_GetRemainingUses req in if decide (0 < n) then n else -1;
  rq_enabled : Key_Enabled k = true;
  rq_times : st_nt (Key_CreatedAt k) = st_nt now /\ st_nt (Key_UpdatedAt k) = st_nt now;
  rq_unverified : Key_LastVerifiedAt k = None;
  rq_metadata : norm_metadata (Key_Metadata k) = norm_metadata (apikeyv1.CreateKeyRequest_GetMetadata req);
}.

(** The store's answer to fresh key material: the hash is taken, the workspace is
    gone, or the key is stored under a fresh identifier. *)
Definition issued (req : option (apikeyv1.CreateKeyRequest Timestamp)) (api : API) (plaintext : string)
    (hash : list byte) (A A' : AStore) (r : answer (apikeyv1.CreateKeyResponse Timestamp)) : Prop :=
  (A' = A /\ fails AlreadyExists r /\ ~ hash_free (Some hash) A) \/
  (A' = A /\ fails NotFound r /\ a_workspaces A !! API_WorkspaceID api = None) \/
  (exists id now k, a_keys A !! id = None /\ hash_free (Some hash) A /\
    requested req api hash id now k /\
    A' = a_put_key id (norm_key st_nt k) A /\
    r = Ok (apikeyv1.mkCreateKeyResponse (Some (keyToProto k)) plaintext)).

(** A key is issued: fresh material under the API's prefix, the hash stored. *)
Definition CreateKey_spec (req : option (apikeyv1.CreateKeyRequest Timestamp)) (l : list (event E))
    (A A' : AStore) (r : answer (apikeyv1.CreateKeyResponse Timestamp)) : Prop :=
  let api_id := apikeyv1.CreateKeyRequest_GetApiId req in
  if decide (api_id = EmptyString) then A' = A /\ refuses "api_id is required" r
  else if decide (apikeyv1.CreateKeyRequest_GetOwnerPrincipalId req = EmptyString)
  then A' = A /\ refuses "owner_principal_id is required" r
  else or_fault A (fun A' r =>
    match a_apis A !! api_id with
    | None => A' = A /\ fails NotFound r
    | Some api =>
        exists rd, entropy l rd /\
        match keymat.New rd (API_KeyPrefix api) with
        | Err err => A' = A /\ r = Err (mkStatus Internal (Format "generate key material: %v" err))
        | Ok (plaintext, hash) => issued req api plaintext hash A A' r
        end
    end) A' r.

(** The store's answer to the new material of the key [k]: the hash belongs to
    another key, or it replaces the hash of [k]. *)
Definition rotated (id : string) (k : Key) (plaintext : string) (hash : list byte) (A A' : AStore)
    (r : answer (apikeyv1.RotateKeyResponse Timestamp)) : Prop :=
  (A' = A /\ fails AlreadyExists r /\
    exists id' k', id' <> id /\ a_keys A !! id' = Some k' /\ same_hash (Some hash) k') \/
  ((forall id' k', id' <> id -> a_keys A !! id' = Some k' -> ~ same_hash (Some hash) k') /\
    exists t k', norm_key st_nt k' = Key_set_KeyHash (append_nil (Some hash)) (st_nt t) k /\
      A' = a_put_key id (norm_key st_nt k') A /\
      r = Ok (apikeyv1.mkRotateKeyResponse (Some (keyToProto k')) plaintext)).

(** A key is rotated: fresh material under its API's prefix, only the hash changes. *)
Definition RotateKey_spec (req : option apikeyv1.RotateKeyRequest) (l : list (event E))
    (A A' : AStore) (r : answer (apikeyv1.RotateKeyResponse Timestamp)) : Prop :=
  let id := apikeyv1.RotateKeyRequest_GetKeyId req in
  if decide (id = EmptyString) then A' = A /\ refuses "key_id is required" r
  else or_fault A (fun A' r =>
    match a_keys A !! id with
    | None => A' = A /\ fails NotFound r
    | Some k =>
        exists api rd, a_apis A !! Key_APIID k = Some api /\ entropy l rd /\
        match keymat.New rd (API_KeyPrefix api) with
        | Err err => A' = A /\ r = Err (mkStatus Internal (Format "generate key material: %v" err))
        | Ok (plaintext, hash) => rotated id k plaintext hash A A' r
        end
    end) A' r.

(** ** The handlers meet their relations *)

(** The common end of a handler: one store call, its error mapped. *)
Lemma call_meets {X R} (e : StoreE (res X)) (f : X -> R) A (P : AStore -> answer R -> Prop) :
  event_ok e ->
  (forall r, foreign_answer e r -> exists err, r = Err err /\ foreign err) ->
  (forall r A', store_spec st_nt st_le any_time st_restamps e A r A' ->
    P A' (match r with Err err => Err (mapStoreErr err) | Ok x => Ok (f x) end)) ->
  swp (r ← call s e; Ret (match r with Err err => Err (mapStoreErr err) | Ok x => Ok (f x) end)) A
    (fun _ => or_fault A P).
Proof.
  intros He Hfor HP. apply swp_call; [done|]. intros r A' [Hs|(Hf & Ha & HA)]; cbn [swp].
  - left. by apply HP.
  - destruct (Hfor r Ha) as (err & -> & Herr). right. rewrite mapStoreErr_foreign by done.
    split_and!; [done|by eexists|]. destruct HA as [->|[r' Hs]]; [by left|right]. eexists. by apply HP.
Qed.

Lemma CreateWorkspace_rpc req A :
  request_ok (Timestamp := Timestamp) (RqCreateWorkspace req) ->
  swp (CreateWorkspace s req) A (fun _ => CreateWorkspace_spec req A).
Proof.
  intros Hok. unfold CreateWorkspace, CreateWorkspace_spec.
  repeat required_field.
  apply (call_meets _ (fun w => apikeyv1.mkCreateWorkspaceResponse (Some (workspaceToProto w)))); [done|done|].
  intros r A' (id & now & w & -> & _ & Hn & -> & ->). by exists id, now.
Qed.

Lemma CreateApi_rpc req A :
  request_ok (Timestamp := Timestamp) (RqCreateApi req) ->
  swp (CreateApi s req) A (fun _ => CreateApi_spec req A).
Proof.
  intros Hok. unfold CreateApi, CreateApi_spec.
  repeat required_field.
  apply (call_meets _ (fun a => apikeyv1.mkCreateApiResponse (Some (apiToProto a)))); [done|done|].
  intros r A' Hs. cbn in Hs. unfold spec_CreateAPI in Hs. cbn in Hs.
  destruct (a_workspaces A !! _).
  - destruct Hs as (id & now & a & -> & _ & Hn & -> & ->). by exists id, now.
  - destruct Hs as [-> Hn]. split; [done|].
    exact (mapStoreErr_not_found r (fun a => apikeyv1.mkCreateApiResponse (Some (apiToProto a))) Hn).
Qed.

(** Reads leave the store as it was, whatever happens. *)
Lemma read_meets {X R} (e : StoreE (res X)) (f : X -> R) A (P : AStore -> answer R -> Prop) :
  event_ok e ->
  (forall r, foreign_answer e r -> exists err, r = Err err /\ foreign err) ->
  (forall r A', store_spec st_nt st_le any_time st_restamps e A r A' -> A' = A /\
    P A' (match r with Err err => Err (mapStoreErr err) | Ok x => Ok (f x) end)) ->
  swp (r ← call s e; Ret (match r with Err err => Err (mapStoreErr err) | Ok x => Ok (f x) end)) A
    (fun _ A' r => A' = A /\ or_fault A P A' r).
Proof.
  intros He Hfor HP. eapply swp_mono; [|by apply (call_meets e f A (fun A' r => A' = A /\ P A' r))].
  intros l A' r Hr. cbn beta in Hr. destruct Hr as [[-> Hp]|(Hf & Hr & HA)].
  - split; [done|by left].
  - assert (A' = A) as -> by (destruct HA as [|(r' & ? & _)]; done). split; [done|]. right. auto.
Qed.

Lemma GetWorkspace_rpc req A : swp (GetWorkspace s req) A (fun _ => GetWorkspace_spec req A).
Proof.
  unfold GetWorkspace, GetWorkspace_spec.
  required_field.
  apply (read_meets _ (fun w => apikeyv1.mkGetWorkspaceResponse (Some (workspaceToProto w)))); [done|done|].
  intros r A' [-> Hs]. split; [done|]. destruct (a_workspaces A !! _).
  - destruct Hs as (w' & -> & Hn). by exists w'.
  - exact (mapStoreErr_not_found r (fun w => apikeyv1.mkGetWorkspaceResponse (Some (workspaceToProto w))) Hs).
Qed.

Lemma GetApi_rpc req A : swp (GetApi s req) A (fun _ => GetApi_spec req A).
Proof.
  unfold GetApi, GetApi_spec.
  required_field.
  apply (read_meets _ (fun a => apikeyv1.mkGetApiResponse (Some (apiToProto a)))); [done|done|].
  intros r A' [-> Hs]. split; [done|]. destruct (a_apis A !! _).
  - destruct Hs as (w' & -> & Hn). by exists w'.
  - exact (mapStoreErr_not_found r (fun a => apikeyv1.mkGetApiResponse (Some (apiToProto a))) Hs).
Qed.

Lemma GetKey_rpc req A : swp (GetKey s req) A (fun _ => GetKey_spec req A).
Proof.
  unfold GetKey, GetKey_spec.
  required_field.
  apply (read_meets _ (fun k => apikeyv1.mkGetKeyResponse (Some (keyToProto k)))); [done|done|].
  intros r A' [-> Hs]. split; [done|]. destruct (a_keys A !! _).
  - destruct Hs as (w' & -> & Hn). by exists w'.
  - exact (mapStoreErr_not_found r (fun k => apikeyv1.mkGetKeyResponse (Some (keyToProto k))) Hs).
Qed.

Lemma RevokeKey_rpc req A : swp (RevokeKey s req) A (fun _ => RevokeKey_spec req A).
Proof.
  unfold RevokeKey, RevokeKey_spec.
  required_field.
  apply (call_meets _ (fun _ : unit => apikeyv1.mkRevokeKeyResponse)); [done|done|].
  intros r A' Hs. cbn in Hs. unfold spec_RevokeKey in Hs. destruct (a_keys A !! _).
  - destruct Hs as (-> & Ht). split; [done|].
    destruct Ht as [?|[? (t & _ & ?)]]; [by left|right]. split; [done|by exists t].
  - destruct Hs as [-> Hn]. split; [done|].
    exact (mapStoreErr_not_found r (fun _ => apikeyv1.mkRevokeKeyResponse) Hn).
Qed.

Lemma ListKeys_rpc req A :
  int32_range (apikeyv1.ListKeysRequest_GetPageSize req) ->
  swp (ListKeys s req) A (fun _ => ListKeys_spec req A).
Proof.
  intros Hsz. unfold ListKeys, ListKeys_spec.
  required_field.
  apply (read_meets _ (fun lr => apikeyv1.mkListKeysResponse
    (Some ((fun k => Some (keyToProto k)) <$> ListKeysResult_Keys lr)) (ListKeysResult_NextPageToken lr)));
    [done|done|].
  intros r A' [-> (ids & page & Ha & -> & Hp)]. split; [done|]. by exists ids, page.
Qed.

Lemma mapStoreErr_conflicts {X R} (r : res X) (f : X -> R) :
  conflict r ->
  fails AlreadyExists (match r with Err err => Err (mapStoreErr err) | Ok x => Ok (f x) end).
Proof.
  intros (err & -> & He). rewrite mapStoreErr_conflict by auto using errors_is_conflict. by eexists.
Qed.

(** A fault before the store is written is a fault of the whole call. *)
Lemma or_fault_early {R} A (P : AStore -> answer R -> Prop) (err : error) (msg : error -> message) :
  st_faults -> or_fault A P A (Err (mkStatus Internal (msg err))).
Proof. intros Hf. right. split_and!; [done|by eexists|by left]. Qed.

(** The key that is stored only depends on what the store says of the API. *)
(** What is issued depends on the API up to the precision of its times. *)
Lemma issued_norm req api plaintext hash A A' r :
  issued req api plaintext hash A A' r -> issued req (norm_api st_nt api) plaintext hash A A' r.
Proof.
  intros [?|[?|(id & now & k & ? & ? & [] & ? & ?)]]; [by left|by right; left|].
  right. right. exists id, now, k. by split_and!.
Qed.

Lemma append_nil_elems {A} (s1 s2 : slice A) : append_nil s1 = append_nil s2 -> elems s1 = elems s2.
Proof. intros Heq. by rewrite <- (elems_append_nil s1), Heq, elems_append_nil. Qed.

Lemma key_requested req api hash id now k :
  key_equiv st_nt k (Key_created (key_of_request req api hash) id now) -> requested req api hash id now k.
Proof.
  unfold key_equiv, norm_key. intros Heq. injection Heq. cbn. intros Hm Hl Hu Hc He Hn Hx Hr Hp Hh **.
  split; try done.
  - rewrite <- (elems_append_nil (Key_KeyHash k)), Hh. apply (elems_append_nil (Some hash)).
  - by apply append_nil_elems.
  - rewrite <- (elems_append_nil (Key_LimitRefs k)), Hr.
    apply (elems_append_nil (limitRefsFromProto (apikeyv1.CreateKeyRequest_GetLimitRefs req))).
  - rewrite Hx. by destruct (apikeyv1.CreateKeyRequest_GetExpiresAt req).
  - rewrite Hn. unfold remaining_of. cbn zeta. case_decide; destruct (Z.leb_spec (apikeyv1.CreateKeyRequest_GetRemainingUses req) 0); lia.
  - by destruct (Key_LastVerifiedAt k).
Qed.

(** The last call of [CreateKey]. *)
Lemma CreateKey_store req api plaintext hash A :
  event_ok (CreateKeyE (key_of_request req api hash)) ->
  is_Some (a_apis A !! API_APIID api) ->
  swp (c ← call s (CreateKeyE (key_of_request req api hash));
       Ret match c with
           | Err err => Err (mapStoreErr err)
           | Ok created => Ok (apikeyv1.mkCreateKeyResponse (Some (keyToProto created)) plaintext)
           end) A (fun _ : list (event E) => or_fault A (issued req api plaintext hash A)).
Proof.
  intros He Hapi.
  apply (call_meets _ (fun k => apikeyv1.mkCreateKeyResponse (Some (keyToProto k)) plaintext)); [done|done|].
  intros r A' [(-> & Hn & Hwhy)|[(-> & Hc & Hfree)|(id & now & k & -> & _ & _ & Hf & Hn & Heq & ->)]].
  - right. left. split_and!; [done| |].
    + exact (mapStoreErr_not_found r (fun k => apikeyv1.mkCreateKeyResponse (Some (keyToProto k)) plaintext) Hn).
    + destruct Hwhy as [Hnone|Hnone]; [|done]. cbn in Hnone. rewrite Hnone in Hapi. by destruct Hapi.
  - left. split_and!; [done| |done].
    exact (mapStoreErr_conflicts r (fun k => apikeyv1.mkCreateKeyResponse (Some (keyToProto k)) plaintext) Hc).
  - right. right. exists id, now, k. split_and!; try done. by apply key_requested.
Qed.

Lemma or_fault_mono {R} A (P P' : AStore -> answer R -> Prop) A' r :
  (forall A' r, P A' r -> P' A' r) -> or_fault A P A' r -> or_fault A P' A' r.
Proof.
  intros HP [Hp|(Hf & Hr & HA)]; [left; by apply HP|right]. split_and!; [done|done|].
  destruct HA as [|[r' Hp]]; [by left|right]. exists r'. by apply HP.
Qed.

Lemma entropy_read (ev : event E) rd l : entropy (ev :: @Ev E _ ReadRandom rd :: l) rd.
Proof. right. left. Qed.

Lemma CreateKey_rpc req A :
  a_wf A -> request_ok (RqCreateKey req) ->
  swp (CreateKey s req) A (fun l => CreateKey_spec req l A).
Proof.
  intros Hwf Hr. unfold CreateKey, CreateKey_spec. repeat required_field.
  apply swp_call; [done|]. intros r A' [[-> Hs]|(Hf & (err & -> & Herr) & HA)].
  2: { assert (A' = A) as -> by (destruct HA as [|(r' & ? & _)]; done). cbn [swp].
       rewrite mapStoreErr_foreign by done. by apply (or_fault_early A _ err). }
  destruct (a_apis A !! _) as [api0|] eqn:Hapi.
  2: { destruct Hs as (err & -> & He). cbn [swp]. left. split; [done|].
       unfold mapStoreErr. rewrite He. by eexists. }
  destruct Hs as (api & -> & <-). pose proof (a_wf_api _ Hwf _ _ Hapi) as Hid. cbn in Hid.
  apply swp_trigger; [done|]. intros rd A' ->. cbn [bind swp].
  destruct (keymat.New rd (API_KeyPrefix api)) as [[plaintext hash]|err] eqn:Hnew; cbn [swp].
  2: { left. exists rd. split; [apply entropy_read|]. cbn. by rewrite Hnew. }
  eapply swp_mono; [|apply (CreateKey_store req api plaintext hash A)].
  - intros l A' r Ho. cbn beta in Ho. eapply or_fault_mono; [|exact Ho].
    intros A2 r2 Hp. exists rd. split; [apply entropy_read|]. cbn. rewrite Hnew. by apply issued_norm.
  - by apply key_of_request_ok.
  - rewrite Hid, Hapi. by eexists.
Qed.

Lemma RotateKey_store id k hash plaintext A :
  a_keys A !! id = Some k ->
  swp (c ← call s (RotateKeyE id (Some hash));
       Ret match c with
           | Err err => Err (mapStoreErr err)
           | Ok rotated => Ok (apikeyv1.mkRotateKeyResponse (Some (keyToProto rotated)) plaintext)
           end) A (fun _ : list (event E) => or_fault A (rotated id k plaintext hash A)).
Proof.
  intros Hk.
  apply (call_meets _ (fun k => apikeyv1.mkRotateKeyResponse (Some (keyToProto k)) plaintext)); [done|done|].
  intros r A' Hs. cbn in Hs. unfold spec_RotateKey in Hs. rewrite Hk in Hs.
  destruct Hs as [(-> & Hc & Hex)|(Hf & t & k' & -> & _ & Hn & ->)].
  - left. split_and!; [done| |done].
    exact (mapStoreErr_conflicts r (fun k => apikeyv1.mkRotateKeyResponse (Some (keyToProto k)) plaintext) Hc).
  - right. split; [done|]. exists t, k'. by split_and!.
Qed.

Lemma RotateKey_rpc req A : a_wf A -> swp (RotateKey s req) A (fun l => RotateKey_spec req l A).
Proof.
  intros Hwf. unfold RotateKey, RotateKey_spec. required_field.
  apply swp_call; [done|]. intros r A' [[-> Hs]|(Hf & (err & -> & Herr) & HA)].
  2: { assert (A' = A) as -> by (destruct HA as [|(r' & ? & _)]; done). cbn [swp].
       rewrite mapStoreErr_foreign by done. by apply (or_fault_early A _ err). }
  destruct (a_keys A !! _) as [k0|] eqn:Hk.
  2: { destruct Hs as (err & -> & He). cbn [swp]. left. split; [done|].
       unfold mapStoreErr. rewrite He. by eexists. }
  destruct Hs as (k & -> & <-). destruct (a_wf_parent _ Hwf _ _ Hk) as [api0 Hapi].
  apply swp_call; [done|]. intros r A' [[-> Hs]|(Hf & (err & -> & Herr) & HA)].
  2: { assert (A' = A) as -> by (destruct HA as [|(r' & ? & _)]; done). cbn [swp].
       rewrite mapStoreErr_foreign by done. by apply (or_fault_early A _ err). }
  cbn in Hapi. rewrite Hapi in Hs. destruct Hs as (api & -> & <-).
  apply swp_trigger; [done|]. intros rd A' ->. cbn [bind swp].
  assert (Hent : forall (ev ev' : event E) l, entropy (ev :: ev' :: @Ev E _ ReadRandom rd :: l) rd).
  { intros ev ev' l. right. apply entropy_read. }
  destruct (keymat.New rd (API_KeyPrefix api)) as [[plaintext hash]|err] eqn:Hnew; cbn [swp].
  2: { left. exists (norm_api st_nt api), rd. split_and!; [done|apply Hent|]. cbn. by rewrite Hnew. }
  eapply swp_mono; [|apply (RotateKey_store _ _ hash plaintext A Hk)].
  - intros l A' r Ho. cbn beta in Ho. eapply or_fault_mono; [|exact Ho].
    intros A2 r2 Hp. exists (norm_api st_nt api), rd. split_and!; [done|apply Hent|]. cbn.
    rewrite Hnew. exact Hp.
Qed.
End Spec.
