(* ===== verification/Postgres.v ===== *)
(** * Postgres: the PostgreSQL driver (keychainserver/store/postgres/postgres.go)

    The tables of migrations/0001_init.up.sql, the SQL statements of the driver as
    atomic events on them, and each method as the program of statements, guards
    and wrapped errors the Go code is.  A statement may fail for reasons outside
    the schema (a lost connection), before or after it took effect.

    PostgreSQL and pgx are not part of the repository.  What depends on them is a
    parameter: the precision of [timestamptz], the collation that orders text, and
    the canonical form that [jsonb] gives a document. *)

From S2P Require Import Prelude Effects GoText Store StoreSpec.

Class PgParams := {
  (** [timestamptz] keeps microseconds. *)
  tstz : Time -> Time;
  tstz_idemp : forall t, tstz (tstz t) = tstz t;
  (** The order of text under the collation of the database. *)
  collate : relation string;
  collate_dec :: RelDecision collate;
  collate_order :: TotalOrder collate;
  (** [jsonb] forgets white space, the order of members and all but the last of
      duplicate names: a string map and an array of flat objects read the same. *)
  jsonb : json -> json;
  jsonb_object : forall l : list (string * json), NoDup l.*1 ->
    exists l', jsonb (JObject l) = JObject l' /\ l' ≡ₚ l;
  jsonb_array : forall l : list json, jsonb (JArray l) = JArray (jsonb <$> l);
  jsonb_null : jsonb JNull = JNull;
}.

Module postgres.

(** ** Rows *)

Record WorkspaceRow : Type := mkWorkspaceRow {
  ws_workspace_id : string;
  ws_name : string;
  ws_owner_principal_id : string;
  ws_created_at : Time;
  ws_updated_at : Time;
  ws_metadata : json;
}.

Record ApiRow : Type := mkApiRow {
  api_api_id : string;
  api_workspace_id : string;
  api_name : string;
  api_key_prefix : string;
  api_created_at : Time;
  api_updated_at : Time;
  api_metadata : json;
}.

(** [key_hash] is NOT NULL; the three nullable columns are the two times. *)
Record KeyRow : Type := mkKeyRow {
  key_key_id : string;
  key_api_id : string;
  key_workspace_id : string;
  key_owner_principal_id : string;
  key_name : string;
  key_key_hash : list byte;
  key_permissions : list string;
  key_limit_refs : json;
  key_expires_at : option Time;
  key_remaining_uses : Z;
  key_enabled : bool;
  key_created_at : Time;
  key_updated_at : Time;
  key_last_verified_at : option Time;
  key_metadata : json;
}.

(** The tables, by primary key. *)
Record DB : Type := mkDB {
  workspaces : gmap string WorkspaceRow;
  apis : gmap string ApiRow;
  keys : gmap string KeyRow;
}.

Definition empty_db : DB := mkDB ∅ ∅ ∅.

Definition put_row (id : string) (r : KeyRow) (db : DB) : DB :=
  mkDB (workspaces db) (apis db) (<[id := r]> (keys db)).

(** ** Statements *)

Definition not_null_violation : error := PgError "23502".
Definition foreign_key_violation : error := PgError "23503".
Definition unique_violation : error := PgError "23505".

(** The one text of the two WHERE clauses of [queryKey]. *)
Inductive KeyWhere : Type :=
| ByID (id : string)
| ByHash (hash : slice byte).

Inductive DbE : Type -> Type :=
| Now : DbE Time
| NewUUID : DbE string
| InsertWorkspace (r : WorkspaceRow) : DbE (res unit)
| SelectWorkspace (id : string) : DbE (res WorkspaceRow)
| InsertAPI (r : ApiRow) : DbE (res unit)
| SelectAPI (id : string) : DbE (res ApiRow)
| InsertKey (hash : slice byte) (r : list byte -> KeyRow) : DbE (res unit)
| SelectKey (where_ : KeyWhere) : DbE (res KeyRow)
| UpdateEnabled (now : Time) (id : string) : DbE (res Z)
| UpdateHash (hash : slice byte) (now : Time) (id : string) : DbE (res unit)
| SelectKeys (api owner token : string) (limit : Z) : DbE (res (list KeyRow * option error))
| UpdateLastVerified (at_ : Time) (id : string) : DbE (res Z)
| UpdateUses (now : Time) (id : string) : DbE (res Z)
| SelectUses (id : string) : DbE (res Z).

Section Statements.
Context `{PgParams}.

(** What the columns keep of the values of an INSERT. *)
Definition stored_workspace (r : WorkspaceRow) : WorkspaceRow :=
  mkWorkspaceRow (ws_workspace_id r) (ws_name r) (ws_owner_principal_id r)
    (tstz (ws_created_at r)) (tstz (ws_updated_at r)) (jsonb (ws_metadata r)).

Definition stored_api (r : ApiRow) : ApiRow :=
  mkApiRow (api_api_id r) (api_workspace_id r) (api_name r) (api_key_prefix r)
    (tstz (api_created_at r)) (tstz (api_updated_at r)) (jsonb (api_metadata r)).

Definition stored_key (r : KeyRow) : KeyRow :=
  mkKeyRow (key_key_id r) (key_api_id r) (key_workspace_id r) (key_owner_principal_id r) (key_name r)
    (key_key_hash r) (key_permissions r) (jsonb (key_limit_refs r)) (tstz <$> key_expires_at r)
    (key_remaining_uses r) (key_enabled r) (tstz (key_created_at r)) (tstz (key_updated_at r))
    (tstz <$> key_last_verified_at r) (jsonb (key_metadata r)).

(** [INSERT INTO workspaces]: the primary key is unique. *)
Definition insert_workspace (r : WorkspaceRow) (db : DB) : DB * res unit :=
  match workspaces db !! ws_workspace_id r with
  | Some _ => (db, Err unique_violation)
  | None => (mkDB (<[ws_workspace_id r := stored_workspace r]> (workspaces db)) (apis db) (keys db), Ok tt)
  end.

(** [INSERT INTO apis]: unique key, then the reference to the workspace. *)
Definition insert_api (r : ApiRow) (db : DB) : DB * res unit :=
  match apis db !! api_api_id r with
  | Some _ => (db, Err unique_violation)
  | None =>
      match workspaces db !! api_workspace_id r with
      | None => (db, Err foreign_key_violation)
      | Some _ => (mkDB (workspaces db) (<[api_api_id r := stored_api r]> (apis db)) (keys db), Ok tt)
      end
  end.

(** Some row other than [id] has the hash. *)
Definition hash_taken (id : string) (hash : list byte) (db : DB) : bool :=
  existsb (fun kr => negb (bool_decide (kr.1 = id)) && bool_decide (key_key_hash kr.2 = hash))
    (map_to_list (keys db)).

(** [INSERT INTO keys]: NOT NULL, then the two unique constraints, then the two
    references, which PostgreSQL checks at the end of the statement. *)
Definition insert_key (hash : slice byte) (row : list byte -> KeyRow) (db : DB) : DB * res unit :=
  match hash with
  | None => (db, Err not_null_violation)
  | Some h =>
      let r := row h in
      match keys db !! key_key_id r with
      | Some _ => (db, Err unique_violation)
      | None =>
          if hash_taken (key_key_id r) h db then (db, Err unique_violation)
          else
            match apis db !! key_api_id r, workspaces db !! key_workspace_id r with
            | Some _, Some _ => (put_row (key_key_id r) (stored_key r) db, Ok tt)
            | _, _ => (db, Err foreign_key_violation)
            end
      end
  end.

(** [key_hash = NULL] selects nothing. *)
Definition select_key (w : KeyWhere) (db : DB) : res KeyRow :=
  match w with
  | ByID id => match keys db !! id with Some r => Ok r | None => Err ErrNoRows end
  | ByHash None => Err ErrNoRows
  | ByHash (Some h) =>
      match List.find (fun kr => bool_decide (key_key_hash kr.2 = h)) (map_to_list (keys db)) with
      | Some kr => Ok kr.2
      | None => Err ErrNoRows
      end
  end.

Definition set_enabled (b : bool) (now : Time) (r : KeyRow) : KeyRow :=
  mkKeyRow (key_key_id r) (key_api_id r) (key_workspace_id r) (key_owner_principal_id r) (key_name r)
    (key_key_hash r) (key_permissions r) (key_limit_refs r) (key_expires_at r) (key_remaining_uses r)
    b (key_created_at r) (tstz now) (key_last_verified_at r) (key_metadata r).

Definition set_hash (h : list byte) (now : Time) (r : KeyRow) : KeyRow :=
  mkKeyRow (key_key_id r) (key_api_id r) (key_workspace_id r) (key_owner_principal_id r) (key_name r)
    h (key_permissions r) (key_limit_refs r) (key_expires_at r) (key_remaining_uses r)
    (key_enabled r) (key_created_at r) (tstz now) (key_last_verified_at r) (key_metadata r).

Definition set_uses (n : Z) (now : Time) (r : KeyRow) : KeyRow :=
  mkKeyRow (key_key_id r) (key_api_id r) (key_workspace_id r) (key_owner_principal_id r) (key_name r)
    (key_key_hash r) (key_permissions r) (key_limit_refs r) (key_expires_at r) n
    (key_enabled r) (key_created_at r) (tstz now) (key_last_verified_at r) (key_metadata r).

Definition set_last_verified (at_ : Time) (r : KeyRow) : KeyRow :=
  mkKeyRow (key_key_id r) (key_api_id r) (key_workspace_id r) (key_owner_principal_id r) (key_name r)
    (key_key_hash r) (key_permissions r) (key_limit_refs r) (key_expires_at r) (key_remaining_uses r)
    (key_enabled r) (key_created_at r) (key_updated_at r) (Some (tstz at_)) (key_metadata r).

(** [UPDATE keys SET enabled = false, updated_at = $1 WHERE key_id = $2 RETURNING 1] *)
Definition update_enabled (now : Time) (id : string) (db : DB) : DB * res Z :=
  match keys db !! id with
  | None => (db, Err ErrNoRows)
  | Some r => (put_row id (set_enabled false now r) db, Ok 1)
  end.

(** [UPDATE keys SET key_hash = $1, updated_at = $2 WHERE key_id = $3] *)
Definition update_hash (hash : slice byte) (now : Time) (id : string) (db : DB) : DB * res unit :=
  match keys db !! id with
  | None => (db, Ok tt)
  | Some r =>
      match hash with
      | None => (db, Err not_null_violation)
      | Some h =>
          if hash_taken id h db then (db, Err unique_violation)
          else (put_row id (set_hash h now r) db, Ok tt)
      end
  end.

(** The WHERE clause of the listing. *)
Definition listed (api owner token : string) (r : KeyRow) : bool :=
  bool_decide (key_api_id r = api) &&
  (bool_decide (owner = EmptyString) || bool_decide (key_owner_principal_id r = owner)) &&
  (bool_decide (token = EmptyString) ||
   (bool_decide (collate token (key_key_id r)) && negb (bool_decide (key_key_id r = token)))).

Definition row_le (r r' : KeyRow) : Prop := collate (key_key_id r) (key_key_id r').

#[global] Instance row_le_dec : RelDecision row_le.
Proof. intros r r'. unfold row_le. apply _. Defined.

(** [SELECT ... ORDER BY key_id ASC LIMIT $4] *)
Definition select_keys (api owner token : string) (limit : Z) (db : DB) : list KeyRow :=
  take (Z.to_nat limit)
    (merge_sort row_le (List.filter (listed api owner token) (snd <$> map_to_list (keys db)))).

(** The count of rows is the command tag. *)
Definition update_last_verified (at_ : Time) (id : string) (db : DB) : DB * res Z :=
  match keys db !! id with
  | None => (db, Ok 0)
  | Some r => (put_row id (set_last_verified at_ r) db, Ok 1)
  end.

(** [UPDATE keys SET remaining_uses = remaining_uses - 1, updated_at = $1
    WHERE key_id = $2 AND remaining_uses > 0 RETURNING remaining_uses] *)
Definition update_uses (now : Time) (id : string) (db : DB) : DB * res Z :=
  match keys db !! id with
  | None => (db, Err ErrNoRows)
  | Some r =>
      if 0 <? key_remaining_uses r
      then (put_row id (set_uses (key_remaining_uses r - 1) now r) db, Ok (key_remaining_uses r - 1))
      else (db, Err ErrNoRows)
  end.

Definition select_uses (id : string) (db : DB) : res Z :=
  match keys db !! id with
  | None => Err ErrNoRows
  | Some r => Ok (key_remaining_uses r)
  end.

(** ** The environment of a statement *)

Record DbInp : Type := mkDbInp {
  di_now : Time;
  di_uuid : string;
  (** The statement fails with the error; the flag says whether it took effect. *)
  di_fault : option (error * bool);
}.

Definition faulty {X} (f : option (error * bool)) (o : DB * res X) (db : DB) : DB * res X :=
  match f with
  | None => o
  | Some (err, took_effect) => (if (took_effect : bool) then o.1 else db, Err err)
  end.

Definition db_handle (X : Type) (e : DbE X) (i : DbInp) (db : DB) : option (DB * X) :=
  let f := di_fault i in
  match e in DbE X return option (DB * X) with
  | Now => Some (db, di_now i)
  | NewUUID => Some (db, di_uuid i)
  | InsertWorkspace r => Some (faulty f (insert_workspace r db) db)
  | SelectWorkspace id => Some (faulty f (db, match workspaces db !! id with
                                              | Some r => Ok r | None => Err ErrNoRows end) db)
  | InsertAPI r => Some (faulty f (insert_api r db) db)
  | SelectAPI id => Some (faulty f (db, match apis db !! id with
                                        | Some r => Ok r | None => Err ErrNoRows end) db)
  | InsertKey h r => Some (faulty f (insert_key h r db) db)
  | SelectKey w => Some (faulty f (db, select_key w db) db)
  | UpdateEnabled now id => Some (faulty f (update_enabled now id db) db)
  | UpdateHash h now id => Some (faulty f (update_hash h now id db) db)
  | SelectKeys api owner token limit =>
      (* a failure is reported by Query, or by rows.Err after some rows *)
      Some (db, match f with
                | None => Ok (select_keys api owner token limit db, None)
                | Some (err, false) => Err err
                | Some (err, true) => Ok (select_keys api owner token limit db, Some err)
                end)
  | UpdateLastVerified at_ id => Some (faulty f (update_last_verified at_ id db) db)
  | UpdateUses now id => Some (faulty f (update_uses now id db) db)
  | SelectUses id => Some (faulty f (db, select_uses id db) db)
  end.
End Statements.

(** ** Encodings *)

Abbreviation zeroLimitRef := (mkLimitRef EmptyString EmptyString).

(** [json.Marshal] of the limit references: nil is [null]. *)
Definition marshal_refs (refs : slice LimitRef) : json :=
  match refs with
  | None => JNull
  | Some l => JArray ((fun r => JObject [("limit_id"%string, JString (to_valid (LimitRef_LimitID r)));
                                         ("scope_key"%string, JString (to_valid (LimitRef_ScopeKey r)))]) <$> l)
  end.

(** Member names are matched without their case.  Besides the ASCII letters two runes
    fold to one: the long s (C5 BF) and the Kelvin sign (E2 84 AA). *)
Definition lower_ascii (a : ascii) : ascii :=
  let n := nat_of_ascii a in
  if ((65 <=? n) && (n <=? 90))%nat then ascii_of_nat (n + 32) else a.

Fixpoint lower (s : string) : string :=
  match s with
  | EmptyString => EmptyString
  | String "197" (String "191" s) => String "s" (lower s)
  | String "226" (String "132" (String "170" s)) => String "k" (lower s)
  | String a s => String (lower_ascii a) (lower s)
  end.

Definition errUnmarshal : error := ErrText "json: cannot unmarshal value".

(** One object into a [LimitRef], member by member. *)
Fixpoint unmarshal_ref (members : list (string * json)) (r : LimitRef) : res LimitRef :=
  match members with
  | [] => Ok r
  | (name, v) :: members =>
      if bool_decide (lower name = "limit_id"%string) then
        match v with
        | JString x => unmarshal_ref members (mkLimitRef x (LimitRef_ScopeKey r))
        | JNull => unmarshal_ref members r
        | _ => Err errUnmarshal
        end
      else if bool_decide (lower name = "scope_key"%string) then
        match v with
        | JString x => unmarshal_ref members (mkLimitRef (LimitRef_LimitID r) x)
        | JNull => unmarshal_ref members r
        | _ => Err errUnmarshal
        end
      else unmarshal_ref members r
  end.

Fixpoint unmarshal_ref_list (l : list json) : res (list LimitRef) :=
  match l with
  | [] => Ok []
  | j :: l =>
      match (match j with
             | JObject members => unmarshal_ref members zeroLimitRef
             | JNull => Ok zeroLimitRef
             | _ => Err errUnmarshal
             end) with
      | Err e => Err e
      | Ok r =>
          match unmarshal_ref_list l with
          | Err e => Err e
          | Ok rs => Ok (r :: rs)
          end
      end
  end.

(** [json.Unmarshal] into a nil slice. *)
Definition unmarshal_refs (j : json) : res (slice LimitRef) :=
  match j with
  | JNull => Ok None
  | JArray l => match unmarshal_ref_list l with Ok rs => Ok (Some rs) | Err e => Err e end
  | _ => Err errUnmarshal
  end.

Definition marshalMetadata (m : metadata) : json :=
  match m with
  | None => JObject []
  | Some m => marshal_map (Some m)
  end.

(** A [jsonb] value is never empty text. *)
Definition unmarshalMetadata (j : json) : metadata :=
  let m := unmarshal_map j in
  if decide (size m = 0%nat) then None else Some m.

Definition nonNilStrings (l : slice string) : list string :=
  match l with
  | None => []
  | Some l => l
  end.

(** [errors.As] to a [*pgconn.PgError]. *)
Fixpoint pg_code (e : error) : option string :=
  match e with
  | PgError c => Some c
  | Errorf _ _ c => pg_code c
  | _ => None
  end.

Definition isFKViolation (e : error) : bool := bool_decide (pg_code e = Some "23503"%string).
Definition isUniqueViolation (e : error) : bool := bool_decide (pg_code e = Some "23505"%string).

(** ** The methods *)

Abbreviation M := (prog DbE).

Definition newID (prefix : string) : M string :=
  u ← trigger NewUUID; Ret (prefix +:+ "_" +:+ u).

Definition CreateWorkspace (w : Workspace) : M (res Workspace) :=
  id ← newID "ws";
  now ← trigger Now;
  let w := Workspace_created w id now in
  r ← trigger (InsertWorkspace
        (mkWorkspaceRow (Workspace_WorkspaceID w) (Workspace_Name w) (Workspace_OwnerPrincipalID w)
           (Workspace_CreatedAt w) (Workspace_UpdatedAt w) (marshalMetadata (Workspace_Metadata w))));
  Ret match r with
      | Err err => Err (Errorf "insert workspace: %w" [] err)
      | Ok _ => Ok w
      end.

Definition GetWorkspace (id : string) : M (res Workspace) :=
  r ← trigger (SelectWorkspace id);
  Ret match r with
      | Err err =>
          if errors_is err ErrNoRows then Err ErrNotFound
          else Err (Errorf "select workspace: %w" [] err)
      | Ok r => Ok (mkWorkspace (ws_workspace_id r) (ws_name r) (ws_owner_principal_id r)
                      (ws_created_at r) (ws_updated_at r) (unmarshalMetadata (ws_metadata r)))
      end.

Definition CreateAPI (a : API) : M (res API) :=
  id ← newID "api";
  now ← trigger Now;
  let a := API_created a id now in
  r ← trigger (InsertAPI
        (mkApiRow (API_APIID a) (API_WorkspaceID a) (API_Name a) (API_KeyPrefix a)
           (API_CreatedAt a) (API_UpdatedAt a) (marshalMetadata (API_Metadata a))));
  Ret match r with
      | Err err =>
          if isFKViolation err then Err (Errorf "workspace %q: %w" [API_WorkspaceID a] ErrNotFound)
          else Err (Errorf "insert api: %w" [] err)
      | Ok _ => Ok a
      end.

Definition GetAPI (id : string) : M (res API) :=
  r ← trigger (SelectAPI id);
  Ret match r with
      | Err err =>
          if errors_is err ErrNoRows then Err ErrNotFound
          else Err (Errorf "select api: %w" [] err)
      | Ok r => Ok (mkAPI (api_api_id r) (api_workspace_id r) (api_name r) (api_key_prefix r)
                      (api_created_at r) (api_updated_at r) (unmarshalMetadata (api_metadata r)))
      end.

(** The row an INSERT of [k] writes. *)
Definition row_of_key (k : Key) (hash : list byte) : KeyRow :=
  mkKeyRow (Key_KeyID k) (Key_APIID k) (Key_WorkspaceID k) (Key_OwnerPrincipalID k) (Key_Name k)
    hash (nonNilStrings (Key_Permissions k)) (marshal_refs (Key_LimitRefs k)) (Key_ExpiresAt k)
    (Key_RemainingUses k) (Key_Enabled k) (Key_CreatedAt k) (Key_UpdatedAt k)
    (Key_LastVerifiedAt k) (marshalMetadata (Key_Metadata k)).

Definition CreateKey (k : Key) : M (res Key) :=
  id ← newID "key";
  now ← trigger Now;
  let k := Key_created k id now in
  r ← trigger (InsertKey (Key_KeyHash k) (row_of_key k));
  Ret match r with
      | Err err =>
          if isFKViolation err then Err (Errorf "api %q: %w" [Key_APIID k] ErrNotFound)
          else if isUniqueViolation err then Err ErrConflict
          else Err (Errorf "insert key: %w" [] err)
      | Ok _ => Ok k
      end.

(** The destination of a [Scan] of the fifteen columns, and the decoding after it. *)
Definition scan_key (r : KeyRow) : res Key :=
  match unmarshal_refs (key_limit_refs r) with
  | Err err => Err (Errorf "unmarshal limit_refs: %w" [] err)
  | Ok refs =>
      Ok (mkKey (key_key_id r) (key_api_id r) (key_workspace_id r) (key_owner_principal_id r) (key_name r)
            (Some (key_key_hash r)) (Some (key_permissions r)) refs (key_expires_at r)
            (key_remaining_uses r) (key_enabled r) (key_created_at r) (key_updated_at r)
            (key_last_verified_at r) (unmarshalMetadata (key_metadata r)))
  end.

Definition queryKey (w : KeyWhere) : M (res Key) :=
  r ← trigger (SelectKey w);
  Ret match r with
      | Err err =>
          if errors_is err ErrNoRows then Err ErrNotFound
          else Err (Errorf "select key: %w" [] err)
      | Ok r => scan_key r
      end.

Definition GetKeyByID (id : string) : M (res Key) := queryKey (ByID id).
Definition GetKeyByHash (hash : slice byte) : M (res Key) := queryKey (ByHash hash).

Definition RevokeKey (id : string) : M (res unit) :=
  now ← trigger Now;
  r ← trigger (UpdateEnabled now id);
  Ret match r with
      | Err err =>
          if errors_is err ErrNoRows then Err ErrNotFound
          else Err (Errorf "update key: %w" [] err)
      | Ok _ => Ok tt
      end.

Definition RotateKey (id : string) (newHash : slice byte) : M (res Key) :=
  now ← trigger Now;
  r ← trigger (UpdateHash newHash now id);
  match r with
  | Err err =>
      Ret (if isUniqueViolation err then Err ErrConflict
           else Err (Errorf "update key hash: %w" [] err))
  | Ok _ => GetKeyByID id
  end.

(** [for rows.Next() { ... }]: the first row that cannot be decoded ends the loop. *)
Fixpoint scan_keys (rows : list KeyRow) : res (list Key) :=
  match rows with
  | [] => Ok []
  | r :: rows =>
      match scan_key r with
      | Err err => Err err
      | Ok k =>
          match scan_keys rows with
          | Err err => Err err
          | Ok ks => Ok (k :: ks)
          end
      end
  end.

(** One row more than the page was asked for: its presence gives the next token. *)
Definition page_of (out : list Key) (pageSize : Z) : ListKeysResult :=
  if pageSize <? Z.of_nat (length out)
  then mkListKeysResult (take (Z.to_nat pageSize) out)
         (default EmptyString (Key_KeyID <$> out !! Z.to_nat (pageSize - 1)))
  else mkListKeysResult out EmptyString.

Definition ListKeys (opts : ListKeysOpts) : M (res ListKeysResult) :=
  let pageSize := if ListKeysOpts_PageSize opts <=? 0 then 50 else ListKeysOpts_PageSize opts in
  r ← trigger (SelectKeys (ListKeysOpts_APIID opts) (ListKeysOpts_OwnerPrincipalID opts)
                 (ListKeysOpts_PageToken opts) (pageSize + 1));
  Ret match r with
      | Err err => Err (Errorf "select keys: %w" [] err)
      | Ok (rows, failed) =>
          match scan_keys rows with
          | Err err => Err err
          | Ok out =>
              match failed with
              | Some err => Err (Errorf "iterate keys: %w" [] err)
              | None => Ok (page_of out pageSize)
              end
          end
      end.

Definition TouchLastVerified (id : string) (at_ : Time) : M (res unit) :=
  r ← trigger (UpdateLastVerified at_ id);
  Ret match r with
      | Err err => Err (Errorf "touch last_verified_at: %w" [] err)
      | Ok n => if n =? 0 then Err ErrNotFound else Ok tt
      end.

Definition DecrementRemainingUses (id : string) : M (Z * option error) :=
  now ← trigger Now;
  r ← trigger (UpdateUses now id);
  match r with
  | Ok remaining => Ret (remaining, None)
  | Err err =>
      if negb (errors_is err ErrNoRows) then Ret (0, Some (Errorf "decrement remaining: %w" [] err))
      else
        r ← trigger (SelectUses id);
        Ret match r with
            | Err err =>
                if errors_is err ErrNoRows then (0, Some ErrNotFound)
                else (0, Some (Errorf "select remaining: %w" [] err))
            | Ok remaining =>
                if remaining <? 0 then (-1, None) else (remaining, Some ErrDepleted)
            end
  end.

(** The methods behind the interface. *)
Definition method (X : Type) (e : StoreE X) : M X :=
  match e in StoreE X return M X with
  | CreateWorkspaceE w => CreateWorkspace w
  | GetWorkspaceE id => GetWorkspace id
  | CreateAPIE a => CreateAPI a
  | GetAPIE id => GetAPI id
  | CreateKeyE k => CreateKey k
  | GetKeyByIDE id => GetKeyByID id
  | GetKeyByHashE h => GetKeyByHash h
  | RevokeKeyE id => RevokeKey id
  | RotateKeyE id h => RotateKey id h
  | ListKeysE opts => ListKeys opts
  | TouchLastVerifiedE id at_ => TouchLastVerified id at_
  | DecrementRemainingUsesE id => DecrementRemainingUses id
  end.

(** ** Opening the store

    The connections of [New] and [RunMigrations]: each call of the libraries is an
    event, so that what is opened and what is closed can be read off a run.  The driver
    that [migratepg.WithInstance] returns keeps a connection of its own, checked out of
    the [sql.DB]; closing the [sql.DB] leaves it, and [m.Close] ([MigrateClose]), which
    would release it, is a call that the code never makes. *)

Inductive OpenE : Type -> Type :=
| ParseConfig (dsn : string) : OpenE (res unit)
| SqlOpen (dsn : string) : OpenE (res unit)
| MigrateWithInstance : OpenE (res unit)
| IofsNew : OpenE (res unit)
| MigrateNew : OpenE (res unit)
| MigrateUp : OpenE (option error)
| MigrateClose : OpenE (option error)
| SqlClose : OpenE (option error)
| NewPool : OpenE (res unit)
| PoolPing : OpenE (option error)
| PoolClose : OpenE unit.

(** The body of [RunMigrations] after its deferred close. *)
Definition migrate_body : prog OpenE (option error) :=
  drv ← trigger MigrateWithInstance;
  match drv with
  | Err err => Ret (Some (Errorf "migrate driver: %w" [] err))
  | Ok _ =>
      src ← trigger IofsNew;
      match src with
      | Err err => Ret (Some (Errorf "migrate source: %w" [] err))
      | Ok _ =>
          m ← trigger MigrateNew;
          match m with
          | Err err => Ret (Some (Errorf "migrate new: %w" [] err))
          | Ok _ =>
              up ← trigger MigrateUp;
              Ret match up with
                  | Some err =>
                      if negb (errors_is err ErrNoChange) then Some (Errorf "migrate up: %w" [] err)
                      else None
                  | None => None
                  end
          end
      end
  end.

Definition RunMigrations (dsn : string) : prog OpenE (option error) :=
  db ← trigger (SqlOpen dsn);
  match db with
  | Err err => Ret (Some (Errorf "open sql.DB: %w" [] err))
  | Ok _ =>
      err ← migrate_body;
      _ ← trigger SqlClose;
      Ret err
  end.

Definition New (dsn : string) : prog OpenE (res unit) :=
  poolConfig ← trigger (ParseConfig dsn);
  match poolConfig with
  | Err err => Ret (Err (Errorf "open pool: %w" [] err))
  | Ok _ =>
      err ← RunMigrations dsn;
      match err with
      | Some err => Ret (Err (Errorf "run migrations: %w" [] err))
      | None =>
          pool ← trigger NewPool;
          match pool with
          | Err err => Ret (Err (Errorf "open pool: %w" [] err))
          | Ok _ =>
              err ← trigger PoolPing;
              match err with
              | Some err => _ ← trigger PoolClose; Ret (Err (Errorf "ping: %w" [] err))
              | None => Ret (Ok tt)
              end
          end
      end
  end.

(** The pool of the store is the one of the process. *)
Definition Close : prog OpenE unit := trigger PoolClose.

(** A method run with no other client between its statements; the [n]-th event has
    the [n]-th input. *)
Definition handle `{PgParams} (X : Type) (e : StoreE X) (ins : nat -> DbInp) (db : DB) : option (DB * X) :=
  match run db_handle (method X e) ins 0 db with
  | Some (db', _, x) => Some (db', x)
  | None => None
  end.
End postgres.
