(* ===== verification/PostgresProps.v ===== *)
(** * PostgresProps: the PostgreSQL driver meets the contract of the interface

    What the columns keep of a value is read back as the same value up to the
    normal form of the interface; every method, run without another client between
    its statements, meets its contract, faults of the connection included. *)

From S2P Require Import Prelude Effects GoText Store StoreSpec Postgres.
Import postgres.

Section Props.
Context `{P : PgParams}.

(** ** Round trips through the columns *)


Lemma map_to_list_strings (m : gmap string string) (l : list (string * json)) :
  l ≡ₚ (fun kv => (kv.1, JString kv.2)) <$> map_to_list m -> unmarshal_members l ∅ = m.
Proof.
  intros Hp. symmetry in Hp. apply Permutation_sym, Permutation_map_inv in Hp as (l2 & -> & Hp2).
  change (map ?f ?l) with (f <$> l).
  assert (Hn : NoDup l2.*1) by (rewrite <- Hp2; apply NoDup_fst_map_to_list).
  rewrite unmarshal_members_spec; [|done|intros; apply lookup_empty].
  rewrite (right_id_L ∅ (∪)). rewrite <- (list_to_map_to_list m). symmetry.
  apply list_to_map_proper; [apply NoDup_fst_map_to_list|done].
Qed.

Lemma marshal_map_members m :
  utf8_map (Some m) ->
  marshal_map (Some m) = JObject ((fun kv => (kv.1, JString kv.2)) <$> map_to_list m).
Proof.
  intros Hu. cbn [marshal_map]. f_equal. apply list_fmap_ext.
  intros i [k v] Hi. apply list_elem_of_lookup_2, elem_of_map_to_list in Hi.
  destruct (Hu k v Hi). cbn [fst snd]. by rewrite !to_valid_id.
Qed.

Lemma members_nodup (m : gmap string string) :
  NoDup ((fun kv : string * string => (kv.1, JString kv.2)) <$> map_to_list m).*1.
Proof. rewrite <- list_fmap_compose. apply NoDup_fst_map_to_list. Qed.

(** Metadata is read back, nil for none. *)
Lemma metadata_roundtrip m :
  utf8_map m -> unmarshalMetadata (jsonb (marshalMetadata m)) = norm_metadata m.
Proof.
  intros Hu. unfold unmarshalMetadata. destruct m as [m|]; cbn [marshalMetadata norm_metadata].
  - rewrite marshal_map_members by done.
    destruct (jsonb_object _ (members_nodup m)) as (l' & -> & Hp). cbn [unmarshal_map].
    rewrite (map_to_list_strings m) by done.
    destruct (decide (m = ∅)) as [->|Hne]; [by rewrite decide_True|].
    rewrite decide_False; [done|]. by rewrite map_size_empty_iff.
  - destruct (jsonb_object [] ltac:(constructor)) as (l' & -> & Hp).
    apply Permutation_nil_r in Hp as ->. by rewrite decide_True.
Qed.

Lemma ref_roundtrip r :
  utf8 (LimitRef_LimitID r) -> utf8 (LimitRef_ScopeKey r) ->
  exists l, jsonb (JObject [("limit_id"%string, JString (to_valid (LimitRef_LimitID r)));
                            ("scope_key"%string, JString (to_valid (LimitRef_ScopeKey r)))]) = JObject l /\
    unmarshal_ref l zeroLimitRef = Ok r.
Proof.
  intros Hi Hs. rewrite !to_valid_id by done.
  edestruct (jsonb_object [("limit_id"%string, JString (LimitRef_LimitID r));
                           ("scope_key"%string, JString (LimitRef_ScopeKey r))]) as (l & -> & Hp).
  { repeat constructor; set_solver. }
  exists l. split; [done|]. symmetry in Hp.
  apply Permutation_length_2_inv in Hp as [->| ->]; by destruct r.
Qed.

(** Limit references are read back as they were. *)
Lemma refs_roundtrip refs : utf8_refs refs -> unmarshal_refs (jsonb (marshal_refs refs)) = Ok refs.
Proof.
  intros Hu. destruct refs as [l|]; cbn [marshal_refs]; [|by rewrite jsonb_null].
  rewrite jsonb_array. cbn [unmarshal_refs].
  cut (forall l : list LimitRef, utf8_refs (Some l) ->
    unmarshal_ref_list (jsonb <$> ((fun r => JObject [("limit_id"%string, JString (to_valid (LimitRef_LimitID r)));
      ("scope_key"%string, JString (to_valid (LimitRef_ScopeKey r)))]) <$> l)) = Ok l).
  { intros Hl. by rewrite Hl. }
  clear. induction l as [|r l IH]; intros Hu; [done|].
  apply Forall_cons in Hu as [[Hi Hs] Hu]. destruct (ref_roundtrip r Hi Hs) as (m & Hj & Hr).
  cbn [fmap list_fmap unmarshal_ref_list]. rewrite Hj, Hr. by rewrite IH.
Qed.

(** ** Invariant and abstraction *)

Definition workspace_of (r : WorkspaceRow) : Workspace :=
  mkWorkspace (ws_workspace_id r) (ws_name r) (ws_owner_principal_id r)
    (ws_created_at r) (ws_updated_at r) (unmarshalMetadata (ws_metadata r)).

Definition api_of (r : ApiRow) : API :=
  mkAPI (api_api_id r) (api_workspace_id r) (api_name r) (api_key_prefix r)
    (api_created_at r) (api_updated_at r) (unmarshalMetadata (api_metadata r)).

Definition key_of (r : KeyRow) : Key :=
  match scan_key r with Ok k => k | Err _ => zeroKey end.

Record inv (db : DB) : Prop := {
  inv_api_id : forall id r, apis db !! id = Some r -> api_api_id r = id;
  inv_key_id : forall id r, keys db !! id = Some r -> key_key_id r = id;
  inv_refs : forall id r, keys db !! id = Some r -> exists refs, unmarshal_refs (key_limit_refs r) = Ok refs;
}.

Definition abs (db : DB) : AStore :=
  mkAStore ((norm_workspace tstz ∘ workspace_of) <$> workspaces db)
    ((norm_api tstz ∘ api_of) <$> apis db) ((norm_key tstz ∘ key_of) <$> keys db).

(** A failure outside the schema: none of the errors the driver looks for. *)
Definition io_error (err : error) : Prop :=
  foreign err /\ errors_is err ErrNoRows = false /\
  isFKViolation err = false /\ isUniqueViolation err = false.

Definition input_ok (ins : nat -> DbInp) (db : DB) : Prop :=
  forall n, workspaces db !! ("ws" +:+ "_" +:+ di_uuid (ins n)) = None /\
    apis db !! ("api" +:+ "_" +:+ di_uuid (ins n)) = None /\
    keys db !! ("key" +:+ "_" +:+ di_uuid (ins n)) = None /\
    match di_fault (ins n) with Some (err, _) => io_error err | None => True end.

Lemma inv_empty : inv empty_db.
Proof. split; intros id r; cbn; by rewrite lookup_empty. Qed.

Lemma abs_empty : abs empty_db = a_empty.
Proof. unfold abs, a_empty. cbn. by rewrite !fmap_empty. Qed.

Lemma abs_put_row id r db : abs (put_row id r db) = a_put_key id (norm_key tstz (key_of r)) (abs db).
Proof. unfold abs, a_put_key. cbn. by rewrite fmap_insert. Qed.

Lemma abs_key db id : a_keys (abs db) !! id = (norm_key tstz ∘ key_of) <$> keys db !! id.
Proof. unfold abs. cbn. by rewrite lookup_fmap. Qed.

Lemma inv_put_row id r r0 db :
  inv db -> keys db !! id = Some r0 -> key_key_id r = id -> key_limit_refs r = key_limit_refs r0 ->
  inv (put_row id r db).
Proof.
  intros [Ha Hk Hr] H0 Hid Hrefs. split; cbn; [done|..]; intros id' r'; rewrite lookup_insert;
    case_decide as Heq; eauto; intros [= <-]; [by subst|]. rewrite Hrefs. eauto.
Qed.

(** The key a row holds, when its references can be decoded. *)
Lemma scan_key_Ok r refs :
  unmarshal_refs (key_limit_refs r) = Ok refs -> scan_key r = Ok (key_of r).
Proof. intros Hr. unfold key_of, scan_key. by rewrite Hr. Qed.

Lemma norm_set_enabled b now r refs :
  unmarshal_refs (key_limit_refs r) = Ok refs ->
  norm_key tstz (key_of (set_enabled b now r)) = Key_set_Enabled b (tstz now) (norm_key tstz (key_of r)).
Proof. intros Hr. unfold key_of, scan_key. cbn. rewrite Hr. unfold norm_key. cbn. by rewrite tstz_idemp. Qed.

Lemma norm_set_hash h now r refs :
  unmarshal_refs (key_limit_refs r) = Ok refs ->
  norm_key tstz (key_of (set_hash h now r)) =
  Key_set_KeyHash (append_nil (Some h)) (tstz now) (norm_key tstz (key_of r)).
Proof. intros Hr. unfold key_of, scan_key. cbn. rewrite Hr. unfold norm_key. cbn. by rewrite tstz_idemp. Qed.

Lemma norm_set_uses n now r refs :
  unmarshal_refs (key_limit_refs r) = Ok refs ->
  norm_key tstz (key_of (set_uses n now r)) = Key_set_RemainingUses n (tstz now) (norm_key tstz (key_of r)).
Proof. intros Hr. unfold key_of, scan_key. cbn. rewrite Hr. unfold norm_key. cbn. by rewrite tstz_idemp. Qed.

Lemma norm_set_last_verified t r refs :
  unmarshal_refs (key_limit_refs r) = Ok refs ->
  norm_key tstz (key_of (set_last_verified t r)) = Key_set_LastVerifiedAt (tstz t) (norm_key tstz (key_of r)).
Proof. intros Hr. unfold key_of, scan_key. cbn. rewrite Hr. unfold norm_key. cbn. by rewrite tstz_idemp. Qed.

(** The key of an inserted row, up to the normal form. *)
Lemma norm_inserted k h :
  Key_KeyHash k = Some h -> utf8_map (Key_Metadata k) -> utf8_refs (Key_LimitRefs k) ->
  unmarshal_refs (key_limit_refs (stored_key (row_of_key k h))) = Ok (Key_LimitRefs k) /\
  norm_key tstz (key_of (stored_key (row_of_key k h))) = norm_key tstz k.
Proof.
  intros Hh Hm Hl. assert (Hr : unmarshal_refs (jsonb (marshal_refs (Key_LimitRefs k))) = Ok (Key_LimitRefs k))
    by by apply refs_roundtrip.
  split; [done|]. unfold key_of, scan_key. cbn. rewrite Hr. unfold norm_key. cbn.
  rewrite metadata_roundtrip, norm_metadata_idemp, Hh, !tstz_idemp by done.
  f_equal.
  - destruct (Key_ExpiresAt k); cbn; by rewrite ?tstz_idemp.
  - destruct (Key_LastVerifiedAt k); cbn; by rewrite ?tstz_idemp.
Qed.

(** ** Hashes *)

Lemma same_hash_row db id r h :
  inv db -> keys db !! id = Some r -> same_hash h (norm_key tstz (key_of r)) <-> key_key_hash r = elems h.
Proof.
  intros Hi Hk. destruct (inv_refs db Hi id r Hk) as (refs & Hr).
  unfold same_hash, key_of, scan_key. rewrite Hr. cbn. by destruct (key_key_hash r).
Qed.

Lemma hash_other db id h :
  inv db ->
  (exists id' k', id' <> id /\ a_keys (abs db) !! id' = Some k' /\ same_hash h k') <->
  hash_taken id (elems h) db = true.
Proof.
  intros Hi. unfold hash_taken. rewrite existsb_exists. split.
  - intros (id' & k' & Hne & Hk & Hh). rewrite abs_key in Hk. apply fmap_Some in Hk as (r & Hr & ->).
    exists (id', r). split; [by apply list_elem_of_In, elem_of_map_to_list|].
    cbn. apply (same_hash_row db id') in Hh; [|done..].
    by rewrite bool_decide_eq_false_2, bool_decide_eq_true_2.
  - intros ([id' r] & Hin & Hb). apply list_elem_of_In, elem_of_map_to_list in Hin. cbn in Hb.
    apply andb_true_iff in Hb as [Hne%negb_true_iff%bool_decide_eq_false Hh%bool_decide_eq_true].
    exists id', (norm_key tstz (key_of r)). rewrite abs_key, Hin. split_and!; [done..|].
    by apply (same_hash_row db id').
Qed.

Lemma hash_taken_fresh db id h :
  inv db -> keys db !! id = None -> hash_taken id (elems h) db = true <-> ~ hash_free h (abs db).
Proof.
  intros Hi Hf. rewrite <- hash_other by done. split.
  - intros (id' & k' & _ & Hk & Hh) Hfree. by apply (Hfree id' k').
  - intros Hn. destruct (decide (map_Exists (fun _ k => same_hash h k) (a_keys (abs db)))) as [Hex|Hex].
    + destruct Hex as (id' & k' & Hk & Hh). exists id', k'. split_and!; [|done..]. intros ->.
      rewrite abs_key, Hf in Hk. done.
    + exfalso. apply Hn. intros id' k' Hk Hh. apply Hex. by exists id', k'.
Qed.

(** ** Statements and faults *)

(** [F]: failures outside the contract are possible; [clock]: the instants a call
    reads.  A repeated revocation writes [updated_at] again: the driver restamps. *)
Section Faults.
Context (F : Prop) (clock : Time -> Prop).
Abbreviation contract := (store_contract tstz collate clock True F).

Definition fault_allowed (f : option (error * bool)) : Prop :=
  match f with Some (err, _) => F /\ io_error err | None => True end.

(** The end of a method: one statement whose answer is mapped by [g]. *)
Definition meets {X} (e : StoreE X) (db : DB) (o : DB * X) : Prop :=
  inv o.1 /\ contract e (abs db) o.2 (abs o.1).

Lemma statement_meets {X Y} (e : StoreE X) (g : res Y -> X) f (o : DB * res Y) db :
  inv db -> fault_allowed f ->
  meets e db (o.1, g o.2) -> (forall err, io_error err -> foreign_answer e (g (Err err))) ->
  meets e db ((faulty f o db).1, g (faulty f o db).2).
Proof.
  intros Hi Hf [Hi' Hc] Hg. destruct f as [[err [|]]|]; cbn; [destruct Hf as [HF Hf]..|done].
  - split; [done|]. right. split_and!; [done|exact (Hg err Hf)|].
    destruct Hc as [Hs|(_ & _ & [?|?])]; [right; eauto|by left|by right].
  - split; [done|]. right. split_and!; [done|exact (Hg err Hf)|by left].
Qed.

(** An answer of the schema itself. *)
Lemma meets_spec {X} (e : StoreE X) (db db' : DB) x :
  inv db' -> store_spec tstz collate clock True e (abs db) x (abs db') -> meets e db (db', x).
Proof. intros Hi Hs. split; [done|by left]. Qed.

Lemma foreign_wrap format args err : foreign err -> foreign (Errorf format args err).
Proof. intros (H1 & H2 & H3). by split_and!; cbn; rewrite ?H1, ?H2, ?H3. Qed.

(** The error a method returns for a failure outside the schema. *)
Lemma io_foreign format args err : io_error err -> foreign (Errorf format args err).
Proof. intros [Hf _]. by apply foreign_wrap. Qed.

Hint Resolve io_foreign : core.

(** Solves the goal on faults: the wrapped error is foreign. *)
Ltac on_fault :=
  let err := fresh "err" in let Hio := fresh "Hio" in
  intros err Hio; pose proof Hio as (? & Hn & Hfk & Hun); cbn; rewrite ?Hn, ?Hfk, ?Hun;
  eexists; split; [done|by apply io_foreign].

(** ** The methods *)

Definition meets_run {X} (e : StoreE X) (ins : nat -> DbInp) (db : DB) : Prop :=
  exists o, handle X e ins db = Some o /\ meets e db o.

Lemma handle_run X (e : StoreE X) ins db s n x :
  run db_handle (method X e) ins 0 db = Some (s, n, x) -> handle X e ins db = Some (s, x).
Proof. unfold handle. by intros ->. Qed.

(** Runs the program of a method, event by event. *)
Ltac run_method :=
  eexists (_, _); split;
    [eapply handle_run;
     cbv [method CreateWorkspace GetWorkspace CreateAPI GetAPI CreateKey GetKeyByID GetKeyByHash queryKey
          RevokeKey RotateKey ListKeys TouchLastVerified DecrementRemainingUses newID
          mbind prog_bind bind trigger];
     repeat (erewrite run_step by reflexivity; cbn [fst snd]); reflexivity|].

Section Methods.
Variable (ins : nat -> DbInp) (db : DB).
Hypothesis (Hinv : inv db) (Hok : input_ok ins db).
Hypothesis (HF : forall n f, di_fault (ins n) = Some f -> F).
Hypothesis (Hclock : forall n, clock (di_now (ins n))).

Lemma fault_ok n : fault_allowed (di_fault (ins n)).
Proof using Hok HF.
  destruct (Hok n) as (_ & _ & _ & Hf). destruct (di_fault (ins n)) as [[err te]|] eqn:Hi; [|done].
  split; [by eapply HF|done].
Qed.

(** A method that ends with one statement: its answer is [g] of the statement's. *)
Ltac last_statement n :=
  match goal with |- meets ?e _ (_, ?x) =>
    match x with context [snd (faulty ?f ?o ?d)] =>
      let g := eval pattern (snd (faulty f o d)) in x in
      match g with ?g _ => refine (statement_meets e g f o d Hinv (fault_ok n) _ _); [|on_fault] end
    end
  end.

Lemma CreateWorkspace_pg w : utf8_map (Workspace_Metadata w) -> meets_run (CreateWorkspaceE w) ins db.
Proof using Hinv Hok HF Hclock.
  intros Hu. run_method. destruct (Hok 0%nat) as (Hfresh & _). last_statement 2%nat.
  unfold insert_workspace. cbn. rewrite Hfresh. cbn. apply meets_spec; [split; cbn; apply Hinv|].
  eexists _, (di_now (ins 1%nat)), _. split_and!; [done|done| |done|].
  - cbn. by rewrite lookup_fmap, Hfresh.
  - unfold abs. cbn. rewrite fmap_insert. do 2 f_equal. unfold norm_workspace. cbn.
    by rewrite metadata_roundtrip, norm_metadata_idemp, !tstz_idemp.
Qed.

Lemma GetWorkspace_pg id : meets_run (GetWorkspaceE id) ins db.
Proof using Hinv Hok HF.
  run_method. last_statement 0%nat. apply meets_spec; [done|]. split; [done|].
  cbn. rewrite lookup_fmap. destruct (workspaces db !! id); cbn; [by eexists|by exists ErrNotFound].
Qed.

Lemma CreateAPI_pg a : utf8_map (API_Metadata a) -> meets_run (CreateAPIE a) ins db.
Proof using Hinv Hok HF Hclock.
  intros Hu. run_method. destruct (Hok 0%nat) as (_ & Hfresh & _). last_statement 2%nat.
  unfold insert_api. cbn. rewrite Hfresh. cbn.
  destruct (workspaces db !! API_WorkspaceID a) eqn:Hw; cbn; apply meets_spec.
  - destruct Hinv as [Ha Hk Hr]. split; cbn; [|done..].
    intros id r. rewrite lookup_insert. case_decide; [by intros [= <-]|eauto].
  - cbn. unfold spec_CreateAPI. cbn. rewrite lookup_fmap, Hw. eexists _, (di_now (ins 1%nat)), _. split_and!; [done|done| |done|].
    + cbn. by rewrite lookup_fmap, Hfresh.
    + unfold abs. cbn. rewrite fmap_insert. do 2 f_equal. unfold norm_api. cbn.
      by rewrite metadata_roundtrip, norm_metadata_idemp, !tstz_idemp.
  - done.
  - cbn. unfold spec_CreateAPI. cbn. rewrite lookup_fmap, Hw. split; [done|]. by eexists.
Qed.

Lemma GetAPI_pg id : meets_run (GetAPIE id) ins db.
Proof using Hinv Hok HF.
  run_method. last_statement 0%nat. apply meets_spec; [done|]. split; [done|].
  cbn. rewrite lookup_fmap. destruct (apis db !! id); cbn; [by eexists|by exists ErrNotFound].
Qed.

Lemma RevokeKey_pg id : meets_run (RevokeKeyE id) ins db.
Proof using Hinv Hok HF Hclock.
  run_method. last_statement 1%nat. unfold update_enabled.
  destruct (keys db !! id) as [r|] eqn:Hk; cbn; apply meets_spec; cbn; unfold spec_RevokeKey;
    rewrite ?abs_key, ?Hk.
  - apply (inv_put_row _ _ r); [done|done| |done]. exact (inv_key_id db Hinv id r Hk).
  - cbn. split; [done|]. destruct (inv_refs db Hinv id r Hk) as (refs & Hr).
    right. split; [by right|]. exists (di_now (ins 0%nat)). split; [done|].
    rewrite abs_put_row. by erewrite norm_set_enabled.
  - done.
  - cbn. split; [done|]. by eexists.
Qed.

Lemma TouchLastVerified_pg id at_ : meets_run (TouchLastVerifiedE id at_) ins db.
Proof using Hinv Hok HF.
  run_method. last_statement 0%nat. unfold update_last_verified.
  destruct (keys db !! id) as [r|] eqn:Hk; cbn; apply meets_spec; cbn; unfold spec_TouchLastVerified;
    rewrite ?abs_key, ?Hk.
  - apply (inv_put_row _ _ r); [done|done| |done]. exact (inv_key_id db Hinv id r Hk).
  - cbn. split; [done|]. destruct (inv_refs db Hinv id r Hk) as (refs & Hr).
    rewrite abs_put_row. by erewrite norm_set_last_verified.
  - done.
  - cbn. split; [done|]. by eexists.
Qed.

Lemma CreateKey_pg k :
  (Key_KeyHash k = None -> F) -> utf8_map (Key_Metadata k) -> utf8_refs (Key_LimitRefs k) ->
  meets_run (CreateKeyE k) ins db.
Proof using Hinv Hok HF Hclock.
  intros Hnil Hu Hl. run_method. destruct (Hok 0%nat) as (_ & _ & Hfresh & _). last_statement 2%nat.
  set (id := "key" +:+ "_" +:+ di_uuid (ins 0%nat)) in *. set (k' := Key_created k id (di_now (ins 1%nat))).
  unfold insert_key. change (Key_KeyHash k') with (Key_KeyHash k).
  destruct (Key_KeyHash k) as [h|] eqn:Hh; cbn [fst snd].
  2: { split; [done|]. right. split_and!; [by apply Hnil| |by left].
       eexists. split; [done|]. by split_and!. }
  cbn -[hash_taken]. rewrite Hfresh. pose proof (hash_taken_fresh db id (Some h) Hinv Hfresh) as Hht.
  cbn [elems] in Hht. destruct (hash_taken id h db) eqn:Ht; cbn [fst snd].
  { apply meets_spec; [done|]. right; left. split_and!; [done|by (eexists; split; reflexivity)|]. rewrite Hh. apply Hht. exact Ht. }
  destruct (apis db !! Key_APIID k) as [a|] eqn:Ha; cbn.
  2: { apply meets_spec; [done|]. left. split_and!; [done|by (eexists; split; reflexivity)|left]. cbn. by rewrite lookup_fmap, Ha. }
  destruct (workspaces db !! Key_WorkspaceID k) as [w|] eqn:Hw; cbn.
  2: { apply meets_spec; [done|]. left. split_and!; [done|by (eexists; split; reflexivity)|right]. cbn. by rewrite lookup_fmap, Hw. }
  destruct (norm_inserted k' h Hh Hu Hl) as [Hrefs Hnorm]. apply meets_spec.
  - destruct Hinv as [Hia Hik Hir]. split; cbn; [done|..]; intros id' r'; rewrite lookup_insert;
      case_decide; eauto; intros [= <-]; [done|eauto].
  - right; right. exists id, (di_now (ins 1%nat)), k'. split_and!; [done|done| | | |done|].
    + cbn. rewrite lookup_fmap, Ha. by eexists.
    + rewrite Hh. intros id2 k2 Hk2 Hs. enough (hash_taken id h db = true) by congruence.
      apply Hht. intros Hf. by apply (Hf id2 k2).
    + by rewrite abs_key, Hfresh.
    + rewrite abs_put_row. by rewrite Hnorm.
Qed.

Lemma GetKeyByID_pg id : meets_run (GetKeyByIDE id) ins db.
Proof using Hinv Hok HF.
  run_method. last_statement 0%nat. apply meets_spec; [done|]. split; [done|].
  rewrite abs_key. cbn. destruct (keys db !! id) as [r|] eqn:Hk; cbn; [|by exists ErrNotFound].
  destruct (inv_refs db Hinv id r Hk) as (refs & Hr). rewrite (scan_key_Ok r refs Hr). by eexists.
Qed.

Lemma find_hash h :
  match List.find (fun kr => bool_decide (key_key_hash kr.2 = h)) (map_to_list (keys db)) with
  | Some kr => keys db !! kr.1 = Some kr.2 /\ key_key_hash kr.2 = h
  | None => forall id r, keys db !! id = Some r -> key_key_hash r <> h
  end.
Proof using.
  destruct (List.find _ _) as [[id r]|] eqn:Hf.
  - apply find_some in Hf as [Hin Hb]. apply list_elem_of_In, elem_of_map_to_list in Hin.
    by apply bool_decide_eq_true in Hb.
  - intros id r Hk Hh. apply elem_of_map_to_list, list_elem_of_In in Hk.
    pose proof (find_none _ _ Hf _ Hk) as Hb. cbn in Hb. by apply bool_decide_eq_false in Hb.
Qed.

Lemma GetKeyByHash_pg h : is_Some h -> meets_run (GetKeyByHashE h) ins db.
Proof using Hinv Hok HF.
  intros [b ->]. run_method. last_statement 0%nat. apply meets_spec; [done|]. split; [done|].
  cbn [select_key fst snd]. pose proof (find_hash b) as Hf.
  destruct (List.find _ _) as [[id r]|]; cbn in *.
  - destruct Hf as [Hk Hh]. destruct (inv_refs db Hinv id r Hk) as (refs & Hr). right.
    exists id, (norm_key tstz (key_of r)), (key_of r). rewrite (scan_key_Ok r refs Hr).
    split_and!; [done| | |done].
    + by rewrite lookup_fmap, Hk.
    + by apply (same_hash_row db id).
  - left. split; [by eexists|]. intros id k Hk. rewrite abs_key in Hk. apply fmap_Some in Hk as (r & Hr & ->).
    intros Hs. apply (same_hash_row db id r) in Hs; [|done..]. by apply (Hf id r).
Qed.

(** The update of the hash, then the read of the key: a fault of the first leaves
    it done or not, a fault of the second leaves it done. *)
Lemma UpdateHash_spec id h r :
  keys db !! id = Some r -> hash_taken id h db = false ->
  let r' := set_hash h (di_now (ins 0%nat)) r in
  let db' := put_row id r' db in
  inv db' /\ scan_key r' = Ok (key_of r') /\
  store_spec tstz collate clock True (RotateKeyE id (Some h)) (abs db) (Ok (key_of r')) (abs db').
Proof using Hinv Hclock.
  intros Hk Ht r' db'. destruct (inv_refs db Hinv id r Hk) as (refs & Hr). split_and!.
  - apply (inv_put_row _ _ r); [done|done| |done]. exact (inv_key_id db Hinv id r Hk).
  - by apply (scan_key_Ok _ refs).
  - cbn. unfold spec_RotateKey. rewrite abs_key, Hk. cbn. right. split.
    + intros id2 k2 Hne Hk2 Hs. enough (hash_taken id h db = true) by congruence.
      change h with (elems (Some h)). apply hash_other; eauto.
    + eexists (di_now (ins 0%nat)), _. split_and!; [done|done|by eapply norm_set_hash|]. unfold db'. by rewrite abs_put_row.
Qed.

(** The read of the key after the update, as the last statement. *)
Lemma read_back id h r n :
  keys db !! id = Some r -> hash_taken id h db = false ->
  let db' := put_row id (set_hash h (di_now (ins 0%nat)) r) db in
  let o := faulty (di_fault (ins n)) (db', select_key (ByID id) db') db' in
  meets (RotateKeyE id (Some h)) db (o.1, match o.2 with
    | Err err => if errors_is err ErrNoRows then Err ErrNotFound else Err (Errorf "select key: %w" [] err)
    | Ok r => scan_key r end).
Proof using Hinv Hok HF Hclock.
  intros Hk Ht db' o. destruct (UpdateHash_spec id h r Hk Ht) as (Hi & Hs & Hspec).
  pose proof (fault_ok n) as Hf. unfold o. destruct (di_fault (ins n)) as [[err te]|]; cbn [faulty fst snd].
  - destruct Hf as (HF' & Hf & Hn & _). rewrite Hn. destruct te; (split; [done|]; right; split_and!;
      [done|eexists; split; [done|by apply foreign_wrap]|right; eauto]).
  - cbn [select_key]. assert (keys db' !! id = Some (set_hash h (di_now (ins 0%nat)) r)) as ->.
    { apply lookup_insert_eq. }
    rewrite Hs. by apply meets_spec.
Qed.

(** A fault of the update. *)
Lemma update_fault id h (te : bool) err :
  F -> foreign err ->
  meets (RotateKeyE id h) db
    (if te then (update_hash h (di_now (ins 0%nat)) id db).1 else db,
     Err (Errorf "update key hash: %w" [] err)).
Proof using Hinv Hclock.
  intros HF' Hf. assert (Hskip : meets (RotateKeyE id h) db (db, Err (Errorf "update key hash: %w" [] err))).
  { split; [done|]. right. split_and!; [done|eexists; split; [done|by apply foreign_wrap]|by left]. }
  destruct te; [|done]. unfold update_hash. destruct (keys db !! id) as [r|] eqn:Hk; [|done].
  destruct h as [h|]; [|done]. destruct (hash_taken id h db) eqn:Ht; [done|]. cbn [fst].
  destruct (UpdateHash_spec id h r Hk Ht) as (Hi & _ & Hs). split; [done|]. right.
  split_and!; [done|eexists; split; [done|by apply foreign_wrap]|right; eauto].
Qed.

Lemma RotateKey_pg id h : (h = None -> F) -> meets_run (RotateKeyE id h) ins db.
Proof using Hinv Hok HF Hclock.
  intros Hnil. unfold meets_run, handle. cbv [method RotateKey GetKeyByID queryKey mbind prog_bind bind trigger].
  do 2 (erewrite run_step by reflexivity; cbn [fst snd]).
  pose proof (fault_ok 1) as Hf1.
  destruct (di_fault (ins 1%nat)) as [[err te]|]; cbn [faulty fst snd].
  { eexists. split; [reflexivity|]. destruct Hf1 as (HF' & Hf & Hn & Hfk & Hun). rewrite Hun.
    by apply (update_fault id h te). }
  unfold update_hash. destruct (keys db !! id) as [r|] eqn:Hk; cbn [fst snd].
  2: { erewrite run_step by reflexivity. eexists. split; [reflexivity|]. last_statement 2%nat.
       cbn. rewrite Hk. apply meets_spec; [done|]. cbn. unfold spec_RotateKey. rewrite abs_key, Hk.
       split; [done|by eexists]. }
  destruct h as [h|]; cbn [fst snd].
  2: { eexists. split; [reflexivity|]. split; [done|]. right. split_and!; [by apply Hnil| |by left].
       eexists. split; [reflexivity|by split_and!]. }
  destruct (hash_taken id h db) eqn:Ht; cbn [fst snd].
  { eexists. split; [reflexivity|]. apply meets_spec; [done|]. cbn. unfold spec_RotateKey.
    rewrite abs_key, Hk. left. split_and!; [done|by eexists; split; reflexivity|].
    by apply hash_other. }
  erewrite run_step by reflexivity. eexists. split; [reflexivity|]. by apply read_back.
Qed.

(** The key of a row in the abstract state. *)
Lemma abs_uses id r :
  keys db !! id = Some r ->
  a_keys (abs db) !! id = Some (norm_key tstz (key_of r)) /\
  Key_RemainingUses (norm_key tstz (key_of r)) = key_remaining_uses r.
Proof using Hinv.
  intros Hk. destruct (inv_refs db Hinv id r Hk) as (refs & Hr). rewrite abs_key, Hk. split; [done|].
  unfold key_of, scan_key. by rewrite Hr.
Qed.

Lemma uses_fault id (db' : DB) err format :
  F -> foreign err -> inv db' ->
  (abs db' = abs db \/ exists x, spec_DecrementRemainingUses tstz clock id (abs db) x (abs db')) ->
  meets (DecrementRemainingUsesE id) db (db', (0, Some (Errorf format [] err))).
Proof using.
  intros HF' Hf Hi Ha. split; [done|]. right. split_and!; [done| |done].
  eexists. split; [done|by apply foreign_wrap].
Qed.

Lemma UpdateUses_spec id r now :
  clock now -> keys db !! id = Some r -> 0 < key_remaining_uses r ->
  let db' := put_row id (set_uses (key_remaining_uses r - 1) now r) db in
  inv db' /\ spec_DecrementRemainingUses tstz clock id (abs db) (key_remaining_uses r - 1, None) (abs db').
Proof using Hinv Hclock.
  intros Hnow Hk Hpos db'. destruct (inv_refs db Hinv id r Hk) as (refs & Hr). split.
  - apply (inv_put_row _ _ r); [done|done| |done]. exact (inv_key_id db Hinv id r Hk).
  - destruct (abs_uses id r Hk) as [Hl Hu]. unfold spec_DecrementRemainingUses. rewrite Hl, Hu.
    rewrite !decide_False by lia. split; [done|]. exists now. split; [done|].
    unfold db'. rewrite abs_put_row. by erewrite norm_set_uses.
Qed.

(** The second statement, after no row was charged. *)
Lemma not_charged id n :
  match keys db !! id with Some r => key_remaining_uses r <= 0 | None => True end ->
  let o := faulty (di_fault (ins n)) (db, select_uses id db) db in
  meets (DecrementRemainingUsesE id) db (o.1, match o.2 with
    | Err err => if errors_is err ErrNoRows then (0, Some ErrNotFound)
                 else (0, Some (Errorf "select remaining: %w" [] err))
    | Ok remaining => if remaining <? 0 then (-1, None) else (remaining, Some ErrDepleted) end).
Proof using Hinv Hok HF.
  intros Hle o. unfold o. last_statement n. unfold select_uses.
  destruct (keys db !! id) as [r|] eqn:Hk; cbn [fst snd]; apply meets_spec; try done.
  - destruct (abs_uses id r Hk) as [Hl Hu]. cbn [store_spec fst snd]. unfold spec_DecrementRemainingUses.
    rewrite Hl, Hu. destruct (Z.ltb_spec (key_remaining_uses r) 0);
      [by rewrite decide_True by lia|rewrite decide_False by lia; rewrite decide_True by lia].
    split; [done|]. by replace (key_remaining_uses r) with 0 by lia.
  - cbn. unfold spec_DecrementRemainingUses. rewrite abs_key, Hk. split; [done|by eexists].
Qed.

Lemma DecrementRemainingUses_pg id : meets_run (DecrementRemainingUsesE id) ins db.
Proof using Hinv Hok HF Hclock.
  unfold meets_run, handle. cbv [method DecrementRemainingUses mbind prog_bind bind trigger].
  do 2 (erewrite run_step by reflexivity; cbn [fst snd]).
  pose proof (fault_ok 1) as Hf1.
  destruct (di_fault (ins 1%nat)) as [[err te]|]; cbn [faulty fst snd].
  { destruct Hf1 as (HF' & Hf & Hn & _). rewrite Hn. eexists. split; [reflexivity|].
    destruct te; [|by apply uses_fault; auto]. unfold update_uses.
    destruct (keys db !! id) as [r|] eqn:Hk; [|by apply uses_fault; auto].
    destruct (Z.ltb_spec 0 (key_remaining_uses r)) as [Hpos|]; [|by apply uses_fault; auto].
    destruct (UpdateUses_spec id r (di_now (ins 0%nat)) (Hclock 0) Hk Hpos). apply uses_fault; eauto. }
  pose proof (not_charged id 2) as Hno. unfold update_uses.
  destruct (keys db !! id) as [r|] eqn:Hk; cbn [fst snd negb].
  2: { change (errors_is ErrNoRows ErrNoRows) with true; cbn [negb]; erewrite run_step by reflexivity. eexists. split; [reflexivity|]. by apply Hno. }
  destruct (Z.ltb_spec 0 (key_remaining_uses r)) as [Hpos|Hle]; cbn [fst snd negb].
  - eexists. split; [reflexivity|]. destruct (UpdateUses_spec id r (di_now (ins 0%nat)) (Hclock 0) Hk Hpos).
    by apply meets_spec.
  - change (errors_is ErrNoRows ErrNoRows) with true; cbn [negb]; erewrite run_step by reflexivity. eexists. split; [reflexivity|]. by apply Hno.
Qed.

(** ** Listing *)

Section Listing.
Variable (opts : ListKeysOpts).
Abbreviation api := (ListKeysOpts_APIID opts).
Abbreviation owner := (ListKeysOpts_OwnerPrincipalID opts).
Abbreviation token := (ListKeysOpts_PageToken opts).

(** The whole result of the query, before LIMIT. *)
Let L : list KeyRow := merge_sort row_le (List.filter (listed api owner token) (snd <$> map_to_list (keys db))).

Lemma L_elem r : r ∈ L <-> keys db !! key_key_id r = Some r /\ listed api owner token r = true.
Proof using Hinv.
  unfold L. rewrite merge_sort_Permutation, list_elem_of_In, filter_In, <- list_elem_of_In.
  apply and_iff_compat_r. rewrite list_elem_of_fmap. split.
  - intros ([id r'] & -> & Hin). apply elem_of_map_to_list in Hin. cbn.
    by rewrite (inv_key_id db Hinv id r' Hin).
  - intros Hk. exists (key_key_id r, r). split; [done|]. by apply elem_of_map_to_list.
Qed.

Lemma L_nodup : NoDup (key_key_id <$> L).
Proof using Hinv.
  unfold L. rewrite merge_sort_Permutation. apply NoDup_filter_fmap.
  rewrite <- list_fmap_compose. erewrite list_fmap_ext; [apply (NoDup_fst_map_to_list (keys db))|].
  intros i [id r] Hin%list_elem_of_lookup_2%elem_of_map_to_list. cbn. exact (inv_key_id db Hinv id r Hin).
Qed.

#[local] Instance row_le_total : Total row_le.
Proof using. intros r r'. apply (total collate). Qed.

#[local] Instance row_le_trans : Transitive row_le.
Proof using. intros r r' r''. unfold row_le. intros ??. by trans (key_key_id r'). Qed.

Lemma L_sorted : StronglySorted (lt collate) (key_key_id <$> L).
Proof using Hinv.
  apply StronglySorted_strict; [|apply L_nodup]. apply StronglySorted_fmap.
  apply (StronglySorted_merge_sort row_le).
Qed.

Lemma L_after_token : after_token collate opts (abs db) (key_key_id <$> L).
Proof using Hinv.
  split; [apply L_sorted|]. intros id. rewrite list_elem_of_fmap. split.
  - intros (r & -> & [Hk Hl]%L_elem). destruct (inv_refs db Hinv _ r Hk) as (refs & Hr).
    unfold listed in Hl. rewrite !andb_true_iff, !orb_true_iff, andb_true_iff, negb_true_iff in Hl.
    rewrite !bool_decide_eq_true, bool_decide_eq_false in Hl. destruct Hl as [[Ha Ho] Ht]. split.
    + exists (norm_key tstz (key_of r)). rewrite abs_key, Hk. split; [done|].
      unfold key_matches, key_of, scan_key. rewrite Hr. cbn. naive_solver.
    + unfold lt. naive_solver.
  - intros [(k & Hk & Hm) Ht]. rewrite abs_key in Hk. apply fmap_Some in Hk as (r & Hk & ->).
    destruct (inv_refs db Hinv _ r Hk) as (refs & Hr). pose proof (inv_key_id db Hinv id r Hk) as <-.
    exists r. split; [done|]. apply L_elem. split; [done|].
    unfold key_matches, compose, key_of, scan_key in Hm. rewrite Hr in Hm. cbn in Hm.
    unfold listed. rewrite !andb_true_iff, !orb_true_iff, andb_true_iff, negb_true_iff.
    rewrite !bool_decide_eq_true, bool_decide_eq_false. unfold lt in Ht. naive_solver.
Qed.

Lemma scan_keys_Ok rows :
  (forall r, r ∈ rows -> exists refs, unmarshal_refs (key_limit_refs r) = Ok refs) ->
  scan_keys rows = Ok (key_of <$> rows).
Proof using.
  induction rows as [|r rows IH]; intros Hr; [done|]. cbn [scan_keys fmap list_fmap].
  destruct (Hr r) as (refs & Hrefs); [by left|]. rewrite (scan_key_Ok r refs Hrefs).
  rewrite IH; [done|]. intros r' Hin. apply Hr. by right.
Qed.

Lemma L_scan n : scan_keys (take n L) = Ok (key_of <$> take n L).
Proof using Hinv.
  apply scan_keys_Ok. intros r Hin. apply elem_of_take in Hin as (i & Hi & _).
  apply list_elem_of_lookup_2, L_elem in Hi as [Hk _]. by apply (inv_refs db Hinv _ _ Hk).
Qed.

Lemma key_of_ID r : r ∈ L -> Key_KeyID (key_of r) = key_key_id r.
Proof using Hinv.
  intros [Hk _]%L_elem. destruct (inv_refs db Hinv _ r Hk) as (refs & Hr).
  unfold key_of, scan_key. by rewrite Hr.
Qed.

(** One row more than the page tells whether there is a next page. *)
Lemma page_of_spec n :
  (0 < n)%nat ->
  page_of (key_of <$> take (S n) L) (Z.of_nat n) =
  mkListKeysResult (key_of <$> take n L) (next_token n (key_key_id <$> L)).
Proof using Hinv.
  intros Hn. unfold page_of, next_token. rewrite !length_fmap, length_take, Nat2Z.id.
  replace (Z.to_nat (Z.of_nat n - 1)) with (n - 1)%nat by lia.
  destruct (Z.ltb_spec (Z.of_nat n) (Z.of_nat (S n `min` length L))).
  - rewrite decide_True by lia. rewrite <- fmap_take, take_take. replace (n `min` S n)%nat with n by lia.
    f_equal. rewrite last_lookup, <- fmap_take, !list_lookup_fmap, length_fmap, length_take.
    rewrite !lookup_take_lt by lia. replace (pred (n `min` length L)) with (n - 1)%nat by lia.
    destruct (L !! (n - 1)%nat) as [r|] eqn:Hr; cbn; [|done].
    by apply key_of_ID, (list_elem_of_lookup_2 _ (n - 1)).
  - rewrite decide_False by lia. by rewrite !take_ge by lia.
Qed.

Lemma ListKeys_pg : meets_run (ListKeysE opts) ins db.
Proof using Hinv Hok HF.
  run_method. set (ps := if _ <=? 0 then _ else _).
  assert (Hps : ps = Z.of_nat (effective_page_size (ListKeysOpts_PageSize opts)) /\ 0 < ps).
  { unfold ps, effective_page_size. destruct (Z.leb_spec (ListKeysOpts_PageSize opts) 0); lia. }
  destruct Hps as [Hps Hpos]. set (n := effective_page_size _) in *.
  assert (Hrows : select_keys api owner token (ps + 1) db = take (S n) L).
  { unfold select_keys, L. f_equal. lia. }
  pose proof (fault_ok 0) as Hf. unfold db_handle. rewrite Hrows.
  destruct (di_fault (ins 0%nat)) as [[err [|]]|]; cbn [fst snd].
  1, 2: destruct Hf as (HF' & Hf & _); split; [done|]; right; rewrite ?L_scan; split_and!; [done| |by left];
    eexists; split; [done|by apply foreign_wrap].
  rewrite L_scan. apply meets_spec; [done|]. split; [done|].
  exists (key_key_id <$> L), (key_of <$> take n L). fold n. split_and!; [apply L_after_token| |].
  - rewrite Hps, page_of_spec by lia. done.
  - rewrite <- fmap_take, <- !list_fmap_compose. apply list_fmap_ext. intros i r Hi.
    assert (Hin : r ∈ L).
    { apply list_elem_of_lookup_2, elem_of_take in Hi as (j & Hj & _). by eapply list_elem_of_lookup_2. }
    apply L_elem in Hin as [Hk _]. unfold compose. by rewrite abs_key, Hk.
Qed.
End Listing.
End Methods.
End Faults.

(** ** The instance *)

Hint Resolve CreateWorkspace_pg GetWorkspace_pg CreateAPI_pg GetAPI_pg CreateKey_pg
  GetKeyByID_pg GetKeyByHash_pg RevokeKey_pg RotateKey_pg ListKeys_pg TouchLastVerified_pg
  DecrementRemainingUses_pg : kc.

(** A hash that the NOT NULL column refuses. *)
Definition nil_hash {X} (e : StoreE X) : Prop :=
  match e with
  | CreateKeyE k => Key_KeyHash k = None
  | RotateKeyE _ h => h = None
  | _ => False
  end.

(** The instants the calls of the environment [ins] read. *)
Definition clock_of (ins : nat -> DbInp) (t : Time) : Prop := exists n, t = di_now (ins n).

Lemma method_meets (F : Prop) X (e : StoreE X) ins db :
  inv db -> input_ok ins db -> event_ok e ->
  (forall n f, di_fault (ins n) = Some f -> F) -> (nil_hash e -> F) -> meets_run F (clock_of ins) e ins db.
Proof.
  intros Hi Ho He HF Hn. assert (Hc : forall n, clock_of ins (di_now (ins n))) by (intros n; by exists n).
  destruct e; cbn [event_ok] in He; destruct_and?; auto with kc.
Qed.

Lemma pg_refines X (e : StoreE X) ins db :
  inv db -> input_ok ins db -> event_ok e ->
  exists db' x, handle X e ins db = Some (db', x) /\ inv db' /\
    store_contract tstz collate (clock_of ins) True True e (abs db) x (abs db').
Proof.
  intros Hi Ho He. destruct (method_meets True X e ins db) as ([db' x] & Hh & Hi' & Hc); eauto.
Qed.

#[export] Instance postgres_impl : StoreImpl DB (nat -> DbInp) := {|
  st_handle := handle;
  st_abs := abs;
  st_inv := inv;
  st_ok := input_ok;
  st_nt := tstz;
  st_le := collate;
  st_clock := clock_of;
  st_restamps := True;
  st_faults := True;
  st_nt_idemp := tstz_idemp;
  st_le_partial := _;
  st_refines := pg_refines;
|}.
End Props.
