(* ===== verification/History.v ===== *)
(** * History: sequences of SQL statements

    The statements of concurrent calls, from any number of processes, reach the database
    one after the other.  [history] is the relation of the sequences a database may
    answer, by rule induction over single statements: what it charges and keeps of a
    counter, what it does to a row, and what rows it answers.  Nothing is assumed about
    who sends the statements, except by [ok]. *)

From S2P Require Import Prelude Effects Store StoreSpec StoreFacts Postgres PostgresProps.
Import postgres.

(** ** Events of interest *)

(** A use of [id] was charged. *)
Definition is_charge (id : string) (ev : event DbE) : bool :=
  match ev with
  | Ev (UpdateUses _ id') (Ok _) => bool_decide (id' = id)
  | _ => false
  end.

Definition charge (id : string) (ev : event DbE) : nat := if is_charge id ev then 1 else 0.


(** No statement found the counter of [id] below zero. *)
Definition negative (id : string) (ev : event DbE) : bool :=
  match ev with
  | Ev (SelectUses id') (Ok n) => bool_decide (id' = id) && (n <? 0)
  | _ => false
  end.

Definition no_negative (id : string) (l : list (event DbE)) : Prop :=
  Forall (fun ev => negative id ev = false) l.

(** The row of a key that a statement answered. *)
Definition row_read (ev : event DbE) : option KeyRow :=
  match ev with
  | Ev (SelectKey _) (Ok r) => Some r
  | _ => None
  end.

(** The row found by a hash, with that hash. *)
Definition row_found (ev : event DbE) : option (slice byte * KeyRow) :=
  match ev with
  | Ev (SelectKey (ByHash h)) (Ok r) => Some (h, r)
  | _ => None
  end.

Lemma row_found_read ev h r : row_found ev = Some (h, r) -> row_read ev = Some r.
Proof. destruct ev as [X [| | | | | | |[|h']| | | | | |] x]; try done. destruct x; [|done]. by intros [= -> ->]. Qed.

Definition rows_read (id : string) (Q : KeyRow -> Prop) (l : list (event DbE)) : Prop :=
  forall ev r, ev ∈ l -> row_read ev = Some r -> key_key_id r = id -> Q r.

Lemma rows_read_app id Q l l' : rows_read id Q l -> rows_read id Q l' -> rows_read id Q (l ++ l').
Proof. intros H1 H2 ev r [?|?]%elem_of_app; eauto. Qed.

Section History.
Context `{P : PgParams}.

(** What a statement of the history may be, after the statements of [past]. *)
Variable ok : list (event DbE) -> forall X : Ans, DbE X -> DbInp -> Prop.

(** From [db] the statements of [l], with their answers, lead to the last database. *)
Inductive history (db : DB) : list (event DbE) -> DB -> Prop :=
| history_start : history db [] db
| history_step l db1 X (e : DbE X) i db2 x :
    history db l db1 -> ok l X e i -> db_handle X e i db1 = Some (db2, x) ->
    history db (l ++ [Ev e x]) db2.
End History.
Arguments history {_} ok db l db'.
Arguments history_step {_ ok db l db1 X e i db2 x}.

Section Ledger.
Context `{P : PgParams}.

(** ** The counter of a key *)

(** What a statement may do to the counter of [id]. *)
Definition uses_step (id : string) (i : DbInp) (ev : event DbE) (db' : DB) (u : Z) : Prop :=
  exists r', keys db' !! id = Some r' /\ 0 <= key_remaining_uses r' /\ negative id ev = false /\
    Z.of_nat (charge id ev) + key_remaining_uses r' <= u /\
    (di_fault i = None -> Z.of_nat (charge id ev) + key_remaining_uses r' = u).

(** The counter of [id] is what it was in [r]. *)
Definition kept (id : string) (r : KeyRow) (db : DB) : Prop :=
  exists r', keys db !! id = Some r' /\ key_remaining_uses r' = key_remaining_uses r.

Lemma kept_refl id r db : keys db !! id = Some r -> kept id r db.
Proof. by exists r. Qed.

Lemma uses_kept id i ev db r :
  kept id r db -> 0 <= key_remaining_uses r ->
  charge id ev = 0%nat -> negative id ev = false -> uses_step id i ev db (key_remaining_uses r).
Proof. intros (r' & Hk & Hr) Hu Hc Hn. exists r'. rewrite Hc, Hr. split_and!; [done..|lia|lia]. Qed.

(** An update of one row keeps the counters it does not write. *)
Lemma kept_put_row id id0 r r0 r1 db :
  keys db !! id = Some r -> keys db !! id0 = Some r0 -> key_remaining_uses r1 = key_remaining_uses r0 ->
  kept id r (put_row id0 r1 db).
Proof.
  intros Hk H0 Hf. unfold kept. cbn. rewrite lookup_insert. case_decide as Hd; [|by exists r].
  subst. simplify_eq. eauto.
Qed.

Lemma kept_faulty {X} id r f (o : DB * res X) db db' x :
  faulty f o db = (db', x) -> keys db !! id = Some r -> kept id r o.1 -> kept id r db'.
Proof.
  intros Hf Hk Ho. apply (f_equal fst) in Hf. cbn in Hf. subst.
  destruct f as [[err [|]]|]; cbn; [done|by apply kept_refl|done].
Qed.

(** The statements other than the charge keep every counter. *)
Lemma statement_keeps X (e : DbE X) i db db' x id r :
  match e with UpdateUses _ _ => False | _ => True end ->
  db_handle X e i db = Some (db', x) -> keys db !! id = Some r -> kept id r db'.
Proof.
  intros He Hh Hk. pose proof (kept_refl id r db Hk) as Hr.
  destruct e; cbn [db_handle] in Hh; try done.
  all: first [injection Hh as Hh; eapply (kept_faulty id r _ _ db); [exact Hh|done|]; clear Hh
    |injection Hh as <- ?; exact Hr].
  all: cbn [fst]; try done.
  - unfold insert_workspace. by destruct (workspaces db !! _).
  - unfold insert_api. destruct (apis db !! _); [done|]. by destruct (workspaces db !! _).
  - unfold insert_key. destruct hash as [h|]; [|done]. destruct (keys db !! key_key_id (r0 h)) eqn:Hf; [done|].
    destruct (hash_taken _ _ _); [done|].
    destruct (apis db !! _); [|done]. destruct (workspaces db !! _); [|done]. exists r. cbn. rewrite lookup_insert_ne; [done|congruence].
  - unfold update_enabled. destruct (keys db !! id0) eqn:H0; [|done]. by eapply kept_put_row.
  - unfold update_hash. destruct (keys db !! id0) eqn:H0; [|done]. destruct hash; [|done].
    destruct (hash_taken _ _ _); [done|]. by eapply kept_put_row.
  - unfold update_last_verified. destruct (keys db !! id0) eqn:H0; [|done]. by eapply kept_put_row.
Qed.

(** The charge itself: at most one use, and only when it answers so. *)
Lemma update_uses_step id i now id0 db db' x r :
  faulty (di_fault i) (update_uses now id0 db) db = (db', x) -> keys db !! id = Some r ->
  0 <= key_remaining_uses r -> uses_step id i (Ev (UpdateUses now id0) x) db' (key_remaining_uses r).
Proof.
  intros Hf Hk Hu. pose proof (kept_refl id r db Hk) as Hr.
  assert (Hskip : forall err, uses_step id i (Ev (UpdateUses now id0) (Err err)) db (key_remaining_uses r)).
  { intros err. apply uses_kept; [done..|done]. }
  unfold update_uses in Hf. destruct (keys db !! id0) as [r0|] eqn:H0.
  2: { destruct (di_fault i) as [[err [|]]|]; by injection Hf as <- <-. }
  destruct (Z.ltb_spec 0 (key_remaining_uses r0)) as [Hpos|].
  2: { destruct (di_fault i) as [[err [|]]|]; by injection Hf as <- <-. }
  destruct (decide (id0 = id)) as [->|Hne].
  - simplify_eq. destruct (di_fault i) as [[err [|]]|] eqn:Hi; injection Hf as <- <-; [|apply Hskip|].
    all: eexists; split_and!; [apply lookup_insert_eq|cbn; lia|done|..].
    all: unfold charge, is_charge; rewrite ?bool_decide_eq_true_2 by done; cbn; intros; try congruence; lia.
  - assert (Hst : db' = db \/ db' = put_row id0 (set_uses (key_remaining_uses r0 - 1) now r0) db).
    { destruct (di_fault i) as [[err [|]]|]; injection Hf as <- _; auto. }
    apply uses_kept; [|done| |done].
    + destruct Hst as [->| ->]; [done|]. exists r. cbn. by rewrite lookup_insert_ne.
    + unfold charge, is_charge. destruct x; [|done]. by rewrite bool_decide_eq_false_2.
Qed.

(** Every statement, failed or not, leaves the counter of [id] not negative and
    takes from it at least what it charges. *)
Lemma statement_uses X (e : DbE X) i db db' x id r :
  db_handle X e i db = Some (db', x) -> keys db !! id = Some r -> 0 <= key_remaining_uses r ->
  uses_step id i (Ev e x) db' (key_remaining_uses r).
Proof.
  intros Hh Hk Hu.
  destruct e; cycle 12; [injection Hh as Hh; by eapply update_uses_step| |..].
  2-13: apply uses_kept; [eapply statement_keeps; [|exact Hh|exact Hk]; exact Logic.I|done..].
  apply uses_kept; [eapply statement_keeps; [|exact Hh|exact Hk]; exact Logic.I|done|done|].
  injection Hh as Hh. apply (f_equal snd) in Hh. cbn in Hh. subst x. cbn. case_bool_decide; [|by destruct (snd _)].
  subst. unfold select_uses. rewrite Hk. destruct (di_fault i) as [[err te]|]; [done|].
  cbn. by destruct (Z.ltb_spec (key_remaining_uses r) 0); [lia|].
Qed.
(** ** What a statement does to the rows *)

(** Every row is stored under its identifier. *)
Record keyed (db : DB) : Prop := {
  keyed_api : forall id a, apis db !! id = Some a -> api_api_id a = id;
  keyed_key : forall id r, keys db !! id = Some r -> key_key_id r = id;
}.

(** A row of a key keeps its identity and its tenant, and is never enabled again. *)
Record evolves (r r' : KeyRow) : Prop := {
  ev_id : key_key_id r' = key_key_id r;
  ev_api : key_api_id r' = key_api_id r;
  ev_workspace : key_workspace_id r' = key_workspace_id r;
  ev_disabled : key_enabled r = false -> key_enabled r' = false;
}.

#[export] Instance evolves_preorder : PreOrder evolves.
Proof. split; [by split|]. intros r1 r2 r3 [] []. split; [congruence..|auto]. Qed.

(** The row of an INSERT into the keys belongs to this API and workspace. *)
Definition inserts {X} (e : DbE X) (r : KeyRow) : Prop :=
  match e with
  | InsertKey (Some h) f => key_api_id r = key_api_id (f h) /\ key_workspace_id r = key_workspace_id (f h)
  | _ => False
  end.

(** The statement writes the hash [h] to the row of [id]. *)
Definition rehashes (id : string) (h : list byte) {X} (e : DbE X) : Prop :=
  match e with
  | UpdateHash (Some h') _ id' => id' = id /\ h' = h
  | _ => False
  end.

Inductive changed {X} (e : DbE X) (db : DB) : DB -> Prop :=
| changed_not : changed e db db
| changed_workspaces ws : changed e db (mkDB ws (apis db) (keys db))
| changed_apis a : apis db !! api_api_id a = None ->
    changed e db (mkDB (workspaces db) (<[api_api_id a := a]> (apis db)) (keys db))
| changed_insert r : keys db !! key_key_id r = None -> inserts e r -> changed e db (put_row (key_key_id r) r db)
| changed_update id r r' : keys db !! id = Some r -> evolves r r' ->
    key_key_hash r' = key_key_hash r \/ rehashes id (key_key_hash r') e -> changed e db (put_row id r' db).

Lemma changed_faulty {X Y} (e : DbE X) f (o : DB * res Y) db db' x :
  faulty f o db = (db', x) -> changed e db o.1 -> changed e db db'.
Proof.
  intros Hf Ho. apply (f_equal fst) in Hf. cbn in Hf. subst.
  destruct f as [[err [|]]|]; cbn; [done|constructor|done].
Qed.

Lemma statement_changed X (e : DbE X) i db db' x : db_handle X e i db = Some (db', x) -> changed e db db'.
Proof.
  intros Hh. destruct e; cbn [db_handle] in Hh.
  all: first [injection Hh as <- ?; constructor
    |injection Hh as Hh; eapply changed_faulty; [exact Hh|]; clear Hh; cbn [fst]; try constructor].
  - unfold insert_workspace. destruct (workspaces db !! _); constructor.
  - unfold insert_api. destruct (apis db !! _) eqn:Ha; [constructor|]. destruct (workspaces db !! _); [|constructor].
    exact (changed_apis _ db (stored_api r) Ha).
  - unfold insert_key. destruct hash as [h|]; [|constructor]. destruct (keys db !! _) eqn:Hk; [constructor|].
    destruct (hash_taken _ _ _); [constructor|]. destruct (apis db !! _); [|constructor]. destruct (workspaces db !! _); [|constructor].
    by apply (changed_insert (InsertKey (Some h) r) db (stored_key (r h)) Hk).
  - unfold update_enabled. destruct (keys db !! id) as [r|] eqn:Hk; [|constructor]. eapply changed_update; [exact Hk|by split|first [by left|by right]].
  - unfold update_hash. destruct (keys db !! id) as [r|] eqn:Hk; [|constructor]. destruct hash as [h|]; [|constructor].
    destruct (hash_taken _ _ _); [constructor|]. eapply changed_update; [exact Hk|by split|first [by left|by right]].
  - unfold update_last_verified. destruct (keys db !! id) as [r|] eqn:Hk; [|constructor]. eapply changed_update; [exact Hk|by split|first [by left|by right]].
  - unfold update_uses. destruct (keys db !! id) as [r|] eqn:Hk; [|constructor].
    destruct (0 <? _); [|constructor]. eapply changed_update; [exact Hk|by split|first [by left|by right]].
Qed.

Lemma changed_row {X} (e : DbE X) db db' id r :
  changed e db db' -> keys db !! id = Some r -> exists r', keys db' !! id = Some r' /\ evolves r r'.
Proof.
  intros [|ws|a Ha|r0 Hn _|id0 r0 r1 H0 Hev Hh] Hk; cbn; [by eexists..| |].
  - exists r. split; [|done]. rewrite lookup_insert_ne; [done|congruence].
  - rewrite lookup_insert. case_decide; simplify_eq; by eexists.
Qed.

Lemma changed_api {X} (e : DbE X) db db' id a :
  changed e db db' -> apis db !! id = Some a -> apis db' !! id = Some a.
Proof. intros [|ws|a' Ha|r0 _ _|id0 r0 r1 _ _ _] Hk; cbn; try done. rewrite lookup_insert_ne; [done|congruence]. Qed.

(** The hash of a row is written only by a rotation of that key. *)
Lemma changed_hash {X} (e : DbE X) db db' id r h :
  changed e db db' -> keys db !! id = Some r -> key_key_hash r <> h -> ~ rehashes id h e ->
  exists r', keys db' !! id = Some r' /\ key_key_hash r' <> h.
Proof.
  intros [|ws|a Ha|r0 Hn _|id0 r0 r1 H0 Hev Hh] Hk Hr He; cbn; [by eexists..| |].
  - exists r. split; [|done]. rewrite lookup_insert_ne; [done|congruence].
  - rewrite lookup_insert. case_decide; [|by eexists]. subst. simplify_eq. eexists. split; [done|].
    intros <-. destruct Hh as [Hh|Hh]; [congruence|done].
Qed.

(** A row that is there now evolved from one that was, or has just been inserted. *)
Lemma changed_row_inv {X} (e : DbE X) db db' id r' :
  changed e db db' -> keys db' !! id = Some r' ->
  (exists r, keys db !! id = Some r /\ evolves r r') \/ inserts e r'.
Proof.
  intros [|ws|a Ha|r0 Hn Hi|id0 r0 r1 H0 Hev Hh]; cbn; [by left; eexists..| |].
  - rewrite lookup_insert. case_decide; [|by left; eexists]. intros [= <-]. by right.
  - rewrite lookup_insert. case_decide; [|by left; eexists]. intros [= <-]. subst. left. by exists r0.
Qed.

Lemma changed_keyed {X} (e : DbE X) db db' : keyed db -> changed e db db' -> keyed db'.
Proof.
  intros [Ha Hk] Hc. destruct Hc as [|ws|a Hn|r0 Hn Hi|id0 r0 r1 H0 Hev Hh]; split; cbn; try done.
  - intros id b. rewrite lookup_insert. case_decide; [congruence|apply Ha].
  - intros id r. rewrite lookup_insert. case_decide; [congruence|apply Hk].
  - intros id r. rewrite lookup_insert. case_decide; [|apply Hk]. intros [= <-]. subst.
    rewrite (ev_id _ _ Hev). by apply Hk.
Qed.

(** A SELECT answers a stored row. *)
Lemma row_read_stored X (e : DbE X) i db db' x r :
  keyed db -> db_handle X e i db = Some (db', x) -> row_read (Ev e x) = Some r ->
  keys db !! key_key_id r = Some r.
Proof.
  intros [_ Hk] Hh Hr. destruct e; try done. cbn in Hh, Hr. destruct x as [r0|]; [|done]. injection Hr as ->.
  injection Hh as Hs%(f_equal snd). destruct (di_fault i) as [[err te]|]; [done|]. cbn in Hs.
  destruct where_ as [id|[h|]]; cbn in Hs; [|destruct (List.find _ _) as [[id r1]|] eqn:Hf|done]; try done.
  - destruct (keys db !! id) as [r1|] eqn:H1; [|done]. injection Hs as ->. by rewrite (Hk _ _ H1).
  - injection Hs as ->. apply List.find_some in Hf as [Hin _].
    apply list_elem_of_In, elem_of_map_to_list in Hin. by rewrite (Hk _ _ Hin).
Qed.

(** A row found by a hash has it. *)
Lemma statement_hash_found X (e : DbE X) i db db' x h r :
  db_handle X e i db = Some (db', x) -> row_found (Ev e x) = Some (h, r) -> h = Some (key_key_hash r).
Proof.
  intros Hs Hev. destruct e as [| | | | | | |w| | | | | |]; try done. destruct w as [|h']; [done|].
  destruct x as [r'|]; [|done]. injection Hev as -> ->. injection Hs as Hs%(f_equal snd).
  destruct (di_fault i) as [[err te]|]; [done|]. destruct h as [h|]; [|done]. cbn in Hs.
  destruct (List.find _ _) as [[id r1]|] eqn:Hf; [|done]. injection Hs as ->.
  apply List.find_some in Hf as [_ Hb%bool_decide_eq_true]. cbn in Hb. by subst.
Qed.

(** ** What holds along a history *)

Section Along.
Context {ok : list (event DbE) -> forall X : Ans, DbE X -> DbInp -> Prop}.

Lemma history_keyed db l db' : history ok db l db' -> keyed db -> keyed db'.
Proof. induction 1 as [|l db1 X e i db2 x Hh IH Ho Hs]; [done|]. intros Hk. eapply changed_keyed; [by apply IH|by eapply statement_changed]. Qed.

Lemma history_row db l db' id r : history ok db l db' -> keys db !! id = Some r ->
  exists r', keys db' !! id = Some r' /\ evolves r r'.
Proof.
  intros Hh Hk. induction Hh as [|l db1 X e i db2 x Hh (r1 & Hk1 & Hev) Ho Hs]; [by eexists|].
  destruct (changed_row e db1 db2 id r1) as (r2 & Hk2 & Hev2); [by eapply statement_changed|done|].
  exists r2. split; [done|]. by etrans.
Qed.

(** The uses charged and the uses left. *)
Definition charged (id : string) (l : list (event DbE)) : nat := sum_list_with (charge id) l.

Record balance (id : string) (u : Z) (l : list (event DbE)) (db : DB) : Prop := {
  bal_row : exists r, keys db !! id = Some r /\ 0 <= key_remaining_uses r /\
    Z.of_nat (charged id l) + key_remaining_uses r <= u /\
    ((forall past X e i, ok past X e i -> di_fault i = None) -> Z.of_nat (charged id l) + key_remaining_uses r = u);
  bal_no_negative : no_negative id l;
}.

Lemma history_balance db l db' id r :
  history ok db l db' -> keys db !! id = Some r -> 0 <= key_remaining_uses r ->
  balance id (key_remaining_uses r) l db'.
Proof.
  intros Hh Hk Hu. induction Hh as [|l db1 X e i db2 x Hh [(r1 & Hk1 & Hu1 & Hle & Heq) Hn] Ho Hs].
  { split; [|by constructor]. exists r. split_and!; [done|done|cbn; lia|cbn; lia]. }
  destruct (statement_uses X e i db1 db2 x id r1 Hs Hk1 Hu1) as (r2 & Hk2 & Hu2 & Hn2 & Hle2 & Heq2).
  split; [|by apply Forall_app; repeat constructor].
  exists r2. unfold charged in *. rewrite sum_list_with_app. cbn [sum_list_with].
  split_and!; [done|done|lia|]. intros Hq. specialize (Heq Hq). specialize (Heq2 (Hq _ _ _ _ Ho)). lia.
Qed.

(** The rows answered for [id] satisfy what the row of [id] satisfies all along. *)
Lemma history_rows_read (Q : KeyRow -> Prop) db l db' id :
  history ok db l db' -> keyed db ->
  (forall l1 db1, history ok db l1 db1 -> exists r, keys db1 !! id = Some r /\ Q r) ->
  rows_read id Q l.
Proof.
  intros Hh Hk HQ. induction Hh as [|l db1 X e i db2 x Hh IH Ho Hs]; [by intros ev r ?%elem_of_nil|].
  apply rows_read_app; [done|]. intros ev r ->%list_elem_of_singleton Hr Hid.
  pose proof (row_read_stored X e i db1 db2 x r (history_keyed _ _ _ Hh Hk) Hs Hr) as Hst.
  destruct (HQ _ _ Hh) as (r1 & Hr1 & Hq). rewrite Hid in Hst. by simplify_eq.
Qed.

(** ** Revocation *)

Definition disabled_row (r : KeyRow) : Prop := key_enabled r = false.

Lemma history_disabled db l db' id r :
  history ok db l db' -> keyed db -> keys db !! id = Some r -> disabled_row r -> rows_read id disabled_row l.
Proof.
  intros Hh Hk Hr Hd. eapply history_rows_read; [done..|]. intros l1 db1 H1.
  destruct (history_row _ _ _ _ _ H1 Hr) as (r1 & Hr1 & Hev). exists r1. split; [done|]. by apply (ev_disabled _ _ Hev).
Qed.

(** The statement of a revocation that was acknowledged. *)
Definition disables (id : string) (ev : event DbE) : bool :=
  match ev with
  | Ev (UpdateEnabled _ id') (Ok _) => bool_decide (id' = id)
  | _ => false
  end.

Lemma statement_disables X (e : DbE X) i db db' x id :
  db_handle X e i db = Some (db', x) -> disables id (Ev e x) = true ->
  exists r, keys db' !! id = Some r /\ disabled_row r.
Proof.
  intros Hh Hd. destruct e; try done. destruct x as [n|]; [|done]. cbn in Hd. apply bool_decide_eq_true in Hd as ->.
  cbn in Hh. injection Hh as Hh. destruct (di_fault i) as [[err te]|]; [done|]. cbn in Hh.
  unfold update_enabled in Hh. destruct (keys db !! id) as [r|]; [|done]. injection Hh as <- _.
  eexists. split; [apply lookup_insert_eq|done].
Qed.

Lemma history_acknowledged db l db' id ev :
  history ok db l db' -> ev ∈ l -> disables id ev = true -> exists r, keys db' !! id = Some r /\ disabled_row r.
Proof.
  intros Hh Hin Hd. induction Hh as [|l db1 X e i db2 x Hh IH Ho Hs]; [by apply elem_of_nil in Hin|].
  apply elem_of_app in Hin as [Hin| ->%list_elem_of_singleton]; [|by eapply statement_disables].
  destruct (IH Hin) as (r & Hr & Hdr). destruct (changed_row e db1 db2 id r) as (r' & Hr' & Hev); [by eapply statement_changed|done|].
  exists r'. split; [done|]. by apply (ev_disabled _ _ Hev).
Qed.
(** ** Rotation *)

(** The statement writes the hash [h] to the row of [id]. *)
Definition rotated_to (id : string) (h : list byte) (ev : event DbE) : Prop :=
  match ev with Ev e _ => rehashes id h e end.

Lemma history_other_hash db l db' id r h :
  history ok db l db' -> keyed db -> keys db !! id = Some r -> key_key_hash r <> h ->
  Forall (fun ev => ~ rotated_to id h ev) l ->
  (exists r', keys db' !! id = Some r' /\ key_key_hash r' <> h) /\ rows_read id (fun r => key_key_hash r <> h) l.
Proof.
  intros Hh Hk Hr Hne. induction Hh as [|l db1 X e i db2 x Hh IH Ho Hs]; intros Hl.
  { split; [by exists r|by intros ev r' ?%elem_of_nil]. }
  apply Forall_app in Hl as [Hl He%Forall_inv]. destruct (IH Hl) as [(r1 & Hr1 & Hne1) Hrows]. split.
  - eapply changed_hash; [by eapply statement_changed|done..].
  - apply rows_read_app; [done|]. intros ev r' ->%list_elem_of_singleton Hev Hid.
    pose proof (row_read_stored X e i db1 db2 x r' (history_keyed _ _ _ Hh Hk) Hs Hev) as Hst.
    rewrite Hid in Hst. by simplify_eq.
Qed.

Lemma history_hash_found db l db' ev h r :
  history ok db l db' -> ev ∈ l -> row_found ev = Some (h, r) -> h = Some (key_key_hash r).
Proof.
  intros Hh Hin. induction Hh as [|l db1 X e i db2 x Hh IH Ho Hs]; [by apply elem_of_nil in Hin|].
  apply elem_of_app in Hin as [Hin| ->%list_elem_of_singleton]; [by apply IH|]. by eapply statement_hash_found.
Qed.

(** ** Tenancy *)

Definition api_row_read (ev : event DbE) : option ApiRow :=
  match ev with
  | Ev (SelectAPI _) (Ok a) => Some a
  | _ => None
  end.

(** A key is inserted for an API that was read, in the workspace of that API. *)
Definition justified_insert (past : list (event DbE)) (X : Ans) (e : DbE X) : Prop :=
  match e with
  | InsertKey _ f => forall h, exists ev a, ev ∈ past /\ api_row_read ev = Some a /\
      key_api_id (f h) = api_api_id a /\ key_workspace_id (f h) = api_workspace_id a
  | _ => True
  end.

(** The key's API is stored, in the key's workspace. *)
Definition at_home (db : DB) (r : KeyRow) : Prop :=
  exists a, apis db !! key_api_id r = Some a /\ api_workspace_id a = key_workspace_id r.

Record tenancy (l : list (event DbE)) (db : DB) : Prop := {
  tn_rows : forall id r, keys db !! id = Some r -> at_home db r;
  tn_apis : forall ev a, ev ∈ l -> api_row_read ev = Some a -> apis db !! api_api_id a = Some a;
}.

Lemma api_row_read_stored X (e : DbE X) i db db' x a :
  keyed db -> db_handle X e i db = Some (db', x) -> api_row_read (Ev e x) = Some a ->
  apis db' !! api_api_id a = Some a.
Proof.
  intros [Ha _] Hh Hr. destruct e; try done. cbn in Hh, Hr. destruct x as [a0|]; [|done]. injection Hr as ->.
  injection Hh as Hh. pose proof (f_equal fst Hh) as Hdb. cbn in Hdb. apply (f_equal snd) in Hh.
  destruct (di_fault i) as [[err te]|]; [done|]. cbn in Hh, Hdb. subst db'.
  destruct (apis db !! id) as [a1|] eqn:H1; [|done]. injection Hh as ->. by rewrite (Ha _ _ H1).
Qed.

Lemma changed_at_home {X} (e : DbE X) db db' r : changed e db db' -> at_home db r -> at_home db' r.
Proof. intros Hc (a & Ha & Hw). exists a. split; [by eapply changed_api|done]. Qed.

Lemma evolves_at_home db r r' : evolves r r' -> at_home db r -> at_home db r'.
Proof. intros [_ Ha Hw _] (a & ? & ?). exists a. by rewrite Ha, Hw. Qed.

Lemma history_tenancy db l db' :
  (forall past X e i, ok past X e i -> justified_insert past X e) -> history ok db l db' -> keyed db ->
  (forall id r, keys db !! id = Some r -> at_home db r) -> tenancy l db'.
Proof.
  intros Hok Hh Hk Hdb. induction Hh as [|l db1 X e i db2 x Hh [Hr Ha] Ho Hs].
  { split; [done|by intros ev a ?%elem_of_nil]. }
  pose proof (history_keyed _ _ _ Hh Hk) as Hk1. pose proof (statement_changed _ _ _ _ _ _ Hs) as Hc. split.
  - intros id r' Hr'. destruct (changed_row_inv _ _ _ _ _ Hc Hr') as [(r & Hr0 & Hev)|Hi].
    + eapply evolves_at_home; [done|]. eapply changed_at_home; [done|by eapply Hr].
    + specialize (Hok _ _ _ _ Ho). destruct e; try done. destruct hash as [h|]; [|done]. cbn in Hi.
      destruct (Hok h) as (ev & a & Hin & Hev & Hai & Hws). destruct Hi as [Hi1 Hi2].
      exists a. rewrite Hi1, Hi2, Hai, Hws. split; [|done]. eapply changed_api; [done|by eapply Ha].
  - intros ev a [Hin| ->%list_elem_of_singleton]%elem_of_app Hev; [|by eapply api_row_read_stored].
    eapply changed_api; [done|by eapply Ha].
Qed.
End Along.

(** ** What the methods do *)

(** Only one method charges: by one statement that succeeds, or not at all. *)
Lemma decrement_exact id id' :
  wp (DecrementRemainingUses id') (fun l a => no_negative id l ->
    charged id l = if reports_charge id (DecrementRemainingUsesE id') a then 1%nat else 0%nat).
Proof.
  unfold DecrementRemainingUses, trigger, mbind, prog_bind. cbn [bind wp]. intros now [n|err]; cbn.
  - intros _. unfold charged, charge. cbn. rewrite andb_true_r. by case_bool_decide.
  - destruct (negb _); cbn; [by rewrite andb_false_r|]. intros [n|err2]; cbn.
    2: { by destruct (errors_is _ _); cbn; rewrite andb_false_r. }
    destruct (n <? 0) eqn:Hneg; cbn; [|by rewrite andb_false_r]. intros Hl. apply Forall_inv_tail, Forall_inv_tail, Forall_inv in Hl.
    cbn in Hl. rewrite Hneg, andb_true_r in Hl. by rewrite Hl.
Qed.

Lemma method_exact id X (e : StoreE X) :
  wp (method X e) (fun l x => no_negative id l -> charged id l = if reports_charge id e x then 1%nat else 0%nat).
Proof.
  destruct e; [..|apply decrement_exact].
  all: cbv [method CreateWorkspace GetWorkspace CreateAPI GetAPI CreateKey GetKeyByID GetKeyByHash
    queryKey RevokeKey RotateKey ListKeys TouchLastVerified newID mbind prog_bind trigger];
    repeat first [progress cbn [bind wp] | match goal with
    | |- wp ?p _ => match p with context [match ?x with _ => _ end] => destruct x end
    | |- forall _, _ => intros ?
    end]; reflexivity.
Qed.

(** What a decoded row keeps of its columns. *)
Lemma scan_key_columns r k : scan_key r = Ok k ->
  Key_KeyID k = key_key_id r /\ Key_APIID k = key_api_id r /\ Key_WorkspaceID k = key_workspace_id r /\
  Key_RemainingUses k = key_remaining_uses r /\ Key_Enabled k = key_enabled r.
Proof. unfold scan_key. destruct (unmarshal_refs _); [|done]. by intros [= <-]. Qed.

(** A key that a lookup answers is a row that was found by the hash. *)
Lemma GetKeyByHash_found h :
  wp (GetKeyByHash h) (fun l x => forall k, x = Ok k -> exists ev r,
    ev ∈ l /\ row_found ev = Some (h, r) /\ scan_key r = Ok k).
Proof.
  cbn. intros [r|err] k; [|by destruct (errors_is _ _)]. intros Hk. eexists _, r. by split; [left|].
Qed.

Lemma GetAPI_read id :
  wp (GetAPI id) (fun l x => forall a, x = Ok a -> exists ev r, ev ∈ l /\ api_row_read ev = Some r /\
    API_APIID a = api_api_id r /\ API_WorkspaceID a = api_workspace_id r).
Proof.
  cbn. intros [r|err] k; [|by destruct (errors_is _ _)]. intros [= <-]. eexists _, r. by split; [left|].
Qed.

Lemma RevokeKey_disables id :
  wp (RevokeKey id) (fun l x => is_Ok x = true -> exists ev, ev ∈ l /\ disables id ev = true).
Proof.
  cbn. intros now [n|err]; cbn; [|by destruct (errors_is _ _)]. intros _.
  eexists. split; [right; left|]. by cbn; rewrite bool_decide_eq_true_2.
Qed.

(** Only [CreateKey] inserts a key, with the API and the workspace it was given. *)
Lemma method_inserts X (e : StoreE X) past :
  match e with
  | CreateKeyE k => exists ev a, ev ∈ past /\ api_row_read ev = Some a /\
      Key_APIID k = api_api_id a /\ Key_WorkspaceID k = api_workspace_id a
  | _ => True
  end -> emits justified_insert past (method X e).
Proof.
  destruct e; cbv [method CreateWorkspace GetWorkspace CreateAPI GetAPI CreateKey GetKeyByID GetKeyByHash
    queryKey RevokeKey RotateKey ListKeys TouchLastVerified DecrementRemainingUses newID]; intros Hj; emits_walk idtac; try exact Logic.I.
  intros h. destruct Hj as (ev & a & Hin & Ha & Hi & Hw). exists ev, a. split; [|done].
  do 2 (apply elem_of_app; left). done.
Qed.

(** The longest methods are three statements. *)
Definition method_events : nat := 3.

Lemma method_bounded X (e : StoreE X) : bounded method_events (method X e).
Proof.
  destruct e; cbv [method_events method CreateWorkspace GetWorkspace CreateAPI GetAPI CreateKey GetKeyByID GetKeyByHash
    queryKey RevokeKey RotateKey ListKeys TouchLastVerified DecrementRemainingUses newID mbind prog_bind trigger];
    repeat (cbn [bind bounded]; match goal with
    | |- True => exact Logic.I
    | |- forall _, _ => intros ?
    | |- bounded _ ?p => match p with context [match ?x with _ => _ end] => destruct x end
    end).
Qed.

(** ** Histories of pools *)

(** A pool with the statements and other events [E], seen by the database. *)
Section Pools.
Context {E : Sig} {I A : Type}.
Variable h : forall X : Ans, sumE E DbE X -> I -> DB -> option (DB * X).
Variable db_input : I -> DbInp.
Hypothesis own_same : forall X (e : E X) i db db' x, h X (inlE e) i db = Some (db', x) -> db' = db.
Hypothesis statement_same : forall X (d : DbE X) i db, h X (inrE d) i db = db_handle X d (db_input i) db.

Definition db_event (ev : event (sumE E DbE)) : option (event DbE) :=
  match ev with
  | Ev (inlE _) _ => None
  | Ev (inrE d) x => Some (Ev d x)
  end.

(** The statements of a log. *)
Definition db_log (l : list (event (sumE E DbE))) : list (event DbE) := omap db_event l.

Lemma db_log_app l l' : db_log (l ++ l') = db_log l ++ db_log l'.
Proof. apply omap_app. Qed.

Lemma db_log_elem l ev : ev ∈ db_log l -> exists ev', ev' ∈ l /\ db_event ev' = Some ev.
Proof. unfold db_log. by rewrite list_elem_of_omap. Qed.

Lemma db_log_rename (l : list (event DbE)) : db_log (map (rename (fun X : Ans => @inrE E DbE X)) l) = l.
Proof. induction l as [|[X e x] l IH]; cbn; [done|]. by f_equal. Qed.

Abbreviation statements_of c := (db_log (snd <$> log c)).

Lemma schedule_history (ok : list (event DbE) -> forall X : Ans, DbE X -> DbInp -> Prop) sched (ps : list (prog (sumE E DbE) A)) db c :
  (forall pre t i post cm X (d : DbE X) k, sched = pre ++ (t, i) :: post ->
    run_schedule h pre (start ps db) = Some cm -> pool cm !! t = Some (Vis (inrE d) k) ->
    ok (statements_of cm) X d (db_input i)) ->
  run_schedule h sched (start ps db) = Some c -> history ok db (statements_of c) (world c).
Proof.
  intros Hok. apply (run_schedule_ind h
    (fun cm ti => forall X (d : DbE X) k, pool cm !! ti.1 = Some (Vis (inrE d) k) -> ok (statements_of cm) X d (db_input ti.2))
    (fun cm => history ok db (statements_of cm) (world cm))); [| |constructor].
  - intros c1 [t i] c2 Hh Ho (X & e & k & db2 & x & Hp & Hs & ->)%cstep_inv. cbn [fst snd world log] in *.
    rewrite fmap_app, db_log_app. destruct e as [e|d].
    + apply own_same in Hs as ->. cbn. by rewrite app_nil_r.
    + rewrite statement_same in Hs. eapply history_step; [done|by eapply Ho|done].
  - intros pre [t i] post cm Hs Hr X d k Hp. by eapply Hok.
Qed.

(** A sum over the statements is the sum over the threads. *)
Lemma db_log_threads (w : event DbE -> nat) n (l : list (nat * event (sumE E DbE))) :
  Forall (fun te => (te.1 < n)%nat) l ->
  sum_list_with w (db_log (snd <$> l)) =
  sum_list_with (fun t => sum_list_with w (db_log (thread_log t l))) (seq 0 n).
Proof.
  set (v := fun ev : event (sumE E DbE) => match db_event ev with Some ev => w ev | None => 0%nat end).
  assert (Hv : forall l, sum_list_with w (db_log l) = sum_list_with v l).
  { clear. intros l. induction l as [|ev l IH]; [done|]. cbn. unfold v at 1.
    rewrite <- IH. by destruct (db_event ev). }
  intros Hl. rewrite Hv, (thread_sum v n) by done. apply sum_list_with_ext. intros t. by rewrite Hv.
Qed.

Lemma db_log_thread t (l : list (nat * event (sumE E DbE))) ev :
  ev ∈ db_log (thread_log t l) -> ev ∈ db_log (snd <$> l).
Proof.
  intros (ev' & Hin & He)%db_log_elem. apply thread_log_elem in Hin. unfold db_log.
  apply list_elem_of_omap. exists ev'. split; [|done]. apply list_elem_of_fmap. by exists (t, ev').
Qed.
End Pools.
End Ledger.
