(* ===== verification/Concurrency.v ===== *)
(** * Concurrency: what holds however requests interleave

    The theorems about pools of requests, over any driver that keeps the promise
    of the interface, with the in-process driver as the witness. *)

From S2P Require Import Prelude Effects GoSort Store StoreSpec StoreFacts Keymat Apikeyv1 Memory MemoryProps Server ServerLogic Rpc ServerCalls Interleaving Lifecycle Demo.
Import keychainserver.

Section Theorems.
Context {Timestamp : Type} `{TimestampPb Timestamp}.
Context {S I : Type} {impl : StoreImpl S I} {St RL Lg : Type}.

(** A schedule of the requests [reqs] over the driver's state [st], ending in [c]. *)
Record reaches (s : Server St RL Lg) (reqs : list (Request Timestamp)) (st : S)
    (sched : list (nat * SrvInp I RL)) (c : config (SrvE St RL) S (Response Timestamp)) : Prop := {
  re_inv : st_inv st;
  re_wf : a_wf (st_abs st);
  re_reqs : Forall request_ok reqs;
  re_inputs : sched_ok sched (serve_all s reqs st);
  re_run : run_schedule srv_handle sched (serve_all s reqs st) = Some c;
}.

Lemma reaches_ledger s reqs st sched c id k :
  reaches s reqs st sched c -> a_keys (st_abs st) !! id = Some k -> counted k ->
  ledger id (Key_RemainingUses k) c.
Proof.
  intros [Hi Hwf Hreqs Hok Hrun] Hk Hu.
  eapply (pool_invariant (ledger id (Key_RemainingUses k))); [by apply (serve_all_ok s)| |done| |done].
  - split; [done| |by intros ev k' ?%elem_of_nil]. exists k. split_and!; [done|done|simpl; lia|simpl; lia].
  - intros *. intros Hl _ Hp Hc _. by apply ledger_step.
Qed.

Lemma reaches_tenants s reqs st sched c :
  reaches s reqs st sched c -> isolated (st_abs st) -> tenants_apart s c.
Proof.
  intros [Hi Hwf Hreqs Hok Hrun] Hiso.
  eapply (pool_invariant (tenants_apart s)); [by apply (serve_all_ok s)| |done| |done].
  - split; simpl; [done|done|by intros ev a ?%elem_of_nil|].
    intros t p. rewrite list_lookup_fmap. destruct (reqs !! t) as [r|]; intros [= <-].
    apply justified_serve.
  - intros *. intros Ht _ Hp Hc _. by apply tenants_step.
Qed.

Lemma reaches_ok s reqs st sched c : reaches s reqs st sched c -> pool_ok c.
Proof.
  intros [Hi Hwf Hreqs Hok Hrun].
  by eapply (pool_invariant (fun _ => True)); [by apply (serve_all_ok s)|..].
Qed.

(** The rest of a longer schedule, from the configuration in the middle. *)
Lemma reaches_suffix s reqs st pre mid post c :
  reaches s reqs st pre mid -> reaches s reqs st (pre ++ post) c ->
  sched_ok post mid /\ run_schedule srv_handle post mid = Some c.
Proof.
  intros [_ _ _ _ Hrun] [_ _ _ Hok Hrun2]. split; [by eapply sched_ok_app|].
  by rewrite run_schedule_app, Hrun in Hrun2.
Qed.

Lemma reaches_revoked s reqs st pre mid t q ack :
  reaches s reqs st pre mid -> reqs !! t = Some (RqRevokeKey q) ->
  pool mid !! t = Some (Ret (RsRevokeKey (Ok ack))) ->
  pool_ok mid /\ a_wf (st_abs (world mid)) /\
  stored_disabled (apikeyv1.RevokeKeyRequest_GetKeyId q) (st_abs (world mid)).
Proof.
  intros [Hi Hwf Hreqs Hok Hrun] Ht Hack. set (id := apikeyv1.RevokeKeyRequest_GetKeyId q).
  assert (Hinv : pool_ok mid /\ a_wf (st_abs (world mid)) /\ revocations_hold id mid).
  { eapply (pool_invariant (fun c => a_wf (st_abs (world c)) /\ revocations_hold id c));
      [by apply (serve_all_ok s)| |done| |done].
    - split; [done|]. by intros (ev & ?%elem_of_nil & _).
    - intros c1 t1 X e k s' x [Hw Hr] _ _ Hc _. split; [|by apply revocations_step].
      eapply change_wf; [done|]. by eapply srv_contract_change. }
  destruct Hinv as (Hp & Hwf' & Hrev). split_and!; [done|done|]. apply Hrev.
  destruct (reached_answer s _ _ _ _ Hrun t _ _ (revoke_acknowledged s) Hack) as (r & Hr & Hq).
  rewrite Ht in Hr. injection Hr as <-. destruct Hq as (ev & Hin & Hev). exists ev.
  split; [|done]. apply thread_log_elem in Hin. apply list_elem_of_fmap. by exists (t, ev).
Qed.

Lemma revoked_lookups id post (mid c : config (SrvE St RL) S (Response Timestamp)) :
  pool_ok mid -> a_wf (st_abs (world mid)) -> stored_disabled id (st_abs (world mid)) ->
  sched_ok post mid -> run_schedule srv_handle post mid = Some c ->
  exists extra, log c = log mid ++ extra /\ lookups id disabled (snd <$> extra).
Proof.
  intros Hp Hwf Hd Hok Hrun.
  destruct (pool_invariant (revoked_since id (log mid)) post mid c Hp) as [_ [_ _ Hx]]; [|done| |done|done].
  - split; [done|done|]. exists []. rewrite app_nil_r. split; [done|]. by intros ev k ?%elem_of_nil.
  - intros *. intros Hr _ _ Hc _. by apply revoked_step.
Qed.

(** A request that has performed no call yet is still to be served. *)
Lemma reaches_idle s reqs st pre mid u r :
  reaches s reqs st pre mid -> reqs !! u = Some r -> thread_log u (log mid) = [] ->
  pool mid !! u = Some (serve s r).
Proof.
  intros [_ _ _ _ Hrun] Hu Hidle.
  destruct (run_schedule_follows _ _ _ _ _ u (serve s r) Hrun) as (p & Hp & Hf).
  - by rewrite list_lookup_fmap, Hu.
  - rewrite Hidle in Hf. rewrite Hp. f_equal. symmetry. by apply follows_nil_inv.
Qed.

(** A late request answers on its own log, which is part of the later events. *)
Lemma late_answer (s : Server St RL Lg) (r : Request Timestamp) post mid c id u a extra Q :
  run_schedule srv_handle post mid = Some c -> log c = log mid ++ extra ->
  pool mid !! u = Some (serve s r) -> pool c !! u = Some (Ret a) ->
  wp (serve s r) (fun l a => lookups id Q l -> valid_for id a = false) ->
  lookups id Q (snd <$> extra) -> valid_for (Timestamp := Timestamp) id a = false.
Proof.
  intros Hrun Hlog Hu Ha Hwp Hl. destruct mid as [ps w lg].
  destruct (run_schedule_past _ _ _ _ _ _ Hrun) as (c' & Hrun' & Hpc & _ & Hlog').
  cbn [log pool] in *. rewrite Hlog' in Hlog. apply app_inv_head in Hlog as Hx. subst extra.
  destruct (run_schedule_follows _ _ _ _ _ u _ Hrun' Hu) as (p & Hp & Hf).
  rewrite <- Hpc, Ha in Hp. injection Hp as <-.
  apply (wp_follows _ _ _ _ Hwp Hf). by apply lookups_thread.
Qed.

(** C1. A key is never oversold.  Whatever requests run concurrently and however
    their store calls interleave, the VALID answers given for a key with counted
    uses and the uses it has left never exceed the uses it had. *)
Theorem uses_never_oversold s reqs st sched c id k :
  reaches s reqs st sched c -> a_keys (st_abs st) !! id = Some k -> 0 <= Key_RemainingUses k ->
  exists k', a_keys (st_abs (world c)) !! id = Some k' /\ 0 <= Key_RemainingUses k' /\
    Z.of_nat (valid_answers id c) + Key_RemainingUses k' <= Key_RemainingUses k.
Proof.
  intros Hr Hk Hu. destruct (reaches_ledger _ _ _ _ _ _ _ Hr Hk Hu) as [_ (k' & ? & ? & Hle & _) Hl].
  exists k'. split_and!; [done|done|].
  pose proof (valid_answers_le s _ _ _ _ (re_run _ _ _ _ _ Hr) id Hl). lia.
Qed.

(** C2. No use is lost either.  Over a driver without faults, once every request
    is answered, the uses a key had are exactly its VALID answers and the uses it
    has left. *)
Theorem uses_conserved s reqs st sched c id k :
  reaches s reqs st sched c -> a_keys (st_abs st) !! id = Some k -> 0 <= Key_RemainingUses k ->
  ~ st_faults -> all_answered c ->
  exists k', a_keys (st_abs (world c)) !! id = Some k' /\
    Z.of_nat (valid_answers id c) + Key_RemainingUses k' = Key_RemainingUses k.
Proof.
  intros Hr Hk Hu Hnf Ha. destruct (reaches_ledger _ _ _ _ _ _ _ Hr Hk Hu) as [_ (k' & ? & ? & _ & Heq) Hl].
  exists k'. split; [done|]. rewrite (valid_answers_eq s _ _ _ _ (re_run _ _ _ _ _ Hr) id Hl Ha). auto.
Qed.

(** C3. A revocation is final.  Once a [RevokeKey] request has been answered with
    success, a request that had not yet performed any call at that moment never
    ends with a VALID answer for the key, whatever runs concurrently. *)
Theorem revocation_is_final s reqs st pre mid post c t u q r ack a :
  reaches s reqs st pre mid -> reaches s reqs st (pre ++ post) c ->
  reqs !! t = Some (RqRevokeKey q) -> pool mid !! t = Some (Ret (RsRevokeKey (Ok ack))) ->
  reqs !! u = Some r -> thread_log u (log mid) = [] -> pool c !! u = Some (Ret a) ->
  valid_for (apikeyv1.RevokeKeyRequest_GetKeyId q) a = false.
Proof.
  intros Hmid Hc Ht Hack Hu Hidle Ha.
  pose proof (reaches_suffix _ _ _ _ _ _ _ Hmid Hc) as [Hok Hrun].
  destruct (reaches_revoked _ _ _ _ _ _ _ _ Hmid Ht Hack) as (Hpool & Hwf & Hd).
  destruct (revoked_lookups _ _ _ _ Hpool Hwf Hd Hok Hrun) as (extra & Hlog & Hl).
  eapply (late_answer s r); [exact Hrun|exact Hlog|by eapply reaches_idle|exact Ha| |exact Hl].
  apply serve_enabled.
Qed.

(** The state before a schedule's next steps. *)
Lemma reaches_prefix s reqs st pre post mid c :
  reaches s reqs st (pre ++ post) c -> run_schedule srv_handle pre (serve_all s reqs st) = Some mid ->
  reaches s reqs st pre mid.
Proof. intros [Hi Hwf Hreqs Hok Hrun] Hmid. split; [done..| |done]. by eapply sched_ok_prefix. Qed.

Lemma reaches_wf s reqs st sched c : reaches s reqs st sched c -> a_wf (st_abs (world c)).
Proof.
  intros [Hi Hwf Hreqs Hok Hrun].
  eapply (pool_invariant (fun c => a_wf (st_abs (world c)))); [by apply (serve_all_ok s)|done|done| |done].
  intros *. intros Hw _ _ Hc _. eapply change_wf; [done|]. by eapply srv_contract_change.
Qed.

(** A key that is stored at some moment is stored from then on. *)
Lemma reaches_stored k post (mid c : config (SrvE St RL) S (Response Timestamp)) :
  pool_ok mid -> stored_as k (st_abs (world mid)) -> sched_ok post mid ->
  run_schedule srv_handle post mid = Some c -> stored_as k (st_abs (world c)).
Proof.
  intros Hp Hk Hok Hrun.
  eapply (pool_invariant (fun c => stored_as k (st_abs (world c)))); [exact Hp|exact Hk|exact Hok| |exact Hrun].
  intros *. intros Hs _ _ Hc _. eapply change_stored; [done|]. by eapply srv_contract_change.
Qed.

(** A lookup by hash that was answered: at some moment of the run the key was stored
    with that hash, and it is stored at the end. *)
Lemma reaches_lookup s reqs st sched c t q k :
  reaches s reqs st sched c -> (t, lookup_of s q k) ∈ log c ->
  (exists pre post mid k0, sched = pre ++ post /\ reaches s reqs st pre mid /\
    a_keys (st_abs (world mid)) !! Key_KeyID k = Some k0 /\
    same_hash (Some (keymat.Hash (apikeyv1.VerifyKeyRequest_GetPlaintext q))) k0) /\
  stored_as k (st_abs (world c)).
Proof.
  intros Hr Hin. destruct (run_schedule_moment _ _ _ _ _ _ (re_run _ _ _ _ _ Hr) Hin)
    as [?%elem_of_nil|(pre & i & post & mid & X & e & x & kk & s' & Hs & Hev & Hpre & Hp & Hh & Hpost)]; [done|].
  subst sched. pose proof (eq_refl : looked_up_by (lookup_of s q k) = Some (_, k)) as Hl. rewrite Hev in Hl.
  assert (Hmid : reaches s reqs st pre mid) by by eapply reaches_prefix.
  pose proof (reaches_ok _ _ _ _ _ Hmid) as [Hi Hc]. pose proof (reaches_wf _ _ _ _ _ Hmid) as Hwf.
  pose proof (sched_ok_split _ _ _ _ _ (re_inputs _ _ _ _ _ Hr) Hpre) as Ho.
  destruct (srv_handle_refines _ _ i _ Hi Ho (proj1 (Hc _ _ Hp))) as (s2 & x2 & Hh2 & _ & Hctr).
  rewrite Hh in Hh2. injection Hh2 as <- <-. pose proof Hctr as Hch%srv_contract_change.
  destruct (looked_up_hash _ _ _ _ _ _ _ Hwf Hctr Hl) as [Hk0 Hs0].
  split; [by exists pre, ((t, i) :: post), mid, (norm_key st_nt k)|].
  assert (Hst : stored_as k (st_abs (world mid))) by by exists (norm_key st_nt k).
  destruct (reaches_suffix _ _ _ _ _ _ _ Hmid Hr) as [Hok Hrun].
  by eapply reaches_stored.
Qed.

(** C4. Tenants stay apart.  From a store where every key belongs to the workspace
    of its API, every interleaving keeps it so, and an answer of [VerifyKey] that
    names a key answers a request whose plaintext had the hash of that key at some
    moment of the run, the key is stored under the identifier named, and the API and
    the workspace named are those of the key, the API being in that workspace. *)
Theorem tenants_isolated s reqs st sched c :
  reaches s reqs st sched c -> isolated (st_abs st) ->
  isolated (st_abs (world c)) /\
  forall t v, pool c !! t = Some (Ret (RsVerifyKey (Ok v))) ->
    exists q, reqs !! t = Some (RqVerifyKey q) /\
    (v = notFound \/
     (exists pre post mid k0, sched = pre ++ post /\ reaches s reqs st pre mid /\
       a_keys (st_abs (world mid)) !! apikeyv1.VerifyKeyResponse_KeyId v = Some k0 /\
       same_hash (Some (keymat.Hash (apikeyv1.VerifyKeyRequest_GetPlaintext q))) k0) /\
     exists k a, a_keys (st_abs (world c)) !! apikeyv1.VerifyKeyResponse_KeyId v = Some k /\
       apikeyv1.VerifyKeyResponse_ApiId v = Key_APIID k /\
       apikeyv1.VerifyKeyResponse_WorkspaceId v = Key_WorkspaceID k /\
       a_apis (st_abs (world c)) !! Key_APIID k = Some a /\ API_WorkspaceID a = Key_WorkspaceID k).
Proof.
  intros Hr Hiso. pose proof (reaches_tenants _ _ _ _ _ Hr Hiso) as [_ Hiso' _ _].
  split; [done|]. intros t v Hv.
  destruct (reached_answer s _ _ _ _ (re_run _ _ _ _ _ Hr) t _ _ (serve_names s) Hv)
    as (r & Hreq & q & -> & [->|(k & Hin & Hid & Hapi & Hws)]); exists q; (split; [done|]); [by left|right].
  apply thread_log_elem in Hin. destruct (reaches_lookup _ _ _ _ _ _ _ _ Hr Hin) as [Hhash (k' & Hk' & Ha & Hw)].
  rewrite Hid, Hapi, Hws, <- Ha, <- Hw. split; [exact Hhash|].
  destruct (iso_key _ Hiso' _ _ Hk') as (a & ? & ?). by exists k', a.
Qed.

(** C5. Every request is answered.  A schedule takes at most six steps per request,
    and in every configuration reached each unanswered request can take its next
    step: no request waits for another and no handler panics. *)
Theorem requests_answered s reqs st sched c :
  reaches s reqs st sched c ->
  (length sched <= max_events * length reqs)%nat /\
  forall t p i, pool c !! t = Some p -> st_ok (si_store i) (world c) ->
    (exists a, p = Ret a) \/ is_Some (cstep srv_handle c (t, i)).
Proof.
  intros Hr. pose proof Hr as [_ _ _ _ Hrun]. split; [by eapply reached_bound|].
  intros t p i Hp Ho. destruct p as [a|X e k]; [left; by exists a|right].
  eapply pool_progress; [|done|done]. by eapply reaches_ok.
Qed.
End Theorems.

(** ** Witnesses: concurrent requests over the in-process driver *)

Lemma demo_reaches limiter reqs m sched :
  inv m -> Forall request_ok reqs -> demo_check limiter reqs m sched = true ->
  reaches (demo_server limiter) reqs m sched (demo_run limiter reqs m sched).
Proof.
  unfold demo_check, demo_run. intros Hi Hr [Hs Hrun]%andb_true_iff. split.
  - done.
  - by apply memory_wf.
  - done.
  - by apply sched_check_ok.
  - destruct (run_schedule _ _ _); [done|discriminate].
Qed.

Abbreviation race_end uses := (demo_run None race (demo_store None uses None) race_schedule).

Lemma race_reaches uses : int64_range uses -> demo_check None race (demo_store None uses None) race_schedule = true ->
  reaches (demo_server None) race (demo_store None uses None) race_schedule (race_end uses).
Proof. intros Hu Hc. apply demo_reaches; [by apply demo_store_inv|by repeat constructor|exact Hc]. Qed.

Lemma uses_never_oversold_witness :
  valid_answers "key_3" (race_end 1) = 1%nat /\
  exists k', a_keys (st_abs (world (race_end 1))) !! "key_3" = Some k' /\ 0 <= Key_RemainingUses k' /\
    Z.of_nat (valid_answers "key_3" (race_end 1)) + Key_RemainingUses k' <=
      Key_RemainingUses (demo_stored None 1 None).
Proof.
  split; [vm_compute; reflexivity|].
  refine (uses_never_oversold (demo_server None) race (demo_store None 1 None) race_schedule (race_end 1)
    "key_3" (demo_stored None 1 None) (race_reaches 1 _ _) _ _); [done|vm_compute; reflexivity..|done].
Defined.

Lemma uses_conserved_witness :
  exists k', a_keys (st_abs (world (race_end 1))) !! "key_3" = Some k' /\
    Z.of_nat (valid_answers "key_3" (race_end 1)) + Key_RemainingUses k' =
      Key_RemainingUses (demo_stored None 1 None).
Proof.
  refine (uses_conserved (demo_server None) race (demo_store None 1 None) race_schedule (race_end 1)
    "key_3" (demo_stored None 1 None) (race_reaches 1 _ _) _ _ _ _);
    [done|vm_compute; reflexivity..|done|by intros []|].
  intros [|[|t]] p Hp; vm_compute in Hp; [injection Hp as <-; eauto..|discriminate].
Defined.

Abbreviation revoke_end n :=
  (demo_run None revoke_then_verify (demo_store None 1 None) (schedule allow (take n [0; 1])))%nat.

Lemma revoke_reaches n :
  demo_check None revoke_then_verify (demo_store None 1 None) (schedule allow (take n [0; 1]%nat)) = true ->
  reaches (demo_server None) revoke_then_verify (demo_store None 1 None)
    (schedule allow (take n [0; 1]%nat)) (revoke_end n).
Proof. intros Hc. apply demo_reaches; [by apply demo_store_inv|by repeat constructor|exact Hc]. Qed.

Lemma revocation_is_final_witness :
  valid_for "key_3" (RsVerifyKey (Timestamp := Z)
    (Ok (verdict (demo_stored None 1 None) None false apikeyv1.VERIFY_RESULT_REVOKED))) = false.
Proof.
  refine (revocation_is_final (demo_server None) revoke_then_verify (demo_store None 1 None)
    (schedule allow [0]%nat) (revoke_end 1) (drop 1 (schedule allow [0; 1]%nat)) (revoke_end 2) 0 1
    (Some (apikeyv1.mkRevokeKeyRequest "key_3")) (RqVerifyKey (demo_verify "sk_one"))
    apikeyv1.mkRevokeKeyResponse _ (revoke_reaches 1 _) (revoke_reaches 2 _) _ _ _ _ _);
    vm_compute; reflexivity.
Defined.

(** Deciding [isolated] on a concrete store. *)
Lemma isolated_eval A :
  bool_decide (map_Forall (fun _ a => is_Some (a_workspaces A !! API_WorkspaceID a)) (a_apis A)) &&
  bool_decide (map_Forall (fun _ k => API_WorkspaceID <$> a_apis A !! Key_APIID k = Some (Key_WorkspaceID k))
                 (a_keys A)) = true -> isolated A.
Proof.
  intros [Ha%bool_decide_eq_true Hk%bool_decide_eq_true]%andb_true_iff. split.
  - intros id a Hl. exact (Ha id a Hl).
  - intros id k Hl. pose proof (Hk id k Hl) as He. cbn in He.
    apply fmap_Some in He as (a & ? & ?). eauto.
Qed.

Lemma tenants_isolated_witness :
  isolated (st_abs (world (race_end 1))) /\
  forall t v, pool (race_end 1) !! t = Some (Ret (RsVerifyKey (Ok v))) ->
    exists q, race !! t = Some (RqVerifyKey q) /\
    (v = notFound \/
     (exists pre post mid k0, race_schedule = pre ++ post /\
       reaches (demo_server None) race (demo_store None 1 None) pre mid /\
       a_keys (st_abs (world mid)) !! apikeyv1.VerifyKeyResponse_KeyId v = Some k0 /\
       same_hash (Some (keymat.Hash (apikeyv1.VerifyKeyRequest_GetPlaintext q))) k0) /\
     exists k a, a_keys (st_abs (world (race_end 1))) !! apikeyv1.VerifyKeyResponse_KeyId v = Some k /\
       apikeyv1.VerifyKeyResponse_ApiId v = Key_APIID k /\
       apikeyv1.VerifyKeyResponse_WorkspaceId v = Key_WorkspaceID k /\
       a_apis (st_abs (world (race_end 1))) !! Key_APIID k = Some a /\ API_WorkspaceID a = Key_WorkspaceID k).
Proof.
  refine (tenants_isolated (demo_server None) race (demo_store None 1 None) race_schedule (race_end 1)
    (race_reaches 1 _ _) (isolated_eval _ _)); [done|vm_compute; reflexivity..].
Defined.

Lemma requests_answered_witness :
  (length race_schedule <= max_events * length race)%nat /\
  forall t p i, pool (race_end 1) !! t = Some p -> st_ok (si_store i) (world (race_end 1)) ->
    (exists a, p = Ret a) \/ is_Some (cstep srv_handle (race_end 1) (t, i)).
Proof.
  refine (requests_answered (demo_server None) race (demo_store None 1 None) race_schedule (race_end 1)
    (race_reaches 1 _ _)); [done|vm_compute; reflexivity].
Defined.
