(* ===== verification/MemoryMutex.v ===== *)
(** * MemoryMutex: the service over the statements of the in-process driver

    Requests are served by goroutines that share the in-process driver: their calls
    interleave at the statements of memory.go and at its mutex.  [statements_linearizable]
    says that nothing is observed but interleavings of whole calls, the schedules of the
    file Concurrency, so that its theorems hold of the statements. *)

From S2P Require Import Prelude Effects GoSort Store StoreSpec StoreFacts Keymat Apikeyv1 Memory MemoryProps Server ServerLogic Rpc ServerCalls Interleaving Demo Concurrency Mutex MemoryStatements.
Import keychainserver.

Section Service.
Context {Timestamp : Type} `{TimestampPb Timestamp} {St RL Lg : Type}.
Variable order : gmap string Key -> list string.
Hypothesis order_perm : forall m, order m ≡ₚ (map_to_list m).*1.

Abbreviation Inp := (SrvInp memory.Inp RL).
Abbreviation E := (SrvE St RL).

(** The calls of the store are methods; the rest is between a goroutine and its
    environment. *)
Abbreviation split := (store_split statements.method).

Definition statement (X : Type) (d : statements.MemE X) (i : Inp) (s : memory.Store) : option (memory.Store * X) :=
  statements.stmt order X d (si_store i) s.

Definition fresh_statement (X : Type) (d : statements.MemE X) (i : Inp) (s : memory.Store) : Prop :=
  drawn_fresh X d (si_store i) s.

Abbreviation on_statements := (stmt_handle outside statement).
Abbreviation on_calls := (call_handle split outside statement).
Abbreviation statements_ok := (all_ok on_statements (stmt_ok sized fresh_statement)).

(** The goroutines of the requests, with the statements of the store's methods. *)
Definition serve_statements (s : Server St RL Lg) (reqs : list (Request Timestamp)) (st : memory.Store) :
    config (StmtE E statements.MemE) (memory.Store * bool) (Response Timestamp) :=
  start ((fun r => expand split (serve s r)) <$> reqs) (st, false).

(** The inputs of a call are those of the goroutine's statements. *)
Definition supplied {A} (past : list (nat * Inp)) (c : config E memory.Store A) (ti : nat * Inp) : Prop :=
  let '(t, i) := ti in
  (exists i0, (t, i0) ∈ past /\ si_now i = si_now i0 /\ si_reader i = si_reader i0 /\ si_consume i = si_consume i0) /\
  (exists i1, (t, i1) ∈ past /\ memory.now (si_store i) = memory.now (si_store i1)) /\
  ((exists i2, (t, i2) ∈ past /\ memory.uuid (si_store i) = memory.uuid (si_store i2)) \/
   forall u, cstep srv_handle c (t, mkSrvInp (memory.mkInp (memory.now (si_store i)) u) (si_now i) (si_reader i) (si_consume i)) =
     cstep srv_handle c (t, i)).

(** ** Statements of one input stream *)

Lemma run_store {X} (q : prog statements.MemE X) ins n s :
  run statement q ins n s = run (statements.stmt order) q (fun j => si_store (ins j)) n s.
Proof.
  revert n s. induction q as [x|Y d k IH]; intros n s; cbn; [done|].
  change (statement Y d (ins n) s) with (statements.stmt order Y d (si_store (ins n)) s).
  by destruct (statements.stmt order Y d (si_store (ins n)) s) as [[s' y]|].
Qed.

Lemma body_ok_store {X} (q : prog statements.MemE X) ins n s :
  body_ok statement fresh_statement q ins n s <->
  body_ok (statements.stmt order) drawn_fresh q (fun j => si_store (ins j)) n s.
Proof.
  revert n s. induction q as [x|Y d k IH]; intros n s; cbn; [done|].
  change (statement Y d (ins n) s) with (statements.stmt order Y d (si_store (ins n)) s).
  destruct (statements.stmt order Y d (si_store (ins n)) s) as [[s' y]|]; [|done]. by rewrite IH.
Qed.

(** ** Calls of statements are calls of the driver *)

Abbreviation with_uuid i u := (mkSrvInp (memory.mkInp (memory.now (si_store i)) u) (si_now i) (si_reader i) (si_consume i)).

(** The input [i] of a call, from the inputs of its statements. *)
Definition made_of {X} (e : E X) (ins : nat -> Inp) (i : Inp) (s : memory.Store) : Prop :=
  (si_now i = si_now (ins 0%nat) /\ si_reader i = si_reader (ins 0%nat) /\ si_consume i = si_consume (ins 0%nat)) /\
  (exists j, memory.now (si_store i) = memory.now (si_store (ins j))) /\
  ((exists j, memory.uuid (si_store i) = memory.uuid (si_store (ins j))) \/
   forall u, srv_handle X e (with_uuid i u) s = srv_handle X e i s).

Lemma call_answer {X} (e : E X) ins s :
  sized s -> (match split X e with inl _ => True | inr m => body_ok statement fresh_statement m ins 0 s end) ->
  exists i, input_ok (si_store i) s /\ made_of e ins i s /\ on_calls X e ins s = srv_handle X e i s.
Proof.
  intros Hs Hb. destruct e as [st Y e| | |r refs cost rid]; cbn [store_split] in Hb.
  - apply body_ok_store in Hb. destruct (method_atomic order order_perm Y e _ s Hs Hb) as (i & Hi & [Hn Hu] & Hrun).
    exists (mkSrvInp i (si_now (ins 0%nat)) (si_reader (ins 0%nat)) (si_consume (ins 0%nat))).
    split_and!; [done| |].
    + split; [done|]. split; [exact Hn|]. destruct Hu as [Hu|Hu]; [by left|right; intros u; apply Hu].
    + unfold call_handle. cbn [store_split]. rewrite run_store. exact Hrun.
  - destruct (fresh_input (memory.now (si_store (ins 0%nat))) s Hs) as [u Hu].
    exists (with_uuid (ins 0%nat) u). split; [done|]. split; [|done]. split; [done|]. split; [by exists 0%nat|by right].
  - destruct (fresh_input (memory.now (si_store (ins 0%nat))) s Hs) as [u Hu].
    exists (with_uuid (ins 0%nat) u). split; [done|]. split; [|done]. split; [done|]. split; [by exists 0%nat|by right].
  - destruct (fresh_input (memory.now (si_store (ins 0%nat))) s Hs) as [u Hu].
    exists (with_uuid (ins 0%nat) u). split; [done|]. split; [|done]. split; [done|]. split; [by exists 0%nat|by right].
Qed.

(** A step of a call is a step of the driver. *)
Lemma step_answer {A} (c c1 : config E memory.Store A) t ins past :
  cstep on_calls c (t, ins) = Some c1 -> call_ok split statement sized fresh_statement c (t, ins) ->
  (forall j, (t, ins j) ∈ past) ->
  exists i, cstep srv_handle c (t, i) = Some c1 /\ input_ok (si_store i) (world c) /\ supplied past c (t, i).
Proof.
  intros Hs [Hw Hok] Hin. apply cstep_inv in Hs as (X & e & k & s' & x & Hp & Hh & ->). cbn [fst snd] in *.
  rewrite Hp in Hok. destruct (call_answer e ins (world c) Hw Hok) as (i & Hi & (Hsrv & (j & Hj) & Hu) & Heq).
  assert (Hstep : forall i', srv_handle X e i' (world c) = srv_handle X e i (world c) ->
    cstep srv_handle c (t, i') = Some (Config (<[t := k x]> (pool c)) s' (log c ++ [(t, Ev e x)]))).
  { intros i' Hi'. apply cstep_enabled; [done|]. by rewrite Hi', <- Heq. }
  exists i. split; [by apply Hstep|]. split; [done|]. split; [|split].
  - by exists (ins 0%nat).
  - exists (ins j). by split.
  - destruct Hu as [[j' Hj']|Hu]; [left; exists (ins j'); by split|right]. intros u. by rewrite !Hstep.
Qed.

Lemma calls_answered {A} (c c1 : config E memory.Store A) sched past :
  run_schedule on_calls sched c = Some c1 -> all_ok on_calls (call_ok split statement sized fresh_statement) sched c ->
  Forall (fun ti => forall j, (ti.1, ti.2 j) ∈ past) sched ->
  exists sched', run_schedule srv_handle sched' c = Some c1 /\ sched_ok sched' c /\
    all_ok srv_handle (supplied past) sched' c.
Proof.
  revert c. induction sched as [|[t ins] rest IH]; intros c Hrun Hok Hin; cbn in *.
  - by exists [].
  - destruct (cstep on_calls c (t, ins)) as [c2|] eqn:Hs; [|done]. destruct Hok as [Ho Hok].
    apply Forall_cons in Hin as [Ht Hin]. destruct (step_answer c c2 t ins past Hs Ho Ht) as (i & Hs' & Hi & Hsup).
    destruct (IH c2 Hrun Hok Hin) as (sched' & Hrun' & Hok' & Hsup').
    exists ((t, i) :: sched'). cbn [run_schedule sched_ok all_ok]. rewrite Hs'. split; [exact Hrun'|]. split; (split; [assumption|]); assumption.
Qed.

(** ** The theorem *)

(** A configuration of statements shows the whole calls of [c']: the answers are
    those of [c'], and so is the store unless a call is under way. *)
Definition shows (c : config (StmtE E statements.MemE) (memory.Store * bool) (Response Timestamp))
    (c' : config E memory.Store (Response Timestamp)) : Prop :=
  length (pool c) = length (pool c') /\
  (forall t a, pool c !! t = Some (Ret a) -> pool c' !! t = Some (Ret a)) /\
  ((world c).2 = false -> world c = (world c', false) /\ forall t a, pool c !! t = Some (Ret a) <-> pool c' !! t = Some (Ret a)).

Lemma expand_ret (p : prog E (Response Timestamp)) a : expand split p = Ret a -> p = Ret a.
Proof. destruct p as [b|X e k]; cbn; [by intros [= ->]|]. by destruct (split X e). Qed.

Lemma simulates_shows past c c' :
  simulates split statement sized fresh_statement past c c' -> shows c c'.
Proof.
  intros [[Hp Hw]|(t0 & X & e & k & m & q & s & ins & n & H1 & H2 & H3 & H4 & H5 & H6 & H7)].
  - assert (Hr : forall t a, pool c !! t = Some (Ret a) <-> pool c' !! t = Some (Ret a)).
    { intros t a. rewrite Hp, list_lookup_fmap. destruct (pool c' !! t) as [p|]; cbn; [|done].
      split; [by intros [= <-%expand_ret]|by intros [= ->]]. }
    split_and!; [by rewrite Hp, length_fmap|apply Hr|done].
  - split_and!; [by rewrite H3, length_insert, length_fmap| |by rewrite H4].
    intros t a Ht. rewrite H3 in Ht. destruct (decide (t0 = t)) as [->|Hne].
    + rewrite list_lookup_insert_eq in Ht by (rewrite length_fmap; by eapply lookup_lt_Some). by destruct q.
    + rewrite list_lookup_insert_ne, list_lookup_fmap in Ht by done. destruct (pool c' !! t) as [p|]; [|done].
      cbn in Ht. injection Ht as Ht. by apply expand_ret in Ht as ->.
Qed.

Lemma calls_total c' : pool_ok c' -> sized (world c') ->
  forall t X (e : E X) k ins, pool c' !! t = Some (Vis e k : prog E (Response Timestamp)) -> is_Some (on_calls X e ins (world c')).
Proof.
  intros [Hi Hp] Hs t X e k ins Ht. destruct (Hp t _ Ht) as [He _].
  destruct e as [st Y e| | |r refs cost rid]; try by eexists.
  unfold call_handle. cbn [store_split]. rewrite run_store.
  exact (method_total order order_perm Y e (fun j => si_store (ins j)) (world c') Hi Hs He).
Qed.

(** C6. The mutex of the in-process driver makes its methods atomic.  However the
    statements of the store's methods interleave across concurrent requests, there is an
    interleaving of whole calls, with inputs that are those of the statements, in which
    every request has the same answer and which leaves the same store when no call is
    under way; so what holds of every interleaving of calls holds of every interleaving
    of statements.  And it never deadlocks: unless every request is answered, some
    goroutine can take a step. *)
Theorem statements_linearizable s reqs st sched c :
  inv st -> Forall request_ok reqs ->
  run_schedule on_statements sched (serve_statements s reqs st) = Some c ->
  statements_ok sched (serve_statements s reqs st) ->
  (exists sched' c', reaches s reqs st sched' c' /\ shows c c' /\
    all_ok srv_handle (supplied sched) sched' (serve_all s reqs st)) /\
  (sized (world c).1 -> forall i, Forall returned (pool c) \/ exists t c1, cstep on_statements c (t, i) = Some c1).
Proof.
  intros Hi Hreqs Hrun Hok.
  destruct (simulation split outside statement sized fresh_statement [] (serve_statements s reqs st) c (serve_all s reqs st) sched)
    as (sched' & c' & Hrun' & Hok' & Hin & Hsim); [|done|done|].
  { left. split; cbn; [|done]. by rewrite <- list_fmap_compose. }
  destruct (calls_answered _ _ _ _ Hrun' Hok' Hin) as (sched2 & Hrun2 & Hok2 & Hsup).
  assert (Hre : reaches s reqs st sched2 c') by (split; [done|by apply memory_wf|done..]).
  split; [exists sched2, c'; split_and!; [done|by eapply simulates_shows|done]|].
  intros Hs i. eapply progress; [exact Hsim| |].
  - intros X e e' Hsp. destruct e; cbn in Hsp; simplify_eq; by eexists.
  - apply calls_total; [by eapply reaches_ok|].
    destruct Hsim as [[_ Hw]|(t0 & X & e & k & m & q & s' & ins & n & H1 & H2 & H3 & H4 & H5 & _)]; [by rewrite Hw in Hs|done].
Qed.
End Service.

(** ** A run *)

#[local] Instance all_ok_dec {G : Sig} {J T A} (h : forall X : Ans, G X -> J -> T -> option (T * X))
    (ok : config G T A -> nat * J -> Prop) (dec : forall c ti, Decision (ok c ti)) :
  forall sched c, Decision (all_ok h ok sched c).
Proof.
  induction sched as [|ti rest IH]; intros c; cbn; [apply _|]. destruct (cstep h c ti); apply _.
Defined.

#[local] Instance drawn_fresh_dec X (d : statements.MemE X) i s : Decision (drawn_fresh X d i s).
Proof. destruct d; apply _. Defined.

#[local] Instance statement_ok_dec {RL A} (c : config (StmtE (SrvE unit RL) statements.MemE) (memory.Store * bool) A)
    (ti : nat * SrvInp memory.Inp RL) :
  Decision (stmt_ok sized fresh_statement c ti).
Proof.
  unfold stmt_ok. apply and_dec; [unfold sized; apply _|].
  destruct (pool c !! ti.1) as [[a|X [e|[l|d]] k]|]; [apply _..|apply drawn_fresh_dec|apply _].
Defined.

Definition visit_order (m : gmap string Key) : list string := (map_to_list m).*1.

(** Two gateways present the last use of a key at once: both look the key up before
    the first is charged. *)
Definition race_statements : list (nat * SrvInp memory.Inp unit) :=
  schedule allow [0; 0; 0; 0; 1; 1; 1; 1; 0; 0; 0; 0; 0; 1; 1; 1; 0; 0; 0; 0; 0]%nat.

Abbreviation race_run := (run_schedule (stmt_handle outside (statement visit_order)) race_statements
  (serve_statements (demo_server None) race (demo_store None 1 None))).

Definition race_statements_end := default (serve_statements (demo_server None) race (demo_store None 1 None)) race_run.

Lemma statements_linearizable_witness :
  valid_for "key_3" <$> omap (fun p => match p with Ret a => Some a | _ => None end) (pool race_statements_end) = [true; false] /\
  (exists sched' c', reaches (demo_server None) race (demo_store None 1 None) sched' c' /\ shows race_statements_end c' /\
    all_ok srv_handle (supplied race_statements) sched' (serve_all (demo_server None) race (demo_store None 1 None))) /\
  (sized (world race_statements_end).1 -> forall i, Forall returned (pool race_statements_end) \/
    exists t c1, cstep (stmt_handle outside (statement visit_order)) race_statements_end (t, i) = Some c1).
Proof.
  split; [vm_compute; reflexivity|].
  refine (statements_linearizable visit_order (fun m => reflexivity _) (demo_server None) race (demo_store None 1 None)
    race_statements race_statements_end _ _ _ _).
  - by apply demo_store_inv.
  - by repeat constructor.
  - vm_compute. reflexivity.
  - by_eval.
Defined.
