(* ===== verification/Services.v ===== *)
(** * Services: the theorems about single requests

    Each method run alone over any driver: it returns, without a panic, an answer
    within its relation, and leaves the driver in a state within it.  Then two
    requests in a row: an issued key verifies, a rotated key has a new plaintext
    and no other, unless the driver fails. *)

From S2P Require Import Prelude Effects GoSort Store Crypto Keymat StoreSpec StoreFacts Apikeyv1 Memory MemoryProps Server ServerLogic ServerSpec RpcSpec Rpc Interleaving Demo.
Import keychainserver.

Section Services.
Context {Timestamp : Type} `{TimestampPb Timestamp}.
Context {S I : Type} {impl : StoreImpl S I} {St RL Lg : Type}.
Context (s : Server St RL Lg).

Abbreviation E := (SrvE St RL).

(** The run of [p] from [st] returns, keeps the invariants and ends in [Q]. *)
Definition runs {R} (p : prog E R) (ins : nat -> SrvInp I RL) (st : S)
    (Q : list (event E) -> AStore -> R -> Prop) : Prop :=
  exists st' n r, run srv_handle p ins 0 st = Some (st', n, r) /\ st_inv st' /\
    a_wf (st_abs st') /\ Q (trace srv_handle p ins 0 st) (st_abs st') r.

(** A run in an environment within its contracts. *)
Record ready {R} (p : prog E R) (ins : nat -> SrvInp I RL) (st : S) : Prop := {
  rd_inv : st_inv st;
  rd_wf : a_wf (st_abs st);
  rd_inputs : inputs_ok p ins 0 st;
}.

Lemma swp_runs {R} (p : prog E R) ins st Q :
  ready p ins st -> swp p (st_abs st) Q -> runs p ins st Q.
Proof.
  intros [Hi Hwf Hin] Hp. pose proof (swp_wf _ _ _ Hwf Hp) as Hp'.
  destruct (swp_run _ _ _ _ _ Hi Hin Hp') as (st' & n & r & ? & ? & ? & ?).
  exists st', n, r. by split_and!.
Qed.

(** C11. [VerifyKey] decides as specified: its answer and its effect are those of
    one of the outcomes, checked in the order revoked, expired, depleted,
    forbidden, rate limited, with the side effects only on the way to VALID. *)
Theorem VerifyKey_correct req ins st :
  ready (VerifyKey s req) ins st ->
  runs (VerifyKey s req) ins st (fun l A' r => verify_outcome s req (st_abs st) l A' r).
Proof. intros Hr. apply swp_runs; [done|]. by apply VerifyKey_outcome, (rd_wf _ _ _ Hr). Qed.

(** Only a VALID decision changes the store: a refused verification leaves
    every key, use and time as it was. *)
Theorem VerifyKey_refusal_has_no_effect req ins st :
  ready (VerifyKey s req) ins st ->
  runs (VerifyKey s req) ins st (fun _ A' r => forall v, r = Ok v ->
    apikeyv1.VerifyKeyResponse_Result v <> apikeyv1.VERIFY_RESULT_VALID -> A' = st_abs st).
Proof.
  intros Hr. apply swp_runs; [done|].
  eapply swp_mono; [|apply VerifyKey_outcome, (rd_wf _ _ _ Hr)].
  intros l A' r Ho v ->. by apply (outcome_no_effect s req _ _ _ _ Ho).
Qed.

(** C12. The flag [valid] and the decision agree, and a status error is one of the
    three documented: the driver failed, no limiter is configured for a limited
    key, or the limiter failed. *)
Theorem VerifyKey_answer_consistent req ins st :
  ready (VerifyKey s req) ins st ->
  runs (VerifyKey s req) ins st (fun l _ r =>
    match r with
    | Ok v => apikeyv1.VerifyKeyResponse_Valid v = true <->
        apikeyv1.VerifyKeyResponse_Result v = apikeyv1.VERIFY_RESULT_VALID
    | Err st => (status_code st = Internal /\ st_faults) \/
        (status_code st = FailedPrecondition /\ rl s = None) \/
        (status_code st = Unavailable /\ exists r k err, consumed req r k (Err err) ∈ l)
    end).
Proof.
  intros Hr. apply swp_runs; [done|].
  eapply swp_mono; [|apply VerifyKey_outcome, (rd_wf _ _ _ Hr)].
  intros l A' [v|[c m]] Ho; [by apply (outcome_flag s req _ _ _ _ Ho)|].
  exact (outcome_codes s req _ _ _ _ _ Ho).
Qed.

(** C13. [CreateKey] issues a key: refusals in order, fresh material under the API's
    prefix, the hash and never the plaintext in the store, and the key of the
    request under a fresh identifier. *)
Theorem CreateKey_correct req ins st :
  ready (CreateKey s req) ins st -> request_ok (RqCreateKey req) ->
  runs (CreateKey s req) ins st (fun l A' r => CreateKey_spec req l (st_abs st) A' r).
Proof.
  intros Hr Hn. apply swp_runs; [done|]. apply CreateKey_rpc; [exact (rd_wf _ _ _ Hr)|done].
Qed.

(** C14. [RotateKey] replaces the hash of one key by that of fresh material under
    its API's prefix and changes nothing else but the update time. *)
Theorem RotateKey_correct req ins st :
  ready (RotateKey s req) ins st ->
  runs (RotateKey s req) ins st (fun l A' r => RotateKey_spec req l (st_abs st) A' r).
Proof. intros Hr. apply swp_runs; [done|]. apply RotateKey_rpc, (rd_wf _ _ _ Hr). Qed.

(** C15. [RevokeKey] disables exactly one key and reports a missing key.  Revoking a
    revoked key succeeds and changes nothing or, over a driver that restamps, its
    update time. *)
Theorem RevokeKey_correct req ins st :
  ready (RevokeKey s req) ins st ->
  runs (RevokeKey s req) ins st (fun _ A' r => RevokeKey_spec req (st_abs st) A' r).
Proof. intros Hr. apply swp_runs; [done|]. apply RevokeKey_rpc. Qed.

(** C16. [ListKeys] returns a page of the keys of the API (of one owner, if asked),
    in increasing order after the token, with the token of the next page. *)
Theorem ListKeys_correct req ins st :
  ready (ListKeys s req) ins st -> int32_range (apikeyv1.ListKeysRequest_GetPageSize req) ->
  runs (ListKeys s req) ins st (fun _ A' r => ListKeys_spec req (st_abs st) A' r).
Proof. intros Hr Hn. apply swp_runs; [done|]. by apply ListKeys_rpc. Qed.

(** C17. The reads answer with what is stored, and only that; a missing object is
    [NotFound], an empty identifier [InvalidArgument]. *)
Theorem reads_correct ins st key ws api :
  (ready (GetKey s key) ins st ->
   runs (GetKey s key) ins st (fun _ A' r => GetKey_spec key (st_abs st) A' r)) /\
  (ready (GetWorkspace s ws) ins st ->
   runs (GetWorkspace s ws) ins st (fun _ A' r => GetWorkspace_spec ws (st_abs st) A' r)) /\
  (ready (GetApi s api) ins st ->
   runs (GetApi s api) ins st (fun _ A' r => GetApi_spec api (st_abs st) A' r)).
Proof.
  split_and!; intros Hr; (apply swp_runs; [done|]);
    [apply GetKey_rpc|apply GetWorkspace_rpc|apply GetApi_rpc].
Qed.

(** C18. Workspaces and APIs are created under fresh identifiers with the fields of
    the request; an API needs its workspace. *)
Theorem creations_correct ins st ws api :
  (ready (CreateWorkspace s ws) ins st -> request_ok (Timestamp := Timestamp) (RqCreateWorkspace ws) ->
   runs (CreateWorkspace s ws) ins st (fun _ A' r => CreateWorkspace_spec ws (st_abs st) A' r)) /\
  (ready (CreateApi s api) ins st -> request_ok (Timestamp := Timestamp) (RqCreateApi api) ->
   runs (CreateApi s api) ins st (fun _ A' r => CreateApi_spec api (st_abs st) A' r)).
Proof.
  split; intros Hr Hok; (apply swp_runs; [done|]); [by apply CreateWorkspace_rpc|by apply CreateApi_rpc].
Qed.

(** ** Two requests in a row *)

(** The request that presents [plaintext] and needs [permissions]. *)
Definition present (plaintext : string) (permissions : slice string) : option apikeyv1.VerifyKeyRequest :=
  Some (apikeyv1.mkVerifyKeyRequest plaintext permissions EmptyString 0 EmptyString false).

Definition create_then_verify (req : option (apikeyv1.CreateKeyRequest Timestamp)) (permissions : slice string) :
    prog E (result status (apikeyv1.CreateKeyResponse Timestamp) * option (result status apikeyv1.VerifyKeyResponse)) :=
  c ← CreateKey s req;
  match c with
  | Err err => Ret (Err err, None)
  | Ok resp =>
      v ← VerifyKey s (present (apikeyv1.CreateKeyResponse_Plaintext resp) permissions);
      Ret (Ok resp, Some v)
  end.

(** VALID for [k]; without limit references there are no limit decisions. *)
Definition is_valid_for (k : Key) (v : result status apikeyv1.VerifyKeyResponse) : Prop :=
  exists k' ds, norm_key st_nt k' = norm_key st_nt k /\ (elems (Key_LimitRefs k) = [] -> ds = None) /\
    v = Ok (verdict k' ds true apikeyv1.VERIFY_RESULT_VALID).

(** The environment [ins] lets a key pass that expires at [e] and has the limits [refs]:
    every reading of the clock is before the expiry, at the driver's precision, and a
    configured limiter answers every request for the limits by allowing it. *)
Record lets_pass (ins : nat -> SrvInp I RL) (e : option Time) (refs : list LimitRef) : Prop := {
  lp_live : forall n t, st_nt <$> e = Some (st_nt t) -> si_now (ins n) < t;
  lp_limits : refs = [] \/ (rl s <> None /\ forall n r refs cost rid,
    exists ds, si_consume (ins n) r refs cost rid = Ok ds /\
      forall d, d ∈ elems ds -> LimitDecision_Allowed d = true);
}.

(** The same, of the events of a run. *)
Definition passing (e : option Time) (refs : list LimitRef) (l : list (event E)) : Prop :=
  Forall (live e) l /\ (refs = [] \/ (rl s <> None /\ Forall allows l)).

Lemma passing_app_r e refs l l' : passing e refs (l ++ l') -> passing e refs l'.
Proof.
  intros [Hl Hr]. rewrite !Forall_app in *. split; [apply Hl|]. destruct Hr as [?|(? & _ & ?)]; auto.
Qed.

Lemma passing_expiry e e' refs l : st_nt <$> e = st_nt <$> e' -> passing e refs l -> passing e' refs l.
Proof.
  intros He [Hl Hr]. split; [|done]. eapply Forall_impl; [exact Hl|]. intros [X ev x] Hv.
  destruct ev; try done. cbn in *. by rewrite <- He.
Qed.

Lemma runs_passing {R} (p : prog E R) ins st e refs Q :
  lets_pass ins e refs -> runs p ins st (fun l A r => passing e refs l -> Q l A r) -> runs p ins st Q.
Proof.
  intros [Hlive Hlim] (st' & n & r & ? & ? & ? & HQ). exists st', n, r. split_and!; [done..|]. apply HQ. split.
  - apply trace_Forall. intros m X ev s1 s2 x Hh. destruct ev; try done. injection Hh as _ <-. cbn. apply Hlive.
  - destruct Hlim as [?|[? Hall]]; [by left|right]. split; [done|].
    apply trace_Forall. intros m X ev s1 s2 x Hh. destruct ev; try done. injection Hh as _ <-. apply Hall.
Qed.

Lemma plaintext_nonempty rd prefix plaintext hash :
  keymat.New rd prefix = Ok (plaintext, hash) -> plaintext <> EmptyString /\ hash = keymat.Hash plaintext.
Proof.
  intros (Hl & -> & ->)%keymat.New_Ok. split; [|done]. apply keymat.append_nonempty.
  intros He. apply keymat.encoded_length in Hl. rewrite He in Hl. done.
Qed.

Abbreviation requested_expiry req := (timestamppb_AsTime <$> apikeyv1.CreateKeyRequest_GetExpiresAt req).
Abbreviation requested_limits req := ((fun r => mkLimitRef (apikeyv1.LimitRef_GetLimitId r)
  (apikeyv1.LimitRef_GetScopeKey r)) <$> elems (apikeyv1.CreateKeyRequest_GetLimitRefs req)).

Lemma created_verifies req permissions A :
  a_wf A -> request_ok (RqCreateKey req) ->
  permitted (apikeyv1.CreateKeyRequest_GetPermissions req) permissions ->
  swp (create_then_verify req permissions) A (fun l _ cv =>
    passing (requested_expiry req) (requested_limits req) l ->
    forall resp, cv.1 = Ok resp -> exists k v, cv.2 = Some v /\
      apikeyv1.CreateKeyResponse_Key resp = Some (keyToProto k) /\ (faulted v \/ is_valid_for k v)).
Proof.
  intros Hwf Hn Hp. apply swp_bind.
  eapply swp_mono; [|by eapply swp_wf, CreateKey_rpc].
  intros l A' [resp|err] [Hwf' Hs]; [|done]. unfold CreateKey_spec in Hs.
  repeat case_decide; [by destruct Hs..|]. destruct Hs as [Hs|(_ & [m Hm] & _)]; [|done].
  destruct (a_apis A !! _) as [api|]; [|by destruct Hs as [_ [? ?]]].
  destruct Hs as (rd & _ & Hs). destruct (keymat.New rd _) as [[pt hash]|err] eqn:Hnew; [|by destruct Hs].
  destruct Hs as [(_ & [? ?] & _)|[(_ & [? ?] & _)|(id & now & k & _ & _ & Heq & -> & [= ->])]]; [done..|].
  destruct (plaintext_nonempty _ _ _ _ Hnew) as [Hne ->].
  apply swp_bind. eapply swp_mono; [|by apply VerifyKey_outcome].
  intros l' A2 v Ho Hpass%passing_app_r resp [= <-]. exists k, v. split_and!; [done..|].
  rewrite app_nil_r in Hpass. apply (passing_expiry _ (Key_ExpiresAt k)) in Hpass as [Hlive Hlim].
  2: { rewrite (rq_expiry _ _ _ _ _ _ Heq). by destruct (apikeyv1.CreateKeyRequest_GetExpiresAt req). }
  rewrite <- (rq_limits _ _ _ _ _ _ Heq) in Hlim.
  edestruct (outcome_accepts s) as [Hf|(k' & ds & ? & ? & ->)]; [exact Hwf'|exact Ho|by apply lookup_insert_eq|..].
  - unfold same_hash. cbn [norm_key Key_KeyHash]. by rewrite elems_append_nil, (rq_hash _ _ _ _ _ _ Heq).
  - done.
  - by apply (rq_enabled _ _ _ _ _ _ Heq).
  - done.
  - rewrite (rq_uses _ _ _ _ _ _ Heq). cbn zeta. case_decide; lia.
  - intros p Hin. rewrite (rq_permissions _ _ _ _ _ _ Heq). by apply Hp.
  - done.
  - by left.
  - right. by exists k', ds.
Qed.

(** C19. An issued key verifies.  When [CreateKey] succeeds and the plaintext it returned
    is presented in the next request, with permissions among those that were requested,
    the answer is VALID for the key that was issued, or the driver failed and the answer
    is the error [Internal].  The environment must let the key pass: the clock has not
    reached the requested expiry, if any, and, if limits were requested, a limiter is
    configured and allows them. *)
Theorem issued_key_verifies req permissions ins st :
  ready (create_then_verify req permissions) ins st -> request_ok (RqCreateKey req) ->
  permitted (apikeyv1.CreateKeyRequest_GetPermissions req) permissions ->
  lets_pass ins (requested_expiry req) (requested_limits req) ->
  runs (create_then_verify req permissions) ins st (fun _ _ cv =>
    forall resp, cv.1 = Ok resp -> exists k v, cv.2 = Some v /\
      apikeyv1.CreateKeyResponse_Key resp = Some (keyToProto k) /\ (faulted v \/ is_valid_for k v)).
Proof.
  intros Hr Hn Hp Hpass. apply (runs_passing _ _ _ _ _ _ Hpass), swp_runs; [done|].
  apply created_verifies; [exact (rd_wf _ _ _ Hr)|done..].
Qed.

(** Rotates a key and presents the new plaintext, or another one. *)
Definition rotate_then_verify (req : option apikeyv1.RotateKeyRequest) (other : option string)
    (permissions : slice string) :
    prog E (result status (apikeyv1.RotateKeyResponse Timestamp) * option (result status apikeyv1.VerifyKeyResponse)) :=
  c ← RotateKey s req;
  match c with
  | Err err => Ret (Err err, None)
  | Ok resp =>
      v ← VerifyKey s (present (default (apikeyv1.RotateKeyResponse_Plaintext resp) other) permissions);
      Ret (Ok resp, Some v)
  end.

(** The answer to [old], the plaintext of the key before its rotation. *)
Definition forgotten (old : string) (cv : result status (apikeyv1.RotateKeyResponse Timestamp) *
    option (result status apikeyv1.VerifyKeyResponse)) : Prop :=
  forall resp, cv.1 = Ok resp ->
    keymat.Hash old <> keymat.Hash (apikeyv1.RotateKeyResponse_Plaintext resp) ->
    exists v, cv.2 = Some v /\ (faulted v \/ v = Ok notFound).

Lemma RotateKey_done req (l : list (event E)) A A' resp k :
  a_keys A !! apikeyv1.RotateKeyRequest_GetKeyId req = Some k ->
  RotateKey_spec req l A A' (Ok resp) ->
  let id := apikeyv1.RotateKeyRequest_GetKeyId req in
  let plaintext := apikeyv1.RotateKeyResponse_Plaintext resp in
  plaintext <> EmptyString /\
  exists t k', norm_key st_nt k' = Key_set_KeyHash (append_nil (Some (keymat.Hash plaintext))) (st_nt t) k /\
    A' = a_put_key id (norm_key st_nt k') A /\
    apikeyv1.RotateKeyResponse_Key resp = Some (keyToProto k').
Proof.
  intros Hk Hs id plaintext. unfold RotateKey_spec in Hs.
  repeat case_decide; [by destruct Hs|]. destruct Hs as [Hs|(_ & [m Hm] & _)]; [|done].
  rewrite Hk in Hs. destruct Hs as (api & rd & _ & _ & Hs).
  destruct (keymat.New rd _) as [[pt hash]|err] eqn:Hnew; [|by destruct Hs].
  destruct Hs as [(_ & [? ?] & _)|(_ & t & k' & Hn & -> & [= ->])]; [done|].
  destruct (plaintext_nonempty _ _ _ _ Hnew) as [Hne ->]. split; [done|]. by exists t, k'.
Qed.

Lemma rotated_forgets req old permissions A k :
  a_wf A -> a_keys A !! apikeyv1.RotateKeyRequest_GetKeyId req = Some k ->
  same_hash (Some (keymat.Hash old)) k ->
  swp (rotate_then_verify req (Some old) permissions) A (fun _ _ => forgotten old).
Proof.
  intros Hwf Hk Hh. apply swp_bind. eapply swp_mono; [|by eapply swp_wf, RotateKey_rpc].
  intros l A' [resp|err] [Hwf' Hs]; [|done].
  destruct (RotateKey_done _ _ _ _ _ _ Hk Hs) as (_ & t & k' & Hn & -> & _).
  apply swp_bind. eapply swp_mono; [|by apply VerifyKey_outcome].
  intros l' A2 v Ho resp' [= <-] Hne. exists v. split; [done|]. eapply outcome_unknown; [exact Ho|].
  intros id2 k2. cbn. rewrite lookup_insert. case_decide as Hid.
  - intros [= <-]. rewrite Hn. unfold same_hash. cbn. intros He. apply Hne.
    change (elems (append_nil (Some (keymat.Hash (apikeyv1.RotateKeyResponse_Plaintext resp)))) =
            keymat.Hash old) in He. by rewrite elems_append_nil in He.
  - intros Hk2 Hs2. apply Hid. apply (a_wf_hash _ Hwf _ _ _ _ Hk Hk2). unfold same_hash in *. congruence.
Qed.

(** The key [k0] of the request, with the hash of the new plaintext. *)
Definition rehashed (req : option apikeyv1.RotateKeyRequest) (resp : apikeyv1.RotateKeyResponse Timestamp)
    (k0 k : Key) : Prop :=
  Key_KeyID k = apikeyv1.RotateKeyRequest_GetKeyId req /\
  apikeyv1.RotateKeyResponse_Key resp = Some (keyToProto k) /\
  exists t, norm_key st_nt k =
    Key_set_KeyHash (append_nil (Some (keymat.Hash (apikeyv1.RotateKeyResponse_Plaintext resp)))) (st_nt t)
      (norm_key st_nt k0).

Lemma rotated_verifies req permissions A k0 :
  a_wf A -> a_keys A !! apikeyv1.RotateKeyRequest_GetKeyId req = Some (norm_key st_nt k0) ->
  Key_Enabled k0 = true -> Key_RemainingUses k0 <> 0 -> permitted (Key_Permissions k0) permissions ->
  swp (rotate_then_verify req None permissions) A (fun l _ cv =>
    passing (Key_ExpiresAt k0) (elems (Key_LimitRefs k0)) l ->
    forall resp, cv.1 = Ok resp -> exists k v, cv.2 = Some v /\
      rehashed req resp k0 k /\ (faulted v \/ is_valid_for k v)).
Proof.
  intros Hwf Hk He Hu Hp. apply swp_bind. eapply swp_mono; [|by eapply swp_wf, RotateKey_rpc].
  intros l A' [resp|err] [Hwf' Hs]; [|done].
  destruct (RotateKey_done _ _ _ _ _ _ Hk Hs) as (Hne & t & k & Hn & -> & Hr).
  apply swp_bind. eapply swp_mono; [|by apply VerifyKey_outcome].
  intros l' A2 v Ho Hpass%passing_app_r resp' [= <-]. rewrite app_nil_r in Hpass.
  set (h := append_nil (Some (keymat.Hash (apikeyv1.RotateKeyResponse_Plaintext resp)))) in *.
  assert (Hk0 : norm_key st_nt k = norm_key st_nt (Key_set_KeyHash h (st_nt t) (norm_key st_nt k0))).
  { rewrite <- (norm_key_idemp st_nt k st_nt_idemp), Hn. done. }
  destruct (norm_key_fields (impl := impl) _ _ Hk0) as (Hid & _ & He' & Hu' & Hpe & Hle & Hxe).
  assert (Hx : st_nt <$> Key_ExpiresAt k0 = st_nt <$> Key_ExpiresAt k).
  { rewrite Hxe. cbn. destruct (Key_ExpiresAt k0); cbn; by rewrite ?st_nt_idemp. }
  assert (Hlk : elems (Key_LimitRefs k) = elems (Key_LimitRefs k0)).
  { rewrite Hle. cbn [Key_set_KeyHash norm_key Key_LimitRefs]. by rewrite elems_append_nil. }
  apply (passing_expiry _ _ _ _ Hx) in Hpass as [Hlive Hlim]. rewrite <- Hlk in Hlim.
  exists k, v. split_and!; [done| |].
  { split_and!; [|done|by exists t]. rewrite Hid. exact (a_wf_key _ Hwf _ _ Hk). }
  edestruct (outcome_accepts s) as [Hf|(k' & ds & ? & ? & ->)]; [exact Hwf'|exact Ho|by apply lookup_insert_eq|..].
  - unfold same_hash. rewrite Hn. unfold h. cbn [Key_set_KeyHash Key_KeyHash].
    by rewrite elems_append_nil.
  - done.
  - by rewrite He'.
  - done.
  - by rewrite Hu'.
  - intros p Hin. rewrite Hpe. unfold norm_key, Key_set_KeyHash. cbn [Key_Permissions].
    rewrite elems_append_nil. by apply Hp.
  - done.
  - by left.
  - right. by exists k', ds.
Qed.

(** C20. Rotation forgets the old plaintext.  When [RotateKey] succeeds and the plaintext
    the key had before is presented in the next request, the answer is NOT_FOUND, or the
    driver failed and the answer is the error [Internal]; unless the old plaintext has
    the hash of the new one. *)
Theorem rotation_forgets req old permissions ins st k :
  ready (rotate_then_verify req (Some old) permissions) ins st ->
  a_keys (st_abs st) !! apikeyv1.RotateKeyRequest_GetKeyId req = Some k ->
  same_hash (Some (keymat.Hash old)) k ->
  runs (rotate_then_verify req (Some old) permissions) ins st (fun _ _ => forgotten old).
Proof. intros Hr **. apply swp_runs; [done|]. eapply rotated_forgets; try done. exact (rd_wf _ _ _ Hr). Qed.

(** C21. Rotation keeps the key.  When [RotateKey] succeeds and the new plaintext is
    presented in the next request, the answer is VALID for the key that was asked to be
    rotated, which is as it was but for its hash and its update time, or the driver
    failed and the answer is the error [Internal].  The key must be enabled, with uses
    left and the permissions that are asked for, and the environment must let it pass:
    the clock has not reached its expiry, if any, and, if it has limits, a limiter is
    configured and allows them. *)
Theorem rotation_keeps_key req permissions ins st k0 :
  ready (rotate_then_verify req None permissions) ins st ->
  a_keys (st_abs st) !! apikeyv1.RotateKeyRequest_GetKeyId req = Some (norm_key st_nt k0) ->
  Key_Enabled k0 = true -> Key_RemainingUses k0 <> 0 -> permitted (Key_Permissions k0) permissions ->
  lets_pass ins (Key_ExpiresAt k0) (elems (Key_LimitRefs k0)) ->
  runs (rotate_then_verify req None permissions) ins st (fun _ _ cv =>
    forall resp, cv.1 = Ok resp -> exists k v, cv.2 = Some v /\
      rehashed req resp k0 k /\ (faulted v \/ is_valid_for k v)).
Proof.
  intros Hr Hk He Hu Hp Hpass. apply (runs_passing _ _ _ _ _ _ Hpass), swp_runs; [done|].
  apply rotated_verifies; [exact (rd_wf _ _ _ Hr)|done..].
Qed.
End Services.

(** ** Witnesses: runs over the in-process driver *)

Lemma demo_ready {R} (p : prog (SrvE unit unit) R) d m :
  inv m -> inputs_check p (demo_inputs d) 0 m = true -> ready p (demo_inputs d) m.
Proof. intros Hi Hc. split; [done|by apply memory_wf|by apply inputs_check_ok]. Qed.

Abbreviation demo_one := (demo_store None 1 None).

Lemma one_ready {R} (p : prog (SrvE unit unit) R) :
  inputs_check p (demo_inputs allow) 0 demo_one = true -> ready p (demo_inputs allow) demo_one.
Proof. intros Hc. apply demo_ready; [by apply demo_store_inv|done]. Qed.

Abbreviation srv := (demo_server None).
Abbreviation demo_verify_one := (VerifyKey srv (demo_verify "sk_one")).

Lemma VerifyKey_correct_witness :
  demo_answer demo_verify_one allow demo_one =
    Some (Ok (verdict (demo_stored None 1 None) None true apikeyv1.VERIFY_RESULT_VALID)) /\
  runs demo_verify_one (demo_inputs allow) demo_one
    (fun l A' r => verify_outcome srv (demo_verify "sk_one") (st_abs demo_one) l A' r).
Proof.
  split; [vm_compute; reflexivity|].
  refine (VerifyKey_correct srv _ _ _ (one_ready _ _)). vm_compute; reflexivity.
Defined.

Lemma VerifyKey_refusal_has_no_effect_witness :
  demo_answer (VerifyKey srv (demo_verify "sk_two")) allow demo_one = Some (Ok notFound) /\
  runs (VerifyKey srv (demo_verify "sk_two")) (demo_inputs allow) demo_one
    (fun _ A' r => forall v, r = Ok v ->
      apikeyv1.VerifyKeyResponse_Result v <> apikeyv1.VERIFY_RESULT_VALID -> A' = st_abs demo_one).
Proof.
  split; [vm_compute; reflexivity|].
  refine (VerifyKey_refusal_has_no_effect srv _ _ _ (one_ready _ _)). vm_compute; reflexivity.
Defined.

Lemma VerifyKey_answer_consistent_witness :
  runs demo_verify_one (demo_inputs allow) demo_one (fun l _ r =>
    match r with
    | Ok v => apikeyv1.VerifyKeyResponse_Valid v = true <->
        apikeyv1.VerifyKeyResponse_Result v = apikeyv1.VERIFY_RESULT_VALID
    | Err st => (status_code st = Internal /\ st_faults) \/
        (status_code st = FailedPrecondition /\ rl srv = None) \/
        (status_code st = Unavailable /\ exists r k err, consumed (demo_verify "sk_one") r k (Err err) ∈ l)
    end).
Proof.
  refine (VerifyKey_answer_consistent srv _ _ _ (one_ready _ _)). vm_compute; reflexivity.
Defined.

Lemma CreateKey_correct_witness :
  is_Ok <$> demo_answer (CreateKey srv demo_create) allow demo_one = Some true /\
  runs (CreateKey srv demo_create) (demo_inputs allow) demo_one
    (fun l A' r => CreateKey_spec demo_create l (st_abs demo_one) A' r).
Proof.
  split; [vm_compute; reflexivity|].
  refine (CreateKey_correct srv _ _ _ (one_ready _ _) _); [vm_compute; reflexivity|done].
Defined.

Lemma RotateKey_correct_witness :
  is_Ok <$> demo_answer (RotateKey (Timestamp := Z) srv demo_rotate) allow demo_one = Some true /\
  runs (RotateKey (Timestamp := Z) srv demo_rotate) (demo_inputs allow) demo_one
    (fun l A' r => RotateKey_spec demo_rotate l (st_abs demo_one) A' r).
Proof.
  split; [vm_compute; reflexivity|].
  refine (RotateKey_correct srv _ _ _ (one_ready _ _)). vm_compute; reflexivity.
Defined.

Lemma RevokeKey_correct_witness :
  runs (RevokeKey srv demo_revoke) (demo_inputs allow) demo_one
    (fun _ A' r => RevokeKey_spec demo_revoke (st_abs demo_one) A' r).
Proof. refine (RevokeKey_correct srv _ _ _ (one_ready _ _)). vm_compute; reflexivity. Defined.

Lemma ListKeys_correct_witness :
  runs (ListKeys (Timestamp := Z) srv demo_list) (demo_inputs allow) demo_one
    (fun _ A' r => ListKeys_spec demo_list (st_abs demo_one) A' r).
Proof.
  refine (ListKeys_correct srv _ _ _ (one_ready _ _) _); [vm_compute; reflexivity|done].
Defined.

(** A clock that stays before 1100, a limiter that allows everything, and a key with an
    expiry and limits. *)
Definition demo_early (n : nat) : SrvInp memory.Inp unit := demo_inputs allow (n `min` 20)%nat.

Definition limited_srv : Server unit unit unit := demo_server (Some tt).

Definition demo_create_limited : option (apikeyv1.CreateKeyRequest Z) :=
  Some (apikeyv1.mkCreateKeyRequest "api_2" "bob" "deploy" (Some ["read"])
    (Some [Some (apikeyv1.mkLimitRef "rps" "user")]) (Some 1100) 3 None).

Lemma demo_lets_pass refs : lets_pass limited_srv demo_early (Some 1100) refs.
Proof.
  split.
  - intros n t [= <-]. cbn. lia.
  - right. split; [done|]. intros. eexists. split; [reflexivity|].
    intros d Hd. by apply list_elem_of_singleton in Hd as ->.
Qed.

Definition early_answer {R} (p : prog (SrvE unit unit) R) (m : memory.Store) : option R :=
  snd <$> run (@srv_handle memory.Store memory.Inp memory_impl unit unit) p demo_early 0 m.

Lemma early_ready {R} (p : prog (SrvE unit unit) R) m :
  inv m -> inputs_check p demo_early 0 m = true -> ready p demo_early m.
Proof. intros Hi Hc. split; [done|by apply memory_wf|by apply inputs_check_ok]. Qed.

Definition is_valid_answer (v : option (result status apikeyv1.VerifyKeyResponse)) : bool :=
  match v with Some (Ok v) => apikeyv1.VerifyKeyResponse_Valid v | _ => false end.

Lemma issued_key_verifies_witness :
  (is_valid_answer ∘ snd) <$> early_answer (create_then_verify limited_srv demo_create_limited (Some ["read"])) demo_one
    = Some true /\
  runs (create_then_verify limited_srv demo_create_limited (Some ["read"])) demo_early demo_one (fun _ _ cv =>
    forall resp, cv.1 = Ok resp -> exists k v, cv.2 = Some v /\
      apikeyv1.CreateKeyResponse_Key resp = Some (keyToProto k) /\ (faulted v \/ is_valid_for k v)).
Proof.
  split; [vm_compute; reflexivity|].
  refine (issued_key_verifies limited_srv demo_create_limited (Some ["read"]) _ _ (early_ready _ _ _ _) _ _ (demo_lets_pass _));
    [by apply demo_store_inv|vm_compute; reflexivity|by repeat constructor|by intros p].
Defined.

Lemma rotation_forgets_witness :
  snd <$> demo_answer (rotate_then_verify (Timestamp := Z) srv demo_rotate (Some "sk_one") None) allow demo_one
    = Some (Some (Ok notFound)) /\
  runs (rotate_then_verify (Timestamp := Z) srv demo_rotate (Some "sk_one") None) (demo_inputs allow) demo_one
    (fun _ _ => forgotten "sk_one").
Proof.
  split; [vm_compute; reflexivity|].
  refine (rotation_forgets srv _ _ _ _ _ (demo_stored None 1 None) (one_ready _ _) _ _);
    vm_compute; reflexivity.
Defined.

Abbreviation demo_limited_one := (demo_store (Some 1100) 1 demo_limits).

Lemma rotation_keeps_key_witness :
  (is_valid_answer ∘ snd) <$> early_answer (rotate_then_verify (Timestamp := Z) limited_srv demo_rotate None (Some ["read"]))
    demo_limited_one = Some true /\
  runs (rotate_then_verify (Timestamp := Z) limited_srv demo_rotate None (Some ["read"])) demo_early demo_limited_one
    (fun _ _ cv => forall resp, cv.1 = Ok resp -> exists k v, cv.2 = Some v /\
      rehashed demo_rotate resp (demo_stored (Some 1100) 1 demo_limits) k /\ (faulted v \/ is_valid_for k v)).
Proof.
  split; [vm_compute; reflexivity|].
  refine (rotation_keeps_key limited_srv demo_rotate (Some ["read"]) _ _ (demo_stored (Some 1100) 1 demo_limits) (early_ready _ _ _ _) _ _ _ _
    (demo_lets_pass _)); [by apply demo_store_inv|vm_compute; reflexivity|vm_compute; reflexivity|done|done|].
  intros p Hp. apply list_elem_of_singleton in Hp as ->. left.
Defined.

Lemma reads_correct_witness :
  runs (GetKey (Timestamp := Z) srv demo_get) (demo_inputs allow) demo_one
    (fun _ A' r => GetKey_spec demo_get (st_abs demo_one) A' r).
Proof.
  refine (proj1 (reads_correct srv (demo_inputs allow) demo_one demo_get None None) (one_ready _ _)).
  vm_compute; reflexivity.
Defined.

Definition demo_new_api : option apikeyv1.CreateApiRequest :=
  Some (apikeyv1.mkCreateApiRequest "ws_1" "voice" "vo_" None).

Lemma creations_correct_witness :
  is_Ok <$> demo_answer (CreateApi (Timestamp := Z) srv demo_new_api) allow demo_one = Some true /\
  runs (CreateApi (Timestamp := Z) srv demo_new_api) (demo_inputs allow) demo_one
    (fun _ A' r => CreateApi_spec demo_new_api (st_abs demo_one) A' r).
Proof.
  split; [vm_compute; reflexivity|].
  refine (proj2 (creations_correct srv (demo_inputs allow) demo_one None demo_new_api) (one_ready _ _) _);
    [vm_compute; reflexivity|done].
Defined.
