(* ===== verification/MemoryTheorems.v ===== *)
(** * MemoryTheorems: the theorems about the in-process driver

    Refinement of the abstract store without panics, listing independent of the
    iteration order of Go maps and complete across pages, and the exact behaviour
    of the counter of uses. *)

From S2P Require Import Prelude Effects GoSort Store StoreSpec StoreFacts Crypto Keymat Memory MemoryProps Server ServerLogic Rpc Interleaving Demo.
Import memory.

(** ** Pages *)

Definition with_token (token : string) (opts : ListKeysOpts) : ListKeysOpts :=
  mkListKeysOpts (ListKeysOpts_APIID opts) (ListKeysOpts_OwnerPrincipalID opts)
    (ListKeysOpts_PageSize opts) token.

(** A client that follows the page tokens until none is left. *)
Fixpoint list_all (fuel : nat) (opts : ListKeysOpts) (s : Store) : option (list Key) :=
  match fuel with
  | O => None
  | S fuel =>
      match ListKeys opts s with
      | Some (s', Ok lr) =>
          if bool_decide (ListKeysResult_NextPageToken lr = EmptyString)
          then Some (ListKeysResult_Keys lr)
          else app (ListKeysResult_Keys lr) <$>
                 list_all fuel (with_token (ListKeysResult_NextPageToken lr) opts) s'
      | _ => None
      end
  end.

Lemma matching_ids_token token opts entries :
  matching_ids (with_token token opts) entries = matching_ids opts entries.
Proof. induction entries as [|[id' k] rest IH]; simpl; [done|]. by rewrite IH. Qed.

(** The token of a listed id starts the page after it. *)
Lemma page_start_at ids j u :
  StronglySorted str_lt ids -> ids !! j = Some u -> u <> EmptyString ->
  page_start ids u = Z.of_nat j + 1.
Proof.
  intros Hs Hj Hu. unfold page_start. rewrite bool_decide_eq_false_2 by done.
  destruct (SearchStrings_spec ids u Hs) as (Hlen & Hlo & Hhi).
  set (p := SearchStrings ids u) in *.
  assert (p = j) as ->.
  { destruct (Nat.lt_trichotomy p j) as [Hlt|[|Hlt]]; [|done|].
    - destruct (ids !! p) as [z|] eqn:Hz; [|apply lookup_ge_None in Hz; apply lookup_lt_Some in Hj; lia].
      assert (Hzu : str_lt z u) by (by apply (StronglySorted_lookup_lt _ ids p j)).
      destruct (str_le_not_lt z u); [by apply (Hhi p)|done].
    - assert (Hle : str_le u u /\ u <> u) by (apply (Hlo j u); done). by destruct Hle. }
  rewrite bool_decide_eq_true_2 by (by eapply lookup_lt_Some). by rewrite bool_decide_eq_true_2.
Qed.

Section Pages.
Variable (s : Store) (opts : ListKeysOpts).
Hypothesis (Hsize : Z.of_nat (size (keys s)) < 2 ^ 62).
Hypothesis (Hps : int32_range (ListKeysOpts_PageSize opts)).
Hypothesis (Hid : keys s !! EmptyString = None).

Abbreviation ids := (sort_Strings (matching_ids opts (map_to_list (keys s)))).
Abbreviation n := (effective_page_size (ListKeysOpts_PageSize opts)).
Abbreviation out := (fun id' => cloneKey (default zeroKey (keys s !! id'))).

Lemma ids_sorted : StronglySorted str_lt ids.
Proof. apply sort_Strings_sorted, matching_ids_nodup. Qed.

Lemma ids_length : (length ids <= size (keys s))%nat.
Proof. rewrite (sort_Strings_perm _). apply matching_ids_length. Qed.

Lemma ids_elem id' : id' ∈ ids <-> exists k, keys s !! id' = Some k /\ key_matches opts k.
Proof. rewrite (sort_Strings_perm _). apply matching_ids_elem. Qed.

Lemma ids_nonempty : EmptyString ∉ ids.
Proof. rewrite ids_elem. intros (k & Hk & _). congruence. Qed.

Lemma page_positive : (0 < n)%nat.
Proof. unfold effective_page_size. destruct (Z.leb_spec (ListKeysOpts_PageSize opts) 0); lia. Qed.

Lemma ListKeys_page token :
  ListKeys (with_token token opts) s =
  let rest := drop (Z.to_nat (page_start ids token)) ids in
  Some (s, Ok (mkListKeysResult (out <$> take n rest) (next_token n rest))).
Proof.
  unfold ListKeys. rewrite list_from_page; rewrite ?matching_ids_token; try done.
  - apply ids_sorted.
  - pose proof ids_length. lia.
Qed.

(** From any token the pages are the ids after it, in order. *)
Lemma list_all_from fuel token :
  let rest := drop (Z.to_nat (page_start ids token)) ids in
  (length rest < fuel)%nat -> list_all fuel (with_token token opts) s = Some (out <$> rest).
Proof.
  revert token. induction fuel as [|fuel IH]; intros token rest Hf; [lia|].
  cbn [list_all]. rewrite ListKeys_page. fold rest. cbn [ListKeysResult_Keys ListKeysResult_NextPageToken].
  pose proof page_positive as Hn. unfold next_token.
  destruct (decide (n < length rest)%nat) as [Hlt|Hge].
  2: { rewrite bool_decide_eq_true_2 by done. by rewrite take_ge by lia. }
  rewrite last_take_index by lia.
  destruct (rest !! (n - 1)%nat) as [u|] eqn:Hu; [|apply lookup_ge_None in Hu; lia].
  pose proof Hu as Hj. unfold rest in Hj. rewrite lookup_drop in Hj.
  assert (Hne : u <> EmptyString).
  { intros ->. apply ids_nonempty. by eapply list_elem_of_lookup_2. }
  cbn [default]. rewrite bool_decide_eq_false_2 by done.
  assert (Hnext : drop (Z.to_nat (page_start ids u)) ids = drop n rest).
  { rewrite (page_start_at _ _ _ ids_sorted Hj Hne). unfold rest. rewrite drop_drop. f_equal. lia. }
  change (with_token (id u) (with_token token opts)) with (with_token u opts).
  rewrite IH; rewrite Hnext; [|rewrite length_drop; lia].
  cbn. by rewrite <- fmap_app, take_drop.
Qed.
End Pages.

(** ** Theorems *)

(** C25. The driver refines the abstract store.  Every method, called with a fresh
    identifier on a well-formed state, returns without a panic (no slice bound, no
    index is out of range), keeps the state well formed and answers and changes the
    state as the contract of the interface says: instants are written as the one
    reading of the clock, and a revoked key that is revoked again is left alone. *)
Theorem memory_refines X (e : StoreE X) i s :
  inv s -> input_ok i s -> event_ok e ->
  exists s' x, handle X e i s = Some (s', x) /\ inv s' /\ store_spec id str_le (eq (now i)) False e (abs s) x (abs s').
Proof.
  intros Hi Ho He. destruct (handle_refines X e i s Hi Ho He) as (s' & x & ? & ? & [?|[[] _]]).
  by exists s', x.
Qed.

Lemma memory_refines_witness :
  exists s' x, handle _ (DecrementRemainingUsesE "key_3") (demo_inp 40 "4") (demo_store None 1 None) = Some (s', x) /\
    inv s' /\ store_spec id str_le (eq (now (demo_inp 40 "4"))) False (DecrementRemainingUsesE "key_3") (abs (demo_store None 1 None)) x (abs s').
Proof.
  refine (memory_refines _ (DecrementRemainingUsesE "key_3") (demo_inp 40 "4") (demo_store None 1 None) _ _ _);
    [by apply demo_store_inv|by_eval|done].
Defined.

(** The order in which Go ranges over the map does not matter: on any order of
    the entries [ListKeys] gives the same page, token and panics. *)
Theorem ListKeys_order_irrelevant entries opts s :
  entries ≡ₚ map_to_list (keys s) ->
  list_from entries opts s = list_from (map_to_list (keys s)) opts s.
Proof.
  intros Hp. unfold list_from.
  by rewrite (sort_Strings_perm_eq _ _ (matching_ids_perm opts _ _ Hp)).
Qed.

Lemma ListKeys_order_irrelevant_witness :
  let s := demo_store None 1 None in
  list_from (reverse (map_to_list (keys s))) (mkListKeysOpts "api_2" EmptyString 1 EmptyString) s =
  list_from (map_to_list (keys s)) (mkListKeysOpts "api_2" EmptyString 1 EmptyString) s.
Proof. intros s. refine (ListKeys_order_irrelevant _ _ s _). apply reverse_Permutation. Defined.

(** C26. Pagination is complete.  Following the page tokens from the first page ends
    and lists every matching key exactly once, in increasing order of identifier,
    whatever the page size. *)
Theorem list_all_complete fuel opts s :
  Z.of_nat (size (keys s)) < 2 ^ 62 -> int32_range (ListKeysOpts_PageSize opts) ->
  keys s !! EmptyString = None -> inv s -> (size (keys s) < fuel)%nat ->
  exists ks, list_all fuel (with_token EmptyString opts) s = Some ks /\
    StronglySorted str_lt (Key_KeyID <$> ks) /\
    forall k, k ∈ ks <-> exists id' k0, keys s !! id' = Some k0 /\ key_matches opts k0 /\ k = cloneKey k0.
Proof.
  intros Hsize Hps Hid Hinv Hfuel. pose proof (ids_length s opts) as Hlen.
  eexists. split; [apply list_all_from; try done; rewrite length_drop; lia|].
  change (page_start _ EmptyString) with 0. rewrite drop_0. split.
  - rewrite <- list_fmap_compose. erewrite list_fmap_ext; [rewrite list_fmap_id; apply ids_sorted|].
    intros j id' Hj. apply list_elem_of_lookup_2, ids_elem in Hj as (k & Hk & _). cbn.
    rewrite Hk. by destruct (inv_key _ Hinv _ _ Hk).
  - intros k. rewrite list_elem_of_fmap. split.
    + intros (id' & -> & (k0 & Hk & Hm)%ids_elem). exists id', k0. by rewrite Hk.
    + intros (id' & k0 & Hk & Hm & ->). exists id'. rewrite Hk. split; [done|].
      apply ids_elem. eauto.
Qed.

(** Three keys, in pages of one. *)
Definition demo_three : Store :=
  (CreateKey (demo_key "sk_three" None 1 None) (demo_inp 50 "5")
     (CreateKey (demo_key "sk_two" None 1 None) (demo_inp 40 "4") (demo_store None 1 None)).1).1.

Lemma demo_three_inv : inv demo_three.
Proof.
  unfold demo_three. apply CreateKey_meets; [|by_eval|done].
  apply CreateKey_meets; [by apply demo_store_inv|by_eval|done].
Qed.

Definition demo_pages : ListKeysOpts := mkListKeysOpts "api_2" EmptyString 1 EmptyString.

Lemma list_all_complete_witness :
  option_map (map Key_KeyID) (list_all 4 demo_pages demo_three) = Some ["key_3"; "key_4"; "key_5"] /\
  exists ks, list_all 4 (with_token EmptyString demo_pages) demo_three = Some ks /\
    StronglySorted str_lt (Key_KeyID <$> ks) /\
    forall k, k ∈ ks <-> exists id' k0, keys demo_three !! id' = Some k0 /\ key_matches demo_pages k0 /\ k = cloneKey k0.
Proof.
  split; [vm_compute; reflexivity|].
  refine (list_all_complete 4 demo_pages demo_three _ _ _ demo_three_inv _); [by_eval|done|by_eval|by_eval].
Defined.

(** C27. The counter of uses never goes below zero and never wraps.  Over the
    whole range of [int64], a counter that is negative is unlimited and stays, at
    zero the call fails with [ErrDepleted] and changes nothing, and above zero it
    goes down by exactly one; a missing key is [ErrNotFound]. *)
Theorem DecrementRemainingUses_exact id' i s :
  inv s ->
  match keys s !! id' with
  | None => DecrementRemainingUses id' i s = (s, (0, Some ErrNotFound))
  | Some k =>
      let n := Key_RemainingUses k in
      (n < 0 -> DecrementRemainingUses id' i s = (s, (-1, None))) /\
      (n = 0 -> DecrementRemainingUses id' i s = (s, (0, Some ErrDepleted))) /\
      (0 < n -> DecrementRemainingUses id' i s =
        (put_key id' (Key_set_RemainingUses (n - 1) (now i) k) s, (n - 1, None)) /\ 0 <= n - 1)
  end.
Proof.
  intros Hi. unfold DecrementRemainingUses. destruct (keys s !! id') as [k|] eqn:Hk; [|done].
  destruct (inv_key _ Hi _ _ Hk) as (_ & _ & Hr). cbn zeta.
  destruct (Z.ltb_spec (Key_RemainingUses k) 0); [split_and!; intros; lia || done|].
  destruct (Z.eqb_spec (Key_RemainingUses k) 0); [split_and!; intros; lia || done|].
  split_and!; intros; [lia|lia|]. split; [|lia].
  rewrite wrap64_id; [done|]. unfold int64_range, minInt64, maxInt64 in *. lia.
Qed.

Lemma DecrementRemainingUses_exact_witness :
  match keys (demo_store None 1 None) !! "key_3" with
  | None => DecrementRemainingUses "key_3" (demo_inp 40 "4") (demo_store None 1 None) =
      (demo_store None 1 None, (0, Some ErrNotFound))
  | Some k =>
      let n := Key_RemainingUses k in
      (n < 0 -> DecrementRemainingUses "key_3" (demo_inp 40 "4") (demo_store None 1 None) =
        (demo_store None 1 None, (-1, None))) /\
      (n = 0 -> DecrementRemainingUses "key_3" (demo_inp 40 "4") (demo_store None 1 None) =
        (demo_store None 1 None, (0, Some ErrDepleted))) /\
      (0 < n -> DecrementRemainingUses "key_3" (demo_inp 40 "4") (demo_store None 1 None) =
        (put_key "key_3" (Key_set_RemainingUses (n - 1) (now (demo_inp 40 "4")) k) (demo_store None 1 None),
         (n - 1, None)) /\ 0 <= n - 1)
  end.
Proof.
  refine (DecrementRemainingUses_exact "key_3" (demo_inp 40 "4") (demo_store None 1 None) _).
  by apply demo_store_inv.
Defined.
