(* ===== verification/PostgresTheorems.v ===== *)
(** * PostgresTheorems: the theorems about the PostgreSQL driver

    Refinement of the abstract store with faults of the connection, the charging of
    uses when the statements of any calls interleave, and the connections that
    opening the store leaves behind. *)

From S2P Require Import Prelude Effects GoSort GoText Store StoreSpec StoreFacts Postgres PostgresProps History.
Import postgres.

(** ** Calls whose statements interleave *)

Inductive call : Type :=
| Call (X : Type) (e : StoreE X).
Arguments Call {X} e.

(** A call that was answered. *)
Inductive reply : Type :=
| Reply {X : Type} (e : StoreE X) (x : X).

Definition issue (c : call) : prog DbE (reply) :=
  match c with Call e => bind (fun x => Ret (Reply e x)) (method _ e) end.

(** A use of [id] was granted to the caller. *)
Definition is_grant (id : string) (a : reply) : bool :=
  match a with
  | Reply (DecrementRemainingUsesE id') (_, None) => bool_decide (id' = id)
  | _ => false
  end.

Definition granted (id : string) (p : prog DbE (reply)) : nat :=
  match p with
  | Ret a => if is_grant id a then 1 else 0
  | Vis _ _ => 0
  end.

Lemma is_grant_reports id X (e : StoreE X) x : is_grant id (Reply e x) = reports_charge id e x.
Proof. destruct e; try done. cbn. destruct x as [n [err|]]; by rewrite ?andb_false_r, ?andb_true_r. Qed.

Lemma issue_exact id c :
  wp (issue c) (fun l a => no_negative id l -> charged id l = if is_grant id a then 1%nat else 0%nat).
Proof.
  destruct c as [X e]. cbn [issue]. apply wp_bind. eapply wp_mono; [|apply (method_exact id)].
  intros l a Hl. cbn [wp]. rewrite app_nil_r. intros Hn. by rewrite (Hl Hn), is_grant_reports.
Qed.

Section Pool.
Context `{P : PgParams}.
Variable (calls : list call) (db : DB) (sched : list (nat * DbInp)) (id : string) (r : KeyRow).
Variable (c : config DbE DB (reply)).
Hypothesis (Hk : keys db !! id = Some r) (Hu : 0 <= key_remaining_uses r).
Hypothesis (Hrun : run_schedule db_handle sched (start (issue <$> calls) db) = Some c).

(** No statement of the schedule fails for a reason outside the schema. *)
Definition quiet : Prop := Forall (fun ti => di_fault ti.2 = None) sched.

Abbreviation scheduled := (fun (_ : list (event DbE)) (X : Ans) (_ : DbE X) i => i ∈ sched.*2).

Lemma pool_history : history scheduled db (snd <$> log c) (world c).
Proof using Hrun.
  revert Hrun. apply (run_schedule_ind db_handle (fun _ ti => ti.2 ∈ sched.*2)
    (fun c => history scheduled db (snd <$> log c) (world c))); [| |constructor].
  - intros c1 [t i] c2 Hh Ho (X & e & k & db2 & x & _ & Hs & ->)%cstep_inv. cbn in *.
    rewrite fmap_app. by eapply history_step.
  - intros pre ti post cm Hs _. rewrite Hs, fmap_app. apply elem_of_app. right. left.
Qed.

Lemma pool_balance : exists r', keys (world c) !! id = Some r' /\ 0 <= key_remaining_uses r' /\
  no_negative id (snd <$> log c) /\
  Z.of_nat (charged id (snd <$> log c)) + key_remaining_uses r' <= key_remaining_uses r /\
  (quiet -> Z.of_nat (charged id (snd <$> log c)) + key_remaining_uses r' = key_remaining_uses r).
Proof using Hk Hu Hrun.
  destruct (history_balance _ _ _ id r pool_history Hk Hu) as [(r' & Hk' & Hu' & Hle & Heq) Hn].
  exists r'. split_and!; [done..|]. intros Hq. apply Heq. intros past X e i (ti & -> & Hin)%list_elem_of_fmap.
  unfold quiet in Hq. rewrite Forall_forall in Hq. by apply Hq.
Qed.

Lemma pool_exact t a :
  pool c !! t = Some (Ret a) -> charged id (thread_log t (log c)) = granted id (Ret a).
Proof using Hk Hu Hrun.
  intros Hp. destruct pool_balance as (_ & _ & _ & Hn & _).
  destruct (calls !! t) as [cl|] eqn:Hc.
  2: { apply lookup_ge_None in Hc. apply lookup_lt_Some in Hp.
       apply run_schedule_length in Hrun. rewrite length_fmap in Hrun. lia. }
  destruct (run_schedule_follows _ _ _ _ _ t (issue cl) Hrun) as (p & Hp' & Hf).
  { by rewrite list_lookup_fmap, Hc. }
  rewrite Hp in Hp'. injection Hp' as <-. apply (wp_follows _ _ _ _ (issue_exact id cl) Hf).
  apply Forall_forall. intros ev Hin%thread_log_elem. unfold no_negative in Hn.
  rewrite Forall_forall in Hn. apply Hn, list_elem_of_fmap. by exists (t, ev).
Qed.

Lemma charged_threads :
  charged id (snd <$> log c) = sum_list_with (fun t => charged id (thread_log t (log c))) (seq 0 (length (pool c))).
Proof using Hrun.
  unfold charged. apply thread_sum. rewrite (run_schedule_length _ _ _ _ _ Hrun). by eapply run_schedule_threads.
Qed.
End Pool.

(** The counter of uses is charged atomically.  However the statements of any
    calls interleave, and whatever statements fail before or after they took effect,
    the uses granted to callers plus the uses left never exceed the uses the key had,
    and the counter never goes below zero; without failures, once every call has
    answered, they are equal. *)
Theorem uses_charged_once `{P : PgParams} calls db sched c id r :
  keys db !! id = Some r -> 0 <= key_remaining_uses r ->
  run_schedule db_handle sched (start (issue <$> calls) db) = Some c ->
  exists r', keys (world c) !! id = Some r' /\ 0 <= key_remaining_uses r' /\
    Z.of_nat (sum_list_with (granted id) (pool c)) + key_remaining_uses r' <= key_remaining_uses r /\
    (quiet sched -> (forall t p, pool c !! t = Some p -> exists a, p = Ret a) ->
      Z.of_nat (sum_list_with (granted id) (pool c)) + key_remaining_uses r' = key_remaining_uses r).
Proof.
  intros Hk Hu Hrun. destruct (pool_balance calls db sched id r c Hk Hu Hrun) as (r' & Hk' & Hu' & _ & Hle & Heq).
  exists r'. split_and!; [done|done|..].
  - assert (sum_list_with (granted id) (pool c) <= charged id (snd <$> log c))%nat; [|lia].
    rewrite (charged_threads calls db sched) by done. apply sum_by_index_le. intros t [a|] Hp; [|cbn; lia].
    by rewrite (pool_exact calls db sched id r c Hk Hu Hrun t a Hp).
  - intros Hq Ha. rewrite <- (Heq Hq). do 2 f_equal.
    rewrite (charged_threads calls db sched) by done. apply sum_by_index_eq. intros t p Hp.
    destruct (Ha t p Hp) as [a ->]. by rewrite (pool_exact calls db sched id r c Hk Hu Hrun t a Hp).
Qed.

Lemma str_le_order : TotalOrder str_le.
Proof.
  split; [apply _|]. intros a b. unfold strict. destruct (decide (a = b)) as [->|Hne]; [by right; left|].
  destruct (total str_le a b) as [H|H]; [left|right; right];
    (split; [done|]); intros H'; by destruct Hne; apply (anti_symm str_le).
Qed.

(** Two clients race for the last use of a key. *)
#[local] Instance demo_pg : PgParams.
Proof.
  refine {| tstz := fun t => t / 1000 * 1000; collate := str_le; collate_dec := _; collate_order := str_le_order;
    jsonb := fun j => j |}.
  - intros t. by rewrite Z.div_mul by lia.
  - intros l _. by exists l.
  - intros l. by rewrite list_fmap_id.
  - done.
Defined.

Definition demo_row (uses : Z) : KeyRow :=
  mkKeyRow "key_3" "api_2" "ws_1" "alice" "ci" [Byte.x01] ["read"] JNull None uses true 0 0 None (JObject []).

Definition demo_db (uses : Z) : DB :=
  mkDB {["ws_1" := mkWorkspaceRow "ws_1" "acme" "alice" 0 0 (JObject [])]}
    {["api_2" := mkApiRow "api_2" "ws_1" "prod" "sk_" 0 0 (JObject [])]} {["key_3" := demo_row uses]}.

Definition demo_input (f : option (error * bool)) : DbInp := mkDbInp 1500 "4" f.

Definition demo_calls : list call :=
  [Call (DecrementRemainingUsesE "key_3"); Call (RevokeKeyE "key_3"); Call (DecrementRemainingUsesE "key_3")].

Definition demo_sched : list (nat * DbInp) := (., demo_input None) <$> [0; 2; 1; 0; 2; 1; 2]%nat.

Definition demo_end : config DbE DB (reply) :=
  let c := start (issue <$> demo_calls) (demo_db 1) in default c (run_schedule db_handle demo_sched c).

Lemma uses_charged_once_witness :
  sum_list_with (granted "key_3") (pool demo_end) = 1%nat /\
  exists r', keys (world demo_end) !! "key_3" = Some r' /\ 0 <= key_remaining_uses r' /\
    Z.of_nat (sum_list_with (granted "key_3") (pool demo_end)) + key_remaining_uses r' <=
      key_remaining_uses (demo_row 1) /\
    (quiet demo_sched -> (forall t p, pool demo_end !! t = Some p -> exists a, p = Ret a) ->
      Z.of_nat (sum_list_with (granted "key_3") (pool demo_end)) + key_remaining_uses r' =
      key_remaining_uses (demo_row 1)).
Proof.
  split; [vm_compute; reflexivity|].
  refine (uses_charged_once demo_calls (demo_db 1) demo_sched demo_end "key_3" (demo_row 1) _ _ _);
    [vm_compute; reflexivity|by_eval|vm_compute; reflexivity].
Defined.

(** C28. The driver refines the abstract store, but for one departure.  Every method,
    run with fresh identifiers on well-formed tables, ends; its answer and the tables
    after it are what the contract of the interface says, up to the precision of the
    columns and with the instants read from the clock of the call, except that revoking
    a key that is already revoked may rewrite its [updated_at] (store.go promises a
    no-op: [restamps] is [True] here and [False] for the in-memory driver).  When a
    statement fails for a reason outside the schema, or when the hash to be written is
    nil, which the NOT NULL column refuses, the answer may be an error that is none of
    the interface's, and then the call had its whole effect or none. *)
Theorem postgres_refines `{P : PgParams} X (e : StoreE X) ins db :
  inv db -> input_ok ins db -> event_ok e ->
  exists db' x, handle X e ins db = Some (db', x) /\ inv db' /\
    store_contract tstz collate (clock_of ins) True ((exists n, di_fault (ins n) <> None) \/ nil_hash e)
      e (abs db) x (abs db').
Proof.
  intros Hi Ho He. edestruct (method_meets ((exists n, di_fault (ins n) <> None) \/ nil_hash e) X e ins db)
    as ([db' x] & Hh & Hi' & Hc); [done..| |by right|by exists db', x].
  intros n f Hf. left. exists n. by rewrite Hf.
Qed.

Lemma demo_db_inv uses : inv (demo_db uses).
Proof.
  split; intros id r; cbn; intros [<- <-]%lookup_singleton_Some; [done|done|by exists None].
Qed.

Definition demo_rotate : StoreE (res Key) := RotateKeyE "key_3" (Some [Byte.x02]).

(** The connection is lost while the key is read back. *)
Definition demo_lost (n : nat) : DbInp :=
  demo_input (if bool_decide (n = 2%nat) then Some (ErrText "conn closed", false) else None).

Lemma demo_lost_ok uses : input_ok demo_lost (demo_db uses).
Proof.
  intros n. unfold demo_lost. split_and!; [reflexivity..|]. case_bool_decide; [|done]. by split_and!.
Qed.

Lemma postgres_refines_witness :
  exists db' x, handle _ demo_rotate demo_lost (demo_db 1) = Some (db', x) /\ inv db' /\
    store_contract tstz collate (clock_of demo_lost) True
      ((exists n, di_fault (demo_lost n) <> None) \/ nil_hash demo_rotate)
      demo_rotate (abs (demo_db 1)) x (abs db').
Proof.
  refine (postgres_refines _ demo_rotate demo_lost (demo_db 1) (demo_db_inv 1) (demo_lost_ok 1) _). done.
Defined.

(** ** Opening the store *)

(** The answer of a step is a success for [New]. *)
Definition succeeded (ev : event OpenE) : bool :=
  match ev with
  | Ev (ParseConfig _) r | Ev (SqlOpen _) r | Ev MigrateWithInstance r | Ev IofsNew r => is_Ok r
  | Ev MigrateNew r | Ev NewPool r => is_Ok r
  | Ev MigrateUp (Some err) => errors_is err ErrNoChange
  | Ev PoolPing (Some _) => false
  | _ => true
  end.

Definition is_sql_opened (ev : event OpenE) : bool :=
  match ev with Ev (SqlOpen _) r => is_Ok r | _ => false end.
Definition is_sql_closed (ev : event OpenE) : bool :=
  match ev with Ev SqlClose _ => true | _ => false end.
(** The connection of the migrate driver is taken, or given back. *)
Definition is_conn_taken (ev : event OpenE) : bool :=
  match ev with Ev MigrateWithInstance r => is_Ok r | _ => false end.
Definition is_conn_released (ev : event OpenE) : bool :=
  match ev with Ev MigrateClose _ => true | _ => false end.
Definition is_pool_opened (ev : event OpenE) : bool :=
  match ev with Ev NewPool r => is_Ok r | _ => false end.
Definition is_pool_closed (ev : event OpenE) : bool :=
  match ev with Ev PoolClose _ => true | _ => false end.
Definition is_migrated (ev : event OpenE) : bool :=
  match ev with Ev MigrateUp _ => succeeded ev | _ => false end.

Definition is_None {A} (o : option A) : bool := match o with None => true | Some _ => false end.

Lemma migrate_body_log :
  wp migrate_body (fun l err =>
    occurrences is_sql_opened l = 0%nat /\ occurrences is_sql_closed l = 0%nat /\
    occurrences is_pool_opened l = 0%nat /\ occurrences is_pool_closed l = 0%nat /\
    occurrences is_conn_released l = 0%nat /\ (occurrences is_conn_taken l <= 1)%nat /\
    is_None err = forallb succeeded l /\
    (is_None err = true -> occurrences is_migrated l = 1%nat /\ occurrences is_conn_taken l = 1%nat)).
Proof.
  unfold migrate_body, trigger, mbind, prog_bind. cbn [bind wp].
  intros [[]|e1]; cbn [bind wp]; [|by split_and!; auto].
  intros [[]|e2]; cbn [bind wp]; [|by split_and!; auto].
  intros [[]|e3]; cbn [bind wp]; [|by split_and!; auto].
  intros [e4|]; cbn [bind wp]; [|by split_and!; auto].
  unfold occurrences. cbn [negb List.filter is_sql_opened is_sql_closed is_pool_opened is_pool_closed is_migrated
    is_conn_taken is_conn_released forallb succeeded is_Ok andb length].
  destruct (errors_is e4 ErrNoChange); cbn; by split_and!; auto.
Qed.

Lemma RunMigrations_log dsn :
  wp (RunMigrations dsn) (fun l err =>
    occurrences is_sql_opened l = occurrences is_sql_closed l /\
    occurrences is_pool_opened l = 0%nat /\ occurrences is_pool_closed l = 0%nat /\
    occurrences is_conn_released l = 0%nat /\ (occurrences is_conn_taken l <= 1)%nat /\
    is_None err = forallb succeeded l /\
    (is_None err = true -> occurrences is_migrated l = 1%nat /\ occurrences is_conn_taken l = 1%nat)).
Proof.
  unfold RunMigrations, trigger, mbind, prog_bind. cbn [bind wp].
  intros [[]|err]; cbn [bind wp]; [|by split_and!; auto].
  apply wp_bind. eapply wp_mono; [|apply migrate_body_log].
  intros l err (Ho & Hc & Hpo & Hpc & Hcr & Hct & Hs & Hm). cbn [bind wp]. intros x.
  change (?a :: l ++ [?b]) with ([a] ++ l ++ [b]). rewrite !occurrences_app, !forallb_app.
  rewrite Ho, Hc, Hpo, Hpc, Hcr, <- Hs, !andb_true_r. split_and!; try done; [cbn; lia|].
  intros He. destruct (Hm He) as [-> ->]. done.
Qed.

(** C29. What [New] leaves open.  Whatever the libraries answer, the [sql.DB] of the
    migrations is closed exactly as often as it was opened, the pool is left open exactly
    when [New] succeeds, [New] succeeds exactly when every step did, and the pool is
    opened only after the migrations were applied.  The connection that the migrate
    driver checked out of the [sql.DB] is never given back: at most one is taken, and
    every [New] that succeeds leaves exactly one behind. *)
Theorem New_connections dsn :
  wp (New dsn) (fun l r =>
    occurrences is_sql_opened l = occurrences is_sql_closed l /\
    occurrences is_pool_opened l = (occurrences is_pool_closed l + if is_Ok r then 1 else 0)%nat /\
    is_Ok r = forallb succeeded l /\
    (0 < occurrences is_pool_opened l -> occurrences is_migrated l = 1)%nat /\
    occurrences is_conn_released l = 0%nat /\
    (occurrences is_conn_taken l <= 1)%nat /\
    (is_Ok r = true -> occurrences is_conn_taken l = 1%nat)).
Proof.
  unfold New, trigger, mbind, prog_bind. cbn [bind wp].
  intros [[]|err]; cbn [bind wp]; [|by split_and!; cbn; first [done|lia|intros ?%Nat.lt_irrefl]].
  apply wp_bind. eapply wp_mono; [|apply RunMigrations_log].
  intros l [err|] (Ho & Hpo & Hpc & Hcr & Hct & Hs & Hm); cbn [bind wp is_None] in *.
  { change (?a :: l ++ []) with ([a] ++ l ++ []). rewrite !occurrences_app, !forallb_app, Ho, Hpo, Hpc, Hcr, <- Hs.
    split_and!; cbn; first [done|lia|by intros ?%Nat.lt_irrefl]. }
  destruct (Hm eq_refl) as [Hmig Htaken].
  intros [[]|err]; cbn [bind wp]; [|change (?a :: l ++ ?b) with ([a] ++ l ++ b); rewrite !occurrences_app, !forallb_app, Ho, Hpo, Hpc, Hcr, Htaken, <- Hs;
    split_and!; cbn; first [done|lia|by intros ?%Nat.lt_irrefl]].
  intros [err|]; cbn [bind wp]; intros;
    change (?a :: l ++ ?b) with ([a] ++ l ++ b); rewrite !occurrences_app, !forallb_app, Ho, Hpo, Hpc, Hcr, Htaken, <- Hs, Hmig;
    by split_and!.
Qed.
