(* ===== verification/Replicas.v ===== *)
(** * Replicas: processes of the service that share a PostgreSQL database

    Each request is served by a process of its own, with its own clock, limiter and
    entropy; the processes share nothing but the database.  Their SQL statements
    interleave with nothing between them: a handler is not a transaction, nor is a
    method of the driver.  A request is the handler with the driver's methods in place
    of its calls ([inline]), and what the database sees of any number of them is a
    [history] of statements. *)

From S2P Require Import Prelude Effects Store StoreSpec StoreFacts Keymat Apikeyv1 Server ServerLogic Rpc Inline ServerCalls Interleaving Lifecycle Postgres PostgresProps History.
Import keychainserver.

Section Replicas.
Context {Timestamp : Type} `{TimestampPb Timestamp} `{P : PgParams} {St RL Lg : Type}.

Abbreviation E := (SrvE St RL).
Abbreviation F := (sumE E postgres.DbE).
Abbreviation Inp := (SrvInp postgres.DbInp RL).
Abbreviation split := (store_split postgres.method).

(** A statement is answered by the database, the rest by the process's environment. *)
Definition replica_handle (X : Type) (e : F X) (i : Inp) (db : postgres.DB) : option (postgres.DB * X) :=
  match e with
  | inlE e => match outside X e i with Some x => Some (db, x) | None => None end
  | inrE d => postgres.db_handle X d (si_store i) db
  end.

(** A request and the process that serves it. *)
Record job : Type := mkJob {
  job_server : Server St RL Lg;
  job_request : Request Timestamp;
}.

Definition serve_job (j : job) : prog F (Response Timestamp) := inline split (serve (job_server j) (job_request j)).

Definition serve_jobs (jobs : list job) (db : postgres.DB) : config F postgres.DB (Response Timestamp) :=
  start (serve_job <$> jobs) db.

(** ** The calls of a request and its statements *)

Lemma decomposes_charges id (l : list (event E)) l' :
  decomposes split l l' -> no_negative id (db_log l') -> charges id l = charged id (db_log l').
Proof.
  intros Hd. induction Hd as [|X e e' x l l' Hs Hl IH|X e m x lm l l' Hs Hf Hl IH]; [done| |].
  - cbn. intros Hn. rewrite (IH Hn). by destruct e.
  - rewrite db_log_app, db_log_rename. intros [Hn1 Hn2]%Forall_app. destruct e as [st X e| | |]; try done.
    injection Hs as <-. unfold charged. cbn [charges is_charge]. rewrite (IH Hn2), sum_list_with_app.
    fold (charged id lm). by rewrite (wp_follows _ _ _ _ (method_exact id X e) Hf Hn1).
Qed.

(** The statements of a call of the log. *)
Lemma decomposes_statements (l : list (event E)) l' (st : St) X (e : StoreE X) x (Q : list (event postgres.DbE) -> X -> Prop) :
  decomposes split l l' -> @Ev E _ (StoreCall st e) x ∈ l -> wp (postgres.method X e) Q ->
  exists lm, Q lm x /\ forall ev, ev ∈ lm -> ev ∈ db_log l'.
Proof.
  intros Hd Hin Hwp. destruct (decomposes_elem split _ _ _ Hd Hin) as (lm & Hf & Hlm).
  exists lm. split; [by eapply wp_follows|]. intros ev Hev. apply list_elem_of_omap.
  eexists. split; [by apply Hlm|]. by destruct ev.
Qed.

Lemma decomposes_found (l : list (event E)) l' (st : St) h k :
  decomposes split l l' -> @Ev E _ (StoreCall st (GetKeyByHashE h)) (Ok k) ∈ l ->
  exists ev r, ev ∈ db_log l' /\ row_found ev = Some (h, r) /\ postgres.scan_key r = Ok k.
Proof.
  intros Hd Hin. destruct (decomposes_statements _ _ _ _ _ _ _ Hd Hin (GetKeyByHash_found h)) as (lm & Hq & Hlm).
  destruct (Hq k eq_refl) as (ev & r & ? & ? & ?). exists ev, r. auto.
Qed.

Lemma decomposes_lookup (l : list (event E)) l' ev k :
  decomposes split l l' -> ev ∈ l -> looked_up ev = Some k ->
  exists ev' r, ev' ∈ db_log l' /\ row_read ev' = Some r /\ postgres.scan_key r = Ok k.
Proof.
  intros Hd Hin Hk. destruct ev as [X [st Y e| | |] x]; try done. destruct e; try done.
  destruct x as [k'|]; [|done]. injection Hk as ->.
  destruct (decomposes_found _ _ _ _ _ Hd Hin) as (ev' & r & ? & ?%row_found_read & ?). by exists ev', r.
Qed.

Lemma decomposes_api_read (l : list (event E)) l' ev a :
  decomposes split l l' -> ev ∈ l -> api_read ev = Some a ->
  exists ev' r, ev' ∈ db_log l' /\ api_row_read ev' = Some r /\
    API_APIID a = postgres.api_api_id r /\ API_WorkspaceID a = postgres.api_workspace_id r.
Proof.
  intros Hd Hin Hk. destruct ev as [X [st Y e| | |] x]; try done. destruct e; try done.
  destruct x as [k'|]; [|done]. injection Hk as ->.
  destruct (decomposes_statements _ _ _ _ _ _ _ Hd Hin (GetAPI_read id)) as (lm & Hq & Hlm).
  destruct (Hq a eq_refl) as (ev' & r & ? & ? & ?). exists ev', r. auto.
Qed.

Lemma decomposes_acknowledged (l : list (event E)) l' ev id :
  decomposes split l l' -> ev ∈ l -> acknowledges id ev = true -> exists ev', ev' ∈ db_log l' /\ disables id ev' = true.
Proof.
  intros Hd Hin Hk. destruct ev as [X [st Y e| | |] x]; try done. destruct e; try done.
  cbn in Hk. apply andb_true_iff in Hk as [->%bool_decide_eq_true Hr].
  destruct (decomposes_statements _ _ _ _ _ _ _ Hd Hin (RevokeKey_disables id)) as (lm & Hq & Hlm).
  destruct (Hq Hr) as (ev' & ? & ?). eauto.
Qed.

Lemma decomposes_lookups id (Q : postgres.KeyRow -> Prop) (Q' : Key -> Prop) (l : list (event E)) l' :
  (forall r k, postgres.scan_key r = Ok k -> Q r -> Q' k) ->
  decomposes split l l' -> rows_read id Q (db_log l') -> lookups id Q' l.
Proof.
  intros HQ Hd Hr ev k Hin Hk Hid. destruct (decomposes_lookup _ _ _ _ Hd Hin Hk) as (ev' & r & Hin' & Hev & Hs).
  eapply HQ; [done|]. eapply Hr; [done..|]. by destruct (scan_key_columns _ _ Hs) as [<- _].
Qed.

(** ** What a request does *)

Definition counted_row (r : postgres.KeyRow) : Prop := 0 <= postgres.key_remaining_uses r.

Lemma job_exact j id :
  wp (serve_job j) (fun l a => no_negative id (db_log l) -> rows_read id counted_row (db_log l) ->
    charged id (db_log l) = valid_count id a).
Proof.
  apply wp_inline. eapply wp_mono; [|apply (serve_exact _ _ id)]. intros l a Hx l' Hd Hn Hr.
  rewrite <- (decomposes_charges id l l' Hd Hn). apply Hx. eapply decomposes_lookups; [|done..].
  intros r k (_ & _ & _ & Hu & _)%scan_key_columns Hc. unfold counted. by rewrite Hu.
Qed.

Lemma job_disabled j id :
  wp (serve_job j) (fun l a => rows_read id disabled_row (db_log l) -> valid_for id a = false).
Proof.
  apply wp_inline. eapply wp_mono; [|apply (serve_enabled _ _ id)]. intros l a Hx l' Hd Hr.
  apply Hx. eapply decomposes_lookups; [|done..].
  intros r k (_ & _ & _ & _ & He)%scan_key_columns Hdis. by rewrite He.
Qed.

(** A VALID answer rests on a lookup of the plaintext's hash. *)
Lemma serve_found (s : Server St RL Lg) q id :
  wp (serve s (RqVerifyKey q)) (fun l a => valid_for (Timestamp := Timestamp) id a = true -> exists k,
    @Ev E _ (StoreCall (store s) (GetKeyByHashE (Some (keymat.Hash (apikeyv1.VerifyKeyRequest_GetPlaintext q))))) (Ok k) ∈ l /\
    Key_KeyID k = id).
Proof.
  apply wp_bind. unfold VerifyKey. destruct (keymat.Validate _ _); [done|]. cbn.
  intros [k|err]; [|by destruct (errors_is err ErrNotFound)].
  eapply wp_mono; [|apply (check_key_enabled (Timestamp := Timestamp) _ id)]. intros l a He Hv. exists k.
  destruct (He Hv) as [Hid _]. split; [left|done].
Qed.

Lemma job_found j id :
  wp (serve_job j) (fun l a => match job_request j with
    | RqVerifyKey q => valid_for id a = true -> exists ev r, ev ∈ db_log l /\
        row_found ev = Some (Some (keymat.Hash (apikeyv1.VerifyKeyRequest_GetPlaintext q)), r) /\ postgres.key_key_id r = id
    | _ => True
    end).
Proof.
  apply wp_inline. destruct (job_request j) as [| | | | | | | | |q]; try (apply wp_always; by intros).
  eapply wp_mono; [|apply (serve_found _ q id)]. intros l a Hx l' Hd Hv. destruct (Hx Hv) as (k & Hin & Hid).
  destruct (decomposes_found _ _ _ _ _ Hd Hin) as (ev & r & ? & ? & Hs). exists ev, r.
  split_and!; [done..|]. by destruct (scan_key_columns _ _ Hs) as [<- _].
Qed.

Lemma job_acknowledged j :
  wp (serve_job j) (fun l a => match job_request j, a with
    | RqRevokeKey q, RsRevokeKey (Ok _) =>
        exists ev, ev ∈ db_log l /\ disables (apikeyv1.RevokeKeyRequest_GetKeyId q) ev = true
    | _, _ => True
    end).
Proof.
  apply wp_inline. eapply wp_mono; [|apply revoke_acknowledged]. intros l a Hx l' Hd.
  destruct (job_request j), a as [| | | | |[ack|]| | | |]; try done. destruct Hx as (ev & Hin & Ha).
  by eapply decomposes_acknowledged.
Qed.

(** An answer that names a key names the row that the plaintext was found in. *)
Lemma job_names j :
  wp (serve_job j) (fun l a => match a with
    | RsVerifyKey (Ok v) => exists q, job_request j = RqVerifyKey q /\ (v = notFound \/
        exists ev r, ev ∈ db_log l /\
        row_found ev = Some (Some (keymat.Hash (apikeyv1.VerifyKeyRequest_GetPlaintext q)), r) /\
        apikeyv1.VerifyKeyResponse_KeyId v = postgres.key_key_id r /\
        apikeyv1.VerifyKeyResponse_ApiId v = postgres.key_api_id r /\
        apikeyv1.VerifyKeyResponse_WorkspaceId v = postgres.key_workspace_id r)
    | _ => True
    end).
Proof.
  apply wp_inline. eapply wp_mono; [|apply serve_names]. intros l a Hx l' Hd.
  destruct a as [| | | | | | | | |[v|]]; try done.
  destruct Hx as (q & Hq & [->|(k & Hin & Hi & Ha & Hw)]); exists q; (split; [done|]); [by left|right].
  destruct (decomposes_found _ _ _ _ _ Hd Hin) as (ev & r & Hin' & Hev & (Hs1 & Hs2 & Hs3 & _)%scan_key_columns).
  exists ev, r. split_and!; [done|done|congruence..].
Qed.

(** A request inserts keys for APIs it has read, and its own events are answered. *)
Definition lawful (past : list (event F)) (X : Ans) (e : F X) : Prop :=
  match e with
  | inlE e => forall i : Inp, is_Some (outside X e i)
  | inrE d => justified_insert (db_log past) X d
  end.

Lemma lawful_statements {A} past (m : prog postgres.DbE A) :
  emits justified_insert (db_log past) m -> emits lawful past (translate (fun X : Ans => @inrE E postgres.DbE X) m).
Proof.
  revert past. induction m as [a|X d k IH]; cbn; intros past; [done|]. intros [Hj Hk]. split; [done|].
  intros x. apply IH. rewrite db_log_app. apply Hk.
Qed.

Lemma job_lawful j : emits lawful [] (serve_job j).
Proof.
  eapply (emits_inline split (justified (job_server j))); [| |constructor|apply justified_serve].
  - intros past past' X e e' _ _ Hs. destruct e; try done; injection Hs as <-; by eexists.
  - intros past past' X e m Hd Hj Hs. apply lawful_statements. destruct e as [st X e| | |]; try done.
    injection Hs as <-. apply method_inserts. destruct e; try done.
    destruct Hj as (id & api & Hin & -> & ->).
    destruct (decomposes_api_read _ _ _ api Hd Hin) as (ev & r & Hev & Hr & -> & ->); [done|]. by exists ev, r.
Qed.

Lemma job_bounded j : bounded (max_events * method_events) (serve_job j).
Proof.
  apply bounded_inline; [|apply serve_bounded]. intros X e.
  destruct e; cbn [store_split]; [apply method_bounded|unfold method_events; lia..].
Qed.

(** ** Runs *)

Abbreviation configuration := (config F postgres.DB (Response Timestamp)).
Abbreviation statements c := (db_log (snd <$> log c)).

Lemma own_answered X (e : E X) (i : Inp) db db' x : replica_handle X (inlE e) i db = Some (db', x) -> db' = db.
Proof. cbn. destruct (outside X e i); [by intros [= <-]|done]. Qed.

Lemma db_handle_total X (d : postgres.DbE X) i db : is_Some (postgres.db_handle X d i db).
Proof. destruct d; by eexists. Qed.

(** A run from any pool, seen by the database. *)
Lemma replicas_history (ps : list (prog F (Response Timestamp))) db sched c :
  run_schedule replica_handle sched (start ps db) = Some c ->
  history (fun _ _ _ _ => True) db (statements c) (world c).
Proof. by apply (schedule_history replica_handle si_store own_answered). Qed.

Section Run.
Context (jobs : list job) (db : postgres.DB) (sched : list (nat * Inp)) (c : configuration).
Hypothesis Hrun : run_schedule replica_handle sched (serve_jobs jobs db) = Some c.

(** What the run sends to the database: inserts are justified, the inputs are its own. *)
Definition sent (past : list (event postgres.DbE)) (X : Ans) (d : postgres.DbE X) (i : postgres.DbInp) : Prop :=
  justified_insert past X d /\ exists ti, ti ∈ sched /\ i = si_store ti.2.

(** Each thread is one of the jobs, after the events of its log. *)
Lemma job_thread sched' (c' : configuration) t p :
  run_schedule replica_handle sched' (serve_jobs jobs db) = Some c' -> pool c' !! t = Some p ->
  exists j, jobs !! t = Some j /\ follows (serve_job j) (thread_log t (log c')) p.
Proof.
  intros Hr Hp. destruct (lookup_lt_is_Some_2 jobs t) as [j Hj].
  { rewrite <- (length_fmap serve_job jobs), <- (run_schedule_length _ _ _ _ _ Hr). by eapply lookup_lt_Some. }
  exists j. split; [done|].
  destruct (run_schedule_follows _ _ _ _ _ t (serve_job j) Hr) as (p' & Hp' & Hf).
  - by rewrite list_lookup_fmap, Hj.
  - by rewrite Hp in Hp'; injection Hp' as <-.
Qed.

Lemma job_answer t a (Q : job -> list (event F) -> Response Timestamp -> Prop) :
  (forall j, wp (serve_job j) (Q j)) -> pool c !! t = Some (Ret a) ->
  exists j, jobs !! t = Some j /\ Q j (thread_log t (log c)) a.
Proof using Hrun.
  intros Hwp Hp. destruct (job_thread _ _ t _ Hrun Hp) as (j & Hj & Hf). exists j. split; [done|].
  by eapply wp_follows.
Qed.

Lemma jobs_history : history sent db (statements c) (world c).
Proof using Hrun.
  eapply (schedule_history replica_handle si_store own_answered); [done| |exact Hrun].
  intros pre t i post cm X d k Hs Hr Hp. split; [|exists (t, i); split; [rewrite Hs; apply elem_of_app; right; left|done]].
  destruct (job_thread _ _ t _ Hr Hp) as (j & _ & Hf).
  destruct (emits_follows _ _ _ _ _ (job_lawful j) Hf) as [Hj _].
  destruct d; try done. intros h. destruct (Hj h) as (ev & a & Hin & Ha). exists ev, a.
  split; [by eapply db_log_thread|done].
Qed.

Lemma jobs_enabled t X (e : F X) k i : pool c !! t = Some (Vis e k) -> is_Some (cstep replica_handle c (t, i)).
Proof using Hrun.
  intros Hp. assert (exists o, replica_handle X e i (world c) = Some o) as [[db' x] Hh].
  { destruct (job_thread _ _ t _ Hrun Hp) as (j & _ & Hf).
    destruct (emits_follows _ _ _ _ _ (job_lawful j) Hf) as [Hj _].
    destruct e as [e|d]; cbn; [destruct (Hj i) as [x ->]; by eexists|apply db_handle_total]. }
  eexists. by eapply cstep_enabled.
Qed.
End Run.
End Replicas.
