(* ===== verification/ReplicasTheorems.v ===== *)
(** * ReplicasTheorems: the service over PostgreSQL, statement by statement

    What holds however the SQL statements of concurrent requests interleave, whatever
    process serves each request and whatever statements fail: the handlers and the
    driver need no transaction for it.  Nothing is assumed about identifiers or clocks. *)

From S2P Require Import Prelude Effects GoSort Store StoreSpec StoreFacts Crypto Keymat Apikeyv1 Server ServerLogic Rpc Inline ServerCalls Interleaving Lifecycle Demo Postgres PostgresProps History PostgresTheorems Replicas.
Import keychainserver.

Section Theorems.
Context {Timestamp : Type} `{TimestampPb Timestamp} `{P : PgParams} {St RL Lg : Type}.

Abbreviation jobs_run sched jobs db :=
  (run_schedule (@replica_handle P St RL) sched (serve_jobs (Timestamp := Timestamp) (Lg := Lg) jobs db)).

(** No statement of the schedule fails for a reason outside the schema. *)
Definition no_faults (sched : list (nat * SrvInp postgres.DbInp RL)) : Prop :=
  Forall (fun ti => postgres.di_fault (si_store ti.2) = None) sched.

(** C7. A key is never oversold by processes that share the database.  However the
    SQL statements of their requests interleave, and whatever statements fail before or
    after they took effect, the VALID answers given for a key with counted uses and the
    uses it has left never exceed the uses it had; without failures, once every request
    is answered, they are equal. *)
Theorem replicas_never_oversold jobs db sched c id r :
  keyed db -> postgres.keys db !! id = Some r -> 0 <= postgres.key_remaining_uses r ->
  jobs_run sched jobs db = Some c ->
  exists r', postgres.keys (world c) !! id = Some r' /\ 0 <= postgres.key_remaining_uses r' /\
    Z.of_nat (valid_answers id c) + postgres.key_remaining_uses r' <= postgres.key_remaining_uses r /\
    (no_faults sched -> all_answered c ->
      Z.of_nat (valid_answers id c) + postgres.key_remaining_uses r' = postgres.key_remaining_uses r).
Proof.
  intros Hkeyed Hk Hu Hrun. pose proof (jobs_history _ _ _ _ Hrun) as Hh.
  destruct (history_balance _ _ _ _ _ Hh Hk Hu) as [(r' & Hk' & Hu' & Hle & Heq) Hn].
  assert (Hrows : rows_read id counted_row (db_log (snd <$> log c))).
  { eapply history_rows_read; [done..|]. intros l1 db1 H1.
    destruct (history_balance _ _ _ _ _ H1 Hk Hu) as [(r1 & ? & ? & _) _]. by exists r1. }
  assert (Hexact : forall t a, pool c !! t = Some (Ret a) ->
    charged id (db_log (thread_log t (log c))) = valid_count id a).
  { intros t a Ha. destruct (job_answer _ _ _ _ Hrun t a _ (fun j => job_exact j id) Ha) as (j & _ & Hj).
    apply Hj; [apply Forall_forall|]; intros ev; intros; [unfold no_negative in Hn; rewrite Forall_forall in Hn; apply Hn|
      eapply Hrows; [|done..]]; by eapply db_log_thread. }
  assert (Hsum : charged id (db_log (snd <$> log c)) =
    sum_list_with (fun t => charged id (db_log (thread_log t (log c)))) (seq 0 (length (pool c)))).
  { unfold charged. apply db_log_threads. rewrite (run_schedule_length _ _ _ _ _ Hrun). by eapply run_schedule_threads. }
  exists r'. split_and!; [done|done|..].
  - assert (valid_answers id c <= charged id (db_log (snd <$> log c)))%nat; [|lia].
    rewrite Hsum. apply sum_by_index_le. intros t [a|] Hp; [|cbn; lia]. by rewrite (Hexact t a Hp).
  - intros Hq Ha. rewrite <- Heq.
    + do 2 f_equal. rewrite Hsum. apply sum_by_index_eq. intros t p Hp. destruct (Ha t p Hp) as [a ->]. by rewrite (Hexact t a Hp).
    + intros past X e i [_ (ti & Hin & ->)]. unfold no_faults in Hq. rewrite Forall_forall in Hq. by apply Hq.
Qed.

(** The later part of a run: its statements are a history from the middle. *)
Lemma replicas_later ps db post (mid c : config (sumE (SrvE St RL) postgres.DbE) postgres.DB (Response Timestamp)) pre :
  run_schedule (@replica_handle P St RL) pre (start ps db) = Some mid ->
  run_schedule (@replica_handle P St RL) post mid = Some c ->
  run_schedule (@replica_handle P St RL) (pre ++ post) (start ps db) = Some c /\
  exists l, log c = log mid ++ l /\
    history (fun _ _ _ _ => True) (world mid) (db_log (snd <$> l)) (world c).
Proof.
  intros Hpre Hpost. split; [by rewrite run_schedule_app, Hpre|]. destruct mid as [ps1 w lg].
  destruct (run_schedule_past _ _ _ _ _ _ Hpost) as (c' & Hrun' & _ & Hw & Hlog).
  exists (log c'). split; [exact Hlog|]. rewrite Hw. by eapply replicas_history.
Qed.

(** C8. A revocation is final for every process.  Once a [RevokeKey] request has been
    answered with success, a request that has not yet read the row of the key never
    ends with a VALID answer for it, whatever process serves it, whatever statements
    fail and however they interleave. *)
Theorem replicas_revocation_final jobs db pre mid post c t u j q ack a :
  keyed db -> jobs_run pre jobs db = Some mid -> run_schedule (@replica_handle P St RL) post mid = Some c ->
  jobs !! t = Some j -> job_request j = RqRevokeKey q -> pool mid !! t = Some (Ret (RsRevokeKey (Ok ack))) ->
  rows_read (apikeyv1.RevokeKeyRequest_GetKeyId q) (fun _ => False) (db_log (thread_log u (log mid))) ->
  pool c !! u = Some (Ret a) -> valid_for (apikeyv1.RevokeKeyRequest_GetKeyId q) a = false.
Proof.
  intros Hkeyed Hpre Hpost Hj Hq Hack Hidle Ha. set (id := apikeyv1.RevokeKeyRequest_GetKeyId q) in *.
  pose proof (jobs_history _ _ _ _ Hpre) as Hh.
  assert (exists r, postgres.keys (world mid) !! id = Some r /\ disabled_row r) as (r & Hr & Hd).
  { destruct (job_answer _ _ _ _ Hpre t _ _ job_acknowledged Hack) as (j' & Hj' & Hx).
    rewrite Hj in Hj'. injection Hj' as <-. rewrite Hq in Hx. destruct Hx as (ev & Hin & Hev).
    eapply history_acknowledged; [exact Hh| |exact Hev]. by eapply db_log_thread. }
  destruct (replicas_later _ _ _ _ _ _ Hpre Hpost) as (Hrun & l & Hlog & Hlate).
  pose proof (history_disabled _ _ _ _ _ Hlate (history_keyed _ _ _ Hh Hkeyed) Hr Hd) as Hrows.
  destruct (job_answer _ _ _ _ Hrun u a _ (fun j => job_disabled j id) Ha) as (j' & _ & Hx). apply Hx.
  rewrite Hlog, thread_log_app, db_log_app. apply rows_read_app.
  - intros ev r0 Hin Hev Hid. by destruct (Hidle ev r0 Hin Hev Hid).
  - intros ev r0 Hin. apply Hrows. by eapply db_log_thread.
Qed.

(** C9. A plaintext verifies only for the key whose hash it has.  When the row of a key
    has another hash, as after a rotation, a request that presents the plaintext and has
    not yet read the row never ends with a VALID answer for the key, unless the hash of
    the plaintext is written to the row again; whatever process serves it, whatever
    statements fail and however they interleave. *)
Theorem replicas_stale_plaintext jobs db pre mid post c u j q id r a :
  let h := keymat.Hash (apikeyv1.VerifyKeyRequest_GetPlaintext q) in
  keyed db -> jobs_run pre jobs db = Some mid -> run_schedule (@replica_handle P St RL) post mid = Some c ->
  jobs !! u = Some j -> job_request j = RqVerifyKey q ->
  rows_read id (fun _ => False) (db_log (thread_log u (log mid))) ->
  postgres.keys (world mid) !! id = Some r -> postgres.key_key_hash r <> h ->
  Forall (fun ev => ~ rotated_to id h ev) (db_log (snd <$> drop (length (log mid)) (log c))) ->
  pool c !! u = Some (Ret a) -> valid_for id a = false.
Proof.
  intros h Hkeyed Hpre Hpost Hj Hq Hidle Hr Hne Hrot Ha.
  destruct (replicas_later _ _ _ _ _ _ Hpre Hpost) as (Hrun & l & Hlog & Hlate).
  rewrite Hlog, drop_app_length in Hrot.
  pose proof (history_keyed _ _ _ (jobs_history _ _ _ _ Hpre) Hkeyed) as Hk.
  destruct (history_other_hash _ _ _ id r h Hlate Hk Hr Hne Hrot) as [_ Hrows].
  destruct (job_answer _ _ _ _ Hrun u a _ (fun j => job_found j id) Ha) as (j' & Hj' & Hx).
  rewrite Hj in Hj'. injection Hj' as <-. rewrite Hq in Hx. destruct (valid_for id a); [|done].
  destruct (Hx eq_refl) as (ev & r0 & Hin & Hev & Hid). rewrite Hlog, thread_log_app, db_log_app in Hin.
  apply elem_of_app in Hin as [Hin|Hin]; [by destruct (Hidle ev r0 Hin (row_found_read _ _ _ Hev) Hid)|].
  apply db_log_thread in Hin. destruct (Hrows ev r0 Hin (row_found_read _ _ _ Hev) Hid).
  pose proof (history_hash_found _ _ _ _ _ _ Hlate Hin Hev) as Hh. by injection Hh.
Qed.

(** A row found by a hash: at some moment of the run the table had the row, with that
    hash, and the row is there at the end, in the same API and workspace. *)
Lemma jobs_found jobs db sched c t ev h r :
  keyed db -> jobs_run sched jobs db = Some c ->
  ev ∈ db_log (thread_log t (log c)) -> row_found ev = Some (h, r) ->
  (exists pre post mid, sched = pre ++ post /\ jobs_run pre jobs db = Some mid /\
    postgres.keys (world mid) !! postgres.key_key_id r = Some r /\ h = Some (postgres.key_key_hash r)) /\
  exists r', postgres.keys (world c) !! postgres.key_key_id r = Some r' /\ evolves r r'.
Proof.
  intros Hkeyed Hrun (ev' & Hin & Hev')%db_log_elem Hev. apply thread_log_elem in Hin.
  destruct (run_schedule_moment _ _ _ _ _ _ Hrun Hin)
    as [?%elem_of_nil|(pre & i & post & mid & X & e & x & k & db' & -> & -> & Hpre & Hp & Hh & Hpost)]; [done|].
  destruct e as [e|d]; [done|]. injection Hev' as <-. cbn [replica_handle] in Hh.
  pose proof (history_keyed _ _ _ (jobs_history _ _ _ _ Hpre) Hkeyed) as Hk.
  pose proof (row_read_stored _ _ _ _ _ _ _ Hk Hh (row_found_read _ _ _ Hev)) as Hr.
  pose proof (statement_hash_found _ _ _ _ _ _ _ _ Hh Hev) as ->.
  split; [by exists pre, ((t, i) :: post), mid|].
  rewrite run_schedule_app, Hpre in Hrun.
  destruct (replicas_later _ _ _ _ _ _ Hpre Hrun) as (_ & l & _ & Hlate). by eapply history_row.
Qed.

(** C10. Tenants stay apart in the tables.  From tables where the row of every key is in
    the workspace of its API, the statements of any requests keep it so, and an answer
    of [VerifyKey] that names a key answers a request whose plaintext had the hash of the
    row with that identifier at some moment of the run; the row is there at the end, and
    the API and the workspace named are those of the row, the API being in that
    workspace. *)
Theorem replicas_tenants_apart jobs db sched c :
  keyed db -> (forall id r, postgres.keys db !! id = Some r -> at_home db r) ->
  jobs_run sched jobs db = Some c ->
  (forall id r, postgres.keys (world c) !! id = Some r -> at_home (world c) r) /\
  forall t v, pool c !! t = Some (Ret (RsVerifyKey (Ok v))) ->
    exists j q, jobs !! t = Some j /\ job_request j = RqVerifyKey q /\
    (v = notFound \/
     (exists pre post mid r0, sched = pre ++ post /\ jobs_run pre jobs db = Some mid /\
       postgres.keys (world mid) !! apikeyv1.VerifyKeyResponse_KeyId v = Some r0 /\
       postgres.key_key_hash r0 = keymat.Hash (apikeyv1.VerifyKeyRequest_GetPlaintext q)) /\
     exists r a, postgres.keys (world c) !! apikeyv1.VerifyKeyResponse_KeyId v = Some r /\
       apikeyv1.VerifyKeyResponse_ApiId v = postgres.key_api_id r /\
       apikeyv1.VerifyKeyResponse_WorkspaceId v = postgres.key_workspace_id r /\
       postgres.apis (world c) !! postgres.key_api_id r = Some a /\
       postgres.api_workspace_id a = postgres.key_workspace_id r).
Proof.
  intros Hkeyed Hhome Hrun.
  destruct (history_tenancy db _ _ (fun _ _ _ _ Hs => proj1 Hs) (jobs_history _ _ _ _ Hrun) Hkeyed Hhome) as [Hrows _].
  split; [done|]. intros t v Hv.
  destruct (job_answer _ _ _ _ Hrun t _ _ job_names Hv) as (j & Hj & q & Hq & Hnames). exists j, q.
  split_and!; [done|done|]. destruct Hnames as [->|(ev & r & Hin & Hev & -> & -> & ->)]; [by left|right].
  destruct (jobs_found _ _ _ _ _ _ _ _ Hkeyed Hrun Hin Hev) as [(pre & post & mid & Hs & Hpre & Hr & Hh) (r' & Hr' & Hevo)].
  split; [exists pre, post, mid, r; by injection Hh|].
  destruct (Hrows _ _ Hr') as (a & Ha & Hw). exists r', a. destruct Hevo as [_ Heapi Hews _]. by rewrite Heapi, Hews in *.
Qed.

(** Every request is answered.  A schedule takes at most eighteen steps per request,
    three statements for each of the six events of the longest, and each unanswered
    request can always take its next step: the processes never wait for each other. *)
Theorem replicas_answered jobs db sched c :
  jobs_run sched jobs db = Some c ->
  (length sched <= 18 * length jobs)%nat /\
  forall t p i, pool c !! t = Some p -> (exists a, p = Ret a) \/ is_Some (cstep (@replica_handle P St RL) c (t, i)).
Proof.
  intros Hrun. split.
  - rewrite <- (length_fmap serve_job jobs). eapply run_schedule_bound; [|exact Hrun].
    apply Forall_fmap, Forall_forall. intros j _. apply (job_bounded j).
  - intros t [a|X e k] i Hp; [left; by exists a|right]. by eapply jobs_enabled.
Qed.
End Theorems.

(** ** Runs *)

#[local] Existing Instance demo_pg.

(** The demo key with the hash of ["sk_one"]. *)
Definition replica_row (uses : Z) : postgres.KeyRow :=
  postgres.set_hash (keymat.Hash "sk_one") 0 (demo_row uses).

Definition replica_db (uses : Z) : postgres.DB := postgres.put_row "key_3" (replica_row uses) (demo_db uses).

Lemma replica_db_keyed uses : keyed (replica_db uses).
Proof.
  split; intros id r; cbn; [by intros [<- <-]%lookup_singleton_Some|].
  rewrite lookup_insert. case_decide; [by intros [= <-]|by intros [? _]%lookup_singleton_Some].
Qed.

Lemma replica_db_home uses id r : postgres.keys (replica_db uses) !! id = Some r -> at_home (replica_db uses) r.
Proof.
  cbn. rewrite lookup_insert. case_decide; [intros [= <-]|by intros [? _]%lookup_singleton_Some].
  eexists. by split; [apply lookup_singleton_eq|].
Qed.

Definition replica_input (f : option (error * bool)) : SrvInp postgres.DbInp unit :=
  mkSrvInp (demo_input f) 2000 (keymat.mkReader (replicate 32 Byte.x41) keymat.EOF) (fun _ _ _ _ => allow).

Definition on_replicas (f : option (error * bool)) (ts : list nat) : list (nat * SrvInp postgres.DbInp unit) :=
  (., replica_input f) <$> ts.

Abbreviation replica_job := (job (Timestamp := Z) (St := unit) (RL := unit) (Lg := unit)).
Abbreviation replica_config := (config (sumE (SrvE unit unit) postgres.DbE) postgres.DB (Response Z)).

Definition replicas_end (jobs : list replica_job) db sched : replica_config :=
  default (serve_jobs jobs db) (run_schedule replica_handle sched (serve_jobs jobs db)).

Definition runs (jobs : list replica_job) db sched : bool :=
  match run_schedule replica_handle sched (serve_jobs jobs db) with Some _ => true | None => false end.

Lemma replicas_run jobs db sched : runs jobs db sched = true ->
  run_schedule replica_handle sched (serve_jobs jobs db) = Some (replicas_end jobs db sched).
Proof. unfold runs, replicas_end. by destruct (run_schedule _ _ _). Qed.

Lemma replicas_run_suffix jobs db pre post : runs jobs db (pre ++ post) = true ->
  run_schedule replica_handle post (replicas_end jobs db pre) = Some (replicas_end jobs db (pre ++ post)).
Proof.
  unfold runs, replicas_end. rewrite run_schedule_app. destruct (run_schedule _ pre _) as [c|]; [|done]. cbn.
  by destruct (run_schedule _ post c).
Qed.

(** Two processes, one with a limiter, verify the last use of a key at once. *)
Definition replica_race : list replica_job :=
  [mkJob (demo_server None) (RqVerifyKey (demo_verify "sk_one"));
   mkJob (demo_server (Some tt)) (RqVerifyKey (demo_verify "sk_one"))].

(** Both read the row before either charges it. *)
Definition replica_race_schedule := on_replicas None [0; 1; 0; 1; 0; 1; 0; 0; 1]%nat.

Abbreviation replica_race_end := (replicas_end replica_race (replica_db 1) replica_race_schedule).

Lemma replicas_never_oversold_witness :
  valid_answers "key_3" replica_race_end = 1%nat /\
  exists r', postgres.keys (world replica_race_end) !! "key_3" = Some r' /\ 0 <= postgres.key_remaining_uses r' /\
    Z.of_nat (valid_answers "key_3" replica_race_end) + postgres.key_remaining_uses r' <=
      postgres.key_remaining_uses (replica_row 1) /\
    (no_faults replica_race_schedule -> all_answered replica_race_end ->
      Z.of_nat (valid_answers "key_3" replica_race_end) + postgres.key_remaining_uses r' =
        postgres.key_remaining_uses (replica_row 1)).
Proof.
  split; [vm_compute; reflexivity|].
  refine (replicas_never_oversold replica_race (replica_db 1) replica_race_schedule replica_race_end "key_3" (replica_row 1)
    (replica_db_keyed 1) _ _ (replicas_run _ _ _ _)); vm_compute; [reflexivity|by intros|reflexivity].
Defined.

(** One process revokes a key, then another is asked to verify it. *)
Definition replica_revoke : list replica_job :=
  [mkJob (demo_server None) (RqRevokeKey (Some (apikeyv1.mkRevokeKeyRequest "key_3")));
   mkJob (demo_server None) (RqVerifyKey (demo_verify "sk_one"))].

Abbreviation replica_revoke_end ts := (replicas_end replica_revoke (replica_db 1) (on_replicas None ts)).

Lemma replicas_revocation_final_witness :
  valid_for "key_3" (RsVerifyKey (Timestamp := Z)
    (Ok (verdict (key_of (postgres.set_enabled false 1500 (replica_row 1))) None false
      apikeyv1.VERIFY_RESULT_REVOKED))) = false.
Proof.
  assert (Hidle : db_log (thread_log 1 (log (replica_revoke_end [0; 0]%nat))) = []) by (vm_compute; reflexivity).
  refine (replicas_revocation_final replica_revoke (replica_db 1) (on_replicas None [0; 0]%nat) (replica_revoke_end [0; 0]%nat)
    (on_replicas None [1]%nat) (replica_revoke_end ([0; 0] ++ [1])%nat) 0 1
    (mkJob (demo_server None) (RqRevokeKey (Some (apikeyv1.mkRevokeKeyRequest "key_3")))) (Some (apikeyv1.mkRevokeKeyRequest "key_3"))
    apikeyv1.mkRevokeKeyResponse _ (replica_db_keyed 1) (replicas_run _ _ _ _) (replicas_run_suffix _ _ _ _ _) _ _ _ _ _).
  - vm_compute. reflexivity.
  - vm_compute. reflexivity.
  - reflexivity.
  - reflexivity.
  - vm_compute. reflexivity.
  - rewrite Hidle. by intros ev r ?%elem_of_nil.
  - vm_compute. reflexivity.
Defined.

(** One process rotates a key, then another is presented the old plaintext. *)
Definition replica_rotate : list replica_job :=
  [mkJob (demo_server None) (RqRotateKey Demo.demo_rotate);
   mkJob (demo_server None) (RqVerifyKey (demo_verify "sk_one"))].

Definition rotate_steps : list nat := replicate 6 0%nat.

Abbreviation replica_rotate_end ts := (replicas_end replica_rotate (replica_db 1) (on_replicas None ts)).

Definition rotated_row : postgres.KeyRow :=
  default (replica_row 1) (postgres.keys (world (replica_rotate_end rotate_steps)) !! "key_3").

Lemma replicas_stale_plaintext_witness :
  match pool (replica_rotate_end rotate_steps) !! 0%nat with
  | Some (Ret (RsRotateKey (Ok _))) => true
  | _ => false
  end = true /\
  valid_for "key_3" (RsVerifyKey (Timestamp := Z) (Ok notFound)) = false.
Proof.
  split; [vm_compute; reflexivity|].
  assert (Hidle : db_log (thread_log 1 (log (replica_rotate_end rotate_steps))) = []) by (vm_compute; reflexivity).
  refine (replicas_stale_plaintext replica_rotate (replica_db 1) (on_replicas None rotate_steps) (replica_rotate_end rotate_steps)
    (on_replicas None [1]%nat) (replica_rotate_end (rotate_steps ++ [1])%nat) 1
    (mkJob (demo_server None) (RqVerifyKey (demo_verify "sk_one"))) (demo_verify "sk_one") "key_3" rotated_row
    _ (replica_db_keyed 1) (replicas_run _ _ _ _) (replicas_run_suffix _ _ _ _ _) _ _ _ _ _ _ _).
  - vm_compute. reflexivity.
  - vm_compute. reflexivity.
  - reflexivity.
  - reflexivity.
  - rewrite Hidle. by intros ev r ?%elem_of_nil.
  - vm_compute. reflexivity.
  - vm_compute. discriminate.
  - vm_compute. constructor; [by intros []|constructor].
  - vm_compute. reflexivity.
Defined.

Lemma replicas_tenants_apart_witness :
  (forall id r, postgres.keys (world replica_race_end) !! id = Some r -> at_home (world replica_race_end) r) /\
  forall t v, pool replica_race_end !! t = Some (Ret (RsVerifyKey (Ok v))) ->
    exists j q, replica_race !! t = Some j /\ job_request j = RqVerifyKey q /\
    (v = notFound \/
     (exists pre post mid r0, replica_race_schedule = pre ++ post /\
       run_schedule replica_handle pre (serve_jobs replica_race (replica_db 1)) = Some mid /\
       postgres.keys (world mid) !! apikeyv1.VerifyKeyResponse_KeyId v = Some r0 /\
       postgres.key_key_hash r0 = keymat.Hash (apikeyv1.VerifyKeyRequest_GetPlaintext q)) /\
     exists r a, postgres.keys (world replica_race_end) !! apikeyv1.VerifyKeyResponse_KeyId v = Some r /\
       apikeyv1.VerifyKeyResponse_ApiId v = postgres.key_api_id r /\
       apikeyv1.VerifyKeyResponse_WorkspaceId v = postgres.key_workspace_id r /\
       postgres.apis (world replica_race_end) !! postgres.key_api_id r = Some a /\
       postgres.api_workspace_id a = postgres.key_workspace_id r).
Proof.
  refine (replicas_tenants_apart replica_race (replica_db 1) replica_race_schedule replica_race_end
    (replica_db_keyed 1) (replica_db_home 1) (replicas_run _ _ _ _)). vm_compute. reflexivity.
Defined.

Lemma replicas_answered_witness :
  (length replica_race_schedule <= 18 * length replica_race)%nat /\
  forall t p i, pool replica_race_end !! t = Some p ->
    (exists a, p = Ret a) \/ is_Some (cstep replica_handle replica_race_end (t, i)).
Proof.
  refine (replicas_answered replica_race (replica_db 1) replica_race_schedule replica_race_end (replicas_run _ _ _ _)).
  vm_compute. reflexivity.
Defined.

(** A statement may fail after it took effect: the use is gone, and no answer is VALID. *)
Example replica_lost_use :
  let c := replicas_end (take 1 replica_race) (replica_db 1)
    (on_replicas None [0; 0]%nat ++ on_replicas (Some (ErrText "conn closed", true)) [0]%nat) in
  (postgres.key_remaining_uses <$> postgres.keys (world c) !! "key_3", valid_answers "key_3" c) = (Some 0, 0%nat) /\
  forallb (fun p => match p with Ret _ => true | _ => false end) (pool c) = true.
Proof. vm_compute. by split. Qed.
