(* ===== verification/HeapPostgres.v ===== *)
(** * HeapPostgres: the PostgreSQL driver on the heap

    The methods of postgres.go as they share and allocate objects.  The tables hold
    values, so the driver keeps no object of the heap: the arguments of a statement are
    read from the caller's objects, a scanned row is decoded into new ones, and a
    [Create] answers the record it was given, with the caller's own slices, maps and
    pointers inside. *)

From S2P Require Import Prelude Effects GoText Store StoreSpec Heap References Postgres.
Import postgres.

Module heap_postgres.
Section Methods.
Context `{PgParams}.

(** ** Statements and objects *)

(** A method: from the inputs of its events, their number so far and the tables. *)
Definition M (A : Type) : Type := (nat -> DbInp) -> nat -> DB -> H (DB * nat * A).

#[global] Instance M_ret : MRet M := fun A a ins n db => mret (db, n, a).
#[global] Instance M_bind : MBind M := fun A B f m ins n db =>
  r ← m ins n db; f r.2 ins r.1.2 r.1.1.

Definition stmt {X : Ans} (e : DbE X) : M X := fun ins n db =>
  match db_handle X e (ins n) db with
  | Some (db', x) => mret (db', S n, x)
  | None => panic
  end.

Definition lift {A} (c : H A) : M A := fun ins n db => a ← c; mret (db, n, a).

(** A decoded slice, map or time: nil, or a new object. *)
Definition new_opt `{Boxed A} (v : option A) : H (ptr A) :=
  match v with
  | None => mret None
  | Some a => new a
  end.

(** ** The methods *)

Definition newID (prefix : string) : M string :=
  u ← stmt NewUUID; mret (prefix +:+ "_" +:+ u).

Definition CreateWorkspace (w : HWorkspace) : M (res HWorkspace) :=
  id ← newID "ws";
  now ← stmt Now;
  let w := mkHWorkspace id (HWorkspace_Name w) (HWorkspace_OwnerPrincipalID w) now now (HWorkspace_Metadata w) in
  m ← lift (load (HWorkspace_Metadata w));
  r ← stmt (InsertWorkspace
        (mkWorkspaceRow (HWorkspace_WorkspaceID w) (HWorkspace_Name w) (HWorkspace_OwnerPrincipalID w)
           (HWorkspace_CreatedAt w) (HWorkspace_UpdatedAt w) (marshalMetadata m)));
  mret match r with
       | Err err => Err (Errorf "insert workspace: %w" [] err)
       | Ok _ => Ok w
       end.

Definition GetWorkspace (id : string) : M (res HWorkspace) :=
  r ← stmt (SelectWorkspace id);
  match r with
  | Err err =>
      mret (if errors_is err ErrNoRows then Err ErrNotFound
            else Err (Errorf "select workspace: %w" [] err))
  | Ok r =>
      m ← lift (new_opt (unmarshalMetadata (ws_metadata r)));
      mret (Ok (mkHWorkspace (ws_workspace_id r) (ws_name r) (ws_owner_principal_id r)
                  (ws_created_at r) (ws_updated_at r) m))
  end.

Definition CreateAPI (a : HAPI) : M (res HAPI) :=
  id ← newID "api";
  now ← stmt Now;
  let a := mkHAPI id (HAPI_WorkspaceID a) (HAPI_Name a) (HAPI_KeyPrefix a) now now (HAPI_Metadata a) in
  m ← lift (load (HAPI_Metadata a));
  r ← stmt (InsertAPI
        (mkApiRow (HAPI_APIID a) (HAPI_WorkspaceID a) (HAPI_Name a) (HAPI_KeyPrefix a)
           (HAPI_CreatedAt a) (HAPI_UpdatedAt a) (marshalMetadata m)));
  mret match r with
       | Err err =>
           if isFKViolation err then Err (Errorf "workspace %q: %w" [HAPI_WorkspaceID a] ErrNotFound)
           else Err (Errorf "insert api: %w" [] err)
       | Ok _ => Ok a
       end.

Definition GetAPI (id : string) : M (res HAPI) :=
  r ← stmt (SelectAPI id);
  match r with
  | Err err =>
      mret (if errors_is err ErrNoRows then Err ErrNotFound
            else Err (Errorf "select api: %w" [] err))
  | Ok r =>
      m ← lift (new_opt (unmarshalMetadata (api_metadata r)));
      mret (Ok (mkHAPI (api_api_id r) (api_workspace_id r) (api_name r) (api_key_prefix r)
                  (api_created_at r) (api_updated_at r) m))
  end.

Definition HKey_created (k : HKey) (id : string) (now : Time) : HKey :=
  mkHKey id (HKey_APIID k) (HKey_WorkspaceID k) (HKey_OwnerPrincipalID k) (HKey_Name k)
    (HKey_KeyHash k) (HKey_Permissions k) (HKey_LimitRefs k) (HKey_ExpiresAt k)
    (HKey_RemainingUses k) (HKey_Enabled k) now now (HKey_LastVerifiedAt k) (HKey_Metadata k).

Definition CreateKey (k : HKey) : M (res HKey) :=
  id ← newID "key";
  now ← stmt Now;
  let k := HKey_created k id now in
  refs ← lift (load (HKey_LimitRefs k));
  m ← lift (load (HKey_Metadata k));
  permissions ← lift (load (HKey_Permissions k));
  hash ← lift (load (HKey_KeyHash k));
  expires ← lift (load (HKey_ExpiresAt k));
  verified ← lift (load (HKey_LastVerifiedAt k));
  r ← stmt (InsertKey hash (fun h =>
        mkKeyRow (HKey_KeyID k) (HKey_APIID k) (HKey_WorkspaceID k) (HKey_OwnerPrincipalID k) (HKey_Name k)
          h (nonNilStrings permissions) (marshal_refs refs) expires
          (HKey_RemainingUses k) (HKey_Enabled k) (HKey_CreatedAt k) (HKey_UpdatedAt k)
          verified (marshalMetadata m)));
  mret match r with
       | Err err =>
           if isFKViolation err then Err (Errorf "api %q: %w" [HKey_APIID k] ErrNotFound)
           else if isUniqueViolation err then Err ErrConflict
           else Err (Errorf "insert key: %w" [] err)
       | Ok _ => Ok k
       end.

(** The scan and the decoding of a row. *)
Definition scan_key (r : KeyRow) : H (res HKey) :=
  hash ← new (key_key_hash r);
  permissions ← new (key_permissions r);
  expires ← new_opt (key_expires_at r);
  verified ← new_opt (key_last_verified_at r);
  match unmarshal_refs (key_limit_refs r) with
  | Err err => mret (Err (Errorf "unmarshal limit_refs: %w" [] err))
  | Ok refs =>
      refs ← new_opt refs;
      m ← new_opt (unmarshalMetadata (key_metadata r));
      mret (Ok (mkHKey (key_key_id r) (key_api_id r) (key_workspace_id r) (key_owner_principal_id r) (key_name r)
                  hash permissions refs expires (key_remaining_uses r) (key_enabled r)
                  (key_created_at r) (key_updated_at r) verified m))
  end.

Definition queryKey (w : KeyWhere) : M (res HKey) :=
  r ← stmt (SelectKey w);
  match r with
  | Err err =>
      mret (if errors_is err ErrNoRows then Err ErrNotFound
            else Err (Errorf "select key: %w" [] err))
  | Ok r => lift (scan_key r)
  end.

Definition GetKeyByID (id : string) : M (res HKey) := queryKey (ByID id).

Definition GetKeyByHash (hash : ptr (list byte)) : M (res HKey) :=
  h ← lift (load hash); queryKey (ByHash h).

Definition RevokeKey (id : string) : M (res unit) :=
  now ← stmt Now;
  r ← stmt (UpdateEnabled now id);
  mret match r with
       | Err err =>
           if errors_is err ErrNoRows then Err ErrNotFound
           else Err (Errorf "update key: %w" [] err)
       | Ok _ => Ok tt
       end.

Definition RotateKey (id : string) (newHash : ptr (list byte)) : M (res HKey) :=
  now ← stmt Now;
  h ← lift (load newHash);
  r ← stmt (UpdateHash h now id);
  match r with
  | Err err =>
      mret (if isUniqueViolation err then Err ErrConflict
            else Err (Errorf "update key hash: %w" [] err))
  | Ok _ => GetKeyByID id
  end.

Fixpoint scan_keys (rows : list KeyRow) : H (res (list HKey)) :=
  match rows with
  | [] => mret (Ok [])
  | r :: rows =>
      k ← scan_key r;
      match k with
      | Err err => mret (Err err)
      | Ok k =>
          ks ← scan_keys rows;
          mret match ks with
               | Err err => Err err
               | Ok ks => Ok (k :: ks)
               end
      end
  end.

Definition page_of (out : list HKey) (pageSize : Z) : HListKeysResult :=
  if pageSize <? Z.of_nat (length out)
  then mkHListKeysResult (take (Z.to_nat pageSize) out)
         (default EmptyString (HKey_KeyID <$> out !! Z.to_nat (pageSize - 1)))
  else mkHListKeysResult out EmptyString.

Definition ListKeys (opts : ListKeysOpts) : M (res HListKeysResult) :=
  let pageSize := if ListKeysOpts_PageSize opts <=? 0 then 50 else ListKeysOpts_PageSize opts in
  r ← stmt (SelectKeys (ListKeysOpts_APIID opts) (ListKeysOpts_OwnerPrincipalID opts)
              (ListKeysOpts_PageToken opts) (pageSize + 1));
  match r with
  | Err err => mret (Err (Errorf "select keys: %w" [] err))
  | Ok (rows, failed) =>
      out ← lift (scan_keys rows);
      mret match out with
           | Err err => Err err
           | Ok out =>
               match failed with
               | Some err => Err (Errorf "iterate keys: %w" [] err)
               | None => Ok (page_of out pageSize)
               end
           end
  end.

Definition TouchLastVerified (id : string) (at_ : Time) : M (res unit) :=
  r ← stmt (UpdateLastVerified at_ id);
  mret match r with
       | Err err => Err (Errorf "touch last_verified_at: %w" [] err)
       | Ok n => if n =? 0 then Err ErrNotFound else Ok tt
       end.

Definition DecrementRemainingUses (id : string) : M (Z * option error) :=
  now ← stmt Now;
  r ← stmt (UpdateUses now id);
  match r with
  | Ok remaining => mret (remaining, None)
  | Err err =>
      if negb (errors_is err ErrNoRows) then mret (0, Some (Errorf "decrement remaining: %w" [] err))
      else
        r ← stmt (SelectUses id);
        mret match r with
             | Err err =>
                 if errors_is err ErrNoRows then (0, Some ErrNotFound)
                 else (0, Some (Errorf "select remaining: %w" [] err))
             | Ok remaining =>
                 if remaining <? 0 then (-1, None) else (remaining, Some ErrDepleted)
             end
  end.

Definition method (X : Type) (e : HStoreE X) : M X :=
  match e in HStoreE X return M X with
  | HCreateWorkspace w => CreateWorkspace w
  | HGetWorkspace id => GetWorkspace id
  | HCreateAPI a => CreateAPI a
  | HGetAPI id => GetAPI id
  | HCreateKey k => CreateKey k
  | HGetKeyByID id => GetKeyByID id
  | HGetKeyByHash hash => GetKeyByHash hash
  | HRevokeKey id => RevokeKey id
  | HRotateKey id newHash => RotateKey id newHash
  | HListKeys opts => ListKeys opts
  | HTouchLastVerified id at_ => TouchLastVerified id at_
  | HDecrementRemainingUses id => DecrementRemainingUses id
  end.

(** A method with no other client between its statements. *)
Definition handle (X : Type) (e : HStoreE X) (ins : nat -> DbInp) (db : DB) : H (DB * X) :=
  r ← method X e ins 0%nat db;
  mret (r.1.1, r.2).
End Methods.
End heap_postgres.
