(* ===== verification/HeapPostgresProps.v ===== *)
(** * HeapPostgresProps: the PostgreSQL driver meets the contract with references

    Each method runs the statements of the method on values (the file Postgres) and
    answers the same value, in new objects or, for a created record, in the caller's.
    Rows keep their times at the precision of the columns, and identifiers are the
    ones drawn by the call; the instance of [HeapImpl] follows from PostgresProps. *)

From S2P Require Import Prelude Effects GoText Store StoreSpec Heap References HeapSpec Postgres PostgresProps HeapPostgres.
Import postgres.

Section Props.
Context `{P : PgParams}.
Abbreviation HM := heap_postgres.M.

(** ** Both sides run the same statements *)

(** From the heap [h], [m] performs the statements of [p], changes no object and adds
    the objects [hn], with [R hn x y] of the two answers. *)
Definition sim {X Y} (m : HM X) (p : prog DbE Y) (h : heap) (R : heap -> X -> Y -> Prop) : Prop :=
  forall ins n db, exists db' n' y, run db_handle p ins n db = Some (db', n', y) /\
    allocs (m ins n db) h (fun hn r => r.1 = (db', n') /\ R hn r.2 y).

Lemma sim_ret {X Y} (x : X) (y : Y) h (R : heap -> X -> Y -> Prop) : R ∅ x y -> sim (mret x) (Ret y) h R.
Proof. intros HR ins n db. exists db, n, y. split; [done|]. by apply allocs_ret. Qed.

Lemma sim_stmt {X Y} {Z : Ans} (e : DbE Z) (f : Z -> HM X) (k : Z -> prog DbE Y) h (R : heap -> X -> Y -> Prop) :
  (forall z, sim (f z) (k z) h R) -> sim (heap_postgres.stmt e ≫= f) (Vis e k) h R.
Proof.
  intros Hf ins n db. cbn [run]. assert (Hh : exists db' z, db_handle Z e (ins n) db = Some (db', z)).
  { assert (Hs : is_Some (db_handle Z e (ins n) db)) by (destruct e; by eexists).
    destruct Hs as [[db' z] ->]. by exists db', z. }
  destruct Hh as (db' & z & Hh). rewrite Hh. destruct (Hf z ins (S n) db') as (db2 & n2 & y & Hr & Ha).
  exists db2, n2, y. split; [done|]. unfold mbind, heap_postgres.M_bind, heap_postgres.stmt. rewrite Hh.
  apply allocs_bind, allocs_ret. rewrite (left_id_L ∅ (∪)). cbn.
  eapply allocs_mono; [|exact Ha]. intros hn r _ Hx. by rewrite (right_id_L ∅ (∪)).
Qed.

Lemma sim_lift {A X Y} (c : H A) (f : A -> HM X) (p : prog DbE Y) h C (R : heap -> X -> Y -> Prop) :
  allocs c h C -> (forall hn a, hn ##ₘ h -> C hn a -> sim (f a) p (hn ∪ h) (fun hn' x y => R (hn' ∪ hn) x y)) ->
  sim (heap_postgres.lift c ≫= f) p h R.
Proof.
  intros (hn & a & Hc & Hd & Ha) Hf ins n db. destruct (Hf hn a Hd Ha ins n db) as (db' & n' & y & Hr & Hm).
  exists db', n', y. split; [done|]. unfold mbind, heap_postgres.M_bind, heap_postgres.lift.
  apply allocs_bind, allocs_bind. exists hn, a. split_and!; [done|done|]. apply allocs_ret.
  by rewrite (left_id_L ∅ (∪)).
Qed.

(** The last computation allocates the answer. *)
Lemma sim_end {X Y} (c : H X) (y : Y) h (R : heap -> X -> Y -> Prop) :
  allocs c h (fun hn x => R hn x y) -> sim (heap_postgres.lift c) (Ret y) h R.
Proof.
  intros Hc ins n db. exists db, n, y. split; [done|]. apply allocs_bind. eapply allocs_mono; [|exact Hc].
  intros hn x _ HR. apply allocs_ret. by rewrite (left_id_L ∅ (∪)).
Qed.

Lemma sim_load `{Boxed A} {X Y} (p : ptr A) v (f : option A -> HM X) (q : prog DbE Y) h (R : heap -> X -> Y -> Prop) :
  deref h p = Some v -> sim (f v) q h R -> sim (heap_postgres.lift (load p) ≫= f) q h R.
Proof.
  intros Hp Hf. eapply sim_lift with (C := fun hn a => hn = ∅ /\ a = v); [by eapply allocs_load|].
  intros hn a _ [-> ->] ins n db. destruct (Hf ins n db) as (db' & n' & y & Hr & Hm). exists db', n', y.
  split; [done|]. rewrite (left_id_L ∅ (∪)). eapply allocs_mono; [|exact Hm].
  intros hn r _ Hx. cbn. by rewrite (right_id_L ∅ (∪)).
Qed.

Lemma new_opt_allocs `{Boxed A} (v : option A) h :
  allocs (heap_postgres.new_opt v) h (fun hn p => deref hn p = Some v).
Proof. destruct v as [a|]; [|by apply allocs_ret]. apply allocs_new. intros l _. apply deref_singleton. Qed.

Lemma new_allocs `{Boxed A} (a : A) h : allocs (new a) h (fun hn p => deref hn p = Some (Some a)).
Proof. apply allocs_new. intros l _. apply deref_singleton. Qed.

(** ** The decoding of rows *)

(** The next object of an answer. *)
Ltac decode_step lem :=
  apply allocs_bind; eapply allocs_mono; [|apply lem];
  let hn := fresh "hn" in let p := fresh "p" in let Hd := fresh "Hd" in let Hp := fresh "Hp" in
  intros hn p Hd Hp; cbn beta in Hp.

Lemma scan_key_allocs r h :
  allocs (heap_postgres.scan_key r) h (fun hn x => res_of load_key hn x (scan_key r)).
Proof using.
  unfold heap_postgres.scan_key, scan_key. do 2 decode_step @new_allocs. do 2 decode_step @new_opt_allocs.
  destruct (unmarshal_refs (key_limit_refs r)) as [refs|err]; [|by apply allocs_ret].
  do 2 decode_step @new_opt_allocs. apply allocs_ret. cbn. apply load_key_spec. split; cbn; try done.
  all: eapply deref_weaken; [eassumption|sub_heap].
Qed.

Lemma scan_keys_allocs rows h :
  allocs (heap_postgres.scan_keys rows) h
    (fun hn x => res_of (fun h => mapM (load_key h)) hn x (scan_keys rows)).
Proof using.
  revert h. induction rows as [|r rows IH]; intros h; cbn [heap_postgres.scan_keys scan_keys]; [by apply allocs_ret|].
  apply allocs_bind. eapply allocs_mono; [|apply scan_key_allocs]. intros hn k Hd Hk.
  destruct k as [k|err], (scan_key r) as [v|err']; cbn in Hk; try done; [|by apply allocs_ret; cbn; subst].
  apply allocs_bind. eapply allocs_mono; [|apply IH]. intros hn2 ks Hd2 Hks. cbn in Hks. apply allocs_ret.
  destruct ks as [ks|err], (scan_keys rows) as [vs|err']; cbn in Hks; try done.
  rewrite (left_id_L ∅ (∪)). apply (mapM_Some _ (k :: ks) (v :: vs)). apply mapM_Some in Hks. constructor.
  - eapply load_key_weaken; [exact Hk|sub_heap].
  - eapply Forall2_impl; [exact Hks|]. intros k2 v2 Hk2. eapply load_key_weaken; [exact Hk2|sub_heap].
Qed.

Lemma page_of_loads h ks vs n :
  mapM (load_key h) ks = Some vs -> load_list h (heap_postgres.page_of ks n) = Some (page_of vs n).
Proof using.
  intros Hm%mapM_Some. unfold heap_postgres.page_of, page_of, load_list. rewrite (Forall2_length _ _ _ Hm).
  destruct (n <? Z.of_nat (length vs)); cbn; [|by rewrite (proj2 (mapM_Some _ _ _) Hm)].
  rewrite (proj2 (mapM_Some _ _ _) (Forall2_take _ _ _ _ Hm)). cbn. do 3 f_equal.
  destruct (ks !! Z.to_nat (n - 1)) as [k|] eqn:Hk.
  - destruct (Forall2_lookup_l _ _ _ _ _ Hm Hk) as (v & -> & Hv). apply load_key_spec in Hv. cbn. f_equal. apply Hv.
  - apply lookup_ge_None in Hk. rewrite (Forall2_length _ _ _ Hm) in Hk. by rewrite (lookup_ge_None_2 _ _ Hk).
Qed.

(** ** The methods *)

(** Performs the next statement on both sides. *)
Ltac sim_statement := apply sim_stmt; let z := fresh "z" in intros z; cbv beta.

Lemma newID_sim {X Y} prefix (f : string -> HM X) (k : string -> prog DbE Y) h (R : heap -> X -> Y -> Prop) :
  (forall id, sim (f id) (k id) h R) -> sim (heap_postgres.newID prefix ≫= f) (newID prefix ≫= k) h R.
Proof using.
  intros Hf ins n db. destruct (Hf (prefix +:+ "_" +:+ di_uuid (ins n)) ins (S n) db) as (db' & n' & y & Hr & Ha).
  exists db', n', y. split; [done|]. apply allocs_bind, allocs_ret. rewrite (left_id_L ∅ (∪)). cbn.
  eapply allocs_mono; [|exact Ha]. intros hn r _ Hx. by rewrite (right_id_L ∅ (∪)).
Qed.

Lemma queryKey_sim w h : sim (heap_postgres.queryKey w) (queryKey w) h (res_of load_key).
Proof using.
  unfold heap_postgres.queryKey, queryKey. sim_statement. destruct z as [r|err]; [apply sim_end, scan_key_allocs|].
  apply sim_ret. by destruct (errors_is err ErrNoRows).
Qed.

Lemma ListKeys_sim opts h : sim (heap_postgres.ListKeys opts) (ListKeys opts) h (res_of load_list).
Proof using.
  unfold heap_postgres.ListKeys, ListKeys. cbv zeta. sim_statement. destruct z as [[rows failed]|err]; [|by apply sim_ret].
  eapply sim_lift; [apply scan_keys_allocs|]. intros hn out Hd Hout. apply sim_ret. rewrite (left_id_L ∅ (∪)).
  destruct out as [ks|err], (scan_keys rows) as [vs|err']; cbn in Hout; try done.
  destruct failed; [done|]. by apply page_of_loads.
Qed.

Lemma CreateWorkspace_sim w v h :
  load_workspace h w = Some v ->
  sim (heap_postgres.CreateWorkspace w) (CreateWorkspace v) h (fun hn => res_of load_workspace (hn ∪ h)).
Proof using.
  intros [Hm ->]%load_workspace_spec. apply newID_sim. intros id. sim_statement. eapply sim_load; [exact Hm|].
  sim_statement. apply sim_ret. rewrite (left_id_L ∅ (∪)). destruct z0; [|done]. by apply load_workspace_spec.
Qed.

Lemma CreateAPI_sim a v h :
  load_api h a = Some v ->
  sim (heap_postgres.CreateAPI a) (CreateAPI v) h (fun hn => res_of load_api (hn ∪ h)).
Proof using.
  intros [Hm ->]%load_api_spec. apply newID_sim. intros id. sim_statement. eapply sim_load; [exact Hm|].
  sim_statement. apply sim_ret. rewrite (left_id_L ∅ (∪)). destruct z0 as [|err]; [by apply load_api_spec|].
  by destruct (isFKViolation err).
Qed.

Lemma CreateKey_sim k v h :
  load_key h k = Some v ->
  sim (heap_postgres.CreateKey k) (CreateKey v) h (fun hn => res_of load_key (hn ∪ h)).
Proof using.
  intros Hk. pose proof Hk as []%load_key_spec. apply newID_sim. intros id. sim_statement. cbv zeta.
  do 6 (eapply sim_load; [eassumption|]). destruct v. cbn in *. subst. sim_statement. apply sim_ret.
  rewrite (left_id_L ∅ (∪)). destruct z0 as [|err]; [by apply load_key_spec; split|].
  destruct (isFKViolation err); [done|]. by destruct (isUniqueViolation err).
Qed.

Lemma GetWorkspace_sim id h : sim (heap_postgres.GetWorkspace id) (GetWorkspace id) h (res_of load_workspace).
Proof using.
  unfold heap_postgres.GetWorkspace. sim_statement. destruct z as [r|err].
  - eapply sim_lift; [apply new_opt_allocs|]. intros hn m Hd Hm. apply sim_ret. rewrite (left_id_L ∅ (∪)).
    by apply load_workspace_spec.
  - apply sim_ret. by destruct (errors_is err ErrNoRows).
Qed.

Lemma GetAPI_sim id h : sim (heap_postgres.GetAPI id) (GetAPI id) h (res_of load_api).
Proof using.
  unfold heap_postgres.GetAPI. sim_statement. destruct z as [r|err].
  - eapply sim_lift; [apply new_opt_allocs|]. intros hn m Hd Hm. apply sim_ret. rewrite (left_id_L ∅ (∪)).
    by apply load_api_spec.
  - apply sim_ret. by destruct (errors_is err ErrNoRows).
Qed.

Lemma RotateKey_sim id p v h :
  deref h p = Some v -> sim (heap_postgres.RotateKey id p) (RotateKey id v) h (res_of load_key).
Proof using.
  intros Hp. unfold heap_postgres.RotateKey. sim_statement. eapply sim_load; [exact Hp|]. sim_statement.
  destruct z0 as [|err]; [apply queryKey_sim|]. apply sim_ret. by destruct (isUniqueViolation err).
Qed.

Lemma DecrementRemainingUses_sim id h :
  sim (heap_postgres.DecrementRemainingUses id) (DecrementRemainingUses id) h (fun _ => eq).
Proof using.
  unfold heap_postgres.DecrementRemainingUses. do 2 sim_statement. destruct z0 as [|err]; [by apply sim_ret|].
  cbn [bind]. destruct (negb (errors_is err ErrNoRows)); [by apply sim_ret|]. sim_statement. by apply sim_ret.
Qed.

Lemma method_sim X (e : HStoreE X) hc :
  h_event_ok hc e ->
  with_value hc e (fun _ e' rel =>
    sim (heap_postgres.method X e) (method _ e') hc (fun hn x y => rel (answer_heap e hc hn) x y)).
Proof using.
  intros He. destruct e; unfold h_event_ok in He; cbn [with_value heap_postgres.method method answer_heap] in *.
  1,3,5,7,9: destruct He as (v & Hv & _); exists v; split; [done|].
  - by apply CreateWorkspace_sim.
  - by apply CreateAPI_sim.
  - by apply CreateKey_sim.
  - eapply sim_load; [done|apply queryKey_sim].
  - by apply RotateKey_sim.
  - apply GetWorkspace_sim.
  - apply GetAPI_sim.
  - apply queryKey_sim.
  - unfold heap_postgres.RevokeKey. do 2 sim_statement. by apply sim_ret.
  - apply ListKeys_sim.
  - unfold heap_postgres.TouchLastVerified. sim_statement. by apply sim_ret.
  - apply DecrementRemainingUses_sim.
Qed.

(** ** The times of the rows *)

Definition row_times (r : KeyRow) : Prop :=
  tstz (key_created_at r) = key_created_at r /\ tstz (key_updated_at r) = key_updated_at r /\
  tstz <$> key_expires_at r = key_expires_at r /\ tstz <$> key_last_verified_at r = key_last_verified_at r.

(** Every row has its times at the precision of the columns. *)
Definition stable (db : DB) : Prop := forall id r, keys db !! id = Some r -> row_times r.

(** The rows that a statement answers are such rows. *)
Definition good {X : Ans} (e : DbE X) : X -> Prop :=
  match e in DbE X return X -> Prop with
  | SelectKey _ => fun r => match r with Ok row => row_times row | Err _ => True end
  | SelectKeys _ _ _ _ => fun r => match r with Ok (rows, _) => Forall row_times rows | Err _ => True end
  | _ => fun _ => True
  end.

Lemma stable_put id r db : stable db -> row_times r -> stable (put_row id r db).
Proof using. intros Hs Hr id' r'. cbn. rewrite lookup_insert. case_decide; [by intros [= <-]|apply Hs]. Qed.

Lemma tstz_opt (t : option Time) : tstz <$> (tstz <$> t) = tstz <$> t.
Proof using. destruct t; [|done]. cbn. by rewrite tstz_idemp. Qed.

Lemma stored_key_times r : row_times (stored_key r).
Proof using. split_and!; cbn; auto using tstz_idemp, tstz_opt. Qed.

Lemma stable_faulty {X} f (o : DB * res X) db : stable db -> stable o.1 -> stable (faulty f o db).1.
Proof using. intros Hs Ho. by destruct f as [[err [|]]|]. Qed.

(** The rows of a statement that selects. *)
Lemma select_key_times w db r : stable db -> select_key w db = Ok r -> row_times r.
Proof using.
  intros Hs. destruct w as [id|[h|]]; cbn; [|destruct (List.find _ _) as [[id r']|] eqn:Hf|]; try done.
  - destruct (keys db !! id) as [r'|] eqn:Hk; [|done]. intros [= ->]. by apply (Hs id).
  - intros [= ->]. apply find_some in Hf as [Hin _]. apply list_elem_of_In, elem_of_map_to_list in Hin. by apply (Hs id).
Qed.

Lemma select_keys_times api owner token n db : stable db -> Forall row_times (select_keys api owner token n db).
Proof using.
  intros Hs. apply Forall_take. rewrite merge_sort_Permutation. apply Forall_forall. intros r Hin.
  apply list_elem_of_In, filter_In in Hin as [Hin _]. apply list_elem_of_In, list_elem_of_fmap in Hin as ([id r'] & -> & Hin).
  apply elem_of_map_to_list in Hin. by apply (Hs id).
Qed.

Lemma db_handle_stable X (e : DbE X) i db db' x :
  stable db -> db_handle X e i db = Some (db', x) -> stable db' /\ good e x.
Proof using.
  intros Hs. assert (Hupd : forall id r, keys db !! id = Some r -> forall r',
    key_updated_at r' = key_updated_at r \/ tstz (key_updated_at r') = key_updated_at r' ->
    key_created_at r' = key_created_at r -> key_expires_at r' = key_expires_at r ->
    key_last_verified_at r' = key_last_verified_at r \/ tstz <$> key_last_verified_at r' = key_last_verified_at r' ->
    stable (put_row id r' db)).
  { intros id r (Hc & Hu & He & Hv)%Hs r' Hu' Hc' He' Hv'. apply stable_put; [done|].
    split_and!; rewrite ?Hc', ?He'; [done|destruct Hu' as [->|?]; done|done|destruct Hv' as [->|?]; done]. }
  intros Hh. pose proof (f_equal (fmap fst) Hh) as Hdb. pose proof (f_equal (fmap snd) Hh) as Hx. clear Hh.
  destruct e; cbn [db_handle good] in *; injection Hdb as <-; injection Hx as <-;
    try (split; [apply stable_faulty; [done|]|done]); try done.
  - unfold insert_workspace. case_match; exact Hs.
  - unfold insert_api. repeat case_match; exact Hs.
  - unfold insert_key. repeat case_match; try done. apply stable_put; [done|apply stored_key_times].
  - split; [by apply stable_faulty|]. destruct (di_fault i) as [[err te]|]; [done|]. cbn [faulty fst snd].
    destruct (select_key where_ db) as [r|] eqn:Hr; [|done]. by eapply select_key_times.
  - unfold update_enabled. case_match eqn:Hk; [|done]. eapply Hupd; [exact Hk|right; apply tstz_idemp|done|done|by left].
  - unfold update_hash. repeat case_match; try done. eapply Hupd; [eassumption|right; apply tstz_idemp|done|done|by left].
  - split; [done|]. destruct (di_fault i) as [[err [|]]|]; cbn; auto using select_keys_times.
  - unfold update_last_verified. case_match eqn:Hk; [|done]. eapply Hupd; [exact Hk|by left|done|done|right].
    cbn. by rewrite tstz_idemp.
  - unfold update_uses. repeat case_match; try done. eapply Hupd; [eassumption|right; apply tstz_idemp|done|done|by left].
Qed.

Lemma scan_key_times r : row_times r -> match scan_key r with Ok k => key_times tstz k | Err _ => True end.
Proof using. unfold scan_key. by destruct (unmarshal_refs _). Qed.

Lemma scan_keys_times rows :
  Forall row_times rows -> match scan_keys rows with Ok ks => Forall (key_times tstz) ks | Err _ => True end.
Proof using.
  induction 1 as [|r rows Hr%scan_key_times Hrows IH]; cbn; [done|].
  destruct (scan_key r); [|done]. destruct (scan_keys rows); [|done]. by constructor.
Qed.

Lemma queryKey_times w :
  returns (@good) (queryKey w) (fun r => match r with Ok k => key_times tstz k | Err _ => True end).
Proof using.
  intros [r|err]; cbn; [apply scan_key_times|]. by destruct (errors_is err ErrNoRows).
Qed.

(** What a method reads has the times of the rows. *)
Lemma method_times X (e : StoreE X) : returns (@good) (method X e) (read_times tstz e).
Proof using.
  destruct e; cbn [method read_times]; try apply queryKey_times.
  - do 3 (intros ? _). done.
  - intros ? _. done.
  - do 3 (intros ? _). done.
  - intros ? _. done.
  - do 3 (intros ? _). cbn. by destruct x1 as [|err]; [|destruct (isFKViolation err); [|destruct (isUniqueViolation err)]].
  - do 2 (intros ? _). done.
  - intros now _ r _. destruct r as [|err]; [apply queryKey_times|]. cbn. by destruct (isUniqueViolation err).
  - intros r Hr. cbn in Hr |- *. destruct r as [[rows failed]|err]; [|done].
    pose proof (scan_keys_times rows Hr) as Hk. destruct (scan_keys rows) as [ks|]; [|done]. destruct failed; [done|].
    cbn. unfold page_of. destruct (_ <? _); cbn; [by apply Forall_take|done].
  - intros ? _. done.
  - intros now _ r _. cbn. destruct r as [|err]; [done|]. destruct (negb _); [done|]. by intros ? _.
Qed.

(** ** Identifiers *)

(** The statements between the inputs of a call: UUIDs, and a clock that has left the
    zero time at the precision of the columns. *)
Definition drawn {X : Ans} (e : DbE X) : X -> Prop :=
  match e in DbE X return X -> Prop with
  | NewUUID => fun u => uuid_text u = true
  | Now => fun t => tstz t <> zeroTime
  | _ => fun _ => True
  end.

(** A created record has a drawn identifier and the time of the call. *)
Definition created {X} (e : StoreE X) : X -> Prop :=
  match e in StoreE X return X -> Prop with
  | CreateWorkspaceE w => fun r => match r with
      | Ok w' => exists id now, assigned_id "ws" id /\ tstz now <> zeroTime /\ w' = Workspace_created w id now
      | Err _ => True end
  | CreateAPIE a => fun r => match r with
      | Ok a' => exists id now, assigned_id "api" id /\ tstz now <> zeroTime /\ a' = API_created a id now
      | Err _ => True end
  | CreateKeyE k => fun r => match r with Ok k' => assigned_id "key" (Key_KeyID k') | Err _ => True end
  | _ => fun _ => True
  end.

Lemma method_created X (e : StoreE X) : returns (@drawn) (method X e) (created e).
Proof using.
  assert (Hany : forall {R} (p : prog DbE R), returns (@drawn) p (fun _ => True)).
  { intros R p. by induction p as [|Y e' k IH]; cbn; auto. }
  destruct e; try apply Hany.
  - intros u Hu now Hnow [|err] _; cbn; [|done]. eexists _, now. split_and!; [by exists u|done..].
  - intros u Hu now Hnow [|err] _; cbn; [eexists _, now; split_and!; [by exists u|done..]|].
    by destruct (isFKViolation err).
  - intros u Hu now Hnow [|err] _; cbn; [by exists u|].
    by destruct (isFKViolation err); [|destruct (isUniqueViolation err)].
Qed.

(** Only a created record is new. *)
Lemma spec_assigned {X} (e : StoreE X) A y A' :
  store_spec tstz collate any_time True e A y A' -> created e y -> assigned A A'.
Proof using.
  intros Hs Hc. assert (Hput : forall id k k', a_keys A !! id = Some k -> assigned A (a_put_key id k' A)).
  { intros id k k' Hk. apply assigned_put_key. by eexists. }
  destruct e; cbn in Hs, Hc.
  - destruct Hs as (id1 & now1 & w' & -> & _ & Hn & -> & ->). destruct Hc as (id & now & Hid & Hnow & [= -> -> _]).
    split; cbn; [|congruence..]. intros id2 v Hn2. rewrite lookup_insert. case_decide; [|congruence].
    intros [= <-]. by subst.
  - destruct Hs as [-> _]. apply assigned_refl.
  - unfold spec_CreateAPI in Hs. destruct (a_workspaces A !! API_WorkspaceID a); [|destruct Hs as [-> _]; apply assigned_refl].
    destruct Hs as (id1 & now1 & a' & -> & _ & Hn & -> & ->). destruct Hc as (id & now & Hid & Hnow & [= -> -> _]).
    split; cbn; [congruence| |congruence]. intros id2 v Hn2. rewrite lookup_insert. case_decide; [|congruence].
    intros [= <-]. by subst.
  - destruct Hs as [-> _]. apply assigned_refl.
  - destruct Hs as [[-> _]|[[-> _]|(id & now & k' & -> & _ & _ & _ & Hn & Hk & ->)]]; try apply assigned_refl.
    split; cbn; [congruence..|]. intros id2 v Hn2. rewrite lookup_insert. case_decide; [|congruence].
    intros _. subst id2. apply (f_equal Key_KeyID) in Hk. cbn in Hk. by subst id.
  - destruct Hs as [-> _]. apply assigned_refl.
  - destruct Hs as [-> _]. apply assigned_refl.
  - destruct (a_keys A !! id) as [k|] eqn:Hk;
      [|apply spec_RevokeKey_missing in Hs as [-> _]; [apply assigned_refl|done]].
    destruct (spec_RevokeKey_put _ _ _ _ _ _ _ _ Hs Hk) as (_ & t & ->). by eapply Hput.
  - unfold spec_RotateKey in Hs. destruct (a_keys A !! id) as [k|] eqn:Hk; [|destruct Hs as [-> _]; apply assigned_refl].
    destruct Hs as [[-> _]|(_ & t & k' & _ & _ & _ & ->)]; [apply assigned_refl|by eapply Hput].
  - destruct Hs as [-> _]. apply assigned_refl.
  - unfold spec_TouchLastVerified in Hs. destruct (a_keys A !! id) as [k|] eqn:Hk; [|destruct Hs as [-> _]; apply assigned_refl].
    destruct Hs as (_ & ->). by eapply Hput.
  - unfold spec_DecrementRemainingUses in Hs.
    destruct (a_keys A !! id) as [k|] eqn:Hk; [|destruct Hs as [-> _]; apply assigned_refl].
    destruct (decide _); [destruct Hs as [-> _]; apply assigned_refl|].
    destruct (decide _); [destruct Hs as [-> _]; apply assigned_refl|].
    destruct Hs as (_ & t & _ & ->). by eapply Hput.
Qed.

(** ** The instance *)

(** What the environment gives a call: fresh UUIDs, a clock that has left the zero
    time, and no failure outside the schema. *)
Definition h_input_ok (ins : nat -> DbInp) (db : DB) : Prop :=
  input_ok ins db /\ forall n, di_fault (ins n) = None /\ uuid_text (di_uuid (ins n)) = true /\
    tstz (di_now (ins n)) <> zeroTime.

(** The driver has no objects of its own. *)
Definition heap_inv (hs : heap) (db : DB) (A : AStore) : Prop := hs = ∅ /\ inv db /\ stable db /\ abs db = A.

Lemma hashed_not_nil {X} (e : StoreE X) : hashed e -> ~ nil_hash e.
Proof using. destruct e; cbn; intros Hh Hn; try done; destruct Hh as [h Hh]; congruence. Qed.

(** A call on values, with its contract. *)
Lemma method_contract X (e : StoreE X) ins db db' n y :
  inv db -> stable db -> h_input_ok ins db -> event_ok e -> hashed e ->
  run db_handle (method X e) ins 0 db = Some (db', n, y) ->
  inv db' /\ stable db' /\ assigned (abs db) (abs db') /\ store_contract tstz collate any_time True False e (abs db) y (abs db') /\
  read_times tstz e y.
Proof using.
  intros Hi Hst [Ho Hin] He Hh Hr.
  destruct (method_meets False X e ins db Hi Ho He) as ([db2 y2] & Hr2 & Hi' & Hc).
  { intros m f Hf. by rewrite (proj1 (Hin m)) in Hf. }
  { intros Hn. by apply (hashed_not_nil e). }
  unfold handle in Hr2. rewrite Hr in Hr2. injection Hr2 as <- <-.
  destruct (run_returns db_handle (@good) stable _ _ _ _ _ _ _ _ (fun _ _ _ _ _ _ => db_handle_stable _ _ _ _ _ _) Hst (method_times X e) Hr)
    as [Hs' Ht].
  assert (Hd : forall Z (e : DbE Z) m s s' x, True -> db_handle Z e (ins m) s = Some (s', x) -> True /\ drawn e x).
  { intros Z e' m s s' x _ Hx. split; [done|]. destruct (Hin m) as (_ & Hu & Hn).
    destruct e'; try done; cbn in Hx; by injection Hx as _ <-. }
  destruct (run_returns db_handle (@drawn) (fun _ => True) _ _ _ _ _ _ _ _ Hd I (method_created X e) Hr) as [_ Hcr].
  split_and!; [done|done| | |done].
  - destruct Hc as [Hc|([] & _)]. eapply spec_assigned; [|done]. by eapply store_spec_any.
  - by eapply (store_contract_any _ _ _ _ _ _ _ _ _ _ id).
Qed.

Lemma heap_postgres_refines X (e : HStoreE X) ins hc hs db A :
  hc ##ₘ hs -> heap_inv hs db A -> h_input_ok ins db -> h_call_ok hc e ->
  allocs (heap_postgres.handle X e ins db) (hc ∪ hs) (fun hn sx => exists hr ho A',
    hn = hr ∪ ho /\ hr ##ₘ ho /\ heap_inv (ho ∪ hs) sx.1 A' /\
    heap_contract tstz collate False hc e A hr sx.2 A').
Proof using.
  intros _ (-> & Hi & Hs & <-) Ho He. rewrite (right_id_L ∅ (∪)).
  apply (with_value_elim _ _ _ _ (with_value_and _ _ _ _ He (method_sim _ _ _ (h_call_event _ _ He)))).
  intros Y e' rel [[Hev Hh] Hsim] Hval. destruct (Hsim ins 0%nat db) as (db' & n' & y & Hr & Ha).
  destruct (method_contract _ _ _ _ _ _ _ Hi Hs Ho Hev Hh Hr) as (Hi' & Hs' & Has & Hc & Ht).
  apply allocs_bind. eapply allocs_mono; [|exact Ha]. intros hn [[db2 n2] x] Hd [[= -> ->] Hx]. apply allocs_ret.
  exists hn, ∅, (abs db'). rewrite (left_id_L ∅ (∪)), (right_id_L ∅ (∪)).
  split_and!; [done|apply map_disjoint_empty_r|by split_and!|]. split; [done|]. apply Hval. by exists y.
Qed.

#[export] Instance heap_postgres_impl : HeapImpl DB (nat -> DbInp) := {|
  hi_handle := heap_postgres.handle;
  hi_inv := heap_inv;
  hi_ok := h_input_ok;
  hi_nt := tstz;
  hi_le := collate;
  hi_faults := False;
  hi_refines := heap_postgres_refines;
|}.

Lemma heap_inv_empty : heap_inv ∅ empty_db a_empty.
Proof using. split_and!; [done|apply inv_empty| |apply abs_empty]. intros id r. cbn. by rewrite lookup_empty. Qed.
End Props.
