(* ===== verification/SuiteTheorems.v ===== *)
(** * SuiteTheorems: the drivers pass the conformance suite

    Every driver that implements the interface with references passes every test of
    the suite; the in-process driver and the PostgreSQL driver are two. *)

From S2P Require Import Prelude Effects GoSort Store StoreSpec Heap References HeapSpec Client Conformance.
From S2P Require Import ConformanceProps ConformanceLists Memory MemoryProps HeapMemory HeapMemoryProps HeapTheorems.
From S2P Require Import Postgres PostgresProps PostgresTheorems HeapPostgres HeapPostgresProps.

(** ** The conformance suite *)

Lemma Run_passes `{PP : Precise} : Forall (fun nt => passes nt.2 a_empty ∅ (fun _ _ _ => True)) conformance.Run.
Proof.
  repeat apply Forall_cons_2; try apply Forall_nil_2.
  - apply WorkspaceCreateAndGet_passes.
  - apply WorkspaceGetNotFound_passes.
  - apply WorkspaceMetadataIsIsolated_passes.
  - apply APICreateRequiresWorkspace_passes.
  - apply APICreateAndGet_passes.
  - apply APIGetNotFound_passes.
  - apply APIMetadataIsIsolated_passes.
  - apply KeyCreateRequiresAPI_passes.
  - apply KeyCreateAndLookup_passes.
  - apply KeyCreatePreservesAllFields_passes.
  - apply KeyInputMutationDoesNotChangeStoredKey_passes.
  - apply KeyLookupMutationDoesNotChangeStoredKey_passes.
  - apply KeyListMutationDoesNotChangeStoredKey_passes.
  - apply KeyListPreservesAllFields_passes.
  - apply KeyGetByHashUnknown_passes.
  - apply KeyGetByIDUnknown_passes.
  - apply KeyCreateRejectsDuplicateHash_passes.
  - apply KeyRevoke_passes.
  - apply KeyRevokeIsIdempotent_passes.
  - apply KeyRevokeUnknownReturnsNotFound_passes.
  - apply KeyRotate_passes.
  - apply KeyRotateUnknownReturnsNotFound_passes.
  - apply KeyRotateRejectsDuplicateHash_passes.
  - apply KeyListByAPI_passes.
  - apply KeyListFilterByOwner_passes.
  - apply KeyListPaginates_passes.
  - apply KeyListDefaultsPageSize_passes.
  - apply KeyListUnknownAPIIsEmpty_passes.
  - apply KeyListPageTokenCanSkipToInsertionPoint_passes.
  - apply KeyTouchLastVerified_passes.
  - apply KeyTouchLastVerifiedUnknownReturnsNotFound_passes.
  - apply KeyDecrementRemainingUses_passes.
  - apply KeyDecrementUnlimitedIsNoop_passes.
  - apply KeyDecrementDepletedReturnsErrDepleted_passes.
  - apply KeyDecrementUnknownReturnsNotFound_passes.
Qed.

(** C40. A driver that implements the interface and does not fail, that keeps whole
    seconds and lists identifiers in the order of their text, started empty, passes
    every test of the conformance suite: the test runs to its end, fails no check and
    does not panic. *)
Theorem suite_passes {S I} {impl : HeapImpl S I} (s0 : S) name t ins :
  Precise (PR := impl_precision) -> ~ hi_faults -> hi_inv ∅ s0 a_empty -> (name, t) ∈ conformance.Run ->
  client_inputs_ok t ins 0 (∅, s0) ->
  exists st n, run client_handle t ins 0 (∅, s0) = Some (st, n, Ok tt).
Proof.
  intros Hpr Hf Hinv Hin Hok. pose proof (Run_passes (PP := Hpr)) as Hp. rewrite Forall_forall in Hp.
  specialize (Hp _ Hin). cbn in Hp.
  pose proof (left_id_L ∅ (∪) (∅ : heap)) as He. rewrite <- He in Hok.
  destruct (cwp_run t a_empty ∅ ∅ s0 ins 0 _ Hf (map_disjoint_empty_l ∅) Hinv Hok Hp)
    as (hc & hs & s' & A' & n' & r & Hr & _ & _ & [] & -> & _).
  rewrite He in Hr. by eexists _, _.
Qed.

(** The inputs of a run, given as codes that can be checked. *)
Section Checks.
Context {S I C : Type} {impl : HeapImpl S I} (decode : C -> I) (check : C -> S -> bool).

Fixpoint client_inputs_okb {R} (p : prog CliE R) (codes : nat -> C * Time) (n : nat) (st : heap * S) : bool :=
  match p with
  | Ret _ => true
  | Vis e k =>
      check (codes n).1 st.2 &&
      match client_handle _ e (mkCliInp (decode (codes n).1) (codes n).2) st with
      | Some (st', x) => client_inputs_okb (k x) codes (Datatypes.S n) st'
      | None => true
      end
  end.

Lemma client_inputs_okb_ok {R} (p : prog CliE R) codes n st :
  (forall c s, check c s = true -> hi_ok (decode c) s) -> client_inputs_okb p codes n st = true ->
  client_inputs_ok p (fun n => mkCliInp (decode (codes n).1) (codes n).2) n st.
Proof.
  intros Hcheck. revert n st. induction p as [r|X e k IH]; intros n st; cbn; [done|]. intros [Hd Hk]%andb_prop.
  split; [by apply Hcheck|]. destruct (client_handle X e _ st) as [[st' x]|]; [|done]. by apply IH.
Qed.
End Checks.

Definition demo_clock : Time := 1700000000123456789.
Definition demo_codes (n : nat) : memory.Inp * Time := (demo_inp n, demo_clock + Z.of_nat n).

Lemma heap_memory_check c s : bool_decide (HeapMemoryProps.h_input_ok c s) = true -> hi_ok (HeapImpl := heap_memory_impl) c s.
Proof. apply bool_decide_eq_true. Qed.

(** The in-process driver passes a test whose inputs are in order. *)
Lemma memory_precise : Precise (PR := impl_precision (impl := heap_memory_impl)).
Proof. apply exact_precise. Qed.

(** ** The PostgreSQL driver of the demonstration: microseconds, text in byte order *)

Import postgres.

#[local] Instance pg : PgParams := demo_pg.

Lemma postgres_precise : Precise (PR := impl_precision (impl := heap_postgres_impl)).
Proof.
  destruct exact_precise as [_ Ho Hids Hafter Hbefore]. split; [|done..].
  intros t. cbn. unfold conformance.Truncate, conformance.Second, zeroTime.
  set (k := (t - -62135596800000000000) / 1000000000).
  assert (Hk : t - (t - -62135596800000000000) mod 1000000000 = (-62135596800000000 + 1000000 * k) * 1000).
  { pose proof (Z.div_mod (t - -62135596800000000000) 1000000000 ltac:(lia)) as Hd. fold k in Hd. lia. }
  by rewrite Hk, Z.div_mul by lia.
Qed.

Definition demo_statements (n : nat) : DbInp := mkDbInp (demo_clock + Z.of_nat n) (demo_uuid n) None.
Definition demo_pg_codes (n : nat) : DbInp * Time := (demo_statements n, demo_clock + Z.of_nat n).

(** All the statements of a call get the same input. *)
Definition same_input (d : DbInp) (n : nat) : DbInp := d.

Definition pg_check (d : DbInp) (db : DB) : bool :=
  bool_decide (workspaces db !! ("ws" +:+ "_" +:+ di_uuid d) = None /\
    apis db !! ("api" +:+ "_" +:+ di_uuid d) = None /\
    keys db !! ("key" +:+ "_" +:+ di_uuid d) = None /\
    tstz (di_now d) <> zeroTime) &&
  match di_fault d with None => true | Some _ => false end && uuid_text (di_uuid d).

Lemma pg_check_ok d db : pg_check d db = true -> hi_ok (HeapImpl := heap_postgres_impl) (same_input d) db.
Proof.
  intros [[Hb Hf]%andb_prop Hu]%andb_prop. apply bool_decide_eq_true in Hb as (Hw & Ha & Hk & Ht).
  destruct (di_fault d) eqn:Hd; [done|].
  split; intros n; unfold same_input; rewrite Hd; by split_and!.
Qed.

(** Both drivers pass the tests of pages and of isolation. *)
Lemma suite_passes_witness :
  Forall (fun nt =>
    (exists st n, run client_handle nt.2 (fun n => mkCliInp (demo_codes n).1 (demo_codes n).2) 0 (∅, heap_memory.New) = Some (st, n, Ok tt)) /\
    (exists st n, run client_handle nt.2 (fun n => mkCliInp (same_input (demo_pg_codes n).1) (demo_pg_codes n).2) 0
      (∅, empty_db) = Some (st, n, Ok tt)))
    [("KeyListPaginates", conformance.testKeyListPaginates);
     ("KeyListMutationDoesNotChangeStoredKey", conformance.testKeyListMutationDoesNotChangeStoredKey)]%string.
Proof.
  repeat apply Forall_cons_2; try apply Forall_nil_2; split.
  1,3: eapply (suite_passes heap_memory.New);
    [apply memory_precise|by intros []|apply heap_inv_New|
    |apply (client_inputs_okb_ok (fun c => c) _ _ demo_codes 0 _ heap_memory_check); vm_compute; reflexivity].
  3,4: eapply (suite_passes empty_db);
    [apply postgres_precise|by intros []|apply heap_inv_empty|
    |apply (client_inputs_okb_ok same_input _ _ demo_pg_codes 0 _ pg_check_ok); vm_compute; reflexivity].
  1,3: by apply list_elem_of_lookup_2 with 25%nat.
  1,2: by apply list_elem_of_lookup_2 with 12%nat.
Defined.
