(* ===== verification/GoUrl.v ===== *)
(** * GoUrl: the parts of Go's [strings] and [net/url] packages the configuration uses

    URLs as records, [Parse], [Query], [Values.Encode] and [URL.String].  Which
    hosts are well formed has changed between releases of Go and involves
    [net/netip]: [parseHost] is a parameter, and so is the lower case of text that is
    not ASCII (the Unicode tables). *)

From S2P Require Import Prelude GoSort.

Class GoLib := {
  (** [strings.Map(unicode.ToLower, s)], taken for [s] that is not ASCII. *)
  map_ToLower : string -> string;
  (** The host and port of an authority, unescaped; rules depend on the scheme. *)
  parseHost : string -> string -> res string;
}.

(** ** Strings *)

Module strings.

Definition code (a : ascii) : N := N_of_ascii a.

Fixpoint isASCII (s : string) : bool :=
  match s with
  | EmptyString => true
  | String a s => (code a <? 128)%N && isASCII s
  end.

Definition lower_byte (a : ascii) : ascii :=
  if ((65 <=? code a) && (code a <=? 90))%N then ascii_of_N (code a + 32) else a.

Fixpoint lower_ASCII (s : string) : string :=
  match s with
  | EmptyString => EmptyString
  | String a s => String (lower_byte a) (lower_ASCII s)
  end.

Definition ToLower `{GoLib} (s : string) : string :=
  if isASCII s then lower_ASCII s else map_ToLower s.

(** [strings.Contains] of one byte. *)
Fixpoint ContainsByte (s : string) (c : ascii) : bool :=
  match s with
  | EmptyString => false
  | String a s => bool_decide (a = c) || ContainsByte s c
  end.

Fixpoint CountByte (s : string) (c : ascii) : nat :=
  match s with
  | EmptyString => 0
  | String a s => (if decide (a = c) then 1 else 0) + CountByte s c
  end.

(** [strings.Cut] at the first [c]: before, after, found. *)
Fixpoint Cut (s : string) (c : ascii) : string * string * bool :=
  match s with
  | EmptyString => (EmptyString, EmptyString, false)
  | String a s =>
      if decide (a = c) then (EmptyString, s, true)
      else let '(before, after, found) := Cut s c in (String a before, after, found)
  end.

(** What is before and after the last [c] ([strings.LastIndex]). *)
Fixpoint CutLast (s : string) (c : ascii) : option (string * string) :=
  match s with
  | EmptyString => None
  | String a s =>
      match CutLast s c with
      | Some (before, after) => Some (String a before, after)
      | None => if decide (a = c) then Some (EmptyString, s) else None
      end
  end.

Definition HasPrefix (s prefix : string) : bool := String.prefix prefix s.
End strings.

(** ** URLs *)

Module url.
Import strings.

Record Userinfo : Type := mkUserinfo {
  username : string;
  password : string;
  passwordSet : bool;
}.

Record URL : Type := mkURL {
  Scheme : string;
  Opaque : string;
  User : option Userinfo;
  Host : string;
  Path : string;
  RawPath : string;
  OmitHost : bool;
  ForceQuery : bool;
  RawQuery : string;
  Fragment : string;
  RawFragment : string;
}.

Inductive encoding : Type :=
| encodePath
| encodeHost
| encodeUserPassword
| encodeQueryComponent
| encodeFragment.

#[global] Instance Userinfo_eq_dec : EqDecision Userinfo.
Proof. solve_decision. Defined.
#[global] Instance encoding_eq_dec : EqDecision encoding.
Proof. solve_decision. Defined.

(** *** Escaping *)

Definition one_of (chars : string) (c : ascii) : bool := ContainsByte chars c.

Definition alphanumeric (c : ascii) : bool :=
  let n := code c in
  (((97 <=? n) && (n <=? 122)) || ((65 <=? n) && (n <=? 90)) || ((48 <=? n) && (n <=? 57)))%N.

Definition quote : ascii := "034"%char.

Definition shouldEscape (c : ascii) (mode : encoding) : bool :=
  if alphanumeric c then false
  else if bool_decide (mode = encodeHost) && (one_of "!$&'()*+,;=:[]<>" c || bool_decide (c = quote)) then false
  else if one_of "-_.~" c then false
  else if one_of "$&+,/:;=?@" c && negb (bool_decide (mode = encodeHost)) then
    match mode with
    | encodePath => bool_decide (c = "?"%char)
    | encodeUserPassword => one_of "@/?:" c
    | encodeQueryComponent => true
    | _ => false
    end
  else if bool_decide (mode = encodeFragment) && one_of "!()*" c then false
  else true.

Definition hex_digit (n : N) : ascii :=
  if (n <? 10)%N then ascii_of_N (48 + n) else ascii_of_N (55 + n).

Fixpoint escape (s : string) (mode : encoding) : string :=
  match s with
  | EmptyString => EmptyString
  | String c s =>
      if bool_decide (c = " "%char) && bool_decide (mode = encodeQueryComponent)
      then String "+" (escape s mode)
      else if shouldEscape c mode
      then String "%" (String (hex_digit (code c / 16)) (String (hex_digit (code c mod 16)) (escape s mode)))
      else String c (escape s mode)
  end.

Definition unhex (c : ascii) : option N :=
  let n := code c in
  if ((48 <=? n) && (n <=? 57))%N then Some (n - 48)%N
  else if ((97 <=? n) && (n <=? 102))%N then Some (n - 87)%N
  else if ((65 <=? n) && (n <=? 70))%N then Some (n - 55)%N
  else None.

Definition EscapeError (s : string) : error := ErrText ("invalid URL escape " +:+ s).

(** For the modes other than a host. *)
Fixpoint unescape (s : string) (mode : encoding) : res string :=
  match s with
  | EmptyString => Ok EmptyString
  | String c s' =>
      let literal (c : ascii) (rest : res string) :=
        match rest with Ok r => Ok (String c r) | Err err => Err err end in
      if decide (c = "%"%char) then
        match s' with
        | String h (String l rest) =>
            match unhex h, unhex l with
            | Some h, Some l => literal (ascii_of_N (16 * h + l)) (unescape rest mode)
            | _, _ => Err (EscapeError (String.substring 0 3 s))
            end
        | _ => Err (EscapeError s)
        end
      else if bool_decide (c = "+"%char) && bool_decide (mode = encodeQueryComponent)
      then literal " "%char (unescape s' mode)
      else literal c (unescape s' mode)
  end.

(** *** Parsing *)

Section Parse.
Context `{GoLib}.

Fixpoint stringContainsCTLByte (s : string) : bool :=
  match s with
  | EmptyString => false
  | String c s => (code c <? 32)%N || (code c =? 127)%N || stringContainsCTLByte s
  end.

(** The scheme and what follows it; [first]: no byte was read yet. *)
Fixpoint getScheme (first : bool) (s : string) : res (option (string * string)) :=
  match s with
  | EmptyString => Ok None
  | String c s =>
      let n := code c in
      let next := match getScheme false s with
                  | Ok (Some (scheme, rest)) => Ok (Some (String c scheme, rest))
                  | o => o
                  end in
      if ((97 <=? n) && (n <=? 122) || (65 <=? n) && (n <=? 90))%N then next
      else if (((48 <=? n) && (n <=? 57))%N || one_of "+-." c) then (if first then Ok None else next)
      else if decide (c = ":"%char) then
        (if first then Err (ErrText "missing protocol scheme") else Ok (Some (EmptyString, s)))
      else Ok None
  end.

Fixpoint validUserinfo (s : string) : bool :=
  match s with
  | EmptyString => true
  | String c s => (alphanumeric c || one_of "-._:~!$&'()*+,;=%@" c) && validUserinfo s
  end.

Definition parseUserinfo (userinfo : string) : res Userinfo :=
  if negb (validUserinfo userinfo) then Err (ErrText "net/url: invalid userinfo")
  else
    let '(name, pwd, found) := Cut userinfo ":"%char in
    match unescape name encodeUserPassword, unescape pwd encodeUserPassword with
    | Ok name, Ok pwd => Ok (mkUserinfo name pwd found)
    | Err err, _ | Ok _, Err err => Err err
    end.

Definition parseAuthority (scheme authority : string) : res (option Userinfo * string) :=
  let '(userinfo, hostport) :=
    match CutLast authority "@"%char with
    | None => (None, authority)
    | Some (userinfo, hostport) => (Some userinfo, hostport)
    end in
  match parseHost scheme hostport, userinfo with
  | Err err, _ => Err err
  | Ok host, None => Ok (None, host)
  | Ok host, Some userinfo =>
      match parseUserinfo userinfo with
      | Err err => Err err
      | Ok user => Ok (Some user, host)
      end
  end.

(** The path and its given encoding, if that is not the default one. *)
Definition set_encoded (mode : encoding) (p : string) : res (string * string) :=
  match unescape p mode with
  | Err err => Err err
  | Ok path => Ok (path, if decide (p = escape path mode) then EmptyString else p)
  end.

(** The reference after the scheme and before the fragment. *)
Definition parse_rest (scheme rest : string) : res URL :=
  let '(rest, forceQuery, rawQuery) :=
    match Cut rest "?"%char with
    | (before, EmptyString, true) => (before, true, EmptyString)
    | (before, after, _) => (before, false, after)
    end in
  let url user host path rawPath omitHost :=
    mkURL scheme EmptyString user host path rawPath omitHost forceQuery rawQuery EmptyString EmptyString in
  let with_path user host omitHost rest :=
    match set_encoded encodePath rest with
    | Err err => Err err
    | Ok (path, rawPath) => Ok (url user host path rawPath omitHost)
    end in
  let has_scheme := negb (bool_decide (scheme = EmptyString)) in
  if negb (HasPrefix rest "/") && has_scheme then
    Ok (mkURL scheme rest None EmptyString EmptyString EmptyString false forceQuery rawQuery
          EmptyString EmptyString)
  else if negb (HasPrefix rest "/") && ContainsByte (Cut rest "/"%char).1.1 ":"%char then
    Err (ErrText "first path segment in URL cannot contain colon")
  else if (has_scheme || negb (HasPrefix rest "///")) && HasPrefix rest "//" then
    let authority := String.substring 2 (String.length rest) rest in
    let '(authority, rest) :=
      match Cut authority "/"%char with
      | (before, after, true) => (before, String "/" after)
      | (before, _, false) => (before, EmptyString)
      end in
    match parseAuthority scheme authority with
    | Err err => Err err
    | Ok (user, host) => with_path user host false rest
    end
  else with_path None EmptyString (has_scheme && HasPrefix rest "/") rest.

Definition parse (rawURL : string) : res URL :=
  if stringContainsCTLByte rawURL then Err (ErrText "net/url: invalid control character in URL")
  else if decide (rawURL = "*"%string) then
    Ok (mkURL EmptyString EmptyString None EmptyString "*" EmptyString false false EmptyString
          EmptyString EmptyString)
  else
    match getScheme true rawURL with
    | Err err => Err err
    | Ok None => parse_rest EmptyString rawURL
    | Ok (Some (scheme, rest)) => parse_rest (ToLower scheme) rest
    end.

(** The text of a [*url.Error] names the URL that was parsed. *)
Definition Error (rawURL : string) (err : error) : error := Errorf "parse %q: %w" [rawURL] err.

Definition Parse (rawURL : string) : res URL :=
  let '(u, frag, _) := Cut rawURL "#"%char in
  match parse u with
  | Err err => Err (Error u err)
  | Ok url =>
      if decide (frag = EmptyString) then Ok url
      else
        match set_encoded encodeFragment frag with
        | Err err => Err (Error rawURL err)
        | Ok (f, rawF) =>
            Ok (mkURL (Scheme url) (Opaque url) (User url) (Host url) (Path url) (RawPath url)
                  (OmitHost url) (ForceQuery url) (RawQuery url) f rawF)
        end
  end.
End Parse.

(** *** Query parameters *)

Abbreviation Values := (gmap string (list string)) (only parsing).

(** [GODEBUG=urlmaxqueryparams] by default. *)
Definition urlmaxqueryparams : nat := 10000.

(** [for query != "" { key, query, _ = strings.Cut(query, "&"); ... }], by the number
    of the separators. *)
Fixpoint parseQuery_from (fuel : nat) (query : string) (m : Values) : Values :=
  match fuel with
  | O => m
  | S fuel =>
      if decide (query = EmptyString) then m
      else
        let '(key, query, _) := Cut query "&"%char in
        if ContainsByte key ";"%char || bool_decide (key = EmptyString)
        then parseQuery_from fuel query m
        else
          let '(key, value, _) := Cut key "="%char in
          match unescape key encodeQueryComponent, unescape value encodeQueryComponent with
          | Ok key, Ok value =>
              parseQuery_from fuel query (<[key := default [] (m !! key) ++ [value]]> m)
          | _, _ => parseQuery_from fuel query m
          end
  end.

Definition parseQuery (query : string) : Values :=
  if (urlmaxqueryparams <? S (CountByte query "&"%char))%nat then ∅
  else parseQuery_from (S (CountByte query "&"%char)) query ∅.

Definition Query (u : URL) : Values := parseQuery (RawQuery u).

Definition join_amp (l : list string) : string := String.concat "&" l.

(** [Values.Encode]: the keys in order. *)
Definition Encode (m : Values) : string :=
  join_amp (flat_map (fun k =>
      (fun v => escape k encodeQueryComponent +:+ "=" +:+ escape v encodeQueryComponent)
        <$> default [] (m !! k))
    (sort_Strings (fst <$> map_to_list m))).

(** *** Printing *)

Fixpoint validEncoded (s : string) (mode : encoding) : bool :=
  match s with
  | EmptyString => true
  | String c s => (one_of "!$&'()*+,;=:@[]%" c || negb (shouldEscape c mode)) && validEncoded s mode
  end.

(** The given encoding where it is one, else the default one. *)
Definition encoded (raw plain : string) (mode : encoding) : string :=
  if negb (bool_decide (raw = EmptyString)) && validEncoded raw mode &&
     bool_decide (unescape raw mode = Ok plain)
  then raw
  else escape plain mode.

Definition EscapedPath (u : URL) : string :=
  if negb (bool_decide (RawPath u = EmptyString)) && validEncoded (RawPath u) encodePath &&
     bool_decide (unescape (RawPath u) encodePath = Ok (Path u)) then RawPath u
  else if decide (Path u = "*"%string) then "*"
  else escape (Path u) encodePath.

Definition Userinfo_String (ui : Userinfo) : string :=
  escape (username ui) encodeUserPassword +:+
  (if passwordSet ui then ":" +:+ escape (password ui) encodeUserPassword else EmptyString).

Definition empty (s : string) : bool := bool_decide (s = EmptyString).

(** What [URL.String] writes before the query. *)
Definition String_front (u : URL) : string :=
  let scheme := if empty (Scheme u) then EmptyString else Scheme u +:+ ":" in
  if negb (empty (Opaque u)) then scheme +:+ Opaque u
  else
    let nouser := bool_decide (User u = None) in
    let authority :=
      if (negb (empty (Scheme u)) || negb (empty (Host u)) || negb nouser) &&
         negb (OmitHost u && empty (Host u) && nouser)
      then (if negb (empty (Host u)) || negb (empty (Path u)) || negb nouser then "//" else EmptyString) +:+
           (match User u with Some ui => Userinfo_String ui +:+ "@" | None => EmptyString end) +:+
           (if empty (Host u) then EmptyString else escape (Host u) encodeHost)
      else EmptyString in
    let path := EscapedPath u in
    let slash := if negb (empty path) && negb (HasPrefix path "/") && negb (empty (Host u))
                 then "/" else EmptyString in
    let front := scheme +:+ authority +:+ slash in
    let dot := if empty front && ContainsByte (Cut path "/"%char).1.1 ":"%char then "./" else EmptyString in
    front +:+ dot +:+ path.

Definition URL_String (u : URL) : string :=
  String_front u +:+
  (if ForceQuery u || negb (empty (RawQuery u)) then "?" +:+ RawQuery u else EmptyString) +:+
  (if empty (Fragment u) then EmptyString
   else "#" +:+ encoded (RawFragment u) (Fragment u) encodeFragment).
End url.
