(* ===== verification/Config.v ===== *)
(** * Config: the configuration (internal/config/config.go)

    Environment variables to a [Config], its validation, and the redaction of
    secrets for human-facing output.  The environment is a function from names to
    values ([os.Getenv]: empty when unset). *)

From S2P Require Import Prelude GoSort GoText GoUrl.

Module config.
Section Config.
Context `{GoLib}.

Definition StoreMemory : string := "memory".
Definition StorePostgres : string := "postgres".

(** [StoreDriver] is a string type. *)
Record Config : Type := mkConfig {
  GRPCBindAddr : string;
  MetricsBindAddr : string;
  Store : string;
  PostgresURL : string;
  RateLimiterAddr : string;
  LogLevel : string;
}.

Definition environ : Type := string -> string.

Definition getEnv (env : environ) (key fallback : string) : string :=
  if decide (env key <> EmptyString) then env key else fallback.

Definition Load (env : environ) : Config :=
  let c := mkConfig
    (getEnv env "KEYCHAIN_GRPC_BIND_ADDR" "0.0.0.0:8080")
    (getEnv env "KEYCHAIN_METRICS_BIND_ADDR" "0.0.0.0:9090")
    (strings.ToLower (getEnv env "KEYCHAIN_STORE" EmptyString))
    (getEnv env "KEYCHAIN_POSTGRES_URL" EmptyString)
    (getEnv env "KEYCHAIN_RATELIMITER_ADDR" EmptyString)
    (strings.ToLower (getEnv env "KEYCHAIN_LOG_LEVEL" "info")) in
  if decide (Store c = EmptyString) then
    mkConfig (GRPCBindAddr c) (MetricsBindAddr c)
      (if decide (PostgresURL c <> EmptyString) then StorePostgres else StoreMemory)
      (PostgresURL c) (RateLimiterAddr c) (LogLevel c)
  else c.

Definition validatePostgresURL (raw : string) : option error :=
  match url.Parse raw with
  | Err err => Some (Errorf "KEYCHAIN_POSTGRES_URL invalid: %w" [] err)
  | Ok u =>
      if negb (bool_decide (url.Scheme u = "postgres"%string \/ url.Scheme u = "postgresql"%string)) then
        Some (ErrorfText "KEYCHAIN_POSTGRES_URL must use postgres or postgresql scheme, got %q" [url.Scheme u])
      else if decide (url.Host u = EmptyString) then
        Some (ErrText "KEYCHAIN_POSTGRES_URL must include a host")
      else None
  end.

Definition log_levels : list string := ["debug"; "info"; "warn"; "error"]%string.

Definition validate_level (c : Config) : option error :=
  if decide (LogLevel c ∈ log_levels) then None
  else Some (ErrorfText "KEYCHAIN_LOG_LEVEL=%q is unsupported" [LogLevel c]).

Definition Validate (c : Config) : option error :=
  if decide (GRPCBindAddr c = EmptyString) then Some (ErrText "KEYCHAIN_GRPC_BIND_ADDR is required")
  else if decide (MetricsBindAddr c = EmptyString) then
    Some (ErrText "KEYCHAIN_METRICS_BIND_ADDR is required")
  else if negb (bool_decide (Store c = StoreMemory \/ Store c = StorePostgres)) then
    Some (ErrorfText "KEYCHAIN_STORE=%q is unsupported; use memory or postgres" [Store c])
  else if decide (Store c = StorePostgres) then
    if decide (PostgresURL c = EmptyString) then
      Some (ErrText "KEYCHAIN_POSTGRES_URL is required when KEYCHAIN_STORE=postgres")
    else
      match validatePostgresURL (PostgresURL c) with
      | Some err => Some err
      | None => validate_level c
      end
  else validate_level c.

(** ** Redaction *)

Definition REDACTED : string := "REDACTED".

Definition secret_param (k : string) : bool :=
  bool_decide (strings.ToLower k = "password"%string \/ strings.ToLower k = "sslpassword"%string).

(** [for k, values := range q]: the values of the secret parameters, each replaced;
    the order of the range does not matter, as no key is written but the current one. *)
Definition scrub_values (q : gmap string (list string)) : gmap string (list string) :=
  map_imap (fun k values => Some (if secret_param k then map (fun _ => REDACTED) values else values)) q.

Definition has_secret_param (q : gmap string (list string)) : bool :=
  existsb (fun kv => secret_param kv.1) (map_to_list q).

Definition has_password (u : url.URL) : bool :=
  match url.User u with
  | Some ui => url.passwordSet ui
  | None => false
  end.

Definition scrub_user (ui : option url.Userinfo) : option url.Userinfo :=
  match ui with
  | Some ui => Some (if url.passwordSet ui then url.mkUserinfo (url.username ui) REDACTED true else ui)
  | None => None
  end.

Definition redactURL (raw : string) : string :=
  if decide (raw = EmptyString) then EmptyString
  else
    match url.Parse raw with
    | Err _ => raw
    | Ok u =>
        let q := url.Query u in
        if has_password u || has_secret_param q then
          url.URL_String
            (url.mkURL (url.Scheme u) (url.Opaque u) (scrub_user (url.User u)) (url.Host u) (url.Path u)
               (url.RawPath u) (url.OmitHost u) (url.ForceQuery u) (url.Encode (scrub_values q))
               (url.Fragment u) (url.RawFragment u))
        else raw
    end.

Definition Redacted (c : Config) : Config :=
  mkConfig (GRPCBindAddr c) (MetricsBindAddr c) (Store c) (redactURL (PostgresURL c))
    (RateLimiterAddr c) (LogLevel c).
(** The value of [json.MarshalIndent]: the fields under their tags, in order. *)
Definition JSON (c : Config) : json :=
  JObject [("grpc_bind_addr", JString (to_valid (GRPCBindAddr c)));
           ("metrics_bind_addr", JString (to_valid (MetricsBindAddr c)));
           ("store", JString (to_valid (Store c)));
           ("postgres_url", JString (to_valid (PostgresURL c)));
           ("rate_limiter_addr", JString (to_valid (RateLimiterAddr c)));
           ("log_level", JString (to_valid (LogLevel c)))]%string.
End Config.
End config.
