(* ===== verification/ConfigTheorems.v ===== *)
(** * ConfigTheorems: the theorems about the configuration

    The defaults of [Load], [Validate] against its specification and as the first
    failure of a list of checks, and what [Redacted] hides and does not hide. *)

From S2P Require Import Prelude GoSort GoText GoUrl Config.
Import config.

Section Theorems.
Context `{GoLib}.

(** ** Validation *)

(** A URL the PostgreSQL driver can be opened with. *)
Definition postgres_url (raw : string) : Prop :=
  exists u, url.Parse raw = Ok u /\
    (url.Scheme u = "postgres"%string \/ url.Scheme u = "postgresql"%string) /\ url.Host u <> EmptyString.

Definition valid_config (c : Config) : Prop :=
  GRPCBindAddr c <> EmptyString /\ MetricsBindAddr c <> EmptyString /\
  (Store c = StoreMemory \/ Store c = StorePostgres /\ postgres_url (PostgresURL c)) /\
  LogLevel c ∈ log_levels.

Definition is_None {A} (o : option A) : bool := match o with None => true | Some _ => false end.

(** The settings in the order they are checked, each with its error. *)
Definition checks (c : Config) : list (option error) :=
  let unless (b : bool) err := if b then None else Some err in
  let pg := bool_decide (Store c = StorePostgres) in
  [ unless (negb (bool_decide (GRPCBindAddr c = EmptyString))) (ErrText "KEYCHAIN_GRPC_BIND_ADDR is required");
    unless (negb (bool_decide (MetricsBindAddr c = EmptyString)))
      (ErrText "KEYCHAIN_METRICS_BIND_ADDR is required");
    unless (bool_decide (Store c = StoreMemory) || pg)
      (ErrorfText "KEYCHAIN_STORE=%q is unsupported; use memory or postgres" [Store c]);
    unless (negb pg || negb (bool_decide (PostgresURL c = EmptyString)))
      (ErrText "KEYCHAIN_POSTGRES_URL is required when KEYCHAIN_STORE=postgres");
    (if pg then validatePostgresURL (PostgresURL c) else None);
    validate_level c ].

Fixpoint first_failure (l : list (option error)) : option error :=
  match l with
  | [] => None
  | Some err :: _ => Some err
  | None :: l => first_failure l
  end.

Lemma validatePostgresURL_spec raw : validatePostgresURL raw = None <-> postgres_url raw.
Proof.
  unfold validatePostgresURL, postgres_url. destruct (url.Parse raw) as [u|err]; [|naive_solver].
  case_bool_decide; cbn [negb]; [|naive_solver]. case_decide; naive_solver.
Qed.

Lemma validate_level_spec c : validate_level c = None <-> LogLevel c ∈ log_levels.
Proof. unfold validate_level. by case_decide. Qed.

Lemma Parse_empty : exists u, url.Parse EmptyString = Ok u /\ url.Scheme u = EmptyString /\
  has_password u = false /\ url.Query u = ∅.
Proof. eexists. split_and!; reflexivity. Qed.

Lemma postgres_url_nonempty raw : postgres_url raw -> raw <> EmptyString.
Proof.
  intros (u & Hp & Hs & _) ->. destruct Parse_empty as (u' & Hp' & Hs' & _).
  rewrite Hp' in Hp. injection Hp as <-. rewrite Hs' in Hs. by destruct Hs.
Qed.

(** C30. [Validate] accepts exactly the configurations the service can start with,
    and otherwise reports the first setting that is invalid, in the order of the
    checks. *)
Theorem config_validation c :
  (Validate c = None <-> valid_config c) /\ Validate c = first_failure (checks c).
Proof.
  split.
  - unfold Validate, valid_config.
    pose proof (postgres_url_nonempty (PostgresURL c)) as Hne.
    pose proof (validate_level_spec c) as Hl. pose proof (validatePostgresURL_spec (PostgresURL c)) as Hp.
    case_decide as Hg; [by split; [|intros (? & _)]|]. case_decide as Hm; [by split; [|intros (_ & ? & _)]|].
    case_bool_decide as Hs; cbn [negb]; [|by split; [|intros (_ & _ & [?|[? _]] & _); destruct Hs; auto]].
    assert (Hmp : StoreMemory <> StorePostgres) by done.
    case_decide as Hpg.
    2: { destruct Hs as [Hs|]; [|done]. rewrite Hl. split; [auto|]. by intros (_ & _ & _ & ?). }
    case_decide as Hu; [split; [done|]; intros (_ & _ & [?|[_ ?%Hne]] & _); congruence|].
    destruct (validatePostgresURL _) as [err|].
    + split; [done|]. intros (_ & _ & [?|[_ ?%Hp]] & _); congruence.
    + rewrite Hl. split; [|by intros (_ & _ & _ & ?)]. intros Hlev. split_and!; [done..| |done].
      right. split; [done|]. by apply Hp.
  - unfold Validate, checks. cbn [first_failure].
    case_decide; [by rewrite (bool_decide_eq_true_2 (GRPCBindAddr c = _))|
      rewrite (bool_decide_eq_false_2 (GRPCBindAddr c = _)) by done].
    case_decide; [by rewrite (bool_decide_eq_true_2 (MetricsBindAddr c = _))|
      rewrite (bool_decide_eq_false_2 (MetricsBindAddr c = _)) by done].
    cbn [negb]. rewrite bool_decide_or. destruct (bool_decide (Store c = StoreMemory) || _); cbn [negb]; [|done].
    case_decide; [rewrite bool_decide_eq_true_2 by done|
      rewrite bool_decide_eq_false_2 by done; cbn; by destruct (validate_level c)].
    case_decide; [by rewrite bool_decide_eq_true_2|rewrite bool_decide_eq_false_2 by done].
    cbn. destruct (validatePostgresURL _); [done|]. by destruct (validate_level c).
Qed.

Lemma getEnv_nonempty env key d : d <> EmptyString -> getEnv env key d <> EmptyString.
Proof. unfold getEnv. by case_decide. Qed.

Lemma getEnv_unset env key d : env key = EmptyString -> getEnv env key d = d.
Proof. intros He. unfold getEnv. case_decide; [contradiction|done]. Qed.

Lemma getEnv_no_default env key : getEnv env key EmptyString = env key.
Proof. unfold getEnv. case_decide; congruence. Qed.

(** [Load] fills in the defaults: the bind addresses and the driver are never
    empty, an explicit driver is kept in lower case, and without one the driver is
    postgres exactly when a URL is given; an empty environment is a valid
    configuration with the in-memory store. *)
Theorem Load_defaults env :
  let c := Load env in
  GRPCBindAddr c <> EmptyString /\ MetricsBindAddr c <> EmptyString /\ Store c <> EmptyString /\
  PostgresURL c = env "KEYCHAIN_POSTGRES_URL"%string /\
  (env "KEYCHAIN_STORE"%string = EmptyString ->
    Store c = if decide (PostgresURL c = EmptyString) then StoreMemory else StorePostgres) /\
  (strings.ToLower (env "KEYCHAIN_STORE"%string) <> EmptyString ->
    Store c = strings.ToLower (env "KEYCHAIN_STORE"%string)) /\
  ((forall key, env key = EmptyString) -> Validate c = None /\ Store c = StoreMemory).
Proof.
  cbn zeta. unfold Load. cbn [GRPCBindAddr MetricsBindAddr Store PostgresURL RateLimiterAddr LogLevel].
  rewrite !getEnv_no_default. split_and!.
  1, 2: case_decide; cbn; by apply getEnv_nonempty.
  - case_decide; cbn; [by case_decide|done].
  - by case_decide.
  - intros ->. cbn. by repeat case_decide.
  - intros Hs. by rewrite decide_False.
  - intros He. rewrite !He, !getEnv_unset by done. by vm_compute.
Qed.

(** ** Redaction *)

(** Two users that differ at most in their password. *)
Definition same_user (u u' : option url.Userinfo) : Prop :=
  match u, u' with
  | None, None => True
  | Some u, Some u' =>
      url.username u = url.username u' /\ url.passwordSet u = url.passwordSet u' /\
      (url.passwordSet u = false -> url.password u = url.password u')
  | _, _ => False
  end.

(** Two queries that differ at most in the values of the secret parameters. *)
Definition same_params (q q' : gmap string (list string)) : Prop :=
  forall k, match q !! k, q' !! k with
            | None, None => True
            | Some l, Some l' => if secret_param k then length l = length l' else l = l'
            | _, _ => False
            end.

(** Two URLs that differ at most in their secrets. *)
Record same_but_secrets (u u' : url.URL) : Prop := {
  same_scheme : url.Scheme u = url.Scheme u';
  same_opaque : url.Opaque u = url.Opaque u';
  same_users : same_user (url.User u) (url.User u');
  same_host : url.Host u = url.Host u';
  same_path : url.Path u = url.Path u' /\ url.RawPath u = url.RawPath u' /\ url.OmitHost u = url.OmitHost u';
  same_query : url.ForceQuery u = url.ForceQuery u' /\ same_params (url.Query u) (url.Query u');
  same_fragment : url.Fragment u = url.Fragment u' /\ url.RawFragment u = url.RawFragment u';
}.

Definition has_secret (u : url.URL) : bool := has_password u || has_secret_param (url.Query u).

Lemma scrub_user_same u u' : same_user u u' -> scrub_user u = scrub_user u'.
Proof.
  destruct u as [[n p b]|], u' as [[n' p' b']|]; cbn; try done. intros (-> & -> & Hp).
  destruct b'; [done|]. by rewrite Hp.
Qed.

Lemma map_const {A B} (x : B) (l l' : list A) :
  length l = length l' -> map (fun _ => x) l = map (fun _ => x) l'.
Proof. revert l'. induction l as [|a l IH]; intros [|a' l']; cbn; try done. intros [= Hl]. by rewrite (IH l'). Qed.

Lemma scrub_values_same q q' : same_params q q' -> scrub_values q = scrub_values q'.
Proof.
  intros Hs. apply map_eq. intros k. unfold scrub_values. rewrite !map_lookup_imap. specialize (Hs k).
  destruct (q !! k), (q' !! k); cbn; try done. destruct (secret_param k); [|by subst]. by rewrite (map_const _ _ _ Hs).
Qed.

Lemma has_secret_param_spec q : has_secret_param q = true <-> exists k, is_Some (q !! k) /\ secret_param k = true.
Proof.
  unfold has_secret_param. rewrite existsb_exists. split.
  - intros ([k l] & Hin & Hs). apply list_elem_of_In, elem_of_map_to_list in Hin. exists k. by rewrite Hin.
  - intros (k & [l Hl] & Hs). exists (k, l). split; [|done]. by apply list_elem_of_In, elem_of_map_to_list.
Qed.

Lemma has_secret_same u u' : same_but_secrets u u' -> has_secret u = has_secret u'.
Proof.
  intros []. destruct same_query0 as [_ Hq]. unfold has_secret. f_equal.
  - unfold has_password. destruct (url.User u), (url.User u'); cbn in *; naive_solver.
  - apply eq_true_iff_eq. rewrite !has_secret_param_spec. apply exist_proper. intros k. specialize (Hq k).
    destruct (url.Query u !! k), (url.Query u' !! k); try done; split; intros [_ ?]; by split.
Qed.

Lemma secret_nonempty raw u : url.Parse raw = Ok u -> has_secret u = true -> raw <> EmptyString.
Proof.
  intros Hv Hsv ->. destruct Parse_empty as (v' & Hv' & _ & Hpw & Hq).
  rewrite Hv' in Hv. injection Hv as <-. unfold has_secret in Hsv. by rewrite Hpw, Hq in Hsv.
Qed.

Lemma redacted_same raw raw' u u' :
  url.Parse raw = Ok u -> url.Parse raw' = Ok u' -> same_but_secrets u u' -> has_secret u = true ->
  redactURL raw = redactURL raw'.
Proof.
  intros Hp Hp' Hs Hh. pose proof Hh as Hh'. rewrite (has_secret_same u u' Hs) in Hh'.
  unfold redactURL. rewrite !decide_False by by eapply secret_nonempty. rewrite Hp, Hp'.
  unfold has_secret in Hh, Hh'. rewrite Hh, Hh'.
  destruct Hs as [-> -> Hu -> (-> & -> & ->) (-> & Hq) (-> & ->)].
  by rewrite (scrub_user_same _ _ Hu), (scrub_values_same _ _ Hq).
Qed.

Lemma Validate_same a b c d e raw raw' u u' :
  url.Parse raw = Ok u -> url.Parse raw' = Ok u' -> same_but_secrets u u' -> has_secret u = true ->
  Validate (mkConfig a b c raw d e) = Validate (mkConfig a b c raw' d e).
Proof.
  intros Hp Hp' Hs Hh. pose proof Hh as Hh'. rewrite (has_secret_same u u' Hs) in Hh'.
  assert (Hv : validatePostgresURL raw = validatePostgresURL raw').
  { unfold validatePostgresURL. rewrite Hp, Hp'. destruct Hs as [-> _ _ -> _ _ _]. done. }
  unfold Validate. cbn [GRPCBindAddr MetricsBindAddr Store PostgresURL]. rewrite Hv.
  rewrite (decide_False (P := raw = _)), (decide_False (P := raw' = _)) by by eapply secret_nonempty. done.
Qed.

(** Redaction hides the secrets.  Two URLs that parse to the same up to the
    password of the user and the values of the password parameters have the same
    redacted form, as soon as they have such a secret: what is printed does not
    depend on it. *)
Theorem redactURL_hides raw raw' u u' :
  url.Parse raw = Ok u -> url.Parse raw' = Ok u' -> same_but_secrets u u' -> has_secret u = true ->
  redactURL raw = redactURL raw'.
Proof. apply redacted_same. Qed.

(** A URL that does not parse is not redacted, and the error names it up to its
    fragment. *)
Lemma unparsable_url_kept raw err :
  url.Parse raw = Err err ->
  redactURL raw = raw /\
  exists shown cause, validatePostgresURL raw =
      Some (Errorf "KEYCHAIN_POSTGRES_URL invalid: %w" [] (Errorf "parse %q: %w" [shown] cause)) /\
    (shown = raw \/ shown = (strings.Cut raw "#"%char).1.1).
Proof.
  intros Hp. split.
  - unfold redactURL. rewrite Hp. by case_decide.
  - unfold validatePostgresURL. rewrite Hp. unfold url.Parse in Hp.
    destruct (strings.Cut raw "#") as [[u frag] found]. destruct (url.parse u).
    + case_decide; [done|]. destruct (url.set_encoded _ _) as [[f r]|]; [done|]. injection Hp as <-. eauto 6.
    + injection Hp as <-. eauto 6.
Qed.

(** The addresses of a loaded configuration are not empty. *)
Lemma Load_addresses env : GRPCBindAddr (Load env) <> EmptyString /\ MetricsBindAddr (Load env) <> EmptyString.
Proof.
  assert (Hg : forall key d, d <> EmptyString -> getEnv env key d <> EmptyString).
  { intros key d Hd. unfold getEnv. by case_decide. }
  unfold Load. case_decide; cbn [GRPCBindAddr MetricsBindAddr]; by split; apply Hg.
Qed.

Lemma Load_PostgresURL env : PostgresURL (Load env) = env "KEYCHAIN_POSTGRES_URL"%string.
Proof.
  assert (Hg : getEnv env "KEYCHAIN_POSTGRES_URL" EmptyString = env "KEYCHAIN_POSTGRES_URL"%string).
  { unfold getEnv. by case_decide. }
  unfold Load. case_decide; cbn [PostgresURL]; exact Hg.
Qed.

(** With the store of PostgreSQL the URL is the first thing that can be wrong. *)
Lemma Validate_url env err :
  Store (Load env) = StorePostgres -> env "KEYCHAIN_POSTGRES_URL"%string <> EmptyString ->
  validatePostgresURL (env "KEYCHAIN_POSTGRES_URL"%string) = Some err -> Validate (Load env) = Some err.
Proof.
  intros Hs Hne He. destruct (Load_addresses env) as [Hg Hm]. unfold Validate.
  rewrite (decide_False (P := GRPCBindAddr _ = _)), (decide_False (P := MetricsBindAddr _ = _)) by done.
  rewrite Hs, (decide_True (P := StorePostgres = StorePostgres)) by done.
  rewrite bool_decide_eq_true_2 by by right. cbn [negb]. rewrite Load_PostgresURL.
  rewrite (decide_False (P := _ = EmptyString)) by done. by rewrite He.
Qed.
End Theorems.

(** ** Witnesses

    Any host that is not empty and has no brackets, and no text beyond ASCII. *)

#[local] Instance demo_lib : GoLib := {|
  map_ToLower := fun s => s;
  parseHost := fun _ h => if strings.ContainsByte h "["%char then Err (ErrText "invalid host") else Ok h;
|}.

Definition demo_env (url : string) : environ := fun key =>
  if decide (key = "KEYCHAIN_POSTGRES_URL"%string) then url
  else if decide (key = "KEYCHAIN_LOG_LEVEL"%string) then "WARN"%string
  else EmptyString.

(** The configurations of the tests of the package. *)
Example demo_loads :
  Validate (Load (demo_env "postgres://u:p@db:5432/keychain?sslmode=disable")) = None /\
  Store (Load (demo_env "postgres://u:p@db:5432/keychain?sslmode=disable")) = StorePostgres /\
  is_None (Validate (Load (demo_env "http://db:5432/keychain"))) = false /\
  is_None (Validate (Load (demo_env "postgres://"))) = false /\
  is_None (Validate (Load (demo_env "postgresql:///keychain"))) = false /\
  is_None (Validate (Load (demo_env "postgres://[::1"))) = false.
Proof. vm_compute. repeat split. Qed.

Example demo_redactions :
  redactURL "postgres://user:supersecret@db:5432/keychain?sslmode=disable" =
    "postgres://user:REDACTED@db:5432/keychain?sslmode=disable"%string /\
  redactURL "postgres://db:5432/keychain?user=keychain&password=supersecret&sslmode=disable" =
    "postgres://db:5432/keychain?password=REDACTED&sslmode=disable&user=keychain"%string /\
  redactURL "postgres://user@db:5432/keychain?sslmode=disable" =
    "postgres://user@db:5432/keychain?sslmode=disable"%string /\
  redactURL "://not a url" = "://not a url"%string.
Proof. vm_compute. repeat split. Qed.

(** Two queries, compared on the parameters they have. *)
Definition same_params_check (q q' : gmap string (list string)) : bool :=
  forallb (fun k => match q !! k, q' !! k with
                    | None, None => true
                    | Some l, Some l' => if secret_param k then (length l =? length l')%nat else bool_decide (l = l')
                    | _, _ => false
                    end) (map fst (map_to_list q) ++ map fst (map_to_list q')).

Lemma same_params_check_ok q q' : same_params_check q q' = true -> same_params q q'.
Proof.
  intros Hc k. unfold same_params_check in Hc. rewrite forallb_app in Hc. apply andb_true_iff in Hc as [Hc Hc'].
  rewrite forallb_forall in Hc, Hc'.
  assert (Hin : forall (m : gmap string (list string)) l, m !! k = Some l -> In k (map fst (map_to_list m))).
  { intros m l Hl. apply in_map_iff. exists (k, l). split; [done|]. by apply list_elem_of_In, elem_of_map_to_list. }
  destruct (q !! k) as [l|] eqn:Hl, (q' !! k) as [l'|] eqn:Hl'; try done.
  - specialize (Hc k (Hin _ _ Hl)). rewrite Hl, Hl' in Hc.
    destruct (secret_param k); [by apply Nat.eqb_eq|by apply bool_decide_eq_true in Hc].
  - specialize (Hc k (Hin _ _ Hl)). by rewrite Hl, Hl' in Hc.
  - specialize (Hc' k (Hin _ _ Hl')). by rewrite Hl, Hl' in Hc'.
Qed.

Definition demo_url : string := "postgres://alice:hunter2@db:5432/keychain?sslmode=disable&sslpassword=one".
Definition demo_url' : string := "postgres://alice:swordfish@db:5432/keychain?sslpassword=two&sslmode=disable".

Definition parsed (raw : string) : url.URL :=
  match url.Parse raw with
  | Ok u => u
  | Err _ => url.mkURL EmptyString EmptyString None EmptyString EmptyString EmptyString false false
               EmptyString EmptyString EmptyString
  end.

Lemma demo_same : same_but_secrets (parsed demo_url) (parsed demo_url').
Proof.
  split; try (vm_compute; by repeat split).
  split; [done|]. apply same_params_check_ok. vm_compute. reflexivity.
Qed.

Lemma redactURL_hides_witness :
  redactURL demo_url = "postgres://alice:REDACTED@db:5432/keychain?sslmode=disable&sslpassword=REDACTED"%string /\
  redactURL demo_url = redactURL demo_url'.
Proof.
  split; [vm_compute; reflexivity|].
  refine (redactURL_hides demo_url demo_url' (parsed demo_url) (parsed demo_url') _ _ demo_same _);
    vm_compute; reflexivity.
Defined.
