(* ===== verification/Main.v ===== *)
(** * Main: the command (cmd/keychain/main.go)

    Command dispatch, the wiring of the configuration, the store, the fail-closed
    rate limiter and the servers, and the shutdown, as programs over the events of
    the process.  A [defer] is the event after the deferred body.  Goroutines,
    channels and [select] are events: [Go] starts a goroutine by name, and [body] is
    the program it runs.  A library call that blocks while other events change what it
    waits for is two events, its start and its return. *)

From stdpp Require Import pretty.
From S2P Require Import Prelude Effects GoText GoUrl Store Server Postgres Config.

Module main.

(** ** The process *)

Inductive output : Type :=
| OutText (s : string)
| OutJSON (j : json).

(** The value of an attribute of a log line. *)
Inductive attr : Type :=
| AStr (s : string)
| AErr (err : error).

Record Logger : Type := mkLogger { level : Z }.

(** The channels, by the variable that holds them: [errCh], [stopped]. *)
Inductive chan : Type := ErrCh | Stopped.

#[export] Instance chan_eq_dec : EqDecision chan.
Proof. solve_decision. Defined.

(** A case of a [select]: [<-ctx.Done()], [<-c], [<-time.After(d)] in seconds. *)
Inductive case : Type :=
| Done
| Recv (c : chan)
| After (seconds : Z).

#[export] Instance case_eq_dec : EqDecision case.
Proof. solve_decision. Defined.

(** The goroutines, by the [go] statement that starts them. *)
Inductive goroutine : Type :=
| ServeTo (errCh : chan)
| ServeThenClose (errCh : chan)
| GracefulStopThenClose (stopped : chan)
| ListenMetrics (logger : Logger)
| ShutdownOnDone.

(** A received value: nil of a channel of errors, and the zero value. *)
Abbreviation received := (option error).

Inductive MainE : Type -> Type :=
| Println (o : output) : MainE unit
| Eprintln (err : error) : MainE unit
| Exit (code : Z) : MainE unit
| Log (l : Logger) (lvl : Z) (msg : string) (args : list (string * attr)) : MainE unit
| NotifyContext : MainE unit
| StopNotify : MainE unit
| RegisterService (name : string) : MainE unit
| SetServingStatus (name : string) : MainE unit
| Listen (addr : string) : MainE (res string)
| NewMetrics (addr : string) (routes : list (string * string)) : MainE unit
| MakeChan (c : chan) (cap : nat) : MainE unit
| Go (g : goroutine) : MainE unit
| Select (a b : case) : MainE (received + received)
| Await (a : case) : MainE received
| Send (c : chan) (v : received) : MainE unit
| Close (c : chan) : MainE unit
| Serve : MainE (option error)
| GracefulStop : MainE unit
| GracefulStopReturns : MainE unit
| Stop : MainE unit
| ListenAndServe : MainE (option error)
| Shutdown (timeout_s : Z) : MainE unit.

(** The process, and the connections of the PostgreSQL store. *)
Abbreviation ProcE := (sumE postgres.OpenE MainE).
Abbreviation M := (prog ProcE).

Definition act {X} (e : MainE X) : M X := trigger (inrE e).

Definition LevelDebug : Z := -4.
Definition LevelInfo : Z := 0.
Definition LevelWarn : Z := 4.
Definition LevelError : Z := 8.

Definition newLogger (lvl : string) : Logger :=
  mkLogger
    (if decide (lvl = "debug"%string) then LevelDebug
     else if decide (lvl = "warn"%string) then LevelWarn
     else if decide (lvl = "error"%string) then LevelError
     else LevelInfo).

(** ** Store wiring *)

Inductive store : Type := MemoryStore | PostgresStore.

Definition openStore (cfg : config.Config) (logger : Logger) : M (res store) :=
  if decide (config.Store cfg = config.StoreMemory) then
    _ ← act (Log logger LevelWarn "using in-memory store; keys do not survive restarts" []);
    Ret (Ok MemoryStore)
  else if decide (config.Store cfg = config.StorePostgres) then
    s ← translate (fun X => inlE) (postgres.New (config.PostgresURL cfg));
    Ret match s with
        | Err err => Err err
        | Ok _ => Ok PostgresStore
        end
  else Ret (Err (ErrorfText "unsupported store %q" [config.Store cfg])).

(** The function [openStore] returns with the store. *)
Definition closeStore (st : store) : M unit :=
  match st with
  | MemoryStore => Ret tt
  | PostgresStore => translate (fun X => inlE) postgres.Close
  end.

(** ** The rate limiter that denies *)

Record failClosedRateLimiter : Type := mkFailClosed { addr : string; fc_logger : Logger }.

Definition newFailClosedRateLimiter (a : string) (logger : Logger) : M failClosedRateLimiter :=
  if decide (a <> EmptyString) then
    _ ← act (Log logger LevelWarn "KEYCHAIN_RATELIMITER_ADDR is set but limit-catalog wiring is not implemented; keys with limit_refs will fail closed" [("addr", AStr a)]%string);
    Ret (mkFailClosed a logger)
  else Ret (mkFailClosed a logger).

(** One denial for each reference. *)
Definition Consume (r : failClosedRateLimiter) (refs : slice LimitRef) (cost : Z) (requestID : string) :
    M (res (slice LimitDecision)) :=
  let out := (fun ref => mkLimitDecision (LimitRef_LimitID ref) (LimitRef_ScopeKey ref) false 0 0) <$> elems refs in
  _ ← act (Log (fc_logger r) LevelDebug "fail-closed rate-limiter denying refs"
             [("count", AStr (pretty (Z.of_nat (length (elems refs))))); ("cost", AStr (pretty cost))]%string);
  Ret (Ok (Some out)).

(** ** The metrics server *)

Definition quote : string := String (ascii_of_nat 34) EmptyString.

(** The pattern of [mux.HandleFunc] and the body its handler writes. *)
Definition healthz : string * string :=
  ("/healthz", "{" +:+ quote +:+ "status" +:+ quote +:+ ":" +:+ quote +:+ "ok" +:+ quote +:+ "}")%string.

Definition startMetricsServer (addr : string) (logger : Logger) : M unit :=
  _ ← act (NewMetrics addr [healthz]);
  _ ← act (Go (ListenMetrics logger));
  act (Go ShutdownOnDone).

Definition shutdownMetrics : M unit := act (Shutdown 5).

(** ** Serving and shutdown *)

Definition gracefulStopWithTimeout (logger : Logger) (timeout_s : Z) : M unit :=
  _ ← act (MakeChan Stopped 0);
  _ ← act (Go (GracefulStopThenClose Stopped));
  ready ← act (Select (Recv Stopped) (After timeout_s));
  _ ← match ready with
      | inl _ => Ret tt
      | inr _ =>
          _ ← act (Log logger LevelWarn "gRPC graceful stop timed out; forcing stop" []);
          act Stop
      end;
  shutdownMetrics.

Definition gracefulStop (logger : Logger) : M unit := gracefulStopWithTimeout logger 15.

Definition serveUntilDone (logger : Logger) : M (option error) :=
  _ ← act (MakeChan ErrCh 1);
  _ ← act (Go (ServeTo ErrCh));
  ready ← act (Select Done (Recv ErrCh));
  match ready with
  | inl _ =>
      _ ← act (Log logger LevelInfo "shutdown signal received" []);
      _ ← gracefulStop logger;
      Ret None
  | inr (Some err) => _ ← shutdownMetrics; Ret (Some (Errorf "gRPC serve: %w" [] err))
  | inr None => _ ← gracefulStop logger; Ret None
  end.

(** *** The goroutines *)

Definition serve_to (errCh : chan) : M unit := err ← act Serve; act (Send errCh err).

(** The one of the embedded example. *)
Definition serve_then_close (errCh : chan) : M unit :=
  err ← act Serve;
  _ ← match err with
      | Some e => if negb (errors_is e ErrServerStopped) then act (Send errCh err) else Ret tt
      | None => Ret tt
      end;
  act (Close errCh).

Definition graceful_stop_then_close (stopped : chan) : M unit :=
  _ ← act GracefulStop;
  _ ← act GracefulStopReturns;
  act (Close stopped).

Definition listen_metrics (logger : Logger) : M unit :=
  err ← act ListenAndServe;
  match err with
  | Some e =>
      if negb (errors_is e ErrServerClosed) then act (Log logger LevelError "metrics server failed" [("error", AErr e)]%string)
      else Ret tt
  | None => Ret tt
  end.

Definition shutdown_on_done : M unit := _ ← act (Await Done); act (Shutdown 5).

Definition body (g : goroutine) : M unit :=
  match g with
  | ServeTo errCh => serve_to errCh
  | ServeThenClose errCh => serve_then_close errCh
  | GracefulStopThenClose stopped => graceful_stop_then_close stopped
  | ListenMetrics logger => listen_metrics logger
  | ShutdownOnDone => shutdown_on_done
  end.

(** The body of [serveWithContext] after its deferred close. *)
Definition serve_with_store (cfg : config.Config) (logger : Logger) (st : store) : M (option error) :=
  limiter ← newFailClosedRateLimiter (config.RateLimiterAddr cfg) logger;
  match New logger (mkOptions (Some st) (Some limiter) (Some logger)) with
  | Err err => Ret (Some (Errorf "keychainserver.New: %w" [] err))
  | Ok _ =>
      _ ← act (RegisterService "apikey.v1.ApiKeyService");
      _ ← act (SetServingStatus EmptyString);
      _ ← act (SetServingStatus "apikey.v1.ApiKeyService");
      _ ← act (RegisterService "grpc.health.v1.Health");
      _ ← act (RegisterService "grpc.reflection.v1.ServerReflection");
      lis ← act (Listen (config.GRPCBindAddr cfg));
      match lis with
      | Err err => Ret (Some (Errorf "listen %s: %w" [config.GRPCBindAddr cfg] err))
      | Ok _ =>
          _ ← act (Log logger LevelInfo "gRPC listening" [("addr", AStr (config.GRPCBindAddr cfg))]%string);
          _ ← startMetricsServer (config.MetricsBindAddr cfg) logger;
          serveUntilDone logger
      end
  end.

Definition serveWithContext (cfg : config.Config) (logger : Logger) : M (option error) :=
  st ← openStore cfg logger;
  match st with
  | Err err => Ret (Some (Errorf "open store: %w" [] err))
  | Ok st =>
      err ← serve_with_store cfg logger st;
      _ ← closeStore st;
      Ret err
  end.

Section Main.
Context `{GoLib}.

Definition serve (env : config.environ) : M (option error) :=
  let cfg := config.Load env in
  match config.Validate cfg with
  | Some err => Ret (Some err)
  | None =>
      let logger := newLogger (config.LogLevel cfg) in
      _ ← act NotifyContext;
      err ← serveWithContext cfg logger;
      _ ← act StopNotify;
      Ret err
  end.

(** ** Commands *)

Definition helpText : string :=
"keychain commands:
  serve          Start the gRPC service (default)
  version        Print build version and commit
  print-config   Print resolved KEYCHAIN_* configuration as JSON
  help           Show this help".

Definition printConfig (env : config.environ) : M (option error) :=
  let cfg := config.Load env in
  _ ← act (Println (OutJSON (config.JSON (config.Redacted cfg))));
  Ret (config.Validate cfg).

(** [version] and [commit] are set when the binary is linked. *)
Definition run (version commit : string) (env : config.environ) (args : list string) : M (option error) :=
  let cmd := match args with [] => "serve"%string | cmd :: _ => cmd end in
  if decide (cmd = "serve"%string) then serve env
  else if decide (cmd = "version"%string) then
    _ ← act (Println (OutText ("keychain " +:+ version +:+ " (" +:+ commit +:+ ")"))); Ret None
  else if decide (cmd = "print-config"%string) then printConfig env
  else if decide (cmd ∈ ["help"; "-h"; "--help"]%string) then
    _ ← act (Println (OutText helpText)); Ret None
  else Ret (Some (ErrorfText "unknown command %q" [cmd])).

Definition main (version commit : string) (env : config.environ) (args : list string) : M unit :=
  err ← run version commit env args;
  match err with
  | Some err => _ ← act (Eprintln err); act (Exit 1)
  | None => Ret tt
  end.
End Main.
End main.
