(* ===== verification/MainTheorems.v ===== *)
(** * MainTheorems: the theorems about the command

    What a run releases and what it leaves behind, the order of a run, which store is
    opened, what print-config hides and what it does not, and that the rate limiter of
    the command denies keys with limits. *)

From S2P Require Import Prelude Effects GoSort GoText GoUrl Store StoreSpec Keymat Apikeyv1 Memory MemoryProps StoreFacts Server ServerLogic ServerSpec Rpc Interleaving Demo Services Postgres Config ConfigTheorems Main.
Import main.

(** ** What a run holds *)

(** [MigrationConn] is the connection that the migrate driver keeps, [GRPCServer] a
    gRPC server that was started and not stopped: its connections may be live. *)
Inductive resource : Type :=
| Pool | MigrationHandle | MigrationConn | SignalContext | MetricsServer | GRPCServer | Listener.

#[global] Instance resource_eq_dec : EqDecision resource.
Proof. solve_decision. Defined.

(** What an event acquires (1) or releases (-1). *)
Definition open_delta {X} (e : postgres.OpenE X) : X -> list (resource * Z) :=
  match e in postgres.OpenE X return X -> list (resource * Z) with
  | postgres.NewPool => fun r => if is_Ok r then [(Pool, 1)] else []
  | postgres.PoolClose => fun _ => [(Pool, -1)]
  | postgres.SqlOpen _ => fun r => if is_Ok r then [(MigrationHandle, 1)] else []
  | postgres.SqlClose => fun _ => [(MigrationHandle, -1)]
  | postgres.MigrateWithInstance => fun r => if is_Ok r then [(MigrationConn, 1)] else []
  | postgres.MigrateClose => fun _ => [(MigrationConn, -1)]
  | _ => fun _ => []
  end.

(** A stop, graceful or forced, ends the server with its connections and closes the
    listener.  When [Serve] returns an error the listener is closed, but nothing stops
    the server. *)
Definition stops : list (resource * Z) := [(GRPCServer, -1); (Listener, -1)].

Definition received_delta (a : case) (v : received) : list (resource * Z) :=
  match a, v with
  | Recv ErrCh, Some _ => [(Listener, -1)]
  | Recv Stopped, _ => stops
  | _, _ => []
  end.

Definition main_delta {X} (e : MainE X) : X -> list (resource * Z) :=
  match e in MainE X return X -> list (resource * Z) with
  | NotifyContext => fun _ => [(SignalContext, 1)]
  | StopNotify => fun _ => [(SignalContext, -1)]
  | Listen _ => fun r => if is_Ok r then [(Listener, 1)] else []
  | Go (ServeTo _) | Go (ServeThenClose _) => fun _ => [(GRPCServer, 1)]
  | Go (ListenMetrics _) => fun _ => [(MetricsServer, 1)]
  | Shutdown _ => fun _ => [(MetricsServer, -1)]
  | Select a b => fun r => match r with inl v => received_delta a v | inr v => received_delta b v end
  | Stop => fun _ => stops
  | _ => fun _ => []
  end.

Fixpoint change_of (k : resource) (d : list (resource * Z)) : Z :=
  match d with
  | [] => 0
  | (k', z) :: d => (if bool_decide (k = k') then z else 0) + change_of k d
  end.

Definition delta (k : resource) (ev : event ProcE) : Z :=
  match ev with
  | Ev e x => change_of k (match e with inlE e => open_delta e x | inrE e => main_delta e x end)
  end.

(** [Serve] returned an error to the select that waits for it. *)
Definition failed (a : case) (v : received) : bool :=
  match a, v with Recv ErrCh, Some _ => true | _, _ => false end.

Definition serve_failed (ev : event ProcE) : bool :=
  match ev with
  | Ev (inrE e) x =>
      match e in MainE X return X -> bool with
      | Select a b => fun r => match r with inl v => failed a v | inr v => failed b v end
      | _ => fun _ => false
      end x
  | _ => false
  end.

(** The migrate driver took its connection. *)
Definition migrate_connected (ev : event ProcE) : bool :=
  match ev with
  | Ev (inlE e) x =>
      match e in postgres.OpenE X return X -> bool with
      | postgres.MigrateWithInstance => fun r => is_Ok r
      | _ => fun _ => false
      end x
  | _ => false
  end.

(** What the code leaves behind: the server whose [Serve] failed, and the connection of
    the migrate driver. *)
Definition leaked (k : resource) (l : list (event ProcE)) : Z :=
  match k with
  | GRPCServer => Z.of_nat (occurrences serve_failed l)
  | MigrationConn => Z.of_nat (occurrences migrate_connected l)
  | _ => 0
  end.

Lemma leaked_app k l l' : leaked k (l ++ l') = leaked k l + leaked k l'.
Proof. destruct k; cbn [leaked]; rewrite ?occurrences_app; lia. Qed.

Fixpoint held (k : resource) (l : list (event ProcE)) : Z :=
  match l with
  | [] => 0
  | ev :: l => delta k ev + held k l
  end.

Lemma held_app k l l' : held k (l ++ l') = held k l + held k l'.
Proof. induction l as [|ev l IH]; cbn [held app]; [lia|]. rewrite IH. lia. Qed.

(** [p] ends with [n k r] of each resource [k] more than it began with, besides what it
    leaves behind. *)
Definition holds {A} (p : M A) (n : resource -> A -> Z) : Prop :=
  wp p (fun l r => forall k, held k l = leaked k l + n k r).

Lemma holds_bind {A B} (p : M A) (f : A -> M B) n n' m :
  holds p n -> (forall a, holds (f a) (n' a)) -> (forall k a b, n k a + n' a k b = m k b) ->
  holds (a ← p; f a) m.
Proof.
  intros Hp Hf Hm. apply wp_bind. eapply wp_mono; [|exact Hp]. intros l a Ha. cbn beta in Ha.
  eapply wp_mono; [|apply Hf]. intros l' b Hb k. cbn beta in Hb.
  rewrite held_app, leaked_app, Ha, Hb, <- (Hm k a b). lia.
Qed.

Definition none {A} (k : resource) (a : A) : Z := 0.

Definition only (k0 : resource) (z : Z) (k : resource) : Z := if bool_decide (k = k0) then z else 0.

(** Walks a program whose leaves are evaluated. *)
Ltac holds_walk :=
  unfold holds, act, trigger, mbind, prog_bind;
  repeat first [progress cbn [bind wp translate] | match goal with
    | |- wp ?p _ => match p with context [match ?x with _ => _ end] => destruct x eqn:? end
    | |- forall k : resource, _ => fail 1
    | |- forall _, _ => intros ?
    end]; intros []; cbn; try reflexivity.

(** An event is in the log. *)
Ltac in_past :=
  repeat match goal with u : unit |- _ => destruct u end;
  try multimatch goal with a : _ |- exists _, _ => exists a end;
  solve [rewrite !elem_of_app, ?list_elem_of_singleton; tauto].

Section Theorems.
Context `{GoLib}.

Lemma gracefulStop_holds logger t :
  holds (gracefulStopWithTimeout logger t)
    (fun k _ => only MetricsServer (-1) k + only GRPCServer (-1) k + only Listener (-1) k).
Proof. unfold gracefulStopWithTimeout, shutdownMetrics. holds_walk. Qed.

Lemma serveUntilDone_holds logger :
  holds (serveUntilDone logger) (fun k _ => only MetricsServer (-1) k + only Listener (-1) k).
Proof. unfold serveUntilDone, gracefulStop, gracefulStopWithTimeout, shutdownMetrics. holds_walk. Qed.

Lemma serve_with_store_holds cfg logger st : holds (serve_with_store cfg logger st) (fun _ _ => 0).
Proof.
  unfold serve_with_store, newFailClosedRateLimiter, startMetricsServer, serveUntilDone, gracefulStop, gracefulStopWithTimeout, shutdownMetrics.
  holds_walk.
Qed.

Lemma New_holds dsn :
  holds (translate (F := ProcE) (fun X => inlE) (postgres.New dsn))
    (fun k r => if is_Ok r then only Pool 1 k else 0).
Proof.
  unfold postgres.New, postgres.RunMigrations, postgres.migrate_body. holds_walk.
Qed.

(** The pool is held exactly by a PostgreSQL store. *)
Definition store_holds (k : resource) (r : res store) : Z :=
  match r with Ok PostgresStore => only Pool 1 k | _ => 0 end.

(** The store is the one of the configuration. *)
Definition configured (cfg : config.Config) (r : res store) : Prop :=
  match r with
  | Ok MemoryStore => config.Store cfg = config.StoreMemory
  | Ok PostgresStore => config.Store cfg = config.StorePostgres
  | Err _ => config.Store cfg <> config.StoreMemory
  end.

Lemma openStore_spec cfg logger :
  wp (openStore cfg logger) (fun l r => (forall k, held k l = leaked k l + store_holds k r) /\ configured cfg r).
Proof.
  unfold openStore. case_decide as Hm; [intros []; by split; [intros []|]|].
  case_decide as Hp; [|by split; [intros []|]]. apply wp_bind. eapply wp_mono; [|apply New_holds].
  intros l [[]|err] Hl; (split; [intros k; rewrite app_nil_r; apply Hl|done]).
Qed.

Lemma openStore_holds cfg logger : holds (openStore cfg logger) store_holds.
Proof. eapply wp_mono; [|apply openStore_spec]. by intros l r []. Qed.

Lemma closeStore_holds st : holds (closeStore st) (fun k _ => - store_holds k (Ok st)).
Proof. destruct st; unfold closeStore, store_holds, postgres.Close; holds_walk. Qed.

Lemma serveWithContext_holds cfg logger : holds (serveWithContext cfg logger) (fun _ _ => 0).
Proof.
  unfold serveWithContext. eapply wp_bind, wp_mono; [|apply openStore_holds].
  intros l [st|err] Hl; cbn beta in Hl; [|intros k; rewrite app_nil_r; apply Hl].
  eapply wp_mono; [|eapply (holds_bind _ _ (fun _ _ => 0) (fun _ k _ => - store_holds k (Ok st))
    (fun k _ => - store_holds k (Ok st))); [apply serve_with_store_holds| |done]].
  - intros l' r Hl' k. cbn beta in Hl'. rewrite held_app, leaked_app, Hl, Hl'. lia.
  - intros err. eapply (holds_bind _ _ _ (fun _ _ _ => 0)); [apply closeStore_holds|by intros [] []|].
    intros k [] r. lia.
Qed.

Lemma serve_holds env : holds (serve env) (fun _ _ => 0).
Proof.
  unfold serve. destruct (config.Validate _); [by intros []|]. change (holds
    (act NotifyContext ≫= fun _ => err ← serveWithContext (config.Load env) (newLogger (config.LogLevel (config.Load env)));
       _ ← act StopNotify; Ret err) (fun _ _ => 0)).
  eapply (holds_bind _ _ (fun k _ => only SignalContext 1 k) (fun _ k _ => only SignalContext (-1) k)).
  - holds_walk.
  - intros []. eapply holds_bind; [apply serveWithContext_holds|intros err; refine (_ : holds _ (fun k _ => only SignalContext (-1) k)); holds_walk|done].
  - by intros [].
Qed.

(** *** What is left behind *)

(** [p] sees no failure of [Serve], and its migrate driver connects at most [n] times. *)
Definition quiet {A} (n : nat) (p : M A) : Prop :=
  wp p (fun l _ => occurrences serve_failed l = 0%nat /\ (occurrences migrate_connected l <= n)%nat).

(** [p] opens no migrate driver, and reports a failure of [Serve] to its caller. *)
Definition reports (p : M (option error)) : Prop :=
  wp p (fun l r => occurrences migrate_connected l = 0%nat /\ (r = None -> occurrences serve_failed l = 0%nat)).

Ltac leaves_walk :=
  unfold quiet, reports, act, trigger, mbind, prog_bind;
  repeat first [progress cbn [bind wp translate] | match goal with
    | |- wp ?p _ => match p with context [match ?x with _ => _ end] => destruct x eqn:? end
    | |- forall _, _ => intros ?
    end]; cbn; (split; [lia|]); first [lia|done|by intros].

Lemma openStore_quiet cfg logger : quiet 1 (openStore cfg logger).
Proof. unfold openStore, postgres.New, postgres.RunMigrations, postgres.migrate_body. leaves_walk. Qed.

Lemma closeStore_quiet st : quiet 0 (closeStore st).
Proof. destruct st; unfold closeStore, postgres.Close; leaves_walk. Qed.

Lemma serve_with_store_reports cfg logger st : reports (serve_with_store cfg logger st).
Proof.
  unfold serve_with_store, newFailClosedRateLimiter, startMetricsServer, serveUntilDone, gracefulStop, gracefulStopWithTimeout, shutdownMetrics.
  leaves_walk.
Qed.

(** What a run leaves behind: at most one connection of the migrate driver, and a
    failure of [Serve] is reported. *)
Definition few_left (l : list (event ProcE)) (r : option error) : Prop :=
  (occurrences migrate_connected l <= 1)%nat /\ (r = None -> occurrences serve_failed l = 0%nat).

Lemma serveWithContext_leaves cfg logger : wp (serveWithContext cfg logger) few_left.
Proof.
  unfold serveWithContext. eapply wp_bind, wp_mono; [|apply openStore_quiet].
  intros l [st|err] [Hs Hm]; cbn beta in *; [|by split; rewrite ?app_nil_r].
  eapply wp_bind, wp_mono; [|apply serve_with_store_reports]. intros l' r [Hm' Hr]. cbn beta in *.
  eapply wp_bind, wp_mono; [|apply closeStore_quiet]. intros l2 [] [Hs2 Hm2]. cbn beta in *. cbn [wp].
  split; rewrite ?app_nil_r, !occurrences_app; [lia|]. intros He. rewrite (Hr He). lia.
Qed.

Lemma serve_leaves env : wp (serve env) few_left.
Proof.
  unfold serve. destruct (config.Validate _); [by split; [cbn; lia|]|]. apply wp_bind. intros [].
  eapply wp_bind, wp_mono; [|apply serveWithContext_leaves]. intros l r [Hc Hr]. apply wp_bind. intros [].
  cbn [wp]. split; rewrite ?app_nil_r, !occurrences_app; cbn; [lia|]. intros He. rewrite (Hr He). lia.
Qed.

(** C32. What a run of the service releases, and what it leaves behind.  Whatever the
    database, the network, the signals and the gRPC server do, when [serve] returns, on
    any path, the pool and the [sql.DB] of the migrations are closed, the signal context
    is stopped, the metrics server is shut down and the listener is closed.  Two things
    are left behind: the connection of the migrate driver, one for every driver that was
    opened and at most one, and the gRPC server, exactly when its [Serve] returned an
    error: nothing stops it then, and [serve] returns the error. *)
Theorem serve_releases env :
  wp (serve env) (fun l r =>
    (forall k, k <> MigrationConn -> k <> GRPCServer -> held k l = 0) /\
    held MigrationConn l = Z.of_nat (occurrences migrate_connected l) /\
    (occurrences migrate_connected l <= 1)%nat /\
    held GRPCServer l = Z.of_nat (occurrences serve_failed l) /\
    (r = None -> held GRPCServer l = 0)).
Proof.
  eapply wp_mono; [|apply wp_and; [apply serve_holds|apply serve_leaves]].
  intros l r [Hh [Hc Hr]]. cbn beta in *. split_and!.
  - intros k H1 H2. rewrite Hh. by destruct k.
  - rewrite Hh. cbn [leaked]. lia.
  - done.
  - rewrite Hh. cbn [leaked]. lia.
  - intros He. rewrite Hh. cbn [leaked]. rewrite (Hr He). lia.
Qed.

(** ** The order of a run *)

(** Every gRPC server that was started was stopped, but for those whose [Serve] failed. *)
Definition settled (past : list (event ProcE)) : Prop :=
  held GRPCServer past = Z.of_nat (occurrences serve_failed past).

Lemma settled_app past l : settled past -> held GRPCServer l = leaked GRPCServer l + 0 -> settled (past ++ l).
Proof. unfold settled. rewrite held_app, occurrences_app. cbn [leaked]. lia. Qed.

(** What must have happened before an event. *)
Definition in_order (cfg : config.Config) (past : list (event ProcE)) (X : Type) (e : ProcE X) : Prop :=
  match e with
  | inlE postgres.NewPool => exists r, Ev (inlE postgres.MigrateUp) r ∈ past /\
      (r = None \/ exists err, r = Some err /\ errors_is err ErrNoChange = true)
  | inlE postgres.PoolClose => settled past
  | inlE _ => config.Store cfg = config.StorePostgres
  | inrE (Listen _) => held Pool past = if decide (config.Store cfg = config.StorePostgres) then 1 else 0
  | inrE (Go (ServeTo _)) => exists a, Ev (inrE (Listen (config.GRPCBindAddr cfg))) (Ok a) ∈ past
  | inrE Stop => exists v, Ev (inrE (Select (Recv Stopped) (After 15))) (inr v) ∈ past
  | _ => True
  end.

Ltac order_walk := unfold act; emits_walk ltac:(cbn [in_order]).

Lemma New_in_order cfg past :
  config.Store cfg = config.StorePostgres -> settled past ->
  emits (in_order cfg) past (translate (F := ProcE) (fun X => inlE) (postgres.New (config.PostgresURL cfg))).
Proof.
  intros Hpg Hg. unfold postgres.New, postgres.RunMigrations, postgres.migrate_body. order_walk; try done.
  - exists x4. split; [in_past|]. destruct x4 as [err|]; [|by left].
    right. exists err. split; [done|]. by destruct (errors_is err ErrNoChange).
  - by repeat apply settled_app.
Qed.

Lemma serve_with_store_in_order cfg logger st past :
  held Pool past = (if decide (config.Store cfg = config.StorePostgres) then 1 else 0) ->
  emits (in_order cfg) past (serve_with_store cfg logger st).
Proof.
  intros Hp.
  unfold serve_with_store, newFailClosedRateLimiter, startMetricsServer, serveUntilDone, gracefulStop, gracefulStopWithTimeout, shutdownMetrics.
  order_walk; try in_past; by rewrite !held_app, Hp; cbn; rewrite ?Z.add_0_r.
Qed.

Lemma serveWithContext_in_order cfg logger past :
  held Pool past = 0 -> settled past ->
  emits (in_order cfg) past (serveWithContext cfg logger).
Proof.
  intros Hp Hg. unfold serveWithContext. apply emits_bind.
  - unfold openStore. case_decide as Hm; [order_walk|]. case_decide as Hpg; [|done].
    apply emits_bind; [by apply New_in_order|]. by apply wp_always.
  - eapply wp_mono; [|apply openStore_spec]. intros l [st|err] [Hl Hc]; [|done].
    apply emits_bind.
    + apply serve_with_store_in_order. rewrite held_app, Hp, Hl. by destruct st; cbn in Hc; rewrite Hc.
    + eapply wp_mono; [|apply serve_with_store_holds]. intros l' err Hl'. cbn beta in Hl'.
      destruct st; [exact Logic.I|]. split; [|done]. cbn [in_order].
      apply settled_app; [apply settled_app; [done|]|apply Hl']. rewrite Hl. done.
Qed.

(** C33. A run of the service goes in order: connections are made only for a
    postgres configuration, the pool is opened only after its migrations were applied,
    the address is listened on and the server started only with the configured store
    open, the server is forced to stop only when the graceful stop timed out, and the
    pool is closed only when the server was stopped, unless its [Serve] failed: then the
    pool is closed with the server never stopped. *)
Theorem serve_in_order env :
  config.Validate (config.Load env) = None -> emits (in_order (config.Load env)) [] (serve env).
Proof.
  intros Hv. unfold serve, act, trigger, mbind, prog_bind. rewrite Hv. cbn [bind emits].
  split; [done|]. intros []. apply emits_bind.
  - by apply serveWithContext_in_order.
  - by apply wp_always.
Qed.

(** ** Output *)

Abbreviation URL_VAR := "KEYCHAIN_POSTGRES_URL"%string (only parsing).

Lemma Load_url env env' :
  (forall key, key <> URL_VAR -> env key = env' key) -> env URL_VAR <> EmptyString -> env' URL_VAR <> EmptyString ->
  exists a b c d e, config.Load env = config.mkConfig a b c (env URL_VAR) d e /\
    config.Load env' = config.mkConfig a b c (env' URL_VAR) d e.
Proof.
  intros Henv Hu Hu'.
  assert (Hg : forall key d, key <> URL_VAR -> config.getEnv env key d = config.getEnv env' key d).
  { intros key d Hk. unfold config.getEnv. by rewrite !(Henv key Hk). }
  unfold config.Load. rewrite !(getEnv_no_default _ URL_VAR), !Hg by done. cbn [config.Store config.PostgresURL].
  rewrite (decide_True (P := env URL_VAR <> _)), (decide_True (P := env' URL_VAR <> _)) by done.
  destruct (decide (strings.ToLower _ = EmptyString)); by do 5 eexists.
Qed.

Lemma run_same version commit env env' args u u' :
  (forall key, key <> URL_VAR -> env key = env' key) ->
  url.Parse (env URL_VAR) = Ok u -> url.Parse (env' URL_VAR) = Ok u' ->
  same_but_secrets u u' -> has_secret u = true ->
  head args <> Some "serve"%string -> args <> [] ->
  run version commit env args = run version commit env' args.
Proof.
  intros Henv Hp Hp' Hs Hsec Hargs Hne.
  destruct args as [|cmd args]; [done|]. cbn [head hd_error] in Hargs. unfold run.
  destruct (decide (cmd = "serve"%string)); [congruence|].
  destruct (decide (cmd = "version"%string)); [done|].
  destruct (decide (cmd = "print-config"%string)); [|done].
  assert (Hu : env URL_VAR <> EmptyString) by (by eapply secret_nonempty).
  assert (Hu' : env' URL_VAR <> EmptyString).
  { eapply secret_nonempty; [done|]. by rewrite <- (has_secret_same u u'). }
  destruct (Load_url env env' Henv Hu Hu') as (a & b & c & d & v & Hl & Hl').
  unfold printConfig. rewrite Hl, Hl'.
  rewrite (Validate_same a b c d v (env URL_VAR) (env' URL_VAR) u u') by done.
  unfold config.Redacted. cbn [config.PostgresURL].
  by rewrite (redacted_same (env URL_VAR) (env' URL_VAR) u u').
Qed.
(** C34. The secrets of the database URL do not reach the output.  Two environments
    that differ only in the password and the password parameters of their URLs give
    the same run of every command but [serve]: the same output, the same error on
    standard error and the same exit code. *)
Theorem print_config_hides version commit env env' args u u' :
  (forall key, key <> URL_VAR -> env key = env' key) ->
  url.Parse (env URL_VAR) = Ok u -> url.Parse (env' URL_VAR) = Ok u' ->
  same_but_secrets u u' -> has_secret u = true ->
  head args <> Some "serve"%string -> args <> [] ->
  main version commit env args = main version commit env' args.
Proof. intros. unfold main. by rewrite (run_same version commit env env' args u u'). Qed.

(** C31. What print-config does not hide.  When the database URL does not parse, as with
    a stray percent sign in its password, print-config prints the configuration with the
    URL as it is, although [Redacted] is documented to scrub the secrets; when the store
    is PostgreSQL, it then exits with code 1 after printing the error of [Validate] on
    standard error, which names the URL too, up to its fragment at least. *)
Theorem print_config_exposes version commit env err :
  url.Parse (env URL_VAR) = Err err ->
  wp (main version commit env ["print-config"%string]) (fun l _ => exists fields rest,
    l = Ev (inrE (Println (OutJSON (JObject fields)))) tt :: rest /\
    ("postgres_url"%string, JString (to_valid (env URL_VAR))) ∈ fields /\
    (config.Store (config.Load env) = config.StorePostgres -> exists shown cause,
      rest = [Ev (inrE (Eprintln (Errorf "KEYCHAIN_POSTGRES_URL invalid: %w" []
                (Errorf "parse %q: %w" [shown] cause)))) tt; Ev (inrE (Exit 1)) tt] /\
      (shown = env URL_VAR \/ shown = (strings.Cut (env URL_VAR) "#"%char).1.1))).
Proof.
  intros Hp. destruct (unparsable_url_kept _ _ Hp) as (Hkeep & shown & cause & Hv & Hshown).
  assert (Hne : env URL_VAR <> EmptyString) by (intros He; by rewrite He in Hp).
  unfold main. change (run version commit env ["print-config"%string]) with (printConfig env).
  apply wp_bind. intros []. cbn [wp bind prog_bind].
  assert (Hin : ("postgres_url"%string, JString (to_valid (env URL_VAR))) ∈
    match config.JSON (config.Redacted (config.Load env)) with JObject fields => fields | _ => [] end).
  { cbn -[config.Load config.redactURL to_valid]. rewrite Load_PostgresURL, Hkeep. set_solver. }
  destruct (decide (config.Store (config.Load env) = config.StorePostgres)) as [Hs|Hs].
  - rewrite (Validate_url _ _ Hs Hne Hv). intros [] []. eexists _, _. split_and!; [reflexivity|exact Hin|].
    intros _. by exists shown, cause.
  - destruct (config.Validate _) as [e|]; [intros [] []|]; (eexists _, _; split_and!; [reflexivity|exact Hin|done]).
Qed.
End Theorems.

(** ** The rate limiter *)

Section FailClosed.
Context {S I : Type} {impl : StoreImpl S I} {St Lg : Type}.
Context (s : Server St failClosedRateLimiter Lg) (req : option apikeyv1.VerifyKeyRequest).

(** Every run of [p] returns [r]. *)
Definition answers {A} (p : M A) (r : A) : Prop := wp p (fun _ x => r = x).

(** Every consultation of the limiter was answered by the limiter of the command. *)
Definition denied (ev : event (SrvE St failClosedRateLimiter)) : Prop :=
  match ev with
  | Ev (Server.Consume fc refs cost requestID) r => answers (Consume fc refs cost requestID) r
  | _ => True
  end.

Lemma limits_not_passed l k ds :
  Forall denied l -> consults_limiter req k -> ~ limits_passed s req l k ds.
Proof.
  intros Hl Hc. unfold limits_passed. rewrite decide_True by done.
  intros (r & raw & _ & Hin & Hall & _). rewrite Forall_forall in Hl. specialize (Hl _ Hin). cbn in Hl.
  specialize (Hl tt). injection Hl as ->. destruct Hc as [_ Hne]. destruct (elems (Key_LimitRefs k)) as [|ref refs] eqn:He; [done|].
  specialize (Hall _ (list_elem_of_here _ _)). done.
Qed.

(** C35. The rate limiter of the command fails closed.  Until a real one is wired, a
    key with limit references is never VALID, unless the caller asked to skip the
    limits, and presenting it changes nothing: no use is charged. *)
Theorem fail_closed ins w id k :
  ready (keychainserver.VerifyKey s req) ins w -> (forall n fc refs cost requestID,
    answers (Consume fc refs cost requestID) (si_consume (ins n) fc refs cost requestID)) ->
  found req (st_abs w) id k -> consults_limiter req k ->
  runs (keychainserver.VerifyKey s req) ins w (fun _ A' r => A' = st_abs w /\
    forall v, r = Ok v -> apikeyv1.VerifyKeyResponse_Result v <> apikeyv1.VERIFY_RESULT_VALID).
Proof.
  intros Hr Hin Hf Hc. pose proof (rd_wf _ _ _ Hr) as Hwf.
  destruct (swp_runs _ _ _ _ Hr (VerifyKey_outcome s req _ Hwf)) as (w' & n & r & Hrun & Hi & Hwf' & Ho).
  exists w', n, r. split; [done|]. split; [done|]. split; [done|].
  set (l := trace _ _ _ _ _) in *. assert (Hl : Forall denied l).
  { apply trace_Forall. intros m X e s1 s2 x Hh. destruct e; cbn in *; try done.
    injection Hh as _ <-. apply Hin. }
  assert (Hno : forall id' k' ds, found req (st_abs w) id' k' -> limits_passed s req l k' ds -> False).
  { intros id' k' ds [Hk' Hh'] Hlp. destruct Hc as [Hskip Hne].
    pose proof (found_unique req _ _ _ _ _ Hwf Hf Hk' Hh') as Hn.
    apply norm_key_fields in Hn as (_ & _ & _ & _ & _ & He & _).
    apply (limits_not_passed l k' ds Hl); [|done]. split; [done|]. by rewrite <- He. }
  destruct Ho; try (exfalso; eauto; done); (split; [done|]); by intros v [= <-].
Qed.
End FailClosed.

(** ** Witnesses *)

#[local] Existing Instance demo_lib.

Lemma serve_in_order_witness :
  emits (in_order (config.Load (demo_env demo_url))) [] (serve (demo_env demo_url)).
Proof. refine (serve_in_order (demo_env demo_url) _). vm_compute. reflexivity. Defined.

Lemma print_config_hides_witness :
  main "v1" "c0ffee" (demo_env demo_url) ["print-config"%string] =
  main "v1" "c0ffee" (demo_env demo_url') ["print-config"%string].
Proof.
  refine (print_config_hides "v1" "c0ffee" (demo_env demo_url) (demo_env demo_url') ["print-config"%string]
    (parsed demo_url) (parsed demo_url') _ _ _ demo_same _ _ _); try done.
  intros key Hk. unfold demo_env. by rewrite !(decide_False (P := key = "KEYCHAIN_POSTGRES_URL"%string)).
Defined.

(** The percent sign of a password that was not escaped. *)
Definition demo_typo : string := "postgres://alice:100%secret@db:5432/keychain".

Lemma print_config_exposes_witness :
  config.Store (config.Load (demo_env demo_typo)) = config.StorePostgres /\
  wp (main "v1" "c0ffee" (demo_env demo_typo) ["print-config"%string]) (fun l _ => exists fields rest,
    l = Ev (inrE (Println (OutJSON (JObject fields)))) tt :: rest /\
    ("postgres_url"%string, JString (to_valid (demo_env demo_typo "KEYCHAIN_POSTGRES_URL"%string))) ∈ fields /\
    (config.Store (config.Load (demo_env demo_typo)) = config.StorePostgres -> exists shown cause,
      rest = [Ev (inrE (Eprintln (Errorf "KEYCHAIN_POSTGRES_URL invalid: %w" []
                (Errorf "parse %q: %w" [shown] cause)))) tt; Ev (inrE (Exit 1)) tt] /\
      (shown = demo_env demo_typo "KEYCHAIN_POSTGRES_URL"%string \/ shown = (strings.Cut (demo_env demo_typo "KEYCHAIN_POSTGRES_URL"%string) "#"%char).1.1))).
Proof.
  split; [vm_compute; reflexivity|].
  refine (print_config_exposes "v1" "c0ffee" (demo_env demo_typo) (url.Error demo_typo (url.EscapeError "%se")) _).
  vm_compute. reflexivity.
Defined.

Definition closed_server : Server unit failClosedRateLimiter unit :=
  mkServer tt (Some (mkFailClosed "ratelimiter:8081" (mkLogger 0))) tt.

Definition closed_inputs (n : nat) : SrvInp memory.Inp failClosedRateLimiter :=
  mkSrvInp (demo_inp (1000 + Z.of_nat n) "9") (1000 + Z.of_nat n)
    (keymat.mkReader [] keymat.EOF)
    (fun _ refs _ _ => Ok (Some ((fun ref => mkLimitDecision (LimitRef_LimitID ref) (LimitRef_ScopeKey ref) false 0 0)
      <$> elems refs))).

Definition limited_store : memory.Store := demo_store None 1 demo_limits.

Definition limited_key : Key := demo_stored None 1 demo_limits.

Abbreviation closed_verify := (keychainserver.VerifyKey closed_server (demo_verify "sk_one")).

Lemma fail_closed_witness :
  (fun o => apikeyv1.VerifyKeyResponse_Result <$> (match o.2 with Ok v => Some v | Err _ => None end)) <$>
    Effects.run (@srv_handle memory.Store memory.Inp memory_impl unit failClosedRateLimiter) closed_verify closed_inputs 0
      limited_store = Some (Some apikeyv1.VERIFY_RESULT_RATE_LIMITED) /\
  runs closed_verify closed_inputs limited_store (fun _ A' r => A' = st_abs limited_store /\
    forall v, r = Ok v -> apikeyv1.VerifyKeyResponse_Result v <> apikeyv1.VERIFY_RESULT_VALID).
Proof.
  split; [vm_compute; reflexivity|].
  refine (fail_closed closed_server (demo_verify "sk_one") closed_inputs limited_store "key_3" limited_key _ _ _ _).
  - split; [by apply demo_store_inv|by apply memory_wf, demo_store_inv|].
    apply inputs_check_ok. vm_compute. reflexivity.
  - done.
  - split; vm_compute; reflexivity.
  - by split.
Defined.
