(* ===== verification/EmbeddedTheorems.v ===== *)
(** * EmbeddedTheorems: the theorems about the embedded example

    The host program goes in order and releases what it acquires, but for what the
    command leaves behind too, whatever the database, the network, the signals and the
    gRPC server do. *)

From S2P Require Import Prelude Effects GoText Store Server Postgres Config Main MainTheorems Embedded.
Import main.

(** What must have happened before an event of the example. *)
Definition run_order (past : list (event ProcE)) (X : Type) (e : ProcE X) : Prop :=
  match e with
  | inlE postgres.NewPool => exists r, Ev (inlE postgres.MigrateUp) r ∈ past /\
      (r = None \/ exists err, r = Some err /\ errors_is err ErrNoChange = true)
  | inlE postgres.PoolClose => settled past
  | inrE (Listen _) => held Pool past = 1
  | inrE (Go (ServeThenClose _)) => held Pool past = 1 /\ exists a, Ev (inrE (Listen "127.0.0.1:8080")) (Ok a) ∈ past
  | inrE Stop => exists v, Ev (inrE (Select (Recv Stopped) (After 10))) (inr v) ∈ past
  | _ => True
  end.

Ltac run_walk := unfold act; emits_walk ltac:(cbn [run_order]).

Lemma run_with_store_holds logger : holds (embedded.run_with_store logger) (fun _ _ => 0).
Proof. unfold embedded.run_with_store, embedded.serve_until_done. holds_walk. Qed.

Lemma Close_holds : holds (translate (F := ProcE) (fun X => inlE) postgres.Close) (fun k _ => only Pool (-1) k).
Proof. unfold postgres.Close. holds_walk. Qed.

Lemma run_with_context_holds env logger : holds (embedded.run_with_context env logger) (fun _ _ => 0).
Proof.
  unfold embedded.run_with_context. eapply (holds_bind _ _ _ (fun r k _ => if is_Ok r then only Pool (-1) k else 0)); [apply New_holds| |].
  - intros [u|err]; [|by intros []]. eapply (holds_bind _ _ (fun _ _ => 0)); [apply run_with_store_holds| |].
    + intros err. eapply (holds_bind _ _ _ (fun _ _ _ => 0)); [apply Close_holds|by intros [] []|]. intros k [] r. apply Z.add_0_r.
    + done.
  - intros k [u|err] r; [by destruct k|done].
Qed.

Lemma run_with_context_order env logger past :
  held Pool past = 0 -> settled past -> emits run_order past (embedded.run_with_context env logger).
Proof.
  intros Hp Hg. apply emits_bind.
  - unfold postgres.New, postgres.RunMigrations, postgres.migrate_body. run_walk.
    + exists x4. split; [in_past|]. destruct x4 as [err|]; [|by left].
      right. exists err. split; [done|]. by destruct (errors_is err ErrNoChange).
    + by repeat apply settled_app.
  - eapply wp_mono; [|apply New_holds]. intros l [u|err] Hl; [|done]. cbn beta in Hl. apply emits_bind.
    + unfold embedded.run_with_store, embedded.serve_until_done. run_walk; try in_past; by rewrite !held_app, Hp, Hl.
    + eapply wp_mono; [|apply run_with_store_holds]. intros l' err Hl'. cbn beta in Hl'.
      split; [|done]. cbn [run_order].
      apply settled_app; [apply settled_app; [done|]|apply Hl']. by rewrite Hl.
Qed.

(** The embedded example is safe.  On every path of a run what was acquired is released
    when it returns, but for what the command leaves behind too: the connection of the
    migrate driver, and a gRPC server whose [Serve] failed.  The pool is opened only after the migrations were applied, the address
    is listened on and the server started only with the pool open, the server is forced
    to stop only when the graceful stop timed out, and the pool is closed only when the
    server was stopped or its [Serve] failed. *)
Theorem embedded_run_safe env :
  wp (embedded.run env) (fun l r => forall k, held k l = leaked k l) /\ emits run_order [] (embedded.run env).
Proof.
  split.
  - eapply (wp_mono _ (fun l r => forall k, held k l = leaked k l + 0)).
    { intros l r Hl k. rewrite Hl. lia. }
    eapply (holds_bind (act NotifyContext) _ (fun k _ => only SignalContext 1 k) (fun _ k _ => only SignalContext (-1) k)).
    + holds_walk.
    + intros []. eapply holds_bind; [apply run_with_context_holds|intros err; refine (_ : holds _ (fun k _ => only SignalContext (-1) k)); holds_walk|done].
    + by intros [].
  - split; [done|]. intros []. apply (emits_bind _ _ (embedded.run_with_context env (mkLogger LevelInfo))); [|by apply wp_always].
    by apply run_with_context_order.
Qed.
