(* ===== verification/Process.v ===== *)
(** * Process: goroutines, channels and the libraries they wait for

    The operational semantics of the events of the process: the main goroutine and the
    ones it starts, interleaved, over channels, a context that a signal cancels, the gRPC
    server and the metrics server.  gRPC is not part of the repository: its server is
    the parameter [GrpcServer] with the laws its documentation states.

    ProcessProps says what the programs of the repository keep of their own log; [shuts_down] is what follows for every interleaving. *)

From stdpp Require Import relations functions.
From S2P Require Import Prelude Effects Store Postgres Main.
Import main.

(** ** The gRPC server *)

Class GrpcServer := {
  grpc : Type;
  NewServer : grpc;
  (** Connections and requests come and go. *)
  proceeds : relation grpc;
  (** A call of [Serve] may return the error. *)
  Serve_returns : grpc -> option error -> Prop;
  (** A call of [GracefulStop] starts, and returns. *)
  GracefulStop_starts : grpc -> grpc;
  GracefulStop_returns : grpc -> Prop;
  Stop_stops : grpc -> grpc;
  (** No connection and no request is left, and none is accepted any more. *)
  stopped : grpc -> Prop;
  stopped_Stop : forall g, stopped (Stop_stops g);
  stopped_GracefulStop : forall g, GracefulStop_returns g -> stopped g;
  stopped_Serve : forall g, stopped g -> exists err, Serve_returns g err;
  stopped_returns : forall g, stopped g -> GracefulStop_returns g;
  stopped_stays : forall g g', stopped g -> proceeds g g' -> stopped g';
  stopped_starts : forall g, stopped g -> stopped (GracefulStop_starts g);
}.

Section Process.
Context `{GrpcServer}.

(** ** The state the goroutines share *)

Record chan_state : Type := mkChan { cap : nat; buffer : list received; closed : bool }.

Record world : Type := mkWorld {
  notified : bool;
  ctx_done : bool;
  chans : chan -> option chan_state;
  server : grpc;
  http_closed : bool;
}.

Definition world0 : world := mkWorld false false (fun _ => None) NewServer false.

Definition notify (w : world) : world := mkWorld true (ctx_done w) (chans w) (server w) (http_closed w).
Definition cancel (w : world) : world := mkWorld (notified w) true (chans w) (server w) (http_closed w).
Definition set_chan (c : chan) (st : chan_state) (w : world) : world :=
  mkWorld (notified w) (ctx_done w) (<[c := Some st]> (chans w)) (server w) (http_closed w).
Definition set_server (g : grpc) (w : world) : world :=
  mkWorld (notified w) (ctx_done w) (chans w) g (http_closed w).
Definition close_http (w : world) : world :=
  mkWorld (notified w) (ctx_done w) (chans w) (server w) true.

(** ** The steps *)

(** A value received: the oldest of the buffer, or nil once the channel is closed. *)
Definition recv (a : case) (w : world) (v : received) (w' : world) : Prop :=
  match a with
  | Done => ctx_done w = true /\ v = None /\ w' = w
  | After _ => v = None /\ w' = w
  | Recv c =>
      exists st, chans w c = Some st /\
        match buffer st with
        | v0 :: rest => v = v0 /\ w' = set_chan c (mkChan (cap st) rest (closed st)) w
        | [] => closed st = true /\ v = None /\ w' = w
        end
  end.

(** The event [e] may happen in [w] with the answer [x].  A send waits for room in the
    buffer; a send on a closed channel and a second close panic: no step.  A send on a channel
    without a buffer, which the code never does, has no step either. *)
Definition exec {X} (e : MainE X) (w : world) : X -> world -> Prop :=
  match e in MainE X return X -> world -> Prop with
  | NotifyContext => fun _ w' => w' = notify w
  | StopNotify => fun _ w' => w' = cancel w
  | MakeChan c n => fun _ w' => w' = set_chan c (mkChan n [] false) w
  | Select a b => fun x w' => match x with inl v => recv a w v w' | inr v => recv b w v w' end
  | Await a => fun v w' => recv a w v w'
  | Send c v => fun _ w' =>
      exists st, chans w c = Some st /\ closed st = false /\ (length (buffer st) < cap st)%nat /\
        w' = set_chan c (mkChan (cap st) (buffer st ++ [v]) false) w
  | Close c => fun _ w' =>
      exists st, chans w c = Some st /\ closed st = false /\ w' = set_chan c (mkChan (cap st) (buffer st) true) w
  | Serve => fun err w' => Serve_returns (server w) err /\ w' = w
  | GracefulStop => fun _ w' => w' = set_server (GracefulStop_starts (server w)) w
  | GracefulStopReturns => fun _ w' => GracefulStop_returns (server w) /\ w' = w
  | Stop => fun _ w' => w' = set_server (Stop_stops (server w)) w
  | ListenAndServe => fun err w' =>
      (exists e, err = Some e) /\ (http_closed w = true -> err = Some ErrServerClosed) /\ w' = w
  | Shutdown _ => fun _ w' => w' = close_http w
  | _ => fun _ w' => w' = w
  end.

Definition exec_proc {X} (e : ProcE X) (w : world) (x : X) (w' : world) : Prop :=
  match e with
  | inlE _ => w' = w
  | inrE e => exec e w x w'
  end.

(** The goroutine an event starts. *)
Definition started {X} (e : ProcE X) : list goroutine :=
  match e with
  | inrE (Go g) => [g]
  | _ => []
  end.

Record process (R : Type) : Type := Proc {
  p_main : M R;
  p_threads : list (M unit);
  p_world : world;
}.
Arguments Proc {R}.
Arguments p_main {R}.
Arguments p_threads {R}.
Arguments p_world {R}.

(** The next event of a goroutine, the goroutines it starts and what is left of it. *)
Definition next {A} (p : M A) (w : world) (gs : list goroutine) (p' : M A) (w' : world) : Prop :=
  match p with
  | Ret _ => False
  | Vis e k => exists x, exec_proc e w x w' /\ gs = started e /\ p' = k x
  end.

(** A goroutine performs an event. *)
Inductive gstep {R} : process R -> process R -> Prop :=
| step_main m ts w gs m' w' :
    next m w gs m' w' -> gstep (Proc m ts w) (Proc m' (ts ++ (body <$> gs)) w')
| step_thread i m ts w p gs p' w' :
    ts !! i = Some p -> next p w gs p' w' -> gstep (Proc m ts w) (Proc m (<[i := p']> ts ++ (body <$> gs)) w').

(** A signal arrives, or the gRPC server moves on. *)
Inductive estep {R} : process R -> process R -> Prop :=
| step_signal m ts w : notified w = true -> estep (Proc m ts w) (Proc m ts (cancel w))
| step_grpc m ts w g : proceeds (server w) g -> estep (Proc m ts w) (Proc m ts (set_server g w)).

(** [n] events of the goroutines, whatever happens around them. *)
Inductive steps {R} : nat -> process R -> process R -> Prop :=
| steps_refl s : steps 0 s s
| steps_go n s1 s2 s3 : steps n s1 s2 -> gstep s2 s3 -> steps (S n) s1 s3
| steps_env n s1 s2 s3 : steps n s1 s2 -> estep s2 s3 -> steps n s1 s3.

Definition start {R} (m : M R) : process R := Proc m [] world0.

(** ** Waiting *)

(** A case can be received from now on. *)
Definition case_ready (a : case) (w : world) : Prop := exists v w', recv a w v w'.

(** The event happens without waiting for a signal, a request or a failure: a blocking
    call of a library is ready when its documentation says that it returns. *)
Definition ready_event {X} (e : ProcE X) (w : world) : Prop :=
  match e with
  | inlE _ => True
  | inrE e =>
      match e with
      | Select a b => case_ready a w \/ case_ready b w
      | Await a => case_ready a w
      | Send c _ => exists st, chans w c = Some st /\ closed st = false /\ (length (buffer st) < cap st)%nat
      | Close c => exists st, chans w c = Some st /\ closed st = false
      | Serve | GracefulStopReturns => stopped (server w)
      | ListenAndServe => http_closed w = true
      | _ => True
      end
  end.

Definition ready {A} (p : M A) (w : world) : Prop :=
  match p with
  | Ret _ => False
  | Vis e _ => ready_event e w
  end.

(** The program waits for a library or for the end of the context. *)
Definition awaits {A} (p : M A) : Prop :=
  match p with
  | Vis (inrE Serve) _ | Vis (inrE GracefulStopReturns) _ | Vis (inrE ListenAndServe) _ | Vis (inrE (Await Done)) _ => True
  | _ => False
  end.

(** What is ready can happen; the answers of the database and the network are free. *)
Lemma ready_exec {X} (e : ProcE X) w : ready_event e w -> X -> exists x w', exec_proc e w x w'.
Proof.
  intros Hr x. destruct e as [e|e]; [by exists x, w|].
  destruct e; cbn in *; try (by eexists tt, _); try (by eexists x, _).
  - destruct Hr as [(v & w' & Hv)|(v & w' & Hv)]; [by exists (inl v), w'|by exists (inr v), w'].
  - destruct Hr as (v & w' & Hv). by exists v, w'.
  - destruct Hr as (st & Hst & Hc & Hl). eexists tt, _. eauto 10.
  - destruct Hr as (st & Hst & Hc). eexists tt, _. eauto 10.
  - destruct (stopped_Serve _ Hr) as [err Herr]. by exists err, w.
  - exists tt, w. split; [by apply stopped_returns|done].
  - exists (Some ErrServerClosed), w. split; [by eexists|done].
Qed.
End Process.
Arguments process {_} R.
Arguments Proc {_ R}.
Arguments p_main {_ R}.
Arguments p_threads {_ R}.
Arguments p_world {_ R}.
