(* ===== verification/ProcessProps.v ===== *)
(** * ProcessProps: what the programs keep, and what follows for every interleaving

    The invariant of a process whose main program is [disciplined]: where each goroutine
    is in its program, what its channel holds, and what the log of the main program
    says of the world. *)

From stdpp Require Import relations functions.
From S2P Require Import Prelude Effects Store Postgres Main Process.
Import main.

Section Props.
Context `{GrpcServer}.

Abbreviation log := (list (event ProcE)) (only parsing).

(** ** The log of the main program *)

(** The goroutines started, in order. *)
Definition starts (l : log) : list goroutine := flat_map (fun ev => match ev with Ev e _ => started e end) l.

Definition user (g : goroutine) : option chan :=
  match g with
  | ServeTo c | ServeThenClose c | GracefulStopThenClose c => Some c
  | ListenMetrics _ | ShutdownOnDone => None
  end.

Definition users (l : log) : list chan := omap user (starts l).

Definition serves (g : goroutine) : Prop :=
  match g with
  | ServeTo _ | ServeThenClose _ => True
  | _ => False
  end.

Definition case_chan (a : case) : option chan :=
  match a with
  | Recv c => Some c
  | _ => None
  end.

(** The channel a [select] received from. *)
Definition takes {X} (e : ProcE X) : X -> option chan :=
  match e with
  | inlE _ => fun _ => None
  | inrE e =>
      match e in MainE X return X -> option chan with
      | Select a b => fun r => match r with inl _ => case_chan a | inr _ => case_chan b end
      | _ => fun _ => None
      end
  end.

Definition took (c : chan) (l : log) : Prop := Exists (fun ev => match ev with Ev e x => takes e x = Some c end) l.

(** An event of a kind happened. *)
Definition happened (k : forall X, ProcE X -> Prop) (l : log) : Prop := Exists (fun ev => match ev with Ev e _ => k _ e end) l.

Definition makes (c : chan) (n : nat) (X : Type) (e : ProcE X) : Prop :=
  match e with
  | inrE (MakeChan c' n') => c' = c /\ n' = n
  | _ => False
  end.

Definition made (c : chan) (n : nat) (l : log) : Prop := happened (makes c n) l.

Definition stops (X : Type) (e : ProcE X) : Prop :=
  match e with
  | inrE Stop => True
  | _ => False
  end.

Definition shuts (X : Type) (e : ProcE X) : Prop :=
  match e with
  | inrE (Shutdown _) => True
  | _ => False
  end.

Definition cancels (X : Type) (e : ProcE X) : Prop :=
  match e with
  | inrE StopNotify => True
  | _ => False
  end.

(** ** The rules the main programs keep *)

(** A channel is made once; a goroutine is started on a channel of its own, made for
    it; the main program receives from a channel whose goroutine was started, at most
    once from [errCh], and leaves everything else to the goroutines. *)
Definition disciplined (past : log) (X : Type) (e : ProcE X) : Prop :=
  match e with
  | inlE _ => True
  | inrE e =>
      match e with
      | MakeChan c _ => forall n, ~ made c n past
      | Go (ServeTo c) | Go (ServeThenClose c) => c = ErrCh /\ made c 1 past /\ c ∉ users past
      | Go (GracefulStopThenClose c) => c = Stopped /\ made c 0 past /\ c ∉ users past
      | Select Done (Recv ErrCh) => (exists g, g ∈ starts past /\ serves g) /\ ~ took ErrCh past
      | Select (Recv Stopped) (After _) => GracefulStopThenClose Stopped ∈ starts past
      | Select _ _ | Await _ | Send _ _ | Close _ | Serve | GracefulStop | GracefulStopReturns | ListenAndServe => False
      | _ => True
      end
  end.

(** The server was stopped, by force or gracefully. *)
Definition over (l : log) : Prop := happened stops l \/ took Stopped l.

(** The servers of the log are over. *)
Definition served (l : log) : Prop :=
  ((exists g, g ∈ starts l /\ serves g) -> took ErrCh l \/ over l) /\
  (GracefulStopThenClose Stopped ∈ starts l -> over l) /\
  ((exists lg, ListenMetrics lg ∈ starts l) -> happened shuts l).

(** What the log of a run that returned says. *)
Definition finished (l : log) : Prop := served l /\ (ShutdownOnDone ∈ starts l -> happened cancels l).

Lemma starts_snoc l X (e : ProcE X) x : starts (l ++ [@Ev ProcE X e x]) = starts l ++ started e.
Proof. unfold starts. rewrite flat_map_app. cbn. by rewrite app_nil_r. Qed.

Lemma users_snoc l X (e : ProcE X) x : users (l ++ [@Ev ProcE X e x]) = users l ++ omap user (started e).
Proof. unfold users. by rewrite starts_snoc, omap_app. Qed.

Lemma took_snoc c l X (e : ProcE X) x : took c (l ++ [@Ev ProcE X e x]) <-> took c l \/ takes e x = Some c.
Proof. unfold took. by rewrite Exists_app, Exists_cons, Exists_nil; intuition. Qed.

Lemma happened_snoc k l X (e : ProcE X) x : happened k (l ++ [@Ev ProcE X e x]) <-> happened k l \/ k X e.
Proof. unfold happened. by rewrite Exists_app, Exists_cons, Exists_nil; intuition. Qed.

(** ** Where a goroutine is *)

(** [point g n p]: [g] is at its stage [n], with [p] left; at stage 3 it has ended. *)
Inductive point : goroutine -> nat -> M unit -> Prop :=
| point_start g : point g 0 (body g)
| point_send c v : point (ServeTo c) 1 (act (Send c v))
| point_send_close c v : point (ServeThenClose c) 1 (_ ← act (Send c v); act (Close c))
| point_close c : point (ServeThenClose c) 2 (act (Close c))
| point_returns c : point (GracefulStopThenClose c) 1 (_ ← act GracefulStopReturns; act (Close c))
| point_stopped c : point (GracefulStopThenClose c) 2 (act (Close c))
| point_log lg lvl msg args : point (ListenMetrics lg) 1 (act (Log lg lvl msg args))
| point_shutdown t : point ShutdownOnDone 1 (act (Shutdown t))
| point_end g u : point g 3 (Ret u).

(** The channel of a goroutine at stage [n], and the server. *)
Definition ok (l : log) (w : world) (g : goroutine) (n : nat) : Prop :=
  match g with
  | ServeTo c => exists st, chans w c = Some st /\ (0 < cap st)%nat /\ closed st = false /\
      ((n < 2)%nat -> buffer st = [] /\ ~ took c l) /\ (n = 3%nat -> buffer st <> [] \/ took c l)
  | ServeThenClose c => exists st, chans w c = Some st /\ (0 < cap st)%nat /\ (closed st = true <-> n = 3%nat) /\
      ((n < 2)%nat -> buffer st = [] /\ ~ took c l)
  | GracefulStopThenClose c => exists st, chans w c = Some st /\ buffer st = [] /\ (closed st = true <-> n = 3%nat) /\
      (n <> 3%nat -> ~ took c l) /\ ((2 <= n)%nat -> stopped (server w))
  | ListenMetrics _ | ShutdownOnDone => True
  end.

(** A step that touches the channel [o] at most, and otherwise only moves on. *)
Record evolves (o : option chan) (w w' : world) : Prop := {
  ev_chans : forall c, o <> Some c -> chans w' c = chans w c;
  ev_ctx : ctx_done w = true -> ctx_done w' = true;
  ev_http : http_closed w = true -> http_closed w' = true;
  ev_stopped : stopped (server w) -> stopped (server w');
}.

Lemma evolves_same o w : evolves o w w.
Proof. by split. Qed.

Lemma evolves_chan c st w : evolves (Some c) w (set_chan c st w).
Proof. split; try done. intros c' Hc. cbn. apply fn_lookup_insert_ne. congruence. Qed.

Lemma evolves_server o g w : (stopped (server w) -> stopped g) -> evolves o w (set_server g w).
Proof. intros Hg. by split. Qed.

Lemma ok_evolves l w w' o g n : ok l w g n -> evolves o w w' -> (o = None \/ user g <> o) -> ok l w' g n.
Proof.
  intros Hok [Hc _ _ Hs] Ho. destruct g as [c|c|c|lg|]; [..|done|done]; destruct Hok as (st & Hst & Hok);
    exists st; (split; [rewrite Hc; [done|]; destruct Ho as [->|Ho]; [done|]; intros ->; by apply Ho|]); [done|done|].
  destruct Hok as (? & ? & ? & Hstop). split_and!; auto.
Qed.

Lemma ok_log l l' w g n : ok l w g n -> (forall c, user g = Some c -> took c l <-> took c l') -> ok l' w g n.
Proof.
  intros Hok Hl. destruct g as [c|c|c|lg|]; [..|done|done]; destruct Hok as (st & Hst & Hok); exists st;
    rewrite <- (Hl c) by done; done.
Qed.

(** ** A step of a goroutine *)

(** Moving on without touching the channel. *)
Lemma ok_moves l w g n n' :
  ok l w g n -> (n <= n')%nat -> (n' < 3)%nat -> (serves g \/ (n' < 2)%nat \/ stopped (server w)) -> ok l w g n'.
Proof.
  intros Hok Hle Hlt Hs. destruct g as [c|c|c|lg|]; [..|done|done]; destruct Hok as (st & Hst & Hok); exists st.
  - destruct Hok as (? & ? & Hb & Hd). split_and!; try done; [intros; apply Hb; lia|lia].
  - destruct Hok as (? & Hc & Hb). split; [done|]. split; [done|]. split; [rewrite Hc; lia|intros; apply Hb; lia].
  - destruct Hok as (? & Hc & Ht & Hp). split; [done|]. split; [done|]. split; [rewrite Hc; lia|].
    split; [intros; apply Ht; lia|]. intros. destruct Hs as [[]|[?|?]]; [lia|done].
Qed.

(** Closing the channel of the goroutine. *)
Lemma ok_closes l w g c n w' :
  ok l w g n -> (2 <= n)%nat -> user g = Some c -> (forall c', g <> ServeTo c') ->
  exec (Close c) w tt w' -> ok l w' g 3 /\ evolves (Some c) w w'.
Proof.
  intros Hok Hn Hu Hg (st & Hst & Hcl & ->). split; [|apply evolves_chan].
  destruct g as [c'|c'|c'|lg|]; cbn in Hu; simplify_eq; [by destruct (Hg c)| |];
    destruct Hok as (st' & Hst' & Hok); simplify_eq; eexists; cbn; rewrite fn_lookup_insert; (split; [done|]).
  - destruct Hok as (? & _ & _). split; [done|]. by split; [|lia].
  - destruct Hok as (? & _ & _ & Hs). split; [done|]. split; [done|]. split; [lia|]. intros _. by apply Hs.
Qed.

(** Sending to the channel of the goroutine. *)
Lemma ok_sends l w g c v n n' w' :
  ok l w g n -> user g = Some c -> serves g -> (2 <= n')%nat -> (n < 3)%nat ->
  (n' = 3%nat -> exists c', g = ServeTo c') ->
  exec (Send c v) w tt w' -> ok l w' g n' /\ evolves (Some c) w w'.
Proof.
  intros Hok Hu Hg Hn Hlt Hto (st & Hst & Hcl & Hl & ->). split; [|apply evolves_chan].
  destruct g as [c'|c'|c'|lg|]; cbn in Hu; simplify_eq; [| |done];
    destruct Hok as (st' & Hst' & Hok); simplify_eq; eexists; cbn; rewrite fn_lookup_insert; (split; [done|]).
  - destruct Hok as (? & _ & _). split_and!; [done|done|lia|]. left. by destruct (buffer st').
  - destruct Hok as (? & _ & _). split; [done|]. split; [|lia]. split; [done|]. intros ->. by destruct Hto.
Qed.

Lemma thread_step l w g n p gs p' w' :
  point g n p -> ok l w g n -> next p w gs p' w' ->
  gs = [] /\ exists n', point g n' p' /\ ok l w' g n' /\ evolves (user g) w w'.
Proof.
  intros Hp Hok Hn. destruct Hp as [[c|c|c|lg|]|c v|c v|c|c|c|lg lvl msg args|t|g u]; [..|destruct Hn];
    destruct Hn as (x & Hx & -> & ->); cbn in Hx; (split; [done|]).
  - destruct Hx as [_ ->]. exists 1%nat. split_and!; [apply point_send| |apply evolves_same].
    eapply ok_moves; [done|lia..|by left].
  - destruct Hx as [_ ->].
    assert (Hm : forall n, (n < 3)%nat -> ok l w (ServeThenClose c) n) by (intros; eapply ok_moves; [done|lia..|by left]).
    destruct x as [e|]; [destruct (errors_is e ErrServerStopped) eqn:He|]; cbn; rewrite ?He; cbn;
      [exists 2%nat|exists 1%nat|exists 2%nat]; (split_and!; [constructor|apply Hm; lia|apply evolves_same]).
  - subst w'. exists 1%nat. split_and!; [apply point_returns| |apply evolves_server, stopped_starts].
    eapply ok_evolves; [eapply ok_moves; [done|lia..|right; left; lia]|apply evolves_server, stopped_starts|by left].
  - destruct Hx as (_ & _ & ->). destruct x as [e|]; [destruct (errors_is e ErrServerClosed) eqn:He|]; cbn; rewrite ?He; cbn;
      eexists; (split_and!; [constructor|done|apply evolves_same]).
  - destruct Hx as (_ & _ & ->). eexists; (split_and!; [constructor|done|apply evolves_same]).
  - exists 3%nat. split; [constructor|]. eapply (ok_sends _ _ _ _ v); try done; try lia; by eexists.
  - exists 2%nat. split; [constructor|]. eapply (ok_sends _ _ _ _ v); try done; lia.
  - exists 3%nat. split; [constructor|]. eapply ok_closes; try done; lia.
  - destruct Hx as [Hs ->]. exists 2%nat. split_and!; [apply point_stopped| |apply evolves_same]. eapply ok_moves; [done|lia..|right; right; by apply stopped_GracefulStop].
  - exists 3%nat. split; [constructor|]. eapply ok_closes; try done; lia.
  - subst w'. exists 3%nat. split_and!; [constructor|done|apply evolves_same].
  - subst w'. exists 3%nat. split_and!; [constructor|done|by split].
Qed.

(** ** A step of the main program *)

(** The channel an event creates. *)
Definition creates {X} (e : ProcE X) : option chan :=
  match e with
  | inrE (MakeChan c _) => Some c
  | _ => None
  end.

Lemma recv_evolves c v w w' : recv (Recv c) w v w' -> evolves (Some c) w w'.
Proof.
  intros (st & Hst & Hb). destruct (buffer st); [destruct Hb as (_ & _ & ->); apply evolves_same|].
  destruct Hb as [_ ->]. apply evolves_chan.
Qed.

(** An event of the main program takes a value, or touches a channel it makes at most. *)
Lemma main_evolves l X (e : ProcE X) x w w' :
  disciplined l X e -> exec_proc e w x w' ->
  (takes e x = None /\ evolves (creates e) w w') \/ (exists c v, takes e x = Some c /\ recv (Recv c) w v w').
Proof.
  intros Hd He. destruct e as [e|e]; [left; cbn in He; subst; split; [done|apply evolves_same]|].
  destruct e; cbn in Hd, He; try done; try (left; subst; split; [done|by split]).
  - left. subst. split; [done|]. apply evolves_chan.
  - destruct a as [|c|t], b as [|c'|t']; try done; destruct x as [v|v]; cbn in He |- *; first
      [ left; split; [done|]; by destruct_and?; subst; apply evolves_same
      | right; by eexists _, v ].
  - left. subst. split; [done|]. apply evolves_server. intros _. apply stopped_Stop.
Qed.

(** A value is taken from a goroutine that sent it, or closed the channel. *)
Lemma ok_take l w g n c v w' X (e : ProcE X) x :
  ok l w g n -> user g = Some c -> recv (Recv c) w v w' -> takes e x = Some c ->
  ok (l ++ [@Ev ProcE X e x]) w' g n /\ (2 <= n)%nat /\ (~ serves g -> stopped (server w)).
Proof.
  intros Hok Hu (st & Hst & Hr) Ht. pose proof (proj2 (took_snoc c l X e x) (or_intror Ht)) as Hl.
  destruct g as [c'|c'|c'|lg|]; cbn in Hu; simplify_eq; destruct Hok as (st' & Hst' & Hok); simplify_eq.
  - destruct Hok as (Hcap & Hc & Hb & Hd). destruct (decide (n < 2)%nat) as [Hn|Hn].
    { destruct (Hb Hn) as [Hb' _]. rewrite Hb', Hc in Hr. by destruct Hr. }
    split; [|split; [lia|done]]. destruct (buffer st') as [|v0 rest] eqn:Hbuf; [destruct Hr as (? & _ & ->); congruence|].
    destruct Hr as [_ ->]. eexists. cbn. rewrite fn_lookup_insert. split_and!; try done. by right.
  - destruct Hok as (Hcap & Hc & Hb). destruct (decide (n < 2)%nat) as [Hn|Hn].
    { destruct (Hb Hn) as [Hb' _]. rewrite Hb' in Hr. destruct Hr as [Hr _]. apply Hc in Hr. lia. }
    split; [|split; [lia|done]]. destruct (buffer st') as [|v0 rest] eqn:Hbuf; [destruct Hr as (? & _ & ->)|destruct Hr as [_ ->]];
      eexists; cbn; rewrite ?fn_lookup_insert; (split; [done|]); (split; [done|]); (split; [done|lia]).
  - destruct Hok as (Hb & Hc & Htk & Hs). rewrite Hb in Hr. destruct Hr as (Hr & _ & ->).
    pose proof (proj1 Hc Hr) as ->. split; [|split; [lia|intros _; apply Hs; lia]].
    exists st'. split; [done|]. split; [done|]. split; [done|]. by split.
Qed.

(** The goroutine [g] has [p] left. *)
Definition placed (l : log) (w : world) (g : goroutine) (p : M unit) : Prop :=
  exists n, point g n p /\ ok l w g n.

(** The goroutines use the channels of their names. *)
Definition lawful (g : goroutine) : Prop :=
  match g with
  | ServeTo c | ServeThenClose c => c = ErrCh
  | GracefulStopThenClose c => c = Stopped
  | ListenMetrics _ | ShutdownOnDone => True
  end.

(** What the log of the main program says of the world. *)
Record known (l : log) (w : world) : Prop := {
  kn_users : NoDup (users l);
  kn_lawful : Forall lawful (starts l);
  kn_made : forall c n, made c n l -> c ∉ users l -> chans w c = Some (mkChan n [] false);
  kn_used : forall c, c ∈ users l -> exists n, made c n l;
  kn_took : forall c, took c l -> c ∈ users l;
  kn_cancelled : happened cancels l -> ctx_done w = true;
  kn_shut : happened shuts l -> http_closed w = true;
  kn_over : over l -> stopped (server w);
}.

Lemma users_elem c l : c ∈ users l <-> exists g, g ∈ starts l /\ user g = Some c.
Proof. unfold users. rewrite list_elem_of_omap. naive_solver. Qed.

Lemma takes_users l X (e : ProcE X) x c :
  Forall lawful (starts l) -> disciplined l X e -> takes e x = Some c -> c ∈ users l.
Proof.
  intros Hl Hd Ht. destruct e as [e|e]; [done|]. destruct e; cbn in *; try done.
  rewrite Forall_forall in Hl. apply users_elem.
  destruct a as [|[]|t], b as [|[]|t']; try done; destruct x; cbn in Ht; simplify_eq.
  - destruct Hd as [(g & Hg & Hs) _]. exists g. split; [done|]. specialize (Hl g Hg). destruct g; cbn in *; naive_solver.
  - by eexists.
Qed.

Lemma Forall2_mono_in {A B} (P Q : A -> B -> Prop) l k :
  Forall2 P l k -> (forall x y, x ∈ l -> P x y -> Q x y) -> Forall2 Q l k.
Proof. induction 1; intros HPQ; constructor; set_solver. Qed.

Lemma creates_fresh l X (e : ProcE X) c n : disciplined l X e -> creates e = Some c -> ~ made c n l.
Proof. intros Hd. destruct e as [e|e]; [done|]. by destruct e; intros [= <-]. Qed.

Lemma started_go l X (e : ProcE X) x w w' g :
  exec_proc e w x w' -> disciplined l X e -> g ∈ started e ->
  w' = w /\ takes e x = None /\ started e = [g] /\ disciplined l unit (inrE (Go g)).
Proof.
  intros He Hd Hg. destruct e as [e|e]; [by inversion Hg|]. destruct e; cbn in Hg; try by inversion Hg.
  by apply list_elem_of_singleton in Hg as ->.
Qed.

(** The event does not concern the channels of the goroutines, or takes from one. *)
Lemma placed_main l X (e : ProcE X) x w w' g p :
  known l w -> disciplined l X e -> exec_proc e w x w' -> g ∈ starts l ->
  placed l w g p -> placed (l ++ [@Ev ProcE X e x]) w' g p.
Proof.
  intros Hk Hd He Hg (n & Hp & Hok). exists n. split; [done|].
  destruct (main_evolves l X e x w w' Hd He) as [[Ht Hev]|(c & v & Ht & Hr)].
  - eapply (ok_log l).
    + eapply ok_evolves; [done|exact Hev|]. destruct (creates e) as [c|] eqn:Hc; [right; intros Hu|by left].
      destruct (kn_used _ _ Hk c) as [m Hm]; [apply users_elem; eauto|].
      by destruct (creates_fresh l X e c m Hd Hc).
    + intros c _. rewrite took_snoc, Ht. naive_solver.
  - destruct (decide (user g = Some c)) as [Hu|Hu]; [by eapply ok_take|].
    eapply (ok_log l); [eapply ok_evolves; [done|by eapply recv_evolves|by right]|].
    intros c' Hu'. rewrite took_snoc, Ht. naive_solver.
Qed.

Lemma placed_started l X (e : ProcE X) x w w' g :
  known l w -> disciplined l X e -> exec_proc e w x w' -> g ∈ started e ->
  placed (l ++ [@Ev ProcE X e x]) w' g (body g).
Proof.
  intros Hk Hd He Hg. destruct (started_go l X e x w w' g He Hd Hg) as (-> & Ht & _ & Hgo).
  exists 0%nat. split; [constructor|]. apply (ok_log l); [|intros c _; rewrite took_snoc, Ht; naive_solver].
  destruct g as [c|c|c|lg|]; [..|done|done]; destruct Hgo as (-> & Hm & Hnu);
    pose proof (kn_made _ _ Hk _ _ Hm Hnu) as Hc; pose proof (fun Ht => Hnu (kn_took _ _ Hk _ Ht)) as Hnt;
    eexists; (split; [exact Hc|]); cbn.
  - by split_and!; [lia| | |lia].
  - split; [lia|]. by split.
  - split; [done|]. split; [done|]. split; [done|lia].
Qed.

(** What a step of the main program keeps of the world. *)
Lemma main_keeps l X (e : ProcE X) x w w' :
  known l w -> disciplined l X e -> exec_proc e w x w' ->
  (ctx_done w = true -> ctx_done w' = true) /\ (http_closed w = true -> http_closed w' = true) /\
  (stopped (server w) -> stopped (server w')) /\
  (forall c, c ∉ users l -> creates e <> Some c -> chans w' c = chans w c).
Proof.
  intros Hk Hd He. destruct (main_evolves l X e x w w' Hd He) as [[Ht [Hc ? ? ?]]|(c & v & Ht & Hr)].
  - split_and!; auto.
  - pose proof (recv_evolves _ _ _ _ Hr) as [Hc ? ? ?]. split_and!; try done.
    intros c' Hn _. apply Hc. intros [= ->]. by apply Hn, (takes_users l X e x), Ht; [apply Hk|].
Qed.

Lemma users_main l X (e : ProcE X) x w w' :
  known l w -> disciplined l X e -> exec_proc e w x w' ->
  let l' := l ++ [@Ev ProcE X e x] in
  NoDup (users l') /\ Forall lawful (starts l') /\ (forall c, c ∈ users l' -> exists n, made c n l').
Proof.
  intros Hk Hd He l'. unfold l'. rewrite users_snoc, starts_snoc.
  assert (Hm : forall c, c ∈ users l -> exists n, made c n (l ++ [@Ev ProcE X e x])).
  { intros c [n Hn]%(kn_used _ _ Hk). exists n. apply happened_snoc. by left. }
  destruct (started e) as [|g gs] eqn:Hs; [rewrite !app_nil_r; split_and!; [apply Hk..|done]|].
  destruct (started_go l X e x w w' g He Hd) as (-> & _ & Heq & Hgo); [rewrite Hs; left|].
  rewrite Hs in Heq. injection Heq as ->. rewrite Forall_app, Forall_singleton.
  assert (Hg : lawful g /\ (forall c, user g = Some c -> (c ∉ users l) /\ exists n, made c n l)).
  { destruct g; cbn in *; naive_solver. }
  destruct Hg as [Hlaw Hg]. cbn [omap list_omap]. destruct (user g) as [c|]; [|rewrite app_nil_r; split_and!; [apply Hk..|done|done]].
  destruct (Hg c eq_refl) as [Hn [n Hc]]. split_and!; [|apply Hk|done|].
  - apply NoDup_app. split_and!; [apply Hk| |apply NoDup_singleton]. by intros c' Hc' Hcc%list_elem_of_singleton; subst.
  - intros c' [Hc'|Hc'%list_elem_of_singleton]%elem_of_app; [by apply Hm|subst c']. exists n. apply happened_snoc. by left.
Qed.

Lemma known_main l X (e : ProcE X) x w w' ts :
  known l w -> Forall2 (placed l w) (starts l) ts -> disciplined l X e -> exec_proc e w x w' ->
  known (l ++ [@Ev ProcE X e x]) w'.
Proof.
  intros Hk Hts Hd He. destruct (main_keeps l X e x w w' Hk Hd He) as (Hctx & Hhttp & Hstop & Hch).
  destruct (users_main l X e x w w' Hk Hd He) as (Hnd & Hlaw & Hused).
  split; [done|done| |done| | | |].
  - intros c n Hm Hn. rewrite users_snoc in Hn.
    assert (Hn' : c ∉ users l) by set_solver.
    apply happened_snoc in Hm as [Hm|Hm].
    + rewrite Hch; [by apply Hk|done|]. intros Hc. by apply (creates_fresh l X e c n).
    + destruct e as [e|e]; [done|]. destruct e; try done. destruct Hm as [-> ->]. cbn in He. subst w'.
      cbn. apply fn_lookup_insert.
  - intros c [Hc|Hc]%took_snoc; rewrite users_snoc; apply elem_of_app; left; [by apply Hk|].
    apply (takes_users l X e x); [apply Hk|done..].
  - intros [Hc|Hc]%happened_snoc; [by apply Hctx, Hk|]. destruct e as [e|e]; [done|]. destruct e; try done. cbn in He. by subst.
  - intros [Hc|Hc]%happened_snoc; [by apply Hhttp, Hk|]. destruct e as [e|e]; [done|]. destruct e; try done. cbn in He. by subst.
  - intros [[Hc|Hc]%happened_snoc|[Hc|Hc]%took_snoc].
    + apply Hstop, Hk. by left.
    + destruct e as [e|e]; [done|]. destruct e; try done. cbn in He. subst. apply stopped_Stop.
    + apply Hstop, Hk. by right.
    + destruct (main_evolves l X e x w w' Hd He) as [[Ht _]|(c & v & Ht & Hr)]; [congruence|].
      assert (c = Stopped) as -> by congruence.
      apply Hstop. pose proof (takes_users l X e x _ (kn_lawful _ _ Hk) Hd Ht) as (g & Hg & Hu)%users_elem.
      apply list_elem_of_lookup_1 in Hg as [i Hi]. destruct (Forall2_lookup_l _ _ _ _ _ Hts Hi) as (p & _ & n & _ & Hok).
      destruct (ok_take l w g n Stopped v w' X e x Hok Hu Hr Ht) as (_ & _ & Hs). apply Hs.
      pose proof (proj1 (Forall_forall _ _) (kn_lawful _ _ Hk) g) as Hlg. intros Hsv.
      specialize (Hlg (list_elem_of_lookup_2 _ _ _ Hi)). destruct g; cbn in *; congruence.
Qed.
End Props.
