(* ===== verification/ProcessTheorems.v ===== *)
(** * ProcessTheorems: the processes of the repository, under every interleaving

    What holds of every process whose main program keeps the rules of ProcessProps, and
    that the command and the embedded example keep them. *)

From stdpp Require Import relations functions.
From S2P Require Import Prelude Effects Store Postgres GoText GoUrl Config ConfigTheorems Main Embedded Process ProcessProps.
Import main.

Section Invariant.
Context `{GrpcServer}.

(** ** The invariant of a process *)

Definition inv {R} (m : M R) (s : process R) : Prop :=
  exists l, follows m l (p_main s) /\ emits disciplined l (p_main s) /\
    Forall2 (placed l (p_world s)) (starts l) (p_threads s) /\ known l (p_world s).

Lemma known_start w : known [] w.
Proof.
  split; try by constructor.
  - by intros c n Hm%Exists_nil.
  - intros c Hc. by inversion Hc.
  - by intros c Hc%Exists_nil.
  - by intros Hc%Exists_nil.
  - by intros Hc%Exists_nil.
  - by intros [Hc%Exists_nil|Hc%Exists_nil].
Qed.

Lemma inv_start {R} (m : M R) : emits disciplined [] m -> inv m (start m).
Proof. intros Hm. exists []. split_and!; [apply follows_nil|done|constructor|apply known_start]. Qed.

Lemma known_evolves l w w' o :
  known l w -> evolves o w w' -> (forall c, o = Some c -> c ∈ users l) -> known l w'.
Proof.
  intros [] [Hc ? ? ?] Ho. split; auto.
  intros c n Hm Hn. rewrite Hc; [auto|]. intros ->. by apply Hn, Ho.
Qed.

Lemma omap_NoDup {A B} (f : A -> option B) l i j x y z :
  NoDup (omap f l) -> l !! i = Some x -> l !! j = Some y -> f x = Some z -> f y = Some z -> i = j.
Proof.
  revert i j. induction l as [|a l IH]; intros i j Hnd Hi Hj Hx Hy; [done|].
  assert (Hin : forall k b, l !! k = Some b -> f b = Some z -> z ∈ omap f l).
  { intros k b Hk Hb. apply list_elem_of_omap. exists b. split; [by eapply list_elem_of_lookup_2|done]. }
  destruct i as [|i], j as [|j]; cbn in *; simplify_eq; [done| | |f_equal].
  - rewrite Hx in Hnd. apply NoDup_cons in Hnd as [Hn _]. destruct (Hn (Hin _ _ Hj Hy)).
  - rewrite Hy in Hnd. apply NoDup_cons in Hnd as [Hn _]. destruct (Hn (Hin _ _ Hi Hx)).
  - eapply IH; eauto. destruct (f a); [by apply NoDup_cons in Hnd as [_ ?]|done].
Qed.

Lemma inv_main {R} (m0 m : M R) ts w gs m' w' :
  inv m0 (Proc m ts w) -> next m w gs m' w' -> inv m0 (Proc m' (ts ++ (body <$> gs)) w').
Proof.
  intros (l & Hf & Hem & Hts & Hk) Hn. cbn in *. destruct m as [a|X e k]; [done|].
  destruct Hn as (x & He & -> & ->), Hem as [Hd Hem]. exists (l ++ [@Ev ProcE X e x]). cbn.
  split_and!; [by apply follows_snoc|apply Hem| |by eapply known_main].
  rewrite starts_snoc. apply Forall2_app.
  - eapply Forall2_mono_in; [exact Hts|]. intros g p Hg Hp. by eapply placed_main.
  - apply Forall2_fmap_r, Forall_Forall2_diag, Forall_forall. intros g Hg. by eapply placed_started.
Qed.

Lemma inv_thread {R} (m0 m : M R) ts w i p gs p' w' :
  inv m0 (Proc m ts w) -> ts !! i = Some p -> next p w gs p' w' ->
  gs = [] /\ inv m0 (Proc m (<[i := p']> ts) w').
Proof.
  intros (l & Hf & Hem & Hts & Hk) Hi Hn. cbn in *.
  destruct (Forall2_lookup_r _ _ _ _ _ Hts Hi) as (g & Hg & n & Hp & Hok).
  destruct (thread_step l w g n p gs p' w' Hp Hok Hn) as (-> & n' & Hp' & Hok' & Hev). split; [done|].
  exists l. cbn. split_and!; [done|done| |].
  - apply Forall2_same_length_lookup. apply Forall2_same_length_lookup in Hts as [Hlen Hts].
    split; [by rewrite length_insert|]. intros j g' q Hg' Hq. destruct (decide (i = j)) as [->|Hne].
    + rewrite list_lookup_insert_eq in Hq by (by eapply lookup_lt_Some). simplify_eq. by exists n'.
    + rewrite list_lookup_insert_ne in Hq by done. destruct (Hts _ _ _ Hg' Hq) as (n2 & Hp2 & Hok2).
      exists n2. split; [done|]. eapply ok_evolves; [done|exact Hev|].
      destruct (user g) as [c|] eqn:Hu; [right|by left]. intros Hu'.
      apply Hne. eapply (omap_NoDup user (starts l)); eauto. apply Hk.
  - eapply known_evolves; [done|exact Hev|]. intros c Hc. apply users_elem. exists g. split; [|done].
    by eapply list_elem_of_lookup_2.
Qed.

Lemma inv_env {R} (m0 : M R) s s' : inv m0 s -> estep s s' -> inv m0 s'.
Proof.
  intros (l & Hf & Hem & Hts & Hk) Hs.
  assert (Hev : evolves None (p_world s) (p_world s') /\ p_main s' = p_main s /\ p_threads s' = p_threads s).
  { destruct Hs as [m ts w Hn|m ts w g Hp]; cbn; (split; [|done]); [by split|].
    apply evolves_server. intros Hst. by eapply stopped_stays. }
  destruct Hev as (Hev & Hm & Ht). exists l. rewrite Hm, Ht. split_and!; [done|done| |by eapply known_evolves].
  eapply Forall2_mono_in; [exact Hts|]. intros g p _ (n & Hp & Hok). exists n. split; [done|].
  by eapply ok_evolves; [|exact Hev|left].
Qed.

(** ** Nothing blocks for ever *)

Definition ended {A} (p : M A) : Prop :=
  match p with
  | Ret _ => True
  | _ => False
  end.

(** The main program waits for a signal or for the server. *)
Definition serving {A} (p : M A) : Prop :=
  match p with
  | Vis (inrE (Select Done (Recv ErrCh))) _ => True
  | _ => False
  end.

(** The goroutine is in [Serve]. *)
Definition in_serve {A} (p : M A) : Prop :=
  match p with
  | Vis (inrE Serve) _ => True
  | _ => False
  end.

Lemma thread_live l w g p : placed l w g p -> ended p \/ ready p w \/ awaits p.
Proof.
  intros (n & Hp & Hok). destruct Hp as [[c|c|c|lg|]|c v|c v|c|c|c|lg lvl msg args|t|g u]; cbn in *; try tauto;
    right; left; destruct Hok as (st & Hst & Hok); exists st.
  - destruct Hok as (? & ? & Hb & _). destruct Hb as [-> _]; [lia|]. by split_and!; [| |cbn; lia].
  - destruct Hok as (? & Hc & Hb). destruct Hb as [-> _]; [lia|]. split_and!; [done| |cbn; lia].
    destruct (closed st); [|done]. by destruct Hc as [Hc _]; specialize (Hc eq_refl).
  - destruct Hok as (? & Hc & _). split; [done|]. destruct (closed st); [|done]. by destruct Hc as [Hc _]; specialize (Hc eq_refl).
  - destruct Hok as (_ & Hc & _). split; [done|]. destruct (closed st); [|done]. by destruct Hc as [Hc _]; specialize (Hc eq_refl).
Qed.

(** A server goroutine has not ended, or the main program can receive from it. *)
Lemma server_live l w g p :
  placed l w g p -> serves g -> user g = Some ErrCh -> ~ took ErrCh l ->
  ready p w \/ in_serve p \/ case_ready (Recv ErrCh) w.
Proof.
  intros Hpl Hs Hu Ht. destruct (thread_live _ _ _ _ Hpl) as [He|[Hr|Ha]]; [|by left|]; destruct Hpl as (n & Hp & Hok).
  - right; right. destruct Hp as [[c|c|c|lg|]|c v|c v|c|c|c|lg lvl msg args|t|g u]; try done.
    destruct g as [c|c|c|lg|]; try done; cbn in Hu; simplify_eq; destruct Hok as (st & Hst & Hcap & Hc & Hok).
    + destruct Hok as [_ Hok]. destruct (Hok eq_refl) as [Hb|Hb]; [|done].
      destruct (buffer st) as [|v rest] eqn:Hbuf; [done|]. eexists v, _, st. rewrite Hbuf. by split.
    + destruct (buffer st) as [|v rest] eqn:Hbuf; eexists _, _, st; rewrite Hbuf; (split; [done|]); [|by split].
      by split_and!; [apply Hc| |].
  - right; left. destruct Hp as [[c|c|c|lg|]|c v|c v|c|c|c|lg lvl msg args|t|g u]; done.
Qed.

Lemma main_live {R} (m : M R) l w ts :
  emits disciplined l m -> Forall2 (placed l w) (starts l) ts -> known l w ->
  ended m \/ ready m w \/
  (serving m /\ ctx_done w = false /\ Exists (fun p => ready p w \/ in_serve p) ts).
Proof.
  intros Hem Hts Hk. destruct m as [a|X e k]; [by left|right]. destruct Hem as [Hd _].
  destruct e as [e|e]; [by left|]. destruct e; cbn in Hd; try done; try by left.
  destruct a as [|[]|t], b as [|[]|t']; try done; [|left; right; by eexists _, _].
  destruct (ctx_done w) eqn:Hctx; [left; left; by eexists None, w|].
  destruct Hd as [(g & Hg & Hs) Ht]. pose proof (proj1 (Forall_forall _ _) (kn_lawful _ _ Hk) g Hg) as Hlaw.
  assert (Hu : user g = Some ErrCh) by (destruct g; cbn in *; naive_solver).
  apply list_elem_of_lookup_1 in Hg as [i Hi]. destruct (Forall2_lookup_l _ _ _ _ _ Hts Hi) as (p & Hp & Hpl).
  assert (Hin : p ∈ ts) by (by eapply list_elem_of_lookup_2).
  destruct (server_live _ _ _ _ Hpl Hs Hu Ht) as [Hr|[Hr|Hr]]; [right|right|left; by right];
    (split_and!; [done|done|]); apply Exists_exists; eauto.
Qed.

(** Once the main program has returned, the goroutines go on to their end. *)
Lemma finished_live l w g p : placed l w g p -> g ∈ starts l -> lawful g -> known l w -> finished l -> ended p \/ ready p w.
Proof.
  intros Hpl Hg Hlaw Hk [(Hsv & Hst & Hsh) Hcn].
  destruct (thread_live _ _ _ _ Hpl) as [He|[Hr|Ha]]; [by left|by right|right].
  destruct Hpl as (n & Hp & Hok).
  assert (Hover : serves g -> n = 0%nat -> stopped (server w)).
  { intros Hs ->. destruct Hsv as [Ht|Ho]; [by exists g| |by apply Hk].
    destruct g; try done; cbn in Hlaw; subst; destruct Hok as (st & Hst' & Hok).
    - destruct Hok as (_ & _ & Hb & _). by destruct Hb as [_ []]; [lia|].
    - destruct Hok as (_ & _ & Hb). by destruct Hb as [_ []]; [lia|]. }
  destruct Hp as [[c|c|c|lg|]|c v|c v|c|c|c|lg lvl msg args|t|g u]; cbn in *; try done.
  - by apply Hover.
  - by apply Hover.
  - apply Hk, Hsh. by exists lg.
  - eexists None, w. split; [apply Hk, Hcn, Hg|done].
  - subst c. by apply Hk, Hst.
Qed.

(** ** The number of events *)

Definition spent {R} (n b : nat) (s : process R) : Prop :=
  exists b' ns, bounded b' (p_main s) /\ Forall2 (fun k p => bounded k p) ns (p_threads s) /\
    (n + 4 * b' + sum_list ns <= 4 * b)%nat.

Lemma body_bounded g : bounded 3 (body g).
Proof. destruct g; cbn; intros; repeat case_match; cbn; auto. Qed.

Lemma started_bounded {X} (e : ProcE X) :
  exists ns, Forall2 (fun k p => bounded k p) ns (body <$> started e) /\ (sum_list ns <= 3)%nat.
Proof.
  destruct e as [e|e]; [exists []; split; [constructor|cbn; lia]|].
  destruct e; try (exists []; split; [constructor|cbn; lia]).
  exists [3%nat]. split; [|cbn; lia]. constructor; [apply body_bounded|constructor].
Qed.

Lemma spent_thread n b i {R} (m : M R) ts w p p' w' :
  spent n b (Proc m ts w) -> ts !! i = Some p -> (forall k, bounded k p -> exists k', k = S k' /\ bounded k' p') ->
  spent (S n) b (Proc m (<[i := p']> ts) w').
Proof.
  intros (b' & ns & Hb & Hns & Hle) Hi Hp. cbn in *.
  destruct (Forall2_lookup_r _ _ _ _ _ Hns Hi) as (k & Hk & Hkp).
  destruct (Hp k Hkp) as (k' & -> & Hk'). exists b', (<[i := k']> ns). cbn. split_and!; [done|by apply Forall2_insert|].
  rewrite insert_take_drop by (by eapply lookup_lt_Some).
  rewrite <- (take_drop_middle ns i (S k') Hk) in Hle. rewrite sum_list_with_app in *. cbn in *. lia.
Qed.

Lemma steps_spent {R} (m : M R) b n s s' :
  steps n s s' -> s = start m -> emits disciplined [] m -> bounded b m -> inv m s' /\ spent n b s'.
Proof.
  intros Hs -> Hem Hb. remember (start m) as s0 eqn:Hs0. induction Hs as [s|n s1 s2 s3 Hs IH Hg|n s1 s2 s3 Hs IH He].
  - subst s. split; [by apply inv_start|]. exists b, []. split_and!; [done|constructor|cbn; lia].
  - destruct (IH Hs0) as [Hinv Hsp]. destruct Hg as [m1 ts w gs m' w' Hn|i m1 ts w p gs p' w' Hi Hn].
    + split; [by eapply inv_main|]. destruct Hsp as (b' & ns & Hb' & Hns & Hle). cbn in *.
      destruct m1 as [a|X e k]; [done|]. destruct b' as [|b']; [done|]. destruct Hn as (x & _ & -> & ->).
      destruct (started_bounded e) as (ns' & Hns' & Hle'). exists b', (ns ++ ns'). cbn.
      split_and!; [apply Hb'|by apply Forall2_app|]. rewrite sum_list_with_app. unfold sum_list in *. lia.
    + destruct (inv_thread _ _ _ _ _ _ _ _ _ Hinv Hi Hn) as [-> Hinv']. cbn. rewrite app_nil_r. split; [done|].
      eapply spent_thread; [done|done|]. intros k Hk. destruct p as [u|X e f]; [done|]. destruct k as [|k]; [done|].
      destruct Hn as (x & _ & _ & ->). by exists k.
  - destruct (IH Hs0) as [Hinv Hsp]. split; [by eapply inv_env|]. by destruct He.
Qed.

(** ** Processes that shut down *)

(** Every event has an answer. *)
Lemma answer {X} (e : ProcE X) : X.
Proof. destruct e as [[]|[]]; first [exact tt|exact None|exact (inl None)|exact (Err ErrNotFound)]. Qed.

Lemma ready_next {A} (p : M A) w : ready p w -> exists gs p' w', next p w gs p' w'.
Proof.
  destruct p as [a|X e k]; [done|]. intros Hr.
  destruct (ready_exec e w Hr (answer e)) as (x & w' & He). exists (started e), (k x), w', x. by split.
Qed.

(** Nothing waits for ever: a goroutine that has neither ended nor can go on is in a
    call of gRPC or net/http or waits for the context; the main program waits only
    before a signal, for a server goroutine that will answer; and after the main program
    no goroutine waits. *)
Definition live {R} (s : process R) : Prop :=
  let w := p_world s in
  Forall (fun p => ended p \/ ready p w \/ awaits p) (p_threads s) /\
  (ended (p_main s) \/ ready (p_main s) w \/
    (serving (p_main s) /\ ctx_done w = false /\ Exists (fun p => ready p w \/ in_serve p) (p_threads s))) /\
  (ended (p_main s) -> Forall (fun p => ended p \/ ready p w) (p_threads s)).

(** Nothing of the process is left running. *)
Definition over_all {R} (s : process R) : Prop := ended (p_main s) /\ Forall ended (p_threads s).

Section Program.
Context {R : Type} (m : M R) (b : nat).
Hypothesis Hdisc : emits disciplined [] m.
Hypothesis Hfin : wp m (fun l _ => finished l).
Hypothesis Hbound : bounded b m.

Lemma process_live n s : steps n (start m) s -> live s.
Proof.
  intros Hs. destruct (steps_spent m b n _ s Hs eq_refl Hdisc Hbound) as [(l & Hf & Hem & Hts & Hk) _].
  split_and!.
  - apply Forall_forall. intros p [i Hi]%list_elem_of_lookup_1.
    destruct (Forall2_lookup_r _ _ _ _ _ Hts Hi) as (g & _ & Hp). by eapply thread_live.
  - by eapply main_live.
  - intros He. destruct (p_main s) as [r|]; [|done]. pose proof (wp_follows _ _ _ _ Hfin Hf) as Hl.
    apply Forall_forall. intros p [i Hi]%list_elem_of_lookup_1.
    destruct (Forall2_lookup_r _ _ _ _ _ Hts Hi) as (g & Hg & Hp). apply list_elem_of_lookup_2 in Hg.
    eapply finished_live; eauto. by apply (proj1 (Forall_forall _ _) (kn_lawful _ _ Hk)).
Qed.

Lemma stuck_ready (s : process R) : (forall s', ~ gstep s s') -> ~ ready (p_main s) (p_world s) /\
  Forall (fun p => ~ ready p (p_world s)) (p_threads s).
Proof.
  intros Hs. destruct s as [m1 ts w]. cbn. split.
  - intros (gs & p' & w' & Hn)%ready_next. by eapply Hs, step_main.
  - apply Forall_forall. intros p [i Hi]%list_elem_of_lookup_1 (gs & p' & w' & Hn)%ready_next.
    by eapply Hs, step_thread.
Qed.

Lemma process_shuts_down n s :
  steps n (start m) s ->
  (n <= 4 * b)%nat /\ live s /\
  (ctx_done (p_world s) = true \/ ended (p_main s) -> (forall s', ~ gstep s s') -> over_all s).
Proof.
  intros Hs. pose proof (process_live n s Hs) as Hl. split_and!; [|done|].
  - destruct (steps_spent m b n _ s Hs eq_refl Hdisc Hbound) as [_ (b' & ns & _ & _ & Hle)]. lia.
  - destruct Hl as (_ & Hm & Ht). intros Hctx [Hnm Hnt]%stuck_ready.
    assert (He : ended (p_main s)).
    { destruct Hctx as [Hctx|He]; [|done]. destruct Hm as [?|[?|(_ & Hc & _)]]; [done..|congruence]. }
    split; [done|]. specialize (Ht He). rewrite Forall_forall in Ht, Hnt. apply Forall_forall.
    intros p Hp. destruct (Ht p Hp); [done|]. by destruct (Hnt p Hp).
Qed.
End Program.
End Invariant.

(** ** The command and the embedded example *)

(** An event that starts, makes and takes nothing. *)
Definition plain (ev : event ProcE) : Prop :=
  match ev with
  | Ev (inlE _) _ => True
  | Ev (inrE e) _ =>
      match e with
      | MakeChan _ _ | Go _ | Select _ _ => False
      | _ => True
      end
  end.

Lemma plain_log l :
  Forall plain l -> starts l = [] /\ (forall c n, ~ made c n l) /\ (forall c, ~ took c l).
Proof.
  induction 1 as [|[X e x] l Hp Hl (Hs & Hm & Ht)]; [by split_and!; [|intros ?? ?%Exists_nil|intros ? ?%Exists_nil]|].
  unfold starts, made, happened, took in *. cbn [flat_map]. rewrite Hs.
  destruct e as [e|e]; [|destruct e; try done]; (split_and!; [done| |]); intros;
    rewrite Exists_cons; intros [H|H]; try done; first [by eapply Hm|by eapply Ht].
Qed.

Lemma starts_app l l' : starts (l ++ l') = starts l ++ starts l'.
Proof. apply flat_map_app. Qed.

Lemma served_plain l1 l l2 : Forall plain l1 -> Forall plain l2 -> served l -> served (l1 ++ l ++ l2).
Proof.
  intros (Hs1 & _)%plain_log (Hs2 & _)%plain_log (H1 & H2 & H3).
  assert (Ha : forall k, happened k l -> happened k (l1 ++ l ++ l2)) by (intros k Hk; apply Exists_app; right; apply Exists_app; by left).
  assert (Ht : forall c, took c l -> took c (l1 ++ l ++ l2)) by (intros c Hk; apply Exists_app; right; apply Exists_app; by left).
  assert (Ho : over l -> over (l1 ++ l ++ l2)) by (intros [?|?]; [left|right]; auto).
  unfold served. rewrite !starts_app, Hs1, Hs2, app_nil_r. cbn [app]. split_and!; intros; auto.
  destruct H1; auto.
Qed.

(** Walks a program whose events keep the rules. *)
Ltac disciplined_walk := unfold act; emits_walk ltac:(cbn [disciplined]).

(** What a log says, from its last event back to a plain log. *)
Ltac log_facts :=
  intros; unfold over, made in *;
  rewrite ?users_snoc, ?starts_snoc, ?took_snoc, ?happened_snoc; cbn;
  repeat match goal with
    | Hs : starts ?past = [] |- context [users ?past] => unfold users
    | Hs : starts ?past = [] |- _ => rewrite Hs
    end; cbn.

(** Walks a program and counts its events. *)
Ltac bounded_walk :=
  unfold act, trigger, mbind, prog_bind;
  repeat first [progress cbn [bind bounded translate Nat.add] | match goal with
    | |- True => exact Logic.I
    | |- bounded _ ?p => match p with context [match ?x with _ => _ end] => destruct x eqn:? end
    | |- forall _, _ => intros ?
    end].

(** An event of the log. *)
Ltac in_log := solve [repeat first [apply Exists_cons_hd; done | apply Exists_cons_tl]].

(** A premise about goroutines that were not started. *)
Ltac not_started := cbn; solve [intros (? & Hin & Hs); set_solver | intros [? Hin]; set_solver | intros Hin; set_solver].

Ltac served_leaf :=
  split_and!;
  [ first [intros _; left; in_log | intros _; right; left; in_log | intros _; right; right; in_log | not_started]
  | first [intros _; left; in_log | intros _; right; in_log | not_started]
  | first [intros _; in_log | not_started] ].

Section Programs.
Context `{GoLib}.

Lemma store_plain {A} (p : prog postgres.OpenE A) : wp (translate (F := ProcE) (fun X => inlE) p) (fun l _ => Forall plain l).
Proof. induction p as [a|X e k IH]; cbn; [done|]. intros x. eapply wp_mono; [|apply IH]. by constructor. Qed.

Lemma store_disciplined {A} past (p : prog postgres.OpenE A) : emits disciplined past (translate (F := ProcE) (fun X => inlE) p).
Proof. revert past. induction p as [a|X e k IH]; cbn; [done|]. intros past. by split. Qed.

Lemma serve_with_store_disciplined cfg logger st past :
  Forall plain past -> emits disciplined past (serve_with_store cfg logger st).
Proof.
  intros (Hs & Hm & Ht)%plain_log.
  unfold serve_with_store, newFailClosedRateLimiter, startMetricsServer, serveUntilDone, gracefulStop, gracefulStopWithTimeout, shutdownMetrics.
  disciplined_walk; log_facts; solve [naive_solver|set_solver|exists (ServeTo ErrCh); set_solver].
Qed.

Lemma serve_with_store_served cfg logger st : wp (serve_with_store cfg logger st) (fun l _ => served l).
Proof.
  unfold serve_with_store, newFailClosedRateLimiter, startMetricsServer, serveUntilDone, gracefulStop, gracefulStopWithTimeout, shutdownMetrics.
  unfold act; wp_walk; served_leaf.
Qed.

Lemma openStore_plain cfg logger : wp (openStore cfg logger) (fun l _ => Forall plain l).
Proof.
  unfold openStore. case_decide; [cbn; by repeat constructor|]. case_decide; [|constructor].
  apply wp_bind. eapply wp_mono; [|apply store_plain]. intros l r Hl. cbn. by rewrite app_nil_r.
Qed.

Lemma closeStore_plain st : wp (closeStore st) (fun l _ => Forall plain l).
Proof. destruct st; [constructor|apply store_plain]. Qed.

Lemma serveWithContext_disciplined cfg logger past :
  Forall plain past -> emits disciplined past (serveWithContext cfg logger).
Proof.
  intros Hp. unfold serveWithContext. apply emits_bind.
  - unfold openStore. case_decide; [by split|]. case_decide; [|done].
    apply emits_bind; [apply store_disciplined|]. by apply wp_always.
  - eapply wp_mono; [|apply openStore_plain]. intros l [st|err] Hl; [|done]. apply emits_bind.
    + apply serve_with_store_disciplined. by apply Forall_app.
    + apply wp_always. intros l' err. apply emits_bind; [|by apply wp_always].
      destruct st; [done|apply store_disciplined].
Qed.

Lemma served_nil : served [].
Proof. served_leaf. Qed.

Lemma serveWithContext_served cfg logger : wp (serveWithContext cfg logger) (fun l _ => served l).
Proof.
  unfold serveWithContext. apply wp_bind. eapply wp_mono; [|apply openStore_plain].
  intros l [st|err] Hl; [|apply (served_plain l [] []); [done|constructor|apply served_nil]].
  apply wp_bind. eapply wp_mono; [|apply serve_with_store_served]. intros l2 err Hs.
  apply wp_bind. eapply wp_mono; [|apply closeStore_plain]. intros l3 [] Hl3. cbn. rewrite app_nil_r.
  by apply served_plain.
Qed.

Lemma serve_disciplined env : emits disciplined [] (serve env).
Proof.
  unfold serve. destruct (config.Validate _); [done|]. cbn. split; [done|]. intros []. apply emits_bind.
  - apply serveWithContext_disciplined. by repeat constructor.
  - by apply wp_always.
Qed.

Lemma finished_around l x y : served l -> finished ([Ev (inrE NotifyContext) x] ++ l ++ [Ev (inrE StopNotify) y]).
Proof.
  intros Hl. split; [by apply served_plain; [repeat constructor..|]|]. intros _.
  apply Exists_app. right. apply Exists_app. right. by constructor.
Qed.

Lemma serve_finished env : wp (serve env) (fun l _ => finished l).
Proof.
  unfold serve. destruct (config.Validate _); [split; [apply served_nil|set_solver]|]. cbn. intros x.
  apply wp_bind. eapply wp_mono; [|apply serveWithContext_served]. intros l err Hl y. by apply finished_around.
Qed.

Lemma New_bounded dsn : bounded 10 (translate (F := ProcE) (fun X => inlE) (postgres.New dsn)).
Proof. unfold postgres.New, postgres.RunMigrations, postgres.migrate_body. bounded_walk. Qed.

Lemma openStore_bounded cfg logger : bounded 10 (openStore cfg logger).
Proof.
  unfold openStore. case_decide; [bounded_walk|]. case_decide; [|done].
  apply (bounded_bind 10 0); [apply New_bounded|done].
Qed.

Lemma serve_with_store_bounded cfg logger st : bounded 21 (serve_with_store cfg logger st).
Proof.
  unfold serve_with_store, newFailClosedRateLimiter, startMetricsServer, serveUntilDone, gracefulStop, gracefulStopWithTimeout, shutdownMetrics.
  bounded_walk.
Qed.

Lemma closeStore_bounded st : bounded 1 (closeStore st).
Proof. by destruct st. Qed.

(** The events of the longest run: the context, the store, and serving. *)
Definition serve_events : nat := (1 + (10 + (21 + (1 + 0))) + (1 + 0)).

Lemma serve_events_bound env : bounded serve_events (serve env).
Proof.
  unfold serve, serve_events. destruct (config.Validate _); [done|].
  change (bounded (1 + (10 + (21 + (1 + 0))) + (1 + 0))
    (act NotifyContext ≫= fun _ => err ← serveWithContext (config.Load env) (newLogger (config.LogLevel (config.Load env)));
       _ ← act StopNotify; Ret err)).
  rewrite <- Nat.add_assoc. apply bounded_bind; [bounded_walk|intros []]. apply bounded_bind; [|bounded_walk].
  apply bounded_bind; [apply openStore_bounded|]. intros [st|err]; [|done].
  apply bounded_bind; [apply serve_with_store_bounded|]. intros err.
  apply bounded_bind; [apply closeStore_bounded|done].
Qed.

(** *** The embedded example *)

Lemma run_with_store_disciplined logger past :
  Forall plain past -> emits disciplined past (embedded.run_with_store logger).
Proof.
  intros (Hs & Hm & Ht)%plain_log. unfold embedded.run_with_store, embedded.serve_until_done.
  disciplined_walk; log_facts; solve [naive_solver|set_solver|exists (ServeThenClose ErrCh); set_solver].
Qed.

Lemma run_with_store_served logger : wp (embedded.run_with_store logger) (fun l _ => served l).
Proof. unfold embedded.run_with_store, embedded.serve_until_done. unfold act; wp_walk; served_leaf. Qed.

Lemma run_with_store_bounded logger : bounded 16 (embedded.run_with_store logger).
Proof. unfold embedded.run_with_store, embedded.serve_until_done. bounded_walk. Qed.

Lemma run_with_context_disciplined env logger past :
  Forall plain past -> emits disciplined past (embedded.run_with_context env logger).
Proof.
  intros Hp. apply emits_bind; [apply store_disciplined|].
  eapply wp_mono; [|apply store_plain]. intros l [u|err] Hl; [|done]. apply emits_bind.
  - apply run_with_store_disciplined. by apply Forall_app.
  - apply wp_always. intros l' err. apply emits_bind; [apply store_disciplined|by apply wp_always].
Qed.

Lemma run_disciplined env : emits disciplined [] (embedded.run env).
Proof.
  split; [done|]. intros []. apply (emits_bind _ _ (embedded.run_with_context env (mkLogger LevelInfo))); [|by apply wp_always].
  apply run_with_context_disciplined. by repeat constructor.
Qed.

Lemma run_with_context_served env logger : wp (embedded.run_with_context env logger) (fun l _ => served l).
Proof.
  apply wp_bind. eapply wp_mono; [|apply store_plain].
  intros l [u|err] Hl; [|apply (served_plain l [] []); [done|constructor|apply served_nil]].
  apply wp_bind. eapply wp_mono; [|apply run_with_store_served]. intros l2 err Hs.
  apply wp_bind. eapply wp_mono; [|apply store_plain]. intros l3 [] Hl3. cbn. rewrite app_nil_r.
  by apply served_plain.
Qed.

Lemma run_finished env : wp (embedded.run env) (fun l _ => finished l).
Proof.
  intros x. apply (wp_bind (embedded.run_with_context env (mkLogger LevelInfo))).
  eapply wp_mono; [|apply run_with_context_served].
  intros l err Hl y. by apply finished_around.
Qed.

Definition run_events : nat := (1 + (10 + (16 + (1 + 0))) + (1 + 0)).

Lemma run_events_bound env : bounded run_events (embedded.run env).
Proof.
  unfold embedded.run, run_events. rewrite <- Nat.add_assoc.
  apply bounded_bind; [bounded_walk|intros []]. apply bounded_bind; [|bounded_walk].
  unfold embedded.run_with_context. apply bounded_bind; [apply New_bounded|]. intros [u|err]; [|done].
  apply bounded_bind; [apply run_with_store_bounded|]. intros err. apply bounded_bind; [done|done].
Qed.

(** C36. The command shuts down.  However the goroutines of a run, the signals and the
    gRPC server interleave: the run has a bounded number of events; a goroutine has
    ended, can go on, or is in a call of gRPC or net/http or waits for the context, and
    the main program waits only before a signal and for a goroutine in [Serve]: nothing
    sends on or closes a closed channel or waits for a channel for ever; when [serve] has
    returned every goroutine has ended or can go on; and a process that cannot go on
    after a signal, or after [serve] returned, has ended all its goroutines. *)
Theorem serve_shuts_down `{GrpcServer} env n s :
  steps n (start (serve env)) s ->
  (n <= 4 * serve_events)%nat /\ live s /\
  (ctx_done (p_world s) = true \/ ended (p_main s) -> (forall s', ~ gstep s s') -> over_all s).
Proof.
  apply process_shuts_down; [apply serve_disciplined|apply serve_finished|apply serve_events_bound].
Qed.

(** C37. The embedded example shuts down: the same of every process of its [run]. *)
Theorem embedded_shuts_down `{GrpcServer} env n s :
  steps n (start (embedded.run env)) s ->
  (n <= 4 * run_events)%nat /\ live s /\
  (ctx_done (p_world s) = true \/ ended (p_main s) -> (forall s', ~ gstep s s') -> over_all s).
Proof.
  apply process_shuts_down; [apply run_disciplined|apply run_finished|apply run_events_bound].
Qed.
End Programs.

(** ** A run *)

#[local] Existing Instance demo_lib.

(** A gRPC server with connections: it stops accepting them, and is over without. *)
Record conns : Type := mkConns { draining : bool; open_conns : nat }.

Inductive conn_step : relation conns :=
| conn_opens n : conn_step (mkConns false n) (mkConns false (S n))
| conn_ends d n : conn_step (mkConns d (S n)) (mkConns d n).

Definition drained (g : conns) : Prop := g = mkConns true 0.

#[local] Instance demo_grpc : GrpcServer.
Proof.
  refine {|
    grpc := conns;
    NewServer := mkConns false 0;
    proceeds := conn_step;
    Serve_returns g err := match err with Some _ => draining g = false | None => drained g end;
    GracefulStop_starts g := mkConns true (open_conns g);
    GracefulStop_returns := drained;
    Stop_stops _ := mkConns true 0;
    stopped := drained;
  |}; try done.
  - intros g ->. by exists None.
  - intros g g' -> Hs. inversion Hs.
  - by intros g ->.
Defined.

Lemma run_main {R} n (s0 : process R) m ts w gs m' w' :
  steps n s0 (Proc m ts w) -> next m w gs m' w' -> steps (S n) s0 (Proc m' (ts ++ (body <$> gs)) w').
Proof. intros Hs Hn. eapply steps_go; [done|by apply step_main]. Qed.

Lemma run_thread {R} n (s0 : process R) m ts w i p gs p' w' :
  steps n s0 (Proc m ts w) -> ts !! i = Some p -> next p w gs p' w' ->
  steps (S n) s0 (Proc m (<[i := p']> ts ++ (body <$> gs)) w').
Proof. intros Hs Hi Hn. eapply steps_go; [done|by eapply step_thread]. Qed.

Lemma run_signal {R} n (s0 : process R) m ts w :
  steps n s0 (Proc m ts w) -> notified w = true -> steps n s0 (Proc m ts (cancel w)).
Proof. intros Hs Hn. eapply steps_env; [done|by apply step_signal]. Qed.

(** The event of a goroutine happens with the answer [x]. *)
Ltac happens x := exists x; cbn; (split; [|split; reflexivity]); solve [repeat first [reflexivity | progress cbn | lia | intros _ | split | eexists]].
Ltac main_does H x := eapply run_main in H; [|happens x]; cbn in H.
Ltac thread_does H i x := eapply (run_thread _ _ _ _ _ i) in H; [|reflexivity|happens x]; cbn in H.

Definition no_env : config.environ := fun _ => EmptyString.

(** A process whose goroutines have all ended cannot go on. *)
Lemma over_stuck {R} (r : R) ts w s' : Forall ended ts -> ~ gstep (Proc (Ret r) ts w) s'.
Proof.
  intros Hts Hs. inversion Hs as [m1 ts1 w1 gs m' w' Hn|i m1 ts1 w1 p gs p' w' Hi Hn]; subst; [done|].
  pose proof (Forall_lookup_1 _ _ _ _ Hts Hi) as He. by destruct p.
Qed.

(** A run from the start to a signal and to the end of every goroutine. *)
Lemma serve_shuts_down_witness :
  exists n s, steps n (start (serve no_env)) s /\ ctx_done (p_world s) = true /\
    (n <= 4 * serve_events)%nat /\ live s /\ over_all s.
Proof.
  pose proof (steps_refl (start (serve no_env))) as Hs.
  unfold start in Hs at 2. let m := eval vm_compute in (serve no_env) in change (Proc (serve no_env)) with (Proc m) in Hs.
  do 7 main_does Hs tt.
  main_does Hs (@Ok error string "0.0.0.0:8080").
  do 6 main_does Hs tt.
  apply run_signal in Hs; [|reflexivity].
  main_does Hs (@inl received received None).
  do 3 main_does Hs tt.
  do 3 thread_does Hs 3%nat tt.
  main_does Hs (@inl received received None).
  do 2 main_does Hs tt.
  thread_does Hs 2%nat (@None error).
  thread_does Hs 2%nat tt.
  thread_does Hs 0%nat (Some ErrServerClosed).
  change (negb _) with false in Hs. cbn in Hs.
  thread_does Hs 1%nat (@None error).
  thread_does Hs 1%nat tt.
  destruct (serve_shuts_down no_env _ _ Hs) as (Hn & Hl & Ho).
  eexists _, _. split; [exact Hs|]. split; [reflexivity|]. split; [exact Hn|]. split; [exact Hl|].
  apply Ho; [left; reflexivity|]. intros s'. apply over_stuck. by repeat constructor.
Defined.

(** A run with the database, to an error of the gRPC server. *)
Lemma embedded_shuts_down_witness :
  exists n s, steps n (start (embedded.run no_env)) s /\ ctx_done (p_world s) = true /\
    (n <= 4 * run_events)%nat /\ live s /\ over_all s.
Proof.
  pose proof (steps_refl (start (embedded.run no_env))) as Hs.
  unfold start in Hs at 2. let m := eval vm_compute in (embedded.run no_env) in change (Proc (embedded.run no_env)) with (Proc m) in Hs.
  main_does Hs tt.
  do 5 main_does Hs (@Ok error unit tt).
  do 2 main_does Hs (@None error).
  main_does Hs (@Ok error unit tt).
  main_does Hs (@None error).
  do 5 main_does Hs tt.
  main_does Hs (@Ok error string "127.0.0.1:8080").
  do 3 main_does Hs tt.
  thread_does Hs 0%nat (Some (ErrorfText "accept" [])).
  rewrite bool_decide_eq_false_2 in Hs by done. cbn in Hs.
  thread_does Hs 0%nat tt.
  main_does Hs (@inr received received (Some (ErrorfText "accept" []))).
  do 2 main_does Hs tt.
  thread_does Hs 0%nat tt.
  destruct (embedded_shuts_down no_env _ _ Hs) as (Hn & Hl & Ho).
  eexists _, _. split; [exact Hs|]. split; [reflexivity|]. split; [exact Hn|]. split; [exact Hl|].
  apply Ho; [left; reflexivity|]. intros s'. apply over_stuck. by repeat constructor.
Defined.
